(* ===== verification/_CoqProject ===== *)
-Q . S2P
Prelude.v
Memory.v
Cells.v
RoundUp.v
BaseOffset.v
Buffer.v
IntrusiveQueue.v
AtomicIntrusiveQueue.v
CircularBuffer.v
AtomicSegmentArray.v
IntrusiveHeap.v
FrameAllocator.v
RemoteSource.v
LocalSource.v
StopSource.v
StopToken.v
MpscQueue.v
Tasks.v
Rings.v
Scheduler.v
Shutdown.v
Wakeup.v
Runtime.v
Receive.v
Accept.v
Frames.v
Handles.v
Storage.v
Setup.v
Pool.v
Task.v
Main.v
