(* ===== verification/Prelude.v ===== *)
(** * A verification library for the [__ngr] runtime

    [__ngr] (src/include/__ngr, src/source/main.cxx) is a coroutine runtime on
    io_uring: tasks are C++ coroutines, a scheduler runs on one thread, submits
    their operations to the kernel and resumes them on completion; other threads
    submit through lock-free queues.  This library translates the headers into
    Rocq definitions and proves what each part promises to the others.

    ** The program and the files

    Each file models one header, or one concern of a large one, in a module of
    the header's name without the underscores; definitions keep the names of
    the source.  All paths are below src/include/__ngr/__core unless another is
    given.

    The foundations:
    - [Prelude]: machine integers with their wrap-around, pointers, the monad [M]
      of fallible state with its faults, total correctness ([returns]), invariants
      and simulations of step relations.
    - [Memory]: objects at addresses, links between them, chains.
    - [Cells]: symbolic heaps for code that rewires several members.
    - [Handles]: __file_descriptor.hpp, __memory_mapped_region.hpp, and the
      ownership of a coroutine by a [__task].
    - [Storage]: __aligned_storage.hpp.
    - [RoundUp]: __round_up.hpp.  [Buffer]: __buffer.hpp.  [BaseOffset]:
      __base_offset.hpp.

    The containers, all intrusive:
    - [IntrusiveQueue]: __intrusive_queue.hpp, queues of operations everywhere.
    - [AtomicIntrusiveQueue]: __atomic_intrusive_queue.hpp, the lock-free stack by
      which threads hand over nodes; used by the remote queues of the scheduler
      and the slots of the shared buffer pool.
    - [MpscQueue]: __intrusive_mpsc_queue.hpp.
    - [AtomicSegmentArray]: __atomic_segment_array.hpp, the table of remote queues.
    - [CircularBuffer]: __circular_buffer.hpp.
    - [IntrusiveHeap]: __intrusive_heap.hpp, the timers of a scheduler.

    Memory for coroutines and for data:
    - [FrameAllocator]: __allocator.hpp, a stack of coroutine frames in chunks.
    - [Frames]: operator new and delete of the promises of __task.hpp with the
      thread-local allocator of __task_facade.hpp, on top of [FrameAllocator].
    - [RemoteSource], [LocalSource]: __memory_resource.hpp, the pool of receive
      buffers shared by all threads and the reference-counted spans one thread
      cuts from its blocks; [LocalSource] is proved against the interface
      [Remote] with the laws [RemoteLaws], which [RemoteSource] satisfies.
    - [Pool]: ../__protocal/__memory_resource.hpp, blocks by size class.

    Coroutines and the scheduler:
    - [StopSource]: __stop_inplace.hpp, stop requests and their callbacks.
    - [StopToken]: __stop_inplace.hpp, the tokens that point to a source.
    - [Task]: __task.hpp, __spawn.hpp: promises, awaiters, transfer of control.
    - [Setup]: __scheduler.hpp, the constructor of a scheduler and the rings'
      memory, on top of [Handles].
    - [Tasks]: __scheduler.hpp, the operations queued in a scheduler.
    - [Rings]: __scheduler.hpp, the submission and the completion queue.
    - [Scheduler]: __scheduler.hpp, one round of the loop and the timers.
    - [Shutdown]: __scheduler.hpp, the end of a run.
    - [Wakeup]: __scheduler.hpp, submission from other threads, sleeping and
      shutting down; the round is the interface [LocalScheduler], and [LocalLaws]
      says that the scheduler keeps the requests it is given.
    - [Runtime]: __scheduler.hpp, the two together: the data of [Scheduler] and
      [Shutdown] as an instance of [LocalScheduler], so that the machine of
      [Wakeup] over it is the whole of _M_run_until_stop.
    - [Receive]: src/source/main.cxx, the multishot receive with its buffer ring.
    - [Accept]: src/source/main.cxx, the multishot accept and its connections, each
      a system of [Receive].
    - [Main]: src/source/main.cxx, the construction of the scheduler and [main] up
      to the loop, over [Setup] and [Runtime].

    ** How state and code are represented

    Sequential code is a function in the monad [M S]: it runs from a store of type
    [S] to a result and a store, or to a [fault], which is what the source would
    run into: a null or dangling pointer, a failing [assert], undefined behaviour,
    [std::terminate].  A member function that changes its object is one
    definition that does all of its accesses in the order of the source.

    Concurrent code is a machine: [thread_step] (or [push_step], [pop_step],
    [call_step]) performs one access to shared memory of one call, and a relation
    [step] interleaves any number of calls; properties are invariants of what is
    reachable.  Accesses are sequentially consistent, which the orders in the
    source are meant to provide for the accesses concerned; compare-exchange may
    fail spuriously where the source uses the weak form.

    Code outside the repository is a parameter: [operator new], [mmap], the system
    calls, the functions a task is constructed with, the kernel's side of a ring.
    What the code relies on is a named hypothesis ([new_spec], [system_ok],
    [layout_ok], [mapped], [FrameAllocation], [RemoteLaws]), each with an
    instance.  In [Runtime] the other threads submit operations that are not in
    a queue already ([io_ok], [dr_ok]), and the kernel completes operations it
    has ([posts_ok]), during io_uring_enter as IORING_SETUP_DEFER_TASKRUN makes it;
    what a request has become is read off the queues, the heap and the log of
    the calls of the tasks' functions ([kept]).

    ** What the theorems show

    - Containers: each operation on a well-formed structure runs without a fault,
      returns what the operation on lists, trees or multisets returns, and writes
      only the members it owns ([exec_refines], [push_inserts], [pop_least],
      [remove_exact]); the concurrent ones are linearizable, lose and duplicate
      nothing and touch no freed node ([trace_linearizable], [mpsc_fifo],
      [mpsc_never_faults], [fold_sees_published]).
    - Allocators: clients that respect stack order see independent memories
      and fail only where [operator new] refuses a request of the operation that
      is running ([client_refines], [frames_nest], [execute_isolates],
      [push_pop_restores]; [attempts]); spans held by clients are disjoint and their blocks alive ([held_spans_disjoint]); the
      pool's ring is first in, first out ([ring_is_fifo]); blocks are laid out
      inside their mappings ([block_lays_out]).
    - Stop requests: a callback runs at most once, only after a request, every
      live one before the request returns, none after its destructor has
      returned ([callbacks_run_once], [destroyed_is_untouched], [mutual_exclusion],
      [stop_never_faults]).
    - Raw storage: a client never fails and leaks nothing exactly when it obeys the
      discipline of its life times ([storage_well_typed]).
    - Tasks: a tree of tasks behaves like its bodies run in place, frames live and
      die in stack order, every resumption ends, what [_M_do_execute] does after
      one goes wrong exactly when the coroutine of the facade has ended, and a stop
      reaches the task that is suspended ([tasks_run_in_place], [resumptions_end],
      [stop_reaches_leaf]).
    - The scheduler: its constructor leaks nothing and its rings lie in memory it
      owns ([scheduler_owns_or_releases], [rings_in_bounds]); operations are
      submitted and completed in order, none is lost, the counts add up, timer
      commands arm, disarm and stop the timers they name ([submit_fifo],
      [complete_in_order], [run_some_accounts], [timers_settle]); no wake-up is lost and shutting down strands nothing
      ([no_lost_wakeup], [shutdown_strands_nothing]); the end of a run succeeds when all
      operations have ended ([shutdown_needs_all]).
    - The scheduler with all threads: the counts stay exact and no request is lost
      at every point of every run ([whole_run_accounts]), every step of the
      scheduler's thread ends, with the end of the program after an error of the
      kernel ([rounds_always_end]), and when the run is over nothing is with the
      kernel or on its way ([run_ends_clean]); [main] enters the loop with data these theorems are about
      ([main_enters_loop]).
    - Receiving: the coroutine sees exactly the bytes of each completion and the
      kernel may write none of them ([receive_view_exact],
      [receive_slots_conserved], [receive_goes_on_or_strands]); every accepted
      descriptor gets a connection, and one accept is always on its way
      ([accepts_are_served]).
    - Some theorems state behaviour the code should not have, in the form in which
      it shows: [suspended_child_cannot_be_deleted], [finished_root_leaves_dangling]
      and [second_root_dies_with_first] ([Frames]), [group_numbers_run_out] ([Accept]),
      [resumptions_end], [suspended_root_cannot_be_destroyed] and [unawaited_task_is_undefined]
      ([Task]), [choose_blksc_floor] ([Pool]), [pop_misses_settled_nodes]
      ([MpscQueue]), [notify_sticks] ([Wakeup]), [splice_prefix_keeps_link]
      ([IntrusiveQueue]) and others.

    ** Bounds and fuel

    Integers have the width of the source and wrap around as it does; a theorem
    that needs a value in range says so.  Loops and recursion whose end is not
    structural take fuel, and running out of it is the fault [OutOfFuel], so that
    a theorem that excludes faults proves termination too.  The fuel is stated
    with each theorem: the length of the chain or queue for list loops, the number
    of levels for the heap, two chunks more than there are for the frame
    allocator, the number of buffers of a block, the length of the chain of tasks
    for a stop request; where no closed bound is given the theorem says that some
    amount is enough and more does not change the result ([resumptions_end]).
    The rounds of the scheduler give the same result with more fuel ([grows]), so
    that [Runtime] can quantify over it: whatever fuel a round was run with, it
    is the round that [rounds_always_end] proves to end.
    Waiting loops of concurrent code (the spin locks, the publication of a ticket)
    are states of the machines, and progress is stated for the thread that can
    move.

    ** What is not modelled

    - Weak memory: see above.
    - [Runtime] leaves aside operations that are themselves cancellations of
      others (with them a stop request does not empty the queue,
      [cancel_disables_stop]), and takes the functions of tasks to return, and to
      push finitely many operations between two visits to the kernel.  Runs in
      which a function throws, as those of main.cxx do when a completion reports an
      error, end there ([Terminate]).
    - [Accept] has completions that bring a descriptor; one that reports an error
      ends the program (__complete throws and is noexcept).
    - Failures of [close], [munmap] and of the write to the event descriptor: the
      code ignores the first two, and throws on the third.  The counter of the event
      descriptor and [__n_submit_in_flight_] are unbounded in [Wakeup]; the latter
      is the number of calls in the section it counts, or -1 ([flight_inv]).
    - The array of [AtomicSegmentArray] is never refused.  Callbacks of [StopSource]
      are registered with a source: a default token, whose source is null, and
      which __stop_inplace.hpp:255 tests for, is in [StopToken] only.
    - [__fwd_] of a root is destroyed without having been constructed
      (__task.hpp:29).  The storage is zeroed by its initialiser, so that the
      destructor finds a null source and does nothing, which is what [Task] does.
    - [LocalSource] covers requests of 1 to 4096 bytes and a pool that can serve
      when it is asked; what happens otherwise is in [oversized_request_escapes],
      [empty_request_faults] and [partial_slot_starves_out_of_bounds].
    - The bodies of coroutines: [Task] takes them as well-founded trees.  A
      coroutine that loops for ever, like [__receive_coro], is covered up to any
      point of its execution by the body unrolled so far.
    - [Task] takes stop sources without concurrent requests, [StopSource] has the
      concurrency; [Task] takes the frames from an abstract allocator, [Frames]
      has the one of the source.
    - __spin_loop_pause.hpp and __prologue.hpp, which have no behaviour;
      ../__protocal/__message.hpp and the
      [__pool] and [__cache] of ../__protocal/__memory_resource.hpp, which are
      data without operations; tests, generated examples and backup copies. *)

From stdpp Require Export base tactics option list numbers gmap relations.
From Stdlib Require Export ZArith Lia.

#[export] Set Warnings "-clear-no-such-hyp,-level-tolerance".

Open Scope Z_scope.

(** ** Machine integers

    An unsigned [w]-bit integer is a [Z] in [0, 2^w); every operation of the
    source that may leave that range is followed by the reduction the language
    prescribes. *)

Definition wrap (w z : Z) : Z := z mod 2 ^ w.
Abbreviation u8 := (wrap 8).
Abbreviation u16 := (wrap 16).
Abbreviation u32 := (wrap 32).
Abbreviation u64 := (wrap 64).

(** Two's complement: the value of a signed [w]-bit integer. *)
Definition swrap (w z : Z) : Z := wrap w (z + 2 ^ (w - 1)) - 2 ^ (w - 1).

Definition is_word (w z : Z) : Prop := 0 <= z < 2 ^ w.

Lemma wrap_range w z : 0 <= w -> is_word w (wrap w z).
Proof. intros. apply Z.mod_pos_bound. lia. Qed.

Lemma wrap_small w z : is_word w z -> wrap w z = z.
Proof. apply Z.mod_small. Qed.

Lemma swrap_small w z : - 2 ^ (w - 1) <= z < 2 ^ (w - 1) -> 0 < w -> swrap w z = z.
Proof.
  intros ??. unfold swrap. rewrite wrap_small; [lia|].
  assert (2 ^ w = 2 * 2 ^ (w - 1)) by (rewrite <- Z.pow_succ_r by lia; f_equal; lia). split; lia.
Qed.

Lemma wrap_wrap w z : wrap w (wrap w z) = wrap w z.
Proof. apply Zmod_mod. Qed.

Lemma wrap_add_l w a b : wrap w (wrap w a + b) = wrap w (a + b).
Proof. apply Zplus_mod_idemp_l. Qed.

Lemma wrap_add_r w a b : wrap w (a + wrap w b) = wrap w (a + b).
Proof. apply Zplus_mod_idemp_r. Qed.

Lemma wrap_sub_l w a b : wrap w (wrap w a - b) = wrap w (a - b).
Proof. apply Zminus_mod_idemp_l. Qed.

Lemma wrap_sub_r w a b : wrap w (a - wrap w b) = wrap w (a - b).
Proof. apply Zminus_mod_idemp_r. Qed.

Lemma wrap_land_ones w z : 0 <= w -> wrap w z = Z.land z (Z.ones w).
Proof. intros. unfold wrap. by rewrite Z.land_ones. Qed.

(** Masking with [2^k - 1] is reduction modulo [2^k]. *)
Lemma land_pow2_mask z k : 0 <= k -> Z.land z (2 ^ k - 1) = z mod 2 ^ k.
Proof. intros. rewrite <- Z.land_ones, Z.ones_equiv by done. f_equal. Qed.

Lemma wrap_mod_pow2 w k z : 0 <= k <= w -> wrap w z mod 2 ^ k = z mod 2 ^ k.
Proof.
  intros. unfold wrap. apply Z.mod_mod_divide.
  exists (2 ^ (w - k)). rewrite <- Z.pow_add_r by lia. f_equal. lia.
Qed.

(** ** Pointers *)

Abbreviation ptr := Z (only parsing).
Definition nullptr : ptr := 0.

(** ** Fallible, stateful code

    A piece of C++ that reads and writes a store [S] and returns an [A] is a
    function from the store to an [outcome].  A fault is the undefined or
    throwing behaviour the source would run into: a null or dangling
    dereference, a failing [assert], an access past the end of an array; a
    loop that exhausts the fuel given to it is a fault of its own, so that a
    theorem that excludes faults is a termination theorem too. *)

Inductive fault :=
  | NullDeref
  | Dangling (p : ptr)
  | AssertFailed
  | OutOfBounds
  | Undefined
  | OutOfFuel
  | Terminate.

#[export] Instance fault_eq_dec : EqDecision fault.
Proof. solve_decision. Defined.

Inductive outcome (A : Type) :=
  | Done (a : A)
  | Fault (f : fault).
Arguments Done {A} _.
Arguments Fault {A} _.

Definition M (S A : Type) : Type := S -> outcome (A * S).

#[export] Instance M_ret {S} : MRet (M S) := fun A a s => Done (a, s).
#[export] Instance M_bind {S} : MBind (M S) := fun A B k m s =>
  match m s with
  | Done (a, s') => k a s'
  | Fault f => Fault f
  end.

Definition throw {S A} (f : fault) : M S A := fun _ => Fault f.
Definition get {S} : M S S := fun s => Done (s, s).
Definition put {S} (s : S) : M S unit := fun _ => Done (tt, s).
Definition modify {S} (f : S -> S) : M S unit := fun s => Done (tt, f s).

(** The [assert] macro, enabled in the builds the project configures. *)
Definition assert {S} (b : bool) : M S unit :=
  if b then mret tt else throw AssertFailed.

(** [returns m s Q]: started in [s], [m] runs to completion without a fault
    and its result and final store satisfy [Q]. *)
Definition returns {S A} (m : M S A) (s : S) (Q : A -> S -> Prop) : Prop :=
  match m s with
  | Done (a, s') => Q a s'
  | Fault _ => False
  end.

Section returns.
Context {S : Type}.

Lemma returns_mono {A} (m : M S A) s (P Q : A -> S -> Prop) :
  returns m s P -> (forall a s', P a s' -> Q a s') -> returns m s Q.
Proof. unfold returns. destruct (m s) as [[]|]; auto. Qed.

Lemma returns_ret {A} (a : A) s (Q : A -> S -> Prop) :
  Q a s -> returns (mret a) s Q.
Proof. done. Qed.

Lemma returns_bind {A B} (m : M S A) (k : A -> M S B) s (Q : B -> S -> Prop) :
  returns m s (fun a s' => returns (k a) s' Q) -> returns (m ≫= k) s Q.
Proof. unfold returns, mbind, M_bind. by destruct (m s) as [[]|]. Qed.

Lemma returns_bind_mono {A B} (m : M S A) (k : A -> M S B) s
    (P : A -> S -> Prop) (Q : B -> S -> Prop) :
  returns m s P -> (forall a s', P a s' -> returns (k a) s' Q) ->
  returns (m ≫= k) s Q.
Proof. intros. eapply returns_bind, returns_mono; eauto. Qed.

Lemma returns_bind_assoc {A B C} (m : M S A) (k : A -> M S B) (h : B -> M S C) s
    (Q : C -> S -> Prop) :
  returns ((m ≫= k) ≫= h) s Q -> returns (m ≫= fun a => k a ≫= h) s Q.
Proof. unfold returns, mbind, M_bind. by destruct (m s) as [[]|]. Qed.

Lemma returns_assert (b : bool) s (Q : unit -> S -> Prop) :
  b = true -> Q tt s -> returns (assert b) s Q.
Proof. by intros ->. Qed.

Lemma returns_modify (f : S -> S) s (Q : unit -> S -> Prop) :
  Q tt (f s) -> returns (modify f) s Q.
Proof. done. Qed.

Lemma returns_get s (Q : S -> S -> Prop) : Q s s -> returns get s Q.
Proof. done. Qed.

Lemma returns_put (s' : S) s (Q : unit -> S -> Prop) :
  Q tt s' -> returns (put s') s Q.
Proof. done. Qed.

Lemma returns_Done {A} (m : M S A) s Q :
  returns m s Q <-> exists a s', m s = Done (a, s') /\ Q a s'.
Proof.
  unfold returns. destruct (m s) as [[a s']|]; split.
  - eauto.
  - by intros (? & ? & [= <- <-] & ?).
  - done.
  - by intros (? & ? & ? & ?).
Qed.

(** Running a sequence up to a point, and into a fault. *)
Lemma run_bind {A B} (c : M S A) (g : A -> M S B) s a s' :
  c s = Done (a, s') -> (c ≫= g) s = g a s'.
Proof. unfold mbind, M_bind. by intros ->. Qed.

Lemma bind_fault {A B} (c : M S A) (g : A -> M S B) s f P :
  returns c s P -> (forall a s', P a s' -> g a s' = Fault f) -> (c ≫= g) s = Fault f.
Proof. unfold returns, mbind, M_bind. destruct (c s) as [[a s']|]; [auto|done]. Qed.
End returns.

(** [grows m m']: whatever [m] computes, [m'] computes too.  A loop with more fuel
    grows, so that what it computes does not depend on the fuel. *)
Definition grows {S A} (m m' : M S A) : Prop := forall s r, m s = Done r -> m' s = Done r.

Lemma grows_refl {S A} (m : M S A) : grows m m.
Proof. by intros s r. Qed.

Lemma grows_throw {S A} f (m : M S A) : grows (throw f) m.
Proof. done. Qed.

Lemma grows_bind {S A B} (m m' : M S A) (k k' : A -> M S B) :
  grows m m' -> (forall a, grows (k a) (k' a)) -> grows (m ≫= k) (m' ≫= k').
Proof.
  intros Hm Hk s r. unfold mbind, M_bind. destruct (m s) as [[a s']|] eqn:E; [|done]. rewrite (Hm _ _ E). apply Hk.
Qed.

(** Follows the structure of a program down to its loops. *)
Ltac grow := intros; repeat first
  [ apply grows_refl | apply grows_throw | apply grows_bind; [|intros ?] | progress case_decide
  | match goal with |- grows (match ?x with _ => _ end) _ => destruct x end ].

Create HintDb run.
#[export] Hint Resolve returns_ret returns_assert returns_modify returns_get
  returns_put : run.

(** ** Transition systems *)

Section transitions.
Context {S : Type} (step : S -> S -> Prop).

Lemma invariant_rtc (I : S -> Prop) :
  (forall s s', I s -> step s s' -> I s') ->
  forall s s', I s -> rtc step s s' -> I s'.
Proof. intros Hstep s s' Hs Hr. revert Hs. induction Hr; eauto. Qed.

(** Forward simulation with stuttering: every concrete step is matched by
    zero or more abstract ones. *)
Context {A : Type} (astep : A -> A -> Prop) (R : S -> A -> Prop).

Lemma simulation_rtc :
  (forall s s' a, R s a -> step s s' -> exists a', rtc astep a a' /\ R s' a') ->
  forall s s' a, rtc step s s' -> R s a -> exists a', rtc astep a a' /\ R s' a'.
Proof.
  intros Hsim s s' a Hr. revert a. induction Hr as [s|s s1 s2 Hs _ IH].
  - eauto using rtc_refl.
  - intros a HR. destruct (Hsim _ _ _ HR Hs) as (a1 & Ha1 & HR1).
    destruct (IH _ HR1) as (a2 & Ha2 & HR2). exists a2. split; [by etrans|done].
Qed.
End transitions.
