(* ===== verification/Memory.v ===== *)
(** * Objects in memory and intrusive links

    The containers of the library are intrusive: they own no storage, they
    thread a link through a member of objects that somebody else allocated.
    Memory is therefore a finite map from addresses to objects of the node
    type, and the pointer-to-member template argument [_Next] of the queues is
    the class [Linked]: a getter and a setter that touch one member only. *)

From S2P Require Import Prelude.

(** ** Objects *)

Section objects.
Context {Node : Type}.

(** Reading the object behind a pointer; the source's [*p] and [p->...]. *)
Definition load (p : ptr) : M (gmap ptr Node) Node := fun m =>
  if decide (p = nullptr) then Fault NullDeref
  else match m !! p with
       | Some n => Done (n, m)
       | None => Fault (Dangling p)
       end.

(** Writing a member of the object behind a pointer. *)
Definition update (p : ptr) (f : Node -> Node) : M (gmap ptr Node) unit :=
  n ← load p; modify <[p := f n]>.

(** [live m p]: [p] points to an object. *)
Definition live (m : gmap ptr Node) (p : ptr) : Prop :=
  p <> nullptr /\ is_Some (m !! p).

Lemma returns_load p n (m : gmap ptr Node) (Q : Node -> gmap ptr Node -> Prop) :
  p <> nullptr -> m !! p = Some n -> Q n m -> returns (load p) m Q.
Proof. intros. unfold returns, load. rewrite decide_False by done. by simplify_map_eq. Qed.

Lemma returns_update p f n (m : gmap ptr Node) (Q : unit -> gmap ptr Node -> Prop) :
  p <> nullptr -> m !! p = Some n -> Q tt (<[p := f n]> m) -> returns (update p f) m Q.
Proof.
  intros. unfold update. eapply returns_bind, returns_load; eauto.
Qed.
End objects.

(** ** The link member *)

Class Linked (Node : Type) := {
  next_of : Node -> ptr;
  set_next : ptr -> Node -> Node;
  next_of_set_next p n : next_of (set_next p n) = p;
  set_next_set_next p q n : set_next p (set_next q n) = set_next p n;
  set_next_next_of n : set_next (next_of n) n = n;
}.

Definition get_next `{Linked Node} (p : ptr) : M (gmap ptr Node) ptr :=
  n ← load p; mret (next_of n).
Definition put_next `{Linked Node} (p v : ptr) : M (gmap ptr Node) unit :=
  update p (set_next v).

Create Rewrite HintDb links.
#[export] Hint Rewrite @next_of_set_next @set_next_set_next @set_next_next_of : links.

Section links.
Context `{Linked Node}.
Implicit Types (m : gmap ptr Node) (p q x : ptr) (l r : list ptr).

Lemma returns_get_next p n m Q :
  p <> nullptr -> m !! p = Some n -> Q (next_of n) m -> returns (get_next p) m Q.
Proof. intros. unfold get_next. eapply returns_bind, returns_load; eauto. Qed.

Lemma returns_put_next p v n m (Q : unit -> gmap ptr Node -> Prop) :
  p <> nullptr -> m !! p = Some n -> Q tt (<[p := set_next v n]> m) ->
  returns (put_next p v) m Q.
Proof. intros. unfold put_next. by eapply returns_update. Qed.

(** ** Chains

    [lseg m p l q]: following the link from [p] visits exactly the objects
    of [l], in that order, and then arrives at [q]. *)
Fixpoint lseg m p l q : Prop :=
  match l with
  | [] => p = q
  | x :: l' => p = x /\ x <> nullptr /\ exists n, m !! x = Some n /\ lseg m (next_of n) l' q
  end.

Lemma lseg_app m p l1 l2 q :
  lseg m p (l1 ++ l2) q <-> exists x, lseg m p l1 x /\ lseg m x l2 q.
Proof.
  revert p. induction l1 as [|y l1 IH]; intros p; simpl.
  - naive_solver.
  - setoid_rewrite IH. naive_solver.
Qed.

Lemma lseg_live m p l q x : lseg m p l q -> x ∈ l -> live m x.
Proof.
  revert p. induction l as [|y l IH]; simpl; [set_solver|].
  intros p (-> & ? & n & ? & Hl) [->|]%elem_of_cons; [split; eauto|eauto].
Qed.

Lemma lseg_cons_inv m p l q :
  lseg m p l q -> p <> q -> exists n l', l = p :: l' /\ p <> nullptr /\
    m !! p = Some n /\ lseg m (next_of n) l' q.
Proof. destruct l as [|x l]; simpl; [done|]. intros (-> & ? & n & ? & ?) ?. eauto 10. Qed.

Lemma lseg_null m l q : lseg m nullptr l q -> l = [] /\ q = nullptr.
Proof. destruct l; simpl; [done|]. naive_solver. Qed.

(** Two chains from the same place to [nullptr] are the same chain. *)
Lemma lseg_null_det m p l1 l2 :
  lseg m p l1 nullptr -> lseg m p l2 nullptr -> l1 = l2.
Proof.
  revert p l2. induction l1 as [|x l1 IH]; intros p l2; simpl.
  - intros -> [-> _]%lseg_null. done.
  - intros (-> & ? & n & Hn & H1) H2.
    destruct (lseg_cons_inv _ _ _ _ H2) as (n' & l' & -> & _ & ? & ?); [done|].
    simplify_eq. f_equal. eauto.
Qed.

(** The objects found by following the links, at most [n] of them. *)
Fixpoint walk_n (n : nat) m p : list ptr :=
  match n with
  | O => []
  | S n =>
      if decide (p = nullptr) then []
      else match m !! p with Some x => p :: walk_n n m (next_of x) | None => [] end
  end.
Definition walk m p : list ptr := walk_n (size m) m p.

Lemma walk_n_lseg n m p l : lseg m p l nullptr -> (length l <= n)%nat -> walk_n n m p = l.
Proof.
  revert p l. induction n as [|n IH]; intros p [|x l]; simpl; [done|lia| |].
  - intros -> _. by rewrite decide_True.
  - intros (-> & ? & y & -> & Hl) ?. rewrite decide_False by done. f_equal. apply IH; [done|lia].
Qed.

(** A chain that ends in [nullptr] cannot visit an object twice. *)
Lemma lseg_null_NoDup m p l : lseg m p l nullptr -> NoDup l.
Proof.
  revert p. induction l as [|x l IH]; intros p Hl; [constructor|].
  constructor; [|destruct Hl as (_ & _ & n & _ & ?); eauto].
  intros (l1 & l2 & ->)%list_elem_of_split.
  pose proof Hl as Hl2. rewrite app_comm_cons in Hl2.
  apply lseg_app in Hl2 as (y & _ & Hy).
  assert (y = x /\ p = x) as [-> ->] by (destruct Hy, Hl; auto).
  pose proof (lseg_null_det _ _ _ _ Hl Hy) as E%(f_equal length).
  rewrite !length_cons, length_app in E. simpl in E. lia.
Qed.

Lemma lseg_size m p l : lseg m p l nullptr -> (length l <= size m)%nat.
Proof.
  intros Hl. rewrite <- (size_list_to_set (C := gset ptr) l), <- size_dom by by eapply lseg_null_NoDup.
  apply subseteq_size. intros x Hx%elem_of_list_to_set. apply elem_of_dom. by destruct (lseg_live _ _ _ _ _ Hl Hx).
Qed.

Lemma walk_lseg m p l : lseg m p l nullptr -> walk m p = l.
Proof. intros Hl. apply walk_n_lseg; [done|by eapply lseg_size]. Qed.

Lemma lseg_insert m p l q x n : x ∉ l -> lseg m p l q -> lseg (<[x := n]> m) p l q.
Proof.
  revert p. induction l as [|y l IH]; intros p Hx; simpl; [done|].
  intros (-> & ? & n' & ? & ?). split_and!; [done..|].
  exists n'. rewrite lookup_insert_ne by set_solver. set_solver.
Qed.

(** A chain is determined by its objects. *)
Lemma lseg_agree m m' p l q :
  (forall x, x ∈ l -> m' !! x = m !! x) -> lseg m p l q -> lseg m' p l q.
Proof.
  revert p. induction l as [|y l IH]; intros p Hm; simpl; [done|].
  intros (-> & ? & n & ? & ?). split_and!; [done..|]. exists n. rewrite Hm by by left.
  split; [done|]. apply IH; [|done]. intros x ?. apply Hm. by right.
Qed.

Lemma lseg_snoc m p l x q :
  lseg m p (l ++ [x]) q <->
  lseg m p l x /\ x <> nullptr /\ exists n, m !! x = Some n /\ next_of n = q.
Proof. rewrite lseg_app. simpl. naive_solver. Qed.

(** Redirecting the link of the last object of a chain. *)
Lemma lseg_relink_last m p l x n q v :
  lseg m p (l ++ [x]) q -> x ∉ l -> m !! x = Some n ->
  lseg (<[x := set_next v n]> m) p (l ++ [x]) v.
Proof.
  rewrite !lseg_snoc. intros (? & ? & _) ??. split_and!; [by apply lseg_insert|done|].
  exists (set_next v n). by rewrite lookup_insert_eq, next_of_set_next.
Qed.

(** Linking the last object of one chain to the first of another. *)
Lemma lseg_link m p l x n q v l2 z :
  lseg m p (l ++ [x]) q -> x ∉ l -> m !! x = Some n -> lseg m v l2 z -> x ∉ l2 ->
  lseg (<[x := set_next v n]> m) p ((l ++ [x]) ++ l2) z.
Proof.
  intros. apply lseg_app. exists v.
  split; [by eapply lseg_relink_last|by apply lseg_insert].
Qed.

(** ** What a list operation may write

    [relinks l m m']: the memory [m'] is [m] with the link of some objects
    of [l] overwritten; nothing is allocated or freed, every other object
    and every other member is as before. *)
Definition relinks l m m' : Prop := forall p,
  m' !! p = m !! p \/
  p ∈ l /\ exists n v, m !! p = Some n /\ m' !! p = Some (set_next v n).

#[global] Instance relinks_preorder l : PreOrder (relinks l).
Proof.
  split.
  - intros m p. by left.
  - intros m1 m2 m3 H1 H2 p. destruct (H1 p) as [E1|(? & n & v & E1 & E1')], (H2 p) as
      [E2|(? & n' & v' & E2 & E2')]; rewrite ?E1, ?E1' in *; [by left|..]; right.
    + eauto 10.
    + rewrite E2. eauto 10.
    + simplify_eq. split; [done|]. exists n, v'. by rewrite E2', set_next_set_next.
Qed.

Lemma relinks_mono l l' m m' : relinks l m m' -> l ⊆ l' -> relinks l' m m'.
Proof. intros H1 ? p. destruct (H1 p) as [|[]]; [by left|right; set_solver]. Qed.

Lemma relinks_insert l m p n v :
  p ∈ l -> m !! p = Some n -> relinks l m (<[p := set_next v n]> m).
Proof.
  intros ?? x. destruct (decide (x = p)) as [->|]; [right|left]; simplify_map_eq; eauto.
Qed.

Lemma relinks_lookup l m m' p : relinks l m m' -> p ∉ l -> m' !! p = m !! p.
Proof. intros H1 ?. by destruct (H1 p) as [|[]]. Qed.

Lemma relinks_live l m m' p : relinks l m m' -> live m p -> live m' p.
Proof.
  intros H1 [? [n ?]]. split; [done|].
  destruct (H1 p) as [->|(? & ? & ? & ? & ->)]; eauto.
Qed.

Lemma relinks_lseg r m m' p l q :
  relinks r m m' -> l ## r -> lseg m p l q -> lseg m' p l q.
Proof.
  intros Hr. revert p. induction l as [|y l IH]; intros p Hd; simpl; [done|].
  intros (-> & ? & n & ? & ?). split_and!; [done..|].
  exists n. rewrite (relinks_lookup r m m') by (done || set_solver). set_solver.
Qed.
End links.

#[export] Hint Resolve relinks_insert : run.

(** One symbolic step of a piece of code in the goal. *)
Ltac rstep :=
  lazymatch goal with
  | |- returns (mbind _ _) _ _ => apply returns_bind
  | |- returns (mret _) _ _ => apply returns_ret
  | |- returns (modify _) _ _ => apply returns_modify
  | |- returns get _ _ => apply returns_get
  | |- returns (put _) _ _ => apply returns_put
  | |- returns (assert (bool_decide _)) _ _ =>
      apply returns_assert; [apply bool_decide_eq_true_2; done|]
  | |- returns (load _) _ _ => eapply returns_load; [done|by simplify_map_eq|]
  | |- returns (update _ _) _ _ => eapply returns_update; [done|by simplify_map_eq|]
  | |- returns (get_next _) _ _ => eapply returns_get_next; [done|by simplify_map_eq|]
  | |- returns (put_next _ _) _ _ => eapply returns_put_next; [done|by simplify_map_eq|]
  end.
Ltac rsteps := repeat (rstep; simpl).

(** Disjointness and non-membership goals from one such hypothesis: pick the
    element it has to be applied to, the rest is propositional. *)
Tactic Notation "list_disj" hyp(H) :=
  clear -H; set_unfold; intros;
  match goal with
  | x : Z |- _ => solve [specialize (H x); tauto]
  | |- _ => solve [tauto]
  end.
Ltac list_incl := clear; set_unfold; intros; tauto.
