(* ===== verification/Cells.v ===== *)
(** * Flat symbolic heaps

    [holds m L]: the memory [m] contains the cells [L], pairs of an address and
    the object behind it, at distinct non-null addresses.  The order of [L] is
    irrelevant, a data structure is a function that lists its cells, and any
    cells that follow in [L] are a frame the code leaves alone.  [has] and [upd]
    find and replace the cell of an address in a symbolic list; [perm] proves
    that two symbolic lists have the same cells. *)

From S2P Require Import Prelude Memory.

Section cells.
Context {Node : Type}.
Implicit Types (m : gmap ptr Node) (x : ptr) (n : Node) (L K : list (ptr * Node)).

Definition holds m L : Prop :=
  NoDup L.*1 /\ Forall (fun c => c.1 <> nullptr /\ m !! c.1 = Some c.2) L.

#[export] Instance holds_perm m : Proper ((≡ₚ) ==> iff) (holds m).
Proof. intros L1 L2 E. unfold holds. by rewrite E. Qed.

Inductive has x n : list (ptr * Node) -> Prop :=
  | has_here L : has x n ((x, n) :: L)
  | has_cons c L : has x n L -> has x n (c :: L)
  | has_app K L : has x n L -> has x n (K ++ L).

Inductive upd x n n' : list (ptr * Node) -> list (ptr * Node) -> Prop :=
  | upd_here L : upd x n n' ((x, n) :: L) ((x, n') :: L)
  | upd_cons c L L' : upd x n n' L L' -> upd x n n' (c :: L) (c :: L')
  | upd_app K L L' : upd x n n' L L' -> upd x n n' (K ++ L) (K ++ L').

Lemma has_elem x n L : has x n L -> (x, n) ∈ L.
Proof. induction 1; set_solver. Qed.

Lemma upd_perm x n n' L L' : upd x n n' L L' ->
  exists K, L ≡ₚ (x, n) :: K /\ L' ≡ₚ (x, n') :: K.
Proof.
  induction 1 as [L|c L L' _ (K & H1 & H2)|K0 L L' _ (K & H1 & H2)].
  - by exists L.
  - exists (c :: K). rewrite H1, H2. split; apply Permutation_swap.
  - exists (K0 ++ K). rewrite H1, H2. split; by rewrite <- Permutation_middle.
Qed.

Lemma holds_elem m L x n : holds m L -> (x, n) ∈ L -> x <> nullptr /\ m !! x = Some n.
Proof. intros [_ H] Hx. rewrite Forall_forall in H. apply (H _ Hx). Qed.

Lemma holds_upd m L L' x n n' : holds m L -> upd x n n' L L' -> holds (<[x := n']> m) L'.
Proof.
  intros H (K & E1 & E2)%upd_perm. rewrite E1 in H. rewrite E2.
  destruct H as [[Hx Hnd]%NoDup_cons Hall]. apply Forall_cons in Hall as [[? _] Hall].
  split; [by apply NoDup_cons|]. apply Forall_cons. simpl. split.
  - by rewrite lookup_insert_eq.
  - rewrite Forall_forall in Hall |- *. intros [y n2] Hy.
    destruct (Hall _ Hy) as [? ?]. simpl in *. split; [done|].
    rewrite lookup_insert_ne; [done|]. intros ->. apply Hx.
    apply list_elem_of_fmap. by exists (y, n2).
Qed.

Lemma holds_cons m x n L :
  holds m ((x, n) :: L) <-> x <> nullptr /\ m !! x = Some n /\ x ∉ L.*1 /\ holds m L.
Proof.
  unfold holds. rewrite fmap_cons, NoDup_cons, Forall_cons. simpl. tauto.
Qed.

Lemma holds_app_r m K L : holds m (K ++ L) -> holds m L.
Proof.
  intros [H1 H2]. rewrite fmap_app in H1. apply NoDup_app in H1 as (_ & _ & ?).
  apply Forall_app in H2 as [_ ?]. by split.
Qed.

Lemma holds_app_l m K L : holds m (K ++ L) -> holds m K.
Proof. rewrite (Permutation_app_comm K L). apply holds_app_r. Qed.

Lemma returns_load_holds m L x n (Q : Node -> gmap ptr Node -> Prop) :
  holds m L -> has x n L -> Q n m -> returns (load x) m Q.
Proof. intros H Hx%has_elem. destruct (holds_elem _ _ _ _ H Hx). by eapply returns_load. Qed.

Lemma returns_update_holds m L L' x f n (Q : unit -> gmap ptr Node -> Prop) :
  holds m L -> upd x n (f n) L L' ->
  (forall m', holds m' L' -> Q tt m') -> returns (update x f) m Q.
Proof.
  intros H Hu HQ. destruct (upd_perm _ _ _ _ _ Hu) as (K & E & _).
  assert ((x, n) ∈ L) as Hx by (rewrite E; set_solver).
  destruct (holds_elem _ _ _ _ H Hx). eapply returns_update; [done..|].
  apply HQ. by eapply holds_upd.
Qed.

(** Distinct cells have distinct addresses. *)
Lemma holds_ne m x n y n' L : holds m L -> has x n L -> has y n' L -> n <> n' -> x <> y.
Proof.
  intros H Hx%has_elem Hy%has_elem Hne ->.
  destruct (holds_elem _ _ _ _ H Hx), (holds_elem _ _ _ _ H Hy). congruence.
Qed.
End cells.

(** ** Permutations of symbolic lists *)

Section pull.
Context {A : Type}.
Implicit Types (K L R : list A).

(** [pull K R R']: removing the atom [K] from [R] leaves [R']. *)
Inductive pull K : list A -> list A -> Prop :=
  | pull_app L : pull K (K ++ L) L
  | pull_all : pull K K []
  | pull_skip_cons c L L' : pull K L L' -> pull K (c :: L) (c :: L')
  | pull_skip_app J L L' : pull K L L' -> pull K (J ++ L) (J ++ L').

Lemma pull_perm K R R' : pull K R R' -> R ≡ₚ K ++ R'.
Proof.
  induction 1 as [L| |c L L' _ IH|J L L' _ IH]; [done|by rewrite app_nil_r|..].
  - rewrite IH. by rewrite Permutation_middle.
  - rewrite IH. rewrite !app_assoc. by rewrite (Permutation_app_comm J K).
Qed.

Lemma perm_cons_step a L R R' : pull [a] R R' -> L ≡ₚ R' -> a :: L ≡ₚ R.
Proof. intros ->%pull_perm ->. done. Qed.
Lemma pull_here a L : pull [a] (a :: L) L.
Proof. exact (pull_app [a] L). Qed.
Lemma perm_app_step K L R R' : pull K R R' -> L ≡ₚ R' -> K ++ L ≡ₚ R.
Proof. intros ->%pull_perm ->. done. Qed.
Lemma perm_atom_step K R R' : pull K R R' -> [] ≡ₚ R' -> K ≡ₚ R.
Proof. intros ->%pull_perm <-. by rewrite app_nil_r. Qed.
End pull.

Ltac has_search := repeat first [apply has_here | apply has_cons | apply has_app].
Ltac upd_search := repeat first [apply upd_here | apply upd_cons | apply upd_app].
Ltac pull_search :=
  repeat first [apply pull_here | apply pull_app | apply pull_all
               | apply pull_skip_cons | apply pull_skip_app].
Ltac perm_norm := repeat (rewrite <- !app_assoc || rewrite app_nil_r || rewrite app_nil_l || rewrite <- !app_comm_cons).
Ltac perm :=
  perm_norm;
  repeat lazymatch goal with
  | |- ?L ≡ₚ ?L => reflexivity
  | |- _ :: _ ≡ₚ _ => eapply perm_cons_step; [solve [pull_search]|]
  | |- _ ++ _ ≡ₚ _ => eapply perm_app_step; [solve [pull_search]|]
  | |- _ ≡ₚ _ => eapply perm_atom_step; [solve [pull_search]|]; try reflexivity
  end.
