(* ===== verification/RoundUp.v ===== *)
(** * [__round_up.hpp]: rounding sizes and addresses up to a power of two

    Both overloads of [__round_up]: the one on [__u64] values, and the one on
    pointers, whose body goes through [__UINTPTR_TYPE__] (64 bits on the
    targets the project builds for).  The callers pass alignments that are
    powers of two; for these the masks compute the least multiple that is not
    smaller than the argument, as long as the addition does not leave 64 bits. *)

From S2P Require Import Prelude.

(** [(__x + __a - 1) & ~(__a - 1)] on [__u64]. *)
Definition __round_up (__x __a : Z) : Z :=
  Z.land (u64 (u64 (__x + __a) - 1)) (u64 (Z.lnot (u64 (__a - 1)))).

(** The pointer overload: the same arithmetic on the address. *)
Definition __round_up_ptr (__ptr : ptr) (__a : Z) : ptr :=
  let __v := u64 __ptr in
  Z.land (u64 (u64 (__v + __a) - 1)) (u64 (Z.lnot (u64 (__a - 1)))).

(** [r] is the least multiple of [a] that is not below [x]. *)
Definition least_multiple (a x r : Z) : Prop :=
  (a | r) /\ x <= r < x + a /\ forall y, (a | y) -> x <= y -> r <= y.

Section pow2.
Context (k : Z) (Hk : 0 <= k < 64).

#[local] Lemma pow2_lt_64 : 1 <= 2 ^ k /\ 2 ^ k < 2 ^ 64.
Proof.
  split; [|by apply Z.pow_lt_mono_r; lia].
  pose proof (Z.pow_pos_nonneg 2 k ltac:(lia) ltac:(lia)). lia.
Qed.

(** The mask of the source clears the low [k] bits. *)
Lemma mask_clear_low y :
  is_word 64 y ->
  Z.land y (u64 (Z.lnot (u64 (2 ^ k - 1)))) = 2 ^ k * (y / 2 ^ k).
Proof.
  intros Hy. pose proof pow2_lt_64.
  rewrite (wrap_small 64 (2 ^ k - 1)) by (unfold is_word; lia).
  rewrite (wrap_land_ones 64 (Z.lnot _)) by lia.
  rewrite (Z.land_comm (Z.lnot _)), Z.land_assoc.
  rewrite <- wrap_land_ones, wrap_small by (done || lia).
  replace (2 ^ k - 1) with (Z.ones k) by (rewrite Z.ones_equiv; lia).
  rewrite <- Z.ldiff_land, Z.ldiff_ones_r, Z.shiftl_mul_pow2, Z.shiftr_div_pow2 by lia.
  lia.
Qed.

Lemma round_up_div x :
  __round_up x (2 ^ k) = 2 ^ k * (u64 (x + 2 ^ k - 1) / 2 ^ k).
Proof.
  unfold __round_up. rewrite wrap_sub_l, mask_clear_low; [done|].
  by apply wrap_range.
Qed.

Lemma round_up_ptr_eq x : is_word 64 x -> __round_up_ptr x (2 ^ k) = __round_up x (2 ^ k).
Proof. intros. unfold __round_up_ptr, __round_up. by rewrite (wrap_small 64 x). Qed.

Lemma least_multiple_div x :
  least_multiple (2 ^ k) x (2 ^ k * ((x + 2 ^ k - 1) / 2 ^ k)).
Proof.
  pose proof pow2_lt_64.
  pose proof (Z_div_mod_eq_full (x + 2 ^ k - 1) (2 ^ k)).
  pose proof (Z.mod_pos_bound (x + 2 ^ k - 1) (2 ^ k)).
  split_and!; [by exists ((x + 2 ^ k - 1) / 2 ^ k); lia|lia|lia|].
  intros y [c ->] ?.
  assert ((x + 2 ^ k - 1) / 2 ^ k < c + 1) by (apply Z.div_lt_upper_bound; lia).
  rewrite (Z.mul_comm c). apply Z.mul_le_mono_nonneg_l; lia.
Qed.
End pow2.

(** for a power of two [2^k] below [2^64] and a [__u64] argument for which
    [__x + __a - 1] does not overflow, both overloads of [__round_up] return
    the least multiple of [2^k] that is at least [__x]; in particular rounding
    is idempotent on the result. *)
Theorem round_up_least_multiple k x :
  0 <= k < 64 -> is_word 64 x -> x + 2 ^ k - 1 < 2 ^ 64 ->
  least_multiple (2 ^ k) x (__round_up x (2 ^ k)) /\
  __round_up_ptr x (2 ^ k) = __round_up x (2 ^ k) /\
  __round_up (__round_up x (2 ^ k)) (2 ^ k) = __round_up x (2 ^ k).
Proof.
  intros Hk Hx Hno. pose proof (pow2_lt_64 k Hk). unfold is_word in *.
  assert (__round_up x (2 ^ k) = 2 ^ k * ((x + 2 ^ k - 1) / 2 ^ k)) as E.
  { rewrite round_up_div, (wrap_small 64) by (done || unfold is_word; lia). done. }
  pose proof (least_multiple_div k Hk x) as HL. rewrite <- E in HL.
  split_and!; [done|by apply round_up_ptr_eq|].
  destruct HL as ([c Hc] & ? & _). rewrite Hc in *.
  assert (c < 2 ^ (64 - k)).
  { apply (Z.mul_lt_mono_pos_r (2 ^ k)); [lia|]. rewrite <- Z.pow_add_r by lia.
    replace (64 - k + k) with 64 by lia. lia. }
  assert (c * 2 ^ k + 2 ^ k <= 2 ^ 64).
  { replace 64 with (64 - k + k) by lia. rewrite Z.pow_add_r by lia.
    replace (c * 2 ^ k + 2 ^ k) with ((c + 1) * 2 ^ k) by lia.
    apply Z.mul_le_mono_nonneg_r; lia. }
  rewrite round_up_div, (wrap_small 64) by (done || unfold is_word; lia).
  replace (c * 2 ^ k + 2 ^ k - 1) with ((2 ^ k - 1) + c * 2 ^ k) by lia.
  rewrite Z.div_add, Z.div_small by lia. lia.
Qed.

Lemma round_up_least_multiple_witness :
  least_multiple (2 ^ 12) 270272 (__round_up 270272 (2 ^ 12)) /\
  __round_up_ptr 270272 (2 ^ 12) = __round_up 270272 (2 ^ 12) /\
  __round_up (__round_up 270272 (2 ^ 12)) (2 ^ 12) = __round_up 270272 (2 ^ 12).
Proof. apply (round_up_least_multiple 12 270272); unfold is_word; lia. Defined.

(** when the addition leaves 64 bits ([__x > 2^64 - __a]) the rounded value
    wraps around to [0], for sizes and for addresses: there is no overflow
    check. *)
Theorem round_up_overflow k x :
  0 <= k < 64 -> is_word 64 x -> 2 ^ 64 < x + 2 ^ k ->
  __round_up x (2 ^ k) = 0 /\ __round_up_ptr x (2 ^ k) = 0.
Proof.
  intros Hk Hx Hov. pose proof (pow2_lt_64 k Hk). unfold is_word in *.
  rewrite round_up_ptr_eq, round_up_div by done. unfold wrap.
  replace (x + 2 ^ k - 1) with ((x + 2 ^ k - 1 - 2 ^ 64) + 1 * 2 ^ 64) by lia.
  rewrite Z_mod_plus_full, Z.mod_small, Z.div_small by lia. lia.
Qed.

Lemma round_up_overflow_witness :
  __round_up (2 ^ 64 - 5) (2 ^ 3) = 0 /\ __round_up_ptr (2 ^ 64 - 5) (2 ^ 3) = 0.
Proof. apply (round_up_overflow 3 (2 ^ 64 - 5)); unfold is_word; lia. Defined.
