(* ===== verification/BaseOffset.v ===== *)
(** * [__base_offset.hpp]: from a member back to its object

    A pointer to a data member is represented by the distance of the member from
    the start of an object ([__GNUC__]); the header computes the address of the
    object from that of the member.  Nothing in the repository includes it yet. *)

From S2P Require Import Prelude.

Module base_offset.

(** [__bp->*__mem_ptr], as an address. *)
Definition arrow_star (__bp : ptr) (__mem_ptr : Z) : ptr := u64 (__bp + __mem_ptr).

(** The distance of the member in an object at the null address. *)
Definition __compa_abi_offset (__mem_ptr : Z) : Z :=
  let __bp := nullptr in let __mp := arrow_star __bp __mem_ptr in swrap 64 (__mp - __bp).

Definition __base_offset (__mp : ptr) (__mem_ptr : Z) : ptr :=
  u64 (__mp - u64 (__compa_abi_offset __mem_ptr)).

Lemma u64_offset m : u64 (__compa_abi_offset m) = u64 m.
Proof.
  unfold __compa_abi_offset, swrap, arrow_star, nullptr.
  by rewrite wrap_sub_l, Z.add_simpl_r, Z.sub_0_r, Z.add_0_l, wrap_wrap.
Qed.

(** The two are inverse to each other, also for objects at the end of the address
    space. *)
Lemma base_of_member b m : is_word 64 b -> __base_offset (arrow_star b m) m = b.
Proof.
  intros Hb. unfold __base_offset, arrow_star. rewrite u64_offset, wrap_sub_l, wrap_sub_r.
  rewrite Z.add_simpl_r. by apply wrap_small.
Qed.

Lemma member_of_base mp m : is_word 64 mp -> arrow_star (__base_offset mp m) m = mp.
Proof.
  intros Hb. unfold __base_offset, arrow_star. rewrite u64_offset, wrap_add_l, <- wrap_add_l, wrap_sub_r, wrap_add_l.
  rewrite Z.sub_add. by apply wrap_small.
Qed.
End base_offset.
