(* ===== verification/Buffer.v ===== *)
(** * [__buffer.hpp]: the headers of shared receive buffers

    Two 64-byte headers that precede buffer memory.  The header file declares
    data only; [__block_prefix] is the node type of its recycle list, linked
    through [__next_], and serves the other files as a concrete node. *)

From S2P Require Import Prelude Memory.

Module buffer.
(** [__reserved_] is padding; [__start_] is where the payload begins. *)
Record __block_prefix := mkBlockPrefix {
  __next_ : ptr;
  __refcount_ : Z;  (* std::atomic<__u32> *)
  __bid_ : Z;       (* __u16 *)
}.

Record __descriptor := mkDescriptor {
  __recycle_ : ptr;        (* head of __atomic_intrusive_queue<&__block_prefix::__next_> *)
  __n_in_flight_ : Z;      (* std::atomic<__s32> *)
  __desc_refcount_ : Z;    (* std::atomic<__u32> *)
  __count_ : Z;            (* __u32 *)
}.

(** The pointer to member [&__block_prefix::__next_]. *)
#[export] Program Instance block_prefix_linked : Linked __block_prefix := {|
  next_of := __next_;
  set_next p n := mkBlockPrefix p (__refcount_ n) (__bid_ n);
|}.
Solve Obligations with by intros; repeat destruct select __block_prefix.

(** A fresh header, for examples: buffer [bid] with no user and no link. *)
Definition fresh_prefix (bid : Z) : __block_prefix := mkBlockPrefix nullptr 0 bid.
End buffer.
