(* ===== verification/IntrusiveQueue.v ===== *)
(** * [__intrusive_queue.hpp]: the singly linked intrusive queue

    [__intrusive_queue<_Next>] is a head pointer, a tail pointer and nothing
    else; all its operations rewrite the [_Next] member of nodes owned by the
    caller.  Module [intrusive_queue] translates every member function; the
    theorems relate each to an operation on lists through [qrep], which says
    that the chain from [__head_] is the given list, null terminated, and that
    [__tail_] is its last element.

    The queue object itself is a value: operations take it and return the new
    one.  A parameter taken by value is moved from by the caller and destroyed
    at the end of the call, so the operations that have one run the destructor,
    whose [assert] can fail. *)

From S2P Require Import Prelude Memory Buffer.

Module intrusive_queue.
Section operations.
Context `{Linked Node}.
Abbreviation run := (M (gmap ptr Node)).

Record queue := mkQueue { __head_ : ptr; __tail_ : ptr }.
Definition empty_queue : queue := mkQueue nullptr nullptr.

Definition _M_empty (q : queue) : bool := bool_decide (__head_ q = nullptr).
Definition _M_clear (q : queue) : queue := empty_queue.

(** The move constructor: the new object, and what is left in [__other]. *)
Definition move (__other : queue) : queue * queue :=
  (mkQueue (__head_ __other) (__tail_ __other), mkQueue nullptr nullptr).

(** [operator=] takes its argument by value and swaps: the new [*this], and
    the parameter that is destroyed afterwards. *)
Definition destroy (q : queue) : run unit := assert (_M_empty q).
Definition assign (this __other : queue) : run queue :=
  destroy this;; mret __other.

Definition _M_pop_front (this : queue) : run (ptr * queue) :=
  if _M_empty this then mret (nullptr, this)
  else
    let __item := __head_ this in
    __n ← get_next (__head_ this);
    let this := mkQueue __n (__tail_ this) in
    __n' ← get_next __item;
    mret (__item, if decide (__n' = nullptr) then mkQueue (__head_ this) nullptr else this).

Definition _M_push_front (this : queue) (__item : ptr) : run queue :=
  assert (bool_decide (__item <> nullptr));;
  put_next __item (__head_ this);;
  mret (mkQueue __item (if decide (__tail_ this = nullptr) then __item else __tail_ this)).

Definition _M_push_back (this : queue) (__item : ptr) : run queue :=
  assert (bool_decide (__item <> nullptr));;
  put_next __item nullptr;;
  if decide (__tail_ this = nullptr) then mret (mkQueue __item __item)
  else put_next (__tail_ this) __item;; mret (mkQueue (__head_ this) __item).

Definition _M_append (this __other : queue) : run queue :=
  if _M_empty __other then destroy __other;; mret this
  else
    let __other_head := __head_ __other in
    __h ← (if _M_empty this then mret __other_head
           else put_next (__tail_ this) __other_head;; mret (__head_ this));
    let this := mkQueue __h (__tail_ __other) in
    destroy (mkQueue nullptr nullptr);; mret this.

Definition _M_prepend (this __other : queue) : run queue :=
  if _M_empty __other then destroy __other;; mret this
  else
    put_next (__tail_ __other) (__head_ this);;
    let __t := if decide (__tail_ this = nullptr) then __tail_ __other else __tail_ this in
    let this := mkQueue (__head_ __other) __t in
    destroy (mkQueue nullptr nullptr);; mret this.

(** The [while] loop of [__create_reversed]: [__list] is what remains,
    [__new_head] the reversed prefix. *)
Fixpoint create_reversed_loop (fuel : nat) (__list __new_head : ptr) : run ptr :=
  if decide (__list = nullptr) then mret __new_head
  else match fuel with
       | O => throw OutOfFuel
       | S fuel =>
           __next ← get_next __list;
           put_next __list __new_head;;
           create_reversed_loop fuel __next __list
       end.

Definition __create_reversed (fuel : nat) (__list : ptr) : run queue :=
  let __new_tail := __list in
  __new_head ← create_reversed_loop fuel __list nullptr;
  mret (mkQueue __new_head __new_tail).

(** The [while] loop of [__create]: walk to the last node. *)
Fixpoint create_loop (fuel : nat) (__tail : ptr) : run ptr :=
  __n ← get_next __tail;
  if decide (__n = nullptr) then mret __tail
  else match fuel with
       | O => throw OutOfFuel
       | S fuel => create_loop fuel __n
       end.

Definition __create (fuel : nat) (__list : ptr) : run queue :=
  if decide (__list = nullptr) then mret (mkQueue __list __list)
  else __t ← create_loop fuel __list; mret (mkQueue __list __t).

(** ** Iterators: a position between a predecessor and an item. *)

Record iterator := mkIterator { __predecessor_ : ptr; __item_ : ptr }.

#[export] Instance iterator_eq_dec : EqDecision iterator.
Proof using Type. solve_decision. Defined.

Definition deref (it : iterator) : run ptr :=
  assert (bool_decide (__item_ it <> nullptr));; mret (__item_ it).

Definition incr (it : iterator) : run iterator :=
  if decide (__item_ it = nullptr) then mret (mkIterator (__item_ it) (__item_ it))
  else __n ← get_next (__item_ it); mret (mkIterator (__item_ it) __n).

(** [operator->]: the pointer, for access through it. *)
Definition arrow (it : iterator) : run ptr :=
  assert (bool_decide (__item_ it <> nullptr));; mret (__item_ it).

(** Returns the old position and the new one, [*this]. *)
Definition incr_post (it : iterator) : run (iterator * iterator) :=
  let __result := it in it ← incr it; mret (__result, it).

Definition begin_ (this : queue) : iterator := mkIterator nullptr (__head_ this).
Definition end_ (this : queue) : iterator := mkIterator (__tail_ this) nullptr.

(** Returns [*this] and [__other], both modified in place. *)
Definition _M_splice (this : queue) (__pos : iterator) (__other : queue)
    (__first __last : iterator) : run (queue * queue) :=
  if decide (__first = __last) then mret (this, __other)
  else
    assert (bool_decide (__item_ __first <> nullptr));;
    assert (bool_decide (__predecessor_ __last <> nullptr));;
    __other ←
      (if decide (__head_ __other = __item_ __first) then
         let __h := __item_ __last in
         mret (mkQueue __h (if decide (__h = nullptr) then nullptr else __tail_ __other))
       else
         assert (bool_decide (__predecessor_ __first <> nullptr));;
         put_next (__predecessor_ __first) (__item_ __last);;
         put_next (__predecessor_ __last) (__item_ __pos);;
         mret __other);
    if _M_empty this then
      mret (mkQueue (__item_ __first) (__predecessor_ __last), __other)
    else
      put_next (__predecessor_ __pos) (__item_ __first);;
      mret (mkQueue (__head_ this)
              (if decide (__item_ __pos = nullptr) then __predecessor_ __last
               else __tail_ this), __other).

Definition _M_front (this : queue) : ptr := __head_ this.
Definition _M_back (this : queue) : ptr := __tail_ this.
End operations.

(** ** The abstraction: a queue represents a list of nodes *)

Section representation.
Context `{Linked Node}.
Implicit Types (m : gmap ptr Node) (p x : ptr) (l : list ptr) (q : queue).

Definition last_ptr l : ptr := default nullptr (last l).
Definition head_ptr l : ptr := default nullptr (head l).

Definition qrep m q l : Prop :=
  lseg m (__head_ q) l nullptr /\ __tail_ q = last_ptr l.

(** The position in [l1 ++ l2] just before [l2]. *)
Definition iter_at (l1 l2 : list ptr) : iterator := mkIterator (last_ptr l1) (head_ptr l2).

Lemma last_ptr_snoc l x : last_ptr (l ++ [x]) = x.
Proof. unfold last_ptr. by rewrite last_snoc. Qed.

Lemma last_ptr_cons_app x l1 l2 : last_ptr (l1 ++ x :: l2) = last_ptr (x :: l2).
Proof.
  unfold last_ptr. rewrite last_app. destruct (last (x :: l2)) eqn:E; [done|].
  by apply last_None in E.
Qed.

Lemma last_ptr_cons x l : l <> [] -> last_ptr (x :: l) = last_ptr l.
Proof. destruct l as [|y l]; [done|]. intros _. apply (last_ptr_cons_app y [x] l). Qed.

Lemma lseg_head_ptr m p l : lseg m p l nullptr -> p = head_ptr l.
Proof. destruct l; simpl; naive_solver. Qed.

Lemma lseg_app_null m p l1 l2 :
  lseg m p (l1 ++ l2) nullptr ->
  lseg m p l1 (head_ptr l2) /\ lseg m (head_ptr l2) l2 nullptr.
Proof.
  intros (x & ? & H2)%lseg_app. pose proof (lseg_head_ptr _ _ _ H2) as ->. done.
Qed.

Lemma head_ptr_null m l : (forall x, x ∈ l -> live m x) -> head_ptr l = nullptr <-> l = [].
Proof.
  intros Hl. split; [|by intros ->]. destruct l as [|x l]; [done|].
  intros E. by destruct (Hl x) as [[] _]; [left|exact E].
Qed.

Lemma qrep_NoDup m q l : qrep m q l -> NoDup l.
Proof. intros []. by eapply lseg_null_NoDup. Qed.

Lemma qrep_live m q l x : qrep m q l -> x ∈ l -> live m x.
Proof. intros []. by eapply lseg_live. Qed.

Lemma qrep_nil m q : qrep m q [] <-> q = empty_queue.
Proof.
  unfold qrep, empty_queue. destruct q; simpl. split.
  - by intros [-> ->].
  - by intros [= -> ->].
Qed.

Lemma qrep_empty m q l : qrep m q l -> _M_empty q = bool_decide (l = []).
Proof.
  intros [Hl _]. unfold _M_empty. apply bool_decide_ext.
  destruct l; simpl in *; [done|]. naive_solver.
Qed.

Lemma qrep_tail_null m q l : qrep m q l -> __tail_ q = nullptr <-> l = [].
Proof.
  intros [Hl ->]. split; [|by intros ->].
  destruct l as [|x l' _] using rev_ind; [done|].
  rewrite last_ptr_snoc. apply lseg_snoc in Hl. naive_solver.
Qed.

Lemma qrep_snoc_inv m q l :
  qrep m q l -> l <> [] ->
  exists l' x n, l = l' ++ [x] /\ __tail_ q = x /\ m !! x = Some n /\ x ∉ l'.
Proof.
  intros Hq ?. pose proof (qrep_NoDup _ _ _ Hq) as Hd. destruct Hq as [Hl Ht].
  destruct l as [|x l' _] using rev_ind; [done|]. rewrite last_ptr_snoc in Ht.
  pose proof Hl as (_ & _ & n & ? & _)%lseg_snoc. exists l', x, n.
  apply NoDup_app in Hd as (_ & Hd & _). set_solver.
Qed.

Lemma qrep_relinks r m m' q l : qrep m q l -> relinks r m m' -> l ## r -> qrep m' q l.
Proof. intros [??] ??. split; [by eapply relinks_lseg|done]. Qed.

(** ** Single-node operations *)

Lemma pop_front_spec m q l :
  qrep m q l ->
  returns (_M_pop_front q) m (fun '(x, q') m' =>
    m' = m /\ x = head_ptr l /\ qrep m q' (tail l)).
Proof.
  intros Hq. unfold _M_pop_front. rewrite (qrep_empty _ _ _ Hq).
  destruct l as [|x l]; [by rsteps|].
  destruct Hq as [(E & ? & n & ? & Hl) Ht]. rewrite E in *. simpl. rsteps.
  split_and!; [done..|]. case_decide as En.
  - rewrite En in Hl. apply lseg_null in Hl as [-> _]. done.
  - split; [done|]. simpl. rewrite Ht. apply last_ptr_cons.
    intros ->. by rewrite Hl in En.
Qed.

Lemma push_front_spec m q l x :
  qrep m q l -> live m x -> x ∉ l ->
  returns (_M_push_front q x) m (fun q' m' => qrep m' q' (x :: l) /\ relinks [x] m m').
Proof.
  intros Hq [? [n ?]] ?. pose proof (qrep_tail_null _ _ _ Hq) as Ht. destruct Hq as [? E].
  unfold _M_push_front. rsteps. split; [|by apply relinks_insert; [left|]].
  split; simpl.
  - split_and!; [done..|]. eexists. rewrite lookup_insert_eq, next_of_set_next.
    split; [done|]. by apply lseg_insert.
  - case_decide as Et; [by apply Ht in Et as ->|].
    rewrite E, last_ptr_cons by tauto. done.
Qed.

Lemma push_back_spec m q l x :
  qrep m q l -> live m x -> x ∉ l ->
  returns (_M_push_back q x) m (fun q' m' => qrep m' q' (l ++ [x]) /\ relinks (x :: l) m m').
Proof.
  intros Hq [? [n ?]] Hx. pose proof (qrep_tail_null _ _ _ Hq) as Ht. destruct Hq as [Hl E].
  unfold _M_push_back. rsteps. case_decide as Et.
  - apply Ht in Et as ->. rsteps. split; [|apply relinks_insert; set_solver].
    split; simpl; [|done]. split_and!; [done..|]. eexists.
    by rewrite lookup_insert_eq, next_of_set_next.
  - destruct (qrep_snoc_inv m q l) as (l' & y & n' & -> & E' & Hn' & ?); [by split|tauto|].
    rewrite E' in *. assert (x <> y) by set_solver.
    eapply returns_bind, returns_put_next; [done|by rewrite lookup_insert_ne|].
    rsteps. split; [split|]; simpl.
    + eapply (lseg_link _ _ l' y n'); [by apply lseg_insert|done|by rewrite lookup_insert_ne| |].
      * simpl. split_and!; [done..|]. eexists. by rewrite lookup_insert_eq, next_of_set_next.
      * set_solver.
    + by rewrite last_ptr_snoc.
    + etrans; [eapply (relinks_insert _ _ x); [by left|done]|].
      apply relinks_insert; [set_solver|by rewrite lookup_insert_ne].
Qed.

(** ** Whole-queue operations *)

Lemma append_spec m q1 q2 l1 l2 :
  qrep m q1 l1 -> qrep m q2 l2 -> l1 ## l2 ->
  returns (_M_append q1 q2) m (fun q' m' => qrep m' q' (l1 ++ l2) /\ relinks l1 m m').
Proof.
  intros Hq1 Hq2 Hd. unfold _M_append.
  rewrite (qrep_empty _ _ _ Hq1), (qrep_empty _ _ _ Hq2).
  destruct (decide (l2 = [])) as [->|Hl2].
  { rewrite bool_decide_eq_true_2, app_nil_r by done. simpl.
    apply qrep_nil in Hq2 as ->. rsteps. by split. }
  rewrite (bool_decide_eq_false_2 (l2 = [])) by done. simpl.
  destruct (decide (l1 = [])) as [->|Hl1].
  { rewrite bool_decide_eq_true_2 by done. simpl. rsteps. split; [by destruct Hq2|done]. }
  rewrite bool_decide_eq_false_2 by done. simpl.
  destruct (qrep_snoc_inv _ _ _ Hq1 Hl1) as (l & x & n & -> & Et & Hn & ?).
  destruct Hq1 as [H1 _], Hq2 as [H2 Et2]. rewrite Et.
  assert (x <> nullptr) by by apply lseg_snoc in H1 as (_ & ? & _).
  rsteps. split; [split|].
  - simpl. eapply lseg_link; try done. set_solver.
  - simpl. rewrite Et2. unfold last_ptr. rewrite last_app.
    destruct (last l2) eqn:E; [done|]. by apply last_None in E.
  - apply relinks_insert; [set_solver|done].
Qed.

Lemma prepend_spec m q1 q2 l1 l2 :
  qrep m q1 l1 -> qrep m q2 l2 -> l1 ## l2 ->
  returns (_M_prepend q1 q2) m (fun q' m' => qrep m' q' (l2 ++ l1) /\ relinks l2 m m').
Proof.
  intros Hq1 Hq2 Hd. unfold _M_prepend. rewrite (qrep_empty _ _ _ Hq2).
  destruct (decide (l2 = [])) as [->|Hl2].
  { rewrite bool_decide_eq_true_2 by done. simpl.
    apply qrep_nil in Hq2 as ->. rsteps. by split. }
  rewrite bool_decide_eq_false_2 by done. simpl.
  destruct (qrep_snoc_inv _ _ _ Hq2 Hl2) as (l & x & n & -> & Et & Hn & ?).
  pose proof (qrep_tail_null _ _ _ Hq1) as Hnull.
  destruct Hq1 as [H1 Et1], Hq2 as [H2 _]. rewrite Et.
  assert (x <> nullptr) by by apply lseg_snoc in H2 as (_ & ? & _).
  rsteps. split; [split|].
  - simpl. eapply lseg_link; try done. set_solver.
  - simpl. case_decide as E.
    + apply Hnull in E as ->. by rewrite app_nil_r, last_ptr_snoc.
    + rewrite Et1. unfold last_ptr. rewrite last_app.
      destruct (last l1) eqn:E1; [done|]. by rewrite Et1 in E; unfold last_ptr in E; rewrite E1 in E.
  - apply relinks_insert; [set_solver|done].
Qed.

(** The loop of [__create_reversed] moves the nodes of [l], one by one, in
    front of the ones already reversed. *)
Lemma create_reversed_loop_spec fuel m p h l r :
  (length l <= fuel)%nat -> lseg m p l nullptr -> lseg m h r nullptr -> l ## r ->
  returns (create_reversed_loop fuel p h) m (fun h' m' =>
    lseg m' h' (reverse l ++ r) nullptr /\ relinks l m m').
Proof.
  revert fuel m p h r. induction l as [|x l IH]; intros fuel m p h r Hf Hl Hr Hd.
  { simpl in Hl. subst p. destruct fuel; simpl; by rsteps. }
  pose proof (lseg_null_NoDup _ _ _ Hl) as [Hx _]%NoDup_cons.
  destruct Hl as (-> & Hx0 & n & Hn & Hl). destruct fuel as [|fuel]; simpl in *; [lia|].
  rewrite decide_False by done. rsteps.
  eapply returns_mono; [apply (IH fuel _ _ x (x :: r))|].
  - lia.
  - by apply lseg_insert.
  - simpl. split_and!; [done..|]. eexists. rewrite lookup_insert_eq, next_of_set_next.
    split; [done|]. apply lseg_insert; [set_solver|done].
  - set_solver.
  - simpl. intros h' m' [? Hm]. rewrite reverse_cons, <- app_assoc. split; [done|].
    etrans; [eapply (relinks_insert _ _ x); [by left|done]|].
    eapply relinks_mono; [done|set_solver].
Qed.

Lemma create_reversed_spec fuel m p l :
  (length l <= fuel)%nat -> lseg m p l nullptr ->
  returns (__create_reversed fuel p) m (fun q m' => qrep m' q (reverse l) /\ relinks l m m').
Proof.
  intros. unfold __create_reversed. eapply returns_bind_mono.
  { apply (create_reversed_loop_spec fuel m p nullptr l []); [done..|set_solver]. }
  rewrite app_nil_r. intros h m' [? ?]. rsteps. split; [split|]; simpl; [done| |done].
  rewrite (lseg_head_ptr m p l) by done. unfold last_ptr, head_ptr.
  by rewrite last_reverse.
Qed.

Lemma create_loop_spec fuel m l x :
  (length l <= fuel)%nat -> lseg m x (x :: l) nullptr ->
  returns (create_loop fuel x) m (fun t m' => t = last_ptr (x :: l) /\ m' = m).
Proof.
  revert fuel x. induction l as [|y l IH]; intros fuel x Hf (_ & ? & n & ? & Hl).
  - simpl in Hl. destruct fuel; simpl; rsteps; by rewrite decide_True.
  - destruct Hl as (E & ? & ?). destruct fuel as [|fuel]; simpl in *; [lia|]. rsteps.
    rewrite E, decide_False by done. eapply returns_mono; [apply IH; [lia|by split_and!]|].
    intros t m' [-> ->]. by rewrite (last_ptr_cons x).
Qed.

Lemma create_spec fuel m p l :
  (length l <= fuel)%nat -> lseg m p l nullptr ->
  returns (__create fuel p) m (fun q m' => qrep m' q l /\ m' = m).
Proof.
  intros Hf Hl. unfold __create. destruct l as [|x l].
  { simpl in Hl. subst p. by rsteps. }
  assert (p = x /\ x <> nullptr) as [-> ?] by (destruct Hl; naive_solver).
  rewrite decide_False by done. simpl in Hf.
  eapply returns_bind_mono; [eapply create_loop_spec, Hl; lia|].
  intros t m' [-> ->]. by rsteps.
Qed.

(** ** Splicing *)

Lemma NoDup_range_ends (pre : list ptr) y (mid : list ptr) z (post : list ptr) :
  NoDup ((pre ++ [y]) ++ (mid ++ [z]) ++ post) ->
  y <> z ∧ y ∉ pre ++ mid ++ post ∧ z ∉ pre ++ mid ++ post.
Proof.
  intros Hd. assert ((pre ++ [y]) ++ (mid ++ [z]) ++ post ≡ₚ y :: z :: pre ++ mid ++ post)
    as E by solve_Permutation.
  rewrite E in Hd. apply NoDup_cons in Hd as [Hy Hd]. apply NoDup_cons in Hd as [Hz _].
  rewrite not_elem_of_cons in Hy. tauto.
Qed.

(** The two ends of a non-empty range of a chain are different iterators. *)
Lemma iter_range_ne m p pre mid post :
  lseg m p (pre ++ mid ++ post) nullptr -> mid <> [] ->
  iter_at pre (mid ++ post) <> iter_at (pre ++ mid) post.
Proof.
  intros Hl ? [= _ E]. pose proof (lseg_null_NoDup _ _ _ Hl) as Hd.
  destruct mid as [|x mid]; [done|]. simpl in E. unfold head_ptr at 1 in E. simpl in E.
  destruct post as [|y post]; unfold head_ptr in E; simpl in E; subst x.
  - destruct (lseg_live _ _ _ _ nullptr Hl); [set_solver|done].
  - apply NoDup_app in Hd as (_ & _ & Hd). apply NoDup_app in Hd as (_ & Hd & _). set_solver.
Qed.

(** Splicing a range that does not start at the head of [__other]. *)
Lemma splice_inner m q1 q2 a b pre mid post :
  qrep m q1 (a ++ b) -> qrep m q2 (pre ++ mid ++ post) ->
  a ++ b ## pre ++ mid ++ post -> (a = [] -> b = []) -> pre <> [] -> mid <> [] ->
  returns (_M_splice q1 (iter_at a b) q2 (iter_at pre (mid ++ post)) (iter_at (pre ++ mid) post)) m
    (fun '(q1', q2') m' =>
      qrep m' q1' (a ++ mid ++ b) /\
      lseg m' (__head_ q2') (pre ++ post) nullptr /\ q2' = q2 /\
      relinks (a ++ pre ++ mid) m m').
Proof.
  intros Hq1 Hq2 Hd Hab Hpre Hmid.
  pose proof (qrep_NoDup _ _ _ Hq2) as Hnd. pose proof (qrep_NoDup _ _ _ Hq1) as Hnd1.
  pose proof (qrep_empty _ _ _ Hq1) as Hemp. destruct Hq1 as [H1 Et1], Hq2 as [H2 Et2].
  unfold _M_splice. rewrite decide_False by by eapply iter_range_ne.
  destruct (lseg_app_null _ _ _ _ H2) as [Hp [Hm Hpo]%lseg_app_null].
  destruct pre as [|y pre _] using rev_ind; [done|].
  destruct mid as [|z mid _] using rev_ind; [done|].
  pose proof Hp as (_ & Hy0 & ny & Hny & Ey)%lseg_snoc.
  pose proof Hm as (_ & Hz0 & nz & Hnz & Ez)%lseg_snoc.
  assert (head_ptr ((mid ++ [z]) ++ post) = head_ptr (mid ++ [z])) as Ehm.
  { by destruct mid. }
  assert (head_ptr (mid ++ [z]) <> nullptr) as Hhm.
  { destruct mid; [done|]. simpl in Hm. destruct Hm as (_ & ? & _). done. }
  assert (__head_ q2 <> head_ptr (mid ++ [z])) as Hne.
  { rewrite (lseg_head_ptr _ _ _ H2). destruct pre as [|y' pre], mid as [|z' mid];
      unfold head_ptr; simpl in *; apply NoDup_cons in Hnd as [Hnd _]; set_solver. }
  assert (last_ptr ((pre ++ [y]) ++ mid ++ [z]) = z) as Elz
    by by rewrite app_assoc, last_ptr_snoc.
  unfold iter_at. simpl. rewrite Elz, Ehm, (last_ptr_snoc pre). rsteps. rewrite decide_False by done. rsteps.
  destruct (NoDup_range_ends pre y mid z post Hnd) as (? & Hy & Hz).
  rewrite !elem_of_app in Hy, Hz.
  eapply returns_put_next; [done|by simplify_map_eq|]. rsteps.
  set (m1 := <[y := _]> m). set (m2 := <[z := _]> m1).
  assert (relinks ((pre ++ [y]) ++ mid ++ [z]) m m2) as Hr2.
  { etrans; apply relinks_insert; [set_solver|done|set_solver|].
    unfold m1. by rewrite lookup_insert_ne. }
  assert (y ∉ pre ∧ y ∉ mid ∧ y ∉ post ∧ z ∉ pre ∧ z ∉ mid ∧ z ∉ post) as (?&?&?&?&?&?).
  { tauto. }
  assert (lseg m2 (__head_ q2) ((pre ++ [y]) ++ post) nullptr) as H2'.
  { apply lseg_insert; [|by eapply lseg_link].
    rewrite !elem_of_app, list_elem_of_singleton. naive_solver. }
  assert (lseg m2 (head_ptr b) b nullptr) as Hb.
  { apply lseg_app_null in H1 as [_ ?]. eapply relinks_lseg; [exact Hr2|list_disj Hd|done]. }
  assert (lseg m2 (head_ptr (mid ++ [z])) ((mid ++ [z]) ++ b) nullptr) as Hmb.
  { apply lseg_app. eexists. split; [|exact Hb]. unfold m2, m1.
    eapply lseg_relink_last; [|done|by rewrite lookup_insert_ne].
    rewrite <- Ehm. apply lseg_insert; [|done].
    rewrite elem_of_app, list_elem_of_singleton. naive_solver. }
  rewrite Hemp. destruct (decide (a = [])) as [->|Ha].
  - rewrite (Hab eq_refl) in *. rewrite bool_decide_eq_true_2 by done. rsteps.
    split_and!; [split; simpl|done..|].
    + done.
    + by rewrite app_nil_r, last_ptr_snoc.
    + done.
  - rewrite bool_decide_eq_false_2 by by destruct a.
    destruct a as [|w a _] using rev_ind; [done|].
    assert (w ∉ a).
    { rewrite <- app_assoc in Hnd1. apply NoDup_app in Hnd1 as (_ & Hw & _).
      intros ?. apply (Hw w); [done|]. by left. }
    destruct (lseg_app_null _ _ _ _ H1) as [Hw _].
    pose proof Hw as (_ & Hw0 & nw & Hnw & _)%lseg_snoc. rewrite last_ptr_snoc.
    assert (w ∉ (pre ++ [y]) ++ (mid ++ [z]) ++ post) as Hwn by (list_disj Hd).
    assert (w ∉ (mid ++ [z]) ++ b) as Hwm.
    { apply NoDup_app in Hnd1 as (_ & Hwb & _). apply not_elem_of_app. split.
      - list_disj Hwn.
      - apply Hwb, elem_of_app. right. by left. }
    assert (m2 !! w = Some nw) as Hnw2.
    { rewrite <- Hnw. eapply relinks_lookup; [exact Hr2|list_disj Hwn]. }
    rsteps. split_and!; [split; simpl| |done|].
    + eapply lseg_link; [|done|done|done|done].
      eapply relinks_lseg; [exact Hr2|list_disj Hd|done].
    + assert (head_ptr b = nullptr <-> b = []) as Hb0.
      { apply (head_ptr_null m2). intros x Hx. exact (lseg_live _ _ _ _ x Hb Hx). }
      case_decide as Eb.
      * apply Hb0 in Eb as ->. rewrite app_nil_r, app_assoc, last_ptr_snoc. done.
      * rewrite Et1. destruct b as [|x b]; [tauto|].
        by rewrite app_assoc, !last_ptr_cons_app.
    + apply lseg_insert; [list_disj Hwn|done].
    + etrans; [eapply relinks_mono; [exact Hr2|set_solver +]|].
      apply relinks_insert; [set_solver|done].
Qed.

(** Splicing a range that starts at the head of [__other]: the link of the
    last moved node is left as it was, into the rest of [__other]. *)
Lemma splice_head m q1 q2 a b mid post :
  qrep m q1 (a ++ b) -> qrep m q2 (mid ++ post) ->
  a ++ b ## mid ++ post -> (a = [] -> b = []) -> mid <> [] ->
  returns (_M_splice q1 (iter_at a b) q2 (begin_ q2) (iter_at mid post)) m
    (fun '(q1', q2') m' =>
      lseg m' (__head_ q1') (a ++ mid) (head_ptr post) /\
      __tail_ q1' = (if decide (b = []) then last_ptr mid else last_ptr b) /\
      qrep m' q2' post /\ relinks a m m').
Proof.
  intros Hq1 Hq2 Hd Hab Hmid.
  pose proof (qrep_NoDup _ _ _ Hq1) as Hnd1. pose proof (qrep_empty _ _ _ Hq1) as Hemp.
  destruct Hq1 as [H1 Et1], Hq2 as [H2 Et2].
  destruct (lseg_app_null _ _ _ _ H2) as [Hm Hpo].
  assert (begin_ q2 = iter_at [] (mid ++ post)) as ->.
  { unfold begin_, iter_at. f_equal. by apply (lseg_head_ptr m). }
  unfold _M_splice. rewrite decide_False by by apply (iter_range_ne m (__head_ q2) [] mid post).
  destruct mid as [|z mid _] using rev_ind; [done|].
  pose proof Hm as (_ & Hz0 & _)%lseg_snoc.
  assert (head_ptr ((mid ++ [z]) ++ post) = __head_ q2) as Eh.
  { symmetry. by apply (lseg_head_ptr m). }
  assert (__head_ q2 <> nullptr) as Hh.
  { destruct mid; simpl in Hm; destruct Hm as (-> & ? & _); done. }
  unfold iter_at. simpl. rewrite Eh, last_ptr_snoc. rsteps. rewrite decide_True by done. rsteps.
  assert (qrep m (mkQueue (head_ptr post)
            (if decide (head_ptr post = nullptr) then nullptr else __tail_ q2)) post) as Hq2'.
  { split; [done|]. simpl. case_decide as Ep.
    - apply (head_ptr_null m) in Ep as ->; [done|]. intros x Hx. exact (lseg_live _ _ _ _ x Hpo Hx).
    - rewrite Et2. destruct post as [|x post]; [done|]. apply last_ptr_cons_app. }
  rewrite Hemp. destruct (decide (a = [])) as [->|Ha].
  - rewrite (Hab eq_refl) in *. rewrite bool_decide_eq_true_2 by done. by rsteps.
  - rewrite bool_decide_eq_false_2 by by destruct a.
    destruct (lseg_app_null _ _ _ _ H1) as [Hw Hb].
    destruct a as [|w a _] using rev_ind; [done|].
    pose proof Hw as (_ & Hw0 & nw & Hnw & _)%lseg_snoc. rewrite last_ptr_snoc.
    assert (w ∉ a).
    { rewrite <- app_assoc in Hnd1. apply NoDup_app in Hnd1 as (_ & Hwa & _).
      intros ?. apply (Hwa w); [done|]. by left. }
    rsteps.
    assert (relinks (a ++ [w]) m (<[w := set_next (__head_ q2) nw]> m)) as Hr.
    { apply relinks_insert; [set_solver|done]. }
    split_and!; [|simpl|eapply qrep_relinks; [done|exact Hr|list_disj Hd]|done].
    + eapply lseg_link; [done..|]. list_disj Hd.
    + destruct (decide (head_ptr b = nullptr)) as [Eb|Eb].
      * apply (head_ptr_null m) in Eb as ->; [by rewrite decide_True by done|].
        intros x Hx. exact (lseg_live _ _ _ _ x Hb Hx).
      * rewrite decide_False by by intros ->. rewrite Et1.
        destruct b as [|x b]; [done|]. apply last_ptr_cons_app.
Qed.

(** Splicing in front of a non-empty queue dereferences the null
    predecessor of [begin()]. *)
Lemma splice_begin_faults m q1 q2 b mid post :
  qrep m q1 b -> qrep m q2 (mid ++ post) -> b <> [] -> mid <> [] ->
  _M_splice q1 (begin_ q1) q2 (begin_ q2) (iter_at mid post) m = Fault NullDeref.
Proof.
  intros Hq1 Hq2 Hb Hmid. pose proof (qrep_empty _ _ _ Hq1) as Hemp.
  destruct Hq2 as [H2 Et2]. destruct (lseg_app_null _ _ _ _ H2) as [Hm Hpo].
  assert (begin_ q2 = iter_at [] (mid ++ post)) as Ei.
  { unfold begin_, iter_at. f_equal. by apply (lseg_head_ptr m). }
  unfold _M_splice. rewrite decide_False
    by (rewrite Ei; by apply (iter_range_ne m (__head_ q2) [] mid post)).
  destruct mid as [|z mid _] using rev_ind; [done|].
  pose proof Hm as (_ & Hz0 & _)%lseg_snoc.
  assert (__head_ q2 <> nullptr) as Hh.
  { destruct mid; simpl in Hm; destruct Hm as (-> & ? & _); done. }
  rewrite Hemp. rewrite (bool_decide_eq_false_2 (b = [])) by done.
  unfold iter_at, begin_. simpl. rewrite last_ptr_snoc.
  rewrite (bool_decide_eq_true_2 (__head_ q2 <> nullptr)),
    (bool_decide_eq_true_2 (z <> nullptr)) by done. simpl.
  destruct (decide (__head_ q2 = __head_ q2)); done.
Qed.
End representation.

(** ** Clients: any sequence of single-node operations

    [exec] runs the operations on the queue and collects what [_M_pop_front]
    returned; [aexec] is the same on lists.  A sequence is [legal] when every
    pushed node is an object and is not already in the queue. *)

Inductive op := PushFront (x : ptr) | PushBack (x : ptr) | PopFront.

Fixpoint aexec (l : list ptr) (ops : list op) : list ptr * list ptr :=
  match ops with
  | [] => ([], l)
  | PushFront x :: ops => aexec (x :: l) ops
  | PushBack x :: ops => aexec (l ++ [x]) ops
  | PopFront :: ops => let '(xs, l') := aexec (tail l) ops in (head_ptr l :: xs, l')
  end.

Fixpoint pushed (ops : list op) : list ptr :=
  match ops with
  | [] => []
  | PushFront x :: ops | PushBack x :: ops => x :: pushed ops
  | PopFront :: ops => pushed ops
  end.

Section clients.
Context `{Linked Node}.

Fixpoint exec (q : queue) (ops : list op) : M (gmap ptr Node) (list ptr * queue) :=
  match ops with
  | [] => mret ([], q)
  | PushFront x :: ops => q ← _M_push_front q x; exec q ops
  | PushBack x :: ops => q ← _M_push_back q x; exec q ops
  | PopFront :: ops =>
      '(x, q) ← _M_pop_front q;
      '(xs, q) ← exec q ops;
      mret (x :: xs, q)
  end.

Fixpoint legal (m : gmap ptr Node) (l : list ptr) (ops : list op) : Prop :=
  match ops with
  | [] => True
  | PushFront x :: ops => live m x ∧ x ∉ l ∧ legal m (x :: l) ops
  | PushBack x :: ops => live m x ∧ x ∉ l ∧ legal m (l ++ [x]) ops
  | PopFront :: ops => legal m (tail l) ops
  end.

Lemma legal_relinks r m m' l ops : relinks r m m' -> legal m l ops -> legal m' l ops.
Proof.
  intros Hr. revert l. induction ops as [|[] ops IH]; intros l; simpl; [done|..|auto].
  all: intros (? & ? & ?); eauto using relinks_live.
Qed.

(** C29: started on a well-formed queue holding [l], any legal sequence of
    [_M_push_front], [_M_push_back] and [_M_pop_front] runs without a fault,
    pops exactly the nodes the list operations pop ([nullptr] on an empty
    queue), leaves a well-formed queue holding the resulting list, and writes
    no member but the link of nodes that are or were in the queue. *)
Theorem exec_refines m q l ops :
  qrep m q l -> legal m l ops ->
  returns (exec q ops) m (fun '(xs, q') m' =>
    xs = fst (aexec l ops) /\ qrep m' q' (snd (aexec l ops)) /\
    relinks (l ++ pushed ops) m m').
Proof.
  revert m q l. induction ops as [|[x|x|] ops IH]; intros m q l Hq; simpl.
  - intros _. by rsteps.
  - intros (? & ? & Hl). eapply returns_bind_mono; [by apply (push_front_spec _ _ l)|].
    intros q' m' [Hq' Hr]. eapply returns_mono; [apply IH; [done|by eapply legal_relinks]|].
    intros [xs q''] m'' (? & ? & ?). split_and!; [done..|].
    etrans; (eapply relinks_mono; [done|list_incl]).
  - intros (? & ? & Hl). eapply returns_bind_mono; [by apply (push_back_spec _ _ l)|].
    intros q' m' [Hq' Hr]. eapply returns_mono; [apply IH; [done|by eapply legal_relinks]|].
    intros [xs q''] m'' (? & ? & ?). split_and!; [done..|].
    etrans; (eapply relinks_mono; [done|list_incl]).
  - intros Hl. eapply returns_bind_mono; [by apply pop_front_spec|].
    intros [x q'] m' (-> & -> & Hq'). eapply returns_bind_mono; [by apply IH|].
    intros [xs q''] m'' (-> & ? & ?). rsteps. destruct (aexec (tail l) ops).
    split_and!; [done..|]. eapply relinks_mono; [done|]. destruct l; list_incl.
Qed.

(** [_M_append] and [_M_prepend] of a queue taken by value concatenate:
    the result holds both lists in the order the name says, the argument is
    left empty (its destructor's [assert] does not fail), and only the link
    of one node can change. *)
Theorem append_prepend_concat m q1 q2 l1 l2 :
  qrep m q1 l1 -> qrep m q2 l2 -> l1 ## l2 ->
  returns (_M_append q1 (fst (move q2))) m (fun q' m' =>
    qrep m' q' (l1 ++ l2) /\ qrep m' (snd (move q2)) [] /\ relinks l1 m m') /\
  returns (_M_prepend q1 (fst (move q2))) m (fun q' m' =>
    qrep m' q' (l2 ++ l1) /\ qrep m' (snd (move q2)) [] /\ relinks l2 m m').
Proof.
  intros Hq1 Hq2 Hd. destruct q2 as [h2 t2]. simpl. split.
  - eapply returns_mono; [by apply (append_spec _ _ _ l1 l2)|].
    intros q' m' [??]. by split_and!.
  - eapply returns_mono; [by apply (prepend_spec _ _ _ l1 l2)|].
    intros q' m' [??]. by split_and!.
Qed.

(** on a null-terminated chain of [n] nodes the loops of
    [__create_reversed] and [__create] end after at most [n] iterations:
    the first yields a well-formed queue of the reversed chain and the second
    a queue of the chain itself without writing; reversing twice gives the
    original order back. *)
Theorem create_reversed_involutive fuel m p l :
  lseg m p l nullptr -> (length l <= fuel)%nat ->
  returns (__create fuel p) m (fun q m' => qrep m' q l /\ m' = m) /\
  returns (__create_reversed fuel p) m (fun q m' =>
    qrep m' q (reverse l) /\ relinks l m m' /\
    returns (__create_reversed fuel (_M_front q)) m' (fun q' m'' =>
      qrep m'' q' l /\ relinks l m m'')).
Proof.
  intros Hl Hf. split; [by apply create_spec|].
  eapply returns_mono; [by apply (create_reversed_spec _ _ _ l)|].
  intros q m' [[Hq Ht] Hr]. split_and!; [done..|].
  eapply returns_mono; [by apply (create_reversed_spec _ _ _ (reverse l)); [rewrite length_reverse|]|].
  rewrite reverse_involutive. intros q' m'' [? Hr']. split; [done|]. etrans; [done|].
  eapply relinks_mono; [done|]. list_incl.
Qed.

(** [_M_splice] of a range that starts after the head of [__other]
    inserts it at [__pos] and removes it from [__other]'s chain, for any
    position of an empty queue or after the first node of a non-empty one.
    [__other] stays well formed exactly when the range stops before its end:
    a spliced suffix leaves [__tail_] pointing at a node that now belongs to
    [*this]. *)
Theorem splice_moves_range m q1 q2 a b pre mid post :
  qrep m q1 (a ++ b) -> qrep m q2 (pre ++ mid ++ post) ->
  a ++ b ## pre ++ mid ++ post -> (a = [] -> b = []) -> pre <> [] -> mid <> [] ->
  returns (_M_splice q1 (iter_at a b) q2 (iter_at pre (mid ++ post)) (iter_at (pre ++ mid) post)) m
    (fun '(q1', q2') m' =>
      qrep m' q1' (a ++ mid ++ b) /\
      lseg m' (__head_ q2') (pre ++ post) nullptr /\
      (qrep m' q2' (pre ++ post) <-> post <> []) /\
      (post = [] -> __tail_ q2' = last_ptr mid) /\
      relinks (a ++ pre ++ mid) m m').
Proof.
  intros Hq1 Hq2 Hd Hab Hpre Hmid.
  eapply returns_mono; [by apply (splice_inner m q1 q2 a b pre mid post)|].
  intros [q1' q2'] m' (? & Hl & -> & ?).
  pose proof (qrep_NoDup _ _ _ Hq2) as Hnd. destruct Hq2 as [_ Et].
  assert (post <> [] -> last_ptr (pre ++ mid ++ post) = last_ptr (pre ++ post)) as Hpost.
  { destruct post as [|x post]; [done|]. by rewrite app_assoc, !last_ptr_cons_app. }
  destruct mid as [|z mid _] using rev_ind; [done|].
  destruct pre as [|y pre _] using rev_ind; [done|].
  rewrite last_ptr_snoc. split_and!; [done..| | |done].
  - split; [|intros ?; split; [done|]; rewrite Et; by apply Hpost].
    intros [_ Et'] ->. rewrite Et in Et'.
    rewrite !app_nil_r, app_assoc, !last_ptr_snoc in Et'. subst z.
    destruct (NoDup_range_ends _ _ _ _ _ Hnd). done.
  - intros ->. by rewrite Et, app_nil_r, app_assoc, last_ptr_snoc.
Qed.

(** [_M_splice] of a range that starts at the head of [__other] takes it
    out of [__other] correctly, but does not redirect the link of the last
    moved node: [*this] is well formed afterwards exactly when the whole of
    [__other] is appended at the end; otherwise its chain runs on into the
    rest of [__other], and the nodes behind [__pos] are cut off.  Splicing in
    front of the first node of a non-empty queue is a null dereference. *)
Theorem splice_prefix_keeps_link m q1 q2 a b mid post :
  qrep m q1 (a ++ b) -> qrep m q2 (mid ++ post) ->
  a ++ b ## mid ++ post -> mid <> [] ->
  ((a = [] -> b = []) ->
   returns (_M_splice q1 (iter_at a b) q2 (begin_ q2) (iter_at mid post)) m
    (fun '(q1', q2') m' =>
      lseg m' (__head_ q1') (a ++ mid ++ post) nullptr /\ qrep m' q2' post /\
      (qrep m' q1' (a ++ mid ++ b) <-> b = [] /\ post = []))) /\
  (a = [] -> b <> [] ->
   _M_splice q1 (begin_ q1) q2 (begin_ q2) (iter_at mid post) m = Fault NullDeref).
Proof.
  intros Hq1 Hq2 Hd Hmid. split; [|intros -> ?; by apply (splice_begin_faults _ _ _ b)].
  intros Hab. eapply returns_mono; [by apply (splice_head m q1 q2 a b mid post)|].
  intros [q1' q2'] m' (Hl & Ht & Hq2' & _).
  assert (lseg m' (__head_ q1') (a ++ mid ++ post) nullptr) as Hl1.
  { rewrite app_assoc. apply lseg_app. destruct Hq2' as [Hq2' _].
    rewrite (lseg_head_ptr _ _ _ Hq2') in Hq2'. eauto. }
  split_and!; [done..|]. split.
  - intros [Hl2 _]. pose proof (lseg_null_det _ _ _ _ Hl1 Hl2) as E.
    apply app_inv_head, app_inv_head in E as ->.
    destruct b as [|x b]; [done|]. exfalso.
    apply (Hd x); apply elem_of_app; right; left.
  - intros [-> ->]. rewrite app_nil_r in *. split; [done|].
    rewrite Ht, decide_True by done.
    destruct mid as [|z mid _] using rev_ind; [done|]. by rewrite app_assoc, !last_ptr_snoc.
Qed.
End clients.

(** ** Concrete queues

    Six block headers: a queue of two, a queue of three and a free one. *)
Module examples.
Import buffer.

Definition mem : gmap ptr __block_prefix := list_to_map [
  (64, mkBlockPrefix 128 0 0); (128, mkBlockPrefix nullptr 0 1);
  (192, mkBlockPrefix 256 0 2); (256, mkBlockPrefix 320 0 3);
  (320, mkBlockPrefix nullptr 0 4); (384, fresh_prefix 5)].
Definition two : queue := mkQueue 64 128.
Definition three : queue := mkQueue 192 320.

Ltac solve_chain :=
  split; [simpl; repeat (split; [done|]; split; [done|]; eexists; split; [reflexivity|]; simpl); done
         |done].

Lemma two_rep : qrep mem two [64; 128].
Proof. solve_chain. Qed.
Lemma three_rep : qrep mem three [192; 256; 320].
Proof. solve_chain. Qed.
Lemma disjoint : [64; 128] ## [192; 256; 320].
Proof. intros x. set_unfold. lia. Qed.
Lemma free_live : live mem 384.
Proof. split; [done|]. by eexists. Qed.

Lemma exec_refines_witness :
  returns (exec two [PopFront; PushBack 384; PushFront 64; PopFront; PopFront]) mem
    (fun '(xs, q') m' => xs = [64; 64; 128] /\ qrep m' q' [384] /\
      relinks [64; 128; 384; 64] mem m').
Proof.
  apply (exec_refines mem two [64; 128]); [apply two_rep|].
  split; [apply free_live|split; [set_solver|]].
  split; [split; [done|by eexists]|split; [set_solver|done]].
Defined.

Lemma append_prepend_concat_witness :
  returns (_M_append two (fst (move three))) mem (fun q' m' =>
    qrep m' q' [64; 128; 192; 256; 320] /\ qrep m' (snd (move three)) [] /\
    relinks [64; 128] mem m') /\
  returns (_M_prepend two (fst (move three))) mem (fun q' m' =>
    qrep m' q' [192; 256; 320; 64; 128] /\ qrep m' (snd (move three)) [] /\
    relinks [192; 256; 320] mem m').
Proof.
  apply (append_prepend_concat mem two three [64; 128] [192; 256; 320]);
    [apply two_rep|apply three_rep|apply disjoint].
Defined.

Lemma create_reversed_involutive_witness :
  returns (__create 3 192) mem (fun q m' => qrep m' q [192; 256; 320] /\ m' = mem) /\
  returns (__create_reversed 3 192) mem (fun q m' =>
    qrep m' q (reverse [192; 256; 320]) /\ relinks [192; 256; 320] mem m' /\
    returns (__create_reversed 3 (_M_front q)) m' (fun q' m'' =>
      qrep m'' q' [192; 256; 320] /\ relinks [192; 256; 320] mem m'')).
Proof. apply create_reversed_involutive; [apply three_rep|simpl; lia]. Defined.

Lemma splice_moves_range_witness :
  returns (_M_splice two (iter_at [64] [128]) three (iter_at [192] [256; 320]) (iter_at [192; 256] [320])) mem
    (fun '(q1', q2') m' =>
      qrep m' q1' [64; 256; 128] /\ lseg m' (__head_ q2') [192; 320] nullptr /\
      (qrep m' q2' [192; 320] <-> [320] <> []) /\
      ([320] = [] -> __tail_ q2' = last_ptr [256]) /\ relinks [64; 192; 256] mem m').
Proof.
  apply (splice_moves_range mem two three [64] [128] [192] [256] [320]);
    [apply two_rep|apply three_rep|apply disjoint|done..].
Defined.

Lemma splice_prefix_keeps_link_witness :
  (([64; 128] = [] -> @nil ptr = []) ->
   returns (_M_splice two (iter_at [64; 128] []) three (begin_ three) (iter_at [192; 256] [320])) mem
    (fun '(q1', q2') m' =>
      lseg m' (__head_ q1') [64; 128; 192; 256; 320] nullptr /\ qrep m' q2' [320] /\
      (qrep m' q1' [64; 128; 192; 256] <-> @nil ptr = [] /\ [320] = []))) /\
  ([64; 128] = [] -> @nil ptr <> [] ->
   _M_splice two (begin_ two) three (begin_ three) (iter_at [192; 256] [320]) mem = Fault NullDeref).
Proof.
  apply (splice_prefix_keeps_link mem two three [64; 128] [] [192; 256] [320]);
    [apply two_rep|apply three_rep|apply disjoint|done].
Defined.

(** The operations evaluate. *)
Example pop_two : exists m', exec two [PopFront; PopFront; PopFront] mem
  = Done (([64; 128; nullptr], empty_queue), m').
Proof. eexists. vm_compute. reflexivity. Qed.
End examples.
End intrusive_queue.
