(* ===== verification/AtomicIntrusiveQueue.v ===== *)
(** * [__atomic_intrusive_queue.hpp]: the lock-free intrusive stack

    Many threads insert nodes at [__head_] with a compare-and-swap loop, some
    thread takes the whole chain by swapping in [nullptr] and reverses it, which
    gives the nodes back in the order they were inserted.

    Module [atomic_intrusive_queue] has the code twice.  [thread_step] is the
    code as a machine: one step per access to shared memory, so that the steps
    of several threads interleave; [step] is the system of all threads.  The
    functions [_M_push_front], [_M_prepend], [_M_pop_swap] and
    [_M_pop_swap_reversed] are the same code run by a thread nobody interferes
    with, for the sequential clients; [solo_insert] and [solo_reset] prove that
    this is what the machine does then.

    Memory is sequentially consistent: the acquire and release orders of the
    source are those under which the accesses of this code cannot be observed
    in another order.  [compare_exchange_weak] may fail spuriously, which is an
    input of the machine. *)

From S2P Require Import Prelude Memory Buffer IntrusiveQueue.

Module atomic_intrusive_queue.
Import intrusive_queue.

(** ** The code *)

Section code.
Context `{Linked Node}.

(** The memory all nodes live in, and the atomic [__head_]. *)
Record shared := mkShared { smem : gmap ptr Node; shead : ptr }.

Definition with_mem {A} (c : M (gmap ptr Node) A) : M shared A := fun s =>
  match c (smem s) with
  | Done (a, m) => Done (a, mkShared m (shead s))
  | Fault f => Fault f
  end.

Definition load_head : M shared ptr := s ← get; mret (shead s).

(** [__head_.compare_exchange_weak(__expected, __desired, ...)]: whether it
    succeeded, and the value left in [__expected]. *)
Definition compare_exchange_weak (spurious : bool) (__expected __desired : ptr)
    : M shared (bool * ptr) :=
  s ← get;
  if bool_decide (shead s = __expected) && negb spurious then
    put (mkShared (smem s) __desired);; mret (true, __expected)
  else mret (false, shead s).

Definition _M_empty : M shared bool := h ← load_head; mret (bool_decide (h = nullptr)).

(** Where a thread is inside an operation.  [_M_push_front] and [_M_prepend]
    are the same loop: one links and installs the node itself, the other links
    the last and installs the first node of a queue. *)
Inductive kind := Push | Prepend.
Inductive pc :=
  | InsLoad (k : kind) (__new_head __tail : ptr)
  | InsLink (k : kind) (__new_head __tail __old_head : ptr)
  | InsCas (k : kind) (__new_head __tail __old_head : ptr)
  | InsDone (k : kind) (__was_empty : bool)
  | ResetLoad
  | ResetCas (__old_head : ptr)
  | ResetDone (__old_head : ptr).

Definition push_front_pc (__p : ptr) : pc := InsLoad Push __p __p.
Definition prepend_pc (__queue : queue) : pc :=
  InsLoad Prepend (_M_front __queue) (_M_back __queue).
Definition reset_pc : pc := ResetLoad.

(** One step of a thread: every step does one access to shared memory. *)
Definition thread_step (spurious : bool) (c : pc) : M shared pc :=
  match c with
  | InsLoad k f l => old ← load_head; mret (InsLink k f l old)
  | InsLink k f l old => with_mem (put_next l old);; mret (InsCas k f l old)
  | InsCas k f l old =>
      '(ok, old) ← compare_exchange_weak spurious old f;
      mret (if (ok : bool) then InsDone k (bool_decide (old = nullptr)) else InsLink k f l old)
  | InsDone k b => mret (InsDone k b)
  | ResetLoad => old ← load_head; mret (ResetCas old)
  | ResetCas old =>
      '(ok, old) ← compare_exchange_weak spurious old nullptr;
      mret (if (ok : bool) then ResetDone old else ResetCas old)
  | ResetDone old => mret (ResetDone old)
  end.

(** The sequential reading. *)
Definition _M_push_front (__p : ptr) : M shared bool :=
  __old_head ← load_head;
  with_mem (put_next __p __old_head);;
  '(_, __old_head) ← compare_exchange_weak false __old_head __p;
  mret (bool_decide (__old_head = nullptr)).

Definition _M_prepend (__queue : queue) : M shared unit :=
  let __new_head := _M_front __queue in
  let __tail := _M_back __queue in
  __old_head ← load_head;
  with_mem (put_next __tail __old_head);;
  _ ← compare_exchange_weak false __old_head __new_head;
  with_mem (destroy (_M_clear __queue)).

Definition _M_reset : M shared ptr :=
  __old_head ← load_head;
  '(_, __old_head) ← compare_exchange_weak false __old_head nullptr;
  mret __old_head.

Definition _M_pop_swap (fuel : nat) : M shared queue :=
  p ← _M_reset; with_mem (__create fuel p).
Definition _M_pop_swap_reversed (fuel : nat) : M shared queue :=
  p ← _M_reset; with_mem (__create_reversed fuel p).
End code.

(** ** The system of threads

    [own] are the nodes a thread may insert, [chain] the ones it is inserting,
    or has taken and not handed out yet; both are there to state who may touch
    what and are not read by the code.  What a thread has taken is what it finds
    from the pointer that [_M_reset] returns to it, and what it hands out what it
    finds in the queue that [__create_reversed] makes of that. *)

Definition tid := nat.
Record thread := mkThread { tpc : option pc; chain : list ptr; own : list ptr }.

Inductive event :=
  | Tau
  | Pushed (t : tid) (c : list ptr) (was_empty : bool)
  | Taken (t : tid) (r : list ptr)
  | Popped (t : tid) (r : list ptr).

Section system.
Context `{Linked Node}.

Record sys := mkSys { sh : shared (Node := Node); thr : gmap tid thread }.

Inductive step : sys -> event -> sys -> Prop :=
  | step_start_push s t own p rest :
      thr s !! t = Some (mkThread None [] own) -> own ≡ₚ p :: rest ->
      step s Tau (mkSys (sh s) (<[t := mkThread (Some (push_front_pc p)) [p] rest]> (thr s)))
  | step_start_prepend s t own q c rest :
      thr s !! t = Some (mkThread None [] own) -> own ≡ₚ c ++ rest ->
      qrep (smem (sh s)) q c -> c <> [] ->
      step s Tau (mkSys (sh s) (<[t := mkThread (Some (prepend_pc q)) c rest]> (thr s)))
  | step_start_reset s t own :
      thr s !! t = Some (mkThread None [] own) ->
      step s Tau (mkSys (sh s) (<[t := mkThread (Some reset_pc) [] own]> (thr s)))
  | step_run s t c ch own spurious c' sh' :
      thr s !! t = Some (mkThread (Some c) ch own) ->
      thread_step spurious c (sh s) = Done (c', sh') ->
      match c' with InsDone _ _ | ResetDone _ => False | _ => True end ->
      step s Tau (mkSys sh' (<[t := mkThread (Some c') ch own]> (thr s)))
  | step_pushed s t k f l old ch own spurious b sh' :
      thr s !! t = Some (mkThread (Some (InsCas k f l old)) ch own) ->
      thread_step spurious (InsCas k f l old) (sh s) = Done (InsDone k b, sh') ->
      step s (Pushed t ch b) (mkSys sh' (<[t := mkThread (Some (InsDone k b)) [] own]> (thr s)))
  | step_taken s t old own spurious old' sh' (r := walk (smem sh') old') :
      thr s !! t = Some (mkThread (Some (ResetCas old)) [] own) ->
      thread_step spurious (ResetCas old) (sh s) = Done (ResetDone old', sh') ->
      step s (Taken t (reverse r))
        (mkSys sh' (<[t := mkThread (Some (ResetDone old')) r own]> (thr s)))
  | step_inserted s t k b own :
      thr s !! t = Some (mkThread (Some (InsDone k b)) [] own) ->
      step s Tau (mkSys (sh s) (<[t := mkThread None [] own]> (thr s)))
  | step_popped s t old ch own q sh' :
      thr s !! t = Some (mkThread (Some (ResetDone old)) ch own) ->
      with_mem (__create_reversed (size (smem (sh s))) old) (sh s) = Done (q, sh') ->
      let r := walk (smem sh') (_M_front q) in
      step s (Popped t r) (mkSys sh' (<[t := mkThread None [] (r ++ own)]> (thr s))).

Inductive trace : sys -> list event -> sys -> Prop :=
  | trace_nil s : trace s [] s
  | trace_snoc s0 tr s e s' : trace s0 tr s -> step s e s' -> trace s0 (tr ++ [e]) s'.

Lemma trace_cons s e s1 tr s2 : step s e s1 -> trace s1 tr s2 -> trace s (e :: tr) s2.
Proof.
  intros Hs Htr. revert Hs. induction Htr as [s1|s1 tr s2 e' s3 _ IH Hs3]; intros Hs.
  - apply (trace_snoc _ [] s); [constructor|done].
  - rewrite app_comm_cons. econstructor; eauto.
Qed.

(** Every thread idle, every node owned by one thread, the stack empty. *)
Definition nodes (th : thread) : list ptr := chain th ++ own th.

Definition separate (s : sys) : Prop :=
  (forall t th, thr s !! t = Some th -> NoDup (nodes th) ∧
    forall x, x ∈ nodes th -> live (smem (sh s)) x) ∧
  (forall t t' th th', thr s !! t = Some th -> thr s !! t' = Some th' -> t <> t' ->
    nodes th ## nodes th').

Definition initial (s : sys) : Prop :=
  shead (sh s) = nullptr ∧ separate s ∧
  (forall t th, thr s !! t = Some th -> tpc th = None ∧ chain th = []).
End system.

(** ** The specification: a stack whose contents are taken all at once *)

Fixpoint replay (l : list ptr) (tr : list event) : option (list ptr) :=
  match tr with
  | [] => Some l
  | Tau :: tr | Popped _ _ :: tr => replay l tr
  | Pushed _ c b :: tr =>
      if decide (b = bool_decide (l = [])) then replay (c ++ l) tr else None
  | Taken _ r :: tr => if decide (r = reverse l) then replay [] tr else None
  end.

Fixpoint taken (tr : list event) : list ptr :=
  match tr with
  | [] => []
  | Taken _ r :: tr => r ++ taken tr
  | _ :: tr => taken tr
  end.

(** What one thread has taken, and what it was given, operation by operation. *)
Fixpoint taken_by (t : tid) (tr : list event) : list (list ptr) :=
  match tr with
  | [] => []
  | Taken t' r :: tr => if decide (t' = t) then r :: taken_by t tr else taken_by t tr
  | _ :: tr => taken_by t tr
  end.
Fixpoint popped_by (t : tid) (tr : list event) : list (list ptr) :=
  match tr with
  | [] => []
  | Popped t' r :: tr => if decide (t' = t) then r :: popped_by t tr else popped_by t tr
  | _ :: tr => popped_by t tr
  end.

Lemma taken_by_app t tr1 tr2 : taken_by t (tr1 ++ tr2) = taken_by t tr1 ++ taken_by t tr2.
Proof. induction tr1 as [|[] tr1 IH]; simpl; [done|done|done| |done]. case_decide; simpl; by rewrite IH. Qed.
Lemma popped_by_app t tr1 tr2 : popped_by t (tr1 ++ tr2) = popped_by t tr1 ++ popped_by t tr2.
Proof. induction tr1 as [|[] tr1 IH]; simpl; [done|done|done|done|]. case_decide; simpl; by rewrite IH. Qed.

Fixpoint inserted (tr : list event) : list ptr :=
  match tr with
  | [] => []
  | Pushed _ c _ :: tr => reverse c ++ inserted tr
  | _ :: tr => inserted tr
  end.

(** ** The invariant of the system *)

Section invariant.
Context `{Linked Node}.
Implicit Types (m : gmap ptr Node) (s : sys (Node := Node)) (l r ch : list ptr).

(** What is known of the nodes of a thread at each point of an operation. *)
Definition pc_ok m (c : pc) ch : Prop :=
  match c with
  | InsLoad _ f la | InsLink _ f la _ => exists c', ch = c' ++ [la] ∧ lseg m f c' la ∧ live m la
  | InsCas _ f la old =>
      exists c', ch = c' ++ [la] ∧ lseg m f (c' ++ [la]) old
  | InsDone _ _ | ResetLoad | ResetCas _ => ch = []
  | ResetDone old => lseg m old ch nullptr
  end.

Definition thread_ok m (th : thread) : Prop :=
  match tpc th with None => chain th = [] | Some c => pc_ok m c (chain th) end.

(** The shared stack holds [l]; no node has two owners. *)
Definition Inv s l : Prop :=
  lseg (smem (sh s)) (shead (sh s)) l nullptr ∧ separate s ∧
  forall t th, thr s !! t = Some th -> thread_ok (smem (sh s)) th ∧ nodes th ## l.

Lemma pc_ok_relinks r m m' c ch : relinks r m m' -> ch ## r -> pc_ok m c ch -> pc_ok m' c ch.
Proof.
  intros Hr Hd. destruct c; simpl; try done.
  - intros (c' & -> & ? & ?). exists c'. split_and!; [done| |by eapply relinks_live].
    eapply relinks_lseg; [done| |done]. list_disj Hd.
  - intros (c' & -> & ? & ?). exists c'. split_and!; [done| |by eapply relinks_live].
    eapply relinks_lseg; [done| |done]. list_disj Hd.
  - intros (c' & -> & ?). exists c'. split; [done|]. by eapply relinks_lseg.
  - intros ?. by eapply relinks_lseg.
Qed.

Lemma thread_ok_relinks r m m' th :
  relinks r m m' -> nodes th ## r -> thread_ok m th -> thread_ok m' th.
Proof.
  intros Hr Hd. unfold thread_ok. destruct (tpc th); [|done].
  apply (pc_ok_relinks r); [done|]. unfold nodes in Hd. list_disj Hd.
Qed.

(** One thread moves: it may relink its own nodes, and exchange nodes with the
    shared stack.  Everything the other threads rely on is preserved. *)
Lemma Inv_move s l t th r m' h' l' th' :
  Inv s l -> thr s !! t = Some th ->
  relinks r (smem (sh s)) m' -> r ⊆ nodes th ->
  lseg m' h' l' nullptr -> thread_ok m' th' -> l' ++ nodes th' ≡ₚ l ++ nodes th ->
  Inv (mkSys (mkShared m' h') (<[t := th']> (thr s))) l'.
Proof.
  intros (Hl & [Hown Hsep] & Hth) Ht Hr Hsub Hl' Hok Hp.
  destruct (Hown _ _ Ht) as [Hnd Hlive]. destruct (Hth _ _ Ht) as [_ Hdl].
  assert (NoDup (l' ++ nodes th')) as Hnd'.
  { rewrite Hp. apply NoDup_app. split_and!; [by eapply lseg_null_NoDup| |done].
    intros x ??. by apply (Hdl x). }
  apply NoDup_app in Hnd' as (_ & Hdl' & Hnd').
  assert (forall x, x ∈ l' ++ nodes th' -> x ∈ l ++ nodes th) as Hin by (intros x; by rewrite Hp).
  assert (forall x, x ∈ nodes th' -> live m' x) as Hlive'.
  { intros x Hx. eapply relinks_live; [done|].
    destruct (proj1 (elem_of_app _ _ x) (Hin x ltac:(set_solver))); [|by apply Hlive].
    by eapply lseg_live. }
  assert (forall t2 th2, thr s !! t2 = Some th2 -> t2 <> t -> nodes th2 ## l' ++ nodes th') as Hoth.
  { intros t2 th2 Ht2 ? x Hx2 Hx. destruct (proj1 (elem_of_app _ _ x) (Hin x Hx)).
    - by destruct (Hth _ _ Ht2) as [_ Hd]; apply (Hd x).
    - by apply (Hsep t2 t th2 th Ht2 Ht ltac:(done) x). }
  split; [done|]. split; [split|]; simpl.
  - intros t2 th2. rewrite lookup_insert_Some. intros [[<- <-]|[? Ht2]]; [done|].
    destruct (Hown _ _ Ht2) as [? Hlv]. split; [done|]. intros x Hx. eapply relinks_live; eauto.
  - intros t2 t3 th2 th3. rewrite !lookup_insert_Some.
    intros [[<- <-]|[? Ht2]] [[<- <-]|[? Ht3]] ?; [done|..|by eapply Hsep].
    + intros x ??. eapply (Hoth t3 th3 Ht3 ltac:(done) x); [done|]. set_solver.
    + intros x ??. eapply (Hoth t2 th2 Ht2 ltac:(done) x); [done|]. set_solver.
  - intros t2 th2. rewrite lookup_insert_Some. intros [[<- <-]|[? Ht2]].
    + split; [done|]. intros x ??. by apply (Hdl' x).
    + destruct (Hth _ _ Ht2) as [Hok2 _]. pose proof (Hoth _ _ Ht2 ltac:(done)) as Hd2.
      split; [|list_disj Hd2]. eapply thread_ok_relinks; [done| |done].
      intros x Hx Hxr. apply (Hsep t2 t th2 th Ht2 Ht ltac:(done) x); [done|by apply Hsub].
Qed.

Lemma put_next_live m p v : live m p -> exists n,
  m !! p = Some n /\ put_next p v m = Done (tt, <[p := set_next v n]> m).
Proof.
  intros [? [n Hn]]. exists n. split; [done|]. unfold put_next, update, load, mbind, M_bind.
  rewrite decide_False by done. by rewrite Hn.
Qed.

(** Starting an operation, or handing nodes back, moves no memory. *)
Lemma Inv_ghost s l t th th' :
  Inv s l -> thr s !! t = Some th -> nodes th' ≡ₚ nodes th -> thread_ok (smem (sh s)) th' ->
  Inv (mkSys (sh s) (<[t := th']> (thr s))) l.
Proof.
  intros HI Ht Hp Hok. destruct (sh s) as [m h] eqn:E. pose proof HI as [Hl _]. rewrite E in Hl.
  eapply (Inv_move _ _ _ _ [] m h l); try done.
  - by rewrite E.
  - set_solver +.
  - by rewrite Hp.
Qed.

Lemma Inv_run s l t c ch own spurious c' sh' :
  Inv s l -> thr s !! t = Some (mkThread (Some c) ch own) ->
  thread_step spurious c (sh s) = Done (c', sh') ->
  match c' with InsDone _ _ | ResetDone _ => False | _ => True end ->
  Inv (mkSys sh' (<[t := mkThread (Some c') ch own]> (thr s))) l.
Proof.
  intros HI Ht Hc Hc'. pose proof HI as (Hl & _ & Hth). destruct (Hth _ _ Ht) as [Hok _].
  unfold thread_ok in Hok. simpl in Hok.
  destruct c as [k f la|k f la old|k f la old|k b| |old|old]; cbn in Hc.
  - injection Hc as <- <-. by eapply Inv_ghost.
  - destruct Hok as (c0 & -> & Hf & Hla). destruct (put_next_live _ _ old Hla) as (n & Hn & Hput).
    unfold mbind, M_bind, with_mem in Hc. rewrite Hput in Hc. injection Hc as <- <-.
    assert (la ∉ c0) as Hnin.
    { destruct HI as (_ & [Hown _] & _). destruct (Hown _ _ Ht) as [Hnd _].
      unfold nodes in Hnd. simpl in Hnd. apply NoDup_app in Hnd as [Hnd _].
      apply NoDup_app in Hnd as (_ & Hnd & _). intros Hin. apply (Hnd la Hin). by left. }
    assert (relinks [la] (smem (sh s)) (<[la := set_next old n]> (smem (sh s)))) as Hr.
    { apply relinks_insert; [by left|done]. }
    eapply (Inv_move s l t _ [la]); [done|exact Ht|exact Hr| | | |done].
    + unfold nodes. simpl. set_solver +.
    + eapply relinks_lseg; [exact Hr| |exact Hl].
      destruct (Hth _ _ Ht) as [_ Hd]. unfold nodes in Hd. simpl in Hd. list_disj Hd.
    + exists c0. split; [done|]. apply lseg_snoc. split_and!; [by apply lseg_insert|apply Hla|].
      exists (set_next old n). by rewrite lookup_insert_eq, next_of_set_next.
  - unfold compare_exchange_weak, mbind, M_bind, get, put in Hc. case_bool_decide; destruct spurious; simpl in Hc;
      injection Hc as <- <-; try done.
    all: eapply Inv_ghost; [done|exact Ht|done|].
    all: destruct Hok as (c0 & -> & Hf); pose proof Hf as (? & ? & n & ? & _)%lseg_snoc.
    all: exists c0; split_and!; [done..|split; [done|by eexists]].
  - by injection Hc as <- <-.
  - injection Hc as <- <-. by eapply Inv_ghost.
  - unfold compare_exchange_weak, mbind, M_bind, get, put in Hc. case_bool_decide; destruct spurious; simpl in Hc;
      injection Hc as <- <-; try done.
    all: by eapply Inv_ghost.
  - by injection Hc as <- <-.
Qed.

Lemma cas_success spurious old new (s s' : shared (Node := Node)) x :
  compare_exchange_weak spurious old new s = Done ((true, x), s') ->
  shead s = old /\ x = old /\ s' = mkShared (smem s) new.
Proof.
  unfold compare_exchange_weak, mbind, M_bind, get, put. case_bool_decide as E;
    destruct spurious; simpl; intros [= <- <-]; done.
Qed.

Lemma Inv_pushed s l t k f la old ch own spurious b sh' :
  Inv s l -> thr s !! t = Some (mkThread (Some (InsCas k f la old)) ch own) ->
  thread_step spurious (InsCas k f la old) (sh s) = Done (InsDone k b, sh') ->
  b = bool_decide (l = []) /\
  Inv (mkSys sh' (<[t := mkThread (Some (InsDone k b)) [] own]> (thr s))) (ch ++ l).
Proof.
  intros HI Ht Hc. pose proof HI as (Hl & _ & Hth). destruct (Hth _ _ Ht) as [Hok _].
  unfold thread_ok, pc_ok in Hok. simpl in Hok. destruct Hok as (c0 & -> & Hf). cbn in Hc.
  destruct (compare_exchange_weak spurious old f (sh s)) as [[[[] old'] s']|] eqn:E;
    unfold mbind, M_bind in Hc; rewrite E in Hc; [|done..].
  apply cas_success in E as (<- & -> & ->). injection Hc as <- <-. split.
  - apply bool_decide_ext. destruct l as [|x l]; simpl in Hl; [done|].
    destruct Hl as (-> & ? & _). done.
  - eapply (Inv_move s l t _ []); [done|exact Ht|done| | |done|].
    + set_solver +.
    + apply lseg_app. eauto.
    + unfold nodes. simpl. solve_Permutation.
Qed.

Lemma Inv_taken s l t old own spurious old' sh' (r := walk (smem sh') old') :
  Inv s l -> thr s !! t = Some (mkThread (Some (ResetCas old)) [] own) ->
  thread_step spurious (ResetCas old) (sh s) = Done (ResetDone old', sh') ->
  r = l /\ Inv (mkSys sh' (<[t := mkThread (Some (ResetDone old')) r own]> (thr s))) [].
Proof.
  intros HI Ht Hc. pose proof HI as (Hl & _ & _). cbn in Hc.
  destruct (compare_exchange_weak spurious old nullptr (sh s)) as [[[[] x] s']|] eqn:E;
    unfold mbind, M_bind in Hc; rewrite E in Hc; [|done..].
  apply cas_success in E as (<- & -> & ->). injection Hc as <- <-.
  assert (r = l) as -> by (by apply walk_lseg). split; [done|].
  eapply (Inv_move s l t _ []); [done|exact Ht|done|set_solver +|done|done|].
  unfold nodes. simpl. solve_Permutation.
Qed.

Lemma Inv_popped s l t old ch own q sh' :
  Inv s l -> thr s !! t = Some (mkThread (Some (ResetDone old)) ch own) ->
  with_mem (__create_reversed (size (smem (sh s))) old) (sh s) = Done (q, sh') ->
  let r := walk (smem sh') (_M_front q) in
  r = reverse ch /\ Inv (mkSys sh' (<[t := mkThread None [] (r ++ own)]> (thr s))) l.
Proof.
  intros HI Ht Hc. pose proof HI as (Hl & _ & Hth). destruct (Hth _ _ Ht) as [Hok Hd].
  pose proof (create_reversed_spec (size (smem (sh s))) _ _ _ (lseg_size _ _ _ Hok) Hok) as Hrev.
  unfold with_mem in Hc. unfold returns in Hrev.
  destruct (__create_reversed (size (smem (sh s))) old (smem (sh s))) as [[q' m']|] eqn:E; [|done].
  injection Hc as <- <-. destruct Hrev as [[Hq _] Hr]. intros r.
  assert (r = reverse ch) as -> by (by apply walk_lseg). split; [done|].
  eapply (Inv_move s l t _ ch); [done|exact Ht|exact Hr| | |done|].
  - list_incl.
  - eapply relinks_lseg; [exact Hr| |exact Hl]. unfold nodes in Hd. simpl in Hd. list_disj Hd.
  - unfold nodes. simpl. by rewrite reverse_Permutation.
Qed.

(** Every step of every thread preserves the invariant, and its event is one
    the abstract stack allows. *)
Lemma Inv_step s e s' l :
  Inv s l -> step s e s' -> exists l', replay l [e] = Some l' /\ Inv s' l'.
Proof.
  intros HI Hs. pose proof HI as (_ & [Hown _] & Hth). destruct Hs as
    [s t own p rest Ht Hp|s t own q c rest Ht Hp Hq Hc|s t own Ht|s t c ch own sp c' sh' Ht Hc Hc'
    |s t k f la old ch own sp b sh' Ht Hc|s t old own sp old' sh' r Ht Hc
    |s t k b own Ht|s t old ch own q sh' Ht Hc r]; simpl.
  - exists l. split; [done|]. eapply Inv_ghost; [done|exact Ht| |].
    + unfold nodes. simpl. by rewrite Hp.
    + exists []. split_and!; [done..|]. apply (Hown _ _ Ht). unfold nodes. simpl. rewrite Hp. by left.
  - exists l. split; [done|]. eapply Inv_ghost; [done|exact Ht| |].
    + unfold nodes. simpl. by rewrite Hp.
    + destruct c as [|x c _] using rev_ind; [done|]. exists c.
      destruct Hq as [Hq Etl]. unfold _M_back. rewrite Etl, last_ptr_snoc.
      pose proof Hq as (? & ? & n & ? & _)%lseg_snoc. by split_and!; [..|split; eauto].
  - exists l. split; [done|]. by eapply Inv_ghost; [..|exact Ht|done|].
  - exists l. split; [done|]. by eapply Inv_run.
  - destruct (Inv_pushed _ _ _ _ _ _ _ _ _ _ _ _ HI Ht Hc) as [-> HI'].
    rewrite decide_True by done. eauto.
  - destruct (Inv_taken _ _ _ _ _ _ _ _ HI Ht Hc) as [E HI']. subst r. rewrite E in *.
    rewrite decide_True by done. eauto.
  - exists l. split; [done|]. by eapply Inv_ghost; [..|exact Ht|done|].
  - exists l. split; [done|]. by eapply Inv_popped.
Qed.

Lemma replay_app l tr1 tr2 : replay l (tr1 ++ tr2) = replay l tr1 ≫= fun l' => replay l' tr2.
Proof.
  revert l. induction tr1 as [|[|t c b|t r|t r] tr1 IH]; intros l; simpl; [done|done| | |done].
  all: case_decide; [apply IH|done].
Qed.

Lemma Inv_trace s0 tr s l0 :
  Inv s0 l0 -> trace s0 tr s -> exists l, replay l0 tr = Some l /\ Inv s l.
Proof.
  intros HI0 Htr. induction Htr as [s|s0 tr s e s' _ IH Hs]; [by exists l0|].
  destruct (IH HI0) as (l & Hl & HI). destruct (Inv_step _ _ _ _ HI Hs) as (l' & Hl' & HI').
  exists l'. rewrite replay_app, Hl. done.
Qed.

Lemma Inv_initial s : initial s -> Inv s [].
Proof.
  intros (Hh & Hsep & Hidle). split_and!; [by rewrite Hh|done|].
  intros t th Ht. destruct (Hidle _ _ Ht) as [E1 E2]. unfold thread_ok. rewrite E1, E2.
  split; [done|]. intros x _ Hx. by apply not_elem_of_nil in Hx.
Qed.

(** What was taken so far, then what the stack still holds from the bottom, is
    what was inserted, in order. *)
Lemma replay_fifo l tr l' :
  replay l tr = Some l' -> taken tr ++ reverse l' = reverse l ++ inserted tr.
Proof.
  revert l. induction tr as [|[|t c b|t r|t r] tr IH]; intros l; simpl.
  - intros [= ->]. by rewrite app_nil_r.
  - apply IH.
  - case_decide; [|done]. intros E%IH. by rewrite E, reverse_app, app_assoc.
  - case_decide; [|done]. intros E%IH. subst r. by rewrite <- app_assoc, E.
  - apply IH.
Qed.

(** What a thread has taken and not handed out yet. *)
Definition in_hand (t : tid) s : list (list ptr) :=
  match thr s !! t with Some (mkThread (Some (ResetDone _)) ch _) => [reverse ch] | _ => [] end.

Lemma in_hand_idle t s ch own : thr s !! t = Some (mkThread None ch own) -> in_hand t s = [].
Proof. unfold in_hand. by intros ->. Qed.

Lemma in_hand_step s e s' l t : Inv s l -> step s e s' ->
  popped_by t [e] ++ in_hand t s' = in_hand t s ++ taken_by t [e].
Proof.
  intros HI Hs. unfold in_hand. destruct Hs as
    [s t' own p rest Ht Hp|s t' own q c rest Ht Hp Hq Hc|s t' own Ht|s t' c ch own sp c' sh' Ht Hc Hc'
    |s t' k f la old ch own sp b sh' Ht Hc|s t' old own sp old' sh' r Ht Hc
    |s t' k b own Ht|s t' old ch own q sh' Ht Hc r]; simpl;
    (destruct (decide (t' = t)) as [->|Hne]; [rewrite lookup_insert_eq, Ht|by rewrite lookup_insert_ne, app_nil_r]); try done.
  - destruct c'; try done; (destruct c; try done; by injection Hc as <- _).
  - destruct (Inv_popped _ _ _ _ _ _ _ _ HI Ht Hc) as [E _]. subst r. by rewrite E.
Qed.

Lemma in_hand_trace s0 tr s t : initial s0 -> trace s0 tr s -> popped_by t tr ++ in_hand t s = taken_by t tr.
Proof.
  intros Hi Htr. assert (popped_by t tr ++ in_hand t s = in_hand t s0 ++ taken_by t tr) as ->.
  { induction Htr as [s|s0 tr s e s' Htr IH Hs]; [by rewrite app_nil_r|].
    destruct (Inv_trace _ _ _ _ (Inv_initial _ Hi) Htr) as (l & _ & HI).
    rewrite popped_by_app, taken_by_app, <- app_assoc, (in_hand_step _ _ _ _ _ HI Hs), app_assoc, (IH Hi). by rewrite app_assoc. }
  destruct Hi as (_ & _ & Hidle). unfold in_hand. destruct (thr s0 !! t) as [[c ch own]|] eqn:Ht; [|done].
  destruct (Hidle _ _ Ht) as [E _]. simpl in E. by subst c.
Qed.
End invariant.

(** ** Running alone *)

Section solo.
Context `{Linked Node}.
Implicit Types (s : shared (Node := Node)) (l : list ptr).

(** A thread scheduled [n] times in a row, with no spurious failure. *)
Fixpoint solo (n : nat) (c : pc) : M (shared (Node := Node)) pc :=
  match n with
  | O => mret c
  | S n => c' ← thread_step false c; solo n c'
  end.

Definition finished (c : pc) : Prop :=
  match c with InsDone _ _ | ResetDone _ => True | _ => False end.

Definition stack_rep s l : Prop := lseg (smem s) (shead s) l nullptr.

Lemma returns_with_mem {A} (k : M (gmap ptr Node) A) s (Q : A -> shared -> Prop) :
  returns k (smem s) (fun a m => Q a (mkShared m (shead s))) -> returns (with_mem k) s Q.
Proof. unfold returns, with_mem. by destruct (k (smem s)) as [[]|]. Qed.

Lemma returns_cas s old new (Q : bool * ptr -> shared -> Prop) :
  shead s = old -> Q (true, old) (mkShared (smem s) new) ->
  returns (compare_exchange_weak false old new) s Q.
Proof.
  intros <- ?. unfold compare_exchange_weak. rstep. rstep.
  rewrite bool_decide_eq_true_2 by done. by rsteps.
Qed.

Lemma push_front_seq s l p :
  stack_rep s l -> live (smem s) p -> p ∉ l ->
  returns (_M_push_front p) s (fun b s' =>
    b = bool_decide (l = []) /\ stack_rep s' (p :: l) /\ relinks [p] (smem s) (smem s')).
Proof.
  intros Hl [? [n Hn]] Hp. unfold _M_push_front, load_head. rsteps.
  apply returns_with_mem. rsteps. apply returns_bind, returns_cas; [done|]. rsteps. split_and!.
  - apply bool_decide_ext. unfold stack_rep in Hl. destruct l; simpl in Hl; [done|].
    destruct Hl as (-> & ? & _). done.
  - unfold stack_rep. simpl. split_and!; [done..|]. exists (set_next (shead s) n).
    rewrite lookup_insert_eq, next_of_set_next. split; [done|]. by apply lseg_insert.
  - by apply relinks_insert; [left|].
Qed.

(** The link of the last node of the queue need not be null: it is
    overwritten before the queue is published. *)
Lemma prepend_seq s l q (c : list ptr) la :
  stack_rep s l -> lseg (smem s) (_M_front q) c la -> _M_back q = la -> live (smem s) la ->
  la ∉ c -> la ∉ l ->
  returns (_M_prepend q) s (fun _ s' =>
    stack_rep s' ((c ++ [la]) ++ l) /\ relinks [la] (smem s) (smem s')).
Proof.
  intros Hl Hc Hb [? [n Hn]] ??. unfold _M_prepend, load_head. rewrite Hb. rsteps.
  apply returns_with_mem. rsteps. apply returns_bind, returns_cas; [done|]. rsteps.
  apply returns_with_mem. apply returns_assert; [done|]. split; [|by apply relinks_insert; [left|]].
  unfold stack_rep. simpl. apply lseg_app. exists (shead s). split; [|by apply lseg_insert].
  apply lseg_snoc. split_and!; [by apply lseg_insert|done|].
  exists (set_next (shead s) n). by rewrite lookup_insert_eq, next_of_set_next.
Qed.

Lemma pop_swap_reversed_seq s l fuel :
  stack_rep s l -> (length l <= fuel)%nat ->
  returns (_M_pop_swap_reversed fuel) s (fun q s' =>
    qrep (smem s') q (reverse l) /\ shead s' = nullptr /\ relinks l (smem s) (smem s')).
Proof.
  intros Hl Hf. unfold _M_pop_swap_reversed, _M_reset, load_head. rsteps.
  apply returns_cas; [done|]. rsteps. apply returns_with_mem. simpl.
  eapply returns_mono; [by apply create_reversed_spec|]. naive_solver.
Qed.

Lemma pop_swap_seq s l fuel :
  stack_rep s l -> (length l <= fuel)%nat ->
  returns (_M_pop_swap fuel) s (fun q s' =>
    qrep (smem s') q l /\ shead s' = nullptr /\ smem s' = smem s).
Proof.
  intros Hl Hf. unfold _M_pop_swap, _M_reset, load_head. rsteps.
  apply returns_cas; [done|]. rsteps. apply returns_with_mem. simpl.
  eapply returns_mono; [by apply create_spec|]. intros q m' [? ->]. done.
Qed.

Lemma solo_finished n (k : pc) s : finished k -> solo n k s = Done (k, s).
Proof. intros Hk. induction n as [|n IH]; [done|]. destruct k; try done; apply IH. Qed.

Lemma returns_solo_finished n (k : pc) s : finished k -> returns (solo n k) s (fun c' _ => finished c').
Proof. intros. unfold returns. by rewrite solo_finished. Qed.

Lemma solo_link n kd f la old s x :
  la <> nullptr -> smem s !! la = Some x ->
  solo (S n) (InsLink kd f la old) s
  = solo n (InsCas kd f la old) (mkShared (<[la := set_next old x]> (smem s)) (shead s)).
Proof.
  intros Hla Hx. simpl. unfold mbind, M_bind, with_mem, put_next, update, load.
  unfold mbind, M_bind. rewrite decide_False by done. by rewrite Hx.
Qed.

Lemma solo_cas_fail n kd f la old s :
  shead s <> old -> solo (S n) (InsCas kd f la old) s = solo n (InsLink kd f la (shead s)) s.
Proof.
  intros. simpl. unfold compare_exchange_weak, mbind, M_bind, get, mret, M_ret.
  by rewrite bool_decide_eq_false_2.
Qed.

Lemma solo_cas_ok n kd f la s :
  solo (S n) (InsCas kd f la (shead s)) s
  = solo n (InsDone kd (bool_decide (shead s = nullptr))) (mkShared (smem s) f).
Proof.
  simpl. unfold compare_exchange_weak, mbind, M_bind, get, mret, M_ret.
  by rewrite bool_decide_eq_true_2.
Qed.

Lemma solo_reset_load n s : solo (S n) ResetLoad s = solo n (ResetCas (shead s)) s.
Proof. done. Qed.

Lemma solo_reset_ok n s :
  solo (S n) (ResetCas (shead s)) s = solo n (ResetDone (shead s)) (mkShared (smem s) nullptr).
Proof.
  simpl. unfold compare_exchange_weak, mbind, M_bind, get, mret, M_ret.
  by rewrite bool_decide_eq_true_2.
Qed.

Lemma solo_reset_fail n old s :
  shead s <> old -> solo (S n) (ResetCas old) s = solo n (ResetCas (shead s)) s.
Proof.
  intros. simpl. unfold compare_exchange_weak, mbind, M_bind, get, mret, M_ret.
  by rewrite bool_decide_eq_false_2.
Qed.

Lemma solo_link_current n kd f la s :
  live (smem s) la ->
  returns (solo (S (S n)) (InsLink kd f la (shead s))) s (fun c' _ => finished c').
Proof.
  intros [? [x Hx]]. unfold returns. rewrite (solo_link _ _ _ _ _ _ x) by done.
  rewrite (solo_cas_ok _ _ _ _ (mkShared _ (shead s))). by apply returns_solo_finished.
Qed.

(** From any point of an insertion that may still write its last node, and
    from any point of a removal, at most four steps remain. *)
Lemma solo_four (k : pc) s :
  match k with
  | InsLoad _ _ la | InsLink _ _ la _ | InsCas _ _ la _ => live (smem s) la
  | _ => True
  end ->
  returns (solo 4 k) s (fun c' _ => finished c').
Proof.
  intros Hk. destruct k as [kd f la|kd f la old|kd f la old|kd b| |old|old];
    try (by apply returns_solo_finished).
  - by apply (solo_link_current 1).
  - pose proof Hk as [? [x Hx]]. destruct (decide (shead s = old)) as [<-|];
      [by apply (solo_link_current 2)|].
    unfold returns. rewrite (solo_link _ _ _ _ _ _ x), solo_cas_fail by done.
    apply (solo_link_current 0 kd f la (mkShared _ _)).
    apply (relinks_live [la] (smem s)); [apply relinks_insert; [by left|done]|done].
  - unfold returns. destruct (decide (shead s = old)) as [<-|].
    + rewrite solo_cas_ok. by apply returns_solo_finished.
    + rewrite solo_cas_fail by done. by apply (solo_link_current 1).
  - unfold returns. rewrite (solo_reset_load 3 s), (solo_reset_ok 2).
    by apply returns_solo_finished.
  - unfold returns. destruct (decide (shead s = old)) as [<-|].
    + rewrite solo_reset_ok. by apply returns_solo_finished.
    + rewrite solo_reset_fail, solo_reset_ok by done. by apply returns_solo_finished.
Qed.
End solo.

(** ** Properties *)

Section properties.
Context `{Linked Node}.
Implicit Types (s : sys (Node := Node)).

(** memory safety.  In every reachable state no node belongs to two
    threads or to a thread and the queue, the next step of every running
    thread succeeds without a fault, and a thread that has taken a chain
    obtains from [__create_reversed] a well-formed queue of exactly those
    nodes in the order they were inserted. *)
Theorem reachable_safe s0 tr s t c ch own :
  initial s0 -> trace s0 tr s -> thr s !! t = Some (mkThread (Some c) ch own) ->
  (forall spurious, returns (thread_step spurious c) (sh s) (fun _ _ => True)) /\
  (exists r, lseg (smem (sh s)) (shead (sh s)) r nullptr ∧ r ## ch ++ own) /\
  (forall old, c = ResetDone old ->
    returns (__create_reversed (size (smem (sh s))) old) (smem (sh s)) (fun q m' => qrep m' q (reverse ch))) /\
  separate s.
Proof.
  intros Hi Htr Ht. destruct (Inv_trace _ _ _ _ (Inv_initial _ Hi) Htr) as (l & _ & HI).
  pose proof HI as (Hl & Hsep & Hth). destruct (Hth _ _ Ht) as [Hok Hd]. split_and!; [| | |done].
  - intros sp. unfold thread_ok in Hok. simpl in Hok.
    destruct c as [k f la|k f la old|k f la old|k b| |old|old]; cbn.
    2: { destruct Hok as (c0 & -> & _ & [? [n Hn]]). apply returns_bind, returns_with_mem.
         eapply returns_put_next; eauto. done. }
    all: unfold compare_exchange_weak, load_head; rsteps; try done.
    all: case_bool_decide; destruct sp; by rsteps.
  - exists l. split; [done|]. unfold nodes in Hd. simpl in Hd. list_disj Hd.
  - intros old ->. eapply returns_mono; [exact (create_reversed_spec (size (smem (sh s))) _ _ _ (lseg_size _ _ _ Hok) Hok)|]. naive_solver.
Qed.

(** C22: linearizability.  However the steps of any number of threads
    interleave, and whatever spurious failures occur, the sequence of
    successful compare-and-swaps is a history of the abstract stack: each
    insertion adds its nodes on top and reports whether the stack was empty,
    each removal returns a pointer from which everything the stack held is
    found.  The nodes taken so far followed by the ones still in the queue,
    oldest first, are exactly the nodes inserted, in order: none is lost,
    duplicated or overtaken.  The queues that [_M_pop_swap_reversed] returns to a
    thread are what the thread took, operation by operation, in the order of
    insertion, and no thread can get stuck on the way to them: every access
    succeeds, and the reversal gives a well-formed queue. *)
Theorem trace_linearizable s0 tr s :
  initial s0 -> trace s0 tr s ->
  (exists l, replay [] tr = Some l /\ lseg (smem (sh s)) (shead (sh s)) l nullptr /\
    taken tr ++ reverse l = inserted tr) /\
  (forall t, popped_by t tr ++ in_hand t s = taken_by t tr) /\
  (forall t c ch own, thr s !! t = Some (mkThread (Some c) ch own) ->
    (forall spurious, returns (thread_step spurious c) (sh s) (fun _ _ => True)) /\
    forall old, c = ResetDone old ->
      returns (__create_reversed (size (smem (sh s))) old) (smem (sh s)) (fun q m' => qrep m' q (reverse ch))).
Proof.
  intros Hi Htr. split_and!.
  - destruct (Inv_trace _ _ _ _ (Inv_initial _ Hi) Htr) as (l & Hl & HI & _).
    exists l. split_and!; [done..|]. by apply (replay_fifo []).
  - intros t. by eapply in_hand_trace.
  - intros t c ch own Ht. destruct (reachable_safe s0 tr s t c ch own Hi Htr Ht) as (H1 & _ & H3 & _). by split.
Qed.

(** the loops are lock free.  A thread in any reachable state that runs
    alone without spurious failures completes its operation in at most four
    steps, whatever the other threads were doing when they stopped; and run
    alone from the start, the machine does exactly what the sequential
    definitions of [_M_push_front], [_M_prepend] and [_M_reset] say, faults
    included. *)
Theorem solo_completes s0 tr s t c ch own :
  initial s0 -> trace s0 tr s -> thr s !! t = Some (mkThread (Some c) ch own) ->
  returns (solo 4 c) (sh s) (fun c' _ => finished c') /\
  (forall p, solo 3 (push_front_pc p) (sh s)
    = (b ← _M_push_front p; mret (InsDone Push b)) (sh s)) /\
  (forall q, solo 3 (prepend_pc q) (sh s)
    = (_M_prepend q;; mret (InsDone Prepend (bool_decide (shead (sh s) = nullptr)))) (sh s)) /\
  solo 2 reset_pc (sh s) = (p ← _M_reset; mret (ResetDone p)) (sh s).
Proof.
  intros Hi Htr Ht. destruct (Inv_trace _ _ _ _ (Inv_initial _ Hi) Htr) as (l & _ & HI).
  destruct HI as (_ & _ & Hth). destruct (Hth _ _ Ht) as [Hok _].
  unfold thread_ok in Hok. simpl in Hok. split_and!.
  - apply solo_four. destruct c; try done; destruct Hok as (c0 & -> & Hc); [apply Hc..|].
    apply (lseg_live _ _ _ _ _ Hc). apply elem_of_app. right. by left.
  - intros p. unfold _M_push_front, push_front_pc, solo, thread_step.
    unfold mbind, M_bind, load_head, get, mret, M_ret, with_mem. simpl.
    destruct (put_next p (shead (sh s)) (smem (sh s))) as [[[] m']|]; [|done].
    unfold compare_exchange_weak, mbind, M_bind, get, mret, M_ret. simpl.
    by rewrite !bool_decide_eq_true_2 by done.
  - intros q. unfold _M_prepend, prepend_pc, solo, thread_step.
    unfold mbind, M_bind, load_head, get, mret, M_ret, with_mem. simpl.
    destruct (put_next (_M_back q) (shead (sh s)) (smem (sh s))) as [[[] m']|]; [|done].
    unfold compare_exchange_weak, mbind, M_bind, get, mret, M_ret. simpl.
    by rewrite !bool_decide_eq_true_2 by done.
  - unfold _M_reset, reset_pc, solo, thread_step, compare_exchange_weak.
    unfold mbind, M_bind, load_head, get, mret, M_ret. simpl.
    by rewrite !bool_decide_eq_true_2.
Qed.
End properties.

(** ** A concrete run

    Two producers, a consumer, three block headers.  Producer 0 installs its
    node between the load and the compare-and-swap of producer 1, whose swap
    therefore fails once; then the consumer takes both nodes. *)
Module run_example.
Import buffer.

Definition mem : gmap ptr __block_prefix := list_to_map [
  (64, fresh_prefix 0); (128, fresh_prefix 1); (192, fresh_prefix 2)].
Definition start : sys := mkSys (mkShared mem nullptr)
  {[0%nat := mkThread None [] [64; 128]; 1%nat := mkThread None [] [192];
    2%nat := mkThread None [] []]}.

Lemma start_initial : initial start.
Proof.
  assert (forall t th, thr start !! t = Some th ->
    t = 0%nat /\ th = mkThread None [] [64; 128] \/ t = 1%nat /\ th = mkThread None [] [192] \/
    t = 2%nat /\ th = mkThread None [] []) as Hthr.
  { intros t th. unfold start. simpl. rewrite !lookup_insert_Some, lookup_singleton_Some. naive_solver. }
  assert (forall x, x ∈ [64; 128; 192] -> live mem x) as Hlive.
  { intros x Hx. set_unfold. split; [unfold nullptr; lia|].
    destruct Hx as [->|[->|[->|[]]]]; by eexists. }
  split_and!; [done|split|].
  - intros t th [[-> ->]|[[-> ->]|[-> ->]]]%Hthr; unfold nodes; simpl.
    + split; [repeat constructor; set_unfold; lia|]. intros x ?. apply Hlive. set_unfold. lia.
    + split; [repeat constructor; set_unfold; lia|]. intros x ?. apply Hlive. set_unfold. lia.
    + split; [constructor|]. intros x Hx. by apply not_elem_of_nil in Hx.
  - intros t t' th th' [[-> ->]|[[-> ->]|[-> ->]]]%Hthr [[-> ->]|[[-> ->]|[-> ->]]]%Hthr ?;
      try done; intros x; unfold nodes; simpl; set_unfold; lia.
  - intros t th [[-> ->]|[[-> ->]|[-> ->]]]%Hthr; done.
Qed.

Ltac run t := eapply trace_cons;
  [eapply (step_run _ t _ _ _ false); [reflexivity|vm_compute; reflexivity|exact I]|].

Definition events : list event := [Tau; Tau; Tau; Tau; Tau; Tau; Pushed 0%nat [64] true;
  Tau; Tau; Pushed 1%nat [192] false; Tau; Tau; Taken 2%nat [64; 192]].

Lemma step_taken_list (s : sys (Node := __block_prefix)) t old own spurious old' sh' r :
  thr s !! t = Some (mkThread (Some (ResetCas old)) [] own) ->
  thread_step spurious (ResetCas old) (sh s) = Done (ResetDone old', sh') -> walk (smem sh') old' = r ->
  step s (Taken t (reverse r)) (mkSys sh' (<[t := mkThread (Some (ResetDone old')) r own]> (thr s))).
Proof. intros H1 H2 <-. by eapply step_taken. Qed.

Lemma step_popped_list (s : sys (Node := __block_prefix)) t old ch own q sh' r :
  thr s !! t = Some (mkThread (Some (ResetDone old)) ch own) ->
  with_mem (__create_reversed (size (smem (sh s))) old) (sh s) = Done (q, sh') -> walk (smem sh') (_M_front q) = r ->
  step s (Popped t r) (mkSys sh' (<[t := mkThread None [] (r ++ own)]> (thr s))).
Proof. intros H1 H2 <-. by eapply step_popped. Qed.

Ltac take_both := unfold events;
  (eapply trace_cons; [eapply (step_start_push _ 0%nat _ 64 [128]); reflexivity|]);
  (eapply trace_cons; [eapply (step_start_push _ 1%nat _ 192 []); reflexivity|]);
  run 1%nat; run 0%nat; run 1%nat; run 0%nat;
  (eapply trace_cons; [eapply (step_pushed _ 0%nat _ _ _ _ _ _ false); [reflexivity|vm_compute; reflexivity]|]);
  run 1%nat; run 1%nat;
  (eapply trace_cons; [eapply (step_pushed _ 1%nat _ _ _ _ _ _ false); [reflexivity|vm_compute; reflexivity]|]);
  (eapply trace_cons; [eapply (step_start_reset _ 2%nat); reflexivity|]);
  run 2%nat;
  (eapply trace_cons; [eapply (step_taken_list _ 2%nat _ _ false _ _ [192; 64]);
    [reflexivity|vm_compute; reflexivity|vm_compute; reflexivity]|]).

Lemma run_trace : exists s own, trace start events s /\
  thr s !! 2%nat = Some (mkThread (Some (ResetDone 192)) [192; 64] own).
Proof. do 2 eexists. split; [take_both; constructor|reflexivity]. Qed.

Lemma run_popped : exists s, trace start (events ++ [Popped 2%nat [64; 192]]) s /\
  thr s !! 2%nat = Some (mkThread None [] [64; 192]).
Proof.
  eexists. split; [|shelve]. simpl app. take_both. eapply trace_cons; [|constructor].
  eapply (step_popped_list _ 2%nat _ _ _ _ _ [64; 192]); [reflexivity|vm_compute; reflexivity|vm_compute; reflexivity].
  Unshelve. reflexivity.
Qed.

Lemma trace_linearizable_witness : exists s, trace start (events ++ [Popped 2%nat [64; 192]]) s /\
  (exists l, replay [] (events ++ [Popped 2%nat [64; 192]]) = Some l /\ lseg (smem (sh s)) (shead (sh s)) l nullptr) /\
  [[64; 192]] ++ in_hand 2%nat s = [[64; 192]] /\ in_hand 2%nat s = [].
Proof.
  destruct run_popped as (s & Htr & Ht). exists s. split; [exact Htr|].
  destruct (trace_linearizable start _ s start_initial Htr) as ((l & H1 & H2 & _) & Hp & _).
  split; [exists l; split; [exact H1|exact H2]|]. split; [exact (Hp 2%nat)|]. exact (in_hand_idle _ _ _ _ Ht).
Defined.

Lemma reachable_safe_witness : exists s own,
  thr s !! 2%nat = Some (mkThread (Some (ResetDone 192)) [192; 64] own) /\
  returns (__create_reversed (size (smem (sh s))) 192) (smem (sh s)) (fun q m' => qrep m' q [64; 192]).
Proof.
  destruct run_trace as (s & own & Htr & Ht). exists s, own. split; [exact Ht|].
  destruct (reachable_safe start events s 2%nat _ _ _ start_initial Htr Ht) as (_ & _ & Hq & _).
  exact (Hq 192 eq_refl).
Defined.

Lemma solo_completes_witness : exists s own,
  thr s !! 2%nat = Some (mkThread (Some (ResetDone 192)) [192; 64] own) /\
  solo 2 reset_pc (sh s) = (p ← _M_reset; mret (ResetDone p)) (sh s).
Proof.
  destruct run_trace as (s & own & Htr & Ht). exists s, own. split; [exact Ht|].
  destruct (solo_completes start events s 2%nat _ _ _ start_initial Htr Ht) as (_ & _ & _ & Hr).
  exact Hr.
Defined.
End run_example.
End atomic_intrusive_queue.
