(* ===== verification/CircularBuffer.v ===== *)
(** * [__circular_buffer.hpp]: a ring of [_Np] slots with free-running counters

    [__head_] and [__tail_] are [__u32] counters that are never reduced; a slot
    is found by masking a counter with [_Np - 1], which the source asserts to be
    of the form [2^k - 1].  Module [circular_buffer] translates every member;
    a reference to a slot is the slot's index.  The theorems relate the
    operations to a bounded FIFO list and hold across the wrap-around of the
    counters. *)

From S2P Require Import Prelude.

Module circular_buffer.
Section code.
Context {T : Type} (k : Z).

(** The template argument; [static_assert((_Np & (_Np - 1)) == 0U)]. *)
Definition _Np : Z := 2 ^ k.

Record buffer := mkBuffer { __storage_ : list T; __head_ : Z; __tail_ : Z }.
Abbreviation run := (M buffer).

Definition _M_data (__n : Z) : Z := Z.land __n (_Np - 1).

(** Reading and writing through the reference [*_M_data(n)]. *)
Definition read_slot (i : Z) : run T :=
  b ← get;
  match __storage_ b !! Z.to_nat i with
  | Some x => mret x
  | None => throw OutOfBounds
  end.
Definition write_slot (i : Z) (x : T) : run unit :=
  b ← get;
  if decide (Z.to_nat i < length (__storage_ b))%nat then
    put (mkBuffer (<[Z.to_nat i := x]> (__storage_ b)) (__head_ b) (__tail_ b))
  else throw OutOfBounds.

Definition _M_push_back : run Z :=
  b ← get;
  put (mkBuffer (__storage_ b) (__head_ b) (u32 (__tail_ b + 1)));;
  mret (_M_data (__tail_ b)).

(** [__monotonic_prefix_subrange]: the buffer and where the range ends. *)
Record subrange := mkSubrange { __end_ : Z }.

Definition _M_pop_front (r : subrange) : run unit :=
  modify (fun b => mkBuffer (__storage_ b) (u32 (__head_ b + 1)) (__tail_ b)).
Definition _M_front (r : subrange) : run T := b ← get; read_slot (_M_data (__head_ b)).
Definition _M_empty (r : subrange) : run bool :=
  b ← get; mret (bool_decide (__head_ b = __end_ r)).

Fixpoint consume_loop (fuel : nat) (__fn : T -> bool) (__h : Z) : run Z :=
  b ← get;
  if decide (__h = __tail_ b) then mret __h
  else
    x ← read_slot (_M_data __h);
    if __fn x then
      match fuel with
      | O => throw OutOfFuel
      | S fuel => consume_loop fuel __fn (u32 (__h + 1))
      end
    else mret __h.

Definition _M_consume_front_while (fuel : nat) (__fn : T -> bool) : run subrange :=
  b ← get; __h ← consume_loop fuel __fn (__head_ b); mret (mkSubrange __h).

Definition _M_consume_swap : run subrange :=
  b ← get; assert (bool_decide (__head_ b <> __tail_ b));; mret (mkSubrange (__tail_ b)).

(** The loop a client writes over a subrange. *)
Fixpoint drain (fuel : nat) (r : subrange) : run (list T) :=
  e ← _M_empty r;
  if (e : bool) then mret []
  else match fuel with
       | O => throw OutOfFuel
       | S fuel => x ← _M_front r; _M_pop_front r;; xs ← drain fuel r; mret (x :: xs)
       end.

(** ** The abstraction *)

(** The slots from [__head_] on hold the elements of [l]. *)
Definition holds (storage : list T) (h : Z) (l : list T) : Prop :=
  forall i x, l !! i = Some x -> storage !! Z.to_nat ((h + Z.of_nat i) mod _Np) = Some x.

Definition brep (b : buffer) (l : list T) : Prop :=
  Z.of_nat (length (__storage_ b)) = _Np ∧ Z.of_nat (length l) <= _Np ∧
  is_word 32 (__head_ b) ∧ __tail_ b = u32 (__head_ b + Z.of_nat (length l)) ∧
  holds (__storage_ b) (__head_ b) l.

Fixpoint take_while (fn : T -> bool) (l : list T) : list T :=
  match l with
  | x :: l => if fn x then x :: take_while fn l else []
  | [] => []
  end.

Context (Hk : 0 <= k < 32).

Lemma Np_bounds : 1 <= _Np < 2 ^ 32.
Proof using Hk.
  unfold _Np. split; [|by apply Z.pow_lt_mono_r; lia].
  pose proof (Z.pow_pos_nonneg 2 k ltac:(lia) ltac:(lia)). lia.
Qed.

Lemma data_mod n : _M_data n = n mod _Np.
Proof using Hk. unfold _M_data, _Np. by rewrite land_pow2_mask by lia. Qed.

Lemma data_u32 n : _M_data (u32 n) = n mod _Np.
Proof using Hk. rewrite data_mod. unfold _Np. by rewrite wrap_mod_pow2 by lia. Qed.

Lemma slot_in_range (storage : list T) n :
  Z.of_nat (length storage) = _Np -> (Z.to_nat (n mod _Np) < length storage)%nat.
Proof using Hk. pose proof Np_bounds. pose proof (Z.mod_pos_bound n _Np). lia. Qed.

(** Counters that differ by less than [_Np] designate different slots. *)
Lemma slot_inj h i j :
  0 <= i < _Np -> 0 <= j < _Np ->
  Z.to_nat ((h + i) mod _Np) = Z.to_nat ((h + j) mod _Np) -> i = j.
Proof using Hk.
  intros Hi Hj E. pose proof Np_bounds.
  pose proof (Z.mod_pos_bound (h + i) _Np). pose proof (Z.mod_pos_bound (h + j) _Np).
  apply Z2Nat.inj in E; [|lia..].
  pose proof (Z_div_mod_eq_full (h + i) _Np). pose proof (Z_div_mod_eq_full (h + j) _Np).
  assert ((h + i) / _Np = (h + j) / _Np); nia.
Qed.

Lemma brep_tail_ne b x l : brep b (x :: l) -> __head_ b <> __tail_ b.
Proof using Hk.
  intros (_ & Hn & Hh & -> & _). pose proof Np_bounds. simpl length in *. unfold wrap, is_word in *.
  intros E. destruct (decide (__head_ b + Z.of_nat (S (length l)) < 2 ^ 32)) as [?|?].
  - rewrite Z.mod_small in E; lia.
  - replace (__head_ b + Z.of_nat (S (length l)))
      with ((__head_ b + Z.of_nat (S (length l)) - 2 ^ 32) + 1 * 2 ^ 32) in E by lia.
    rewrite Z_mod_plus_full, Z.mod_small in E; lia.
Qed.

Lemma returns_read_slot b n x (Q : T -> buffer -> Prop) :
  __storage_ b !! Z.to_nat (n mod _Np) = Some x -> Q x b ->
  returns (read_slot (n mod _Np)) b Q.
Proof. intros Hx HQ. unfold read_slot. apply returns_bind, returns_get. by rewrite Hx. Qed.

(** Dropping the first element. *)
Lemma brep_pop b x l :
  brep b (x :: l) -> brep (mkBuffer (__storage_ b) (u32 (__head_ b + 1)) (__tail_ b)) l.
Proof using Hk.
  intros (Hs & Hn & Hh & Ht & Hl). simpl length in *. split_and!; simpl; [done|lia| | |].
  - by apply wrap_range.
  - rewrite wrap_add_l, Ht. f_equal. lia.
  - intros i y Hi. specialize (Hl (S i) y Hi).
    rewrite <- Hl. do 2 f_equal. unfold _Np. rewrite <- (wrap_mod_pow2 32 k (_ + _)) by lia.
    rewrite wrap_add_l, wrap_mod_pow2 by lia. f_equal. lia.
Qed.

Lemma brep_front b x l : brep b (x :: l) -> __storage_ b !! Z.to_nat (__head_ b mod _Np) = Some x.
Proof. intros (_ & _ & _ & _ & Hl). specialize (Hl 0%nat x eq_refl). by rewrite Z.add_0_r in Hl. Qed.

Lemma u32_add_ne h n : is_word 32 h -> 0 < n < 2 ^ 32 -> u32 (h + n) <> h.
Proof.
  unfold is_word, wrap. intros Hh Hn E. destruct (decide (h + n < 2 ^ 32)).
  - rewrite Z.mod_small in E; lia.
  - replace (h + n) with ((h + n - 2 ^ 32) + 1 * 2 ^ 32) in E by lia.
    rewrite Z_mod_plus_full, Z.mod_small in E; lia.
Qed.

Lemma take_while_app fn l : exists l2, l = take_while fn l ++ l2.
Proof.
  induction l as [|x l [l2 IH]]; simpl; [by exists []|].
  destruct (fn x); [exists l2; simpl; by f_equal|by exists (x :: l)].
Qed.

(** A range over the first part of the contents is emptied by a client loop
    in order, and the rest stays. *)
Lemma drain_spec fuel b r l1 l2 :
  brep b (l1 ++ l2) -> __end_ r = u32 (__head_ b + Z.of_nat (length l1)) ->
  (length l1 <= fuel)%nat ->
  returns (drain fuel r) b (fun xs b' => xs = l1 ∧ brep b' l2).
Proof using Hk.
  revert fuel b. induction l1 as [|x l1 IH]; intros fuel b Hb He Hf.
  - assert (bool_decide (__head_ b = __end_ r) = true) as E.
    { apply bool_decide_eq_true_2. rewrite He, Z.add_0_r, wrap_small; [done|apply Hb]. }
    destruct fuel; cbn; unfold _M_empty; apply returns_bind, returns_bind, returns_get;
      apply returns_ret; rewrite E; by apply returns_ret.
  - destruct fuel as [|fuel]; [simpl in Hf; lia|]. simpl in Hf.
    assert (bool_decide (__head_ b = __end_ r) = false) as E.
    { apply bool_decide_eq_false_2. rewrite He. apply not_eq_sym, u32_add_ne; [apply Hb|].
      destruct Hb as (_ & Hn & _). pose proof Np_bounds. rewrite length_app in Hn. simpl in *. lia. }
    cbn [drain]. apply returns_bind. unfold _M_empty. apply returns_bind, returns_get, returns_ret.
    rewrite E. apply returns_bind. unfold _M_front. apply returns_bind, returns_get.
    rewrite data_mod. apply (returns_read_slot _ _ x); [by eapply brep_front|].
    apply returns_bind, returns_modify, returns_bind.
    eapply returns_mono; [apply IH|].
    + by apply (brep_pop b x).
    + simpl. rewrite He, wrap_add_l. f_equal. simpl length. lia.
    + lia.
    + intros xs b' [-> Hb']. by apply returns_ret.
Qed.

Lemma consume_loop_spec fuel fn b l1 l2 :
  brep b (l1 ++ l2) -> (length l2 <= fuel)%nat ->
  returns (consume_loop fuel fn (u32 (__head_ b + Z.of_nat (length l1)))) b
    (fun h b' => h = u32 (__head_ b + Z.of_nat (length l1 + length (take_while fn l2))) ∧ b' = b).
Proof using Hk.
  revert fuel l1. induction l2 as [|x l2 IH]; intros fuel l1 Hb Hf.
  - assert (__tail_ b = u32 (__head_ b + Z.of_nat (length l1))) as E.
    { rewrite app_nil_r in Hb. apply Hb. }
    destruct fuel; cbn; apply returns_bind, returns_get; rewrite E, decide_True by done;
      apply returns_ret; by rewrite Nat.add_0_r.
  - pose proof Hb as (_ & Hn & Hh & Ht & Hl). pose proof Np_bounds. rewrite length_app in *.
    simpl length in *.
    assert (u32 (__head_ b + Z.of_nat (length l1)) <> __tail_ b) as Hne.
    { rewrite Ht. apply not_eq_sym.
      replace (__head_ b + Z.of_nat (length l1 + S (length l2)))
        with ((__head_ b + Z.of_nat (length l1)) + Z.of_nat (S (length l2))) by lia.
      rewrite <- wrap_add_l. apply u32_add_ne; [by apply wrap_range|lia]. }
    assert (__storage_ b !! Z.to_nat ((__head_ b + Z.of_nat (length l1)) mod _Np) = Some x) as Hx.
    { apply Hl. rewrite lookup_app_r, Nat.sub_diag by lia. done. }
    destruct fuel as [|fuel]; [lia|]. cbn. apply returns_bind, returns_get.
    rewrite decide_False by done. apply returns_bind. rewrite data_u32.
    apply (returns_read_slot _ _ x); [done|]. destruct (fn x).
    + rewrite wrap_add_l. replace (__head_ b + Z.of_nat (length l1) + 1)
        with (__head_ b + Z.of_nat (length (l1 ++ [x]))) by (rewrite length_app; simpl; lia).
      eapply returns_mono; [apply IH; [by rewrite <- app_assoc|lia]|].
      intros h b' [-> ->]. split; [|done]. do 3 f_equal. rewrite length_app. simpl. lia.
    + apply returns_ret. split; [|done]. by rewrite Nat.add_0_r.
Qed.

(** [_M_push_back] followed by a write through the reference it returns
    appends to the contents as long as fewer than [_Np] slots are in use, also
    when the 32-bit counters wrap around.  There is no check against
    overflow: on a full buffer the write goes to the slot of the oldest element,
    which is what [_M_front] then returns, and the counters are [_Np + 1]
    apart. *)
Theorem push_back_appends b l v :
  brep b l ->
  (Z.of_nat (length l) < _Np ->
   returns (i ← _M_push_back; write_slot i v) b (fun _ b' => brep b' (l ++ [v]))) /\
  (Z.of_nat (length l) = _Np ->
   returns (i ← _M_push_back; write_slot i v;; _M_front (mkSubrange 0)) b
     (fun x b' => x = v ∧ __head_ b' = __head_ b ∧ __tail_ b' = u32 (__head_ b + (_Np + 1)))).
Proof using Hk.
  intros (Hs & Hn & Hh & Ht & Hl). split.
  - intros Hlt. unfold _M_push_back. apply returns_bind, returns_bind, returns_get, returns_bind,
      returns_put, returns_ret. unfold write_slot. apply returns_bind, returns_get. simpl.
    rewrite Ht, data_u32, decide_True by by apply slot_in_range. apply returns_put.
    split_and!; simpl; [by rewrite length_insert|rewrite length_app; simpl; lia|done| |].
    + rewrite wrap_add_l, length_app. f_equal. simpl. lia.
    + intros i y [Hi|[Hi Hy]]%lookup_app_Some.
      * pose proof (lookup_lt_Some _ _ _ Hi). rewrite list_lookup_insert_ne; [by apply Hl|].
        intros E%slot_inj; lia.
      * apply list_lookup_singleton_Some in Hy as [? <-].
        replace i with (length l) by lia. apply list_lookup_insert_eq. by apply slot_in_range.
  - intros Heq. unfold _M_push_back. apply returns_bind, returns_bind, returns_get, returns_bind,
      returns_put, returns_ret. unfold write_slot. apply returns_bind, returns_bind, returns_get.
    simpl. rewrite Ht, data_u32, decide_True by by apply slot_in_range.
    apply returns_put. unfold _M_front. apply returns_bind, returns_get. rewrite data_mod. simpl.
    apply (returns_read_slot _ _ v); simpl.
    + rewrite Heq. replace (__head_ b + _Np) with (__head_ b + 1 * _Np) by lia.
      rewrite Z_mod_plus_full. by apply list_lookup_insert_eq, slot_in_range.
    + split_and!; [done..|]. rewrite wrap_add_l, Heq. f_equal. lia.
Qed.

(** [_M_consume_front_while] terminates within the number of elements and
    returns the longest prefix whose elements satisfy the predicate;
    [_M_consume_swap] returns all elements of a non-empty buffer and fails its
    [assert] on an empty one.  Reading such a range with [_M_empty],
    [_M_front] and [_M_pop_front] gives its elements in insertion order and
    removes exactly those. *)
Theorem consume_prefix fuel fn b l :
  brep b l -> (length l <= fuel)%nat ->
  returns (r ← _M_consume_front_while fuel fn; drain fuel r) b
    (fun xs b' => xs = take_while fn l ∧ exists l2, l = xs ++ l2 ∧ brep b' l2) /\
  (l <> [] -> returns (r ← _M_consume_swap; drain fuel r) b (fun xs b' => xs = l ∧ brep b' [])) /\
  (l = [] -> _M_consume_swap b = Fault AssertFailed).
Proof using Hk.
  intros Hb Hf. pose proof Hb as (_ & _ & Hh & Ht & _). split_and!.
  - unfold _M_consume_front_while.
    apply returns_bind, returns_bind, returns_get, returns_bind.
    eapply returns_mono.
    { replace (__head_ b) with (u32 (__head_ b + Z.of_nat (length (@nil T))))
        by (simpl; rewrite Z.add_0_r; by apply wrap_small).
      by apply (consume_loop_spec fuel fn b [] l). }
    intros h b' [-> ->]. apply returns_ret. destruct (take_while_app fn l) as [l2 E].
    eapply returns_mono; [apply (drain_spec fuel b _ (take_while fn l) l2)|].
    + by rewrite <- E.
    + done.
    + apply (f_equal length) in E. rewrite length_app in E. lia.
    + intros xs b' [-> ?]. eauto.
  - intros Hne. destruct l as [|x l]; [done|]. unfold _M_consume_swap.
    apply returns_bind, returns_bind, returns_get, returns_bind, returns_assert.
    { apply bool_decide_eq_true_2. by eapply brep_tail_ne. }
    apply returns_ret. apply drain_spec; [by rewrite app_nil_r|done|done].
  - intros ->. unfold _M_consume_swap, mbind, M_bind, get, assert.
    rewrite bool_decide_eq_false_2; [done|]. intros H. apply H.
    rewrite Ht. simpl. rewrite Z.add_0_r. symmetry. by apply wrap_small.
Qed.
End code.

(** ** A full ring of four slots whose counters are about to wrap *)
Module ring_example.
Definition ring (l : list Z) : buffer := mkBuffer l (2 ^ 32 - 2) 1.

Lemma ring_rep : brep 2 (ring [30; 99; 10; 20]) [10; 20; 30].
Proof.
  split_and!; [done|done|split; done|done|].
  intros [|[|[|i]]] x Hx; try done; injection Hx as <-; done.
Qed.

Lemma push_back_appends_witness :
  (Z.of_nat (length [10; 20; 30]) < 4 ->
   returns (i ← _M_push_back 2; write_slot i 40) (ring [30; 99; 10; 20])
     (fun _ b' => brep 2 b' [10; 20; 30; 40])) /\
  (Z.of_nat (length [10; 20; 30]) = 4 ->
   returns (i ← _M_push_back 2; write_slot i 40;; _M_front 2 (mkSubrange 0))
     (ring [30; 99; 10; 20]) (fun x b' => x = 40 ∧ __head_ b' = 2 ^ 32 - 2 ∧ __tail_ b' = u32 (2 ^ 32 - 2 + (4 + 1)))).
Proof. apply (push_back_appends 2 ltac:(lia) (ring [30; 99; 10; 20]) [10; 20; 30] 40), ring_rep. Defined.

Lemma consume_prefix_witness :
  returns (r ← _M_consume_front_while 2 3 (fun x => x <? 25); drain 2 3 r) (ring [30; 99; 10; 20])
    (fun xs b' => xs = [10; 20] ∧ exists l2, [10; 20; 30] = xs ++ l2 ∧ brep 2 b' l2) /\
  ([10; 20; 30] <> [] -> returns (r ← _M_consume_swap; drain 2 3 r) (ring [30; 99; 10; 20])
    (fun xs b' => xs = [10; 20; 30] ∧ brep 2 b' [])) /\
  ([10; 20; 30] = [] -> _M_consume_swap (ring [30; 99; 10; 20]) = Fault AssertFailed).
Proof.
  apply (consume_prefix 2 ltac:(lia) 3 (fun x => x <? 25) (ring [30; 99; 10; 20]) [10; 20; 30]);
    [apply ring_rep|simpl; lia].
Defined.
End ring_example.
End circular_buffer.
