(* ===== verification/AtomicSegmentArray.v ===== *)
(** * [__atomic_segment_array.hpp]: an append-only array of growing segments

    Element [w] lives in segment [log2 (w + 1)], which has [2^log2 (w + 1)]
    slots and is allocated by the first thread that needs it.  [_M_push_back]
    draws a ticket from [__prev_], stores its value, then waits until
    [__count_] reaches its ticket and publishes it by incrementing [__count_];
    [_M_fold_inplace] visits the published elements.

    Module [segment_array] models [_M_push_back] as a machine with one step per
    access to a shared variable, [step] interleaves any number of threads, and
    the fold runs on the array as it was when [__count_] was read.  The
    [membarrier] system call and the compiler barrier give the relaxed accesses
    the order in which the machine performs them. *)

From S2P Require Import Prelude.

Module segment_array.
Section code.
Context {T : Type} (dflt : T).

(** [__max_] and [std::bit_width(__max_)], the number of segment pointers. *)
Context (__max_ : Z).
Definition n_seg : nat := Z.to_nat (Z.log2 __max_ + 1).

(** A segment pointer is null or designates an array that is never replaced,
    so the model keeps the array itself. *)
Record shared := mkShared { __seg_ : list (option (list T)); __count_ : Z; __prev_ : Z }.

Definition init : shared := mkShared (replicate n_seg None) 0 0.

(** [63 - __builtin_clzll(__w + 1U)] is the index of the highest set bit;
    the intrinsic is undefined on zero. *)
Definition __locate (__w : Z) : outcome (nat * nat) :=
  let x := u32 (__w + 1) in
  if decide (x = 0) then Fault Undefined
  else
    let __n := Z.log2 x in
    Done (Z.to_nat __n, Z.to_nat (u32 (__w - u32 (u32 (2 ^ __n) - 1)))).

(** [~__atomic_segment_array]: the arrays that are deleted; deleting a null
    pointer does nothing. *)
Definition destroy (s : shared) : list (list T) := omap id (__seg_ s).

Inductive pc :=
  | PFetch (v : T)                  (* __prev_.fetch_add(1) *)
  | PLoad (v : T) (__prev : Z)      (* _M_segment: __seg_[__n].load *)
  | PInstall (v : T) (__prev : Z)   (* _M_segment: compare_exchange_strong *)
  | PStore (v : T) (__prev : Z)     (* the store to the slot *)
  | PSpin (__prev : Z)              (* while (__count_ != __prev) *)
  | PPublish (__prev : Z)           (* __count_.store(__prev + 1) *)
  | PDone (__prev : Z).             (* returned __prev *)

Definition push_back_pc (v : T) : pc := PFetch v.

Definition lift {A} (o : outcome A) : M shared A := fun s =>
  match o with Done a => Done (a, s) | Fault f => Fault f end.
Definition set_seg (n : nat) (l : list T) : M shared unit :=
  modify (fun s => mkShared (<[n := Some l]> (__seg_ s)) (__count_ s) (__prev_ s)).
Definition seg_at (n : nat) : M shared (option (list T)) :=
  s ← get; match __seg_ s !! n with Some o => mret o | None => throw OutOfBounds end.

Definition thread_step (c : pc) : M shared pc :=
  match c with
  | PFetch v =>
      s ← get;
      put (mkShared (__seg_ s) (__count_ s) (u32 (__prev_ s + 1)));;
      mret (PLoad v (__prev_ s))
  | PLoad v p =>
      '(n, _) ← lift (__locate p);
      o ← seg_at n;
      mret (match o with Some _ => PStore v p | None => PInstall v p end)
  | PInstall v p =>
      '(n, _) ← lift (__locate p);
      o ← seg_at n;
      match o with
      | None => set_seg n (replicate (2 ^ n) dflt)
      | Some _ => mret tt (* delete[] __tmp *)
      end;;
      mret (PStore v p)
  | PStore v p =>
      '(n, m) ← lift (__locate p);
      o ← seg_at n;
      match o with
      | None => throw NullDeref
      | Some l => if decide (m < length l)%nat then set_seg n (<[m := v]> l) else throw OutOfBounds
      end;;
      mret (PSpin p)
  | PSpin p => s ← get; mret (if decide (__count_ s = p) then PPublish p else PSpin p)
  | PPublish p =>
      s ← get; put (mkShared (__seg_ s) (u32 (p + 1)) (__prev_ s));; mret (PDone p)
  | PDone p => mret (PDone p)
  end.

(** [_M_fold_inplace]: [__fn] may have effects on a state [E] of its own. *)
Section fold.
Context {E U : Type} (__fn : U -> T -> M E U).

Fixpoint foldM (u : U) (l : list T) : M E U :=
  match l with
  | [] => mret u
  | x :: l => u ← __fn u x; foldM u l
  end.

(** One segment: [__mm] elements from its start. *)
Definition fold_segment (u : U) (o : option (option (list T))) (mm : nat) : M E U :=
  match o with
  | None => throw OutOfBounds
  | Some None => throw NullDeref
  | Some (Some l) => if decide (mm <= length l)%nat then foldM u (take mm l) else throw OutOfBounds
  end.

Fixpoint fold_loop (fuel : nat) (a : shared) (__r __w : Z) (__n : nat) (u : U) : M E U :=
  if decide (__w < __r) then
    match fuel with
    | O => throw OutOfFuel
    | S fuel =>
        let __mm := Z.min (2 ^ Z.of_nat __n) (__r - __w) in
        u ← fold_segment u (__seg_ a !! __n) (Z.to_nat __mm);
        fold_loop fuel a __r (u32 (__w + __mm)) (S __n) u
    end
  else mret u.

Definition _M_fold_inplace (fuel : nat) (a : shared) (__init : U) : M E U :=
  fold_loop fuel a (__count_ a) 0 0 __init.
End fold.

(** ** The system of threads

    [vals] lists the values in the order of their tickets; the code does not
    read it. *)
Definition tid := nat.
Record sys := mkSys { sh : shared; vals : list T; thr : gmap tid pc }.

Definition idle (s : sys) (t : tid) : Prop :=
  match thr s !! t with None | Some (PDone _) => True | _ => False end.

Inductive step : sys -> sys -> Prop :=
  | step_start s t v :
      idle s t -> step s (mkSys (sh s) (vals s) (<[t := push_back_pc v]> (thr s)))
  | step_run s t c c' sh' :
      thr s !! t = Some c -> thread_step c (sh s) = Done (c', sh') ->
      step s (mkSys sh' (match c with PFetch v => vals s ++ [v] | _ => vals s end)
               (<[t := c']> (thr s))).

Definition start : sys := mkSys init [] ∅.
Definition reachable (s : sys) : Prop := rtc step start s.

(** ** Where elements live *)

(** Elements [0 .. capacity - 1] fit in the segment table. *)
Definition capacity : Z := 2 ^ Z.of_nat n_seg - 1.

Definition slot (segs : list (option (list T))) (i : nat) : option T :=
  let n := Z.to_nat (Z.log2 (Z.of_nat i + 1)) in
  match segs !! n with
  | Some (Some l) => l !! (i - (2 ^ n - 1))%nat
  | _ => None
  end.

(** The first [r] slots hold the first [r] values. *)
Definition published (segs : list (option (list T))) (l : list T) (r : nat) : Prop :=
  forall i, (i < r)%nat -> exists v, l !! i = Some v /\ slot segs i = Some v.

(** The ticket a running call holds. *)
Definition ticket (c : pc) : option Z :=
  match c with
  | PLoad _ p | PInstall _ p | PStore _ p | PSpin p | PPublish p => Some p
  | PFetch _ | PDone _ => None
  end.

(** What a call has achieved when it is at [c]. *)
Definition pc_ok (s : sys) (c : pc) : Prop :=
  match c with
  | PFetch _ => True
  | PLoad v p | PInstall v p => vals s !! Z.to_nat p = Some v
  | PStore v p => vals s !! Z.to_nat p = Some v /\
      exists n m l, __locate p = Done (n, m) /\ __seg_ (sh s) !! n = Some (Some l)
  | PSpin p => slot (__seg_ (sh s)) (Z.to_nat p) = vals s !! Z.to_nat p
  | PPublish p => slot (__seg_ (sh s)) (Z.to_nat p) = vals s !! Z.to_nat p /\
      __count_ (sh s) = p
  | PDone p => 0 <= p < __count_ (sh s)
  end.

Record Inv (s : sys) : Prop := {
  inv_len : length (__seg_ (sh s)) = n_seg;
  inv_prev : __prev_ (sh s) = Z.of_nat (length (vals s));
  inv_count : 0 <= __count_ (sh s) <= __prev_ (sh s);
  inv_seg n l : __seg_ (sh s) !! n = Some (Some l) -> length l = (2 ^ n)%nat;
  inv_pub : published (__seg_ (sh s)) (vals s) (Z.to_nat (__count_ (sh s)));
  inv_thr t c : thr s !! t = Some c -> pc_ok s c /\
    (forall p, ticket c = Some p -> __count_ (sh s) <= p < __prev_ (sh s));
  inv_distinct t1 t2 c1 c2 p : thr s !! t1 = Some c1 -> thr s !! t2 = Some c2 ->
    ticket c1 = Some p -> ticket c2 = Some p -> t1 = t2;
  inv_held p : __count_ (sh s) <= p < __prev_ (sh s) ->
    exists t c, thr s !! t = Some c /\ ticket c = Some p }.

(** The values pushed so far fit in the segment table. *)
Definition bounded (s : sys) : Prop := Z.of_nat (length (vals s)) <= capacity.

(** ** Index arithmetic *)

Lemma pow2_of_nat n : Z.of_nat (2 ^ n) = 2 ^ Z.of_nat n.
Proof. by rewrite Nat2Z.inj_pow. Qed.

Lemma locate_at n m :
  (m < 2 ^ n)%nat -> (n < 32)%nat -> Z.of_nat (2 ^ n - 1 + m) < 2 ^ 32 - 1 ->
  __locate (Z.of_nat (2 ^ n - 1 + m)) = Done (n, m).
Proof.
  intros Hm Hn Hw. unfold __locate.
  assert (Z.of_nat (2 ^ n) = 2 ^ Z.of_nat n) as Hp by apply pow2_of_nat.
  assert (0 < 2 ^ Z.of_nat n) as Hpos by (apply Z.pow_pos_nonneg; lia).
  assert (2 ^ Z.of_nat n < 2 ^ 32) as Hlt by (apply Z.pow_lt_mono_r; lia).
  rewrite (wrap_small 32 (_ + 1)) by (unfold is_word; lia).
  rewrite decide_False by lia.
  assert (Z.log2 (Z.of_nat (2 ^ n - 1 + m) + 1) = Z.of_nat n) as ->.
  { apply Z.log2_unique; [lia|]. rewrite Z.pow_succ_r by lia. lia. }
  rewrite Nat2Z.id, (wrap_small 32 (2 ^ Z.of_nat n)) by (unfold is_word; lia).
  rewrite (wrap_small 32 (_ - 1)) by (unfold is_word; lia).
  rewrite wrap_small by (unfold is_word; lia). do 2 f_equal. lia.
Qed.

(** Every index splits into a segment and a position in it. *)
Lemma index_split i : exists n m, (i = 2 ^ n - 1 + m)%nat ∧ (m < 2 ^ n)%nat.
Proof.
  exists (Z.to_nat (Z.log2 (Z.of_nat i + 1))).
  set (n := Z.to_nat (Z.log2 (Z.of_nat i + 1))). exists (i + 1 - 2 ^ n)%nat.
  pose proof (Z.log2_spec (Z.of_nat i + 1) ltac:(lia)) as [Hlo Hhi].
  pose proof (Z.log2_nonneg (Z.of_nat i + 1)).
  assert (Z.of_nat (2 ^ n) = 2 ^ Z.log2 (Z.of_nat i + 1)) as E.
  { rewrite pow2_of_nat. f_equal. lia. }
  rewrite Z.pow_succ_r in Hhi by done. lia.
Qed.

Lemma slot_at segs n m :
  (m < 2 ^ n)%nat ->
  slot segs (2 ^ n - 1 + m) = match segs !! n with Some (Some l) => l !! m | _ => None end.
Proof.
  intros Hm. unfold slot.
  assert (Z.log2 (Z.of_nat (2 ^ n - 1 + m) + 1) = Z.of_nat n) as ->.
  { pose proof (pow2_of_nat n). pose proof (Z.pow_pos_nonneg 2 (Z.of_nat n) ltac:(lia) ltac:(lia)).
    apply Z.log2_unique; [lia|]. rewrite Z.pow_succ_r by lia. lia. }
  rewrite Nat2Z.id. by replace (2 ^ n - 1 + m - (2 ^ n - 1))%nat with m by lia.
Qed.

Lemma split_inj n m n' m' :
  (m < 2 ^ n)%nat -> (m' < 2 ^ n')%nat -> (2 ^ n - 1 + m = 2 ^ n' - 1 + m')%nat -> n = n' ∧ m = m'.
Proof.
  intros Hm Hm' E.
  assert (forall a b, (a < b -> 2 ^ S a <= 2 ^ b)%nat) as Hmono by (intros; apply Nat.pow_le_mono_r; lia).
  destruct (Nat.lt_trichotomy n n') as [Hlt|[->|Hlt]]; [|lia|].
  - apply Hmono in Hlt. simpl in Hlt. lia.
  - apply Hmono in Hlt. simpl in Hlt. lia.
Qed.

Context (Hmax : 1 <= __max_ < 2 ^ 31).

Lemma n_seg_bound : (1 <= n_seg <= 31)%nat.
Proof using Hmax.
  unfold n_seg. pose proof (Z.log2_nonneg __max_).
  assert (Z.log2 __max_ < 31) by (apply Z.log2_lt_pow2; lia). lia.
Qed.

Lemma capacity_bound : __max_ <= capacity < 2 ^ 32 - 1.
Proof using Hmax.
  unfold capacity. pose proof n_seg_bound. split.
  - pose proof (Z.log2_spec __max_ ltac:(lia)) as [_ Hhi]. unfold n_seg.
    pose proof (Z.log2_nonneg __max_).
    replace (Z.of_nat _) with (Z.succ (Z.log2 __max_)) by lia. lia.
  - assert (2 ^ Z.of_nat n_seg < 2 ^ 32) by (apply Z.pow_lt_mono_r; lia). lia.
Qed.

Lemma split_in_table n m :
  (m < 2 ^ n)%nat -> Z.of_nat (2 ^ n - 1 + m) < capacity <-> (n < n_seg)%nat.
Proof using Hmax.
  intros Hm. unfold capacity. rewrite <- pow2_of_nat.
  assert (1 <= 2 ^ n)%nat by lia.
  split; intros Hn.
  - destruct (decide (n < n_seg)%nat); [done|].
    assert (2 ^ n_seg <= 2 ^ n)%nat by (apply Nat.pow_le_mono_r; lia). lia.
  - assert (2 ^ S n <= 2 ^ n_seg)%nat by (apply Nat.pow_le_mono_r; lia). simpl in *. lia.
Qed.

Lemma locate_ticket p :
  0 <= p < capacity -> exists n m, __locate p = Done (n, m) ∧
    p = Z.of_nat (2 ^ n - 1 + m) ∧ (m < 2 ^ n)%nat ∧ (n < n_seg)%nat.
Proof using Hmax.
  intros Hp. destruct (index_split (Z.to_nat p)) as (n & m & E & Hm).
  assert (p = Z.of_nat (2 ^ n - 1 + m)) as Ep by lia.
  pose proof capacity_bound. pose proof n_seg_bound.
  assert (n < n_seg)%nat by (apply (split_in_table n m); [done|lia]).
  exists n, m. split_and!; [|done..]. rewrite Ep. apply locate_at; lia.
Qed.

(** ** The fold *)

Lemma foldM_app {E U} (fn : U -> T -> M E U) u l1 l2 e :
  foldM fn u (l1 ++ l2) e = (u' ← foldM fn u l1; foldM fn u' l2) e.
Proof.
  revert u e. induction l1 as [|x l1 IH]; intros u e; [done|]. simpl.
  unfold mbind, M_bind in *. destruct (fn u x e) as [[u' e']|]; [apply IH|done].
Qed.

Lemma fold_segment_spec {E U} (fn : U -> T -> M E U) u segs l r n mm :
  published segs l r -> (2 ^ n - 1 + mm <= r)%nat -> (1 <= mm <= 2 ^ n)%nat ->
  fold_segment fn u (segs !! n) mm = foldM fn u (take mm (drop (2 ^ n - 1) l)).
Proof.
  intros Hpub Hr Hmm.
  assert (forall j, (j < mm)%nat -> exists v, l !! (2 ^ n - 1 + j)%nat = Some v /\
    match segs !! n with Some (Some l) => l !! j | _ => None end = Some v) as Hj.
  { intros j Hj. destruct (Hpub (2 ^ n - 1 + j)%nat ltac:(lia)) as (v & Hv & Hs).
    rewrite slot_at in Hs by lia. eauto. }
  unfold fold_segment. destruct (segs !! n) as [[sl|]|] eqn:Es.
  2, 3: destruct (Hj 0%nat ltac:(lia)) as (? & _ & [=]).
  assert (mm <= length sl)%nat.
  { destruct (Hj (mm - 1)%nat ltac:(lia)) as (v & _ & Hv). apply lookup_lt_Some in Hv. lia. }
  rewrite decide_True by done. f_equal. apply list_eq. intros j.
  destruct (decide (j < mm)%nat).
  - rewrite !lookup_take_lt by done. rewrite lookup_drop.
    destruct (Hj j ltac:(done)) as (v & -> & ->). done.
  - rewrite !lookup_take_ge by lia. done.
Qed.

Lemma fold_loop_spec {E U} (fn : U -> T -> M E U) fuel (a : shared) l r n u e :
  published (__seg_ a) l r -> (r <= length l)%nat -> Z.of_nat r <= capacity ->
  (n_seg <= fuel + n)%nat ->
  fold_loop fn fuel a (Z.of_nat r) (Z.of_nat (Nat.min r (2 ^ n - 1))) n u e
  = foldM fn u (drop (2 ^ n - 1) (take r l)) e.
Proof using Hmax.
  intros Hpub Hlen Hcap. revert n u e. induction fuel as [|fuel IH]; intros n u e Hfuel.
  all: assert (Z.of_nat (2 ^ n) = 2 ^ Z.of_nat n) as Hp by apply pow2_of_nat.
  all: assert (1 <= 2 ^ n)%nat as Hp1 by (pose proof (Nat.pow_nonzero 2 n); lia).
  all: simpl; case_decide as Hlt; [|rewrite drop_ge; [done|rewrite length_take; lia]].
  - exfalso. assert (n < n_seg)%nat; [|lia]. apply (split_in_table n 0); lia.
  - pose proof capacity_bound.
    rewrite Nat.min_r by lia.
    set (mm := Nat.min (2 ^ n) (r - (2 ^ n - 1))).
    replace (Z.to_nat (Z.min _ _)) with mm by lia.
    unfold mbind, M_bind. rewrite (fold_segment_spec fn u (__seg_ a) l r n mm) by (done || lia).
    assert (drop (2 ^ n - 1) (take r l) =
      take mm (drop (2 ^ n - 1) l) ++ drop (2 ^ S n - 1) (take r l)) as ->.
    { rewrite <- (take_drop mm (drop (2 ^ n - 1) (take r l))). f_equal.
      - rewrite skipn_firstn_comm, take_take. f_equal. lia.
      - rewrite drop_drop. destruct (decide (2 ^ n <= r - (2 ^ n - 1))%nat).
        + f_equal. simpl. lia.
        + rewrite !drop_ge; [done|rewrite length_take; simpl; lia..]. }
    rewrite foldM_app. unfold mbind, M_bind.
    destruct (foldM fn u (take mm (drop (2 ^ n - 1) l)) e) as [[u' e']|]; [|done].
    rewrite <- IH by lia. f_equal. rewrite wrap_small by (unfold is_word; lia). simpl. lia.
Qed.

(** ** Slots under the two writes *)

Lemma slot_store segs n m l v i :
  segs !! n = Some (Some l) -> length l = (2 ^ n)%nat -> (m < 2 ^ n)%nat ->
  slot (<[n := Some (<[m := v]> l)]> segs) i
  = if decide (i = 2 ^ n - 1 + m)%nat then Some v else slot segs i.
Proof using Type.
  intros Hs Hl Hm. destruct (index_split i) as (n' & m' & -> & Hm').
  rewrite !slot_at by done. destruct (decide (n' = n)) as [->|Hn].
  - rewrite list_lookup_insert_eq by (by eapply lookup_lt_Some). rewrite Hs.
    case_decide as E.
    + assert (m' = m) as -> by lia. apply list_lookup_insert_eq. lia.
    + apply list_lookup_insert_ne. lia.
  - rewrite list_lookup_insert_ne by done. rewrite decide_False; [done|].
    intros E. by destruct (split_inj n' m' n m) as [-> _].
Qed.

Lemma slot_install segs n l i v :
  segs !! n = Some None -> slot segs i = Some v -> slot (<[n := Some l]> segs) i = Some v.
Proof using Type.
  unfold slot. intros Hn. destruct (decide (Z.to_nat (Z.log2 (Z.of_nat i + 1)) = n)) as [->|].
  - by rewrite Hn.
  - by rewrite list_lookup_insert_ne.
Qed.

(** Values already in slots survive: the rest of a call's progress does too. *)
Definition keeps (segs segs' : list (option (list T))) (i : nat) : Prop :=
  forall v, slot segs i = Some v -> slot segs' i = Some v.

Lemma published_keeps segs segs' l l' r :
  published segs l r -> (forall i, (i < r)%nat -> keeps segs segs' i) -> l `prefix_of` l' ->
  published segs' l' r.
Proof using Type.
  intros Hp Hk Hl i Hi. destruct (Hp i Hi) as (v & Hv & Hs).
  exists v. split; [by eapply prefix_lookup_Some|by apply Hk].
Qed.

Lemma published_le segs l r r' : published segs l r -> (r' <= r)%nat -> published segs l r'.
Proof using Type. intros Hp ? i ?. apply Hp. lia. Qed.

Lemma step_vals s s' : step s s' -> vals s `prefix_of` vals s'.
Proof using Type. intros []; simpl; [done|]. destruct c; by eauto using prefix_app_r. Qed.

(** ** Preservation *)

Definition allocs_kept (segs segs' : list (option (list T))) : Prop :=
  forall n l, segs !! n = Some (Some l) -> exists l', segs' !! n = Some (Some l').

Lemma vals_lookup s p : Inv s -> 0 <= p < __prev_ (sh s) -> is_Some (vals s !! Z.to_nat p).
Proof using Type. intros I Hp. apply lookup_lt_is_Some. rewrite (inv_prev s I) in Hp. lia. Qed.

Lemma pc_ok_mono s s' t c :
  Inv s -> thr s !! t = Some c -> vals s `prefix_of` vals s' ->
  allocs_kept (__seg_ (sh s)) (__seg_ (sh s')) ->
  (forall p, ticket c = Some p -> keeps (__seg_ (sh s)) (__seg_ (sh s')) (Z.to_nat p)) ->
  __count_ (sh s') = __count_ (sh s) \/
    __count_ (sh s) <= __count_ (sh s') /\ ticket c <> Some (__count_ (sh s)) ->
  pc_ok s' c.
Proof using Type.
  intros I Hc Hv Ha Hk Hcount. destruct (inv_thr s I _ _ Hc) as [Hok Ht].
  pose proof (inv_count s I).
  assert (forall p, ticket c = Some p -> slot (__seg_ (sh s)) (Z.to_nat p) = vals s !! Z.to_nat p ->
    slot (__seg_ (sh s')) (Z.to_nat p) = vals s' !! Z.to_nat p) as Hslot.
  { intros p Hp E. specialize (Ht p Hp).
    destruct (vals_lookup s p I ltac:(lia)) as [v Hpv]. rewrite Hpv in E.
    rewrite (Hk p Hp v E). symmetry. by eapply prefix_lookup_Some. }
  destruct c; simpl in *; eauto using prefix_lookup_Some.
  - destruct Hok as (? & n & m & l & ? & ?). destruct (Ha n l) as [l' ?]; [done|].
    eauto 10 using prefix_lookup_Some.
  - destruct Hok as [? <-], Hcount as [|[_ []]]; eauto.
  - lia.
Qed.

(** A step of a call that keeps its ticket and writes at most its own slot. *)
Lemma inv_local s t c c' p segs' :
  Inv s -> thr s !! t = Some c -> ticket c = Some p -> ticket c' = Some p ->
  length segs' = n_seg ->
  (forall n l, segs' !! n = Some (Some l) -> length l = (2 ^ n)%nat) ->
  allocs_kept (__seg_ (sh s)) segs' ->
  (forall i, i <> Z.to_nat p -> keeps (__seg_ (sh s)) segs' i) ->
  let s' := mkSys (mkShared segs' (__count_ (sh s)) (__prev_ (sh s))) (vals s)
              (<[t := c']> (thr s)) in
  pc_ok s' c' -> Inv s'.
Proof using Type.
  intros I Ht Hc Hc' Hlen Hseg Hal Hk s' Hok.
  destruct (inv_thr s I t c Ht) as [_ Hp]. specialize (Hp p Hc).
  pose proof (inv_count s I).
  split; simpl; try apply I; try done.
  - eapply published_keeps; [apply I| |done]. intros i Hi. apply Hk. lia.
  - intros t2 c2 [[<- <-]|[Hne H2]]%lookup_insert_Some.
    + split; [done|]. intros q Hq. by simplify_eq.
    + split; [|by apply (inv_thr s I t2)].
      eapply (pc_ok_mono s s' t2); simpl; eauto. intros q Hq. apply Hk.
      destruct (inv_thr s I t2 c2 H2) as [_ Hq']. specialize (Hq' q Hq).
      intros E. assert (q = p) as -> by lia. apply Hne. by eapply (inv_distinct s I).
  - intros t1 t2 c1 c2 q. rewrite !lookup_insert_Some.
    intros [[<- <-]|[? ?]] [[<- <-]|[? ?]] ??; simplify_eq; try done.
    all: by eapply (inv_distinct s I).
  - intros q Hq. destruct (inv_held s I q Hq) as (t2 & c2 & H2 & Hq2).
    destruct (decide (t = t2)) as [->|].
    + exists t2, c'. rewrite lookup_insert_eq. simplify_eq. done.
    + exists t2, c2. by rewrite lookup_insert_ne.
Qed.

Lemma inv_init : Inv start.
Proof using Hmax.
  split; simpl; try done.
  - apply length_replicate.
  - intros n l [Hn _]%lookup_replicate. done.
  - intros i Hi. simpl in Hi. lia.
  - intros p Hp. lia.
Qed.

Lemma inv_start s t v : Inv s -> idle s t ->
  Inv (mkSys (sh s) (vals s) (<[t := push_back_pc v]> (thr s))).
Proof using Type.
  intros I Hidle. split; simpl; try apply I.
  - intros t2 c2 [[<- <-]|[Hne H2]]%lookup_insert_Some; [by split|].
    split; [|by apply (inv_thr s I t2)].
    eapply (pc_ok_mono s _ t2); simpl; eauto.
    + intros n l ?; eauto.
    + by intros p _ w ?.
  - intros t1 t2 c1 c2 q. rewrite !lookup_insert_Some.
    intros [[<- <-]|[? ?]] [[<- <-]|[? ?]] ??; simplify_eq; try done.
    by eapply (inv_distinct s I).
  - intros q Hq. destruct (inv_held s I q Hq) as (t2 & c2 & H2 & Hq2).
    exists t2, c2. rewrite lookup_insert_ne; [done|]. intros <-.
    unfold idle in Hidle. rewrite H2 in Hidle. by destruct c2.
Qed.

Lemma inv_fetch s t v : Inv s -> Z.of_nat (length (vals s)) < capacity ->
  thr s !! t = Some (PFetch v) ->
  Inv (mkSys (mkShared (__seg_ (sh s)) (__count_ (sh s)) (u32 (__prev_ (sh s) + 1)))
         (vals s ++ [v]) (<[t := PLoad v (__prev_ (sh s))]> (thr s))).
Proof using Hmax.
  intros I Hcap Ht. pose proof (inv_count s I). pose proof (inv_prev s I) as Hprev.
  pose proof capacity_bound.
  rewrite wrap_small by (unfold is_word; lia).
  split; simpl; try apply I.
  - rewrite length_app, Hprev. simpl. lia.
  - lia.
  - eapply published_keeps; [apply I|by intros ?? ?|by apply prefix_app_r].
  - intros t2 c2 [[<- <-]|[Hne H2]]%lookup_insert_Some.
    + split; [|intros p [= <-]; lia]. simpl. rewrite Hprev, Nat2Z.id.
      by rewrite lookup_app_r, Nat.sub_diag.
    + destruct (inv_thr s I t2 c2 H2) as [_ Hq]. split.
      * eapply (pc_ok_mono s _ t2); simpl; eauto.
        -- by apply prefix_app_r.
        -- intros n l ?; eauto.
        -- by intros p _ w ?.
      * intros p Hp. specialize (Hq p Hp). lia.
  - intros t1 t2 c1 c2 q. rewrite !lookup_insert_Some.
    intros [[<- <-]|[? G1]] [[<- <-]|[? G2]] E1 E2; simplify_eq/=; try done.
    + destruct (inv_thr s I _ _ G2) as [_ Hq]. specialize (Hq _ E2). lia.
    + destruct (inv_thr s I _ _ G1) as [_ Hq]. specialize (Hq _ E1). lia.
    + by eapply (inv_distinct s I).
  - intros q Hq. destruct (decide (q = __prev_ (sh s))) as [->|].
    + exists t, (PLoad v (__prev_ (sh s))). by rewrite lookup_insert_eq.
    + destruct (inv_held s I q ltac:(lia)) as (t2 & c2 & H2 & Hq2).
      exists t2, c2. rewrite lookup_insert_ne; [done|]. intros <-. by simplify_eq.
Qed.

Lemma inv_publish s t p : Inv s -> bounded s -> thr s !! t = Some (PPublish p) ->
  Inv (mkSys (mkShared (__seg_ (sh s)) (u32 (p + 1)) (__prev_ (sh s)))
         (vals s) (<[t := PDone p]> (thr s))).
Proof using Hmax.
  intros I Hcap Ht. destruct (inv_thr s I t _ Ht) as [[Hslot Hp] Hr].
  specialize (Hr p eq_refl). simpl in Hp, Hslot. unfold bounded in Hcap.
  pose proof (inv_count s I). pose proof (inv_prev s I) as Hprev.
  pose proof capacity_bound. rewrite wrap_small by (unfold is_word; lia).
  split; simpl; try apply I.
  - lia.
  - intros i Hi. destruct (decide (i < Z.to_nat (__count_ (sh s)))%nat).
    + by apply (inv_pub s I).
    + assert (i = Z.to_nat p) as -> by lia. rewrite Hslot.
      destruct (vals_lookup s p I ltac:(lia)) as [v Hv]. eauto.
  - intros t2 c2 [[<- <-]|[Hne H2]]%lookup_insert_Some.
    + simpl. split; [lia|done].
    + assert (ticket c2 <> Some p) as Hq.
      { intros E. apply Hne. by eapply (inv_distinct s I _ _ _ _ p). }
      split.
      * eapply (pc_ok_mono s _ t2); simpl; eauto.
        -- intros n l ?; eauto.
        -- by intros q _ w ?.
        -- right. split; [lia|]. by rewrite Hp.
      * intros q Hq2. destruct (inv_thr s I t2 c2 H2) as [_ Hq']. specialize (Hq' q Hq2).
        assert (q <> p) by (intros ->; done). lia.
  - intros t1 t2 c1 c2 q. rewrite !lookup_insert_Some.
    intros [[<- <-]|[? ?]] [[<- <-]|[? ?]] ??; simplify_eq; try done.
    by eapply (inv_distinct s I).
  - intros q Hq. destruct (inv_held s I q ltac:(lia)) as (t2 & c2 & H2 & Hq2).
    exists t2, c2. rewrite lookup_insert_ne; [done|]. intros <-. simplify_eq/=. lia.
Qed.

(** The state after thread [t] has gone from [c] to [c']. *)
Definition moved (s : sys) (t : tid) (c c' : pc) (sh' : shared) : sys :=
  mkSys sh' (match c with PFetch v => vals s ++ [v] | _ => vals s end) (<[t := c']> (thr s)).

Lemma ticket_located s t c p : Inv s -> bounded s -> thr s !! t = Some c -> ticket c = Some p ->
  exists n m o, __locate p = Done (n, m) /\ Z.to_nat p = (2 ^ n - 1 + m)%nat /\ (m < 2 ^ n)%nat /\
    __seg_ (sh s) !! n = Some o.
Proof using Hmax.
  intros I Hb Ht Hp. destruct (inv_thr s I t c Ht) as [_ Hr]. specialize (Hr p Hp).
  pose proof (inv_count s I). pose proof (inv_prev s I). unfold bounded in Hb.
  destruct (locate_ticket p ltac:(lia)) as (n & m & Hl & -> & Hm & Hn).
  rewrite <- (inv_len s I) in Hn. apply lookup_lt_is_Some in Hn as [o Ho].
  exists n, m, o. rewrite Nat2Z.id. done.
Qed.

(** A local step that leaves the shared variables alone. *)
Lemma inv_stay s t c c' p : Inv s -> thr s !! t = Some c -> ticket c = Some p ->
  ticket c' = Some p -> pc_ok (mkSys (sh s) (vals s) (<[t := c']> (thr s))) c' ->
  Inv (mkSys (sh s) (vals s) (<[t := c']> (thr s))).
Proof using Type.
  intros I Ht Hc Hc' Hok.
  assert (mkShared (__seg_ (sh s)) (__count_ (sh s)) (__prev_ (sh s)) = sh s) as E
    by by destruct (sh s).
  pose proof (inv_local s t c c' p (__seg_ (sh s)) I Ht Hc Hc') as Hl. rewrite E in Hl.
  apply Hl; [apply I|apply (inv_seg s I)| | |exact Hok].
  - intros n l ?; eauto.
  - by intros i _ v ?.
Qed.

Lemma allocs_kept_insert segs n l : allocs_kept segs (<[n := Some l]> segs).
Proof using Type.
  intros n' l' Hn'. destruct (decide (n = n')) as [<-|].
  - exists l. apply list_lookup_insert_eq. by eapply lookup_lt_Some.
  - exists l'. by rewrite list_lookup_insert_ne.
Qed.

Lemma inv_install s t v p n m : Inv s -> thr s !! t = Some (PInstall v p) ->
  __locate p = Done (n, m) -> __seg_ (sh s) !! n = Some None ->
  Inv (mkSys (mkShared (<[n := Some (replicate (2 ^ n) dflt)]> (__seg_ (sh s)))
         (__count_ (sh s)) (__prev_ (sh s))) (vals s) (<[t := PStore v p]> (thr s))).
Proof using Type.
  intros I Ht Hl Hn. destruct (inv_thr s I t _ Ht) as [Hv _]. simpl in Hv.
  eapply (inv_local s t _ _ p); try done.
  - rewrite length_insert. apply I.
  - intros n' l'. rewrite list_lookup_insert_Some.
    intros [(<- & [= <-] & _)|[_ ?]]; [apply length_replicate|by apply (inv_seg s I)].
  - apply allocs_kept_insert.
  - intros i _ w. by apply slot_install.
  - simpl. split; [done|]. exists n, m, (replicate (2 ^ n) dflt). split; [done|].
    apply list_lookup_insert_eq. by eapply lookup_lt_Some.
Qed.

Lemma inv_store s t v p n m l : Inv s -> thr s !! t = Some (PStore v p) ->
  Z.to_nat p = (2 ^ n - 1 + m)%nat -> (m < 2 ^ n)%nat -> __seg_ (sh s) !! n = Some (Some l) ->
  Inv (mkSys (mkShared (<[n := Some (<[m := v]> l)]> (__seg_ (sh s)))
         (__count_ (sh s)) (__prev_ (sh s))) (vals s) (<[t := PSpin p]> (thr s))).
Proof using Type.
  intros I Ht Hp Hm Hn. destruct (inv_thr s I t _ Ht) as [[Hv _] _].
  pose proof (inv_seg s I n l Hn) as Hlen.
  eapply (inv_local s t _ _ p); try done.
  - rewrite length_insert. apply I.
  - intros n' l'. rewrite list_lookup_insert_Some.
    intros [(<- & [= <-] & _)|[_ ?]]; [by rewrite length_insert|by apply (inv_seg s I)].
  - apply allocs_kept_insert.
  - intros i Hi w. rewrite (slot_store _ n m l v i) by done. by rewrite decide_False by lia.
  - simpl. rewrite (slot_store _ n m l v) by done. by rewrite decide_True.
Qed.

(** Every call can take its next step, and the step keeps the invariant. *)
Lemma thread_ready s t c : Inv s -> bounded s -> thr s !! t = Some c ->
  (forall v, c = PFetch v -> Z.of_nat (length (vals s)) < capacity) ->
  exists c' sh', thread_step c (sh s) = Done (c', sh') /\ Inv (moved s t c c' sh').
Proof using Hmax.
  intros I Hb Ht Hfetch. unfold moved.
  destruct (inv_thr s I t c Ht) as [Hok _].
  destruct c as [v|v p|v p|v p|p|p|p];
    unfold thread_step, seg_at, set_seg, lift, get, put, modify, mbind, M_bind, mret, M_ret.
  - do 2 eexists. split; [done|]. apply inv_fetch; eauto.
  - destruct (ticket_located s t _ p I Hb Ht eq_refl) as (n & m & o & -> & Hp & Hm & Hn).
    rewrite Hn. do 2 eexists. split; [done|].
    eapply (inv_stay s t _ _ p); [done..|by destruct o|].
    destruct o as [l|]; simpl; [|done].
    destruct (ticket_located s t _ p I Hb Ht eq_refl) as (n' & m' & o' & E & Hp' & Hm' & Hn').
    destruct (split_inj n m n' m') as [<- <-]; [done..|lia|]. split; eauto 10.
  - destruct (ticket_located s t _ p I Hb Ht eq_refl) as (n & m & o & E & Hp & Hm & Hn).
    rewrite E, Hn. destruct o as [l|]; do 2 eexists; (split; [done|]).
    + eapply (inv_stay s t _ _ p); [done..|]. simpl. eauto 10.
    + by eapply inv_install.
  - destruct (ticket_located s t _ p I Hb Ht eq_refl) as (n & m & o & E & Hp & Hm & Hn).
    destruct Hok as (_ & n' & m' & l & E' & Hn'). rewrite E in E'. simplify_eq.
    rewrite E, Hn'. rewrite decide_True by by rewrite (inv_seg s I n' l).
    do 2 eexists. split; [done|]. by eapply inv_store.
  - do 2 eexists. split; [done|]. case_decide; eapply (inv_stay s t _ _ p); done.
  - do 2 eexists. split; [done|]. by apply inv_publish.
  - do 2 eexists. split; [done|]. rewrite insert_id by done. by destruct s.
Qed.

Lemma step_inv s s' : Inv s -> step s s' -> bounded s' -> Inv s'.
Proof using Hmax.
  intros I Hstep Hb. assert (bounded s) as Hbs.
  { pose proof (prefix_length _ _ (step_vals _ _ Hstep)). unfold bounded in *. lia. }
  destruct Hstep as [s t v Hi|s t c c' sh' Ht E]; [by apply inv_start|].
  destruct (thread_ready s t c I Hbs Ht) as (c2 & sh2 & E2 & I2).
  - intros v ->. unfold bounded in Hb. simpl in Hb. rewrite length_app in Hb. simpl in Hb. lia.
  - rewrite E in E2. by simplify_eq.
Qed.

Lemma steps_vals s s' : rtc step s s' -> vals s `prefix_of` vals s'.
Proof using Type. induction 1 as [|s s1 s2 ? _ IH]; [done|]. etrans; [by apply step_vals|done]. Qed.

Lemma steps_inv s s' : Inv s -> rtc step s s' -> bounded s' -> Inv s'.
Proof using Hmax.
  intros I Hs Hb. induction Hs as [|s s1 s2 H1 H2 IH]; [done|].
  apply IH; [|done]. eapply step_inv; [done..|].
  pose proof (prefix_length _ _ (steps_vals _ _ H2)). unfold bounded in *. lia.
Qed.

Lemma step_count s s' : Inv s -> step s s' -> bounded s' -> __count_ (sh s) <= __count_ (sh s').
Proof using Hmax.
  intros I Hstep Hb. pose proof (step_inv s s' I Hstep Hb) as I'.
  destruct Hstep as [s t v Hi|s t c c' sh' Ht E]; [done|]. simpl.
  destruct (inv_thr s I t c Ht) as [Hok Hr].
  pose proof (inv_thr _ I' t c' (lookup_insert_eq _ _ _)) as [Hok' _].
  destruct c as [v|v p|v p|v p|p|p|p];
    unfold thread_step, seg_at, set_seg, lift, get, put, modify, throw, mbind, M_bind, mret, M_ret in E;
    repeat case_match; simplify_eq/=; try done.
  all: try lia.
Qed.

Lemma steps_count s s' : Inv s -> rtc step s s' -> bounded s' -> __count_ (sh s) <= __count_ (sh s').
Proof using Hmax.
  intros I Hs Hb. induction Hs as [|s s1 s2 H1 H2 IH]; [done|].
  assert (bounded s1).
  { pose proof (prefix_length _ _ (steps_vals _ _ H2)). unfold bounded in *. lia. }
  etrans; [by apply step_count|]. apply IH; [|done]. by eapply step_inv.
Qed.

(** ** The call whose turn it is *)

(** [k] steps of one thread, the others standing still. *)
Fixpoint run (k : nat) (c : pc) : M shared pc :=
  match k with O => mret c | S k => c' ← thread_step c; run k c' end.

Lemma run_done k p x : run k (PDone p) x = Done (PDone p, x).
Proof using Type. induction k; [done|]. exact IHk. Qed.

Definition rank (c : pc) : nat :=
  match c with
  | PFetch _ => 6 | PLoad _ _ => 5 | PInstall _ _ => 4 | PStore _ _ => 3
  | PSpin _ => 2 | PPublish _ => 1 | PDone _ => 0
  end.

Lemma holder_step s t c : Inv s -> bounded s -> thr s !! t = Some c ->
  ticket c = Some (__count_ (sh s)) ->
  exists c' sh', thread_step c (sh s) = Done (c', sh') /\ Inv (moved s t c c' sh') /\
    vals (moved s t c c' sh') = vals s /\
    ((ticket c' = Some (__count_ (sh s)) /\ __count_ sh' = __count_ (sh s) /\ (rank c' < rank c)%nat)
     \/ c' = PDone (__count_ (sh s)) /\ __count_ sh' = __count_ (sh s) + 1).
Proof using Hmax.
  intros I Hb Ht Hc.
  destruct (thread_ready s t c I Hb Ht) as (c' & sh' & E & I'); [by intros v ->|].
  exists c', sh'. split_and!; [done..|by destruct c|].
  pose proof (inv_thr _ I' t c' (lookup_insert_eq _ _ _)) as [Hok' Hr'].
  pose proof (inv_count s I). pose proof (inv_prev s I). pose proof capacity_bound.
  unfold bounded in Hb. destruct (inv_thr s I t c Ht) as [_ Hr].
  destruct c as [v|v p|v p|v p|p|p|p];
    unfold thread_step, seg_at, set_seg, lift, get, put, modify, throw, mbind, M_bind, mret, M_ret in E;
    repeat case_match; simplify_eq/=; try (left; split_and!; (done || simpl; lia)).
  right. split; [done|]. specialize (Hr _ eq_refl). apply wrap_small. unfold is_word. lia.
Qed.

Lemma holder_runs k s t c : Inv s -> bounded s -> thr s !! t = Some c ->
  ticket c = Some (__count_ (sh s)) -> (rank c <= k)%nat ->
  exists sh', run k c (sh s) = Done (PDone (__count_ (sh s)), sh') /\
    __count_ sh' = __count_ (sh s) + 1 /\
    published (__seg_ sh') (vals s) (Z.to_nat (__count_ sh')).
Proof using Hmax.
  revert s c. induction k as [|k IH]; intros s c I Hb Ht Hc Hk; [destruct c; simpl in *; first [lia|done]|].
  destruct (holder_step s t c I Hb Ht Hc) as (c' & sh' & E & I' & Hv & [(Hc' & Hcnt & Hlt)|[-> Hcnt]]);
    simpl; unfold mbind, M_bind; rewrite E.
  - destruct (IH (moved s t c c' sh') c') as (sh2 & Hrun & Hcnt2 & Hpub); try done.
    + unfold bounded. by rewrite Hv.
    + apply lookup_insert_eq.
    + simpl. by rewrite Hcnt.
    + lia.
    + simpl in Hrun, Hcnt2. rewrite Hcnt in Hrun, Hcnt2. rewrite Hv in Hpub.
      exists sh2. done.
  - exists sh'. rewrite run_done. split_and!; [done..|].
    pose proof (inv_pub _ I') as Hpub. rewrite Hv in Hpub. done.
Qed.

Lemma reachable_inv s : reachable s -> bounded s -> Inv s.
Proof using Hmax. apply steps_inv, inv_init. Qed.

(** The destructor deletes arrays of the sizes they were allocated with. *)
Lemma destroy_sizes s : reachable s -> bounded s ->
  Forall (fun l => exists n, (n < n_seg)%nat /\ length l = (2 ^ n)%nat) (destroy (sh s)).
Proof using Hmax.
  intros Hr Hb. pose proof (reachable_inv s Hr Hb) as I. apply Forall_forall. intros l Hl.
  apply list_elem_of_omap in Hl as (o & Ho & E). apply list_elem_of_lookup in Ho as [n Hn].
  destruct o as [l'|]; [|done]. injection E as ->. exists n. split; [|by apply (inv_seg s I)].
  rewrite <- (inv_len s I). by eapply lookup_lt_Some.
Qed.

(** ** Properties *)

(** [__locate] is a bijection between the indices the counter can take
    before its last value and the pairs of a segment and a position in it;
    the segment exists in the table exactly for the indices below [capacity],
    which is at least the [__max_] elements asked for and less than twice as
    many; on the last counter value the intrinsic's argument is zero. *)
Theorem locate_bijective w : is_word 32 w ->
  (w < 2 ^ 32 - 1 -> exists n m, __locate w = Done (n, m) /\ (m < 2 ^ n)%nat /\
     w = Z.of_nat (2 ^ n - 1 + m) /\ (w < capacity <-> (n < n_seg)%nat)) /\
  (forall n m, (n < 32)%nat -> (m < 2 ^ n)%nat -> w = Z.of_nat (2 ^ n - 1 + m) ->
     w < 2 ^ 32 - 1 -> __locate w = Done (n, m)) /\
  (w = 2 ^ 32 - 1 -> __locate w = Fault Undefined) /\
  __max_ <= capacity < 2 * __max_.
Proof using Hmax.
  intros Hw. split_and!.
  - intros Hlt. destruct (index_split (Z.to_nat w)) as (n & m & E & Hm).
    unfold is_word in Hw. assert (w = Z.of_nat (2 ^ n - 1 + m)) as -> by lia.
    exists n, m. split_and!; [|done..|by apply split_in_table].
    apply locate_at; [done| |done].
    destruct (decide (n < 32)%nat); [done|].
    assert (Z.of_nat (2 ^ n) = 2 ^ Z.of_nat n) as Hp by apply pow2_of_nat.
    assert (2 ^ 32 <= 2 ^ Z.of_nat n) by (apply Z.pow_le_mono_r; lia). lia.
  - intros n m Hn Hm -> Hlt. by apply locate_at.
  - by intros ->.
  - apply capacity_bound.
  - unfold capacity, n_seg. pose proof (Z.log2_nonneg __max_).
    pose proof (Z.log2_spec __max_ ltac:(lia)) as [Hlo _].
    rewrite Z2Nat.id, Z.pow_add_r by lia. lia.
Qed.

(** C28: whatever the interleaving of the pushes, as long as they fit in the
    table, a fold that read [__count_] in state [s] and visits the segments in
    any later state [s'] runs its function over exactly the first [__count_]
    values in ticket order, without fault and within one iteration per
    segment; a value that a finished call returned the index of is among
    them. *)
Theorem fold_sees_published {E U} (fn : U -> T -> M E U) s s' u e :
  reachable s -> rtc step s s' -> bounded s' ->
  let r := Z.to_nat (__count_ (sh s)) in
  (r <= length (vals s))%nat /\ vals s `prefix_of` vals s' /\
  fold_loop fn n_seg (sh s') (__count_ (sh s)) 0 0 u e = foldM fn u (take r (vals s)) e /\
  _M_fold_inplace fn n_seg (sh s) u e = foldM fn u (take r (vals s)) e /\
  (forall t p, thr s !! t = Some (PDone p) -> 0 <= p < Z.of_nat r).
Proof using Hmax.
  intros Hr Hs Hb r.
  pose proof (steps_vals _ _ Hs) as Hpre.
  assert (bounded s) as Hbs.
  { pose proof (prefix_length _ _ Hpre). unfold bounded in *. lia. }
  pose proof (reachable_inv s Hr Hbs) as I. pose proof (steps_inv _ _ I Hs Hb) as I'.
  pose proof (inv_count s I). pose proof (inv_prev s I). pose proof (steps_count _ _ I Hs Hb).
  assert (forall s2, vals s `prefix_of` vals s2 -> Inv s2 -> bounded s2 ->
    __count_ (sh s) <= __count_ (sh s2) ->
    fold_loop fn n_seg (sh s2) (__count_ (sh s)) 0 0 u e = foldM fn u (take r (vals s)) e) as Hfold.
  { intros s2 Hp2 I2 Hb2 Hc2. pose proof (inv_count s2 I2). pose proof (inv_prev s2 I2).
    unfold bounded in *.
    pose proof (fold_loop_spec fn n_seg (sh s2) (vals s2) r 0 u e) as Hspec.
    assert (Z.of_nat r = __count_ (sh s)) as Hr0 by lia.
    rewrite Hr0, Nat.min_0_r, drop_0 in Hspec.
    change (Z.of_nat 0) with 0 in Hspec. rewrite Hspec; [|eapply published_le; [apply I2|lia]|lia|lia|lia].
    destruct Hp2 as [l ->]. by rewrite take_app_le by lia. }
  split_and!; [lia|done|by apply Hfold|by apply Hfold|].
  intros t p Ht. destruct (inv_thr s I t _ Ht) as [Hok _]. simpl in Hok. lia.
Qed.

(** pushes never fault while they fit in the table, and the array is
    never stuck: when some drawn ticket is not yet published, the call that
    holds the next one publishes it within five of its own steps. *)
Theorem push_back_progress s : reachable s -> bounded s ->
  (forall t c, thr s !! t = Some c ->
     (forall v, c = PFetch v -> Z.of_nat (length (vals s)) < capacity) ->
     exists r, thread_step c (sh s) = Done r) /\
  (__count_ (sh s) < __prev_ (sh s) ->
     exists t c sh', thr s !! t = Some c /\
       run 5 c (sh s) = Done (PDone (__count_ (sh s)), sh') /\
       __count_ sh' = __count_ (sh s) + 1 /\
       published (__seg_ sh') (vals s) (Z.to_nat (__count_ sh'))).
Proof using Hmax.
  intros Hr Hb. pose proof (reachable_inv s Hr Hb) as I. split.
  - intros t c Ht Hf. destruct (thread_ready s t c I Hb Ht Hf) as (c' & sh' & -> & _). eauto.
  - intros Hlt. destruct (inv_held s I (__count_ (sh s))) as (t & c & Ht & Hc); [lia|].
    destruct (holder_runs 5 s t c I Hb Ht Hc) as (sh' & ?); [destruct c; simpl in *; first [lia|done]|].
    eauto.
Qed.
End code.

(** ** A schedule *)
Module segment_example.

(** A schedule is a list of actions: thread [t] calls [_M_push_back], or takes
    its next step. *)
Inductive action := Call (t : tid) (v : Z) | Run (t : tid).

Definition act (a : action) (s : sys) : option (@sys Z) :=
  match a with
  | Call t v =>
      match thr s !! t with
      | None | Some (PDone _) => Some (mkSys (sh s) (vals s) (<[t := push_back_pc v]> (thr s)))
      | _ => None
      end
  | Run t =>
      c ← thr s !! t;
      match thread_step 0 c (sh s) with
      | Done (c', sh') => Some (moved s t c c' sh')
      | Fault _ => None
      end
  end.
Fixpoint acts (l : list action) (s : sys) : option sys :=
  match l with [] => Some s | a :: l => s' ← act a s; acts l s' end.

Lemma act_step a s s' : act a s = Some s' -> step 0 s s'.
Proof.
  destruct a as [t v|t]; simpl; intros E.
  - assert (idle s t /\ s' = mkSys (sh s) (vals s) (<[t := push_back_pc v]> (thr s))) as [? ->].
    { unfold idle. by repeat case_match; simplify_eq. }
    by constructor.
  - destruct (thr s !! t) as [c|] eqn:Hc; simplify_eq/=.
    destruct (thread_step 0 c (sh s)) as [[c' sh']|] eqn:Hs; simplify_eq.
    by apply step_run.
Qed.

Lemma acts_steps l s s' : acts l s = Some s' -> rtc (step 0) s s'.
Proof.
  revert s. induction l as [|a l IH]; simpl; intros s E; simplify_eq; [done|].
  destruct (act a s) as [s1|] eqn:Ha; simplify_eq/=.
  eapply rtc_l; [by eapply act_step|by apply IH].
Qed.

(** Two calls overlap: the second ticket is drawn and stored first, and
    waits; then the first call finishes. *)
Definition schedule1 : list action :=
  [Call 0%nat 10; Run 0%nat; Call 1%nat 20; Run 1%nat; Run 1%nat; Run 1%nat; Run 1%nat; Run 1%nat;
   Run 0%nat; Run 0%nat; Run 0%nat; Run 0%nat; Run 0%nat].
Definition schedule2 : list action := [Run 1%nat; Run 1%nat; Call 0%nat 30; Run 0%nat; Run 0%nat].
Definition s0 : @sys Z := start 5.
Definition s1 : @sys Z := default s0 (acts schedule1 s0).
Definition s2 : @sys Z := default s0 (acts (schedule1 ++ schedule2) s0).
Definition sum_fn (u x : Z) : M unit Z := mret (u + x).

Lemma s1_reachable : reachable 0 5 s1.
Proof. apply (acts_steps schedule1). vm_compute. reflexivity. Qed.

Lemma s1_s2 : rtc (step 0) s1 s2.
Proof. apply (acts_steps schedule2). vm_compute. reflexivity. Qed.

Lemma locate_bijective_witness :
  is_word 32 4 /\ __locate 4 = Done (2, 1)%nat /\ 4 < capacity 5.
Proof.
  assert (is_word 32 4) as Hw by (split; [lia|reflexivity]).
  destruct (locate_bijective 5 ltac:(lia) 4 Hw) as (H1 & H2 & _ & _).
  split; [exact Hw|].
  assert (__locate 4 = Done (2, 1)%nat) as E by (apply H2; simpl; lia).
  split; [exact E|].
  destruct (H1 ltac:(lia)) as (n & m & E' & _ & _ & Hc). rewrite E in E'.
  injection E' as <- <-. apply Hc. vm_compute. lia.
Defined.

(** The first value is published, the second stored but not yet published. *)
Lemma fold_sees_published_witness :
  vals s2 = [10; 20; 30] /\ __count_ (sh s1) = 1 /\ __count_ (sh s2) = 2 /\
  fold_loop sum_fn (n_seg 5) (sh s2) (__count_ (sh s1)) 0 0 5 tt = Done (15, tt) /\
  _M_fold_inplace sum_fn (n_seg 5) (sh s2) 5 tt = Done (35, tt).
Proof.
  assert (bounded 5 s2) as Hb by (vm_compute; discriminate).
  destruct (fold_sees_published 0 5 ltac:(lia) sum_fn s1 s2 5 tt s1_reachable s1_s2 Hb)
    as (_ & _ & -> & _ & _).
  split_and!; vm_compute; reflexivity.
Defined.

Lemma push_back_progress_witness : reachable 0 5 s1 /\ bounded 5 s1 /\
  __count_ (sh s1) < __prev_ (sh s1) /\
  exists t c sh', thr s1 !! t = Some c /\ run 0 5 c (sh s1) = Done (PDone 1, sh') /\
    __count_ sh' = 2.
Proof.
  assert (bounded 5 s1) as Hb by (vm_compute; discriminate).
  assert (__count_ (sh s1) < __prev_ (sh s1)) as Hlt by (vm_compute; reflexivity).
  destruct (push_back_progress 0 5 ltac:(lia) s1 s1_reachable Hb) as [_ Hp].
  destruct (Hp Hlt) as (t & c & sh' & Ht & Hrun & Hc & _).
  split_and!; [exact s1_reachable|exact Hb|exact Hlt|].
  exists t, c, sh'. split; [exact Ht|]. split; [exact Hrun|].
  rewrite Hc. vm_compute. reflexivity.
Defined.
End segment_example.
End segment_array.
