(* ===== verification/IntrusiveHeap.v ===== *)
(** * [__intrusive_heap.hpp]: a binary heap threaded through its nodes

    The timers of a scheduler wait in a binary heap whose nodes point to their
    parent and children.  [__size_] gives the position of the last leaf: the
    bits of the size below the highest one, read from the top, say right (1)
    or left (0).  Module [intrusive_heap] models every member function over a
    memory of nodes; a [_Node **] of the source is a [ref], the root pointer, a
    member of a node or the local sentinel.

    The abstract heap is a [tree] of addresses and keys that is complete
    ([shape_at]) and ordered ([ordered]); the functions [insert_at], [remove_at],
    [sink] and [up] say on trees what the pointer code does. *)

From Stdlib Require Import Sorting.Sorted.
From S2P Require Import Prelude Memory Cells.

(** ** The order of the keys

    What the heap needs of the [operator<] of its keys: a strict weak order. *)
Class KeyOrder (K : Type) := {
  key_lt : K -> K -> bool;
  key_lt_irrefl a : key_lt a a = false;
  key_le_trans a b c : key_lt b a = false -> key_lt c b = false -> key_lt c a = false;
  key_lt_asym a b : key_lt a b = true -> key_lt b a = false;
}.

(** The key of [__timer_task]: a deadline, then the order of creation. *)
Record __time_sequence := mkTimeSequence { __deadline_ : Z; __seq_ : Z }.

Definition time_sequence_lt (__a __b : __time_sequence) : bool :=
  (__deadline_ __a <? __deadline_ __b)
  || (negb (__deadline_ __b <? __deadline_ __a) && (__seq_ __a <? __seq_ __b)).

Lemma time_sequence_lt_spec a b :
  time_sequence_lt a b = true <->
  __deadline_ a < __deadline_ b \/ __deadline_ a = __deadline_ b /\ __seq_ a < __seq_ b.
Proof.
  unfold time_sequence_lt.
  destruct (Z.ltb_spec (__deadline_ a) (__deadline_ b)), (Z.ltb_spec (__deadline_ b) (__deadline_ a)),
    (Z.ltb_spec (__seq_ a) (__seq_ b)); simpl; split; intros; (done || lia).
Qed.

#[export] Program Instance time_sequence_order : KeyOrder __time_sequence := {|
  key_lt := time_sequence_lt
|}.
Solve Obligations with
  simpl; intros; rewrite <- ?not_true_iff_false in *; rewrite ?time_sequence_lt_spec in *; lia.

#[export] Program Instance Z_order : KeyOrder Z := {| key_lt := Z.ltb |}.
Solve Obligations with simpl; intros; lia.

Module intrusive_heap.
Section code.
Context `{KeyOrder K}.

Record node := mkNode { _Key : K; _Prev : ptr; _Left : ptr; _Right : ptr }.
Record heap := mkHeap { mem : gmap ptr node; __root_ : ptr; __size_ : Z }.

(** ** Memory accesses *)

Definition on_mem {A} (c : M (gmap ptr node) A) : M heap A := fun s =>
  match c (mem s) with
  | Done (a, m) => Done (a, mkHeap m (__root_ s) (__size_ s))
  | Fault f => Fault f
  end.

Definition get_key (p : ptr) : M heap K := on_mem (n ← load p; mret (_Key n)).
Definition get_prev (p : ptr) : M heap ptr := on_mem (n ← load p; mret (_Prev n)).
Definition get_left (p : ptr) : M heap ptr := on_mem (n ← load p; mret (_Left n)).
Definition get_right (p : ptr) : M heap ptr := on_mem (n ← load p; mret (_Right n)).

Definition put_prev (p v : ptr) : M heap unit :=
  on_mem (update p (fun n => mkNode (_Key n) v (_Left n) (_Right n))).
Definition put_left (p v : ptr) : M heap unit :=
  on_mem (update p (fun n => mkNode (_Key n) (_Prev n) v (_Right n))).
Definition put_right (p v : ptr) : M heap unit :=
  on_mem (update p (fun n => mkNode (_Key n) (_Prev n) (_Left n) v)).

Definition get_root : M heap ptr := s ← get; mret (__root_ s).
Definition put_root (v : ptr) : M heap unit := modify (fun s => mkHeap (mem s) v (__size_ s)).
Definition get_size : M heap Z := s ← get; mret (__size_ s).
Definition put_size (v : Z) : M heap unit := modify (fun s => mkHeap (mem s) (__root_ s) v).

(** A pointer to a pointer; [RLocal] is the local [__sentinel], which is
    written but never read. *)
Inductive ref := RRoot | RPrev (p : ptr) | RLeft (p : ptr) | RRight (p : ptr) | RLocal.

Definition read_ref (r : ref) : M heap ptr :=
  match r with
  | RRoot => get_root
  | RPrev p => get_prev p
  | RLeft p => get_left p
  | RRight p => get_right p
  | RLocal => throw Undefined
  end.
Definition write_ref (r : ref) (v : ptr) : M heap unit :=
  match r with
  | RRoot => put_root v
  | RPrev p => put_prev p v
  | RLeft p => put_left p v
  | RRight p => put_right p v
  | RLocal => mret tt
  end.

(** ** The path to a position *)

Definition bit_ceil (x : Z) : Z := 2 ^ Z.log2_up x.
Definition __path_bit_mask (__n : Z) : Z := Z.shiftr (bit_ceil (u64 (__n + 1))) 2.

Definition child_ref (mask path : Z) (p : ptr) : ref :=
  if decide (Z.land mask path <> 0) then RRight p else RLeft p.

(** ** [_M_push] *)

(** The inner [do]-[while]: [__node] takes the place of [__p], which moves down
    the path; the result is the node that is left without a place. *)
Fixpoint shift_loop (fuel : nat) (__node __p __mask __k : Z) : M heap ptr :=
  match fuel with
  | O => throw OutOfFuel
  | S fuel =>
      __p' ←
        (if decide (Z.land __mask __k <> 0) then
           put_right __node __p;;
           l ← get_left __p; put_left __node l;;
           l' ← get_left __p; put_prev l' __node;;
           get_right __p
         else
           r ← get_right __p; put_right __node r;;
           put_left __node __p;;
           r' ← get_right __p;
           (if decide (r' <> nullptr) then put_prev r' __node else mret tt);;
           get_left __p);
      let __mask := Z.shiftr __mask 1 in
      if decide (__mask <> 0) then shift_loop fuel __p __p' __mask __k else mret __p
  end.

Fixpoint push_loop (fuel : nat) (__node : ptr) (__pp : ref) (__p __q __mask __k : Z)
    : M heap unit :=
  if decide (__mask <> 0) then
    match fuel with
    | O => throw OutOfFuel
    | S fuel' =>
        nk ← get_key __node; pk ← get_key __p;
        if key_lt nk pk then
          put_prev __node __q;;
          put_prev __p __node;;
          write_ref __pp __node;;
          __node ← shift_loop fuel __node __p __mask __k;
          r ← get_right __node;
          assert (bool_decide (r = nullptr));;
          put_left __node nullptr
        else
          let __pp := child_ref __mask __k __p in
          __p' ← read_ref __pp;
          push_loop fuel' __node __pp __p' __p (Z.shiftr __mask 1) __k
    end
  else
    write_ref __pp __node;;
    put_prev __node __q;;
    put_right __node nullptr;;
    put_left __node nullptr.

Definition _M_push (fuel : nat) (__node : ptr) : M heap unit :=
  n ← get_size; put_size (u64 (n + 1));;
  __p ← get_root;
  __k ← get_size;
  push_loop fuel __node RRoot __p nullptr (__path_bit_mask __k) __k.

(** ** Helpers of removal *)

Fixpoint leaf_loop (fuel : nat) (__pp : ref) (__p __mask __path : Z) : M heap ptr :=
  if decide (__mask <> 0) then
    match fuel with
    | O => throw OutOfFuel
    | S fuel =>
        let __pp := child_ref __mask __path __p in
        __p' ← read_ref __pp;
        leaf_loop fuel __pp __p' (Z.shiftr __mask 1) __path
    end
  else write_ref __pp nullptr;; mret __p.

Definition __remove_least_leaf (fuel : nat) (__pp : ref) (__path : Z) : M heap ptr :=
  __p ← read_ref __pp; leaf_loop fuel __pp __p (__path_bit_mask __path) __path.

Definition __swap_with_right_child (__parent __child : ptr) : M heap unit :=
  r ← get_right __child; put_right __parent r;;
  put_right __child __parent;;
  __tmp ← get_left __parent;
  l ← get_left __child; put_left __parent l;;
  put_left __child __tmp.

Definition __swap_with_left_child (__parent __child : ptr) : M heap unit :=
  __tmp ← get_right __parent;
  r ← get_right __child; put_right __parent r;;
  put_right __child __tmp;;
  l ← get_left __child; put_left __parent l;;
  put_left __child __parent.

Fixpoint up_loop (fuel : nat) (__p __parent __grand_parent : ptr) (__parent_x : ref)
    : M heap unit :=
  match fuel with
  | O => throw OutOfFuel
  | S fuel =>
      write_ref __parent_x __parent;;
      r ← get_right __parent;
      __parent_x ←
        (if decide (r = __p) then
           l ← get_left __parent; __swap_with_right_child __parent __p;; mret (RPrev l)
         else
           r ← get_right __parent; __swap_with_left_child __parent __p;; mret (RPrev r));
      let __parent_y := RPrev __parent in
      gr ← get_right __grand_parent;
      (if decide (gr = __parent) then put_right __grand_parent __p
       else put_left __grand_parent __p);;
      let __parent := __grand_parent in
      __grand_parent ← get_prev __parent;
      pk ← get_key __p; qk ← get_key __parent;
      if key_lt pk qk then up_loop fuel __p __parent __grand_parent __parent_x
      else
        write_ref __parent_x __p;;
        write_ref __parent_y __p;;
        put_prev __p __parent
  end.

Definition __heap_up_percolate (fuel : nat) (__p __parent : ptr) : M heap unit :=
  l ← get_left __p;
  let __parent_x := if decide (l <> nullptr) then RPrev l else RLocal in
  r ← get_right __p;
  let __parent_y := if decide (r <> nullptr) then RPrev r else RLocal in
  write_ref __parent_y __parent;;
  __grand_parent ← get_prev __parent;
  up_loop fuel __p __parent __grand_parent __parent_x.

(** The loop ends by [break] or with [__l] null; what follows it is the same. *)
Fixpoint sink_loop (fuel : nat) (__p : ptr) (__pp : ref) (__parent __r __l : ptr)
    : M heap unit :=
  if decide (__l <> nullptr) then
    match fuel with
    | O => throw OutOfFuel
    | S fuel =>
        right ←
          (if decide (__r <> nullptr) then
             rk ← get_key __r; lk ← get_key __l; mret (key_lt rk lk)
           else mret false);
        if (right : bool) then
          rk ← get_key __r; pk ← get_key __p;
          if key_lt rk pk then
            __swap_with_right_child __p __r;;
            put_prev __l __r;;
            write_ref __pp __r;;
            l' ← get_left __p; r' ← get_right __p;
            sink_loop fuel __p (RRight __r) __r r' l'
          else
            put_prev __r __p;; put_prev __l __p;; put_prev __p __parent
        else
          lk ← get_key __l; pk ← get_key __p;
          if key_lt lk pk then
            __swap_with_left_child __p __l;;
            (if decide (__r <> nullptr) then put_prev __r __l else mret tt);;
            write_ref __pp __l;;
            l' ← get_left __p; r' ← get_right __p;
            sink_loop fuel __p (RLeft __l) __l r' l'
          else
            (if decide (__r <> nullptr) then put_prev __r __p else mret tt);;
            put_prev __l __p;; put_prev __p __parent
    end
  else put_prev __p __parent.

Definition __heap_down_sink (fuel : nat) (__p : ptr) (__pp : ref) (__parent : ptr)
    : M heap unit :=
  __r ← get_right __p; __l ← get_left __p; sink_loop fuel __p __pp __parent __r __l.

(** ** [_M_pop] and [_M_remove] *)

Definition _M_pop (fuel : nat) : M heap unit :=
  n ← get_size;
  if decide (n <= 1) then put_root nullptr;; put_size 0
  else
    root ← get_root;
    assert (bool_decide (root <> nullptr));;
    n ← get_size;
    __p ← __remove_least_leaf fuel RRoot n;
    __top ← get_root;
    r ← get_right __top; put_right __p r;;
    l ← get_left __top; put_left __p l;;
    put_root __p;;
    n ← get_size; put_size (u64 (n - 1));;
    root ← get_root;
    __heap_down_sink fuel root RRoot nullptr;;
    root ← get_root; put_prev root nullptr.

Definition _M_remove (fuel : nat) (__node : ptr) : M heap bool :=
  q ← get_prev __node; root ← get_root;
  if decide (q = nullptr /\ __node <> root) then mret false
  else
    root ← get_root; assert (bool_decide (root <> nullptr));;
    n ← get_size; assert (bool_decide (n <> 0));;
    n ← get_size; __p ← __remove_least_leaf fuel RRoot n;
    n ← get_size; put_size (u64 (n - 1));;
    if decide (__p = __node) then put_prev __node nullptr;; mret true
    else
      r ← get_right __node; put_right __p r;;
      l ← get_left __node; put_left __p l;;
      __parent ← get_prev __node;
      let sink __pp :=
        __heap_down_sink fuel __p __pp __parent;;
        top ← read_ref __pp; put_prev top __parent;;
        put_prev __node nullptr;; mret true in
      if decide (__parent <> nullptr) then
        r ← get_right __parent;
        let __pp := if decide (r = __node) then RRight __parent else RLeft __parent in
        write_ref __pp __p;;
        pk ← get_key __p; qk ← get_key __parent;
        if key_lt pk qk then
          __heap_up_percolate fuel __p __parent;; put_prev __node nullptr;; mret true
        else sink __pp
      else write_ref RRoot __p;; sink RRoot.

(** ** Trees *)

Inductive tree := Leaf | Node (x : ptr) (k : K) (l r : tree).

Definition root (t : tree) : ptr := match t with Leaf => nullptr | Node x _ _ _ => x end.

(** The cells of a tree whose parent is [q]. *)
Fixpoint cells (q : ptr) (t : tree) : list (ptr * node) :=
  match t with
  | Leaf => []
  | Node x k l r => (x, mkNode k q (root l) (root r)) :: cells x l ++ cells x r
  end.

Fixpoint elems (t : tree) : list (ptr * K) :=
  match t with Leaf => [] | Node x k l r => (x, k) :: elems l ++ elems r end.

(** [t] is what the complete tree with positions [1 .. n] has at position
    [i] and below; the children of position [i] are [2 i] and [2 i + 1]. *)
Fixpoint shape_at (i n : Z) (t : tree) : Prop :=
  match t with
  | Leaf => n < i
  | Node _ _ l r => i <= n /\ shape_at (2 * i) n l /\ shape_at (2 * i + 1) n r
  end.

(** No key at the root of [t] is below [k]. *)
Definition above (k : K) (t : tree) : Prop :=
  match t with Leaf => True | Node _ k' _ _ => key_lt k' k = false end.
Fixpoint ordered (t : tree) : Prop :=
  match t with
  | Leaf => True
  | Node _ k l r => above k l /\ above k r /\ ordered l /\ ordered r
  end.

(** *** The operations on trees *)

(** The bits of [N] below bit [rem], from the top: the path to position [N]
    from its ancestor [rem] levels up. *)
Fixpoint path (rem : nat) (N : Z) : list bool :=
  match rem with O => [] | S rem => Z.testbit N (Z.of_nat rem) :: path rem N end.
Definition depth (N : Z) : nat := Z.to_nat (Z.log2 N).

(** [x] replaces the root, which moves down the path. *)
Fixpoint shift (b : list bool) (x : ptr) (k : K) (t : tree) : tree :=
  match b, t with
  | [], _ | _, Leaf => Node x k Leaf Leaf
  | true :: b, Node y ky l r => Node x k l (shift b y ky r)
  | false :: b, Node y ky l r => Node x k (shift b y ky l) r
  end.

Fixpoint insert_at (b : list bool) (x : ptr) (k : K) (t : tree) : tree :=
  match b, t with
  | [], _ | _, Leaf => Node x k Leaf Leaf
  | d :: b', Node y ky l r =>
      if key_lt k ky then shift b x k t
      else if d then Node y ky l (insert_at b' x k r) else Node y ky (insert_at b' x k l) r
  end.

Fixpoint remove_at (b : list bool) (t : tree) : tree :=
  match b, t with
  | [], _ | _, Leaf => Leaf
  | true :: b, Node y ky l r => Node y ky l (remove_at b r)
  | false :: b, Node y ky l r => Node y ky (remove_at b l) r
  end.

Fixpoint leaf_at (b : list bool) (t : tree) : option (ptr * K) :=
  match b, t with
  | _, Leaf => None
  | [], Node x k _ _ => Some (x, k)
  | true :: b, Node _ _ _ r => leaf_at b r
  | false :: b, Node _ _ l _ => leaf_at b l
  end.

(** The root of [t] is replaced by [x], which sinks to its place. *)
Fixpoint sink (x : ptr) (k : K) (t : tree) : tree :=
  match t with
  | Leaf => Leaf
  | Node _ _ l r =>
      match l, r with
      | Leaf, _ => Node x k l r
      | Node y ky _ _, Node z kz _ _ =>
          if key_lt kz ky then if key_lt kz k then Node z kz l (sink x k r) else Node x k l r
          else if key_lt ky k then Node y ky (sink x k l) r else Node x k l r
      | Node y ky _ _, Leaf =>
          if key_lt ky k then Node y ky (sink x k l) r else Node x k l r
      end
  end.

(** *** A tree around a hole, innermost node first *)

Inductive frame := FLeft (x : ptr) (k : K) (r : tree) | FRight (x : ptr) (k : K) (l : tree).
Definition zipper := list frame.

Definition fill (t : tree) (f : frame) : tree :=
  match f with FLeft x k r => Node x k t r | FRight x k l => Node x k l t end.
Definition plug (c : zipper) (t : tree) : tree := fold_left fill c t.

Definition parent (c : zipper) : ptr :=
  match c with [] => nullptr | FLeft x _ _ :: _ | FRight x _ _ :: _ => x end.
Definition slot_of (c : zipper) : ref :=
  match c with [] => RRoot | FLeft x _ _ :: _ => RLeft x | FRight x _ _ :: _ => RRight x end.

(** The cells of the surroundings of a hole that contains the pointer [h]. *)
Fixpoint zcells (h : ptr) (c : zipper) : list (ptr * node) :=
  match c with
  | [] => []
  | FLeft x k r :: c => (x, mkNode k (parent c) h (root r)) :: cells x r ++ zcells x c
  | FRight x k l :: c => (x, mkNode k (parent c) (root l) h) :: cells x l ++ zcells x c
  end.
Fixpoint zroot (h : ptr) (c : zipper) : ptr :=
  match c with [] => h | FLeft x _ _ :: c | FRight x _ _ :: c => zroot x c end.

(** [x], with children [l] and [r], rises from the hole as long as its key is
    below its parent's. *)
Fixpoint up (x : ptr) (k : K) (l r : tree) (c : zipper) : tree :=
  match c with
  | [] => Node x k l r
  | FLeft y ky s :: c' =>
      if key_lt k ky then up x k (Node y ky l r) s c' else plug c (Node x k l r)
  | FRight y ky s :: c' =>
      if key_lt k ky then up x k s (Node y ky l r) c' else plug c (Node x k l r)
  end.

(** ** The state of a heap

    [hp s L rt n]: the memory of [s] contains the cells [L], the root pointer
    is [rt] and the size is [n]. *)
Definition hp (s : heap) (L : list (ptr * node)) (rt : ptr) (n : Z) : Prop :=
  holds (mem s) L /\ __root_ s = rt /\ __size_ s = n.

(** [heap_rep s t F]: [s] is the heap [t], next to the cells [F]. *)
Definition heap_rep (s : heap) (t : tree) (F : list (ptr * node)) : Prop :=
  hp s (cells nullptr t ++ F) (root t) (Z.of_nat (length (elems t))) /\
  shape_at 1 (Z.of_nat (length (elems t))) t /\ ordered t.

(** ** Executing memory accesses on symbolic heaps *)

Lemma hp_perm s L L' rt n : hp s L rt n -> L ≡ₚ L' -> hp s L' rt n.
Proof. unfold hp. by intros ? <-. Qed.

Lemma returns_on_mem {A} (c : M (gmap ptr node) A) s (Q : A -> heap -> Prop) :
  returns c (mem s) (fun a m => Q a (mkHeap m (__root_ s) (__size_ s))) ->
  returns (on_mem c) s Q.
Proof. unfold returns, on_mem. by destruct (c (mem s)) as [[]|]. Qed.

Lemma returns_field {A} (f : node -> A) s L rt n x nd (Q : A -> heap -> Prop) :
  hp s L rt n -> has x nd L -> Q (f nd) s ->
  returns (on_mem (nd ← load x; mret (f nd))) s Q.
Proof.
  intros (H1 & <- & <-) Hx HQ. apply returns_on_mem, returns_bind.
  eapply returns_load_holds; [done..|]. apply returns_ret. by destruct s.
Qed.

Lemma returns_put_field f s L L' rt n x nd (Q : unit -> heap -> Prop) :
  hp s L rt n -> upd x nd (f nd) L L' -> (forall s', hp s' L' rt n -> Q tt s') ->
  returns (on_mem (update x f)) s Q.
Proof.
  intros (H1 & <- & <-) Hu HQ. apply returns_on_mem.
  eapply returns_update_holds; [done..|]. intros m' Hm'. by apply HQ.
Qed.

Lemma returns_get_root s L rt n (Q : ptr -> heap -> Prop) :
  hp s L rt n -> Q rt s -> returns get_root s Q.
Proof. by intros (_ & <- & _). Qed.
Lemma returns_put_root v s L rt n (Q : unit -> heap -> Prop) :
  hp s L rt n -> (forall s', hp s' L v n -> Q tt s') -> returns (put_root v) s Q.
Proof. intros (? & _ & ?) HQ. by apply HQ. Qed.
Lemma returns_get_size s L rt n (Q : Z -> heap -> Prop) :
  hp s L rt n -> Q n s -> returns get_size s Q.
Proof. by intros (_ & _ & <-). Qed.
Lemma returns_put_size v s L rt n (Q : unit -> heap -> Prop) :
  hp s L rt n -> (forall s', hp s' L rt v -> Q tt s') -> returns (put_size v) s Q.
Proof. intros (? & ? & _) HQ. by apply HQ. Qed.

(** Writing and reading the pointer to a hole. *)
Lemma returns_write_hole c h v s L L0 n (Q : unit -> heap -> Prop) :
  hp s L (zroot h c) n -> pull (zcells h c) L L0 ->
  (forall s', hp s' (zcells v c ++ L0) (zroot v c) n -> Q tt s') ->
  returns (write_ref (slot_of c) v) s Q.
Proof.
  intros H1 HL%pull_perm HQ. eapply hp_perm in H1; [|exact HL].
  destruct c as [|[x k r|x k l] c]; simpl in *.
  - eapply returns_put_root; eauto.
  - eapply returns_put_field; [done|upd_search|]; eauto.
  - eapply returns_put_field; [done|upd_search|]; eauto.
Qed.

Lemma returns_read_hole c h s L L0 n (Q : ptr -> heap -> Prop) :
  hp s L (zroot h c) n -> pull (zcells h c) L L0 -> Q h s ->
  returns (read_ref (slot_of c)) s Q.
Proof.
  intros H1 HL%pull_perm HQ. eapply hp_perm in H1; [|exact HL].
  destruct c as [|[x k r|x k l] c]; simpl in *.
  - eapply returns_get_root; eauto.
  - eapply returns_field; [done|has_search|]; eauto.
  - eapply returns_field; [done|has_search|]; eauto.
Qed.

Ltac hstep :=
  lazymatch goal with
  | |- returns (mbind _ _) _ _ => apply returns_bind
  | |- returns (mret _) _ _ => apply returns_ret
  | |- returns (assert (bool_decide _)) _ _ =>
      apply returns_assert; [apply bool_decide_eq_true_2; done|]
  | H : hp ?s _ _ _ |- returns (get_key _) ?s _ =>
      eapply (returns_field _Key); [exact H|solve [has_search]|]; cbn [_Key _Prev _Left _Right]
  | H : hp ?s _ _ _ |- returns (get_prev _) ?s _ =>
      eapply (returns_field _Prev); [exact H|solve [has_search]|]; cbn [_Key _Prev _Left _Right]
  | H : hp ?s _ _ _ |- returns (get_left _) ?s _ =>
      eapply (returns_field _Left); [exact H|solve [has_search]|]; cbn [_Key _Prev _Left _Right]
  | H : hp ?s _ _ _ |- returns (get_right _) ?s _ =>
      eapply (returns_field _Right); [exact H|solve [has_search]|]; cbn [_Key _Prev _Left _Right]
  | H : hp ?s _ _ _ |- returns (put_prev _ _) ?s _ =>
      eapply returns_put_field; [exact H|solve [upd_search]|]; clear H; intros ? H; cbn [_Key _Prev _Left _Right app] in H
  | H : hp ?s _ _ _ |- returns (put_left _ _) ?s _ =>
      eapply returns_put_field; [exact H|solve [upd_search]|]; clear H; intros ? H; cbn [_Key _Prev _Left _Right app] in H
  | H : hp ?s _ _ _ |- returns (put_right _ _) ?s _ =>
      eapply returns_put_field; [exact H|solve [upd_search]|]; clear H; intros ? H; cbn [_Key _Prev _Left _Right app] in H
  | H : hp ?s _ _ _ |- returns get_root ?s _ => eapply returns_get_root; [exact H|]
  | H : hp ?s _ _ _ |- returns get_size ?s _ => eapply returns_get_size; [exact H|]
  | H : hp ?s _ _ _ |- returns (put_root _) ?s _ =>
      eapply returns_put_root; [exact H|]; clear H; intros ? H
  | H : hp ?s _ _ _ |- returns (put_size _) ?s _ =>
      eapply returns_put_size; [exact H|]; clear H; intros ? H
  | H : hp ?s _ _ _ |- returns (write_ref (slot_of _) _) ?s _ =>
      eapply returns_write_hole; [exact H|solve [pull_search]|]; clear H; intros ? H; cbn [_Key _Prev _Left _Right app] in H
  end.
Ltac hsteps := repeat hstep.
Ltac hnorm H := cbn [cells zcells root parent zroot] in H; repeat (rewrite <- app_assoc in H || rewrite <- app_comm_cons in H || rewrite app_nil_l in H).

(** Every node of a heap is at a non-null address. *)
Lemma hp_nonnull s L rt n x nd : hp s L rt n -> has x nd L -> x <> nullptr.
Proof. intros [H1 _] Hx%has_elem. by destruct (holds_elem _ _ _ _ H1 Hx). Qed.

(** ** Paths *)

Definition mask_of (rem : nat) : Z := match rem with O => 0 | S r => 2 ^ Z.of_nat r end.

Lemma mask_of_S rem : mask_of (S rem) <> 0.
Proof. simpl. pose proof (Z.pow_pos_nonneg 2 (Z.of_nat rem)). lia. Qed.

Lemma mask_of_shift rem : Z.shiftr (mask_of (S rem)) 1 = mask_of rem.
Proof.
  rewrite Z.shiftr_div_pow2 by lia. destruct rem as [|rem]; [done|]. simpl mask_of.
  rewrite Nat2Z.inj_succ, Z.pow_succ_r by lia. rewrite Z.mul_comm. apply Z.div_mul. lia.
Qed.

Lemma mask_of_bit rem N : Z.land (mask_of (S rem)) N <> 0 <-> Z.testbit N (Z.of_nat rem) = true.
Proof.
  simpl. rewrite Z.land_comm. split.
  - intros Hl. destruct (Z.testbit N (Z.of_nat rem)) eqn:E; [done|]. destruct Hl.
    apply Z.bits_inj'. intros i Hi. rewrite Z.land_spec, Z.bits_0, Z.pow2_bits_eqb by lia.
    destruct (Z.eqb_spec (Z.of_nat rem) i) as [<-|]; [by rewrite E|by rewrite andb_false_r].
  - intros E Hl. apply (f_equal (fun z => Z.testbit z (Z.of_nat rem))) in Hl.
    rewrite Z.land_spec, E, Z.bits_0, Z.pow2_bits_true in Hl by lia. done.
Qed.

Lemma child_ref_bit rem N p :
  child_ref (mask_of (S rem)) N p = if Z.testbit N (Z.of_nat rem) then RRight p else RLeft p.
Proof.
  unfold child_ref. case_decide as E.
  - apply mask_of_bit in E. by rewrite E.
  - destruct (Z.testbit _ _) eqn:Eb; [|done]. by apply mask_of_bit in Eb.
Qed.

Lemma path_bit_mask_spec N : 1 <= N < 2 ^ 63 -> __path_bit_mask N = mask_of (depth N).
Proof.
  intros HN. unfold __path_bit_mask, bit_ceil, depth.
  rewrite wrap_small by (unfold is_word; lia).
  rewrite Z.log2_up_eqn by lia. replace (Z.pred (N + 1)) with N by lia.
  pose proof (Z.log2_nonneg N). rewrite Z.shiftr_div_pow2 by lia.
  destruct (Z.to_nat (Z.log2 N)) as [|d] eqn:E.
  - by replace (Z.log2 N) with 0 by lia.
  - replace (Z.succ (Z.log2 N)) with (Z.of_nat d + 2) by lia. simpl.
    rewrite Z.pow_add_r by lia. apply Z.div_mul. lia.
Qed.

(** The ancestors of position [N]. *)
Lemma ancestor_step N rem :
  0 <= N ->
  N / 2 ^ Z.of_nat rem = 2 * (N / 2 ^ Z.of_nat (S rem)) + Z.b2z (Z.testbit N (Z.of_nat rem)).
Proof.
  intros HN. rewrite Z.testbit_spec' by lia.
  assert (N / 2 ^ Z.of_nat (S rem) = N / 2 ^ Z.of_nat rem / 2) as ->.
  { rewrite Nat2Z.inj_succ, Z.pow_succ_r, (Z.mul_comm 2), Z.div_div by lia. done. }
  apply Z.div_mod. lia.
Qed.

Lemma ancestor_top N : 1 <= N -> N / 2 ^ Z.of_nat (depth N) = 1.
Proof.
  intros HN. unfold depth. pose proof (Z.log2_nonneg N).
  rewrite Z2Nat.id by done. pose proof (Z.log2_spec N ltac:(lia)) as [H1 H2].
  rewrite Z.pow_succ_r in H2 by done.
  symmetry. apply (Z.div_unique _ _ _ (N - 2 ^ Z.log2 N)); lia.
Qed.

(** ** [_M_push] *)

(** The path [b] leads to the first vacant position of a complete tree. *)
Fixpoint vacant (b : list bool) (t : tree) : Prop :=
  match b, t with
  | [], Leaf => True
  | true :: b, Node _ _ l r => l <> Leaf /\ vacant b r
  | false :: b, Node _ _ l r => (b = [] -> r = Leaf) /\ vacant b l
  | _, _ => False
  end.

Lemma root_shift b x k t : root (shift b x k t) = x.
Proof. by destruct b as [|[] b], t. Qed.

Lemma hp_root_nonnull s q t L rt n : hp s (cells q t ++ L) rt n -> t <> Leaf -> root t <> nullptr.
Proof. destruct t; [done|]. intros H1 _. simpl in H1. eapply hp_nonnull; [done|]. has_search. Qed.

(** One round of the inner loop, per direction. *)
Lemma shift_round_right s c x kx a1 a2 y ky l r n F (Q : ptr -> heap -> Prop) :
  l <> Leaf ->
  hp s (zcells x c ++ (x, mkNode kx (parent c) a1 a2) :: cells x (Node y ky l r) ++ F) (zroot x c) n ->
  (forall s' al ar,
    hp s' (zcells y (FRight x kx l :: c) ++ (y, mkNode ky x al ar) :: cells y r ++ F) (zroot x c) n ->
    (r = Leaf -> ar = nullptr) -> Q (root r) s') ->
  returns (put_right x y;; l1 ← get_left y; put_left x l1;;
           l2 ← get_left y; put_prev l2 x;; get_right y) s Q.
Proof.
  intros Hl H1 HQ. simpl in H1. destruct l as [|lx lk ll lr]; [done|]. hnorm H1. hsteps.
  eapply (HQ _ lx (root r)); [eapply hp_perm; [exact H1|]; simpl; perm|by intros ->].
Qed.

Lemma shift_round_left s c x kx a1 a2 y ky l r n F (Q : ptr -> heap -> Prop) :
  hp s (zcells x c ++ (x, mkNode kx (parent c) a1 a2) :: cells x (Node y ky l r) ++ F) (zroot x c) n ->
  (forall s' al,
    hp s' (zcells y (FLeft x kx r :: c) ++ (y, mkNode ky x al (root r)) :: cells y l ++ F) (zroot x c) n ->
    Q (root l) s') ->
  returns (r1 ← get_right y; put_right x r1;; put_left x y;; r2 ← get_right y;
           (if decide (r2 <> nullptr) then put_prev r2 x else mret tt);; get_left y) s Q.
Proof.
  intros H1 HQ. simpl in H1. hsteps. destruct r as [|rx rk rl rr]; hnorm H1; cbn [root] in *.
  - rewrite decide_False by tauto. hsteps. eapply HQ. eapply hp_perm; [exact H1|]. simpl. perm.
  - rewrite decide_True by (eapply hp_nonnull; [exact H1|]; has_search).
    hsteps. eapply HQ. eapply hp_perm; [exact H1|]. simpl. perm.
Qed.

(** The loop leaves in the hole a tree whose last node [z] still has an old
    left pointer [al]. *)
Lemma shift_loop_spec N rem fuel s c x kx a1 a2 t n F :
  (rem < fuel)%nat -> vacant (path (S rem) N) t ->
  hp s (zcells x c ++ (x, mkNode kx (parent c) a1 a2) :: cells x t ++ F) (zroot x c) n ->
  returns (shift_loop fuel x (root t) (mask_of (S rem)) N) s (fun z s' =>
    exists kz q al K,
      cells (parent c) (shift (path (S rem) N) x kx t) ≡ₚ (z, mkNode kz q nullptr nullptr) :: K /\
      hp s' (zcells x c ++ (z, mkNode kz q al nullptr) :: K ++ F) (zroot x c) n).
Proof.
  revert rem s c x kx a1 a2 t. induction fuel as [|fuel IH]; intros rem s c x kx a1 a2 t Hf Hv H1; [lia|].
  simpl in Hv. destruct t as [|y ky l r]; [by destruct (Z.testbit _ _)|].
  cbn [shift_loop root path shift]. apply returns_bind.
  rewrite mask_of_shift. pose proof (mask_of_bit rem N) as Hbit.
  destruct (Z.testbit N (Z.of_nat rem)).
  - destruct Hv as [Hl Hv]. rewrite decide_True by by apply Hbit.
    eapply shift_round_right; [done|exact H1|]. intros s' al ar H2 Har.
    destruct rem as [|rem].
    + destruct r; [|done]. rewrite decide_False by (simpl; lia). apply returns_ret.
      exists ky, x, al. eexists. split; [simpl; perm|].
      eapply hp_perm; [exact H2|]. rewrite Har by done. simpl. perm.
    + rewrite decide_True by apply mask_of_S.
      eapply returns_mono; [eapply IH; [lia|exact Hv|exact H2]|].
      intros z s2 (kz & q & al' & K' & E & H3). exists kz, q, al'.
      eexists. split.
      * cbn [cells]. rewrite root_shift. cbn [parent] in E. rewrite E. perm.
      * eapply hp_perm; [exact H3|]. simpl. perm.
  - destruct Hv as [Hr Hv]. rewrite decide_False by (intros E; by apply Hbit in E).
    eapply shift_round_left; [exact H1|]. intros s' al H2.
    destruct rem as [|rem].
    + destruct l; [|done]. rewrite Hr in * by done. rewrite decide_False by (simpl; lia). apply returns_ret.
      exists ky, x, al. eexists. split; [simpl; perm|].
      eapply hp_perm; [exact H2|]. simpl. perm.
    + rewrite decide_True by apply mask_of_S.
      eapply returns_mono; [eapply IH; [lia|exact Hv|exact H2]|].
      intros z s2 (kz & q & al' & K' & E & H3). exists kz, q, al'.
      eexists. split.
      * cbn [cells]. rewrite root_shift. cbn [parent] in E. rewrite E. perm.
      * eapply hp_perm; [exact H3|]. simpl. perm.
Qed.

Lemma push_loop_spec N rem fuel s c x kx a0 a1 a2 t n F :
  (rem <= fuel)%nat -> vacant (path rem N) t ->
  hp s (zcells (root t) c ++ cells (parent c) t ++ (x, mkNode kx a0 a1 a2) :: F) (zroot (root t) c) n ->
  returns (push_loop fuel x (slot_of c) (root t) (parent c) (mask_of rem) N) s (fun _ s' =>
    let t' := insert_at (path rem N) x kx t in
    hp s' (zcells (root t') c ++ cells (parent c) t' ++ F) (zroot (root t') c) n).
Proof.
  revert fuel s c t. induction rem as [|rem IH]; intros fuel s c t Hf Hv H1.
  { destruct t; [|done].
    destruct fuel; cbn [push_loop mask_of]; rewrite decide_False by tauto; hnorm H1; hsteps;
      (eapply hp_perm; [exact H1|]; simpl; perm). }
  destruct fuel as [|fuel]; [lia|].
  pose proof (mask_of_S rem) as Hm. pose proof Hv as Hv0. simpl in Hv.
  destruct t as [|y ky l r]; [by destruct (Z.testbit _ _)|]. hnorm H1.
  cbn [push_loop insert_at path root]. rewrite decide_True by done.
  rewrite mask_of_shift, child_ref_bit. hsteps. destruct (key_lt kx ky) eqn:Hlt.
  - hsteps. cbn [_Key _Left _Right _Prev] in H1.
    eapply returns_mono.
    { eapply (shift_loop_spec N rem (S fuel) _ c x kx a1 a2 (Node y ky l r) n F); [lia|exact Hv0|].
      eapply hp_perm; [exact H1|]. simpl. perm. }
    intros z s1 (kz & q & al & K' & E & H2). hsteps. clear H1.
    change (Z.testbit N (Z.of_nat rem) :: path rem N) with (path (S rem) N).
    rewrite root_shift. eapply hp_perm; [exact H2|]. rewrite E. perm.
  - destruct (Z.testbit N (Z.of_nat rem)).
    + destruct Hv as [Hl Hv]. hsteps. cbn [read_ref]. hsteps.
      eapply returns_mono; [eapply (IH fuel _ (FRight y ky l :: c) r); [lia|exact Hv|]|].
      * eapply hp_perm; [exact H1|]. simpl. perm.
      * intros ? s' H2. eapply hp_perm; [exact H2|]. simpl. perm.
    + destruct Hv as [Hr Hv]. hsteps. cbn [read_ref]. hsteps.
      eapply returns_mono; [eapply (IH fuel _ (FLeft y ky r :: c) l); [lia|exact Hv|]|].
      * eapply hp_perm; [exact H1|]. simpl. perm.
      * intros ? s' H2. eapply hp_perm; [exact H2|]. simpl. perm.
Qed.

(** ** Complete trees *)

Lemma ancestor_inj N (a b : nat) :
  0 <= N -> N / 2 ^ Z.of_nat a = N / 2 ^ Z.of_nat b -> 1 <= N / 2 ^ Z.of_nat a -> a = b.
Proof.
  intros HN.
  assert (forall a b : nat, (a < b)%nat -> 1 <= N / 2 ^ Z.of_nat a ->
    N / 2 ^ Z.of_nat b < N / 2 ^ Z.of_nat a) as Hlt.
  { clear a b. intros a b Hab Ha.
    replace (Z.of_nat b) with (Z.of_nat a + Z.of_nat (b - a)) by lia.
    rewrite Z.pow_add_r, <- Z.div_div by lia.
    apply Z.div_lt; [lia|]. apply (Z.pow_gt_1 2); lia. }
  intros E Ha. destruct (Nat.lt_trichotomy a b) as [Hc|[|Hc]]; [|done|];
    apply Hlt in Hc; lia.
Qed.

(** Position [N] is not below position [j]. *)
Definition off_path (N j : Z) : Prop := forall r : nat, N / 2 ^ Z.of_nat r <> j.

Lemma off_path_child N j j' : 0 <= N -> off_path N j -> j' = 2 * j \/ j' = 2 * j + 1 -> off_path N j'.
Proof.
  intros HN Ho Hj r E. apply (Ho (S r)). pose proof (ancestor_step N r HN) as Hs.
  destruct (Z.testbit N (Z.of_nat r)); simpl in Hs; lia.
Qed.

Lemma off_path_self N j : off_path N j -> N <> j.
Proof. intros Ho ->. apply (Ho 0%nat). apply Z.div_1_r. Qed.

Lemma sibling_off_path N rem j :
  0 <= N -> 1 <= N / 2 ^ Z.of_nat (S rem) ->
  j = 2 * (N / 2 ^ Z.of_nat (S rem)) + Z.b2z (negb (Z.testbit N (Z.of_nat rem))) ->
  off_path N j.
Proof.
  intros HN Hi -> r E. pose proof (ancestor_step N rem HN) as H1. pose proof (ancestor_step N r HN) as H2.
  assert (N / 2 ^ Z.of_nat (S r) = N / 2 ^ Z.of_nat (S rem)) as E2.
  { destruct (Z.testbit N (Z.of_nat rem)), (Z.testbit N (Z.of_nat r)); simpl in *; lia. }
  apply ancestor_inj in E2; [|done|lia]. assert (r = rem) as -> by lia.
  destruct (Z.testbit N (Z.of_nat rem)); simpl in *; lia.
Qed.

Lemma shape_grow N j t : 0 <= N -> off_path N j -> shape_at j (N - 1) t -> shape_at j N t.
Proof.
  intros HN. revert j. induction t as [|x k l IHl r IHr]; intros j Ho; simpl.
  - pose proof (off_path_self _ _ Ho). lia.
  - intros (? & ? & ?). split_and!; [lia|apply IHl|apply IHr]; eauto using off_path_child.
Qed.

Lemma shape_shrink N j t : 0 <= N -> off_path N j -> shape_at j N t -> shape_at j (N - 1) t.
Proof.
  intros HN. revert j. induction t as [|x k l IHl r IHr]; intros j Ho; simpl; [lia|].
  pose proof (off_path_self _ _ Ho).
  intros (? & ? & ?). split_and!; [lia|apply IHl|apply IHr]; eauto using off_path_child.
Qed.

Lemma ancestor_half N rem : 0 <= N -> N / 2 ^ Z.of_nat (S rem) <= N / 2.
Proof.
  intros HN. rewrite Nat2Z.inj_succ, Z.pow_succ_r, <- Z.div_div by lia.
  apply Z.div_le_upper_bound; [lia|].
  assert (0 < 2 ^ Z.of_nat rem) by (apply Z.pow_pos_nonneg; lia).
  assert (0 <= N / 2) by (apply Z.div_pos; lia). nia.
Qed.

Lemma ancestor_le N rem : 0 <= N -> N / 2 ^ Z.of_nat rem <= N.
Proof.
  intros HN. apply Z.div_le_upper_bound; [apply Z.pow_pos_nonneg; lia|].
  assert (0 < 2 ^ Z.of_nat rem) by (apply Z.pow_pos_nonneg; lia). nia.
Qed.

(** In a complete tree with [N - 1] positions, the path leads to a vacancy. *)
Lemma shape_vacant N rem t :
  1 <= N -> shape_at (N / 2 ^ Z.of_nat rem) (N - 1) t -> vacant (path rem N) t.
Proof.
  intros HN. revert t. induction rem as [|rem IH]; intros t.
  - rewrite Z.div_1_r. destruct t; simpl; [done|lia].
  - pose proof (ancestor_step N rem ltac:(lia)) as Hs. pose proof (ancestor_half N rem ltac:(lia)).
    pose proof (ancestor_le N rem ltac:(lia)).
    assert (N / 2 < N) by (apply Z.div_lt; lia).
    destruct t as [|x k l r]; simpl shape_at; [intros ?; lia|]. intros (Hi & Hl & Hr). simpl.
    destruct (Z.testbit N (Z.of_nat rem)); simpl in Hs.
    + split; [|apply IH; by rewrite Hs]. intros ->. simpl in Hl. lia.
    + split; [|apply IH; by rewrite Hs, Z.add_0_r]. intros Hb. destruct rem; [|done].
      rewrite Z.div_1_r in Hs. destruct r; [done|]. simpl in Hr. lia.
Qed.

(** The shape lemmas below go down the path; [sub] is what happens at the
    end of it. *)
Lemma shape_insert_shift N rem x k t :
  1 <= N -> 1 <= N / 2 ^ Z.of_nat rem -> shape_at (N / 2 ^ Z.of_nat rem) (N - 1) t ->
  shape_at (N / 2 ^ Z.of_nat rem) N (insert_at (path rem N) x k t) /\
  shape_at (N / 2 ^ Z.of_nat rem) N (shift (path rem N) x k t).
Proof.
  intros HN. revert x k t. induction rem as [|rem IH]; intros x k t Hi Hsh.
  - rewrite Z.div_1_r in *. simpl. split; lia.
  - pose proof (ancestor_step N rem ltac:(lia)) as Hs. pose proof (ancestor_half N rem ltac:(lia)).
    assert (N / 2 < N) by (apply Z.div_lt; lia).
    pose proof (sibling_off_path N rem _ ltac:(lia) Hi eq_refl) as Ho.
    destruct t as [|y ky l r]; simpl in Hsh; [lia|]. destruct Hsh as (_ & Hl & Hr).
    simpl. destruct (Z.testbit N (Z.of_nat rem)); simpl in Hs, Ho.
    + rewrite Z.add_0_r in Ho. apply shape_grow in Hl; [|lia|done].
      rewrite <- Hs in Hr. split; [destruct (key_lt k ky)|]; simpl; rewrite <- Hs;
        (split_and!; [lia|done|apply IH; [lia|done]]).
    + apply shape_grow in Hr; [|lia|done]. rewrite Z.add_0_r in Hs.
      rewrite <- Hs in Hl, Hr. split; [destruct (key_lt k ky)|]; simpl; rewrite <- Hs;
        (split_and!; [lia|apply IH; [lia|done]|done]).
Qed.

(** The path [b] leads to a node without children. *)
Fixpoint final (b : list bool) (t : tree) : Prop :=
  match b, t with
  | _, Leaf => False
  | [], Node _ _ l r => l = Leaf /\ r = Leaf
  | true :: b, Node _ _ _ r => final b r
  | false :: b, Node _ _ l _ => final b l
  end.

Lemma shape_final N rem t :
  1 <= N -> shape_at (N / 2 ^ Z.of_nat rem) N t -> final (path rem N) t.
Proof.
  intros HN. revert t. induction rem as [|rem IH]; intros t.
  - rewrite Z.div_1_r. destruct t as [|x k l r]; simpl; [lia|]. intros (_ & Hl & Hr).
    destruct l, r; simpl in *; (done || lia).
  - pose proof (ancestor_step N rem ltac:(lia)) as Hs. pose proof (ancestor_half N rem ltac:(lia)).
    assert (N / 2 < N) by (apply Z.div_lt; lia).
    destruct t as [|x k l r]; simpl shape_at; [lia|]. intros (Hi & Hl & Hr). simpl.
    destruct (Z.testbit N (Z.of_nat rem)); simpl in Hs; apply IH; rewrite Hs, ?Z.add_0_r; done.
Qed.

Lemma shape_remove N rem t :
  1 <= N -> 1 <= N / 2 ^ Z.of_nat rem -> shape_at (N / 2 ^ Z.of_nat rem) N t ->
  shape_at (N / 2 ^ Z.of_nat rem) (N - 1) (remove_at (path rem N) t).
Proof.
  intros HN. revert t. induction rem as [|rem IH]; intros t Hi Hsh.
  - rewrite Z.div_1_r in *. simpl. lia.
  - pose proof (ancestor_step N rem ltac:(lia)) as Hs. pose proof (ancestor_half N rem ltac:(lia)).
    assert (N / 2 < N) by (apply Z.div_lt; lia).
    pose proof (sibling_off_path N rem _ ltac:(lia) Hi eq_refl) as Ho.
    destruct t as [|y ky l r]; simpl in Hsh; [lia|]. destruct Hsh as (_ & Hl & Hr).
    simpl. destruct (Z.testbit N (Z.of_nat rem)); simpl in Hs, Ho.
    + rewrite Z.add_0_r in Ho. apply shape_shrink in Hl; [|lia|done].
      rewrite <- Hs in Hr. simpl. rewrite <- Hs. split_and!; [lia|done|apply IH; [lia|done]].
    + apply shape_shrink in Hr; [|lia|done]. rewrite Z.add_0_r in Hs.
      rewrite <- Hs in Hl, Hr. simpl. rewrite <- Hs. split_and!; [lia|apply IH; [lia|done]|done].
Qed.

(** ** Order and contents *)

Lemma above_le k k' t : key_lt k' k = false -> above k' t -> above k t.
Proof. destruct t; simpl; [done|]. eauto using key_le_trans. Qed.

Lemma ordered_shift b x k t : ordered t -> above k t -> ordered (shift b x k t) .
Proof.
  revert x k t. induction b as [|d b IH]; intros x k t Ht Hk; [simpl; tauto|].
  destruct t as [|y ky l r]; [destruct d; simpl; tauto|]. simpl in *.
  destruct Ht as (? & ? & ? & ?).
  assert (forall t, above ky t -> above k (shift b y ky t)) as Hab.
  { intros t _. unfold above. destruct (shift b y ky t) eqn:E; [done|].
    assert (k0 = ky) as -> by (destruct b as [|[]], t; by inversion E). done. }
  destruct d; simpl; split_and!; eauto using above_le.
Qed.

Lemma above_insert b x k t k0 :
  above k0 t -> key_lt k k0 = false -> above k0 (insert_at b x k t).
Proof.
  destruct b as [|d b], t as [|y ky l r]; simpl; try done.
  destruct (key_lt k ky), d; simpl; done.
Qed.

Lemma ordered_insert b x k t : ordered t -> ordered (insert_at b x k t).
Proof.
  revert t. induction b as [|d b IH]; intros t Ht; [simpl; tauto|].
  destruct t as [|y ky l r]; [simpl; tauto|]. cbn [insert_at].
  destruct (key_lt k ky) eqn:E.
  - apply ordered_shift; [done|]. simpl. by apply key_lt_asym.
  - destruct Ht as (? & ? & ? & ?). destruct d; simpl; split_and!; auto using above_insert.
Qed.

Lemma elems_shift b x k t : vacant b t -> elems (shift b x k t) ≡ₚ (x, k) :: elems t.
Proof.
  revert x k t. induction b as [|d b IH]; intros x k t Hv; [by destruct t|].
  destruct t as [|y ky l r]; [by destruct d|]. destruct d, Hv as [_ Hv]; simpl; rewrite IH by done; perm.
Qed.

Lemma elems_insert b x k t : vacant b t -> elems (insert_at b x k t) ≡ₚ (x, k) :: elems t.
Proof.
  revert t. induction b as [|d b IH]; intros t Hv; [by destruct t|].
  destruct t as [|y ky l r]; [by destruct d|]. cbn [insert_at].
  destruct (key_lt k ky); [by apply elems_shift|].
  destruct d, Hv as [_ Hv]; simpl; rewrite IH by done; perm.
Qed.

Lemma remove_final b t : final b t -> exists y ky,
  leaf_at b t = Some (y, ky) /\ elems t ≡ₚ (y, ky) :: elems (remove_at b t).
Proof.
  revert t. induction b as [|d b IH]; intros [|x k l r] Hf; try done; try by destruct d.
  - destruct Hf as [-> ->]. by exists x, k.
  - destruct d; destruct (IH _ Hf) as (y & ky & ? & E); exists y, ky; (split; [done|]);
      simpl; rewrite E; perm.
Qed.

Lemma above_remove k b t : above k t -> above k (remove_at b t).
Proof. by destruct b as [|[] b], t. Qed.

Lemma ordered_remove b t : ordered t -> ordered (remove_at b t).
Proof.
  revert t. induction b as [|d b IH]; intros [|x k l r] Ht; try done; try by destruct d.
  destruct Ht as (? & ? & ? & ?), d; simpl; auto using above_remove.
Qed.

(** The root is a least element. *)
Lemma above_elems k t y ky :
  ordered t -> above k t -> (y, ky) ∈ elems t -> key_lt ky k = false.
Proof.
  revert k. induction t as [|x k' l IHl r IHr]; intros k Ho Hk; simpl.
  - by intros ?%not_elem_of_nil.
  - destruct Ho as (? & ? & ? & ?). simpl in Hk. rewrite elem_of_cons, elem_of_app.
    intros [[= -> ->]|[Hin|Hin]]; [done|..]; (eapply key_le_trans; [exact Hk|eauto]).
Qed.

(** *** Sinking *)


(** [sink] compares [x] with the lesser child; [sink_cases] says what it does
    with each outcome. *)
Inductive sunk (x : ptr) (k : K) (l r : tree) : tree -> Prop :=
  | sunk_here : above k l -> above k r -> sunk x k l r (Node x k l r)
  | sunk_left y ky l1 l2 : l = Node y ky l1 l2 -> key_lt ky k = true -> above ky r ->
      sunk x k l r (Node y ky (sink x k l) r)
  | sunk_right z kz r1 r2 : r = Node z kz r1 r2 -> key_lt kz k = true -> above kz l ->
      sunk x k l r (Node z kz l (sink x k r)).

Lemma sink_cases x k y ky l r :
  (l = Leaf -> r = Leaf) -> sunk x k l r (sink x k (Node y ky l r)).
Proof.
  intros Hlr. destruct l as [|y1 k1 l1 l2].
  { rewrite Hlr by done. by apply sunk_here. }
  destruct r as [|z kz r1 r2]; cbn [sink].
  - destruct (key_lt k1 k) eqn:E1; [by eapply sunk_left|by apply sunk_here].
  - destruct (key_lt kz k1) eqn:E.
    + apply key_lt_asym in E as E'. destruct (key_lt kz k) eqn:E2; [by eapply sunk_right|].
      apply sunk_here; [simpl; by eapply key_le_trans|done].
    + destruct (key_lt k1 k) eqn:E1; [by eapply sunk_left|].
      apply sunk_here; [done|simpl; by eapply key_le_trans].
Qed.

(** Every node with a right child has a left one, and a node with a left
    child only has a key that is at most [k]. *)
Fixpoint full (k : option K) (t : tree) : Prop :=
  match t with
  | Leaf => True
  | Node _ ky l r => (l = Leaf -> r = Leaf) /\
      (l <> Leaf -> r = Leaf -> forall k', k = Some k' -> key_lt k' ky = false) /\
      full k l /\ full k r
  end.

Lemma shape_full i n t : 0 <= i -> shape_at i n t -> full None t.
Proof.
  revert i. induction t as [|x k l IHl r IHr]; intros i Hi; simpl; [done|].
  intros (? & Hl & Hr). split_and!; [|done|eapply IHl; [|done]; lia|eapply IHr; [|done]; lia].
  intros ->. destruct r; simpl in *; [done|lia].
Qed.

Definition children (t : tree) : list (ptr * K) :=
  match t with Leaf => [] | Node _ _ l r => elems l ++ elems r end.

Lemma elems_sink x k t :
  full None t -> elems (sink x k t) ≡ₚ match t with Leaf => [] | _ => (x, k) :: children t end.
Proof.
  induction t as [|y ky l IHl r IHr]; [done|]. intros (Hlr & _ & Hl & Hr).
  destruct (sink_cases x k y ky l r Hlr) as [|y1 k1 l1 l2 ->|z kz r1 r2 ->]; cbn [elems children]; [done|..].
  - rewrite IHl by done. cbn [children elems]. perm.
  - rewrite IHr by done. cbn [children elems]. perm.
Qed.

Lemma shape_sink i n x k t : shape_at i n t -> 0 <= i -> shape_at i n (sink x k t).
Proof.
  revert i. induction t as [|y ky l IHl r IHr]; intros i; [done|]. intros Hsh Hi.
  destruct (shape_full i n _ Hi Hsh) as (Hlr & _). destruct Hsh as (? & ? & ?).
  destruct (sink_cases x k y ky l r Hlr); simpl; split_and!;
    first [done | apply IHl; [done|lia] | apply IHr; [done|lia]].
Qed.

Lemma above_sink x k k0 t : full None t -> above k0 t -> ordered t -> key_lt k k0 = false ->
  above k0 (sink x k t).
Proof.
  destruct t as [|y ky l r]; [done|]. intros (Hlr & _) Hk (Hl & Hr & _) Hkk.
  destruct (sink_cases x k y ky l r Hlr) as [|y1 k1 l1 l2 ->|z kz r1 r2 ->]; simpl in *;
    [done|exact (key_le_trans _ _ _ Hk Hl)|exact (key_le_trans _ _ _ Hk Hr)].
Qed.

Lemma ordered_sink x k t : full None t -> ordered t -> ordered (sink x k t).
Proof.
  induction t as [|y ky l IHl r IHr]; [done|]. intros (Hlr & _ & Hfl & Hfr) (Hl & Hr & Hol & Hor).
  destruct (sink_cases x k y ky l r Hlr) as [|y1 k1 l1 l2 ->|z kz r1 r2 ->]; cbn [ordered].
  - done.
  - split_and!; [|done|by apply IHl|done].
    apply above_sink; [done|simpl; apply key_lt_irrefl|done|by apply key_lt_asym].
  - split_and!; [done| |done|by apply IHr].
    apply above_sink; [done|simpl; apply key_lt_irrefl|done|by apply key_lt_asym].
Qed.

(** ** [__heap_down_sink]

    [slot pp Sc Rt n]: whatever pointer [h] the reference [pp] holds, writing
    [v] to it turns the cells [Sc h] and the root pointer [Rt h] into [Sc v] and
    [Rt v]. *)
Definition slot (pp : ref) (Sc : ptr -> list (ptr * node)) (Rt : ptr -> ptr) (n : Z) : Prop :=
  forall s L h v (Q : unit -> heap -> Prop), hp s (Sc h ++ L) (Rt h) n ->
    (forall s', hp s' (Sc v ++ L) (Rt v) n -> Q tt s') -> returns (write_ref pp v) s Q.

Lemma slot_hole c n : slot (slot_of c) (fun h => zcells h c) (fun h => zroot h c) n.
Proof. intros s L h v Q H1 HQ. eapply returns_write_hole; [exact H1|apply pull_app|exact HQ]. Qed.

Lemma slot_left x k q r rt n : slot (RLeft x) (fun h => [(x, mkNode k q h r)]) (fun _ => rt) n.
Proof. intros s L h v Q H1 HQ. simpl in *. by hstep; apply HQ. Qed.

Lemma slot_right x k q l rt n : slot (RRight x) (fun h => [(x, mkNode k q l h)]) (fun _ => rt) n.
Proof. intros s L h v Q H1 HQ. simpl in *. by hstep; apply HQ. Qed.

Lemma returns_slot pp Sc Rt n s L L0 h v (Q : unit -> heap -> Prop) :
  slot pp Sc Rt n -> hp s L (Rt h) n -> pull (Sc h) L L0 ->
  (forall s', hp s' (Sc v ++ L0) (Rt v) n -> Q tt s') -> returns (write_ref pp v) s Q.
Proof. intros Hs H1 HL%pull_perm. apply (Hs _ _ h). by eapply hp_perm. Qed.

Fixpoint height (t : tree) : nat :=
  match t with Leaf => 0 | Node _ _ l r => S (Nat.max (height l) (height r)) end.

Lemma sink_loop_spec fuel : forall s x k a y ky l r q par pp Sc Rt n F,
  slot pp Sc Rt n -> full None (Node y ky l r) -> (height l <= fuel)%nat -> (height r <= fuel)%nat ->
  hp s (Sc x ++ (x, mkNode k a (root l) (root r)) :: cells q l ++ cells q r ++ F) (Rt x) n ->
  returns (sink_loop fuel x pp par (root r) (root l)) s (fun _ s' => exists q',
    (q = par -> q' = par) /\
    let t' := sink x k (Node y ky l r) in
    hp s' (Sc (root t') ++ cells q' t' ++ F) (Rt (root t')) n).
Proof.
  induction fuel as [|fuel IH]; intros s x k a y ky l r q par pp Sc Rt n F Hslot Hfull Hl Hr H1.
  all: destruct l as [|ly lk l1 l2]; [|try (simpl in Hl; lia)].
  1, 2: destruct Hfull as [Hlr _]; pose proof (Hlr eq_refl) as ->; cbn [sink_loop root]; rewrite decide_False by tauto;
    hnorm H1; hsteps; exists par; (split; [done|]); eapply hp_perm; [exact H1|]; simpl; perm.
  cbn [height] in Hl.
  destruct Hfull as (_ & _ & Hfl & Hfr). hnorm H1.
  pose proof (hp_nonnull _ _ _ _ ly _ H1 ltac:(has_search)) as Hly.
  cbn [sink_loop root sink]. rewrite (decide_True (P := ly <> nullptr)) by done.
  destruct r as [|ry rk r1 r2]; hnorm H1; cbn [root].
  - rewrite !decide_False by tauto. hsteps. destruct (key_lt lk k).
    + hsteps. unfold __swap_with_left_child. hsteps.
      eapply returns_slot; [exact Hslot|exact H1|pull_search|]. clear H1. intros s2 H1. hsteps.
      eapply returns_mono.
      { eapply (IH s2 x k a ly lk l1 l2 ly ly (RLeft ly) _ _ n (Sc ly ++ F)
          (slot_left ly lk q nullptr (Rt ly) n)); [done|lia|lia|].
        eapply hp_perm; [exact H1|]. perm. }
      intros _ s3 (q' & Hq & H2). rewrite Hq in H2 by done.
      exists q. split; [done|]. eapply hp_perm; [exact H2|]. simpl. perm.
    + hsteps. exists par. split; [done|]. eapply hp_perm; [exact H1|]. simpl. perm.
  - cbn [height] in Hr.
    pose proof (hp_nonnull _ _ _ _ ry _ H1 ltac:(has_search)) as Hry.
    rewrite !(decide_True (P := ry <> nullptr)) by done. hsteps. destruct (key_lt rk lk).
    + hsteps. destruct (key_lt rk k).
      * unfold __swap_with_right_child. hsteps.
        eapply returns_slot; [exact Hslot|exact H1|pull_search|]. clear H1. intros s2 H1. hsteps.
        eapply returns_mono.
        { eapply (IH s2 x k a ry rk r1 r2 ry ry (RRight ry) _ _ n
            (Sc ry ++ cells ry (Node ly lk l1 l2) ++ F) (slot_right ry rk q ly (Rt ry) n)); [done|lia|lia|].
          eapply hp_perm; [exact H1|]. cbn [cells]. perm. }
        intros _ s3 (q' & Hq & H2). rewrite Hq in H2 by done.
        exists q. split; [done|]. eapply hp_perm; [exact H2|]. simpl. perm.
      * hsteps. exists par. split; [done|]. eapply hp_perm; [exact H1|]. simpl. perm.
    + hsteps. destruct (key_lt lk k).
      * unfold __swap_with_left_child. hsteps.
        eapply returns_slot; [exact Hslot|exact H1|pull_search|]. clear H1. intros s2 H1. hsteps.
        eapply returns_mono.
        { eapply (IH s2 x k a ly lk l1 l2 ly ly (RLeft ly) _ _ n
            (Sc ly ++ cells ly (Node ry rk r1 r2) ++ F) (slot_left ly lk q ry (Rt ly) n)); [done|lia|lia|].
          eapply hp_perm; [exact H1|]. cbn [cells]. perm. }
        intros _ s3 (q' & Hq & H2). rewrite Hq in H2 by done.
        exists q. split; [done|]. eapply hp_perm; [exact H2|]. simpl. perm.
      * hsteps. exists par. split; [done|]. eapply hp_perm; [exact H1|]. simpl. perm.
Qed.

(** ** Trees and their surroundings *)

Lemma root_plug c t : root (plug c t) = zroot (root t) c.
Proof. revert t. induction c as [|[x k r|x k l] c IH]; intros t; [done|..]; simpl; by rewrite IH. Qed.

Lemma cells_plug c t : cells nullptr (plug c t) ≡ₚ zcells (root t) c ++ cells (parent c) t.
Proof.
  revert t. induction c as [|[x k r|x k l] c IH]; intros t; [done|..];
    simpl; rewrite IH; simpl; perm.
Qed.

Lemma hp_plug s c t F n :
  hp s (zcells (root t) c ++ cells (parent c) t ++ F) (zroot (root t) c) n <->
  hp s (cells nullptr (plug c t) ++ F) (root (plug c t)) n.
Proof.
  rewrite root_plug. split; intros H1; (eapply hp_perm; [exact H1|]); rewrite cells_plug; perm.
Qed.

Lemma hp_ne s x nx y ny L rt n : hp s L rt n -> has x nx L -> forall L0, L ≡ₚ (x, nx) :: L0 ->
  has y ny L0 -> x <> y.
Proof.
  intros [H1 _] _ L0 E Hy%has_elem ->. rewrite E in H1. apply holds_cons in H1 as (_ & _ & Hnin & _).
  apply Hnin. apply list_elem_of_fmap. by exists (y, ny).
Qed.

(** Which child a node is, is decided by comparing with the right one. *)
Lemma returns_which_child s c y ny L rt n (Q : ptr -> heap -> Prop) :
  hp s (zcells y c ++ (y, ny) :: L) rt n -> c <> [] ->
  (forall p, (if decide (p = y) then RRight (parent c) else RLeft (parent c)) = slot_of c -> Q p s) ->
  returns (get_right (parent c)) s Q.
Proof.
  intros H1 Hc HQ. destruct c as [|[x k r|x k l] c]; [done|..]; hnorm H1; cbn [parent slot_of] in *;
    hstep; apply HQ.
  - rewrite decide_False; [done|]. pose proof (hp_nonnull _ _ _ _ y _ H1 ltac:(has_search)).
    destruct r as [|rx rk rl rr]; [done|]. hnorm H1. cbn [root].
    eapply hp_ne; [exact H1|has_search| |].
    + apply Permutation_middle with (l1 := [_]).
    + simpl. has_search.
  - by rewrite decide_True.
Qed.

(** ** [__heap_up_percolate] *)

Lemma slot_prev x k l r K0 rt n :
  slot (RPrev x) (fun h => cells h (Node x k l r) ++ K0) (fun _ => rt) n.
Proof. intros s L h v Q H1 HQ. hnorm H1. cbn [write_ref]. hstep. apply HQ. eapply hp_perm; [exact H1|]. cbn [cells]. perm. Qed.

Lemma slot_local K0 rt n : slot RLocal (fun _ => K0) (fun _ => rt) n.
Proof. intros s L h v Q H1 HQ. apply returns_ret. by apply HQ. Qed.

Definition sibling (f : frame) : tree := match f with FLeft _ _ s | FRight _ _ s => s end.
Definition fkey (f : frame) : K := match f with FLeft _ k _ | FRight _ k _ => k end.

(** A key can rise past the nodes that are greater: they have two children
    and none is the root. *)
Fixpoint rising (k : K) (c : zipper) : Prop :=
  match c with
  | [] => True
  | f :: c => (key_lt k (fkey f) = true -> sibling f <> Leaf /\ c <> []) /\ rising k c
  end.

Lemma returns_replace_child s c x y p ny L rt n (Q : unit -> heap -> Prop) :
  hp s (zcells y c ++ (y, ny) :: L) rt n -> c <> [] -> rt = zroot y c ->
  (if decide (p = y) then RRight (parent c) else RLeft (parent c)) = slot_of c ->
  (forall s', hp s' (zcells x c ++ (y, ny) :: L) rt n -> Q tt s') ->
  returns (if decide (p = y) then put_right (parent c) x else put_left (parent c) x) s Q.
Proof.
  intros H1 Hc -> Hp HQ.
  assert (zroot x c = zroot y c) as E by by destruct c as [|[] c].
  assert (forall r, r = slot_of c -> returns (write_ref r x) s Q) as Hw.
  { intros r ->. eapply returns_write_hole; [exact H1|apply pull_app|]. by rewrite E. }
  specialize (Hw _ Hp). by case_decide.
Qed.

Lemma returns_parent_prev s h f c L rt n (Q : ptr -> heap -> Prop) :
  hp s (zcells h (f :: c) ++ L) rt n -> Q (parent c) s -> returns (get_prev (parent (f :: c))) s Q.
Proof. intros H1 HQ. destruct f; hnorm H1; cbn [parent]; hstep; done. Qed.

Lemma returns_parent_key s h f c L rt n (Q : K -> heap -> Prop) :
  hp s (zcells h (f :: c) ++ L) rt n -> Q (fkey f) s -> returns (get_key (parent (f :: c))) s Q.
Proof. intros H1 HQ. destruct f; hnorm H1; cbn [parent]; hstep; done. Qed.

(** The end of a round of the loop: [x], below [y] so far, becomes the child
    of the parent of [y], and its key is compared with that node's. *)
Lemma up_round s c x y nx ny L n fuel xref (Q : unit -> heap -> Prop) :
  hp s (zcells y c ++ (y, ny) :: (x, nx) :: L) (zroot y c) n -> c <> [] ->
  (forall s' f c', c = f :: c' -> hp s' (zcells x c ++ (y, ny) :: (x, nx) :: L) (zroot x c) n ->
     returns (if key_lt (_Key nx) (fkey f) then up_loop fuel x (parent c) (parent c') xref
              else write_ref xref x;; write_ref (RPrev y) x;; put_prev x (parent c)) s' Q) ->
  returns (get_right (parent c)) s (fun gr s => returns (
    (if decide (gr = y) then put_right (parent c) x else put_left (parent c) x);;
    grand ← get_prev (parent c);
    pk ← get_key x; qk ← get_key (parent c);
    if key_lt pk qk then up_loop fuel x (parent c) grand xref
    else write_ref xref x;; write_ref (RPrev y) x;; put_prev x (parent c)) s Q).
Proof.
  intros H1 Hc HQ. eapply returns_which_child; [exact H1|done|]. intros p Hp. apply returns_bind.
  assert (zroot y c = zroot x c) as Er by by destruct c as [|[] c].
  eapply returns_replace_child; [exact H1|done|done|done|]. clear H1. intros s1 H1. rewrite Er in H1.
  destruct c as [|f c']; [done|]. apply returns_bind.
  eapply returns_parent_prev; [exact H1|]. hstep.
  assert (has x nx (zcells x (f :: c') ++ (y, ny) :: (x, nx) :: L)) as Hx by has_search.
  eapply (returns_field _Key); [exact H1|exact Hx|]. hstep.
  eapply returns_parent_key; [exact H1|]. by apply HQ.
Qed.

(** The loop: writing [h] to [__parent_x] makes the cells below [x] into
    [Ch h]. *)
Definition up_spec (c : zipper) : Prop := forall fuel s x k a l r xref Ch h n F,
  (length c <= fuel)%nat -> rising k c -> c <> [] ->
  (forall f c', c = f :: c' -> key_lt k (fkey f) = true) ->
  slot xref Ch (fun _ => zroot x c) n ->
  Ch (parent c) ≡ₚ cells (parent c) l ++ cells (parent c) r ->
  hp s (zcells x c ++ (x, mkNode k a (root l) (root r)) :: Ch h ++ F) (zroot x c) n ->
  returns (up_loop fuel x (parent c) (parent (tail c)) xref) s (fun _ s' =>
    hp s' (cells nullptr (up x k l r c) ++ F) (root (up x k l r c)) n).

(** What follows a round: [x] is at the hole [c] with children [u] and [v],
    its former parent [y] and the sibling [sb], in either order. *)
Lemma up_next c fuel s x k a u v y ky l r sy sk sl sr n F :
  up_spec c -> (length c <= fuel)%nat -> rising k c -> c <> [] ->
  (forall q, cells q u ++ cells q v ≡ₚ cells q (Node sy sk sl sr) ++ cells q (Node y ky l r)) ->
  hp s (zcells x c ++ (y, mkNode ky (parent c) (root l) (root r)) ::
    (x, mkNode k a (root u) (root v)) :: cells y (Node sy sk sl sr) ++ cells y l ++ cells y r ++ F)
    (zroot x c) n ->
  (forall f c', c = f :: c' ->
    returns (if key_lt k (fkey f) then up_loop fuel x (parent c) (parent c') (RPrev sy)
             else write_ref (RPrev sy) x;; write_ref (RPrev y) x;; put_prev x (parent c)) s
      (fun _ s' => hp s' (cells nullptr (up x k u v c) ++ F) (root (up x k u v c)) n)).
Proof.
  intros IH Hf Hris Hc Huv H1 f c' ->. destruct (key_lt k (fkey f)) eqn:Hk.
  - eapply (IH fuel s x k a u v (RPrev sy) _ y n F Hf Hris Hc).
    + by intros ? ? [= <- <-].
    + apply (slot_prev sy sk sl sr (cells (parent (f :: c')) (Node y ky l r))).
    + by rewrite Huv.
    + eapply hp_perm; [exact H1|]. simpl. perm.
  - assert (up x k u v (f :: c') = plug (f :: c') (Node x k u v)) as ->.
    { destruct f; cbn [up fkey] in *; by rewrite Hk. }
    remember (f :: c') as c eqn:Ec. clear Ec Hk. hnorm H1. cbn [write_ref]. hsteps. apply hp_plug.
    eapply hp_perm; [exact H1|]. cbn [root cells]. rewrite Huv. cbn [cells]. perm.
Qed.

Lemma up_loop_spec c : up_spec c.
Proof.
  induction c as [|f c IH]; intros fuel s x k a l r xref Ch h n F Hf Hris Hne Hk Hx HCh H1; [done|].
  destruct fuel as [|fuel]; [simpl in Hf; lia|]. specialize (Hk _ _ eq_refl).
  destruct Hris as [Hhead Hris]. destruct (Hhead Hk) as [Hsib Hc]. simpl in Hf. cbn [up_loop tail].
  apply returns_bind. eapply returns_slot; [exact Hx|exact H1|pull_search|]. clear H1. intros s1 H1.
  eapply hp_perm in H1; [|rewrite HCh; reflexivity].
  assert (zroot x c = zroot (parent (f :: c)) c) as Hz by by destruct c as [|[] c].
  assert (zroot x (f :: c) = zroot x c) as Hz2 by (destruct f; by destruct c as [|[] c]).
  rewrite Hz2 in H1. clear Hz2 Hx HCh. apply returns_bind.
  eapply returns_which_child with (c := f :: c) (y := x); [eapply hp_perm; [exact H1|perm]|done|].
  intros p Hp. destruct f as [y ky sb|y ky sb]; cbn [parent sibling fkey up slot_of] in *; rewrite Hk.
  all: destruct sb as [|sy sk sl sr]; [done|].
  - destruct (decide (p = x)); [done|]. hnorm H1.
    apply returns_bind. hsteps. unfold __swap_with_left_child. hsteps.
    rewrite Hz in H1. eapply up_round; [eapply hp_perm; [exact H1|perm]|done|].
    intros s3 f c' Ec H2. eapply (up_next c fuel _ x k _ (Node y ky l r) (Node sy sk sl sr)); try done; [lia|..].
    + intros q. apply Permutation_app_comm.
    + eapply hp_perm; [exact H2|]. cbn [cells root]. perm.
  - destruct (decide (p = x)); [|done]. hnorm H1.
    apply returns_bind. hsteps. unfold __swap_with_right_child. hsteps.
    rewrite Hz in H1. eapply up_round; [eapply hp_perm; [exact H1|perm]|done|].
    intros s3 f c' Ec H2. eapply (up_next c fuel _ x k _ (Node sy sk sl sr) (Node y ky l r)); try done; [lia|..].
    eapply hp_perm; [exact H2|]. cbn [cells root]. perm.
Qed.

Lemma up_percolate_spec c fuel s x k a l r q F n :
  (length c <= fuel)%nat -> rising k c -> c <> [] -> (l = Leaf -> r = Leaf) ->
  (forall f c', c = f :: c' -> key_lt k (fkey f) = true) ->
  hp s (zcells x c ++ (x, mkNode k a (root l) (root r)) :: cells q l ++ cells q r ++ F) (zroot x c) n ->
  returns (__heap_up_percolate fuel x (parent c)) s (fun _ s' =>
    hp s' (cells nullptr (up x k l r c) ++ F) (root (up x k l r c)) n).
Proof.
  intros Hf Hris Hc Hlr Hk H1. unfold __heap_up_percolate. hsteps.
  assert (exists f c', c = f :: c') as (f & c' & Ec) by (destruct c; [done|eauto]).
  assert (forall s2, hp s2 (zcells x c ++ (x, mkNode k a (root l) (root r)) ::
      (cells q l ++ cells (parent c) r) ++ F) (zroot x c) n ->
    returns (g ← get_prev (parent c);
      up_loop fuel x (parent c) g (if decide (root l <> nullptr) then RPrev (root l) else RLocal)) s2
      (fun _ s' => hp s' (cells nullptr (up x k l r c) ++ F) (root (up x k l r c)) n)) as Hloop.
  { intros s2 H2. apply returns_bind. subst c. eapply returns_parent_prev; [exact H2|].
    destruct l as [|lx lk l1 l2].
    - rewrite Hlr in * by done. cbn [root]. rewrite decide_False by tauto.
      by eapply (up_loop_spec (f :: c') fuel s2 x k a Leaf Leaf RLocal (fun _ => []) x);
        [..|apply slot_local| |exact H2].
    - pose proof H2 as H3. hnorm H3. rewrite decide_True
        by (eapply (hp_nonnull _ _ _ _ lx); [exact H3|]; has_search).
      by eapply (up_loop_spec (f :: c') fuel s2 x k a (Node lx lk l1 l2) r _ _ q);
        [..|apply (slot_prev lx lk l1 l2)| |exact H2]. }
  destruct r as [|rx rk r1 r2].
  - cbn [root]. rewrite (decide_False (P := nullptr <> nullptr)) by tauto. cbn [write_ref]. hstep.
    apply Hloop. eapply hp_perm; [exact H1|]. cbn [cells]. perm.
  - hnorm H1. cbn [root].
    rewrite (decide_True (P := rx <> nullptr)) by (eapply hp_nonnull; [exact H1|]; has_search).
    cbn [write_ref]. hstep. apply Hloop. eapply hp_perm; [exact H1|]. cbn [cells root]. perm.
Qed.

(** ** Heights *)

Lemma shape_height i n t : 1 <= i -> shape_at i n t -> (1 <= height t)%nat ->
  i * 2 ^ Z.of_nat (height t - 1) <= n.
Proof.
  revert i. induction t as [|x k l IHl r IHr]; intros i Hi; cbn [shape_at height]; [lia|].
  intros (Hin & Hl & Hr) _. rewrite Nat.sub_succ, Nat.sub_0_r.
  specialize (IHl (2 * i) ltac:(lia) Hl). specialize (IHr (2 * i + 1) ltac:(lia) Hr).
  destruct (Nat.max_spec (height l) (height r)) as [[Hh ->]|[Hh ->]].
  - destruct (height r) as [|h]; [lia|]. specialize (IHr ltac:(lia)).
    rewrite Nat.sub_succ, Nat.sub_0_r in IHr. rewrite Nat2Z.inj_succ, Z.pow_succ_r by lia.
    pose proof (Z.pow_pos_nonneg 2 (Z.of_nat h)). nia.
  - destruct (height l) as [|h]; [simpl; lia|]. specialize (IHl ltac:(lia)).
    rewrite Nat.sub_succ, Nat.sub_0_r in IHl. rewrite Nat2Z.inj_succ, Z.pow_succ_r by lia.
    pose proof (Z.pow_pos_nonneg 2 (Z.of_nat h)). nia.
Qed.

(** A heap of fewer than [2^63] nodes has height at most 63. *)
Lemma shape_height_63 n t : shape_at 1 n t -> n < 2 ^ 63 -> (height t <= 63)%nat.
Proof.
  intros Hs Hn. destruct (decide (height t <= 63)%nat) as [|Hh]; [done|].
  apply shape_height in Hs; [|lia..].
  assert (2 ^ 63 <= 2 ^ Z.of_nat (height t - 1)) by (apply Z.pow_le_mono_r; lia). lia.
Qed.

Lemma depth_63 N : 1 <= N < 2 ^ 63 -> (depth N <= 63)%nat.
Proof.
  intros HN. unfold depth. assert (Z.log2 N < 63) by (apply Z.log2_lt_pow2; lia). lia.
Qed.

Lemma height_plug c t : (length c + height t <= height (plug c t))%nat.
Proof.
  revert t. induction c as [|[x k r|x k l] c IH]; intros t; simpl; [done|..];
    (etrans; [|apply IH]); simpl; lia.
Qed.

(** ** [_M_push] on heaps *)

Lemma push_correct s t x nd F fuel :
  heap_rep s t ((x, nd) :: F) -> Z.of_nat (length (elems t)) + 1 < 2 ^ 63 -> (63 <= fuel)%nat ->
  returns (_M_push fuel x) s (fun _ s' => exists t',
    heap_rep s' t' F /\ elems t' ≡ₚ (x, _Key nd) :: elems t).
Proof.
  intros (H1 & Hsh & Ho) Hn Hf. set (n := Z.of_nat (length (elems t))) in *.
  unfold _M_push. hsteps. rewrite wrap_small in * by (unfold is_word; lia).
  rewrite path_bit_mask_spec by lia.
  assert (vacant (path (depth (n + 1)) (n + 1)) t) as Hv.
  { apply shape_vacant; [lia|]. rewrite ancestor_top by lia. by replace (n + 1 - 1) with n by lia. }
  pose proof (depth_63 (n + 1) ltac:(lia)). destruct nd as [kx q0 l0 r0].
  eapply returns_mono.
  { eapply (push_loop_spec (n + 1) (depth (n + 1)) fuel _ [] x kx q0 l0 r0 t (n + 1) F);
      [lia|exact Hv|exact H1]. }
  intros ? s2 H2. exists (insert_at (path (depth (n + 1)) (n + 1)) x kx t). split; [|by apply elems_insert].
  assert (Z.of_nat (length (elems (insert_at (path (depth (n + 1)) (n + 1)) x kx t))) = n + 1) as E.
  { rewrite elems_insert by done. simpl. lia. }
  unfold heap_rep. rewrite E. split_and!; [exact H2| |by apply ordered_insert].
  pose proof (shape_insert_shift (n + 1) (depth (n + 1)) x kx t ltac:(lia)) as Hs.
  rewrite ancestor_top in Hs by lia. apply Hs; [lia|]. by replace (n + 1 - 1) with n by lia.
Qed.

(** ** [__remove_least_leaf] *)

Lemma leaf_loop_spec N rem fuel s c t y ky F n :
  (rem <= fuel)%nat -> final (path rem N) t -> leaf_at (path rem N) t = Some (y, ky) ->
  hp s (zcells (root t) c ++ cells (parent c) t ++ F) (zroot (root t) c) n ->
  returns (leaf_loop fuel (slot_of c) (root t) (mask_of rem) N) s (fun p s' =>
    p = y /\ exists q, let t' := remove_at (path rem N) t in
    hp s' (zcells (root t') c ++ cells (parent c) t' ++ (y, mkNode ky q nullptr nullptr) :: F)
      (zroot (root t') c) n).
Proof.
  revert fuel s c t. induction rem as [|rem IH]; intros fuel s c t Hf Hfin Hleaf H1.
  - destruct t as [|x k l r]; [done|]. destruct Hfin as [-> ->]. simpl in Hleaf. simplify_eq.
    destruct fuel; cbn [leaf_loop mask_of]; rewrite decide_False by tauto; hnorm H1; hsteps;
      (split; [done|]); exists (parent c); (eapply hp_perm; [exact H1|]; simpl; perm).
  - destruct fuel as [|fuel]; [lia|]. pose proof (mask_of_S rem) as Hm.
    destruct t as [|x k l r]; [simpl in Hfin; by destruct (Z.testbit _ _)|]. hnorm H1.
    cbn [leaf_loop root path remove_at leaf_at final] in *. rewrite decide_True by done.
    rewrite mask_of_shift, child_ref_bit. destruct (Z.testbit N (Z.of_nat rem)).
    + hsteps. cbn [read_ref]. hsteps.
      eapply returns_mono.
      { eapply (IH fuel _ (FRight x k l :: c) r); [lia|done..|].
        eapply hp_perm; [exact H1|]. simpl. perm. }
      intros p s' (-> & q & H2). split; [done|]. exists q.
      eapply hp_perm; [exact H2|]. simpl. perm.
    + hsteps. cbn [read_ref]. hsteps.
      eapply returns_mono.
      { eapply (IH fuel _ (FLeft x k r :: c) l); [lia|done..|].
        eapply hp_perm; [exact H1|]. simpl. perm. }
      intros p s' (-> & q & H2). split; [done|]. exists q.
      eapply hp_perm; [exact H2|]. simpl. perm.
Qed.

(** The last leaf of a heap, and the heap without it. *)
Definition last_path (n : Z) : list bool := path (depth n) n.

Lemma last_leaf t n :
  1 <= n -> shape_at 1 n t -> ordered t -> exists y ky,
    final (last_path n) t /\ leaf_at (last_path n) t = Some (y, ky) /\
    elems t ≡ₚ (y, ky) :: elems (remove_at (last_path n) t) /\
    ordered (remove_at (last_path n) t) /\ shape_at 1 (n - 1) (remove_at (last_path n) t).
Proof.
  intros Hn Hsh Ho. pose proof (ancestor_top n Hn) as Ha.
  assert (final (last_path n) t) as Hfin by (apply shape_final; by rewrite ?Ha).
  destruct (remove_final _ _ Hfin) as (y & ky & Hl & He). exists y, ky.
  split_and!; [done..|by apply ordered_remove|].
  pose proof (shape_remove n (depth n) t Hn) as Hr. rewrite Ha in Hr. apply Hr; [lia|done].
Qed.

Lemma returns_remove_least_leaf fuel s t y ky F n m :
  hp s (cells nullptr t ++ F) (root t) m -> 1 <= n < 2 ^ 63 -> (63 <= fuel)%nat ->
  final (last_path n) t -> leaf_at (last_path n) t = Some (y, ky) ->
  returns (__remove_least_leaf fuel RRoot n) s (fun p s' => p = y /\ exists q,
    let t' := remove_at (last_path n) t in
    hp s' (cells nullptr t' ++ (y, mkNode ky q nullptr nullptr) :: F) (root t') m).
Proof.
  intros H1 Hn Hf Hfin Hl. unfold __remove_least_leaf. cbn [read_ref]. hsteps.
  rewrite path_bit_mask_spec by done. pose proof (depth_63 n Hn).
  eapply (leaf_loop_spec n (depth n) fuel s [] t y ky F m); [lia|done..].
Qed.

Lemma remove_at_root b x k l r : b <> [] -> exists l' r', remove_at b (Node x k l r) = Node x k l' r'.
Proof. destruct b as [|[] b]; [done|..]; simpl; eauto. Qed.

Lemma last_path_cons n : 2 <= n -> last_path n <> [].
Proof.
  intros Hn. unfold last_path, depth. pose proof (Z.log2_le_mono 2 n Hn) as Hl.
  change (Z.log2 2) with 1 in Hl. by destruct (Z.to_nat (Z.log2 n)) eqn:E; [lia|].
Qed.

Lemma sink_root x k y ky l r : sink x k (Node y ky l r) <> Leaf.
Proof.
  destruct l, r; cbn [sink]; repeat case_match; done.
Qed.

Lemma returns_reparent s K0 t q v F rt n (Q : unit -> heap -> Prop) :
  hp s (K0 ++ cells q t ++ F) rt n -> t <> Leaf ->
  (forall s', hp s' (K0 ++ cells v t ++ F) rt n -> Q tt s') -> returns (put_prev (root t) v) s Q.
Proof.
  intros H1 Ht HQ. destruct t as [|x k l r]; [done|]. hnorm H1. cbn [root]. hstep. apply HQ.
  eapply hp_perm; [exact H1|]. cbn [cells]. perm.
Qed.

(** ** [_M_pop] on heaps *)

(** [sunk_rep]: replacing the root of a heap by [y] and letting it sink gives a
    heap. *)
Lemma sink_heap y ky x k l r n :
  shape_at 1 n (Node x k l r) -> ordered (Node x k l r) ->
  let t' := sink y ky (Node x k l r) in
  shape_at 1 n t' /\ ordered t' /\ elems t' ≡ₚ (y, ky) :: elems l ++ elems r.
Proof.
  intros Hs Ho. pose proof (shape_full 1 n _ ltac:(lia) Hs) as Hf. split_and!.
  - by apply shape_sink.
  - by apply ordered_sink.
  - by rewrite elems_sink.
Qed.

Lemma pop_correct s t F fuel :
  heap_rep s t F -> Z.of_nat (length (elems t)) < 2 ^ 63 -> (63 <= fuel)%nat ->
  returns (_M_pop fuel) s (fun _ s' =>
    match t with
    | Leaf => heap_rep s' Leaf F
    | Node x k _ _ => exists t' nl nr, heap_rep s' t' ((x, mkNode k nullptr nl nr) :: F) /\
        elems t ≡ₚ (x, k) :: elems t'
    end).
Proof.
  intros (H1 & Hsh & Ho) Hn Hf. set (n := Z.of_nat (length (elems t))) in *.
  unfold _M_pop. apply returns_bind. hstep. case_decide as Hle.
  - hsteps. destruct t as [|x k l r]; [by split_and!|].
    assert (l = Leaf /\ r = Leaf) as [-> ->].
    { subst n. cbn [elems length] in Hle. rewrite length_app in Hle.
      destruct l, r; simpl in *; (done || lia). }
    exists Leaf, nullptr, nullptr. split; [|done]. by split_and!.
  - destruct t as [|x k l r]; [by destruct Hle|].
    destruct (last_leaf _ n ltac:(lia) Hsh Ho) as (y & ky & Hfin & Hl & He & Ho' & Hsh').
    destruct (remove_at_root (last_path n) x k l r (last_path_cons n ltac:(lia))) as (l' & r' & E).
    apply returns_bind. hstep.
    assert (x <> nullptr) as Hx by (hnorm H1; eapply hp_nonnull; [exact H1|]; has_search).
    hsteps. eapply returns_mono; [eapply returns_remove_least_leaf; [exact H1|lia|done..]|].
    clear H1 s. intros p s (-> & q & H1). rewrite E in *. hnorm H1. hsteps.
    rewrite wrap_small in H1 by (unfold is_word; lia). unfold __heap_down_sink. hsteps.
    pose proof (sink_heap y ky x k l' r' (n - 1) Hsh' Ho') as (Hs2 & Ho2 & He2).
    pose proof (shape_height_63 _ _ Hsh' ltac:(lia)) as Hh. cbn [height] in Hh.
    eapply returns_mono.
    { eapply (sink_loop_spec fuel _ y ky q x k l' r' x nullptr RRoot (fun _ => []) (fun h => h) (n - 1)
        ((x, mkNode k nullptr (root l') (root r')) :: F) (slot_hole [] (n - 1)));
        [by eapply (shape_full 1)|lia|lia|].
      eapply hp_perm; [exact H1|]. perm. }
    clear H1. intros ? s2 (q' & _ & H1). cbv zeta in H1. set (t' := sink y ky (Node x k l' r')) in *.
    hstep. hstep. eapply (returns_reparent s2 []); [exact H1|apply sink_root|].
    clear H1 s2. intros s2 H1. exists t', (root l'), (root r').
    assert (elems (Node x k l r) ≡ₚ (x, k) :: elems t') as He3.
    { rewrite He, He2. simpl. perm. }
    assert (Z.of_nat (length (elems t')) = n - 1) as En.
    { subst n. apply Permutation_length in He3. rewrite He3. simpl. lia. }
    split; [|done]. unfold heap_rep. by rewrite En.
Qed.

(** ** Replacing a node of a heap *)

Fixpoint same_shape (t1 t2 : tree) : Prop :=
  match t1, t2 with
  | Leaf, Leaf => True
  | Node _ _ l1 r1, Node _ _ l2 r2 => same_shape l1 l2 /\ same_shape r1 r2
  | _, _ => False
  end.

Lemma same_shape_refl t : same_shape t t.
Proof. induction t; simpl; auto. Qed.

Lemma same_shape_trans t1 t2 t3 : same_shape t1 t2 -> same_shape t2 t3 -> same_shape t1 t3.
Proof.
  revert t2 t3. induction t1 as [|x k l IHl r IHr]; intros [|? ? l2 r2] [|? ? l3 r3]; simpl; try done.
  intros [] []. split; eauto.
Qed.

Lemma same_shape_at t1 t2 i n : same_shape t1 t2 -> shape_at i n t2 -> shape_at i n t1.
Proof.
  revert t2 i. induction t1 as [|x k l IHl r IHr]; intros [|? ? l2 r2] i; simpl; try done.
  intros [] (? & ? & ?). split_and!; eauto.
Qed.

Lemma same_shape_plug c t1 t2 : same_shape t1 t2 -> same_shape (plug c t1) (plug c t2).
Proof.
  revert t1 t2. induction c as [|[x k r|x k l] c IH]; intros t1 t2 Hs; [done|..]; simpl; apply IH;
    simpl; auto using same_shape_refl.
Qed.

Lemma same_shape_sink x k t : full None t -> same_shape (sink x k t) t.
Proof.
  induction t as [|y ky l IHl r IHr]; [done|]. intros (Hlr & _ & Hfl & Hfr).
  destruct (sink_cases x k y ky l r Hlr); simpl; auto using same_shape_refl.
Qed.

Lemma same_shape_up x k l r c z kz : same_shape (up x k l r c) (plug c (Node z kz l r)).
Proof.
  revert l r z kz. induction c as [|f c IH]; intros l r z kz.
  - simpl. auto using same_shape_refl.
  - assert (same_shape (plug (f :: c) (Node x k l r)) (plug (f :: c) (Node z kz l r))) as Hstop.
    { apply same_shape_plug. simpl. auto using same_shape_refl. }
    destruct f as [y ky s|y ky s]; cbn [up]; (destruct (key_lt k ky); [|exact Hstop]);
      (eapply same_shape_trans; [apply (IH _ _ z kz)|]); apply (same_shape_plug c);
      simpl; auto using same_shape_refl.
Qed.

Fixpoint zelems (c : zipper) : list (ptr * K) :=
  match c with
  | [] => []
  | FLeft x k s :: c | FRight x k s :: c => (x, k) :: elems s ++ zelems c
  end.

Lemma elems_plug c t : elems (plug c t) ≡ₚ elems t ++ zelems c.
Proof.
  revert t. induction c as [|[x k r|x k l] c IH]; intros t; simpl; [perm|..];
    rewrite IH; simpl; perm.
Qed.

Lemma elems_up x k l r c : elems (up x k l r c) ≡ₚ (x, k) :: elems l ++ elems r ++ zelems c.
Proof.
  revert l r. induction c as [|[y ky s|y ky s] c IH]; intros l r; cbn [up zelems]; [simpl; perm|..];
    (destruct (key_lt k ky); [rewrite IH; simpl; perm|rewrite elems_plug; simpl; perm]).
Qed.

Lemma full_plug k c t : full k (plug c t) -> full k t.
Proof.
  revert t. induction c as [|[x kx s|x kx s] c IH]; intros t; [done|..]; simpl;
    intros (_ & _ & ? & ?)%IH; done.
Qed.

Lemma ordered_plug_sub c t : ordered (plug c t) -> ordered t.
Proof.
  revert t. induction c as [|[x kx s|x kx s] c IH]; intros t; [done|..]; simpl;
    intros (_ & _ & ? & ?)%IH; done.
Qed.

Lemma ordered_fill f t t' :
  ordered (fill t f) -> ordered t' -> above (fkey f) t' -> ordered (fill t' f).
Proof. destruct f; simpl; intros (? & ? & ? & ?); done. Qed.

(** A subtree can be replaced by an ordered one whose root is not below the
    node above the hole. *)
Lemma ordered_plug_any c t t' :
  ordered (plug c t) -> ordered t' -> (forall k, above k t -> above k t') -> ordered (plug c t').
Proof.
  revert t t'. induction c as [|f c IH]; intros t t' Ho Ho' Hab; [done|]. simpl in *.
  apply (IH (fill t f)); [done| |by destruct f].
  apply ordered_plug_sub in Ho. eapply ordered_fill; [done..|]. apply Hab. by destruct f; destruct Ho as (? & ? & _).
Qed.

Lemma ordered_plug c t t' :
  ordered (plug c t) -> ordered t' -> (forall f c', c = f :: c' -> above (fkey f) t') ->
  ordered (plug c t').
Proof.
  destruct c as [|f c]; [done|]. intros Ho Ho' Hab. simpl in *.
  apply (ordered_plug_any c (fill t f)); [done| |by destruct f].
  apply ordered_plug_sub in Ho. eapply ordered_fill; eauto.
Qed.

Lemma ordered_up x k l r c z kz :
  ordered (plug c (Node z kz l r)) -> above k l -> above k r -> ordered (up x k l r c).
Proof.
  revert l r z kz. induction c as [|f c IH]; intros l r z kz Ho Hl Hr.
  { simpl in *. tauto. }
  pose proof (ordered_plug_sub (f :: c) _ Ho) as (Hzl & Hzr & Hol & Hor).
  pose proof (ordered_plug_sub c _ Ho) as Hf.
  destruct (key_lt k (fkey f)) eqn:Hk.
  - assert (forall y ky s, above ky (Node z kz l r) -> above ky s -> key_lt k ky = true -> ordered s ->
      ordered (Node y ky (Node y ky l r) s) /\ above k s /\ ordered (Node y ky s (Node y ky l r))) as Haux.
    { intros y ky s Hz Hs Hky Hos. simpl in Hz.
      assert (above ky l /\ above ky r) as [? ?] by (split; by eapply above_le).
      apply key_lt_asym in Hky. pose proof (key_lt_irrefl ky).
      split_and!; [simpl; tauto|by eapply above_le|simpl; tauto]. }
    destruct f as [y ky s|y ky s]; cbn [up fkey] in *; rewrite Hk; destruct Hf as (H1 & H2 & H3 & H4).
    + destruct (Haux y ky s H1 H2 Hk H4) as (? & ? & _).
      apply (IH _ _ y ky); [|simpl; by apply key_lt_asym|done].
      by eapply ordered_plug_any.
    + destruct (Haux y ky s H2 H1 Hk H3) as (_ & ? & ?).
      apply (IH _ _ y ky); [|done|simpl; by apply key_lt_asym].
      by eapply ordered_plug_any.
  - assert (up x k l r (f :: c) = plug (f :: c) (Node x k l r)) as ->
      by (destruct f; cbn [up fkey] in *; by rewrite Hk).
    eapply ordered_plug; [exact Ho|done|]. by intros ? ? [= <- <-].
Qed.

(** Where a node of a tree is. *)
Lemma zipper_of t x k : (x, k) ∈ elems t -> exists c l r, t = plug c (Node x k l r).
Proof.
  assert (forall c f t, plug (c ++ [f]) t = fill (plug c t) f) as Hp.
  { intros c f t'. unfold plug. by rewrite fold_left_app. }
  induction t as [|y ky l IHl r IHr]; simpl; [by intros ?%not_elem_of_nil|].
  rewrite elem_of_cons, elem_of_app. intros [[= -> ->]|[Hin|Hin]].
  - by exists [], l, r.
  - destruct (IHl Hin) as (c & l' & r' & ->). exists (c ++ [FLeft y ky r]), l', r'. by rewrite Hp.
  - destruct (IHr Hin) as (c & l' & r' & ->). exists (c ++ [FRight y ky l]), l', r'. by rewrite Hp.
Qed.

(** Off the path to the last leaf every node has two children or none. *)
Lemma off_path_full N j t k : 0 <= N -> 0 <= j -> off_path N j -> shape_at j N t -> full (Some k) t.
Proof.
  intros HN. revert j. induction t as [|x kx l IHl r IHr]; intros j Hj Ho; simpl; [done|].
  intros (Hi & Hl & Hr). split_and!.
  - intros ->. destruct r; simpl in *; [done|lia].
  - intros Hne -> k' _. destruct l; [done|]. simpl in *. exfalso.
    apply (off_path_self N (2 * j)); [|lia]. eauto using off_path_child.
  - apply (IHl (2 * j)); eauto using off_path_child; lia.
  - apply (IHr (2 * j + 1)); eauto using off_path_child; lia.
Qed.

Lemma remove_at_nonleaf b t : b <> [] -> final b t -> t <> Leaf /\ remove_at b t <> Leaf.
Proof. by destruct b as [|[] b], t. Qed.

Lemma remove_full N rem t y k :
  1 <= N -> 1 <= N / 2 ^ Z.of_nat rem -> shape_at (N / 2 ^ Z.of_nat rem) N t -> ordered t ->
  final (path rem N) t -> leaf_at (path rem N) t = Some (y, k) ->
  full (Some k) (remove_at (path rem N) t).
Proof.
  intros HN. revert t. induction rem as [|rem IH]; intros t Hi Hsh Ho Hfin Hl; [by destruct t|].
  pose proof (ancestor_step N rem ltac:(lia)) as Hs.
  pose proof (sibling_off_path N rem _ ltac:(lia) Hi eq_refl) as Hoff.
  destruct t as [|x kx l r]; [simpl in Hfin; by destruct (Z.testbit _ _)|].
  assert (key_lt k kx = false) as Hkx.
  { destruct (remove_final _ _ Hfin) as (y' & k' & Hl' & He). rewrite Hl in Hl'. simplify_eq.
    apply (above_elems kx (Node x kx l r) y' k' Ho); [simpl; apply key_lt_irrefl|]. rewrite He. set_solver. }
  destruct Hsh as (_ & Hshl & Hshr), Ho as (_ & _ & Hol & Hor).
  cbn [path final leaf_at remove_at] in *.
  destruct (Z.testbit N (Z.of_nat rem)); simpl in Hs, Hoff; cbn [full].
  - rewrite Z.add_0_r in Hoff. split_and!.
    + intros ->. destruct r; [by destruct (path rem N) as [|[]]|]. simpl in Hshl, Hshr. lia.
    + by intros _ _ ? [= <-].
    + eapply (off_path_full N); [..|exact Hoff|done]; lia.
    + apply IH; rewrite ?Hs; done || lia.
  - rewrite Z.add_0_r in Hs. split_and!.
    + intros Hleaf. destruct (decide (path rem N = [])) as [E|E].
      * destruct rem; [|done]. rewrite <- (Z.div_1_r N) in Hshr at 2. change (2 ^ Z.of_nat 0) with 1 in Hs.
        destruct r; [done|]. cbn [shape_at] in Hshr. lia.
      * by destruct (remove_at_nonleaf _ _ E Hfin).
    + by intros _ _ ? [= <-].
    + apply IH; rewrite ?Hs; done || lia.
    + eapply (off_path_full N); [..|exact Hoff|done]; lia.
Qed.

Lemma full_weaken k t : full (Some k) t -> full None t.
Proof. induction t; simpl; [done|]. intros (? & ? & ? & ?). split_and!; eauto. done. Qed.

(** In the heap without its last leaf, the key of that leaf can rise. *)
Lemma rising_plug k c t :
  full (Some k) (plug c t) -> t <> Leaf ->
  (forall x kx l r, plug c t = Node x kx l r -> key_lt k kx = false) -> rising k c.
Proof.
  revert t. induction c as [|f c IH]; intros t Hf Ht Hroot; [done|].
  assert (fill t f <> Leaf) as Hfill by by destruct f.
  split; [|by apply (IH (fill t f))]. intros Hk. split.
  - pose proof (full_plug _ c (fill t f) Hf) as Hff.
    destruct f as [x kx s|x kx s]; simpl in *; destruct Hff as (H1 & H2 & _).
    + intros ->. rewrite (H2 Ht eq_refl k eq_refl) in Hk. done.
    + intros ->. auto.
  - intros ->. destruct f as [x kx s|x kx s]; simpl in *; by rewrite (Hroot _ _ _ _ eq_refl) in Hk.
Qed.

(** ** [_M_remove] on heaps *)

Lemma parent_nonnull s h c L rt n : hp s (zcells h c ++ L) rt n -> c <> [] -> parent c <> nullptr.
Proof.
  intros H1 Hc. destruct c as [|[x k r|x k l] c]; [done|..]; hnorm H1; cbn [parent];
    eapply hp_nonnull; [exact H1|has_search|exact H1|has_search].
Qed.

(** The part of [_M_remove] that lets the replacement sink. *)
Definition sink_and_finish (fuel : nat) (__node __p __parent : ptr) (__pp : ref) : M heap bool :=
  __heap_down_sink fuel __p __pp __parent;;
  top ← read_ref __pp; put_prev top __parent;;
  put_prev __node nullptr;; mret true.

Lemma sink_and_finish_spec fuel s c y ky a l r x k z kz nx L F n :
  hp s (zcells y c ++ (y, mkNode ky a (root l) (root r)) :: cells x l ++ cells x r ++ (x, nx) :: F)
    (zroot y c) n ->
  L = Node z kz l r -> full None L -> (height L <= fuel)%nat -> nx = mkNode k (parent c) (root l) (root r) ->
  returns (sink_and_finish fuel x y (parent c) (slot_of c)) s (fun b s' => b = true /\
    hp s' (cells nullptr (plug c (sink y ky L)) ++ (x, mkNode k nullptr (root l) (root r)) :: F)
      (root (plug c (sink y ky L))) n).
Proof.
  intros H1 -> Hf Hh ->. cbn [height] in Hh. unfold sink_and_finish, __heap_down_sink. hsteps.
  eapply returns_mono.
  { eapply (sink_loop_spec fuel s y ky a z kz l r x (parent c) (slot_of c) _ _ n
      ((x, mkNode k (parent c) (root l) (root r)) :: F) (slot_hole c n)); [done|lia|lia|].
    eapply hp_perm; [exact H1|]. perm. }
  clear H1 s. intros ? s (q' & _ & H1). cbv zeta in H1. apply returns_bind.
  eapply returns_read_hole; [exact H1|apply pull_app|]. hstep.
  eapply returns_reparent; [exact H1|apply sink_root|]. clear H1 s. intros s H1. hsteps.
  split; [done|]. apply hp_plug. eapply hp_perm; [exact H1|]. perm.
Qed.

Lemma cells_addr q t : (cells q t).*1 = (elems t).*1.
Proof.
  revert q. induction t as [|x k l IHl r IHr]; intros q; simpl; [done|].
  by rewrite !fmap_app, IHl, IHr.
Qed.

(** What is left to do once the last leaf [y], with its key [ky], is known to
    be another node than [x]: [y] takes the place of [x] and moves up or down. *)
Lemma replace_correct fuel s c x k y ky q l r F n :
  hp s (cells nullptr (plug c (Node x k l r)) ++ (y, mkNode ky q nullptr nullptr) :: F)
    (root (plug c (Node x k l r))) n ->
  shape_at 1 n (plug c (Node x k l r)) -> n < 2 ^ 63 -> (63 <= fuel)%nat ->
  ordered (plug c (Node x k l r)) -> full (Some ky) (plug c (Node x k l r)) ->
  (forall z kz l' r', plug c (Node x k l r) = Node z kz l' r' -> key_lt ky kz = false) ->
  returns (
    r ← get_right x; put_right y r;; l ← get_left x; put_left y l;;
    __parent ← get_prev x;
    if decide (__parent <> nullptr) then
      r ← get_right __parent;
      let __pp := if decide (r = x) then RRight __parent else RLeft __parent in
      write_ref __pp y;;
      pk ← get_key y; qk ← get_key __parent;
      if key_lt pk qk then
        __heap_up_percolate fuel y __parent;; put_prev x nullptr;; mret true
      else sink_and_finish fuel x y __parent __pp
    else write_ref RRoot y;; sink_and_finish fuel x y __parent RRoot) s
    (fun b s' => b = true /\ exists t', 
      hp s' (cells nullptr t' ++ (x, mkNode k nullptr (root l) (root r)) :: F) (root t') n /\
      shape_at 1 n t' /\ ordered t' /\ elems t' ≡ₚ (y, ky) :: elems l ++ elems r ++ zelems c).
Proof.
  intros H1 Hsh Hn Hfuel Ho Hfull Hroot. apply hp_plug in H1. hnorm H1. hsteps.
  pose proof (full_plug _ _ _ Hfull) as Hfx.
  pose proof (full_weaken _ _ Hfx) as Hfx'.
  pose proof (ordered_plug_sub _ _ Ho) as Hox.
  pose proof (shape_height_63 _ _ Hsh Hn) as Hh. pose proof (height_plug c (Node x k l r)) as Hhc.
  assert (forall t', same_shape t' (plug c (Node x k l r)) -> shape_at 1 n t') as Hshape.
  { intros t' Hs. by eapply same_shape_at. }
  (* the outcome when [y] sinks *)
  assert (forall s2, (forall f c', c = f :: c' -> key_lt ky (fkey f) = false) ->
    hp s2 (zcells y c ++ (y, mkNode ky q (root l) (root r)) :: cells x l ++ cells x r ++
      (x, mkNode k (parent c) (root l) (root r)) :: F) (zroot y c) n ->
    returns (sink_and_finish fuel x y (parent c) (slot_of c)) s2 (fun b s' => b = true /\ exists t',
      hp s' (cells nullptr t' ++ (x, mkNode k nullptr (root l) (root r)) :: F) (root t') n /\
      shape_at 1 n t' /\ ordered t' /\ elems t' ≡ₚ (y, ky) :: elems l ++ elems r ++ zelems c)) as Hsink.
  { intros s2 Hky H2. eapply returns_mono.
    { eapply (sink_and_finish_spec fuel s2 c y ky q l r x k x k _ (Node x k l r) F n);
        [exact H2|done|done|lia|done]. }
    intros b s3 [-> H3]. split; [done|]. exists (plug c (sink y ky (Node x k l r))).
    split; [exact H3|]. split_and!.
    - apply Hshape, same_shape_plug. by apply same_shape_sink.
    - eapply ordered_plug; [exact Ho|by apply ordered_sink|]. intros f c' ->.
      apply above_sink; [done| |done|by eapply Hky].
      pose proof (ordered_plug_sub c' (fill (Node x k l r) f) Ho) as Hff. destruct f; simpl in Hff; tauto.
    - rewrite elems_plug, elems_sink by done. simpl. perm. }
  destruct c as [|f c'].
  - cbn [parent]. rewrite decide_False by tauto. hstep. cbn [write_ref zroot] in *. hstep. hnorm H1.
    apply (Hsink s'1); [done|]. eapply hp_perm; [exact H1|]. simpl. perm.
  - remember (f :: c') as c eqn:Ec.
    assert (c <> []) as Hc by (by subst c).
    rewrite decide_True by (eapply parent_nonnull; [exact H1|done]). apply returns_bind.
    eapply returns_which_child; [exact H1|done|]. intros p ->. hsteps.
    match type of H1 with hp ?s _ _ _ => rename s into s2 end. rewrite Ec. eapply returns_parent_key; [rewrite <- Ec; exact H1|]. rewrite <- Ec.
    destruct (key_lt ky (fkey f)) eqn:Hk.
    + apply returns_bind. eapply returns_mono.
      { eapply (up_percolate_spec c fuel s2 y ky q l r x ((x, mkNode k (parent c) (root l) (root r)) :: F) n).
        - lia.
        - by eapply rising_plug.
        - done.
        - by destruct Hfx.
        - intros f2 c2 E2. rewrite Ec in E2. by simplify_eq.
        - eapply hp_perm; [exact H1|]. perm. }
      clear H1. intros ? s3 H1. cbv beta in H1. hsteps. split; [done|]. exists (up y ky l r c). split; [exact H1|].
      split_and!; [apply Hshape, same_shape_up| |apply elems_up].
      assert (key_lt k ky = false) as Hkk.
      { rewrite Ec in Ho. pose proof (ordered_plug_sub c' (fill (Node x k l r) f) Ho) as Hff.
        apply key_lt_asym in Hk. eapply key_le_trans; [exact Hk|]. destruct f; simpl in Hff |- *; tauto. }
      destruct Hox as (? & ? & _). eapply ordered_up; [exact Ho|by eapply above_le..].
    + apply (Hsink s2); [|eapply hp_perm; [exact H1|]; perm].
      intros f2 c2 E2. rewrite Ec in E2. by simplify_eq.
Qed.

Lemma heap_rep_intro s t F n :
  hp s (cells nullptr t ++ F) (root t) n -> n = Z.of_nat (length (elems t)) ->
  shape_at 1 n t -> ordered t -> heap_rep s t F.
Proof. intros ? -> ??. by split_and!. Qed.

Lemma removed_least b t y ky z kz l r :
  ordered t -> final b t -> leaf_at b t = Some (y, ky) -> remove_at b t = Node z kz l r ->
  key_lt ky kz = false.
Proof.
  intros Ho Hfin Hl E. destruct (remove_final _ _ Hfin) as (y' & k' & Hl' & He).
  rewrite Hl in Hl'. simplify_eq. destruct t as [|x k l0 r0]; [by destruct b as [|[]]|].
  assert (k = kz) as -> by (destruct b as [|[] b]; by inversion E).
  apply (above_elems kz (Node x kz l0 r0) y' k' Ho); [simpl; apply key_lt_irrefl|]. rewrite He. set_solver.
Qed.

Lemma remove_correct s t x F fuel :
  heap_rep s t F -> x ∈ (elems t).*1 -> Z.of_nat (length (elems t)) < 2 ^ 63 -> (63 <= fuel)%nat ->
  returns (_M_remove fuel x) s (fun b s' => b = true /\ exists t' k nl nr,
    heap_rep s' t' ((x, mkNode k nullptr nl nr) :: F) /\ elems t ≡ₚ (x, k) :: elems t').
Proof.
  intros (H1 & Hsh & Ho) Hx Hn Hf. set (n := Z.of_nat (length (elems t))) in *.
  apply list_elem_of_fmap in Hx as ([x' k] & [= <-] & Hx).
  assert (1 <= n) as Hn1.
  { subst n. apply list_elem_of_split in Hx as (l1 & l2 & ->). rewrite length_app. simpl. lia. }
  assert (t <> Leaf) as Hleaf by (intros ->; by apply not_elem_of_nil in Hx).
  assert (root t <> nullptr) as Hroot by (by eapply hp_root_nonnull).
  destruct (last_leaf t n Hn1 Hsh Ho) as (y & ky & Hfin & Hlast & He & Ho' & Hsh').
  set (t1 := remove_at (last_path n) t) in *.
  (* the guard *)
  unfold _M_remove. apply returns_bind.
  assert (exists q0, returns (get_prev x) s (fun q s' => q = q0 /\ s' = s) /\
    ~ (q0 = nullptr /\ x <> root t)) as (q0 & Hq & Hguard).
  { destruct (zipper_of t x k Hx) as (c & l & r & E). rewrite E in H1. apply hp_plug in H1. hnorm H1.
    exists (parent c). split; [by hstep|]. rewrite E, root_plug. intros [Hp Hr].
    destruct c as [|f c]; [done|]. by eapply parent_nonnull in H1. }
  eapply returns_mono; [exact Hq|]. intros ? ? [-> ->]. clear Hq. hsteps.
  rewrite decide_False by done. hsteps.
  apply returns_assert; [apply bool_decide_eq_true_2; lia|]. hsteps.
  eapply returns_mono; [eapply returns_remove_least_leaf; [exact H1|lia|done..]|].
  clear H1 s. intros p s (-> & q & H1). cbv zeta in H1. fold t1 in H1. hsteps.
  rewrite wrap_small in H1 by (unfold is_word; lia).
  assert (length (elems t) = S (length (elems t1))) as Hlen by (rewrite He; done).
  case_decide as Hyx.
  - subst y. hsteps. split; [done|]. exists t1, ky, nullptr, nullptr. split; [|done].
    eapply heap_rep_intro; [exact H1|subst n; lia|done..].
  - assert ((x, k) ∈ elems t1) as Hx1.
    { rewrite He in Hx. apply elem_of_cons in Hx as [[= -> _]|]; done. }
    destruct (zipper_of t1 x k Hx1) as (c & l & r & E). rewrite E in *.
    eapply returns_mono.
    { eapply (replace_correct fuel _ c x k y ky q l r F (n - 1) H1 Hsh'); [lia|done|done|..].
      - rewrite <- E. apply (remove_full n (depth n) t y ky); rewrite ?ancestor_top; done || lia.
      - intros z kz l' r' Ez. rewrite Ez in E. by eapply (removed_least (last_path n) t). }
    intros b s2 (-> & t' & H2 & Hs2 & Ho2 & He2). split; [done|].
    exists t', k, (root l), (root r).
    assert (elems t ≡ₚ (x, k) :: elems t') as He3.
    { rewrite He, He2, elems_plug. simpl. perm. }
    split; [|done]. eapply heap_rep_intro; [exact H2| |done..].
    apply Permutation_length in He3. subst n. simpl in He3. lia.
Qed.

Lemma heap_rep_perm s t F F' : heap_rep s t F -> F ≡ₚ F' -> heap_rep s t F'.
Proof. intros (H1 & ? & ?) E. split_and!; [eapply hp_perm; [exact H1|]; by rewrite E|apply H1..|done|done]. Qed.

(** ** Clients: insert a list of nodes, take all out again *)

Fixpoint push_all (l : list ptr) : M heap unit :=
  match l with [] => mret tt | x :: l => _M_push 63 x;; push_all l end.

Fixpoint drain (n : nat) : M heap (list K) :=
  match n with
  | O => mret []
  | S n => top ← get_root; k ← get_key top; _M_pop 63;; ks ← drain n; mret (k :: ks)
  end.

Definition key_le (a b : K) : Prop := key_lt b a = false.

Lemma push_all_correct l : forall s t F,
  heap_rep s t (l ++ F) -> Z.of_nat (length (elems t) + length l) < 2 ^ 63 ->
  returns (push_all l.*1) s (fun _ s' => exists t', heap_rep s' t' F /\
    elems t' ≡ₚ ((fun c => (c.1, _Key c.2)) <$> l) ++ elems t).
Proof.
  induction l as [|[x nd] l IH]; intros s t F H1 Hn; simpl.
  { apply returns_ret. by exists t. }
  apply returns_bind. simpl in Hn.
  eapply returns_mono; [eapply push_correct; [exact H1|lia|lia]|].
  intros _ s1 (t1 & H2 & E1).
  eapply returns_mono; [eapply IH; [exact H2|apply Permutation_length in E1; simpl in E1; lia]|].
  intros _ s2 (t2 & H3 & E2). exists t2. split; [done|]. rewrite E2, E1. simpl. perm.
Qed.

Lemma drain_correct n : forall s t F,
  heap_rep s t F -> length (elems t) = n -> Z.of_nat n < 2 ^ 63 ->
  returns (drain n) s (fun ks s' => StronglySorted key_le ks /\ ks ≡ₚ (elems t).*2 /\
    exists F', heap_rep s' Leaf (F' ++ F) /\ F'.*1 ≡ₚ (elems t).*1).
Proof.
  induction n as [|n IH]; intros s t F H1 Hlen Hn; cbn [drain].
  { destruct t; [|done]. apply returns_ret. split_and!; [constructor|done|]. by exists []. }
  destruct t as [|x k l r]; [done|]. pose proof H1 as (H2 & _ & Ho). hnorm H2. hsteps. clear H2.
  eapply returns_mono; [apply (pop_correct s (Node x k l r) F 63 H1); lia|].
  intros _ s1 (t1 & nl & nr & H2 & E1). apply returns_bind.
  eapply returns_mono; [eapply IH; [exact H2|apply Permutation_length in E1; simpl in *; lia|lia]|].
  intros ks s2 (Hs & Hp & F' & H3 & E2). apply returns_ret. split_and!.
  - constructor; [done|]. apply Forall_forall. intros k' Hk'. rewrite Hp in Hk'.
    apply list_elem_of_fmap in Hk' as ([y ky] & -> & Hy). unfold key_le. simpl.
    apply (above_elems k (Node x k l r) y ky Ho); [simpl; apply key_lt_irrefl|]. rewrite E1. set_solver.
  - rewrite E1, Hp. done.
  - exists ((x, mkNode k nullptr nl nr) :: F'). split.
    + eapply heap_rep_perm; [exact H3|]. perm.
    + rewrite E1, fmap_cons, E2. done.
Qed.
End code.

(** ** Properties *)
Section properties.
Context `{KeyOrder K}.
Implicit Types (s : heap (K := K)) (F : list (ptr * node (K := K))).

Lemma remove_absent s t F x nd :
  heap_rep s t F -> (x, nd) ∈ F -> _Prev nd = nullptr -> _M_remove 63 x s = Done (false, s).
Proof.
  intros H1 Hin Hp. destruct H1 as ((H1 & Hr & _) & _).
  destruct (holds_elem (mem s) (cells nullptr t ++ F) x nd H1) as [Hx Hm]; [set_solver|].
  assert (x <> root t) as Hne.
  { intros ->. destruct t as [|y k l r]; [done|]. simpl in *.
    apply holds_cons in H1 as (_ & _ & Hnin & _). apply Hnin.
    apply list_elem_of_fmap. exists (y, nd). set_solver. }
  unfold _M_remove, get_prev, get_root, on_mem, load, mbind, M_bind, mret, M_ret, get, modify.
  rewrite decide_False by done. rewrite Hm, Hp. rewrite decide_True.
  + by destruct s.
  + split; [done|]. simpl. by rewrite Hr.
Qed.

(** C20: [_M_push] of a node that is not in the heap leaves a complete, ordered
    heap with consistent parent and child pointers that holds the old elements
    and the new one; it terminates within one round per level, at most 63, and
    touches nothing but the nodes of the heap. *)
Theorem push_inserts s t x nd F :
  heap_rep s t ((x, nd) :: F) -> Z.of_nat (length (elems t)) + 1 < 2 ^ 63 ->
  returns (_M_push 63 x) s (fun _ s' => exists t',
    heap_rep s' t' F /\ elems t' ≡ₚ (x, _Key nd) :: elems t).
Proof. intros. by eapply push_correct. Qed.

(** C21: [_M_pop] removes the root, whose key no element of the heap is below;
    what remains is a heap of the other elements, and the removed node is marked
    as being in no heap.  On an empty heap nothing happens. *)
Theorem pop_least s t F :
  heap_rep s t F -> Z.of_nat (length (elems t)) < 2 ^ 63 ->
  returns (_M_pop 63) s (fun _ s' =>
    match t with
    | Leaf => heap_rep s' Leaf F
    | Node x k _ _ => exists t' nd, heap_rep s' t' ((x, nd) :: F) /\ _Key nd = k /\
        _Prev nd = nullptr /\ elems t ≡ₚ (x, k) :: elems t' /\
        __root_ s = x /\ forall y ky, (y, ky) ∈ elems t -> key_lt ky k = false
    end).
Proof.
  intros H1 Hn. eapply returns_mono; [by apply pop_correct|]. intros ? s'.
  destruct t as [|x k l r]; [done|]. intros (t' & nl & nr & H2 & E).
  destruct H1 as ((_ & Hr & _) & _ & Ho). exists t', (mkNode k nullptr nl nr).
  split_and!; try done; [apply H2..|]. intros y ky. apply above_elems; [done|].
  simpl. apply key_lt_irrefl.
Qed.

(** C19: [_M_remove] of any node of the heap returns true and leaves a heap of
    the other elements, whether the last leaf that replaces it has to move up or
    down; the node is then marked as being in no heap, and [_M_remove] of a
    node with that mark returns false and changes nothing. *)
Theorem remove_exact s t F x :
  heap_rep s t F -> Z.of_nat (length (elems t)) < 2 ^ 63 ->
  (x ∈ (elems t).*1 -> returns (_M_remove 63 x) s (fun b s' => b = true /\
     exists t' nd, heap_rep s' t' ((x, nd) :: F) /\ _Prev nd = nullptr /\
       elems t ≡ₚ (x, _Key nd) :: elems t')) /\
  (forall nd, (x, nd) ∈ F -> _Prev nd = nullptr -> _M_remove 63 x s = Done (false, s)).
Proof.
  intros H1 Hn. split.
  - intros Hx. eapply returns_mono; [by apply remove_correct|].
    intros b s' (-> & t' & k & nl & nr & H2 & E). split; [done|].
    exists t', (mkNode k nullptr nl nr). by split_and!; try apply H2.
  - intros nd ??. by eapply remove_absent.
Qed.

(** a heap sorts.  Pushing any nodes into an empty heap and popping as
    many times yields their keys in ascending order, without fault. *)
Theorem heap_sorts s l F :
  heap_rep s Leaf (l ++ F) -> Z.of_nat (length l) < 2 ^ 63 ->
  returns (push_all l.*1;; drain (length l)) s (fun ks s' =>
    StronglySorted key_le ks /\ ks ≡ₚ (_Key ∘ snd) <$> l /\ __root_ s' = nullptr /\ __size_ s' = 0).
Proof.
  intros H1 Hn. apply returns_bind.
  eapply returns_mono; [eapply push_all_correct; [exact H1|simpl; lia]|].
  intros _ s1 (t1 & H2 & E1). simpl in E1. rewrite app_nil_r in E1.
  eapply returns_mono.
  { eapply drain_correct; [exact H2| |exact Hn]. by rewrite E1, length_fmap. }
  intros ks s2 (Hs & Hp & F' & ((_ & Hr & Hz) & _) & _). split_and!; [done| |done|done].
  by rewrite Hp, E1, <- list_fmap_compose.
Qed.
End properties.

(** the keys of timers are totally ordered: by deadline, and among equal
    deadlines by the sequence number drawn when the timer was created, so that
    timers with one deadline are served in order of creation. *)
Theorem time_sequence_total a b c :
  (time_sequence_lt a b = true \/ a = b \/ time_sequence_lt b a = true) /\
  ~ (time_sequence_lt a b = true /\ time_sequence_lt b a = true) /\
  (time_sequence_lt a b = true -> time_sequence_lt b c = true -> time_sequence_lt a c = true) /\
  (__deadline_ a = __deadline_ b -> __seq_ a < __seq_ b -> time_sequence_lt a b = true).
Proof.
  rewrite !time_sequence_lt_spec. destruct a as [da sa], b as [db sb]; simpl.
  split_and!; [|lia..].
  destruct (Z.lt_trichotomy da db) as [|[->|]], (Z.lt_trichotomy sa sb) as [|[->|]]; auto with lia.
Qed.

(** ** Five nodes *)
Module heap_example.
Definition fresh (k : Z) : node := mkNode k nullptr nullptr nullptr.
Definition nodes : list (ptr * node) :=
  [(16, fresh 5); (32, fresh 2); (48, fresh 7); (64, fresh 2); (80, fresh 1)].
Definition start : heap := mkHeap (list_to_map nodes) nullptr 0.

Lemma start_rep : heap_rep start Leaf nodes.
Proof.
  unfold heap_rep, hp, holds. split_and!; try done.
  - apply (bool_decide_unpack _). vm_compute. exact I.
  - repeat constructor; vm_compute; done.
Qed.

(** The heap of the first three nodes, in the memory of all five. *)
Definition t3 : tree := Node 32 2 (Node 16 5 Leaf Leaf) (Node 48 7 Leaf Leaf).
Definition start3 : heap := mkHeap (list_to_map (cells nullptr t3 ++ drop 3 nodes)) 32 3.
Lemma start3_rep : heap_rep start3 t3 (drop 3 nodes).
Proof.
  unfold heap_rep, hp, holds. split_and!; try done.
  - apply (bool_decide_unpack _). vm_compute. exact I.
  - repeat constructor; vm_compute; done.
Qed.

Lemma push_inserts_witness :
  returns (_M_push 63 64) start3 (fun _ s' => exists t',
    heap_rep s' t' (drop 4 nodes) /\ elems t' ≡ₚ (64, 2) :: elems t3).
Proof. apply (push_inserts start3 t3 64 (fresh 2) (drop 4 nodes) start3_rep). vm_compute. reflexivity. Defined.

Lemma pop_least_witness :
  returns (_M_pop 63) start3 (fun _ s' => exists t' nd,
    heap_rep s' t' ((32, nd) :: drop 3 nodes) /\ elems t3 ≡ₚ (32, 2) :: elems t').
Proof.
  eapply returns_mono.
  - apply (pop_least start3 t3 (drop 3 nodes) start3_rep). vm_compute. reflexivity.
  - intros u s' (t' & nd & H1 & _ & _ & H2 & _). exists t', nd. split; [exact H1|exact H2].
Defined.

Lemma remove_exact_witness :
  returns (_M_remove 63 16) start3 (fun b _ => b = true) /\
  _M_remove 63 64 start3 = Done (false, start3).
Proof.
  assert (Z.of_nat (length (elems t3)) < 2 ^ 63) as Hn by (vm_compute; reflexivity).
  destruct (remove_exact start3 t3 (drop 3 nodes) 16 start3_rep Hn) as [H1 _].
  destruct (remove_exact start3 t3 (drop 3 nodes) 64 start3_rep Hn) as [_ H2].
  split.
  - eapply returns_mono; [apply H1|intros b s' [Hb _]; exact Hb].
    apply (bool_decide_unpack _). vm_compute. exact I.
  - apply (H2 (fresh 2)); [apply elem_of_cons; left; reflexivity|reflexivity].
Defined.

Lemma heap_sorts_witness :
  returns (push_all nodes.*1;; drain 5) start (fun ks s' =>
    StronglySorted key_le ks /\ ks ≡ₚ [5; 2; 7; 2; 1] /\ __root_ s' = nullptr /\ __size_ s' = 0).
Proof.
  apply (heap_sorts start nodes []); [|vm_compute; reflexivity].
  rewrite app_nil_r. exact start_rep.
Defined.

Lemma time_sequence_total_witness :
  time_sequence_lt (mkTimeSequence 10 1) (mkTimeSequence 10 2) = true /\
  time_sequence_lt (mkTimeSequence 10 1) (mkTimeSequence 11 0) = true.
Proof.
  destruct (time_sequence_total (mkTimeSequence 10 1) (mkTimeSequence 10 2) (mkTimeSequence 11 0))
    as (_ & _ & Htrans & Hseq).
  assert (time_sequence_lt (mkTimeSequence 10 1) (mkTimeSequence 10 2) = true) as E.
  { apply Hseq; vm_compute; reflexivity. }
  split; [exact E|]. apply Htrans; [exact E|vm_compute; reflexivity].
Defined.
End heap_example.
End intrusive_heap.
