(* ===== verification/FrameAllocator.v ===== *)
(** * [__allocator.hpp]: a stack of coroutine frames in a chain of chunks

    Coroutine frames are allocated and freed in stack order from chunks that
    are obtained from [operator new] and kept until the allocator is destroyed.
    Every frame is preceded by a prefix that records the position to return to.

    Module [frame_allocator] models the memory as 64-bit words at byte
    addresses, so that prefixes and the contents of frames live in the same
    store; an access outside the blocks obtained from [operator new] is a fault.
    [operator new] itself is a parameter. *)

From S2P Require Import Prelude RoundUp.

Module frame_allocator.
Section code.

(** [operator new(n, std::nothrow)], given the blocks in use: an address, or
    null when the allocation fails. *)
Context (operator_new : list (ptr * Z) -> Z -> ptr).

Definition __min_capacity_ : Z := 1024.
Definition __growth_factor_ : Z := 2.
(** [sizeof(__chunk_prefix)] and [sizeof(__frame_prefix)]: two pointers each,
    asserted to be [__STDCPP_DEFAULT_NEW_ALIGNMENT__]. *)
Definition sizeof_prefix : Z := 16.

(** [blocks]: the blocks obtained from [operator new] and not yet deleted. *)
Record state := mkState {
  mem : gmap ptr Z;
  blocks : list (ptr * Z);
  __chunk_ : ptr;
  __cur_chunk_ : ptr;
  __cur_bump_ : ptr;
  __next_cap_ : Z
}.

(** A new allocator, in any memory. *)
Definition fresh (m : gmap ptr Z) : state := mkState m [] nullptr nullptr nullptr __min_capacity_.

(** ** Memory *)

Definition in_block (p : ptr) (b : ptr * Z) : bool := (b.1 <=? p) && (p + 8 <=? b.1 + b.2).

Definition guard_access (p : ptr) : M state unit :=
  s ← get;
  if decide (p = nullptr) then throw NullDeref
  else if existsb (in_block p) (blocks s) then mret tt else throw (Dangling p).

Definition write (p v : ptr) : M state unit :=
  guard_access p;;
  modify (fun s => mkState (<[p := v]> (mem s)) (blocks s) (__chunk_ s) (__cur_chunk_ s)
                     (__cur_bump_ s) (__next_cap_ s)).

Definition read (p : ptr) : M state Z :=
  guard_access p;; s ← get;
  match mem s !! p with Some v => mret v | None => throw Undefined end.

Definition set_chunk (v : ptr) : M state unit := modify (fun s =>
  mkState (mem s) (blocks s) v (__cur_chunk_ s) (__cur_bump_ s) (__next_cap_ s)).
Definition set_cursor (c b : ptr) : M state unit := modify (fun s =>
  mkState (mem s) (blocks s) (__chunk_ s) c b (__next_cap_ s)).
Definition set_next_cap (v : Z) : M state unit := modify (fun s =>
  mkState (mem s) (blocks s) (__chunk_ s) (__cur_chunk_ s) (__cur_bump_ s) v).

Definition new (n : Z) : M state ptr :=
  s ← get;
  let p := operator_new (blocks s) n in
  if decide (p = nullptr) then mret p
  else
    put (mkState (mem s) (blocks s ++ [(p, n)]) (__chunk_ s) (__cur_chunk_ s)
           (__cur_bump_ s) (__next_cap_ s));;
    mret p.

(** [operator delete] of what is not an allocated block is undefined. *)
Definition delete (p : ptr) : M state unit :=
  s ← get;
  if existsb (fun b => b.1 =? p) (blocks s) then
    put (mkState (mem s) (filter (fun b => b.1 <> p) (blocks s)) (__chunk_ s) (__cur_chunk_ s)
           (__cur_bump_ s) (__next_cap_ s))
  else throw Undefined.

(** ** Members of a chunk prefix *)
Definition get_next_ (c : ptr) : M state ptr := read c.
Definition put_next_ (c v : ptr) : M state unit := write c v.
Definition get_limit_ (c : ptr) : M state ptr := read (c + 8).
Definition put_limit_ (c v : ptr) : M state unit := write (c + 8) v.
Definition _M_start (c : ptr) : ptr := u64 (c + sizeof_prefix).

(** ** Operations *)

Definition _M_allocate_chunk (__hint : Z) : M state ptr :=
  s ← get;
  let __cur_cap := if __next_cap_ s <? __hint then __hint else __next_cap_ s in
  let __n := u64 (sizeof_prefix + __cur_cap) in
  __vptr ← new __n;
  put_next_ __vptr nullptr;;
  put_limit_ __vptr (u64 (__vptr + __n));;
  s ← get;
  (if decide (__cur_chunk_ s = nullptr) then set_chunk __vptr
   else put_next_ (__cur_chunk_ s) __vptr);;
  set_next_cap (u64 (__cur_cap * __growth_factor_));;
  mret __vptr.

(** [while (true)]. *)
Fixpoint push_loop (fuel : nat) (__n __saved_cur_chunk __saved_cur_bump : Z) : M state ptr :=
  match fuel with
  | O => throw OutOfFuel
  | S fuel =>
      s ← get;
      let __r := u64 (__cur_bump_ s + sizeof_prefix) in
      limit ← get_limit_ (__cur_chunk_ s);
      if u64 (__r + __n) <=? limit then
        write (__cur_bump_ s) __saved_cur_chunk;;
        write (__cur_bump_ s + 8) __saved_cur_bump;;
        set_cursor (__cur_chunk_ s) (u64 (__cur_bump_ s + __n));;
        mret __r
      else
        next ← get_next_ (__cur_chunk_ s);
        if decide (next <> nullptr) then
          set_cursor next (_M_start next);;
          push_loop fuel __n __saved_cur_chunk __saved_cur_bump
        else
          __chunk ← _M_allocate_chunk __n;
          set_cursor __chunk (_M_start __chunk);;
          push_loop fuel __n __saved_cur_chunk __saved_cur_bump
  end.

(** The rounded size of a frame and its prefix. *)
Definition frame_size (__sz : Z) : Z := __round_up (u64 (sizeof_prefix + __sz)) 16.

Definition _M_push_stack_frame (fuel : nat) (__sz : Z) : M state ptr :=
  let __n := frame_size __sz in
  s ← get;
  (if decide (__cur_chunk_ s = nullptr) then
     __chunk ← _M_allocate_chunk __n; set_cursor __chunk (_M_start __chunk)
   else mret tt);;
  s ← get;
  push_loop fuel __n (__cur_chunk_ s) (__cur_bump_ s).

Definition _M_pop_stack_frame (__fr : ptr) : M state unit :=
  c ← read (__fr - sizeof_prefix);
  b ← read (__fr - sizeof_prefix + 8);
  set_cursor c b.

Fixpoint destroy_loop (fuel : nat) (__h : ptr) : M state unit :=
  if decide (__h <> nullptr) then
    match fuel with
    | O => throw OutOfFuel
    | S fuel => __tmp ← get_next_ __h; delete __h;; destroy_loop fuel __tmp
    end
  else mret tt.

(** [~__allocator]. *)
Definition destroy (fuel : nat) : M state unit := s ← get; destroy_loop fuel (__chunk_ s).

(** ** The allocator as a stack *)

(** A live frame: the index of its chunk, the address of its prefix, its size
    with the prefix, and the position saved in the prefix. *)
Record frame := mkFrame { f_idx : nat; f_at : ptr; f_n : Z; f_from : nat; f_bump : ptr }.

(** The address the caller got. *)
Definition payload (f : frame) : ptr := f_at f + sizeof_prefix.

Definition disjoint_ranges (a n b m : Z) : Prop := a + n <= b \/ b + m <= a.

(** The chunks in order: linked, each with its limit, the last link null. *)
Definition address (bs : list (ptr * Z)) (i : nat) : ptr := default nullptr (fst <$> bs !! i).
Definition chain (m : gmap ptr Z) (h : ptr) (bs : list (ptr * Z)) : Prop :=
  h = address bs 0 /\ forall i c n, bs !! i = Some (c, n) ->
    m !! (c + 8) = Some (c + n) /\ m !! c = Some (address bs (S i)).

Definition block_ok (b : ptr * Z) : Prop :=
  0 < b.1 /\ (16 | b.1) /\ sizeof_prefix <= b.2 < 2 ^ 63 /\ b.1 + b.2 <= 2 ^ 47.

Definition apart (bs : list (ptr * Z)) : Prop :=
  forall i j b b', bs !! i = Some b -> bs !! j = Some b' -> i <> j ->
    disjoint_ranges b.1 b.2 b'.1 b'.2.

(** [position bs i b]: [b] is a possible value of [__cur_bump_] in chunk [i]. *)
Definition position (bs : list (ptr * Z)) (i : nat) (b : ptr) : Prop :=
  exists c n, bs !! i = Some (c, n) /\ c + sizeof_prefix <= b <= c + n /\ (16 | b).

Definition start_of (bs : list (ptr * Z)) (i : nat) : option ptr :=
  (fun b => b.1 + sizeof_prefix) <$> bs !! i.

(** [stack bs m i b fs]: the frames [fs], last first, end at address [b] in
    chunk [i], and each prefix leads to the position below. *)
Fixpoint stack (bs : list (ptr * Z)) (m : gmap ptr Z) (i : nat) (b : ptr) (fs : list frame) : Prop :=
  position bs i b /\
  match fs with
  | [] => True
  | f :: fs =>
      f_idx f = i /\ f_at f + f_n f = b /\ sizeof_prefix <= f_n f /\
      position bs i (f_at f) /\
      ((f_from f = i /\ f_bump f = f_at f) \/
       ((f_from f < i)%nat /\ start_of bs i = Some (f_at f))) /\
      m !! (f_at f) = fst <$> bs !! f_from f /\ m !! (f_at f + 8) = Some (f_bump f) /\
      stack bs m (f_from f) (f_bump f) fs
  end.

(** The state of an allocator with live frames [fs]; an allocator that was
    never used has no chunk. *)
Record arep (s : state) (fs : list frame) : Prop := {
  a_chain : chain (mem s) (__chunk_ s) (blocks s);
  a_apart : apart (blocks s);
  a_ok : Forall block_ok (blocks s);
  a_cap : 0 < __next_cap_ s < 2 ^ 64 - 16;
  a_cur : match blocks s with
          | [] => __cur_chunk_ s = nullptr /\ fs = []
          | _ => exists i, fst <$> blocks s !! i = Some (__cur_chunk_ s) /\
                   stack (blocks s) (mem s) i (__cur_bump_ s) fs
          end
}.

(** What [operator new] promises: an address it returns is aligned for any
    object, in the user half of the address space, apart from the blocks in
    use, and no object is larger than [PTRDIFF_MAX]. *)
Definition new_spec : Prop := forall bs n,
  let p := operator_new bs n in
  p <> nullptr ->
  0 < p /\ (16 | p) /\ n < 2 ^ 63 /\ p + n <= 2 ^ 47 /\
  forall b, b ∈ bs -> disjoint_ranges p n b.1 b.2.

End code.

(** ** Lemmas on chunks *)

Section layout.

Lemma existsb_in_block bs i c n p :
  bs !! i = Some (c, n) -> c <= p -> p + 8 <= c + n -> existsb (in_block p) bs = true.
Proof.
  intros Hi ??. apply existsb_exists. exists (c, n). split.
  - apply list_elem_of_In. by eapply list_elem_of_lookup_2.
  - unfold in_block. simpl. lia.
Qed.

Lemma returns_guard s p i c n (Q : unit -> state -> Prop) :
  p <> nullptr -> blocks s !! i = Some (c, n) -> c <= p -> p + 8 <= c + n -> Q tt s ->
  returns (guard_access p) s Q.
Proof.
  intros. unfold guard_access. apply returns_bind, returns_get.
  rewrite decide_False, (existsb_in_block _ i c n) by done. by apply returns_ret.
Qed.

Lemma returns_write s p v i c n (Q : unit -> state -> Prop) :
  p <> nullptr -> blocks s !! i = Some (c, n) -> c <= p -> p + 8 <= c + n ->
  Q tt (mkState (<[p := v]> (mem s)) (blocks s) (__chunk_ s) (__cur_chunk_ s)
          (__cur_bump_ s) (__next_cap_ s)) ->
  returns (write p v) s Q.
Proof. intros. unfold write. by eapply returns_bind, returns_guard. Qed.

Lemma returns_read s p v i c n (Q : Z -> state -> Prop) :
  p <> nullptr -> blocks s !! i = Some (c, n) -> c <= p -> p + 8 <= c + n ->
  mem s !! p = Some v -> Q v s -> returns (read p) s Q.
Proof.
  intros ???? Hm HQ. unfold read. eapply returns_bind, returns_guard; [done..|].
  apply returns_bind, returns_get. by rewrite Hm.
Qed.

Lemma block_at bs i c n : Forall block_ok bs -> bs !! i = Some (c, n) -> block_ok (c, n).
Proof. intros Hall Hi. rewrite Forall_lookup in Hall. by eapply Hall. Qed.

(** ** Lemmas on frames *)

Lemma stack_position bs m i b fs : stack bs m i b fs -> position bs i b.
Proof. by destruct fs; intros []. Qed.

Lemma stack_elem bs m i b fs f : stack bs m i b fs -> f ∈ fs ->
  position bs (f_idx f) (f_at f) /\ sizeof_prefix <= f_n f /\
  position bs (f_idx f) (f_at f + f_n f) /\
  ((f_idx f < i)%nat \/ f_idx f = i /\ f_at f + f_n f <= b).
Proof.
  revert i b. induction fs as [|g fs IH]; intros i b; [by intros _ ?%not_elem_of_nil|].
  intros (Hp & Hi & Hb & Hn & Hat & Hfrom & _ & _ & Hs) [->|Hf]%elem_of_cons.
  - subst i b. split_and!; try done. right. split; [done|lia].
  - destruct (IH _ _ Hs Hf) as (H1 & H2 & H3 & H4). split_and!; [done..|].
    unfold sizeof_prefix in H2, Hn.
    destruct Hfrom as [[E1 E2]|[E1 _]], H4 as [H4|[H4 H5]]; (left; lia) || (right; lia).
Qed.

Lemma position_app bs bs' i b : position bs i b -> position (bs ++ bs') i b.
Proof. intros (c & n & Hi & ?). exists c, n. by rewrite (lookup_app_l_Some _ _ _ _ Hi). Qed.

Lemma position_lt bs i b : position bs i b -> (i < length bs)%nat.
Proof. intros (c & n & Hi & _). by eapply lookup_lt_Some. Qed.

(** A stack reads the prefixes of its frames only. *)
Lemma stack_frame bs bs' m m' i b fs :
  stack bs m i b fs ->
  (forall f, f ∈ fs -> m' !! (f_at f) = m !! (f_at f) /\ m' !! (f_at f + 8) = m !! (f_at f + 8)) ->
  stack (bs ++ bs') m' i b fs.
Proof.
  revert i b. induction fs as [|f fs IH]; intros i b; simpl.
  - intros [? _] _. split; [by apply position_app|done].
  - intros (Hp & Hi & Hb & Hn & Hat & Hfrom & Hm1 & Hm2 & Hs) Hm.
    destruct (Hm f) as [E1 E2]; [set_solver|]. rewrite E1, E2.
    pose proof (position_lt _ _ _ Hp). pose proof (position_lt _ _ _ (stack_position _ _ _ _ _ Hs)).
    unfold start_of. rewrite !lookup_app_l by done.
    split_and!; auto using position_app. apply IH; [done|]. set_solver.
Qed.

(** What lies in one chunk is apart from what lies in another, and from its
    prefix. *)
Lemma positions_apart bs i j a n a' n' :
  apart bs -> position bs i a -> position bs i (a + n) -> 0 <= n ->
  position bs j a' -> position bs j (a' + n') -> 0 <= n' -> i <> j ->
  disjoint_ranges a n a' n'.
Proof.
  intros Hap (c & k & Hi & Ha & _) (? & ? & Hi' & Ha' & _) ? (c' & k' & Hj & Hb & _)
    (? & ? & Hj' & Hb' & _) ? Hne. simplify_eq.
  destruct (Hap i j _ _ Hi Hj Hne) as [Hd|Hd]; simpl in Hd; unfold disjoint_ranges, sizeof_prefix in *; lia.
Qed.

End layout.

(** ** Outcomes that depend on [operator new] *)

(** [m] succeeds with [Q], or it runs into a null pointer and [R] holds: [R] says
    which request of [m] has been refused. *)
Definition attempts {S A} (R : Prop) (m : M S A) (s : S) (Q : A -> S -> Prop) : Prop :=
  match m s with
  | Done (a, s') => Q a s'
  | Fault f => f = NullDeref /\ R
  end.

Section attempts.
Context {S : Type} (R : Prop).

Lemma attempts_returns {A} (m : M S A) s Q : returns m s Q -> attempts R m s Q.
Proof. unfold returns, attempts. by destruct (m s) as [[]|]. Qed.

Lemma attempts_granted {A} (m : M S A) s Q : attempts R m s Q -> ~ R -> returns m s Q.
Proof. unfold returns, attempts. destruct (m s) as [[]|]; [done|]. by intros [_ HR] []. Qed.

Lemma attempts_mono {A} (m : M S A) s (P Q : A -> S -> Prop) :
  attempts R m s P -> (forall a s', P a s' -> Q a s') -> attempts R m s Q.
Proof. unfold attempts. destruct (m s) as [[]|]; auto. Qed.

Lemma attempts_impl (R' : Prop) {A} (m : M S A) s (P Q : A -> S -> Prop) :
  attempts R' m s P -> (R' -> R) -> (forall a s', P a s' -> Q a s') -> attempts R m s Q.
Proof. unfold attempts. destruct (m s) as [[]|]; [auto|]. intros [-> ?] HR. auto. Qed.

Lemma attempts_bind {A B} (m : M S A) (k : A -> M S B) s (Q : B -> S -> Prop) :
  attempts R m s (fun a s' => attempts R (k a) s' Q) -> attempts R (m ≫= k) s Q.
Proof. unfold attempts, mbind, M_bind. by destruct (m s) as [[]|]. Qed.

Lemma attempts_bind_returns {A B} (m : M S A) (k : A -> M S B) s (Q : B -> S -> Prop) :
  returns m s (fun a s' => attempts R (k a) s' Q) -> attempts R (m ≫= k) s Q.
Proof. intros. by apply attempts_bind, attempts_returns. Qed.
End attempts.

Section correctness.
Context (operator_new : list (ptr * Z) -> Z -> ptr).

(** What [_M_allocate_chunk] asks for. *)
Definition chunk_size (cap n : Z) : Z := sizeof_prefix + Z.max cap n.

(** One of the next [k] chunks for a frame of [n] bytes is refused. *)
Fixpoint denied (k : nat) (bs : list (ptr * Z)) (cap n : Z) : Prop :=
  match k with
  | O => False
  | S k =>
      let p := operator_new bs (chunk_size cap n) in
      p = nullptr \/ denied k (bs ++ [(p, chunk_size cap n)]) (Z.max cap n * __growth_factor_) n
  end.

Context (Hnew : new_spec operator_new).

(** ** [_M_allocate_chunk] *)

(** Linking a new chunk [p] of [n] bytes at the end. *)
Definition link_chunk (m : gmap ptr Z) (bs : list (ptr * Z)) (p : ptr) (n : Z) : gmap ptr Z :=
  let m1 := <[p + 8 := p + n]> (<[p := nullptr]> m) in
  match last bs with Some (c, _) => <[c := p]> m1 | None => m1 end.

Lemma last_lookup_Some (bs : list (ptr * Z)) b : last bs = Some b -> bs !! (length bs - 1)%nat = Some b.
Proof. intros H. rewrite last_lookup in H. by rewrite <- H, Nat.sub_1_r. Qed.

Lemma new_apart bs p n :
  apart bs -> (forall b, b ∈ bs -> disjoint_ranges p n b.1 b.2) -> apart (bs ++ [(p, n)]).
Proof.
  intros Hap Hd i j b b' Hi Hj Hne. unfold disjoint_ranges in *.
  apply lookup_app_Some in Hi as [Hi|[Hli Hi]], Hj as [Hj|[Hlj Hj]].
  - by eapply Hap.
  - apply list_lookup_singleton_Some in Hj as [? <-]. apply list_elem_of_lookup_2, Hd in Hi. simpl. lia.
  - apply list_lookup_singleton_Some in Hi as [? <-]. apply list_elem_of_lookup_2, Hd in Hj. simpl. lia.
  - apply list_lookup_singleton_Some in Hi as [? <-], Hj as [? <-]. lia.
Qed.

(** Where the link writes: the new prefix and the first word of the last chunk. *)
Lemma link_chunk_other m bs p n a :
  a <> p -> a <> p + 8 -> (forall c k, last bs = Some (c, k) -> a <> c) ->
  link_chunk m bs p n !! a = m !! a.
Proof.
  intros ?? Hl. unfold link_chunk. destruct (last bs) as [[c k]|].
  - rewrite !lookup_insert_ne; eauto using not_eq_sym.
  - rewrite !lookup_insert_ne; eauto using not_eq_sym.
Qed.

Lemma chain_snoc m h bs p n :
  chain m h bs -> (forall b, b ∈ bs -> disjoint_ranges p n b.1 b.2) ->
  apart bs -> Forall block_ok bs -> block_ok (p, n) ->
  chain (link_chunk m bs p n) (match bs with [] => p | _ => h end) (bs ++ [(p, n)]).
Proof.
  intros [Hh Hc] Hd Hap Hall (Hp0 & _ & [Hn _] & _).
  assert (forall i c k, bs !! i = Some (c, k) -> disjoint_ranges p n c k /\ sizeof_prefix <= k) as Hd'.
  { intros i c k Hi. split; [by eapply (Hd (c, k)), list_elem_of_lookup_2|].
    by destruct (block_at _ _ _ _ Hall Hi) as (_ & _ & [? _] & _). }
  unfold sizeof_prefix, disjoint_ranges in *. simpl in *. split.
  { destruct bs; [done|]. by rewrite Hh. }
  intros i c k Hi. apply lookup_app_Some in Hi as [Hi|[Hli Hi]].
  - destruct (Hd' _ _ _ Hi) as [Hdi Hk]. destruct (Hc _ _ _ Hi) as [Hlim Hnx].
    assert (forall c' k', last bs = Some (c', k') -> i <> (length bs - 1)%nat ->
      c' + 8 <= c \/ c + 16 <= c') as Hlast.
    { intros c' k' Hl Hne. apply last_lookup_Some in Hl.
      destruct (Hd' _ _ _ Hl). destruct (Hap _ _ _ _ Hi Hl Hne) as [?|?]; simpl in *; lia. }
    split.
    + rewrite link_chunk_other; [done|lia..|]. intros c' k' Hl.
      destruct (decide (i = length bs - 1)%nat) as [->|Hne].
      * apply last_lookup_Some in Hl. simplify_eq. lia.
      * specialize (Hlast _ _ Hl Hne). lia.
    + unfold address. destruct (decide (i = length bs - 1)%nat) as [->|Hne].
      * assert (last bs = Some (c, k)) as Hl by by rewrite last_lookup, <- Nat.sub_1_r.
        unfold link_chunk. rewrite Hl, lookup_insert_eq. f_equal.
        apply lookup_lt_Some in Hi. rewrite lookup_app_r by lia.
        by replace (S (length bs - 1) - length bs)%nat with 0%nat by lia.
      * rewrite link_chunk_other; [|lia..|intros c' k' Hl; specialize (Hlast _ _ Hl Hne); lia].
        rewrite Hnx. unfold address. apply lookup_lt_Some in Hi. by rewrite lookup_app_l by lia.
  - apply list_lookup_singleton_Some in Hi as [Hi [= <- <-]].
    assert (forall c' k', last bs = Some (c', k') -> c' <> p /\ c' <> p + 8) as Hlast.
    { intros c' k' Hl%last_lookup_Some. destruct (Hd' _ _ _ Hl). lia. }
    assert (address (bs ++ [(p, n)]) (S i) = nullptr) as ->.
    { unfold address. rewrite lookup_ge_None_2; [done|]. rewrite length_app. simpl. lia. }
    unfold link_chunk. destruct (last bs) as [[c' k']|] eqn:Hl.
    + destruct (Hlast _ _ eq_refl). rewrite !(lookup_insert_ne _ c') by done.
      rewrite lookup_insert_eq, lookup_insert_ne, lookup_insert_eq by lia. done.
    + rewrite lookup_insert_eq, lookup_insert_ne, lookup_insert_eq by lia. done.
Qed.

(** The chunks of an allocator, without its cursor. *)
Record chunks_ok (s : state) : Prop := {
  c_chain : chain (mem s) (__chunk_ s) (blocks s);
  c_apart : apart (blocks s);
  c_ok : Forall block_ok (blocks s);
  c_cap : 0 < __next_cap_ s < 2 ^ 64 - 16
}.

Definition grown (s : state) (p cap : Z) : state :=
  mkState (link_chunk (mem s) (blocks s) p (sizeof_prefix + cap))
    (blocks s ++ [(p, sizeof_prefix + cap)])
    (match blocks s with [] => p | _ => __chunk_ s end)
    (__cur_chunk_ s) (__cur_bump_ s) (cap * __growth_factor_).

Lemma allocate_chunk_spec s n :
  chunks_ok s -> 0 <= n < 2 ^ 64 - 16 ->
  (blocks s = [] /\ __cur_chunk_ s = nullptr \/
   exists k, last (blocks s) = Some (__cur_chunk_ s, k)) ->
  attempts (operator_new (blocks s) (chunk_size (__next_cap_ s) n) = nullptr) (_M_allocate_chunk operator_new n) s (fun p s' =>
    p = operator_new (blocks s) (chunk_size (__next_cap_ s) n) /\
    let cap := Z.max (__next_cap_ s) n in
    s' = grown s p cap /\ chunks_ok s' /\ block_ok (p, sizeof_prefix + cap) /\
    (forall b, b ∈ blocks s -> disjoint_ranges p (sizeof_prefix + cap) b.1 b.2)).
Proof using Hnew.
  intros [Hc Hap Hok Hcap] Hn Hcur. unfold _M_allocate_chunk.
  apply attempts_bind_returns, returns_get.
  replace (if __next_cap_ s <? n then n else __next_cap_ s) with (Z.max (__next_cap_ s) n)
    by (destruct (Z.ltb_spec (__next_cap_ s) n); lia).
  unfold chunk_size. set (cap := Z.max (__next_cap_ s) n) in *. unfold sizeof_prefix in *.
  rewrite (wrap_small 64 (16 + cap)) by (unfold is_word; lia).
  apply attempts_bind. unfold new. apply attempts_bind_returns, returns_get.
  set (p := operator_new (blocks s) (16 + cap)) in *.
  case_decide as Hp.
  { apply attempts_returns, returns_ret. apply attempts_bind. rewrite Hp.
    unfold attempts, put_next_, write, guard_access, mbind, M_bind, get, throw.
    rewrite decide_True by done. by split. }
  destruct (Hnew (blocks s) (16 + cap) Hp) as (Hp0 & Hal & Hsz & Hend & Hd). fold p in Hp0, Hal, Hend, Hd.
  assert (block_ok (p, 16 + cap)) as Hbok.
  { unfold block_ok, sizeof_prefix. simpl. split_and!; (done || lia). }
  apply attempts_bind_returns, returns_put. apply attempts_returns, returns_ret.
  assert ((blocks s ++ [(p, 16 + cap)]) !! length (blocks s) = Some (p, 16 + cap)) as Hlast.
  { by rewrite lookup_app_r, Nat.sub_diag by lia. }
  apply attempts_bind_returns. eapply returns_write; [done|exact Hlast|lia..|]. simpl.
  apply attempts_bind_returns. unfold put_limit_. rewrite (wrap_small 64) by (unfold is_word; lia).
  eapply returns_write; [unfold nullptr; lia|exact Hlast|lia..|]. simpl.
  apply attempts_bind_returns, returns_get. simpl. apply attempts_bind_returns.
  assert (returns (if decide (__cur_chunk_ s = nullptr) then set_chunk p else put_next_ (__cur_chunk_ s) p)
    (mkState (<[p + 8 := p + (16 + cap)]> (<[p := nullptr]> (mem s))) (blocks s ++ [(p, 16 + cap)])
       (__chunk_ s) (__cur_chunk_ s) (__cur_bump_ s) (__next_cap_ s))
    (fun _ s' => s' = mkState (link_chunk (mem s) (blocks s) p (16 + cap)) (blocks s ++ [(p, 16 + cap)])
       (match blocks s with [] => p | _ => __chunk_ s end) (__cur_chunk_ s) (__cur_bump_ s) (__next_cap_ s)))
    as Hlink.
  { destruct Hcur as [[-> ->]|[k Hk]].
    - rewrite decide_True by done. by apply returns_modify.
    - pose proof (last_lookup_Some _ _ Hk) as Hi.
      destruct (block_at _ _ _ _ Hok Hi) as (Hc0 & _ & [Hk0 _] & _). simpl in *. unfold sizeof_prefix in Hk0.
      rewrite decide_False by (unfold nullptr; lia).
      eapply (returns_write _ _ _ (length (blocks s) - 1) (__cur_chunk_ s) k); [unfold nullptr; lia| |lia..|].
      + simpl. by apply lookup_app_l_Some.
      + unfold link_chunk. rewrite Hk. simpl. destruct (blocks s); [done|]. done. }
  eapply returns_mono; [exact Hlink|]. intros _ s2 ->.
  apply attempts_bind_returns, returns_modify. apply attempts_returns, returns_ret. simpl.
  rewrite (wrap_small 64) by (unfold is_word, __growth_factor_; lia).
  split; [done|]. split; [done|]. split; [|by split].
  split; simpl.
  - by apply chain_snoc.
  - by apply new_apart.
  - apply Forall_app. split; [done|]. by apply Forall_singleton.
  - unfold __growth_factor_. lia.
Qed.

(** ** Where frames are *)

Lemma stack_apart bs m i0 b0 fs f j b n :
  apart bs -> stack bs m i0 b0 fs -> f ∈ fs -> position bs j b -> position bs j (b + n) -> 0 <= n ->
  (j = i0 /\ b = b0 \/ (i0 < j)%nat) -> disjoint_ranges (f_at f) (f_n f) b n.
Proof.
  intros Hap Hs Hf Hb Hbn Hn Hj. destruct (stack_elem _ _ _ _ _ _ Hs Hf) as (H1 & H2 & H3 & H4).
  unfold sizeof_prefix in H2. destruct (decide (f_idx f = j)) as [E|E].
  - unfold disjoint_ranges. destruct Hj as [[-> ->]|]; [|lia]. destruct H4 as [|[_ ?]]; lia.
  - eapply positions_apart; [done|exact H1|exact H3|lia|exact Hb|exact Hbn|lia|done].
Qed.

(** A frame is apart from the prefix of every chunk. *)
Lemma stack_prefix bs m i0 b0 fs f j c k :
  apart bs -> stack bs m i0 b0 fs -> f ∈ fs -> bs !! j = Some (c, k) -> sizeof_prefix <= k ->
  disjoint_ranges (f_at f) (f_n f) c sizeof_prefix.
Proof.
  intros Hap Hs Hf Hj Hk. destruct (stack_elem _ _ _ _ _ _ Hs Hf) as ((c' & k' & Hi & H1 & _) & H2 & (? & ? & Hi2 & H3 & _) & _).
  simplify_eq. unfold disjoint_ranges, sizeof_prefix in *. destruct (decide (f_idx f = j)) as [<-|E].
  - simplify_eq. lia.
  - destruct (Hap _ _ _ _ Hi Hj E) as [Hd|Hd]; simpl in Hd; lia.
Qed.

(** A frame is inside a block. *)
Lemma stack_block bs m i0 b0 fs f p n :
  stack bs m i0 b0 fs -> f ∈ fs -> (forall b, b ∈ bs -> disjoint_ranges p n b.1 b.2) ->
  disjoint_ranges (f_at f) (f_n f) p n.
Proof.
  intros Hs Hf Hd. destruct (stack_elem _ _ _ _ _ _ Hs Hf) as ((c' & k' & Hi & H1 & _) & H2 & (? & ? & Hi2 & H3 & _) & _).
  simplify_eq. specialize (Hd (c', k') (list_elem_of_lookup_2 _ _ _ Hi)).
  unfold disjoint_ranges, sizeof_prefix in *. simpl in *. lia.
Qed.

(** ** The cursor *)

(** [cursor s i b i0 b0 fs]: the search has reached address [b] of chunk [i]
    from the position [b0] in chunk [i0], where the frames [fs] end. *)
Record cursor (s : state) (i : nat) (b : ptr) (i0 : nat) (b0 : ptr) (fs : list frame) : Prop := {
  u_chunks : chunks_ok s;
  u_chunk : fst <$> blocks s !! i = Some (__cur_chunk_ s);
  u_bump : __cur_bump_ s = b;
  u_pos : position (blocks s) i b;
  u_stack : stack (blocks s) (mem s) i0 b0 fs;
  u_from : (i = i0 /\ b = b0) \/ ((i0 < i)%nat /\ start_of (blocks s) i = Some b)
}.

Lemma cursor_move s c i b i' b' i0 b0 fs :
  cursor s i b i0 b0 fs -> fst <$> blocks s !! i' = Some c -> position (blocks s) i' b' ->
  (i0 < i')%nat -> start_of (blocks s) i' = Some b' ->
  cursor (mkState (mem s) (blocks s) (__chunk_ s) c b' (__next_cap_ s)) i' b' i0 b0 fs.
Proof. intros [[] ? ? ? ? ?] ????. split; simpl; [by split|done..|by right]. Qed.

(** Growing keeps the frames: the new chunk is apart from them, and the link is
    written to the prefix of a chunk. *)
Lemma stack_grown s p cap i0 b0 fs :
  chunks_ok s -> stack (blocks s) (mem s) i0 b0 fs ->
  (forall b, b ∈ blocks s -> disjoint_ranges p (sizeof_prefix + cap) b.1 b.2) -> 0 <= cap ->
  stack (blocks s ++ [(p, sizeof_prefix + cap)])
    (link_chunk (mem s) (blocks s) p (sizeof_prefix + cap)) i0 b0 fs.
Proof.
  intros [_ Hap Hok _] Hs Hd Hcap. eapply stack_frame; [done|]. intros f Hf.
  pose proof (stack_block _ _ _ _ _ _ _ _ Hs Hf Hd) as H1.
  destruct (stack_elem _ _ _ _ _ _ Hs Hf) as (_ & H2 & _).
  assert (forall c k, last (blocks s) = Some (c, k) -> f_at f <> c /\ f_at f + 8 <> c) as H3.
  { intros c k Hl%last_lookup_Some. destruct (block_at _ _ _ _ Hok Hl) as (_ & _ & [Hk _] & _).
    pose proof (stack_prefix _ _ _ _ _ _ _ _ _ Hap Hs Hf Hl Hk).
    unfold disjoint_ranges, sizeof_prefix in *. lia. }
  unfold disjoint_ranges, sizeof_prefix in *.
  split; apply link_chunk_other; try lia; intros c k Hl; by destruct (H3 c k Hl).
Qed.

(** Writing the prefix of a new frame at the cursor. *)
Lemma push_at s i b i0 b0 fs n c0 :
  cursor s i b i0 b0 fs -> position (blocks s) i (b + n) -> sizeof_prefix <= n ->
  fst <$> blocks s !! i0 = Some c0 ->
  arep (mkState (<[b + 8 := b0]> (<[b := c0]> (mem s))) (blocks s) (__chunk_ s) (__cur_chunk_ s)
          (b + n) (__next_cap_ s)) (mkFrame i b n i0 b0 :: fs).
Proof.
  intros [[[Hh Hc] Hap Hok Hcap] Hi Hb Hpos Hs Hfrom] Hn Hn16 Hc0.
  assert (i <> i0 -> (i0 < i)%nat) as Hne by lia.
  pose proof Hpos as (c & k & Hi' & Hbc & Hal). pose proof Hn as (c' & k' & Hi2 & Hbn & Hal2).
  rewrite Hi' in Hi2. injection Hi2 as <- <-. unfold sizeof_prefix in *.
  split; simpl; [|done..|].
  - split; [done|]. intros j cj kj Hj. destruct (block_at _ _ _ _ Hok Hj) as (_ & _ & [Hk _] & _).
    unfold sizeof_prefix in Hk. simpl in Hk.
    assert (b <> cj /\ b <> cj + 8 /\ b + 8 <> cj /\ b + 8 <> cj + 8) as (? & ? & ? & ?).
    { destruct (decide (i = j)) as [<-|E].
      { rewrite Hi' in Hj. injection Hj as <- <-. lia. }
      destruct (Hap _ _ _ _ Hi' Hj E) as [Hd|Hd]; simpl in Hd; lia. }
    rewrite !lookup_insert_ne by done. by apply Hc.
  - destruct (blocks s) as [|b1 bs] eqn:Ebs; [done|]. exists i. rewrite <- Ebs in *.
    split; [done|]. cbn [stack]. split; [done|]. simpl. split_and!; try done.
    + destruct Hfrom as [[-> ->]|[? ?]]; [by left|by right].
    + rewrite lookup_insert_ne by lia. by rewrite lookup_insert_eq, Hc0.
    + by rewrite lookup_insert_eq.
    + rewrite <- (app_nil_r (blocks s)). eapply stack_frame; [done|]. intros f Hf.
      destruct (stack_elem _ _ _ _ _ _ Hs Hf) as (_ & H2 & _). unfold sizeof_prefix in H2.
      assert (disjoint_ranges (f_at f) (f_n f) b n) as Hd.
      { eapply (stack_apart (blocks s)); [exact Hap|exact Hs|exact Hf|exact Hpos|exact Hn|lia|].
        destruct Hfrom as [[]|[]]; auto. }
      unfold disjoint_ranges in Hd. rewrite !lookup_insert_ne by lia. done.
Qed.

(** ** [_M_push_stack_frame] *)

(** The contents of the frames [fs] are as before. *)
Definition preserves (s s' : state) (fs : list frame) : Prop :=
  forall g a, g ∈ fs -> payload g <= a < f_at g + f_n g -> mem s' !! a = mem s !! a.

Lemma preserves_trans s1 s2 s3 fs : preserves s1 s2 fs -> preserves s2 s3 fs -> preserves s1 s3 fs.
Proof. intros H1 H2 g a ??. by rewrite (H2 g a), (H1 g a). Qed.

Lemma preserves_grown s p cap i0 b0 fs :
  chunks_ok s -> stack (blocks s) (mem s) i0 b0 fs ->
  (forall b, b ∈ blocks s -> disjoint_ranges p (sizeof_prefix + cap) b.1 b.2) -> 0 <= cap ->
  preserves s (grown s p cap) fs.
Proof.
  intros [_ Hap Hok _] Hs Hd Hcap g a Hg Ha. simpl.
  pose proof (stack_block _ _ _ _ _ _ _ _ Hs Hg Hd) as H1. unfold payload in Ha.
  unfold disjoint_ranges, sizeof_prefix in *. apply link_chunk_other; [lia..|].
  intros c k Hl%last_lookup_Some. destruct (block_at _ _ _ _ Hok Hl) as (_ & _ & [Hk _] & _).
  pose proof (stack_prefix _ _ _ _ _ _ _ _ _ Hap Hs Hg Hl Hk).
  unfold disjoint_ranges, sizeof_prefix in *. lia.
Qed.

(** A chunk has room for a frame of [n] bytes at [b], by the test of the code. *)
Definition fits (bs : list (ptr * Z)) (i : nat) (b n : Z) : bool :=
  match bs !! i with Some (c, k) => b + sizeof_prefix + n <=? c + k | None => false end.

(** The number of chunks that have to be allocated when none fits. *)
Definition need (s : state) (n : Z) : nat := if n + sizeof_prefix <=? __next_cap_ s then 1 else 2.

Definition rounds (s : state) (i : nat) (b n : Z) : nat :=
  if fits (blocks s) i b n then 1 else length (blocks s) - i + need s n.

(** What a push of a frame of [n] bytes asks for is refused: the chunk of the cursor
    has no room, and one of the at most two chunks that are then requested is
    not granted. *)
Definition refused_at (s : state) (i : nat) (b n : Z) : Prop :=
  fits (blocks s) i b n = false /\ denied (need s n) (blocks s) (__next_cap_ s) n.
Definition refused (s : state) (n : Z) : Prop :=
  (blocks s = [] \/ exists i, fst <$> blocks s !! i = Some (__cur_chunk_ s) /\ fits (blocks s) i (__cur_bump_ s) n = false) /\
  denied (need s n) (blocks s) (__next_cap_ s) n.

Lemma need_cases s n : need s n = 1%nat /\ n + sizeof_prefix <= __next_cap_ s \/
  need s n = 2%nat /\ __next_cap_ s < n + sizeof_prefix.
Proof. unfold need. destruct (Z.leb_spec (n + sizeof_prefix) (__next_cap_ s)); auto. Qed.

(** After the first chunk the request for the second one is what is left. *)
Lemma denied_first s n : operator_new (blocks s) (chunk_size (__next_cap_ s) n) = nullptr ->
  denied (need s n) (blocks s) (__next_cap_ s) n.
Proof. intros. destruct (need_cases s n) as [[-> _]|[-> _]]; by left. Qed.

Lemma denied_second s n p cap : cap = Z.max (__next_cap_ s) n -> p = operator_new (blocks s) (chunk_size (__next_cap_ s) n) ->
  cap < n + sizeof_prefix -> denied 1 (blocks s ++ [(p, sizeof_prefix + cap)]) (cap * __growth_factor_) n ->
  denied (need s n) (blocks s) (__next_cap_ s) n.
Proof. intros -> -> Hc Hd. destruct (need_cases s n) as [[_ ?]|[-> _]]; [lia|]. right. exact Hd. Qed.

Definition pushed (s : state) (fs : list frame) (n : Z) (i0 : nat) (b0 : ptr) (k : nat)
    (r : ptr) (s' : state) : Prop :=
  exists f, r = payload f /\ f_n f = n /\ f_from f = i0 /\ f_bump f = b0 /\ arep s' (f :: fs) /\
    preserves s s' fs /\ exists bs', blocks s' = blocks s ++ bs' /\ (length bs' <= k)%nat.

Lemma cursor_position s c k b i0 b0 fs i :
  cursor s i b i0 b0 fs -> blocks s !! i = Some (c, k) ->
  __cur_chunk_ s = c /\ 0 < c /\ (16 | c) /\ c + 16 <= b <= c + k /\ c + k <= 2 ^ 47 /\ (16 | b) /\
  mem s !! (c + 8) = Some (c + k) /\ mem s !! c = Some (address (blocks s) (S i)).
Proof.
  intros [[[_ Hc] _ Hok _] Hcur _ (c' & k' & Hi & Hb & Hal) _ _] Hi2.
  rewrite Hi2 in Hi, Hcur. injection Hi as <- <-. injection Hcur as <-.
  destruct (block_at _ _ _ _ Hok Hi2) as (? & ? & [? _] & ?). destruct (Hc _ _ _ Hi2).
  unfold sizeof_prefix in *. simpl in *. done.
Qed.

(** The frame fits where the cursor is. *)
Lemma push_here R s i b i0 b0 c0 fs n fuel k :
  cursor s i b i0 b0 fs -> fst <$> blocks s !! i0 = Some c0 -> (16 | n) -> 16 <= n ->
  fits (blocks s) i b n = true -> n < 2 ^ 63 + 64 ->
  attempts R (push_loop operator_new (S fuel) n c0 b0) s (fun r s' =>
    r = b + sizeof_prefix /\ __cur_chunk_ s' = __cur_chunk_ s /\ pushed s fs n i0 b0 k r s').
Proof.
  intros Hcur Hc0 Hal Hn Hfit Hmax. pose proof (u_pos _ _ _ _ _ _ Hcur) as (c & sz & Hi & _).
  destruct (cursor_position _ _ _ _ _ _ _ _ Hcur Hi) as (Ec & Hc1 & Hc2 & Hb & Hend & Hbal & Hlim & _).
  unfold fits in Hfit. rewrite Hi in Hfit. apply Z.leb_le in Hfit. unfold sizeof_prefix in Hfit.
  cbn [push_loop]. apply attempts_bind_returns, returns_get. apply attempts_bind_returns.
  rewrite Ec. unfold get_limit_. eapply (returns_read _ _ (c + sz) i c sz); [unfold nullptr; lia|done|lia..|done|].
  rewrite (u_bump _ _ _ _ _ _ Hcur). unfold sizeof_prefix.
  rewrite (wrap_small 64 (b + 16)) by (unfold is_word; lia).
  rewrite (wrap_small 64 (b + 16 + n)) by (unfold is_word; lia).
  rewrite (proj2 (Z.leb_le _ _)) by lia.
  apply attempts_bind_returns. eapply (returns_write _ _ _ i c sz); [unfold nullptr; lia|done|lia..|].
  apply attempts_bind_returns. eapply (returns_write _ _ _ i c sz); [unfold nullptr; lia|done|lia..|].
  apply attempts_bind_returns, returns_modify. simpl.
  rewrite (wrap_small 64 (b + n)) by (unfold is_word; lia).
  apply attempts_returns, returns_ret.
  split; [done|]. split; [done|].
  exists (mkFrame i b n i0 b0). split_and!; try done.
  - rewrite <- Ec. eapply push_at; [done| | |done].
    + exists c, sz. split_and!; [done|unfold sizeof_prefix; lia..|]. by apply Z.divide_add_r.
    + done.
  - intros g a Hg Ha. simpl. destruct Hcur as [[_ Hap _ _] _ _ Hpos Hs Hfrom].
    assert (disjoint_ranges (f_at g) (f_n g) b n) as Hd.
    { eapply (stack_apart (blocks s)); [exact Hap|exact Hs|exact Hg|exact Hpos| |lia|].
      - exists c, sz. split_and!; [done|unfold sizeof_prefix; lia..|]. by apply Z.divide_add_r.
      - destruct Hfrom as [[]|[]]; auto. }
    unfold payload, disjoint_ranges, sizeof_prefix in *. by rewrite !lookup_insert_ne by lia.
  - exists []. rewrite app_nil_r. split; [done|simpl; lia].
Qed.

Lemma start_position s i c k : Forall block_ok (blocks s) -> blocks s !! i = Some (c, k) ->
  position (blocks s) i (c + sizeof_prefix).
Proof.
  intros Hok Hi. destruct (block_at _ _ _ _ Hok Hi) as (? & Hal & [? _] & _). simpl in *.
  exists c, k. unfold sizeof_prefix in *. split_and!; [done|lia..|]. apply Z.divide_add_r; [done|].
  by exists 1.
Qed.

(** A chunk allocated at the end, with the cursor at its start. *)
Lemma cursor_grown s i b i0 b0 fs p cap :
  cursor s i b i0 b0 fs -> chunks_ok (grown s p cap) -> block_ok (p, sizeof_prefix + cap) ->
  (forall b, b ∈ blocks s -> disjoint_ranges p (sizeof_prefix + cap) b.1 b.2) -> 0 <= cap ->
  let s1 := grown s p cap in
  cursor (mkState (mem s1) (blocks s1) (__chunk_ s1) p (p + sizeof_prefix) (__next_cap_ s1))
    (length (blocks s)) (p + sizeof_prefix) i0 b0 fs.
Proof.
  intros Hcur Hok' Hb Hd Hcap s1.
  assert (blocks s1 !! length (blocks s) = Some (p, sizeof_prefix + cap)) as Hlast.
  { simpl. by rewrite lookup_app_r, Nat.sub_diag by lia. }
  pose proof (u_pos _ _ _ _ _ _ Hcur) as Hpos. pose proof (u_stack _ _ _ _ _ _ Hcur) as Hs.
  split; simpl; [by destruct Hok'| |done| |eapply stack_grown; [exact (u_chunks _ _ _ _ _ _ Hcur)|done..]|].
  - simpl in Hlast. by rewrite Hlast.
  - by eapply (start_position s1), Hlast; apply Hok'.
  - right. pose proof (position_lt _ _ _ (stack_position _ _ _ _ _ Hs)). split; [done|].
    unfold start_of. simpl in Hlast. by rewrite Hlast.
Qed.

Lemma last_index (bs : list (ptr * Z)) i c k :
  bs !! i = Some (c, k) -> address bs (S i) = nullptr -> Forall block_ok bs ->
  i = (length bs - 1)%nat.
Proof.
  intros Hi Ha Hok. apply lookup_lt_Some in Hi as Hl. destruct (bs !! S i) as [[c' k']|] eqn:E.
  - unfold address in Ha. rewrite E in Ha. simpl in Ha.
    destruct (block_at _ _ _ _ Hok E) as (? & _). simpl in *. unfold nullptr in Ha. lia.
  - apply lookup_ge_None in E. lia.
Qed.

(** One round when the chunk of the cursor has no room. *)
Lemma push_miss R s i b i0 b0 c0 fs n fuel (Q : ptr -> state -> Prop) :
  cursor s i b i0 b0 fs -> fits (blocks s) i b n = false -> 16 <= n < 2 ^ 63 + 64 ->
  (let next := address (blocks s) (S i) in
   attempts R (if decide (next <> nullptr) then
      set_cursor next (_M_start next);; push_loop operator_new fuel n c0 b0
    else
      __chunk ← _M_allocate_chunk operator_new n; set_cursor __chunk (_M_start __chunk);;
      push_loop operator_new fuel n c0 b0) s Q) ->
  attempts R (push_loop operator_new (S fuel) n c0 b0) s Q.
Proof.
  intros Hcur Hfit Hn HQ. pose proof (u_pos _ _ _ _ _ _ Hcur) as (c & sz & Hi & _).
  destruct (cursor_position _ _ _ _ _ _ _ _ Hcur Hi) as (Ec & Hc1 & Hc2 & Hb & Hend & Hbal & Hlim & Hnx).
  unfold fits in Hfit. rewrite Hi in Hfit. apply Z.leb_gt in Hfit. unfold sizeof_prefix in Hfit.
  cbn [push_loop]. apply attempts_bind_returns, returns_get. apply attempts_bind_returns.
  rewrite Ec. unfold get_limit_. eapply (returns_read _ _ (c + sz) i c sz); [unfold nullptr; lia|done|lia..|done|].
  rewrite (u_bump _ _ _ _ _ _ Hcur). unfold sizeof_prefix at 1.
  rewrite (wrap_small 64 (b + 16)) by (unfold is_word; lia).
  rewrite (wrap_small 64 (b + 16 + n)) by (unfold is_word; lia).
  rewrite (proj2 (Z.leb_gt _ _)) by lia.
  apply attempts_bind_returns. unfold get_next_.
  eapply (returns_read _ _ _ i c sz); [unfold nullptr; lia|done|lia..|exact Hnx|]. exact HQ.
Qed.

Lemma frame_push_loop_spec fuel : forall s i b i0 b0 c0 fs n,
  cursor s i b i0 b0 fs -> fst <$> blocks s !! i0 = Some c0 -> (16 | n) -> 16 <= n < 2 ^ 63 + 64 ->
  (rounds s i b n <= fuel)%nat ->
  attempts (refused_at s i b n) (push_loop operator_new fuel n c0 b0) s (pushed s fs n i0 b0
    (if fits (blocks s) i b n then 0 else need s n)).
Proof using Hnew.
  induction fuel as [|fuel IH]; intros s i b i0 b0 c0 fs n Hcur Hc0 Hal Hn Hfuel.
  all: pose proof (u_pos _ _ _ _ _ _ Hcur) as (c & sz & Hi & _).
  all: apply lookup_lt_Some in Hi as Hlen; unfold rounds in Hfuel.
  { unfold need in Hfuel. destruct (fits _ _ _ _); [lia|]. destruct (_ <=? _); lia. }
  destruct (fits (blocks s) i b n) eqn:Hfit; [|].
  { eapply attempts_mono; [by eapply push_here; [done..|lia|done|lia]|]. by intros r s' (_ & _ & ?). }
  destruct (cursor_position _ _ _ _ _ _ _ _ Hcur Hi) as (Ec & _).
  eapply push_miss; [exact Hcur|exact Hfit|lia|]. cbv zeta.
  pose proof (c_ok _ (u_chunks _ _ _ _ _ _ Hcur)) as Hok.
  pose proof (u_chunks _ _ _ _ _ _ Hcur) as Hchunks.
  pose proof (position_lt _ _ _ (stack_position _ _ _ _ _ (u_stack _ _ _ _ _ _ Hcur))) as Hlt0.
  case_decide as Hnext.
  - unfold address in Hnext |- *. destruct (blocks s !! S i) as [[c' k']|] eqn:Hi'; [|done]. simpl.
    destruct (block_at _ _ _ _ Hok Hi') as (Hc' & _ & _ & Hend'). simpl in Hc', Hend'.
    apply lookup_lt_Some in Hi' as Hlen'.
    apply attempts_bind_returns, returns_modify.
    unfold _M_start. destruct (block_at _ _ _ _ Hok Hi') as (_ & _ & [Hk _] & _). simpl in Hk.
    rewrite (wrap_small 64 (c' + sizeof_prefix)) by (unfold is_word, sizeof_prefix in *; lia).
    assert (i0 < S i)%nat by (destruct (u_from _ _ _ _ _ _ Hcur); lia).
    eapply attempts_impl.
    { clear Hfit. eapply (IH _ (S i)); [eapply cursor_move; [exact Hcur|by rewrite Hi'|by eapply start_position|done|]|done..|].
      - unfold start_of. by rewrite Hi'.
      - unfold rounds, need in *. simpl. repeat case_match; simplify_eq; lia. }
    { intros [_ Hd]. by split. }
    intros r s' (f & E1 & E2 & E3 & E4 & Hrep & Hpres & bs' & Eb & Hl). exists f. split_and!; try done.
    exists bs'. split; [done|]. clear Hfit. unfold need in *. simpl in Hl. destruct (fits _ _ _ _); lia.
  - assert (address (blocks s) (S i) = nullptr) as Hnull by exact Hnext.
    pose proof (last_index _ _ _ _ Hi Hnull Hok) as Ei.
    apply attempts_bind. eapply attempts_impl.
    { apply allocate_chunk_spec; [exact Hchunks|unfold sizeof_prefix in *; lia|]. right. exists sz.
      rewrite last_lookup, Ec. by replace (Init.Nat.pred (length (blocks s))) with i by lia. }
    { intros E. split; [exact Hfit|by apply denied_first]. }
    intros p s1. set (cap := Z.max (__next_cap_ s) n). intros (Ep & -> & Hok' & Hbok & Hd).
    assert (0 <= cap) as Hcap by lia. pose proof Hbok as (Hp0 & _ & [_ Hp1] & Hp2). simpl in Hp0, Hp1, Hp2.
    apply attempts_bind_returns, returns_modify. unfold _M_start.
    rewrite (wrap_small 64 (p + sizeof_prefix)) by (unfold is_word, sizeof_prefix in *; lia).
    set (s2 := mkState _ _ _ _ _ _).
    assert (fits (blocks s2) (length (blocks s)) (p + sizeof_prefix) n = (n + sizeof_prefix <=? cap)) as Hfits2.
    { unfold fits. simpl. rewrite lookup_app_r, Nat.sub_diag by lia. simpl. unfold sizeof_prefix.
      apply eq_true_iff_eq. rewrite !Z.leb_le. lia. }
    assert (need s2 n = 1%nat) as Hneed2.
    { unfold need, s2. simpl. unfold __growth_factor_, sizeof_prefix. by rewrite (proj2 (Z.leb_le _ _)) by lia. }
    assert (length (blocks s2) = S (length (blocks s))) as Hlen2.
    { simpl. rewrite length_app. simpl. lia. }
    assert ((need s n = 1%nat -> n + sizeof_prefix <=? cap = true) /\ (1 <= need s n <= 2)%nat) as [Hneed1 Hneed3].
    { unfold need. destruct (Z.leb_spec (n + sizeof_prefix) (__next_cap_ s)); [|lia].
      split; [|lia]. intros _. apply Z.leb_le. lia. }
    eapply attempts_impl.
    { clear Hfit. eapply (IH _ (length (blocks s))); [eapply cursor_grown; done| |done|done|].
      - simpl. by rewrite lookup_app_l by done.
      - fold s2. unfold rounds. rewrite Hfits2, Hneed2, Hlen2.
        destruct (Z.leb_spec (n + sizeof_prefix) cap); [lia|].
        assert (need s n <> 1%nat) by (intros E%Hneed1; done). lia. }
    { fold s2. intros [Hf2 Hd2]. split; [exact Hfit|]. eapply (denied_second s n p cap); [done|exact Ep| |by rewrite Hneed2 in Hd2].
      rewrite Hfits2 in Hf2. by apply Z.leb_gt. }
    fold s2. rewrite Hfits2, Hneed2.
    intros r s' (f & E1 & E2 & E3 & E4 & Hrep & Hpres & bs' & Eb & Hl). exists f. split_and!; try done.
    + eapply preserves_trans; [|exact Hpres]. eapply preserves_grown;
        [exact (u_chunks _ _ _ _ _ _ Hcur)|exact (u_stack _ _ _ _ _ _ Hcur)|done|done].
    + simpl in Eb. exists ([(p, sizeof_prefix + cap)] ++ bs'). rewrite app_assoc. split; [done|].
      rewrite length_app. simpl. destruct (Z.leb_spec (n + sizeof_prefix) cap); [lia|].
      assert (need s n <> 1%nat) by (intros E%Hneed1; done). lia.
Qed.

Lemma frame_size_spec sz : 0 <= sz < 2 ^ 63 ->
  (16 | frame_size sz) /\ sizeof_prefix + sz <= frame_size sz < sizeof_prefix + sz + 16.
Proof.
  intros Hsz. unfold frame_size, sizeof_prefix. rewrite wrap_small by (unfold is_word; lia).
  pose proof (round_up_div 4 ltac:(lia) (16 + sz)) as E.
  pose proof (least_multiple_div 4 ltac:(lia) (16 + sz)) as (H1 & H2 & _).
  change (2 ^ 4) with 16 in *. rewrite E, wrap_small by (unfold is_word; lia). split; [done|]. lia.
Qed.

Lemma arep_chunks s fs : arep s fs -> chunks_ok s.
Proof. by intros []. Qed.

Lemma arep_stack s fs : arep s fs -> blocks s <> [] -> exists i,
  fst <$> blocks s !! i = Some (__cur_chunk_ s) /\ stack (blocks s) (mem s) i (__cur_bump_ s) fs.
Proof. intros [_ _ _ _ H]. by destruct (blocks s). Qed.

(** The frame is on the stack, and popping it goes back to where the cursor
    was. *)
Definition push_post (s : state) (fs : list frame) (sz : Z) (r : ptr) (s' : state) : Prop :=
  exists f, r = payload f /\ f_n f = frame_size sz /\ arep s' (f :: fs) /\ preserves s s' fs /\
    (exists bs', blocks s' = blocks s ++ bs' /\ (length bs' <= 2)%nat) /\
    (blocks s <> [] -> address (blocks s) (f_from f) = __cur_chunk_ s /\ f_bump f = __cur_bump_ s).

Lemma push_spec s fs sz fuel :
  arep s fs -> 0 <= sz < 2 ^ 63 -> (length (blocks s) + 2 <= fuel)%nat ->
  attempts (refused s (frame_size sz)) (_M_push_stack_frame operator_new fuel sz) s (push_post s fs sz).
Proof using Hnew.
  intros Hrep Hsz Hfuel. destruct (frame_size_spec sz Hsz) as [Hal Hn]. unfold sizeof_prefix in Hn.
  pose proof (arep_chunks _ _ Hrep) as Hok. unfold _M_push_stack_frame. set (n := frame_size sz) in *.
  apply attempts_bind_returns, returns_get. apply attempts_bind.
  destruct (decide (blocks s = [])) as [Hb|Hb].
  - pose proof (a_cur _ _ Hrep) as Hcur. rewrite Hb in Hcur. destruct Hcur as [Hc ->].
    rewrite decide_True by done. apply attempts_bind. eapply attempts_impl.
    { apply allocate_chunk_spec; [done|lia|by left]. }
    { intros E. split; [by left|by apply denied_first]. }
    intros p s1. set (cap := Z.max (__next_cap_ s) n). intros (Ep & -> & Hok' & Hbok & _).
    pose proof Hbok as (Hp0 & _ & [_ Hp1] & Hp2). simpl in Hp0, Hp1, Hp2.
    apply attempts_returns, returns_modify. unfold _M_start.
    rewrite (wrap_small 64 (p + sizeof_prefix)) by (unfold is_word, sizeof_prefix in *; lia).
    set (s2 := mkState _ _ _ _ _ _). apply attempts_bind_returns, returns_get.
    assert (blocks s2 = [(p, sizeof_prefix + cap)]) as Eb by (simpl; by rewrite Hb).
    assert (position (blocks s2) 0 (p + sizeof_prefix)) as Hpos.
    { eapply (start_position s2); [by destruct Hok'|by rewrite Eb]. }
    assert (need s2 n = 1%nat) as Hneed.
    { unfold need, s2. simpl. unfold __growth_factor_, sizeof_prefix. by rewrite (proj2 (Z.leb_le _ _)) by lia. }
    eapply attempts_impl.
    { eapply (frame_push_loop_spec fuel s2 0 (p + sizeof_prefix) 0 (p + sizeof_prefix) p []); [|by rewrite Eb|done|lia|].
      - split; [by destruct Hok'|by rewrite Eb|done|done|by split|by left].
      - unfold rounds. rewrite Hneed, Eb. simpl. destruct (fits _ _ _ _); lia. }
    { intros [Hf2 Hd2]. rewrite Hneed in Hd2. split; [by left|].
      eapply (denied_second s n p cap); [done|exact Ep| |exact Hd2].
      unfold fits in Hf2. rewrite Eb in Hf2. simpl in Hf2. unfold sizeof_prefix in *. lia. }
    intros r s' (f & -> & Hfn & _ & _ & Hrep' & _ & bs' & Ebs & Hl). exists f. split_and!; try done.
    + by intros g a ?%not_elem_of_nil.
    + rewrite Hb. exists (blocks s'). split; [done|]. rewrite Hneed in Hl. rewrite Ebs, Eb. simpl.
      destruct (fits _ _ _ _); simpl in *; lia.
  - destruct (arep_stack _ _ Hrep Hb) as (i & Hi & Hs).
    assert (__cur_chunk_ s <> nullptr) as Hc.
    { destruct (blocks s !! i) as [[c k]|] eqn:E; simplify_eq/=.
      destruct (block_at _ _ _ _ (c_ok _ Hok) E). simpl in *. unfold nullptr. lia. }
    rewrite decide_False by done. apply attempts_returns, returns_ret.
    apply attempts_bind_returns, returns_get. eapply attempts_impl.
    { eapply (frame_push_loop_spec fuel s i (__cur_bump_ s) i (__cur_bump_ s)); [|exact Hi|done|lia|].
      - split; [done..|by eapply stack_position|done|by left].
      - apply stack_position, position_lt in Hs. unfold rounds, need.
        repeat case_match; lia. }
    { intros [Hf Hd]. split; [right; by exists i|exact Hd]. }
    intros r s' (f & -> & Hfn & Hfrom & Hbump & Hrep' & Hpres & bs' & Ebs & Hl). exists f. split_and!; try done.
    + exists bs'. split; [done|]. unfold need in Hl. repeat case_match; lia.
    + intros _. split; [|done]. unfold address. by rewrite Hfrom, Hi.
Qed.

(** ** [_M_pop_stack_frame] *)

Lemma pop_spec s f fs :
  arep s (f :: fs) ->
  returns (_M_pop_stack_frame (payload f)) s (fun _ s' => arep s' fs /\
    s' = mkState (mem s) (blocks s) (__chunk_ s) (address (blocks s) (f_from f)) (f_bump f) (__next_cap_ s)).
Proof.
  intros Hrep. pose proof (arep_chunks _ _ Hrep) as Hok.
  assert (blocks s <> []) as Hb.
  { intros E. pose proof (a_cur _ _ Hrep) as Hcur. rewrite E in Hcur. by destruct Hcur. }
  destruct (arep_stack _ _ Hrep Hb) as (i & Hi & Hp & Hidx & Hat & Hn & Hpos & Hfrom & Hm1 & Hm2 & Hs).
  pose proof Hpos as (c & k & Hci & Hc1 & _). pose proof Hp as (c' & k' & Hci' & Hc2 & _).
  rewrite Hci in Hci'. injection Hci' as <- <-.
  destruct (block_at _ _ _ _ (c_ok _ Hok) Hci) as (Hc0 & _). simpl in Hc0.
  pose proof (stack_position _ _ _ _ _ Hs) as (c2 & k2 & Hc2i & _).
  unfold _M_pop_stack_frame, payload, sizeof_prefix in *. replace (f_at f + 16 - 16) with (f_at f) by lia.
  apply returns_bind. eapply (returns_read _ _ c2 i c k); [unfold nullptr; lia|done|lia..| |].
  { by rewrite Hm1, Hc2i. }
  apply returns_bind. eapply (returns_read _ _ _ i c k); [unfold nullptr; lia|done|lia..|done|].
  apply returns_modify. assert (address (blocks s) (f_from f) = c2) as -> by (unfold address; by rewrite Hc2i).
  split; [|done]. destruct Hok. split; simpl; try done.
  destruct (blocks s) as [|b0 bs] eqn:E; [done|]. exists (f_from f). by rewrite Hc2i.
Qed.

(** ** Frames among each other, and their contents *)

Lemma stack_pairwise bs m i b fs j k f g :
  apart bs -> stack bs m i b fs -> fs !! j = Some f -> fs !! k = Some g -> j <> k ->
  disjoint_ranges (f_at f) (f_n f) (f_at g) (f_n g).
Proof.
  intros Hap. revert i b j k f g. induction fs as [|h fs IH]; intros i b j k f g Hs Hj Hk Hne; [done|].
  destruct Hs as (Hp & Hi & Hb & Hn & Hpos & Hfrom & _ & _ & Hs).
  assert (forall g, g ∈ fs -> disjoint_ranges (f_at g) (f_n g) (f_at h) (f_n h)) as Hh.
  { intros g' Hg'. eapply stack_apart; [exact Hap|exact Hs|done|exact Hpos|by rewrite Hb|unfold sizeof_prefix in *; lia|].
    destruct Hfrom as [[? ?]|[? _]]; [left|by right]. by split. }
  destruct j as [|j], k as [|k]; simpl in Hj, Hk; simplify_eq.
  - apply list_elem_of_lookup_2, Hh in Hk. unfold disjoint_ranges in *. lia.
  - apply list_elem_of_lookup_2, Hh in Hj. exact Hj.
  - eapply IH; [exact Hs|done..|congruence].
Qed.

(** A word of the payload of a live frame can be written: the allocator and
    the other frames do not notice. *)
Lemma store_spec s fs k g off v :
  arep s fs -> fs !! k = Some g -> 0 <= off -> off + 8 <= f_n g - sizeof_prefix ->
  returns (write (payload g + off) v) s (fun _ s' => arep s' fs /\
    s' = mkState (<[payload g + off := v]> (mem s)) (blocks s) (__chunk_ s) (__cur_chunk_ s)
           (__cur_bump_ s) (__next_cap_ s)).
Proof.
  intros Hrep Hk Hoff Hoff2. pose proof (arep_chunks _ _ Hrep) as Hok.
  assert (blocks s <> []) as Hb.
  { intros E. pose proof (a_cur _ _ Hrep) as Hcur. rewrite E in Hcur. destruct Hcur as [_ ->]. done. }
  destruct (arep_stack _ _ Hrep Hb) as (i & Hi & Hs).
  pose proof (list_elem_of_lookup_2 _ _ _ Hk) as Hg.
  destruct (stack_elem _ _ _ _ _ _ Hs Hg) as ((c & n & Hc & Hc1 & _) & Hn & (c' & n' & Hc' & Hc2 & _) & _).
  rewrite Hc in Hc'. injection Hc' as <- <-.
  destruct (block_at _ _ _ _ (c_ok _ Hok) Hc) as (Hc0 & _). unfold payload, sizeof_prefix in *. simpl in Hc0.
  eapply (returns_write _ _ _ (f_idx g) c n); [unfold nullptr; lia|done|lia..|].
  split; [|done]. destruct Hok as [[Hh Hchain] Hap Hall Hcap]. split; simpl; try done.
  - split; [done|]. intros j cj kj Hj. destruct (block_at _ _ _ _ Hall Hj) as (_ & _ & [Hkj _] & _).
    pose proof (stack_prefix _ _ _ _ _ _ _ _ _ Hap Hs Hg Hj Hkj) as Hd.
    unfold disjoint_ranges, sizeof_prefix in Hd. rewrite !lookup_insert_ne by lia. by apply Hchain.
  - destruct (blocks s) as [|b0 bs] eqn:E; [done|]. exists i. rewrite <- E in *. split; [done|].
    rewrite <- (app_nil_r (blocks s)). eapply stack_frame; [done|]. intros f Hf.
    destruct (stack_elem _ _ _ _ _ _ Hs Hf) as (_ & Hfn & _). unfold sizeof_prefix in Hfn.
    apply list_elem_of_lookup in Hf as [j Hj].
    destruct (decide (j = k)) as [->|Hne].
    + rewrite Hk in Hj. injection Hj as <-. rewrite !lookup_insert_ne by lia. done.
    + pose proof (stack_pairwise _ _ _ _ _ _ _ _ _ Hap Hs Hj Hk Hne) as Hd.
      unfold disjoint_ranges in Hd. rewrite !lookup_insert_ne by lia. done.
Qed.

(** ** [~__allocator] *)

Lemma delete_first s c k bs :
  blocks s = (c, k) :: bs -> apart ((c, k) :: bs) -> Forall block_ok ((c, k) :: bs) ->
  returns (delete c) s (fun _ s' => blocks s' = bs /\ mem s' = mem s).
Proof.
  intros Hb Hap Hok. unfold delete. apply returns_bind, returns_get. rewrite Hb.
  simpl existsb. rewrite Z.eqb_refl. simpl orb. apply returns_put. simpl. split; [|done].
  rewrite filter_cons_False by tauto.
  assert (Forall (fun b => b.1 <> c) bs) as Hne.
  { apply Forall_lookup. intros i [c' k'] Hi E. simpl in E. subst c'.
    destruct (Hap 0%nat (S i) _ _ eq_refl Hi) as [Hd|Hd]; [done|..]; simpl in Hd;
      apply Forall_cons in Hok as [(_ & _ & [Hk _] & _) Hok];
      destruct (block_at _ _ _ _ Hok Hi) as (_ & _ & [Hk' _] & _);
      unfold sizeof_prefix in *; simpl in *; lia. }
  clear -Hne. induction Hne as [|b bs H _ IH]; [done|]. by rewrite filter_cons_True, IH by done.
Qed.

Lemma destroy_loop_spec bs : forall s,
  blocks s = bs -> chain (mem s) (address bs 0) bs -> apart bs -> Forall block_ok bs ->
  returns (destroy_loop (length bs) (address bs 0)) s (fun _ s' => blocks s' = []).
Proof.
  induction bs as [|[c k] bs IH]; intros s Hb Hc Hap Hok; [by apply returns_ret|].
  pose proof Hok as [(Hc0 & _ & [Hk _] & _) Hok']%Forall_cons. simpl in Hc0, Hk. unfold sizeof_prefix in Hk.
  destruct Hc as [_ Hc]. destruct (Hc 0%nat c k eq_refl) as [_ Hnx].
  cbn [destroy_loop length]. change (address ((c, k) :: bs) 0) with c.
  change (address ((c, k) :: bs) 1) with (address bs 0) in Hnx.
  rewrite decide_True by (unfold nullptr; lia). apply returns_bind.
  eapply (returns_read _ _ _ 0 c k); [unfold nullptr; lia|by rewrite Hb|lia..|exact Hnx|].
  apply returns_bind. eapply returns_mono; [by eapply delete_first|].
  intros _ s' [Hb' Hm]. apply IH; [done| |intros i j b b' Hi Hj Hne; eapply (Hap (S i) (S j)); [exact Hi|exact Hj|congruence]|done].
  split; [done|]. rewrite Hm. intros i c' k' Hi. apply (Hc (S i) c' k' Hi).
Qed.

Lemma destroy_spec s fs fuel :
  arep s fs -> fuel = length (blocks s) -> returns (destroy fuel) s (fun _ s' => blocks s' = []).
Proof.
  intros [Hc Hap Hok _ _] ->. unfold destroy. apply returns_bind, returns_get.
  destruct Hc as [E Hc]. rewrite E. by apply destroy_loop_spec.
Qed.

(** ** A client

    The abstract allocator is a stack of independent memories, each of the size
    asked for. *)
Inductive op := Push (sz : Z) | Pop | Store (k : nat) (off v : Z).

Definition contents := gmap Z Z.

Definition spec_step (o : op) (st : list (Z * contents)) : option (list (Z * contents)) :=
  match o, st with
  | Push sz, _ => if bool_decide (0 <= sz < 2 ^ 63) then Some ((sz, ∅) :: st) else None
  | Pop, [] => None
  | Pop, _ :: st => Some st
  | Store k off v, _ =>
      match st !! k with
      | Some (sz, c) =>
          if bool_decide (0 <= off /\ off + 8 <= sz /\ off mod 8 = 0)
          then Some (<[k := (sz, <[off := v]> c)]> st) else None
      | None => None
      end
  end.

Fixpoint spec_run (l : list op) (st : list (Z * contents)) : option (list (Z * contents)) :=
  match l with [] => Some st | o :: l => st ← spec_step o st; spec_run l st end.

(** The client keeps the pointers it was given, last first. *)
Definition client_step (o : op) (ps : list ptr) : M state (list ptr) :=
  match o, ps with
  | Push sz, _ => s ← get; r ← _M_push_stack_frame operator_new (length (blocks s) + 2) sz; mret (r :: ps)
  | Pop, [] => throw Undefined
  | Pop, r :: ps => _M_pop_stack_frame r;; mret ps
  | Store k off v, _ =>
      match ps !! k with Some r => write (r + off) v;; mret ps | None => throw Undefined end
  end.

Fixpoint client_run (l : list op) (ps : list ptr) : M state (list ptr) :=
  match l with [] => mret ps | o :: l => ps ← client_step o ps; client_run l ps end.

(** A frame has room for the contents, and the memory holds them. *)
Definition holds_frame (m : gmap ptr Z) (f : frame) (e : Z * contents) : Prop :=
  e.1 + sizeof_prefix <= f_n f /\
  forall off v, e.2 !! off = Some v ->
    0 <= off /\ off + 8 <= e.1 /\ off mod 8 = 0 /\ m !! (payload f + off) = Some v.

Definition client_rel (s : state) (ps : list ptr) (st : list (Z * contents)) : Prop :=
  exists fs, arep s fs /\ ps = payload <$> fs /\ Forall2 (holds_frame (mem s)) fs st.

Lemma holds_frame_preserved s s' fs f e :
  preserves s s' fs -> f ∈ fs -> holds_frame (mem s) f e -> holds_frame (mem s') f e.
Proof.
  intros Hp Hf [H1 H2]. split; [done|]. intros off v Hv. destruct (H2 off v Hv) as (? & ? & ? & <-).
  split_and!; try done. apply (Hp f); [done|]. unfold payload, sizeof_prefix in *. lia.
Qed.

Lemma arep_pairwise s fs j k f g :
  arep s fs -> fs !! j = Some f -> fs !! k = Some g -> j <> k ->
  disjoint_ranges (f_at f) (f_n f) (f_at g) (f_n g).
Proof.
  intros Hrep Hj Hk Hne. assert (blocks s <> []) as Hb.
  { intros E. pose proof (a_cur _ _ Hrep) as Hcur. rewrite E in Hcur. destruct Hcur as [_ ->]. done. }
  destruct (arep_stack _ _ Hrep Hb) as (i & _ & Hs).
  eapply stack_pairwise; [apply Hrep|exact Hs|exact Hj|exact Hk|exact Hne].
Qed.

(** Writing to one frame changes the contents of that frame only. *)
Lemma store_contents s fs st k g sz c off v :
  arep s fs -> Forall2 (holds_frame (mem s)) fs st -> fs !! k = Some g -> st !! k = Some (sz, c) ->
  0 <= off -> off + 8 <= sz -> off mod 8 = 0 ->
  Forall2 (holds_frame (<[payload g + off := v]> (mem s))) fs (<[k := (sz, <[off := v]> c)]> st).
Proof.
  intros Hrep Hall Hg Hk H0 Hsz Hoff. apply Forall2_same_length_lookup.
  apply Forall2_same_length_lookup in Hall as [Hlen Hall]. rewrite length_insert. split; [done|].
  destruct (Hall _ _ _ Hg Hk) as [Hgn Hgc]. simpl in Hgn, Hgc.
  intros j f e Hf He. destruct (decide (j = k)) as [->|Hne].
  - rewrite list_lookup_insert_eq in He by (by eapply lookup_lt_Some). simplify_eq.
    split; [done|]. simpl. intros off' v' [[<- <-]|[Hne Hv']]%lookup_insert_Some.
    + by rewrite lookup_insert_eq.
    + destruct (Hgc _ _ Hv') as (? & ? & ? & ?). split_and!; [done..|]. rewrite lookup_insert_ne by lia. done.
  - rewrite list_lookup_insert_ne in He by done. destruct (Hall _ _ _ Hf He) as [Hn Hc]. split; [done|].
    intros off' v' Hv'. destruct (Hc _ _ Hv') as (? & ? & ? & ?). split_and!; [done..|].
    pose proof (arep_pairwise _ _ _ _ _ _ Hrep Hf Hg Hne) as Hd.
    unfold disjoint_ranges, payload, sizeof_prefix in *. rewrite lookup_insert_ne by lia. done.
Qed.

(** A push of the client that [operator new] does not serve. *)
Definition step_refused (o : op) (s : state) : Prop :=
  match o with Push sz => refused s (frame_size sz) | _ => False end.
(** The run gets to such a push. *)
Definition run_refused (l : list op) (ps : list ptr) (s : state) : Prop := exists l1 o l2 ps1 s1,
  l = l1 ++ o :: l2 /\ client_run l1 ps s = Done (ps1, s1) /\ step_refused o s1.

Lemma client_step_correct o s ps st st' :
  client_rel s ps st -> spec_step o st = Some st' ->
  attempts (step_refused o s) (client_step o ps) s (fun ps' s' => client_rel s' ps' st').
Proof using Hnew.
  intros (fs & Hrep & -> & Hall) Hst. destruct o as [sz| |k off v]; simpl in Hst.
  - case_bool_decide as Hsz; simplify_eq. apply attempts_bind_returns, returns_get.
    apply attempts_bind. eapply attempts_mono; [by apply push_spec|].
    intros r s' (f & -> & Hn & Hrep' & Hpres & _). apply attempts_returns, returns_ret.
    exists (f :: fs). split_and!; [done|done|]. constructor.
    + split; [|done]. rewrite Hn. destruct (frame_size_spec sz Hsz). simpl. lia.
    + apply Forall2_same_length_lookup. apply Forall2_same_length_lookup in Hall as [Hlen Hall].
      split; [done|]. intros j g e Hg He. eapply holds_frame_preserved; [done| |by eapply Hall].
      by eapply list_elem_of_lookup_2.
  - destruct st as [|e st]; simplify_eq. apply Forall2_cons_inv_r in Hall as (f & fs' & Hf & Hall & ->).
    simpl. apply attempts_bind_returns. eapply returns_mono; [by apply pop_spec|].
    intros _ s' [Hrep' ->]. apply attempts_returns, returns_ret. by exists fs'.
  - destruct (st !! k) as [[sz c]|] eqn:Hk; [|done]. case_bool_decide as Hoff; simplify_eq.
    destruct (Forall2_lookup_r _ _ _ _ _ Hall Hk) as (g & Hg & [Hsz Hc]). simpl in Hsz, Hc.
    simpl. rewrite list_lookup_fmap, Hg. simpl. apply attempts_bind_returns.
    destruct Hoff as (? & ? & ?).
    eapply returns_mono; [eapply store_spec; [done|exact Hg|lia|unfold sizeof_prefix in *; lia]|].
    intros _ s' [Hrep' ->]. apply attempts_returns, returns_ret. exists fs. split_and!; [done|done|].
    by apply store_contents.
Qed.

Lemma client_run_correct l : forall s ps st st',
  client_rel s ps st -> spec_run l st = Some st' ->
  attempts (run_refused l ps s) (client_run l ps) s (fun ps' s' => client_rel s' ps' st').
Proof using Hnew.
  induction l as [|o l IH]; intros s ps st st' Hrel Hrun; simpl in Hrun.
  - simplify_eq. by apply attempts_returns, returns_ret.
  - destruct (spec_step o st) as [st1|] eqn:Hst; [|done]. simpl in Hrun.
    pose proof (client_step_correct o s ps st st1 Hrel Hst) as Ho. unfold attempts in Ho.
    destruct (client_step o ps s) as [[ps1 s1]|f] eqn:E; cycle 1.
    { destruct Ho as [-> Ho]. unfold attempts. simpl. unfold mbind, M_bind. rewrite E. split; [done|].
      by exists [], o, l, ps, s. }
    eapply (attempts_impl _ (run_refused l ps1 s1)); [|intros (l1 & o1 & l2 & ps2 & s2 & -> & E2 & Ho1)|intros ps' s' H; exact H].
    { unfold attempts. simpl. unfold mbind, M_bind. rewrite E. exact (IH s1 ps1 st1 st' Ho Hrun). }
    exists (o :: l1), o1, l2, ps2, s2. split_and!; [done| |done]. simpl. unfold mbind, M_bind. by rewrite E.
Qed.

Lemma fresh_rep m : arep (fresh m) [].
Proof. by split. Qed.

(** A new allocator's first chunk when the frame needs [n > 1008] bytes. *)
Lemma first_chunk_missed m sz fuel :
  0 <= sz < 2 ^ 63 -> 1008 < frame_size sz -> (2 <= fuel)%nat ->
  attempts (refused (fresh m) (frame_size sz)) (_M_push_stack_frame operator_new fuel sz) (fresh m) (fun r s' => exists c1 k1 c2 k2,
    blocks s' = [(c1, k1); (c2, k2)] /\ c1 + sizeof_prefix + frame_size sz <= c1 + k1 /\
    r = c2 + sizeof_prefix + sizeof_prefix /\ address (blocks s') 1 = __cur_chunk_ s').
Proof using Hnew.
  intros Hsz Hbig Hfuel. destruct (frame_size_spec sz Hsz) as [Hal Hn]. unfold sizeof_prefix in Hn.
  destruct fuel as [|[|fuel]]; [lia..|]. unfold _M_push_stack_frame. set (n := frame_size sz) in *.
  apply attempts_bind_returns, returns_get. apply attempts_bind. cbn [__cur_chunk_ fresh].
  rewrite decide_True by done. apply attempts_bind. eapply attempts_impl.
  { apply allocate_chunk_spec; [by split|lia|by left]. }
  { intros E. split; [by left|by apply denied_first]. }
  intros c1 s1. cbn [__next_cap_ fresh]. set (cap := Z.max __min_capacity_ n).
  assert (n <= cap < n + 16) as Hcap by (unfold cap, __min_capacity_; lia).
  intros (Ec1 & -> & Hok1 & Hb1 & _). pose proof Hb1 as (Hp0 & _ & [_ Hp1] & Hp2). simpl in Hp0, Hp1, Hp2.
  apply attempts_returns, returns_modify. unfold _M_start.
  rewrite (wrap_small 64 (c1 + sizeof_prefix)) by (unfold is_word, sizeof_prefix in *; lia).
  set (s2 := mkState _ _ _ _ _ _). apply attempts_bind_returns, returns_get.
  assert (cursor s2 0 (c1 + sizeof_prefix) 0 (c1 + sizeof_prefix) []) as Hcur.
  { assert (position (blocks s2) 0 (c1 + sizeof_prefix)) by (eapply (start_position s2); [by destruct Hok1|done]).
    split; [by destruct Hok1|done|done|done|by split|by left]. }
  change (__cur_chunk_ s2) with c1. change (__cur_bump_ s2) with (c1 + sizeof_prefix).
  eapply push_miss; [exact Hcur| |lia|].
  { unfold fits. simpl. unfold sizeof_prefix. apply Z.leb_gt. lia. }
  cbv zeta. rewrite decide_False by (unfold address; simpl; tauto).
  apply attempts_bind. eapply attempts_impl.
  { apply allocate_chunk_spec; [exact (u_chunks _ _ _ _ _ _ Hcur)|lia|right]. simpl. eauto. }
  { intros E. split; [by left|]. eapply (denied_second (fresh m) n c1 cap); [done|exact Ec1|unfold sizeof_prefix; lia|by left]. }
  intros c2 s3. set (cap2 := Z.max (__next_cap_ s2) n). intros (_ & -> & Hok2 & Hb2 & Hd).
  assert (n + 16 <= cap2) as Hcap2 by (unfold cap2; simpl; unfold __growth_factor_; lia).
  pose proof Hb2 as (Hq0 & _ & [_ Hq1] & Hq2). simpl in Hq0, Hq1, Hq2.
  apply attempts_bind_returns, returns_modify. unfold _M_start.
  rewrite (wrap_small 64 (c2 + sizeof_prefix)) by (unfold is_word, sizeof_prefix in *; lia).
  pose proof (cursor_grown s2 _ _ _ _ _ c2 cap2 Hcur Hok2 Hb2 Hd ltac:(lia)) as Hcur3. cbv zeta in Hcur3.
  eapply attempts_mono.
  { eapply (push_here _ _ _ _ _ _ c1 _ _ _ 0 Hcur3); [done|done|lia| |lia].
    unfold fits. simpl. unfold sizeof_prefix. apply Z.leb_le. lia. }
  intros r s' (-> & Ec & f & _ & _ & _ & _ & _ & _ & bs' & Eb & Hl).
  destruct bs'; [|simpl in Hl; lia]. rewrite app_nil_r in Eb. simpl in Eb.
  exists c1, (sizeof_prefix + cap), c2, (sizeof_prefix + cap2). split_and!; [done|unfold sizeof_prefix; lia|done|].
  rewrite Ec. unfold address. by rewrite Eb.
Qed.
End correctness.

(** ** Properties *)
Section properties.
Context (operator_new : list (ptr * Z) -> Z -> ptr).

(** C27: a client that pushes and pops frames in stack order and writes words
    inside the frames it was given sees a stack of independent memories of the
    sizes it asked for: an operation fails only when it is a push for which the
    chunk of the cursor has no room and [operator new] refuses one of the at most
    two chunks it then asks for, the search for room terminates within two rounds more than there are
    chunks, every live frame is 16-aligned and inside one chunk, no two of them
    overlap, and a frame holds what was last stored in it. *)
Theorem client_refines m l st :
  new_spec operator_new -> spec_run l [] = Some st ->
  attempts (run_refused operator_new l [] (fresh m)) (client_run operator_new l []) (fresh m) (fun ps s' => exists fs,
    ps = payload <$> fs /\ Forall2 (holds_frame (mem s')) fs st /\
    (forall f, f ∈ fs -> (16 | payload f) /\ exists b, b ∈ blocks s' /\
       b.1 <= f_at f /\ f_at f + f_n f <= b.1 + b.2) /\
    (forall j k f g, fs !! j = Some f -> fs !! k = Some g -> j <> k ->
       disjoint_ranges (f_at f) (f_n f) (f_at g) (f_n g))).
Proof.
  intros Hnew Hrun. eapply attempts_mono.
  { eapply (client_run_correct operator_new Hnew l); [|exact Hrun]. exists []. by split_and!; [apply fresh_rep|..]. }
  intros ps s' (fs & Hrep & -> & Hall). exists fs. split_and!; [done|done| |intros; by eapply arep_pairwise].
  intros f Hf. destruct (decide (blocks s' = [])) as [E|Hb].
  { pose proof (a_cur _ _ Hrep) as Hcur. rewrite E in Hcur. destruct Hcur as [_ ->]. by apply not_elem_of_nil in Hf. }
  destruct (arep_stack _ _ Hrep Hb) as (i & _ & Hs).
  destruct (stack_elem _ _ _ _ _ _ Hs Hf) as ((c & n & Hc & Hc1 & Hal) & Hn & (c' & n' & Hc' & Hc2 & _) & _).
  rewrite Hc in Hc'. injection Hc' as <- <-. unfold payload, sizeof_prefix in *. split.
  - apply Z.divide_add_r; [done|by exists 1].
  - exists (c, n). split; [by eapply list_elem_of_lookup_2|simpl; lia].
Qed.


(** the destructor deletes every chunk exactly once, each after its link
    was read, and terminates after as many rounds as there are chunks. *)
Theorem destroy_frees_all s fs :
  arep s fs -> returns (destroy (length (blocks s))) s (fun _ s' => blocks s' = []).
Proof. intros. by eapply destroy_spec. Qed.

(** the test for room counts the frame prefix twice, so a chunk
    allocated for a large frame is never large enough for it: when the first
    frame of an allocator needs more than 1008 bytes, the chunk allocated for
    it, although it has room, is passed over and a second one is allocated. *)
Theorem oversized_frame_wastes_chunk m sz :
  new_spec operator_new -> 0 <= sz < 2 ^ 63 -> 1008 < frame_size sz ->
  attempts (refused operator_new (fresh m) (frame_size sz)) (_M_push_stack_frame operator_new 2 sz) (fresh m) (fun r s' =>
    exists c1 k1 c2 k2, blocks s' = [(c1, k1); (c2, k2)] /\
      c1 + sizeof_prefix + frame_size sz <= c1 + k1 /\
      r = c2 + sizeof_prefix + sizeof_prefix /\ address (blocks s') 1 = __cur_chunk_ s').
Proof. intros Hnew Hsz Hn. by apply first_chunk_missed. Qed.
End properties.

(** ** An [operator new] *)
Module new_example.
(** The first aligned address after all blocks in use. *)
Definition bump_new (bs : list (ptr * Z)) (n : Z) : ptr :=
  let top := foldr (fun b acc => Z.max acc (b.1 + b.2)) 4096 bs in
  let p := 16 * ((top + 15) / 16) in
  if bool_decide (n < 2 ^ 63 /\ p + n <= 2 ^ 47) then p else nullptr.

Lemma foldr_top (bs : list (ptr * Z)) :
  4096 <= foldr (fun b acc => Z.max acc (b.1 + b.2)) 4096 bs /\
  forall b, b ∈ bs -> b.1 + b.2 <= foldr (fun b acc => Z.max acc (b.1 + b.2)) 4096 bs.
Proof.
  induction bs as [|b0 bs [IH1 IH2]]; simpl; [split; [lia|by intros b ?%not_elem_of_nil]|].
  split; [lia|]. intros b [->|Hb]%elem_of_cons; [lia|]. specialize (IH2 b Hb). lia.
Qed.

Lemma bump_new_spec : new_spec bump_new.
Proof.
  intros bs n p Hp. unfold p, bump_new in *. destruct (foldr_top bs) as [H1 H2].
  set (top := foldr _ _ _) in *. case_bool_decide as Hn; [|done].
  pose proof (Z.div_mod (top + 15) 16 ltac:(lia)). pose proof (Z.mod_pos_bound (top + 15) 16 ltac:(lia)).
  split_and!; [lia|by eexists; rewrite Z.mul_comm|tauto|tauto|].
  intros b Hb. specialize (H2 b Hb). unfold disjoint_ranges. lia.
Qed.

Definition ops : list op := [Push 100; Store 0 8 7; Push 2000; Store 0 1992 9; Store 1 0 5; Push 40; Pop].
Definition final_contents : list (Z * contents) :=
  [(2000, {[1992 := 9]}); (100, {[0 := 5; 8 := 7]})].

Lemma client_refines_witness :
  spec_run ops [] = Some final_contents /\
  returns (client_run bump_new ops []) (fresh ∅) (fun ps s' => exists fs,
    ps = payload <$> fs /\ Forall2 (holds_frame (mem s')) fs final_contents).
Proof.
  assert (spec_run ops [] = Some final_contents) as E by (vm_compute; reflexivity).
  split; [exact E|]. pose proof (client_refines bump_new ∅ ops final_contents bump_new_spec E) as H.
  unfold returns, attempts in *. destruct (client_run bump_new ops [] (fresh ∅)) as [[ps s']|f] eqn:Er.
  - destruct H as (fs & H1 & H2 & _). exists fs. split; [exact H1|exact H2].
  - vm_compute in Er. discriminate Er.
Defined.

(** The allocator after one frame of 100 bytes. *)
Definition one : state :=
  match _M_push_stack_frame bump_new 2 100 (fresh ∅) with Done (_, s) => s | Fault _ => fresh ∅ end.

Lemma one_rep : exists f, arep one [f].
Proof.
  pose proof (push_spec bump_new bump_new_spec (fresh ∅) [] 100 2 (fresh_rep ∅) ltac:(lia) ltac:(simpl; lia)) as H.
  unfold attempts in H. destruct (_M_push_stack_frame bump_new 2 100 (fresh ∅)) as [[r s]|f] eqn:E.
  - destruct H as (f & _ & _ & Hrep & _). exists f. unfold one. by rewrite E.
  - vm_compute in E. discriminate E.
Qed.


Lemma destroy_frees_all_witness : returns (destroy 1) one (fun _ s' => blocks s' = []).
Proof. destruct one_rep as [f Hf]. exact (destroy_frees_all one [f] Hf). Defined.

Lemma oversized_frame_wastes_chunk_witness :
  1008 < frame_size 1500 /\
  attempts (refused bump_new (fresh ∅) (frame_size 1500)) (_M_push_stack_frame bump_new 2 1500) (fresh ∅) (fun _ s' =>
    exists b1 b2, blocks s' = [b1; b2]).
Proof.
  assert (1008 < frame_size 1500) as Hn by (vm_compute; reflexivity). split; [exact Hn|].
  eapply attempts_mono.
  - apply (oversized_frame_wastes_chunk bump_new ∅ 1500 bump_new_spec); [lia|exact Hn].
  - intros r s' (c1 & k1 & c2 & k2 & E & _). exists (c1, k1), (c2, k2). exact E.
Defined.
End new_example.
End frame_allocator.
