(* ===== verification/RemoteSource.v ===== *)
(** * [__memory_resource.hpp], [__remote_source]: the shared pool of buffer blocks

    Blocks of 4096 bytes with a 64-byte header are carved from mappings and
    kept in a ring of 64 slots; a slot is a lock-free stack of at most 16
    blocks with a counter, and the two halves of [__state_] count the slots that
    were filled and emptied.  Module [remote_source] models every member function
    as one thread executes it while the others stand still, built on the
    operations of [__atomic_intrusive_queue]; [mmap] is a parameter. *)

From S2P Require Import Prelude Memory RoundUp IntrusiveQueue AtomicIntrusiveQueue.

Module remote_source.
Import intrusive_queue.

(** ** Data *)

(** A block's header; [__reserved_] and [__data_] are the bytes behind it. *)
Record __block := mkBlock { __use_count_ : Z; __next_ : ptr }.

#[export] Program Instance block_linked : Linked __block := {|
  next_of := __next_;
  set_next p n := mkBlock (__use_count_ n) p;
|}.
Solve Obligations with by intros; repeat destruct select __block.

Definition __T_ : Z := 16.
Definition __N_ : Z := 16.
Definition __M_ : Z := 64.
Definition __K_ : Z := __N_ * __M_ / __T_.
Definition __V_ : Z := u32 (__round_up (4096 + 4160 * __M_) 4096).

(** [__ring_]: the head of each slot's queue, and its counter [__n_]. *)
Record remote := mkRemote {
  __n_ : Z;
  __mmap_ : list ptr;
  __ring_ : list (ptr * Z);
  __state_ : Z
}.
Record rstate := mkR { rmem : gmap ptr __block; rsrc : remote }.

Definition remote_init : remote :=
  mkRemote 0 (replicate (Z.to_nat __N_) nullptr) (replicate (Z.to_nat __K_) (nullptr, 0)) 0.

Definition __head_stride_ : Z := 1.
Definition __tail_stride_ : Z := 2 ^ 32.

(** [__descriptor]: head and tail. *)
Definition __convert (__m : Z) : Z * Z := (u32 __m, u32 (Z.shiftr __m 32)).

(** ** Accesses *)

Definition with_state (r : remote) (v : Z) : remote := mkRemote (__n_ r) (__mmap_ r) (__ring_ r) v.
Definition with_ring (r : remote) (ring : list (ptr * Z)) : remote :=
  mkRemote (__n_ r) (__mmap_ r) ring (__state_ r).

Definition get_src : M rstate remote := s ← get; mret (rsrc s).
Definition set_state (v : Z) : M rstate unit := modify (fun s => mkR (rmem s) (with_state (rsrc s) v)).

(** [__ring_[__c & (__K_ - 1)]] *)
Definition slot_index (__c : Z) : nat := Z.to_nat (Z.land __c (__K_ - 1)).
Definition get_slot (i : nat) : M rstate (ptr * Z) :=
  r ← get_src; match __ring_ r !! i with Some b => mret b | None => throw OutOfBounds end.
Definition set_slot (i : nat) (b : ptr * Z) : M rstate unit := modify (fun s =>
  mkR (rmem s) (with_ring (rsrc s) (<[i := b]> (__ring_ (rsrc s))))).
Definition get_count (i : nat) : M rstate Z := b ← get_slot i; mret b.2.
Definition set_count (i : nat) (n : Z) : M rstate unit := b ← get_slot i; set_slot i (b.1, n).

(** An operation of the slot's atomic queue. *)
Definition on_queue {A} (i : nat) (c : M (atomic_intrusive_queue.shared (Node := __block)) A) : M rstate A :=
  b ← get_slot i;
  s ← get;
  match c (atomic_intrusive_queue.mkShared (rmem s) b.1) with
  | Done (a, x) =>
      put (mkR (atomic_intrusive_queue.smem x) (rsrc s));;
      set_slot i (atomic_intrusive_queue.shead x, b.2);; mret a
  | Fault f => throw f
  end.

(** A queue operation on memory. *)
Definition on_blocks {A} (c : M (gmap ptr __block) A) : M rstate A := fun s =>
  match c (rmem s) with
  | Done (a, m) => Done (a, mkR m (rsrc s))
  | Fault f => Fault f
  end.

(** All blocks there can be: enough fuel for the walk over a slot. *)
Definition max_blocks : nat := Z.to_nat (__N_ * __M_).

(** ** Operations *)

Definition _M_try_pop_swap_reversed : M rstate queue :=
  r ← get_src;
  let __u := __state_ r in
  let '(__head_, __tail_) := __convert __u in
  if decide (__head_ = __tail_) then mret empty_queue
  else
    set_state (u64 (__u + __tail_stride_));;
    let __q := slot_index __tail_ in
    __r ← on_queue __q (atomic_intrusive_queue._M_pop_swap_reversed max_blocks);
    set_count __q 0;;
    mret __r.

Fixpoint _M_push (fuel : nat) (__blk : ptr) : M rstate unit :=
  match fuel with
  | O => throw OutOfFuel
  | S fuel =>
      r ← get_src;
      let '(__head_, _) := __convert (__state_ r) in
      let __q := slot_index __head_ in
      __n ← get_count __q;
      if decide (__n = __T_) then _M_push fuel __blk
      else
        set_count __q (u64 (__n + 1));;
        _ ← on_queue __q (atomic_intrusive_queue._M_push_front __blk);
        if decide (u64 (__n + 1) = __T_) then
          r ← get_src; set_state (u64 (__state_ r + __head_stride_))
        else mret tt
  end.

(** [__ptr[i]] *)
Definition nth_ptr (__ptr : list ptr) (i : Z) : M rstate ptr :=
  if decide (0 <= i) then
    match __ptr !! Z.to_nat i with Some p => mret p | None => throw OutOfBounds end
  else throw OutOfBounds.

(** One pass through the loop of [_M_prepend]: the rest of [__blk] and the
    next [__k]. *)
Definition _M_prepend_round (__blk : queue) (__ptr : list ptr) (__k : Z) : M rstate (queue * Z) :=
  r ← get_src;
  let '(__head_, _) := __convert (__state_ r) in
  let __q := slot_index __head_ in
  __n ← get_count __q;
  if decide (__n = __T_) then mret (__blk, __k)
  else
    set_count __q __T_;;
    let __r := u32 (__T_ - __n) in
    __sentinel ← (if u32 (__k + __r) <? __M_ then nth_ptr __ptr (u32 (__k + __r)) else mret nullptr);
    p ← nth_ptr __ptr (u32 (u32 (__k + __r) - 1));
    '(__tmp, __blk) ← on_blocks (_M_splice empty_queue (end_ empty_queue) __blk (begin_ __blk)
                        (mkIterator p __sentinel));
    on_queue __q (atomic_intrusive_queue._M_prepend __tmp);;
    r ← get_src; set_state (u64 (__state_ r + __head_stride_));;
    mret (__blk, u32 (__k + __r)).

Fixpoint _M_prepend (fuel : nat) (__blk : queue) (__ptr : list ptr) (__k : Z) : M rstate unit :=
  if _M_empty __blk then mret tt
  else match fuel with
  | O => throw OutOfFuel
  | S fuel => '(__blk, __k) ← _M_prepend_round __blk __ptr __k; _M_prepend fuel __blk __ptr __k
  end.

(** [mmap(nullptr, __V_, ...)] in the present state: an address or
    [MAP_FAILED]. *)
Section mapping.
Context (mmap : rstate -> option ptr).

(** The addresses of the blocks of a mapping. *)
Definition block_addr (__p : ptr) (__j : nat) : ptr := __p + 4096 + 4160 * Z.of_nat __j.

Definition construct (a : ptr) : M rstate unit := on_blocks (modify <[a := mkBlock 0 nullptr]>).

Fixpoint carve (__addrs : list ptr) (__tmp : queue) : M rstate queue :=
  match __addrs with
  | [] => mret __tmp
  | a :: __addrs => construct a;; __tmp ← on_blocks (_M_push_back __tmp a); carve __addrs __tmp
  end.

Definition _M_allocate (fuel : nat) : M rstate unit :=
  s ← get;
  match mmap s with
  | None => throw Terminate
  | Some __p =>
      r ← get_src;
      (if decide (__n_ r < __N_) then
         modify (fun s => mkR (rmem s) (mkRemote (u32 (__n_ r + 1)) (<[Z.to_nat (__n_ r) := __p]> (__mmap_ r))
                                          (__ring_ r) (__state_ r)))
       else throw OutOfBounds);;
      let __ptr := block_addr __p <$> seq 0 (Z.to_nat __M_) in
      __tmp ← carve __ptr empty_queue;
      _M_prepend fuel __tmp __ptr 0
  end.

Fixpoint pop_loop (fuel : nat) (__spin : Z) : M rstate queue :=
  match fuel with
  | O => throw OutOfFuel
  | S fuel =>
      __r ← _M_try_pop_swap_reversed;
      if _M_empty __r then
        if __spin <? 16 then pop_loop fuel (u32 (__spin + 1))
        else _M_allocate (S fuel);; pop_loop fuel 0
      else mret __r
  end.
Definition _M_pop_swap_reversed (fuel : nat) : M rstate queue := pop_loop fuel 0.
End mapping.

(** [~__remote_source]: the mappings that are released, in order, with their
    size. *)
Fixpoint unmap_loop (r : remote) (__i : nat) (rounds : nat) : outcome (list (ptr * Z)) :=
  match rounds with
  | O => Done []
  | S rounds =>
      match __mmap_ r !! __i with
      | None => Fault OutOfBounds
      | Some __p =>
          match unmap_loop r (S __i) rounds with
          | Done l => Done ((__p, __V_) :: l)
          | Fault f => Fault f
          end
      end
  end.
Definition destroy (r : remote) : outcome (list (ptr * Z)) := unmap_loop r 0 (Z.to_nat (__n_ r)).

(** ** The abstraction

    Read from its tail the ring is one sequence of blocks in the order they
    were inserted, cut into batches of [__T_]: slot [j] after the tail is a
    stack of the [j]-th batch. *)

Definition batch (l : list ptr) (j : nat) : list ptr :=
  reverse (take (Z.to_nat __T_) (drop (Z.to_nat __T_ * j) l)).

Definition slot_ok (m : gmap ptr __block) (b : ptr * Z) (l : list ptr) : Prop :=
  lseg m b.1 l nullptr /\ b.2 = Z.of_nat (length l).

Definition slots_ok (m : gmap ptr __block) (ring : list (ptr * Z)) (t : Z) (l : list ptr) : Prop :=
  forall j, (j < Z.to_nat __K_)%nat ->
  exists b, ring !! slot_index (t + Z.of_nat j) = Some b /\ slot_ok m b (batch l j).

(** [rrep s t l]: [t] slots were emptied so far and [l] is in the ring. *)
Record rrep (s : rstate) (t : Z) (l : list ptr) : Prop := {
  r_state : __state_ (rsrc s) = t * 2 ^ 32 + (t + Z.of_nat (length l) / __T_);
  r_bound : 0 <= t /\ t + Z.of_nat (length l) / __T_ < 2 ^ 32;
  r_ring : length (__ring_ (rsrc s)) = Z.to_nat __K_;
  r_room : Z.of_nat (length l) <= __K_ * __T_;
  r_slots : slots_ok (rmem s) (__ring_ (rsrc s)) t l;
  r_nodup : NoDup l
}.

#[local] Arguments Nat.div : simpl never.
#[local] Arguments Nat.modulo : simpl never.
#[local] Arguments Z.of_nat : simpl never.

(** ** Batches *)

Lemma K_64 : Z.to_nat __K_ = 64%nat.
Proof. done. Qed.

Lemma elem_of_batch l j x :
  x ∈ batch l j <-> exists k, (16 * j <= k < 16 * j + 16)%nat /\ l !! k = Some x.
Proof.
  unfold batch. change (Z.to_nat __T_) with 16%nat.
  rewrite elem_of_reverse, list_elem_of_lookup. setoid_rewrite lookup_take_Some.
  setoid_rewrite lookup_drop. split.
  - intros (i & ? & ?). exists (16 * j + i)%nat. split; [lia|done].
  - intros (k & ? & ?). exists (k - 16 * j)%nat.
    split; [by replace (16 * j + (k - 16 * j))%nat with k by lia|lia].
Qed.

Lemma batch_incl l j x : x ∈ batch l j -> x ∈ l.
Proof. intros (k & _ & ?)%elem_of_batch. by eapply list_elem_of_lookup_2. Qed.

Lemma batch_disjoint l j j' : NoDup l -> j <> j' -> batch l j ## batch l j'.
Proof.
  intros Hl ? x (k & ? & Hk)%elem_of_batch (k' & ? & Hk')%elem_of_batch.
  pose proof (NoDup_lookup _ _ _ _ Hl Hk Hk'). lia.
Qed.

Lemma batch_length l j : length (batch l j) = (16 `min` (length l - 16 * j))%nat.
Proof. unfold batch. by rewrite length_reverse, length_take, length_drop. Qed.

Lemma batch_nil l j : (length l <= 16 * j)%nat -> batch l j = [].
Proof. intros. apply length_zero_iff_nil. rewrite batch_length. lia. Qed.

Lemma batch_drop l j : batch (drop 16 l) j = batch l (S j).
Proof. unfold batch. rewrite drop_drop. do 3 f_equal. change (Z.to_nat __T_) with 16%nat. lia. Qed.

(** Appending what fits into the last batch. *)
Lemma batch_app_last l c :
  let j := (length l / 16)%nat in (length l mod 16 + length c <= 16)%nat ->
  batch (l ++ c) j = reverse c ++ batch l j.
Proof.
  intros j Hc. unfold batch. change (Z.to_nat __T_) with 16%nat.
  pose proof (Nat.div_mod_eq (length l) 16). pose proof (Nat.mod_upper_bound (length l) 16).
  subst j. rewrite drop_app_le, <- reverse_app by lia. f_equal.
  rewrite !take_ge; [done|..]; rewrite ?length_app, length_drop; lia.
Qed.

Lemma batch_app_other l c j :
  (length l mod 16 + length c <= 16)%nat -> (j <> length l / 16)%nat -> batch (l ++ c) j = batch l j.
Proof.
  intros Hc Hj. pose proof (Nat.div_mod_eq (length l) 16).
  pose proof (Nat.mod_upper_bound (length l) 16). destruct (decide (j < length l / 16)%nat).
  - unfold batch. change (Z.to_nat __T_) with 16%nat. f_equal.
    rewrite drop_app_le, take_app_le by (rewrite ?length_drop; lia). done.
  - rewrite !batch_nil; [done|..]; rewrite ?length_app; lia.
Qed.

(** ** Slots *)

Lemma slot_index_mod c : slot_index c = Z.to_nat (c mod 64).
Proof. unfold slot_index. f_equal. by apply (land_pow2_mask c 6). Qed.

Lemma slot_index_inj t j j' :
  (j < 64)%nat -> (j' < 64)%nat ->
  slot_index (t + Z.of_nat j) = slot_index (t + Z.of_nat j') -> j = j'.
Proof.
  rewrite !slot_index_mod. intros ?? E%Z2Nat.inj; [|apply Z.mod_pos_bound; lia..].
  pose proof (Z.div_mod (t + Z.of_nat j) 64). pose proof (Z.div_mod (t + Z.of_nat j') 64).
  lia.
Qed.

Lemma slot_index_lt c : (slot_index c < 64)%nat.
Proof. rewrite slot_index_mod. pose proof (Z.mod_pos_bound c 64). lia. Qed.

Lemma slot_index_64 t : slot_index (t + 64) = slot_index t.
Proof. rewrite !slot_index_mod. f_equal. replace (t + 64) with (t + 1 * 64) by lia. by rewrite Z.mod_add. Qed.

Lemma slot_ok_relinks m m' r b l : slot_ok m b l -> relinks r m m' -> l ## r -> slot_ok m' b l.
Proof. intros [??] ??. split; [by eapply relinks_lseg|done]. Qed.

(** Rewriting one slot leaves the others as they are. *)
Lemma slots_ok_update m m' ring t l l' j r b :
  slots_ok m ring t l -> relinks r m m' -> (j < 64)%nat -> length ring = 64%nat ->
  slot_ok m' b (batch l' j) ->
  (forall i, (i < 64)%nat -> i <> j -> batch l' i = batch l i /\ batch l i ## r) ->
  slots_ok m' (<[slot_index (t + Z.of_nat j) := b]> ring) t l'.
Proof.
  intros Hs Hr Hj Hlen Hb Hi i Hlt. rewrite K_64 in Hlt. destruct (decide (i = j)) as [->|Hij].
  - exists b. split; [|done]. apply list_lookup_insert_eq. rewrite Hlen. apply slot_index_lt.
  - destruct (Hs i Hlt) as (b' & ? & ?). exists b'. destruct (Hi i Hlt Hij) as [-> ?].
    split; [|by eapply slot_ok_relinks]. rewrite list_lookup_insert_ne; [done|].
    intros E%slot_index_inj; lia.
Qed.

(** ** The state word *)

Lemma convert_state t h : 0 <= t -> is_word 32 h -> t < 2 ^ 32 -> __convert (t * 2 ^ 32 + h) = (h, t).
Proof.
  intros ? [??] ?. unfold __convert, wrap. f_equal.
  - rewrite Z.add_comm, Z.mod_add by lia. by apply Z.mod_small.
  - rewrite Z.shiftr_div_pow2, Z.div_add_l, Z.div_small, Z.add_0_r by lia. by apply Z.mod_small.
Qed.

Lemma rrep_convert s t l : rrep s t l ->
  __convert (__state_ (rsrc s)) = (t + Z.of_nat (length l) / __T_, t).
Proof.
  intros Hs. destruct (r_bound _ _ _ Hs). rewrite (r_state _ _ _ Hs).
  assert (0 <= Z.of_nat (length l) / __T_) by (apply Z.div_pos; unfold __T_; lia).
  apply convert_state; [done|split; lia|lia].
Qed.

Lemma rrep_words s t l : rrep s t l ->
  u32 (__state_ (rsrc s)) = t + Z.of_nat (length l / 16) /\
  u32 (Z.shiftr (__state_ (rsrc s)) 32) = t.
Proof.
  intros Hs%rrep_convert. rewrite Nat2Z.inj_div. unfold __convert in Hs. by simplify_eq.
Qed.

Lemma div_T n : Z.of_nat n / __T_ = Z.of_nat (n / 16).
Proof. by rewrite Nat2Z.inj_div. Qed.

(** ** Accesses *)

Lemma returns_get_slot i s b (Q : ptr * Z -> rstate -> Prop) :
  __ring_ (rsrc s) !! i = Some b -> Q b s -> returns (get_slot i) s Q.
Proof. intros Hb ?. unfold get_slot, get_src. rsteps. rewrite Hb. by rsteps. Qed.

Lemma returns_get_count i s b (Q : Z -> rstate -> Prop) :
  __ring_ (rsrc s) !! i = Some b -> Q b.2 s -> returns (get_count i) s Q.
Proof. intros. unfold get_count. rsteps. eapply returns_get_slot; [done|]. by rsteps. Qed.

Lemma returns_set_count i n s b (Q : unit -> rstate -> Prop) :
  __ring_ (rsrc s) !! i = Some b ->
  Q tt (mkR (rmem s) (with_ring (rsrc s) (<[i := (b.1, n)]> (__ring_ (rsrc s))))) ->
  returns (set_count i n) s Q.
Proof. intros. unfold set_count, set_slot. rsteps. eapply returns_get_slot; [done|]. by rsteps. Qed.

Lemma returns_on_queue {A} (c : M (atomic_intrusive_queue.shared (Node := __block)) A) i s b
    (Q : A -> rstate -> Prop) :
  __ring_ (rsrc s) !! i = Some b ->
  returns c (atomic_intrusive_queue.mkShared (rmem s) b.1) (fun a x =>
    Q a (mkR (atomic_intrusive_queue.smem x)
      (with_ring (rsrc s) (<[i := (atomic_intrusive_queue.shead x, b.2)]> (__ring_ (rsrc s)))))) ->
  returns (on_queue i c) s Q.
Proof.
  intros ? Hc. unfold on_queue, set_slot. rsteps. eapply returns_get_slot; [done|]. rsteps.
  unfold returns in *. destruct (c _) as [[a x]|]; [done|done].
Qed.

Lemma returns_on_ring_blocks {A} (c : M (gmap ptr __block) A) s (Q : A -> rstate -> Prop) :
  returns c (rmem s) (fun a m => Q a (mkR m (rsrc s))) -> returns (on_blocks c) s Q.
Proof. unfold returns, on_blocks. by destruct (c (rmem s)) as [[]|]. Qed.

(** ** Taking a batch *)

Lemma try_pop_empty s t l :
  rrep s t l -> (length l < 16)%nat ->
  _M_try_pop_swap_reversed s = Done (empty_queue, s).
Proof.
  intros Hs Hl. unfold _M_try_pop_swap_reversed, get_src, mbind, M_bind, get, mret, M_ret.
  rewrite (rrep_convert _ _ _ Hs), div_T, Nat.div_small by done.
  by rewrite decide_True by lia.
Qed.

(** The batch comes out in insertion order and the tail moves past its slot,
    which is empty for the head's next turn. *)
Lemma try_pop_spec s t l :
  rrep s t l -> (16 <= length l)%nat ->
  returns _M_try_pop_swap_reversed s (fun q s' =>
    qrep (rmem s') q (take 16 l) /\ rrep s' (t + 1) (drop 16 l) /\
    relinks (take 16 l) (rmem s) (rmem s') /\
    __n_ (rsrc s') = __n_ (rsrc s) /\ __mmap_ (rsrc s') = __mmap_ (rsrc s)).
Proof.
  intros Hs Hl. pose proof (r_slots _ _ _ Hs) as Hslots. pose proof (r_room _ _ _ Hs) as Hroom.
  pose proof (r_ring _ _ _ Hs) as Hring. rewrite K_64 in Hring.
  destruct (r_bound _ _ _ Hs) as [Ht Hb]. pose proof (r_nodup _ _ _ Hs) as Hnd.
  change (__K_ * __T_) with 1024 in Hroom. rewrite div_T in Hb.
  assert (1 <= length l / 16)%nat by (apply Nat.div_le_lower_bound; lia).
  assert (batch l 0 = reverse (take 16 l)) as E0 by done.
  destruct (Hslots 0%nat) as (b & Hb0 & Hok); [rewrite K_64; lia|].
  rewrite Z.add_0_r in Hb0. rewrite E0 in Hok.
  destruct (rrep_words _ _ _ Hs) as [Eh Et].
  unfold _M_try_pop_swap_reversed, get_src. rsteps. rewrite Eh, Et, decide_False by lia.
  unfold set_state. rsteps. eapply returns_on_queue; [done|]. simpl.
  eapply returns_mono.
  { apply atomic_intrusive_queue.pop_swap_reversed_seq; [apply Hok|].
    rewrite length_reverse, length_take. change max_blocks with 1024%nat. lia. }
  intros q x (Hq & Hx & Hr). rewrite reverse_involutive in Hq.
  assert (relinks (take 16 l) (rmem s) (atomic_intrusive_queue.smem x)) as Hr'.
  { eapply relinks_mono; [done|]. intros y. by rewrite elem_of_reverse. }
  rsteps. eapply returns_set_count.
  { simpl. apply list_lookup_insert_eq. rewrite Hring. apply slot_index_lt. }
  rsteps. split_and!; [done| |done..]. rewrite list_insert_insert_eq, Hx.
  assert (length (drop 16 l) = length l - 16)%nat as Hlen by apply length_drop.
  assert (length l / 16 = S (length (drop 16 l) / 16))%nat as Hdiv.
  { rewrite Hlen. replace (length l) with (length l - 16 + 1 * 16)%nat at 1 by lia.
    rewrite Nat.div_add; lia. }
  constructor; simpl.
  - rewrite (r_state _ _ _ Hs), div_T, div_T, Hdiv. unfold __tail_stride_.
    rewrite wrap_small; [lia|]. split; [lia|]. nia.
  - rewrite div_T. lia.
  - by rewrite length_insert, Hring.
  - change (__K_ * __T_) with 1024. lia.
  - intros j Hj. rewrite K_64 in Hj. rewrite batch_drop. destruct (decide (j = 63%nat)) as [->|].
    + exists (nullptr, 0). replace (t + 1 + Z.of_nat 63) with (t + 64) by lia.
      rewrite slot_index_64, batch_nil by lia. split; [|done].
      apply list_lookup_insert_eq. rewrite Hring. apply slot_index_lt.
    + destruct (Hslots (S j)) as (b' & Hb' & Hok'); [rewrite K_64; lia|].
      exists b'. replace (t + 1 + Z.of_nat j) with (t + Z.of_nat (S j)) by lia. split.
      * rewrite list_lookup_insert_ne; [done|]. rewrite <- (Z.add_0_r t) at 1.
        intros E%(slot_index_inj t 0); lia.
      * eapply slot_ok_relinks; [done|exact Hr|]. rewrite <- E0. by apply batch_disjoint.
  - eapply sublist_NoDup; [exact Hnd|]. apply sublist_drop.
Qed.

(** ** Returning a block *)

Lemma rrep_grow s s' t l c b :
  let h := Z.of_nat (length l / 16) in
  let h' := Z.of_nat (length (l ++ c) / 16) in
  rrep s t l -> (length l < 1024)%nat -> (length l mod 16 + length c <= 16)%nat ->
  NoDup (l ++ c) -> t + h' < 2 ^ 32 ->
  relinks c (rmem s) (rmem s') ->
  __state_ (rsrc s') = t * 2 ^ 32 + (t + h') ->
  __ring_ (rsrc s') = <[slot_index (t + h) := b]> (__ring_ (rsrc s)) ->
  slot_ok (rmem s') b (reverse c ++ batch l (length l / 16)) ->
  rrep s' t (l ++ c).
Proof.
  intros h h' Hs Hl Hc Hnd Ht Hr Hst Hri Hb.
  pose proof (r_ring _ _ _ Hs) as Hring. rewrite K_64 in Hring.
  pose proof (Nat.div_mod_eq (length l) 16). assert (length l / 16 < 64)%nat by (apply Nat.Div0.div_lt_upper_bound; lia).
  constructor.
  - by rewrite Hst, div_T.
  - rewrite div_T. split; [apply (r_bound _ _ _ Hs)|done].
  - by rewrite Hri, length_insert, Hring.
  - change (__K_ * __T_) with 1024. rewrite length_app. lia.
  - rewrite Hri. eapply slots_ok_update; [apply (r_slots _ _ _ Hs)|done..| |].
    + by rewrite batch_app_last.
    + intros i ? Hi. split; [by apply batch_app_other|]. apply NoDup_app in Hnd as (_ & Hnd & _).
      intros x Hx%batch_incl. by apply Hnd.
  - done.
Qed.

Lemma head_slot s t l :
  rrep s t l -> (length l < 1024)%nat ->
  exists b, __ring_ (rsrc s) !! slot_index (t + Z.of_nat (length l / 16)) = Some b /\
    slot_ok (rmem s) b (batch l (length l / 16)) /\ b.2 = Z.of_nat (length l mod 16).
Proof.
  intros Hs Hl. destruct (r_slots _ _ _ Hs (length l / 16)%nat) as (b & ? & Hb).
  { rewrite K_64. apply Nat.Div0.div_lt_upper_bound; lia. }
  exists b. split_and!; [done..|]. destruct Hb as [_ ->]. rewrite batch_length. f_equal.
  pose proof (Nat.div_mod_eq (length l) 16). pose proof (Nat.mod_upper_bound (length l) 16). lia.
Qed.

Lemma div16_succ n :
  (S n / 16 = if decide (n mod 16 = 15) then S (n / 16) else n / 16)%nat.
Proof.
  pose proof (Nat.div_mod_eq n 16). pose proof (Nat.mod_upper_bound n 16).
  case_decide; symmetry.
  - apply Nat.div_unique with 0%nat; lia.
  - apply Nat.div_unique with (S (n mod 16)); lia.
Qed.

Lemma push_block_spec s t l p fuel :
  let t' := t + Z.of_nat (S (length l) / 16) in
  rrep s t l -> (length l < 1024)%nat -> t' < 2 ^ 32 -> p ∉ l -> live (rmem s) p ->
  returns (_M_push (S fuel) p) s (fun _ s' => rrep s' t (l ++ [p]) /\
    relinks [p] (rmem s) (rmem s') /\
    __n_ (rsrc s') = __n_ (rsrc s) /\ __mmap_ (rsrc s') = __mmap_ (rsrc s)).
Proof.
  intros t' Hs Hl Ht Hp Hlive. destruct (head_slot s t l Hs Hl) as (b & Hb & Hok & Hn).
  destruct (rrep_words _ _ _ Hs) as [Eh _]. pose proof (r_ring _ _ _ Hs) as Hring.
  rewrite K_64 in Hring. pose proof (Nat.mod_upper_bound (length l) 16).
  assert (Hin : (slot_index (t + Z.of_nat (length l / 16)) < length (__ring_ (rsrc s)))%nat).
  { rewrite Hring. apply slot_index_lt. }
  assert (NoDup (l ++ [p])).
  { apply NoDup_app. split_and!; [apply (r_nodup _ _ _ Hs)|set_solver|apply NoDup_singleton]. }
  assert (u64 (b.2 + 1) = Z.of_nat (S (length l mod 16))) as En.
  { rewrite Hn, wrap_small by (split; lia). lia. }
  simpl. unfold get_src, __convert. rsteps. rewrite Eh. eapply returns_get_count; [done|].
  rewrite En, decide_False by (rewrite Hn; unfold __T_; lia).
  rsteps. eapply returns_set_count; [done|]. rsteps. eapply returns_on_queue.
  { by apply list_lookup_insert_eq. }
  simpl. eapply returns_mono.
  { apply atomic_intrusive_queue.push_front_seq; [apply Hok|done|]. by intros ?%batch_incl. }
  intros ? x (_ & Hx & Hr). rewrite list_insert_insert_eq.
  assert (slot_ok (atomic_intrusive_queue.smem x) (atomic_intrusive_queue.shead x, Z.of_nat (S (length l mod 16)))
            (reverse [p] ++ batch l (length l / 16))) as Hok'.
  { split; [exact Hx|]. destruct Hok as [_ E]. rewrite length_app. simpl. lia. }
  assert (length (l ++ [p]) = S (length l)) as Hlen by (rewrite length_app; simpl; lia).
  pose proof (r_state _ _ _ Hs) as Est. rewrite div_T in Est. destruct (r_bound _ _ _ Hs) as [? _].
  unfold set_state. case_decide as Hfull; rsteps; (split_and!; [|done..]);
    pose proof (div16_succ (length l)) as Hdiv;
    (eapply (rrep_grow s _ t l [p]); simpl; [exact Hs|done|lia|done| |done| |done|done]);
    rewrite Hlen, Hdiv; subst t'; rewrite Hdiv in Ht; unfold __T_ in Hfull.
  - exact Ht.
  - rewrite Est, decide_True by lia. rewrite decide_True in Ht by lia. unfold __head_stride_.
    rewrite wrap_small; [lia|split; [lia|nia]].
  - exact Ht.
  - rewrite Est, decide_False by lia. lia.
Qed.

(** A ring that is full has no slot to push into: the loop re-reads the
    counter for as long as nobody pops. *)
Lemma push_full s t l p fuel :
  rrep s t l -> length l = 1024%nat -> _M_push fuel p s = Fault OutOfFuel.
Proof.
  intros Hs Hl. destruct (rrep_words _ _ _ Hs) as [Eh _].
  destruct (r_slots _ _ _ Hs 0%nat) as (b & Hb & [_ Hn]); [rewrite K_64; lia|].
  rewrite batch_length, Hl in Hn. rewrite Z.add_0_r in Hb. rewrite Hl in Eh.
  change (Z.of_nat (1024 / 16)) with 64 in Eh. rewrite <- slot_index_64, <- Eh in Hb.
  induction fuel as [|fuel IH]; [done|]. simpl. rewrite <- IH.
  unfold get_src, get_count, get_slot, mbind, M_bind, get, mret, M_ret. simpl.
  unfold get_src, mbind, M_bind, get, mret, M_ret. simpl. unfold u32, __convert in *. rewrite Hb.
  simpl. by rewrite Hn.
Qed.

(** ** Inserting the blocks of a mapping *)

Definition room (l : list ptr) : nat := (16 - length l mod 16)%nat.

Lemma room_div l c : length c = room l -> (length (l ++ c) / 16 = S (length l / 16))%nat.
Proof.
  intros Hc. unfold room in Hc. pose proof (Nat.div_mod_eq (length l) 16).
  pose proof (Nat.mod_upper_bound (length l) 16). rewrite length_app.
  symmetry. apply Nat.div_unique with 0%nat; lia.
Qed.

Lemma returns_nth_ptr (l : list ptr) i p s (Q : ptr -> rstate -> Prop) :
  0 <= i -> l !! Z.to_nat i = Some p -> Q p s -> returns (nth_ptr l i) s Q.
Proof. intros ? E ?. unfold nth_ptr. rewrite decide_True by done. by rewrite E. Qed.

(** The range a round splices off: from the [k]-th pointer on, as many as the
    head slot has room for. *)
Lemma round_range (l : list ptr) (k r : nat) s (Q : ptr -> rstate -> Prop) (R : ptr -> rstate -> Prop) :
  length l = 64%nat -> (1 <= r)%nat -> (k + r <= 64)%nat ->
  (Q (head_ptr (drop (k + r) l)) s ->
   returns (if Z.of_nat (k + r) <? __M_ then nth_ptr l (Z.of_nat (k + r)) else mret nullptr) s Q) /\
  (R (last_ptr (take r (drop k l))) s -> returns (nth_ptr l (Z.of_nat (k + r) - 1)) s R).
Proof.
  intros Hl Hr Hk. split; intros HQ.
  - case_match eqn:E.
    + apply Z.ltb_lt in E. unfold __M_ in E. destruct (lookup_lt_is_Some_2 l (k + r)) as [p Hp]; [lia|].
      eapply returns_nth_ptr; [lia|by rewrite Nat2Z.id|].
      unfold head_ptr in HQ. rewrite head_lookup, lookup_drop, Nat.add_0_r, Hp in HQ. done.
    + apply Z.ltb_ge in E. unfold __M_ in E. rewrite drop_ge in HQ by lia. by apply returns_ret.
  - destruct (lookup_lt_is_Some_2 l (k + r - 1)) as [p Hp]; [lia|].
    eapply returns_nth_ptr; [lia|by replace (Z.to_nat (Z.of_nat (k + r) - 1)) with (k + r - 1)%nat by lia|].
    unfold last_ptr in HQ. rewrite last_lookup, length_take, length_drop in HQ.
    rewrite lookup_take_lt, lookup_drop in HQ by lia.
    replace (k + pred (r `min` (length l - k)))%nat with (k + r - 1)%nat in HQ by lia. by rewrite Hp in HQ.
Qed.

Lemma prepend_round_spec s t l q ptrs (k : nat) :
  let r := room l in
  let mid := take r (drop k ptrs) in
  rrep s t l -> (length l < 1024)%nat -> t + Z.of_nat (length l / 16) + 1 < 2 ^ 32 ->
  length ptrs = 64%nat -> (k + r <= 64)%nat -> qrep (rmem s) q (drop k ptrs) -> l ## drop k ptrs ->
  returns (_M_prepend_round q ptrs (Z.of_nat k)) s (fun '(q', k') s' =>
    k' = Z.of_nat (k + r) /\ rrep s' t (l ++ reverse mid) /\
    qrep (rmem s') q' (drop (k + r) ptrs) /\ relinks mid (rmem s) (rmem s') /\
    __n_ (rsrc s') = __n_ (rsrc s) /\ __mmap_ (rsrc s') = __mmap_ (rsrc s)).
Proof.
  intros r mid Hs Hl Ht Hptrs Hk Hq Hdisj. destruct (head_slot s t l Hs Hl) as (b & Hb & Hok & Hn).
  destruct (rrep_words _ _ _ Hs) as [Eh _]. pose proof (r_ring _ _ _ Hs) as Hring.
  rewrite K_64 in Hring. pose proof (Nat.mod_upper_bound (length l) 16).
  assert (Hin : (slot_index (t + Z.of_nat (length l / 16)) < length (__ring_ (rsrc s)))%nat).
  { rewrite Hring. apply slot_index_lt. }
  assert (length l mod 16 + r = 16 /\ 1 <= r)%nat as [Hr16 ?] by (unfold r, room; lia).
  assert (drop k ptrs = mid ++ drop (k + r) ptrs) as Esplit.
  { unfold mid. rewrite <- drop_drop. by rewrite take_drop. }
  assert (length mid = r) as Hmid by (unfold mid; rewrite length_take, length_drop; lia).
  pose proof (qrep_NoDup _ _ _ Hq) as Hnd. rewrite Esplit in Hq, Hdisj, Hnd.
  unfold _M_prepend_round, get_src, __convert. rsteps. rewrite Eh. eapply returns_get_count; [done|].
  rewrite decide_False by (rewrite Hn; unfold __T_; lia).
  rsteps. eapply returns_set_count; [done|].
  assert (u32 (__T_ - b.2) = Z.of_nat r) as ->.
  { rewrite Hn. unfold __T_. rewrite wrap_small; [unfold r, room; lia|split; lia]. }
  assert (u32 (Z.of_nat k + Z.of_nat r) = Z.of_nat (k + r)) as ->.
  { rewrite wrap_small; [lia|split; lia]. }
  assert (u32 (Z.of_nat (k + r) - 1) = Z.of_nat (k + r) - 1) as ->.
  { apply wrap_small. split; lia. }
  rsteps. eapply (round_range _ k r _ _ (fun _ _ => True)); [done|lia|done|].
  rsteps. eapply (round_range _ k r _ (fun _ _ => True)); [done|lia|done|]. fold mid.
  rsteps. apply returns_on_ring_blocks. eapply returns_mono.
  { apply (splice_head _ empty_queue q [] [] mid (drop (k + r) ptrs)); [by apply qrep_nil|done| |done|].
    - intros x Hx. by apply not_elem_of_nil in Hx.
    - intros E. rewrite E in Hmid. simpl in Hmid. lia. }
  clearbody mid.
  intros [q1 q2] m (H1 & Hta & H2 & Hrl). destruct mid as [|la c _] using rev_ind.
  { simpl in Hmid. lia. }
  rewrite decide_True in Hta by done. rewrite last_ptr_snoc in Hta.
  apply lseg_snoc in H1 as (H1 & ? & Hla).
  assert (la ∉ c /\ la ∉ drop (k + r) ptrs /\ (forall x, x ∈ c ++ [la] -> x ∉ l)) as (? & ? & Hcl).
  { rewrite <- app_assoc in Hnd. apply NoDup_app in Hnd as (_ & Hc & Hnd).
    apply NoDup_cons in Hnd as [? _]. split_and!; [|done|].
    - intros Hx. apply (Hc _ Hx). by left.
    - intros x Hx Hx'. apply (Hdisj _ Hx'). set_solver. }
  assert (batch l (length l / 16) ## []) as Hb0 by (intros x _ Hx; by apply not_elem_of_nil in Hx).
  rsteps. eapply returns_on_queue; [by apply list_lookup_insert_eq|]. simpl. eapply returns_mono.
  { eapply (atomic_intrusive_queue.prepend_seq _ (batch l (length l / 16)) q1 c la); simpl; [|done..| |done|].
    - by eapply relinks_lseg; [| |apply Hok].
    - by split; [|naive_solver].
    - intros ?%batch_incl. by eapply Hcl; [apply elem_of_app; right; left|]. }
  intros _ x (Hx & Hr). rewrite list_insert_insert_eq. simpl in Hr. unfold set_state. rsteps.
  assert (relinks (c ++ [la]) (rmem s) (atomic_intrusive_queue.smem x)) as Hrs.
  { etrans; [eapply relinks_mono; [exact Hrl|set_solver]|eapply relinks_mono; [exact Hr|set_solver]]. }
  split_and!; [done| | |done..].
  - pose proof (r_state _ _ _ Hs) as Est. rewrite div_T in Est. destruct (r_bound _ _ _ Hs) as [? _].
    assert (length (reverse (c ++ [la])) = r) as Hlr by by rewrite length_reverse.
    eapply (rrep_grow s _ t l (reverse (c ++ [la]))); simpl; rewrite ?(room_div _ _ Hlr);
      [done|done|lia| |lia| | |done|].
    + apply NoDup_app. split_and!; [apply (r_nodup _ _ _ Hs)| |].
      * intros y Hy Hy'. rewrite elem_of_reverse in Hy'. by eapply Hcl.
      * rewrite reverse_Permutation. by apply NoDup_app in Hnd as [Hnd _].
    + eapply relinks_mono; [exact Hrs|]. intros y. by rewrite elem_of_reverse.
    + rewrite Est. unfold __head_stride_. rewrite wrap_small; [lia|split; [lia|nia]].
    + rewrite reverse_involutive. split; [exact Hx|]. simpl. destruct Hok as [_ E].
      rewrite length_app. unfold __T_. rewrite Hn in E. lia.
  - eapply qrep_relinks; [done|exact Hr|]. intros y ? ->%list_elem_of_singleton. done.
Qed.

(** The insertion order [_M_prepend] gives to [n] batches: each is put on
    its stack as a whole. *)
Fixpoint flipped (n : nat) (c : list ptr) : list ptr :=
  match n with
  | O => []
  | S n => reverse (take 16 c) ++ flipped n (drop 16 c)
  end.

Lemma flipped_perm n c : (length c <= 16 * n)%nat -> flipped n c ≡ₚ c.
Proof.
  revert c. induction n as [|n IH]; intros c Hc; simpl.
  - by destruct c; [|simpl in Hc; lia].
  - rewrite reverse_Permutation, IH, take_drop; [done|]. rewrite length_drop. lia.
Qed.

Lemma prepend_step s q ptrs k fuel P :
  _M_empty q = false -> returns (_M_prepend_round q ptrs k) s P ->
  exists q' k' s', P (q', k') s' /\ _M_prepend (S fuel) q ptrs k s = _M_prepend fuel q' ptrs k' s'.
Proof.
  intros Hq ([q' k'] & s' & E & HP)%returns_Done. exists q', k', s'. split; [done|].
  simpl. rewrite Hq. unfold mbind, M_bind. by rewrite E.
Qed.

(** Rounds that start with an empty head slot. *)
Lemma prepend_rounds n fuel t ptrs : length ptrs = 64%nat -> forall s l q (k : nat),
  rrep s t l -> (length l mod 16 = 0)%nat -> (length l + 16 * n <= 1024)%nat ->
  t + Z.of_nat (length l / 16 + n) < 2 ^ 32 -> (k + 16 * n <= 64)%nat ->
  qrep (rmem s) q (drop k ptrs) -> l ## drop k ptrs ->
  exists q' s', let c := take (16 * n) (drop k ptrs) in
    rrep s' t (l ++ flipped n c) /\ qrep (rmem s') q' (drop (k + 16 * n) ptrs) /\
    relinks c (rmem s) (rmem s') /\
    __n_ (rsrc s') = __n_ (rsrc s) /\ __mmap_ (rsrc s') = __mmap_ (rsrc s) /\
    _M_prepend (n + fuel) q ptrs (Z.of_nat k) s = _M_prepend fuel q' ptrs (Z.of_nat (k + 16 * n)) s'.
Proof.
  intros Hptrs. induction n as [|n IH]; intros s l q k Hs Hal Hl Ht Hk Hq Hd.
  { exists q, s. rewrite Nat.mul_0_r, Nat.add_0_r. simpl. by rewrite app_nil_r. }
  assert (room l = 16%nat) as Hroom by (unfold room; lia).
  edestruct (prepend_step s q ptrs (Z.of_nat k) (n + fuel)) as (q1 & k1 & s1 & H1 & E1).
  2: { eapply prepend_round_spec; [done|lia|lia|done|rewrite Hroom; lia|done|done]. }
  { erewrite qrep_empty by done. apply bool_decide_eq_false_2. intros E.
    apply (f_equal length) in E. rewrite length_drop in E. simpl in E. lia. }
  rewrite Hroom in H1. destruct H1 as (-> & Hs1 & Hq1 & Hr1 & En1 & Em1).
  assert (length (reverse (take 16 (drop k ptrs))) = room l) as Hlen.
  { rewrite Hroom, length_reverse, length_take, length_drop. lia. }
  pose proof (room_div _ _ Hlen) as Hdiv.
  edestruct (IH s1) as (q2 & s2 & Hs2 & Hq2 & Hr2 & En2 & Em2 & E2); [done|..|done| |].
  - rewrite length_app, Hlen, Hroom. pose proof (Nat.div_mod_eq (length l) 16).
    symmetry. apply Nat.mod_unique with (S (length l / 16)); lia.
  - rewrite length_app, Hlen, Hroom. lia.
  - rewrite Hdiv. lia.
  - lia.
  - intros x Hx Hx'. rewrite <- drop_drop in Hx'. pose proof (qrep_NoDup _ _ _ Hq) as Hnd.
    rewrite <- (take_drop 16 (drop k ptrs)) in Hnd. apply NoDup_app in Hnd as (_ & Hnd & _).
    apply elem_of_app in Hx as [Hx|Hx].
    + apply (Hd x Hx). by eapply subseteq_drop.
    + rewrite elem_of_reverse in Hx. by eapply Hnd.
  - exists q2, s2. rewrite <- drop_drop in Hs2, Hr2. simpl flipped.
    replace (k + 16 * S n)%nat with (k + 16 + 16 * n)%nat by lia.
    assert (take (16 * S n) (drop k ptrs) = take 16 (drop k ptrs) ++ take (16 * n) (drop 16 (drop k ptrs))) as Et.
    { rewrite take_take_drop. f_equal. lia. }
    split_and!; [|done| |by etrans|by etrans|by rewrite <- E2].
    + rewrite Et, take_app_le, take_ge, drop_app_ge, length_take, length_drop, Nat.min_l, Nat.sub_diag, drop_0
        by (rewrite ?length_take, ?length_drop; lia).
      by rewrite app_assoc.
    + rewrite Et. etrans; (eapply relinks_mono; [done|]); intros ? ?; apply elem_of_app; auto.
Qed.

Lemma prepend_done s q ptrs k fuel :
  qrep (rmem s) q [] -> _M_prepend fuel q ptrs k s = Done (tt, s).
Proof. intros ->%qrep_nil. by destruct fuel. Qed.

(** All blocks of a mapping go in when the head slot is empty. *)
Lemma prepend_blocks_spec s t l q ptrs fuel :
  rrep s t l -> (length l mod 16 = 0)%nat -> (length l + 64 <= 1024)%nat ->
  t + Z.of_nat (length l / 16 + 4) < 2 ^ 32 -> length ptrs = 64%nat ->
  qrep (rmem s) q ptrs -> l ## ptrs ->
  returns (_M_prepend (4 + fuel) q ptrs 0) s (fun _ s' =>
    rrep s' t (l ++ flipped 4 ptrs) /\ relinks ptrs (rmem s) (rmem s') /\
    __n_ (rsrc s') = __n_ (rsrc s) /\ __mmap_ (rsrc s') = __mmap_ (rsrc s)).
Proof.
  intros Hs Hal Hl Ht Hptrs Hq Hd.
  destruct (prepend_rounds 4 fuel t ptrs Hptrs s l q 0) as (q' & s' & H1 & Hq' & Hr & ? & ? & E); try done; try lia.
  change (Z.of_nat 0) with 0 in E. unfold returns. rewrite E.
  rewrite drop_0, take_ge in * by (simpl; lia).
  rewrite drop_ge in Hq' by (simpl; lia). by rewrite prepend_done.
Qed.

Lemma prepend_round_out_of_bounds s t l q ptrs (k : nat) :
  rrep s t l -> (length l < 1024)%nat -> length ptrs = 64%nat -> (64 < k + room l)%nat -> (k <= 64)%nat ->
  _M_prepend_round q ptrs (Z.of_nat k) s = Fault OutOfBounds.
Proof.
  intros Hs Hl Hptrs Hk Hk'. destruct (head_slot s t l Hs Hl) as (b & Hb & _ & Hn).
  destruct (rrep_words _ _ _ Hs) as [Eh _]. pose proof (Nat.mod_upper_bound (length l) 16).
  unfold _M_prepend_round, get_src, __convert.
  eapply (bind_fault _ _ _ _ (fun a s' => a = rsrc s /\ s' = s)); [by rsteps|]. intros ?? [-> ->].
  rewrite Eh.
  eapply (bind_fault _ _ _ _ (fun a s' => a = b.2 /\ s' = s)); [by eapply returns_get_count|].
  intros ?? [-> ->]. rewrite decide_False by (rewrite Hn; unfold __T_; lia).
  eapply (bind_fault _ _ _ _ (fun _ _ => True)); [by eapply returns_set_count|]. intros _ s' _.
  assert (u32 (__T_ - b.2) = Z.of_nat (room l)) as ->.
  { rewrite Hn. unfold __T_, room. rewrite wrap_small; [lia|split; lia]. }
  assert (room l <= 16)%nat by (unfold room; lia).
  assert (u32 (Z.of_nat k + Z.of_nat (room l)) = Z.of_nat (k + room l)) as ->.
  { rewrite wrap_small; [lia|split; lia]. }
  assert (u32 (Z.of_nat (k + room l) - 1) = Z.of_nat (k + room l) - 1) as ->.
  { apply wrap_small. split; lia. }
  destruct (Z.ltb_spec (Z.of_nat (k + room l)) __M_) as [Hlt|_]; [unfold __M_ in Hlt; lia|].
  eapply (bind_fault _ _ _ _ (fun _ _ => True)); [by rsteps|]. intros ? ? _.
  unfold nth_ptr, mbind, M_bind. rewrite decide_True by lia. rewrite lookup_ge_None_2 by lia. done.
Qed.

(** With a partly filled head slot the rounds are out of step with the array:
    three whole batches later too few blocks are left for the fourth slot, and
    the bound of the range is read beyond the end of [__ptr]. *)
Lemma prepend_partial s t l q ptrs fuel :
  rrep s t l -> (length l mod 16 <> 0)%nat -> (length l + 64 <= 1024)%nat ->
  t + Z.of_nat (length l / 16 + 5) < 2 ^ 32 -> length ptrs = 64%nat ->
  qrep (rmem s) q ptrs -> l ## ptrs ->
  _M_prepend (5 + fuel) q ptrs 0 s = Fault OutOfBounds.
Proof.
  intros Hs Hal Hl Ht Hptrs Hq Hd. pose proof (Nat.mod_upper_bound (length l) 16).
  edestruct (prepend_step s q ptrs 0 (4 + fuel)) as (q1 & k1 & s1 & H1 & E1).
  2: { change 0 with (Z.of_nat 0). eapply prepend_round_spec; [done|lia|lia|done|unfold room; lia|done|done]. }
  { erewrite qrep_empty by done. apply bool_decide_eq_false_2. by intros ->. }
  destruct H1 as (-> & Hs1 & Hq1 & _). rewrite drop_0 in Hs1. simpl Nat.add in Hq1, E1.
  assert (length (reverse (take (room l) ptrs)) = room l) as Hlen.
  { rewrite length_reverse, length_take. unfold room. lia. }
  assert (length (l ++ reverse (take (room l) ptrs)) = length l + room l)%nat as Hlen' by (rewrite length_app; lia).
  pose proof (room_div _ _ Hlen) as Hdiv. pose proof (Nat.div_mod_eq (length l) 16).
  pose proof (Nat.div_mod_eq (length (l ++ reverse (take (room l) ptrs))) 16).
  assert (length (l ++ reverse (take (room l) ptrs)) mod 16 = 0)%nat as Hal1 by (unfold room in *; lia).
  destruct (prepend_rounds 3 (S fuel) t ptrs Hptrs s1 _ q1 (room l) Hs1) as (q2 & s2 & Hs2 & Hq2 & _ & _ & _ & E2);
    [done|unfold room in *; lia|lia|unfold room; lia|done| |].
  { pose proof (qrep_NoDup _ _ _ Hq) as Hnd. rewrite <- (take_drop (room l) ptrs) in Hnd.
    apply NoDup_app in Hnd as (_ & Hnd & _). intros x Hx Hx'. apply elem_of_app in Hx as [Hx|Hx].
    - apply (Hd x Hx). by eapply subseteq_drop.
    - rewrite elem_of_reverse in Hx. by eapply Hnd. }
  change (5 + fuel)%nat with (S (S (S (S (S fuel))))). rewrite E1.
  change (S (S (S (S fuel)))) with (3 + S fuel)%nat. rewrite E2. simpl. rewrite (qrep_empty _ _ _ Hq2), bool_decide_eq_false_2.
  2: { intros E. apply (f_equal length) in E. rewrite length_drop in E. simpl in E. unfold room in E. lia. }
  set (l2 := _ ++ flipped 3 _) in Hs2. assert (length l2 = length l + room l + 48)%nat as Hl2.
  { unfold l2. rewrite length_app, Hlen', flipped_perm by (rewrite length_take; lia).
    rewrite length_take, length_drop. unfold room. lia. }
  assert (room l2 = 16%nat) as Hroom2.
  { unfold room at 1. rewrite Hl2, <- Hlen', (Nat.Div0.add_mod _ 48 16), Hal1. done. }
  unfold mbind, M_bind. rewrite (prepend_round_out_of_bounds s2 t l2); [done|done|..]; rewrite ?Hroom2; unfold room in *; lia.
Qed.

(** ** Mapping more memory *)

(** No span of [l] is in use. *)
Definition zeroed (m : gmap ptr __block) (l : list ptr) : Prop :=
  forall p, p ∈ l -> exists n, m !! p = Some (mkBlock 0 n).

Lemma zeroed_relinks r m m' l : zeroed m l -> relinks r m m' -> zeroed m' l.
Proof.
  intros Hz Hr p Hp. destruct (Hz p Hp) as [n Hn].
  destruct (Hr p) as [->|(_ & x & v & Hx & Hx')]; [eauto|]. simplify_eq. by exists v.
Qed.

Lemma zeroed_app m l1 l2 : zeroed m (l1 ++ l2) <-> zeroed m l1 /\ zeroed m l2.
Proof. unfold zeroed. set_solver. Qed.

Lemma zeroed_subset m l1 l2 : zeroed m l2 -> l1 ⊆ l2 -> zeroed m l1.
Proof. intros ???. auto. Qed.

Lemma carve_spec addrs : forall s q c,
  qrep (rmem s) q c -> zeroed (rmem s) c -> NoDup addrs -> addrs ## c -> nullptr ∉ addrs ->
  returns (carve addrs q) s (fun q' s' =>
    qrep (rmem s') q' (c ++ addrs) /\ zeroed (rmem s') (c ++ addrs) /\ rsrc s' = rsrc s /\
    forall p, p ∉ c ++ addrs -> rmem s' !! p = rmem s !! p).
Proof.
  induction addrs as [|a addrs IH]; intros s q c Hq Hz Hnd Hd Hnull; simpl.
  { rewrite app_nil_r. by rsteps. }
  apply NoDup_cons in Hnd as [Ha Hnd].
  assert (a ∉ c) as Hac by (intros ?; eapply Hd; [by left|done]).
  assert (a <> nullptr) by (intros ->; set_solver).
  unfold construct. rsteps. apply returns_on_ring_blocks. rsteps. apply returns_on_ring_blocks. simpl.
  assert (qrep (<[a:=mkBlock 0 nullptr]> (rmem s)) q c) as Hq0.
  { destruct Hq as [Hq ?]. split; [by apply lseg_insert|done]. }
  eapply returns_mono.
  { apply (push_back_spec _ q c a); [done| |done]. split; [done|]. rewrite lookup_insert_eq. eauto. }
  intros q' m [Hq' Hr]. simpl.
  assert (zeroed m (c ++ [a])) as Hz'.
  { eapply zeroed_relinks; [|exact Hr]. apply zeroed_app. split.
    - intros p Hp. destruct (Hz p Hp) as [n ?]. exists n. rewrite lookup_insert_ne; [done|]. by intros ->.
    - intros p ->%list_elem_of_singleton. exists nullptr. by rewrite lookup_insert_eq. }
  eapply returns_mono; [apply (IH (mkR m (rsrc s)) q' (c ++ [a])); try done; set_solver|].
  rewrite <- app_assoc. intros q2 s2 (? & ? & ? & Hm). split_and!; [done..|].
  intros p Hp. rewrite Hm, (relinks_lookup _ _ _ _ Hr) by set_solver.
  simpl. apply lookup_insert_ne. set_solver.
Qed.

Section starved.
Context (mmap : rstate -> option ptr).

(** A new mapping is page-aligned address space nobody uses. *)
Definition mmap_spec : Prop := forall s p, mmap s = Some p ->
  0 < p /\ forall a, is_Some (rmem s !! a) -> ~ (p <= a < p + __V_).

Lemma block_addr_range p j : (j < 64)%nat -> p <= block_addr p j < p + __V_.
Proof. intros. change __V_ with 270336. unfold block_addr. lia. Qed.

Definition blocks_of (p : ptr) : list ptr := block_addr p <$> seq 0 64.

Lemma blocks_of_fresh p s l :
  mmap_spec -> mmap s = Some p -> zeroed (rmem s) l ->
  NoDup (blocks_of p) /\ length (blocks_of p) = 64%nat /\ l ## blocks_of p /\ nullptr ∉ blocks_of p.
Proof.
  intros Hm Hp Hl. destruct (Hm s p Hp) as [? Hfree].
  assert (forall x, x ∈ blocks_of p -> p <= x < p + __V_) as Hin.
  { intros x (j & -> & Hj%elem_of_seq)%list_elem_of_fmap. apply block_addr_range. lia. }
  split_and!.
  - apply NoDup_fmap_2; [|apply NoDup_seq]. intros i j. unfold block_addr. lia.
  - done.
  - intros x Hx Hx'. eapply Hfree; [|by apply Hin]. destruct (Hl x Hx) as [n ->]. eauto.
  - intros Hx%Hin. unfold nullptr in Hx. lia.
Qed.

(** What [_M_allocate] does to everything but the ring. *)
Record mapped (s s' : rstate) (p : ptr) (l : list ptr) : Prop := {
  mp_n : __n_ (rsrc s') = __n_ (rsrc s) + 1;
  mp_mmap : __mmap_ (rsrc s') = <[Z.to_nat (__n_ (rsrc s)) := p]> (__mmap_ (rsrc s));
  mp_zeroed : zeroed (rmem s') (l ++ blocks_of p);
  mp_frame x : x ∉ l ++ blocks_of p -> rmem s' !! x = rmem s !! x
}.

Lemma rrep_same s s' t l :
  rrep s t l -> __state_ (rsrc s') = __state_ (rsrc s) -> __ring_ (rsrc s') = __ring_ (rsrc s) ->
  (forall p, p ∈ l -> rmem s' !! p = rmem s !! p) -> rrep s' t l.
Proof.
  intros [] Es Er Hm. constructor; rewrite ?Es, ?Er; [done..| |done].
  intros j Hj. destruct (r_slots0 j Hj) as (b & ? & Hl & ?). exists b. split; [done|]. split; [|done].
  eapply lseg_agree; [|done]. eauto using batch_incl.
Qed.

(** The state in which [_M_prepend] runs. *)
Lemma allocate_carved s t l p fuel :
  mmap_spec -> mmap s = Some p -> rrep s t l -> zeroed (rmem s) l -> 0 <= __n_ (rsrc s) < __N_ ->
  exists s1 q, rrep s1 t l /\ mapped s s1 p l /\ qrep (rmem s1) q (blocks_of p) /\
    _M_allocate mmap fuel s = _M_prepend fuel q (blocks_of p) 0 s1.
Proof.
  intros Hm Hp Hs Hz Hn. destruct (blocks_of_fresh p s l Hm Hp Hz) as (Hnd & _ & Hd & Hnull).
  set (s0 := mkR (rmem s) (mkRemote (u32 (__n_ (rsrc s) + 1))
    (<[Z.to_nat (__n_ (rsrc s)) := p]> (__mmap_ (rsrc s))) (__ring_ (rsrc s)) (__state_ (rsrc s)))).
  opose proof* (carve_spec (blocks_of p) s0 empty_queue []) as (q & s1 & E & Hq & Hzb & Er & Hf)%returns_Done;
    [by apply qrep_nil|intros ? Hx; by apply not_elem_of_nil in Hx|done| |done|].
  { intros ? _ Hx. by apply not_elem_of_nil in Hx. }
  assert (forall x, x ∈ l -> rmem s1 !! x = rmem s !! x) as Hl.
  { intros x ?. apply Hf. intros ?. by eapply Hd. }
  exists s1, q. split_and!.
  - apply (rrep_same s); [done|by rewrite Er..|done].
  - constructor; [rewrite Er|by rewrite Er|..]; simpl.
    + apply wrap_small. unfold __N_ in Hn. split; lia.
    + apply zeroed_app. split; [|done]. intros x Hx. rewrite Hl by done. by apply Hz.
    + intros x [? Hx]%not_elem_of_app. by apply Hf.
  - done.
  - unfold _M_allocate. erewrite run_bind by done. rewrite Hp. erewrite run_bind by done.
    rewrite decide_True by apply Hn. erewrite run_bind by done. cbv zeta.
    change (block_addr p <$> seq 0 (Z.to_nat __M_)) with (blocks_of p).
    by erewrite run_bind by exact E.
Qed.
End starved.

(** *** Starving: nothing full to pop *)

Lemma pop_loop_spin mmap s k fuel :
  _M_try_pop_swap_reversed s = Done (empty_queue, s) -> (k <= 16)%nat ->
  pop_loop mmap (k + fuel) (16 - Z.of_nat k) s = pop_loop mmap fuel 16 s.
Proof.
  intros E Hk. induction k as [|k IH]; [done|]. simpl. erewrite run_bind by exact E. simpl.
  destruct (Z.ltb_spec (16 - Z.of_nat (S k)) 16); [|lia].
  rewrite wrap_small by (split; lia).
  replace (16 - Z.of_nat (S k) + 1) with (16 - Z.of_nat k) by lia. apply IH. lia.
Qed.

(** Sixteen attempts, a seventeenth, then the mapping. *)
Lemma pop_starved mmap s t l fuel :
  rrep s t l -> (length l < 16)%nat ->
  _M_pop_swap_reversed mmap (17 + fuel) s = (_M_allocate mmap (S fuel);; pop_loop mmap fuel 0) s.
Proof.
  intros Hs Hl. pose proof (try_pop_empty _ _ _ Hs Hl) as E. unfold _M_pop_swap_reversed.
  change (17 + fuel)%nat with (16 + S fuel)%nat. change 0 with (16 - Z.of_nat 16) at 1.
  rewrite pop_loop_spin by done. simpl. by erewrite run_bind by exact E.
Qed.

(** A full slot is handed out at once. *)
Lemma pop_full mmap s t l fuel :
  rrep s t l -> (16 <= length l)%nat ->
  returns (pop_loop mmap (S fuel) 0) s (fun q s' =>
    qrep (rmem s') q (take 16 l) /\ rrep s' (t + 1) (drop 16 l) /\
    relinks (take 16 l) (rmem s) (rmem s') /\
    __n_ (rsrc s') = __n_ (rsrc s) /\ __mmap_ (rsrc s') = __mmap_ (rsrc s)).
Proof.
  intros Hs Hl. simpl. eapply returns_bind_mono; [by eapply try_pop_spec|].
  intros q s' (Hq & H). erewrite qrep_empty by done. rewrite bool_decide_eq_false_2.
  - by apply returns_ret.
  - intros E%(f_equal length). rewrite length_take in E. cbn [length] in E. lia.
Qed.

(** *** Runs of the two ends of the ring *)

Inductive op := Push (__blk : ptr) | TryPop.

Fixpoint run_ops (ops : list op) : M rstate (list queue) :=
  match ops with
  | [] => mret []
  | Push p :: ops => _M_push 1 p;; run_ops ops
  | TryPop :: ops => q ← _M_try_pop_swap_reversed; qs ← run_ops ops; mret (q :: qs)
  end.

(** The blocks a run pushes, and what its pops hand out and leave behind if
    the ring is a queue of batches. *)
Definition pushes (ops : list op) : list ptr :=
  omap (fun o => match o with Push p => Some p | TryPop => None end) ops.
Fixpoint fifo (l : list ptr) (ops : list op) : list (list ptr) * list ptr :=
  match ops with
  | [] => ([], l)
  | Push p :: ops => fifo (l ++ [p]) ops
  | TryPop :: ops =>
      if decide (16 <= length l)%nat then
        let '(outs, l') := fifo (drop 16 l) ops in (take 16 l :: outs, l')
      else let '(outs, l') := fifo l ops in ([] :: outs, l')
  end.

(** Blocks are pushed once each, and never into a full ring. *)
Fixpoint within (l : list ptr) (ops : list op) : Prop :=
  match ops with
  | [] => True
  | Push p :: ops => (length l < 1024)%nat /\ within (l ++ [p]) ops
  | TryPop :: ops => within (if decide (16 <= length l)%nat then drop 16 l else l) ops
  end.

(** Nothing is lost or duplicated, everything comes out in the order it went in. *)
Lemma fifo_conserves l ops : concat (fifo l ops).1 ++ (fifo l ops).2 = l ++ pushes ops.
Proof.
  revert l. induction ops as [|[p|] ops IH]; intros l; simpl.
  - by rewrite app_nil_r.
  - change (pushes (Push p :: ops)) with (p :: pushes ops). rewrite IH, <- app_assoc. done.
  - change (pushes (TryPop :: ops)) with (pushes ops). case_decide.
    + specialize (IH (drop 16 l)). destruct (fifo (drop 16 l) ops). simpl in *.
      by rewrite <- app_assoc, IH, app_assoc, take_drop.
    + specialize (IH l). destruct (fifo l ops). simpl in *. done.
Qed.

Lemma fifo_batches l ops : Forall (fun o => o = [] \/ length o = 16%nat) (fifo l ops).1.
Proof.
  revert l. induction ops as [|[p|] ops IH]; intros l; simpl; [constructor|done|].
  case_decide; [specialize (IH (drop 16 l)); destruct (fifo (drop 16 l) ops)|specialize (IH l); destruct (fifo l ops)];
    simpl in *; constructor; try done; [right|by left]. rewrite length_take. lia.
Qed.

(** What a batch handed out to a caller looks like in the final memory: a
    queue of its blocks. *)
Lemma run_ops_spec ops : forall s t l,
  rrep s t l -> NoDup (l ++ pushes ops) -> (forall p, p ∈ pushes ops -> live (rmem s) p) ->
  within l ops -> t + Z.of_nat ((length l + length (pushes ops)) / 16) < 2 ^ 32 ->
  returns (run_ops ops) s (fun qs s' => exists t',
    rrep s' t' (fifo l ops).2 /\ Forall2 (qrep (rmem s')) qs (fifo l ops).1 /\
    relinks (l ++ pushes ops) (rmem s) (rmem s')).
Proof.
  induction ops as [|[p|] ops IH]; intros s t l Hs Hnd Hlive Hw Ht; cbn [run_ops fifo].
  - apply returns_ret. exists t. split_and!; [done|constructor|done].
  - change (pushes (Push p :: ops)) with (p :: pushes ops) in *. destruct Hw as [Hl Hw].
    assert (t + Z.of_nat (S (length l) / 16) < 2 ^ 32) as Ht1.
    { assert (S (length l) / 16 <= (length l + length (p :: pushes ops)) / 16)%nat; [|lia].
      apply Nat.Div0.div_le_mono. simpl. lia. }
    eapply returns_bind_mono.
    { apply (push_block_spec s t l p 0); [done..| |apply Hlive; by left].
      apply NoDup_app in Hnd as (_ & Hnd & _). intros Hp. eapply Hnd; [done|by left]. }
    intros ? s1 (Hs1 & Hr & _). eapply returns_mono.
    { apply (IH s1 t (l ++ [p])); [done|by rewrite <- app_assoc| |done|].
      - intros x Hx. eapply relinks_live; [done|]. apply Hlive. by right.
      - rewrite length_app. simpl in Ht |- *. by rewrite <- Nat.add_assoc. }
    intros qs s' (t' & ? & ? & Hr'). exists t'. split_and!; [done..|].
    rewrite <- app_assoc in Hr'. etrans; [|exact Hr']. eapply relinks_mono; [done|].
    intros x ->%list_elem_of_singleton. apply elem_of_app. right. by left.
  - change (pushes (TryPop :: ops)) with (pushes ops) in *. simpl in Hw. case_decide as Hl.
    + eapply returns_bind_mono; [by eapply try_pop_spec|]. intros q s1 (Hq & Hs1 & Hr & _).
      rewrite <- (take_drop 16 l), <- app_assoc in Hnd. apply NoDup_app in Hnd as (_ & Hd & Hnd).
      eapply returns_bind_mono.
      { apply (IH s1 (t + 1) (drop 16 l)); [done..| |done|].
        - intros x Hx. eapply relinks_live; [exact Hr|by apply Hlive].
        - rewrite length_drop. replace (length l + length (pushes ops))%nat with
            (length l - 16 + length (pushes ops) + 1 * 16)%nat in Ht by lia.
          rewrite Nat.div_add in Ht by done. lia. }
      intros qs s' (t' & Hs' & Hqs & Hr'). destruct (fifo (drop 16 l) ops) as [outs l'] eqn:E. simpl in *.
      apply returns_ret. exists t'. split_and!; [done| |].
      * constructor; [|done]. eapply qrep_relinks; [done|exact Hr'|]. intros x. apply Hd.
      * etrans; (eapply relinks_mono; [done|]); intros x Hx; apply elem_of_app.
        -- left. by eapply subseteq_take.
        -- apply elem_of_app in Hx as [Hx|]; [left; by eapply subseteq_drop|by right].
    + unfold returns at 1. erewrite run_bind by (eapply try_pop_empty; [done|lia]). eapply returns_bind_mono; [by eapply IH|].
      intros qs s' (t' & Hs' & Hqs & Hr'). destruct (fifo l ops) as [outs l'] eqn:E. simpl in *.
      apply returns_ret. exists t'. split_and!; [done| |done]. constructor; [by apply qrep_nil|done].
Qed.

(** The whole of a starved pop. *)
Lemma starved_pop_spec mmap s t p fuel :
  mmap_spec mmap -> mmap s = Some p -> rrep s t [] -> 0 <= __n_ (rsrc s) < __N_ ->
  t + 4 < 2 ^ 32 ->
  returns (_M_pop_swap_reversed mmap (22 + fuel)) s (fun q s' => exists c left,
    qrep (rmem s') q c /\ Z.of_nat (length c) = __T_ /\ rrep s' (t + 1) left /\
    c ++ left ≡ₚ blocks_of p /\ zeroed (rmem s') (blocks_of p) /\
    (forall x, x ∉ blocks_of p -> rmem s' !! x = rmem s !! x) /\
    __n_ (rsrc s') = __n_ (rsrc s) + 1 /\
    __mmap_ (rsrc s') = <[Z.to_nat (__n_ (rsrc s)) := p]> (__mmap_ (rsrc s))).
Proof.
  intros Hm Hp Hs Hn Ht. assert (zeroed (rmem s) []) as Hz by (intros x Hx; by apply not_elem_of_nil in Hx).
  destruct (blocks_of_fresh mmap p s [] Hm Hp Hz) as (_ & Hlen & Hd & _).
  destruct (allocate_carved mmap s t [] p (S (5 + fuel)) Hm Hp Hs Hz Hn) as (s1 & q & Hs1 & Hmp & Hq & E).
  unfold returns. change (22 + fuel)%nat with (17 + (5 + fuel))%nat.
  erewrite pop_starved by (done || (simpl; lia)). unfold mbind, M_bind at 1. rewrite E.
  change (S (5 + fuel)) with (4 + S (S fuel))%nat.
  opose proof* (prepend_blocks_spec s1 t [] q (blocks_of p) (S (S fuel))) as (? & s2 & E2 & Hs2 & Hr2 & En2 & Em2)%returns_Done;
    [done|done|simpl; lia|simpl; lia|done..|]. rewrite E2. simpl app in Hs2.
  assert (length (flipped 4 (blocks_of p)) = 64%nat) as Hlen4 by (rewrite flipped_perm; [done|by rewrite Hlen]).
  change (5 + fuel)%nat with (S (4 + fuel)).
  eapply returns_mono; [by apply (pop_full mmap s2 t (flipped 4 (blocks_of p)) (4 + fuel)); [|rewrite Hlen4; lia]|].
  intros q3 s3 (Hq3 & Hs3 & Hr3 & En3 & Em3). destruct Hmp as [Hmn Hmm Hmz Hmf]. simpl app in *.
  assert (flipped 4 (blocks_of p) ≡ₚ blocks_of p) as Hperm by (apply flipped_perm; by rewrite Hlen).
  assert (relinks (blocks_of p) (rmem s1) (rmem s3)) as Hr.
  { etrans; [done|]. eapply relinks_mono; [done|]. intros y Hy%subseteq_take. by rewrite Hperm in Hy. }
  exists (take 16 (flipped 4 (blocks_of p))), (drop 16 (flipped 4 (blocks_of p))).
  split_and!; [done|by rewrite length_take, Hlen4|done|by rewrite take_drop|..].
  - by eapply zeroed_relinks.
  - intros y Hy. rewrite (relinks_lookup _ _ _ _ Hr) by done. by apply Hmf.
  - by rewrite En3, En2.
  - by rewrite Em3, Em2.
Qed.

(** ** Properties *)

Lemma rrep_init m : rrep (mkR m remote_init) 0 [].
Proof.
  constructor; try done; [|by constructor].
  intros j Hj. exists (nullptr, 0). split; [|rewrite batch_nil by (simpl; lia); by split].
  apply lookup_replicate_2, slot_index_lt.
Qed.

(** C26: whatever sequence of [_M_push] and [_M_try_pop_swap_reversed] one
    thread runs on a ring it never overfills, every call completes, a pop hands
    out nothing or a queue of exactly [__T_] blocks, and the blocks handed out
    followed by those left in the ring are the initial ones followed by the
    pushed ones, in that order: no block is lost, doubled or reordered. *)
Theorem ring_is_fifo s t l ops :
  rrep s t l -> NoDup (l ++ pushes ops) -> (forall p, p ∈ pushes ops -> live (rmem s) p) ->
  within l ops -> t + Z.of_nat ((length l + length (pushes ops)) / 16) < 2 ^ 32 ->
  returns (run_ops ops) s (fun qs s' => exists t' batches left,
    rrep s' t' left /\ Forall2 (qrep (rmem s')) qs batches /\
    concat batches ++ left = l ++ pushes ops /\
    Forall (fun o => o = [] \/ Z.of_nat (length o) = __T_) batches /\
    forall p, p ∉ l ++ pushes ops -> rmem s' !! p = rmem s !! p).
Proof.
  intros. eapply returns_mono; [by eapply run_ops_spec|]. intros qs s' (t' & ? & ? & Hr).
  exists t', (fifo l ops).1, (fifo l ops).2. split_and!; [done..|apply fifo_conserves| |].
  - eapply Forall_impl; [apply fifo_batches|]. intros o [|Ho]; [by left|right]. by rewrite Ho.
  - intros p ?. by apply (relinks_lookup _ _ _ _ Hr).
Qed.

(** on an empty ring [_M_pop_swap_reversed] maps memory, carves it into 64
    blocks and returns 16 of them: the loop ends, all blocks are inside the
    mapping, distinct and unused, the other 48 are in the ring as three full
    slots, and the mapping is recorded for the destructor. *)
Theorem starved_pop_carves mmap s t p fuel :
  mmap_spec mmap -> mmap s = Some p -> rrep s t [] -> 0 <= __n_ (rsrc s) < __N_ ->
  t + 4 < 2 ^ 32 ->
  returns (_M_pop_swap_reversed mmap (22 + fuel)) s (fun q s' => exists c left,
    qrep (rmem s') q c /\ Z.of_nat (length c) = __T_ /\ rrep s' (t + 1) left /\
    c ++ left ≡ₚ blocks_of p /\ zeroed (rmem s') (blocks_of p) /\
    (forall x, x ∉ blocks_of p -> rmem s' !! x = rmem s !! x) /\
    __n_ (rsrc s') = __n_ (rsrc s) + 1 /\
    __mmap_ (rsrc s') = <[Z.to_nat (__n_ (rsrc s)) := p]> (__mmap_ (rsrc s))).
Proof. apply starved_pop_spec. Qed.

(** when the ring holds fewer than [__T_] blocks but not none, a starved
    [_M_pop_swap_reversed] reads beyond the end of the [__ptr] array of
    [_M_allocate]: the head slot takes only what it has room for, and the
    round that follows three whole batches indexes past [__M_]. *)
Theorem partial_slot_starves_out_of_bounds mmap s t l p fuel :
  mmap_spec mmap -> mmap s = Some p -> rrep s t l -> zeroed (rmem s) l -> 0 <= __n_ (rsrc s) < __N_ ->
  l <> [] -> Z.of_nat (length l) < __T_ -> t + 5 < 2 ^ 32 ->
  _M_pop_swap_reversed mmap (22 + fuel) s = Fault OutOfBounds.
Proof.
  intros Hm Hp Hs Hz Hn Hl Hlt Ht. unfold __T_ in Hlt.
  destruct (blocks_of_fresh mmap p s l Hm Hp Hz) as (_ & Hlen & Hd & _).
  destruct (allocate_carved mmap s t l p (S (5 + fuel)) Hm Hp Hs Hz Hn) as (s1 & q & Hs1 & _ & Hq & E).
  change (22 + fuel)%nat with (17 + (5 + fuel))%nat. erewrite pop_starved by (done || lia).
  unfold mbind, M_bind at 1. rewrite E. change (S (5 + fuel)) with (5 + S fuel)%nat.
  erewrite prepend_partial; [done|done|..|done|done|done].
  - rewrite Nat.mod_small by lia. by destruct l.
  - lia.
  - rewrite Nat.div_small by lia. done.
Qed.

(** the seventeenth mapping is stored beyond the end of [__mmap_]. *)
Theorem mapping_table_overflows mmap s t l p fuel :
  mmap s = Some p -> rrep s t l -> Z.of_nat (length l) < __T_ -> __n_ (rsrc s) = __N_ ->
  _M_pop_swap_reversed mmap (17 + fuel) s = Fault OutOfBounds.
Proof.
  intros Hp Hs Hl Hn. unfold __T_ in Hl. erewrite pop_starved by (done || lia).
  unfold _M_allocate, get_src, mbind, M_bind, get, mret, M_ret. rewrite Hp.
  by rewrite decide_False by (simpl; lia).
Qed.

(** ** The destructor *)

Lemma unmap_loop_spec r n i : (i + n <= length (__mmap_ r))%nat ->
  unmap_loop r i n = Done ((., __V_) <$> take n (drop i (__mmap_ r))).
Proof.
  revert i. induction n as [|n IH]; intros i Hi; [done|]. simpl.
  destruct (lookup_lt_is_Some_2 (__mmap_ r) i) as [p Hp]; [lia|].
  by rewrite Hp, IH, (drop_S _ _ _ Hp) by lia.
Qed.

(** The destructor releases what [_M_allocate] has mapped: what it released
    before, and then the new mapping. *)
Lemma destroy_allocated r p l : 0 <= __n_ r < Z.of_nat (length (__mmap_ r)) -> destroy r = Done l ->
  destroy (mkRemote (__n_ r + 1) (<[Z.to_nat (__n_ r) := p]> (__mmap_ r)) (__ring_ r) (__state_ r)) = Done (l ++ [(p, __V_)]).
Proof.
  intros Hn. unfold destroy. simpl. rewrite !unmap_loop_spec by (simpl; rewrite ?length_insert; lia). intros [= <-]. simpl.
  rewrite Z2Nat.inj_add, Nat.add_1_r by lia. rewrite !drop_0.
  erewrite take_S_r by (apply list_lookup_insert_eq; lia). by rewrite fmap_app, take_insert_ge by lia.
Qed.

(** ** Witnesses *)

Module remote_example.
Definition mem : gmap ptr __block := list_to_map [(64, mkBlock 0 0); (128, mkBlock 0 0)].
Definition start : rstate := mkR mem remote_init.
Definition blank : rstate := mkR ∅ remote_init.
Definition all_mapped : rstate := mkR ∅ (mkRemote 16 (replicate 16 4096) (__ring_ remote_init) 0).

(** A kernel that has one mapping to give, above everything in use. *)
Definition once (s : rstate) : option ptr :=
  if decide (map_Forall (fun a _ => a < 4096) (rmem s)) then Some 4096 else None.

Lemma once_spec : mmap_spec once.
Proof.
  intros s p. unfold once. case_decide as Ha; [|done]. intros [= <-]. split; [lia|].
  intros a [b Hb] ?. specialize (Ha a b Hb). simpl in Ha. lia.
Qed.

Lemma ring_is_fifo_witness :
  returns (run_ops [TryPop; Push 64; Push 128]) start (fun qs s' => exists t' batches left,
    rrep s' t' left /\ Forall2 (qrep (rmem s')) qs batches /\ concat batches ++ left = [64; 128] /\
    Forall (fun o => o = [] \/ Z.of_nat (length o) = __T_) batches /\
    forall p, p ∉ [64; 128] -> rmem s' !! p = rmem start !! p).
Proof.
  apply (ring_is_fifo start 0 [] [TryPop; Push 64; Push 128]).
  - apply rrep_init.
  - by vm_compute; repeat constructor; set_solver.
  - intros p. change (pushes _) with [64; 128]. rewrite !elem_of_cons, elem_of_nil.
    intros [->|[->|[]]]; split; try done; by eexists.
  - simpl. lia.
  - done.
Defined.

Lemma starved_pop_carves_witness :
  returns (_M_pop_swap_reversed once (22 + 0)) blank (fun q s' => exists c left,
    qrep (rmem s') q c /\ Z.of_nat (length c) = __T_ /\ rrep s' (0 + 1) left /\
    c ++ left ≡ₚ blocks_of 4096 /\ zeroed (rmem s') (blocks_of 4096) /\
    (forall x, x ∉ blocks_of 4096 -> rmem s' !! x = rmem blank !! x) /\
    __n_ (rsrc s') = __n_ (rsrc blank) + 1 /\
    __mmap_ (rsrc s') = <[Z.to_nat (__n_ (rsrc blank)) := 4096]> (__mmap_ (rsrc blank))).
Proof.
  apply (starved_pop_carves once blank 0 4096 0).
  - apply once_spec.
  - reflexivity.
  - apply rrep_init.
  - done.
  - done.
Defined.

Lemma partial_slot_starves_out_of_bounds_witness : exists s,
  _M_push 1 64 start = Done (tt, s) /\ rrep s 0 [64] /\
  _M_pop_swap_reversed once (22 + 0) s = Fault OutOfBounds.
Proof.
  destruct (proj1 (returns_Done _ _ _) (push_block_spec start 0 [] 64 0 (rrep_init mem) ltac:(simpl; lia) ltac:(done)
    (not_elem_of_nil 64) ltac:(split; [done|by eexists]))) as ([] & s & E & Hs & _).
  exists s. split; [exact E|]. split; [exact Hs|].
  vm_compute in E. simplify_eq.
  apply (partial_slot_starves_out_of_bounds once _ 0 [64] 4096 0); [apply once_spec|reflexivity|exact Hs|..].
  - intros p ->%list_elem_of_singleton. by eexists.
  - done.
  - done.
  - done.
  - done.
Defined.

Lemma mapping_table_overflows_witness :
  _M_pop_swap_reversed once (17 + 0) all_mapped = Fault OutOfBounds.
Proof.
  apply (mapping_table_overflows once all_mapped 0 [] 4096 0).
  - reflexivity.
  - apply (rrep_same blank); [apply rrep_init|reflexivity..|done].
  - done.
  - done.
Defined.
End remote_example.
End remote_source.
