(* ===== verification/LocalSource.v ===== *)
(** * [__memory_resource.hpp], [__local_source]: reference-counted spans

    A thread cuts spans of bytes from the block it currently consumes, front to
    back; every span and the consumption itself hold a reference to the block,
    and the block goes back to the thread's free list, or to the shared pool,
    when the last reference is dropped.

    Module [local_source] models the thread's object and the free functions
    [__acquire], [__release] and [__bump_suffix] against the interface [Remote]
    of the shared pool and its promises [RemoteLaws], which the last section
    proves for the ring of [RemoteSource]. *)

From S2P Require Import Prelude Memory IntrusiveQueue RemoteSource.

Module local_source.
Import remote_source.
Import intrusive_queue.

(** ** The interface of the shared pool *)

Class Remote (R : Type) := {
  blocks : R -> gmap ptr __block;
  set_blocks : gmap ptr __block -> R -> R;
  remote_pop : M R queue;
  remote_push : ptr -> M R unit;
}.

(** ** Data *)

Record __shared_block_subrange := mkSpan { __source_ : ptr; __offset_ : Z; __len_ : Z }.
Record __local_source := mkLocal {
  __queue_ : queue;
  __consume_ : ptr;
  __bump_ : Z;
  __count_ : Z
}.
Definition local_init : __local_source := mkLocal empty_queue nullptr 4096 0.

Section code.
Context `{Remote R}.

Record lstate := mkL { lrem : R; loc : __local_source }.

(** ** Accesses *)

Definition on_remote {A} (c : M R A) : M lstate A := fun s =>
  match c (lrem s) with
  | Done (a, r) => Done (a, mkL r (loc s))
  | Fault f => Fault f
  end.
Definition on_blocks {A} (c : M (gmap ptr __block) A) : M lstate A := fun s =>
  match c (blocks (lrem s)) with
  | Done (a, m) => Done (a, mkL (set_blocks m (lrem s)) (loc s))
  | Fault f => Fault f
  end.
Definition get_loc : M lstate __local_source := s ← get; mret (loc s).
Definition set_loc (l : __local_source) : M lstate unit := modify (fun s => mkL (lrem s) l).
Definition set_queue (q : queue) : M lstate unit :=
  l ← get_loc; set_loc (mkLocal q (__consume_ l) (__bump_ l) (__count_ l)).
Definition set_consume (p : ptr) : M lstate unit :=
  l ← get_loc; set_loc (mkLocal (__queue_ l) p (__bump_ l) (__count_ l)).
Definition set_bump (n : Z) : M lstate unit :=
  l ← get_loc; set_loc (mkLocal (__queue_ l) (__consume_ l) n (__count_ l)).
Definition set_count (n : Z) : M lstate unit :=
  l ← get_loc; set_loc (mkLocal (__queue_ l) (__consume_ l) (__bump_ l) n).

(** [__atomic_fetch_add(&p->__use_count_, d, ...)]: the value before. *)
Definition fetch_add (p : ptr) (d : Z) : M lstate Z := on_blocks (
  b ← load p;
  update p (fun b => mkBlock (swrap 64 (__use_count_ b + d)) (__next_ b));;
  mret (__use_count_ b)).

(** ** [__local_source] *)

Definition _M_release (__blk : ptr) : M lstate unit :=
  l ← get_loc;
  if __count_ l <? __T_ then
    q ← on_blocks (_M_push_front (__queue_ l) __blk);
    set_queue q;;
    set_count (u32 (__count_ l + 1))
  else on_remote (remote_push __blk).

(** [_M_allocate] in its three parts: the reference of the consumption goes, the
    free list is refilled if it is empty, its first block is consumed next. *)
Definition drop_consume : M lstate unit :=
  l ← get_loc;
  if decide (__consume_ l <> nullptr) then
    n ← fetch_add (__consume_ l) (-1);
    if decide (n = 1) then _M_release (__consume_ l) else mret tt
  else mret tt.

Definition refill : M lstate unit :=
  l ← get_loc;
  if _M_empty (__queue_ l) then
    other ← on_remote remote_pop;
    l ← get_loc;
    q ← on_blocks (_M_prepend (__queue_ l) other);
    set_queue q;;
    set_count (u32 (__count_ l + __T_))
  else mret tt.

Definition consume_next : M lstate unit :=
  l ← get_loc;
  '(p, q) ← on_blocks (_M_pop_front (__queue_ l));
  set_queue q;;
  set_consume p;;
  set_bump 0;;
  _ ← fetch_add p 1;
  l ← get_loc;
  set_count (u32 (__count_ l - 1)).

Definition _M_allocate : M lstate unit := drop_consume;; refill;; consume_next.

Definition _M_acquire (__n : Z) : M lstate __shared_block_subrange :=
  l ← get_loc;
  (if u32 (4096 - __bump_ l) <? __n then _M_allocate else mret tt);;
  l ← get_loc;
  _ ← fetch_add (__consume_ l) 1;
  set_bump (u32 (__bump_ l + __n));;
  mret (mkSpan (__consume_ l) (__bump_ l) __n).

(** [~__local_source] *)
Definition destroy : M lstate unit :=
  l ← get_loc;
  (if decide (__consume_ l <> nullptr) then _ ← fetch_add (__consume_ l) (-1); mret tt else mret tt);;
  l ← get_loc;
  set_queue (_M_clear (__queue_ l)).

(** ** The free functions and the span's members *)

Definition __acquire (__n : Z) : M lstate __shared_block_subrange := _M_acquire __n.

Definition __release (__x : __shared_block_subrange) : M lstate unit :=
  n ← fetch_add (__source_ __x) (-1);
  if decide (n = 1) then _M_release (__source_ __x) else mret tt.

Definition __bump_suffix : M lstate Z := l ← get_loc; mret (u32 (4096 - __bump_ l)).

(** The new span, and [*this] with its offset moved past it. *)
Definition __splice_prefix (this : __shared_block_subrange) (__n : Z)
    : M lstate (__shared_block_subrange * __shared_block_subrange) :=
  _ ← fetch_add (__source_ this) 1;
  mret (mkSpan (__source_ this) (__offset_ this) __n,
        mkSpan (__source_ this) (u32 (__offset_ this + __n)) (__len_ this)).

(** [&__source_->__data_[__offset_]]: the data follow the 64-byte header. *)
Definition _M_base (this : __shared_block_subrange) : ptr := __source_ this + 64 + __offset_ this.
Definition _M_iovec (this : __shared_block_subrange) : ptr * Z := (_M_base this, __len_ this).
End code.
Arguments lstate _ : clear implicits.

(** ** What the pool promises

    [pool r l]: the blocks [l] are in the pool [r]; [can_pop] and [can_push]
    say when it can serve.  A pop hands out [__T_] unused blocks, taken from the
    pool or from fresh memory; neither operation touches any other block. *)
Class RemoteLaws (R : Type) `{Remote R} := {
  pool : R -> list ptr -> Prop;
  can_pop : R -> list ptr -> Prop;
  can_push : R -> list ptr -> Prop;
  blocks_set m r : blocks (set_blocks m r) = m;
  pool_zeroed r l : pool r l -> zeroed (blocks r) l;
  pool_frame r l m : pool r l -> (forall p, p ∈ l -> m !! p = blocks r !! p) -> pool (set_blocks m r) l;
  can_pop_frame r l m : can_pop r l -> can_pop (set_blocks m r) l;
  can_push_frame r l m : can_push r l -> can_push (set_blocks m r) l;
  pop_law r l : pool r l -> can_pop r l ->
    returns remote_pop r (fun q r' => exists c l',
      qrep (blocks r') q c /\ Z.of_nat (length c) = __T_ /\ zeroed (blocks r') c /\ pool r' l' /\
      NoDup (c ++ l') /\ (forall x, x ∈ c ++ l' -> x ∈ l \/ blocks r !! x = None) /\
      (forall x, x ∉ c ++ l' -> blocks r' !! x = blocks r !! x));
  push_law r l p : pool r l -> can_push r l -> p ∉ l -> p <> nullptr -> zeroed (blocks r) [p] ->
    returns (remote_push p) r (fun _ r' =>
      pool r' (l ++ [p]) /\ forall x, x ∉ l ++ [p] -> blocks r' !! x = blocks r !! x);
}.

Section proofs.
Context `{RemoteLaws R}.
Implicit Types (s : lstate R) (spans : list __shared_block_subrange) (F P : list ptr).

(** ** References *)

Abbreviation mem s := (blocks (lrem s)).

(** References to [b] held by the spans, and by the consumption if [c] is the
    consumed block. *)
Definition refs (spans : list __shared_block_subrange) (c b : ptr) : Z :=
  Z.of_nat (length (filter (fun x => __source_ x = b) spans)) + (if decide (c = b) then 1 else 0).

Lemma refs_nonneg spans c b : 0 <= refs spans c b.
Proof. unfold refs. case_decide; lia. Qed.

Lemma refs_cons x spans c b :
  refs (x :: spans) c b = refs spans c b + (if decide (b = __source_ x) then 1 else 0).
Proof.
  unfold refs. destruct (decide (b = __source_ x)) as [->|].
  - rewrite filter_cons_True by done. simpl length. lia.
  - rewrite filter_cons_False by done. lia.
Qed.

Lemma refs_delete spans i x c b : spans !! i = Some x ->
  refs (delete i spans) c b = refs spans c b + (if decide (b = __source_ x) then -1 else 0).
Proof.
  intros Hi%delete_Permutation.
  assert (refs spans c b = refs (x :: delete i spans) c b) as ->.
  { unfold refs. by rewrite Hi at 1. }
  rewrite refs_cons. case_decide; lia.
Qed.

Lemma refs_elem x spans c : x ∈ spans -> 0 < refs spans c (__source_ x).
Proof.
  intros [i Hi]%list_elem_of_lookup. pose proof (refs_nonneg (delete i spans) c (__source_ x)) as Hr.
  rewrite (refs_delete _ _ _ _ _ Hi), decide_True in Hr by done. lia.
Qed.

Lemma refs_consume spans c b : c <> b ->
  refs spans b b = refs spans c b + 1.
Proof. intros. unfold refs. rewrite decide_True by done. rewrite decide_False by done. lia. Qed.

Lemma refs_bound spans c b : refs spans c b <= Z.of_nat (length spans) + 1.
Proof.
  unfold refs. pose proof (length_filter (fun x => __source_ x = b) spans). case_decide; lia.
Qed.

(** ** The invariant

    [inv s spans c F P]: the free list is [F], the pool holds [P], and every
    other block in use counts its references, with [c] the block whose
    consumption is counted. *)
Record inv s spans (c : ptr) F P : Prop := {
  i_queue : qrep (mem s) (__queue_ (loc s)) F;
  i_pool : pool (lrem s) P;
  i_nodup : NoDup (F ++ P);
  i_zero : zeroed (mem s) F;
  i_used b : b <> nullptr -> 0 < refs spans c b ->
    b ∉ F ++ P /\ exists n, mem s !! b = Some (mkBlock (refs spans c b) n);
  i_source : Forall (fun x => __source_ x <> nullptr) spans
}.

Definition counted s F : Prop :=
  __count_ (loc s) = Z.of_nat (length F) /\ (length F <= 16)%nat.

(** The pool takes a block back if it is given one: when the free list is full. *)
Definition can_release s P : Prop := __count_ (loc s) = __T_ -> can_push (lrem s) P.

(** It serves if it is asked for blocks, when the free list is empty, or given one. *)
Definition ready s P : Prop :=
  (_M_empty (__queue_ (loc s)) = true -> can_pop (lrem s) P) /\ can_release s P.

Lemma returns_on_blocks {A} (k : M (gmap ptr __block) A) s (Q : A -> lstate R -> Prop) :
  returns k (mem s) (fun a m => Q a (mkL (set_blocks m (lrem s)) (loc s))) -> returns (on_blocks k) s Q.
Proof. unfold returns, on_blocks. by destruct (k (mem s)) as [[]|]. Qed.

Lemma returns_on_remote {A} (k : M R A) s (Q : A -> lstate R -> Prop) :
  returns k (lrem s) (fun a r => Q a (mkL r (loc s))) -> returns (on_remote k) s Q.
Proof. unfold returns, on_remote. by destruct (k (lrem s)) as [[]|]. Qed.

Lemma returns_get_loc s (Q : __local_source -> lstate R -> Prop) : Q (loc s) s -> returns get_loc s Q.
Proof. done. Qed.

(** The members of [*this] other than the queue do not matter to [inv]. *)
Lemma inv_loc s l spans c F P :
  inv s spans c F P -> __queue_ l = __queue_ (loc s) -> inv (mkL (lrem s) l) spans c F P.
Proof. intros [] E. constructor; simpl; try done. by rewrite E. Qed.

(** Counting references up or down. *)
Lemma fetch_add_inv s spans c spans' c' F P p d n :
  inv s spans c F P -> p <> nullptr -> p ∉ F ++ P ->
  mem s !! p = Some (mkBlock (refs spans c p) n) ->
  (forall b, b <> nullptr -> refs spans' c' b = refs spans c b + (if decide (b = p) then d else 0)) ->
  refs spans' c' p < 2 ^ 63 -> Forall (fun x => __source_ x <> nullptr) spans' ->
  returns (fetch_add p d) s (fun old s' =>
    old = refs spans c p /\ inv s' spans' c' F P /\ loc s' = loc s /\
    mem s' = <[p := mkBlock (refs spans' c' p) n]> (mem s) /\
    lrem s' = set_blocks (mem s') (lrem s)).
Proof.
  intros [] Hp HpFP Hm Hd Hb Hsrc. unfold fetch_add. apply returns_on_blocks. rsteps.
  rewrite blocks_set.
  assert (swrap 64 (refs spans c p + d) = refs spans' c' p) as ->.
  { rewrite (Hd p), decide_True by done. apply swrap_small; [|done].
    pose proof (refs_nonneg spans' c' p) as Hn. rewrite (Hd p), decide_True in Hb, Hn by done. lia. }
  split_and!; try done.
  apply not_elem_of_app in HpFP as [HpF HpP]. constructor; simpl; rewrite ?blocks_set.
  - destruct i_queue0. split; [|done]. by apply lseg_insert.
  - apply pool_frame; [done|]. intros x Hx. rewrite lookup_insert_ne; [done|]. by intros ->.
  - done.
  - intros x Hx. rewrite lookup_insert_ne by (by intros ->). by apply i_zero0.
  - intros b Hb0 Hbr. destruct (decide (b = p)) as [->|Hbp].
    + rewrite lookup_insert_eq. split; [set_solver|eauto].
    + rewrite lookup_insert_ne by done. rewrite (Hd b), decide_False, Z.add_0_r in Hbr |- * by done. auto.
  - done.
Qed.

(** A block nobody refers to goes to the free list or to the pool. *)
Lemma release_inv s spans c F P p :
  inv s spans c F P -> counted s F -> can_release s P ->
  p <> nullptr -> p ∉ F ++ P -> refs spans c p = 0 -> zeroed (mem s) [p] ->
  returns (_M_release p) s (fun _ s' => exists F' P',
    inv s' spans c F' P' /\ counted s' F' /\ F' <> [] /\ F' ++ P' ≡ₚ p :: F ++ P /\
    __consume_ (loc s') = __consume_ (loc s) /\ __bump_ (loc s') = __bump_ (loc s)).
Proof.
  intros [] [Hc Hc16] Hfull Hp Hfp Href Hz. apply not_elem_of_app in Hfp as [HpF HpP].
  destruct (Hz p) as [n Hn]; [by left|].
  assert (forall b, 0 < refs spans c b -> b <> p) as Hne by (intros b ? ->; lia).
  unfold _M_release, get_loc. rsteps. unfold __T_ in *. destruct (Z.ltb_spec (__count_ (loc s)) 16).
  - rsteps. apply returns_on_blocks. eapply returns_mono; [apply push_front_spec; [done| |done]|].
    { split; [done|by eexists]. }
    intros q m [Hq Hr]. unfold set_queue, set_count, get_loc, set_loc. rsteps.
    exists (p :: F), P. split_and!; try done.
    + constructor; simpl; rewrite ?blocks_set; try done.
      * apply pool_frame; [done|]. intros x Hx. apply (relinks_lookup _ _ _ _ Hr). set_solver.
      * apply NoDup_cons. set_solver.
      * eapply (zeroed_relinks [p]); [|done]. apply (zeroed_app _ [p] F). done.
      * intros b ? Hb. destruct (i_used0 b) as (? & nb & ?); [done..|]. specialize (Hne b Hb).
        split; [set_solver|]. exists nb. rewrite (relinks_lookup _ _ _ _ Hr); [done|]. set_solver.
    + split; simpl; [|lia]. rewrite Hc, wrap_small by (split; lia). lia.
  - assert (can_push (lrem s) P) as Hcan by (apply Hfull; unfold __T_; lia).
    apply returns_on_remote. eapply returns_mono; [by apply push_law|].
    intros [] r (Hpool & Hr). exists F, (P ++ [p]). pose proof (i_nodup0) as (HF & HFP & HP)%NoDup_app.
    split_and!; simpl; try done.
    + constructor; simpl; try done.
      * destruct i_queue0 as [Hl ?]. split; [|done].
        eapply lseg_agree; [|done]. intros x ?. apply Hr. set_solver.
      * rewrite app_assoc. apply NoDup_app. split_and!; [done| |apply NoDup_singleton]. set_solver.
      * intros x Hx. rewrite Hr by set_solver. by apply i_zero0.
      * intros b ? Hb. destruct (i_used0 b) as (? & nb & ?); [done..|]. specialize (Hne b Hb).
        split; [set_solver|]. exists nb. rewrite Hr; [done|]. set_solver.
    + intros ->. simpl in Hc. lia.
    + by rewrite app_assoc, Permutation_app_comm.
Qed.

(** ** The geometry of the spans *)

Definition in_block (x : __shared_block_subrange) : Prop :=
  0 <= __offset_ x /\ 0 <= __len_ x /\ __offset_ x + __len_ x <= 4096.

(** No byte is in both. *)
Definition apart (x y : __shared_block_subrange) : Prop :=
  __source_ x <> __source_ y \/
  __offset_ x + __len_ x <= __offset_ y \/ __offset_ y + __len_ y <= __offset_ x.

Record spans_ok (spans : list __shared_block_subrange) (c bump : Z) : Prop := {
  s_block : Forall in_block spans;
  s_behind : Forall (fun x => __source_ x = c -> __offset_ x + __len_ x <= bump) spans;
  s_apart i j x y : i <> j -> spans !! i = Some x -> spans !! j = Some y -> apart x y
}.

(** The whole state of a thread that holds the spans [spans]. *)
Record linv s spans F P : Prop := {
  l_inv : inv s spans (__consume_ (loc s)) F P;
  l_count : counted s F;
  l_bump : 0 <= __bump_ (loc s) <= 4096;
  l_fresh : __consume_ (loc s) = nullptr -> __bump_ (loc s) = 4096;
  l_spans : spans_ok spans (__consume_ (loc s)) (__bump_ (loc s));
  l_few : Z.of_nat (length spans) < 2 ^ 62
}.

Lemma refs_few s spans F P c b : linv s spans F P -> refs spans c b < 2 ^ 63 - 1.
Proof. intros Hs. pose proof (l_few _ _ _ _ Hs). pose proof (refs_bound spans c b). lia. Qed.

Lemma spans_ok_other spans c bump c' :
  spans_ok spans c bump -> refs spans nullptr c' = 0 -> c' <> nullptr -> spans_ok spans c' 0.
Proof.
  intros [] Hc Hn. constructor; [done| |done]. apply Forall_forall. intros x Hx E.
  pose proof (refs_elem x spans nullptr Hx) as Hr. rewrite E in Hr. lia.
Qed.

Lemma spans_ok_acquire spans c bump n :
  spans_ok spans c bump -> 0 <= bump -> 0 <= n -> bump + n <= 4096 ->
  spans_ok (mkSpan c bump n :: spans) c (bump + n).
Proof.
  intros [] ???. constructor.
  - constructor; [|done]. split_and!; simpl; lia.
  - constructor; [done|]. eapply Forall_impl; [done|]. simpl. intros x Hx E. specialize (Hx E). lia.
  - assert (forall y j, spans !! j = Some y -> apart (mkSpan c bump n) y /\ apart y (mkSpan c bump n)) as Hnew.
    { intros y j Hy. rewrite Forall_lookup in s_behind0. specialize (s_behind0 j y Hy).
      unfold apart. simpl. destruct (decide (__source_ y = c)); [|by split; left].
      split; right; [right|left]; auto. }
    intros [|i] [|j] x y Hij; simpl; intros; simplify_eq.
    + by eapply Hnew.
    + by eapply Hnew.
    + by eapply s_apart0; [|done..]; congruence.
Qed.

Lemma spans_ok_delete spans c bump i :
  spans_ok spans c bump -> spans_ok (delete i spans) c bump.
Proof.
  intros []. constructor.
  - by apply Forall_delete.
  - by apply Forall_delete.
  - intros j k x y Hjk. rewrite !list_lookup_delete. intros Hx Hy.
    eapply s_apart0; [|exact Hx|exact Hy]. repeat case_decide; lia.
Qed.


(** ** Switching to another block *)

Lemma consume_held s spans F P :
  linv s spans F P -> __consume_ (loc s) <> nullptr ->
  __consume_ (loc s) ∉ F ++ P /\ 0 < refs spans (__consume_ (loc s)) (__consume_ (loc s)) /\
  exists n, mem s !! __consume_ (loc s)
    = Some (mkBlock (refs spans (__consume_ (loc s)) (__consume_ (loc s))) n).
Proof.
  intros Hs Hc. assert (0 < refs spans (__consume_ (loc s)) (__consume_ (loc s))) as Hr.
  { unfold refs. rewrite decide_True by done. lia. }
  destruct (i_used _ _ _ _ _ (l_inv _ _ _ _ Hs) _ Hc Hr). done.
Qed.

Lemma refs_nullptr spans b : b <> nullptr -> refs spans nullptr b = refs spans b b - 1.
Proof. intros. rewrite (refs_consume spans nullptr b) by done. lia. Qed.

Lemma refs_drop_consume spans c b :
  c <> nullptr -> b <> nullptr ->
  refs spans nullptr b = refs spans c b + (if decide (b = c) then -1 else 0).
Proof.
  intros. case_decide as E; [rewrite E, refs_nullptr by done; lia|].
  unfold refs. rewrite !decide_False by done. lia.
Qed.


Lemma drop_consume_inv s spans F P :
  linv s spans F P -> ready s P ->
  returns drop_consume s (fun _ s' => exists F' P',
    inv s' spans nullptr F' P' /\ counted s' F' /\ (F' = [] -> can_pop (lrem s') P')).
Proof.
  intros Hs [Hpop Hpush]. pose proof Hs as [Hi Hcnt _ _ _ _]. unfold drop_consume, get_loc. rsteps.
  assert (F = [] -> can_pop (lrem s) P) as Hpop'.
  { intros EF. apply Hpop. erewrite qrep_empty by apply Hi. by rewrite bool_decide_true. }
  destruct (decide (__consume_ (loc s) = nullptr)) as [E|Hc].
  { rewrite decide_False by tauto. apply returns_ret. rewrite E in Hi. eauto 10. }
  rewrite decide_True by done. destruct (consume_held _ _ _ _ Hs Hc) as (HFP & Hr & n & Hn).
  eapply returns_bind_mono.
  { eapply (fetch_add_inv s spans _ spans nullptr F P _ (-1) n); [done..| | |apply Hi].
    - intros b Hb. by apply refs_drop_consume.
    - rewrite refs_nullptr by done. pose proof (refs_few _ _ _ _ (__consume_ (loc s)) (__consume_ (loc s)) Hs). lia. }
  intros old s1 (-> & Hi1 & El & Em & Er). case_decide as E1.
  - rewrite refs_nullptr, E1 in Em by done. eapply returns_mono.
    { eapply (release_inv s1 spans nullptr F P); [done| | |done|done| |].
      - unfold counted. by rewrite El.
      - unfold can_release. rewrite Er, El. intros Hfull. apply can_push_frame. by apply Hpush.
      - rewrite refs_nullptr by done. lia.
      - intros x ->%list_elem_of_singleton. rewrite Em, lookup_insert_eq. eauto. }
    intros ? s2 (F' & P' & ? & ? & ? & _). exists F', P'. by split_and!.
  - apply returns_ret. exists F, P. split_and!; [done|by unfold counted; rewrite El|].
    intros EF. rewrite Er. by apply can_pop_frame, Hpop'.
Qed.

(** An empty free list takes a batch from the pool. *)
Lemma refill_inv s spans F P :
  inv s spans nullptr F P -> counted s F -> (F = [] -> can_pop (lrem s) P) ->
  returns refill s (fun _ s' => exists F' P',
    inv s' spans nullptr F' P' /\ counted s' F' /\ F' <> []).
Proof.
  intros Hi Hcnt Hcan. unfold refill, get_loc. rsteps. erewrite qrep_empty by apply Hi.
  case_bool_decide as EF; [|apply returns_ret; eauto 10]. destruct Hi, Hcnt as [Hc _]. subst F.
  rsteps. apply returns_on_remote. eapply returns_mono; [apply pop_law; [done|by apply Hcan]|].
  intros q r (c & P' & Hq & Hlen & Hz & Hp & Hnd & Hown & Hsame). rsteps.
  apply qrep_nil in i_queue0. rewrite i_queue0.
  apply returns_on_blocks. eapply returns_mono.
  { apply (prepend_spec _ empty_queue q [] c); [by apply qrep_nil|done|].
    intros x Hx. by apply not_elem_of_nil in Hx. }
  rewrite app_nil_r. intros q' m [Hq' Hr]. unfold set_queue, set_count, get_loc, set_loc. rsteps.
  pose proof Hnd as (_ & HcP & _)%NoDup_app. exists c, P'. split_and!.
  - constructor; simpl; rewrite ?blocks_set; try done.
    + apply pool_frame; [done|]. intros x Hx. apply (relinks_lookup _ _ _ _ Hr). intros ?. by eapply HcP.
    + by eapply zeroed_relinks.
    + intros b Hb0 Hb. destruct (i_used0 b) as (HbP & nb & Hnb); [done..|].
      assert (b ∉ c ++ P') as Hb'.
      { intros [?|E]%Hown; [by apply HbP|]. simpl in *. congruence. }
      split; [done|]. exists nb. rewrite (relinks_lookup _ _ _ _ Hr) by set_solver. by rewrite Hsame.
  - unfold counted. simpl. rewrite Hc. unfold __T_ in *. rewrite wrap_small by (split; simpl; lia). simpl. lia.
  - intros ->. by unfold __T_ in Hlen.
Qed.

Lemma consume_next_inv s spans F P :
  inv s spans nullptr F P -> counted s F -> F <> [] -> Z.of_nat (length spans) < 2 ^ 62 ->
  returns consume_next s (fun _ s' => exists p F', F = p :: F' /\
    inv s' spans p F' P /\ counted s' F' /\ p <> nullptr /\ refs spans nullptr p = 0 /\
    __consume_ (loc s') = p /\ __bump_ (loc s') = 0).
Proof.
  intros Hi [Hc Hc16] HF Hfew. destruct F as [|p F]; [done|]. pose proof Hi as [].
  apply NoDup_cons in i_nodup0 as [HpF Hnd].
  pose proof (qrep_live _ _ _ p i_queue0 ltac:(by left)) as [Hp _].
  destruct (i_zero0 p ltac:(by left)) as [n Hn].
  assert (refs spans nullptr p = 0) as Href.
  { destruct (decide (0 < refs spans nullptr p)) as [Hpos|]; [|pose proof (refs_nonneg spans nullptr p); lia].
    destruct (i_used0 p Hp Hpos) as [[]%not_elem_of_cons _]. done. }
  unfold consume_next, get_loc, set_queue, set_consume, set_bump, set_count, get_loc, set_loc. rsteps.
  apply returns_on_blocks. eapply returns_mono; [by apply pop_front_spec|].
  intros [p' q] m (-> & -> & Hq). simpl in Hq. rsteps.
  eapply returns_mono.
  { eapply (fetch_add_inv _ spans nullptr spans p F P p 1 n); simpl; rewrite ?blocks_set; [|done|done| | | |done].
    - constructor; simpl; rewrite ?blocks_set; try done.
      + by apply pool_frame.
      + intros x Hx. apply i_zero0. by right.
      + intros b Hb0 Hb. destruct (i_used0 b) as (Hbn & ?); [done..|]. split; [set_solver|done].
    - by rewrite Href.
    - intros b Hb. unfold refs. destruct (decide (p = b)) as [->|].
      + rewrite decide_False, !decide_True by done. lia.
      + rewrite !decide_False by done. lia.
    - pose proof (refs_bound spans p p). lia. }
  intros old s1 (_ & Hi1 & El & _). rsteps. rewrite El. simpl. exists p, F. split_and!; try done.
  - apply inv_loc; [done|]. by rewrite El.
  - unfold counted. simpl in *. rewrite Hc, wrap_small by (split; lia). lia.
Qed.

Lemma allocate_linv s spans F P :
  linv s spans F P -> ready s P ->
  returns _M_allocate s (fun _ s' => exists F' P',
    linv s' spans F' P' /\ __consume_ (loc s') <> nullptr /\ __bump_ (loc s') = 0).
Proof.
  intros Hs Hready. unfold _M_allocate. eapply returns_bind_mono; [by eapply drop_consume_inv|].
  intros ? s1 (F1 & P1 & ? & ? & ?). eapply returns_bind_mono; [by eapply refill_inv|].
  intros ? s2 (F2 & P2 & ? & ? & ?). eapply returns_mono.
  { eapply consume_next_inv; [done..|]. apply (l_few _ _ _ _ Hs). }
  intros ? s3 (p & F3 & -> & ? & ? & ? & ? & Ec & Eb). exists F3, P2. split; [|by rewrite Ec].
  constructor; rewrite ?Ec, ?Eb; try done; [|apply (l_few _ _ _ _ Hs)].
  eapply spans_ok_other; [apply (l_spans _ _ _ _ Hs)|done..].
Qed.

(** A span from the block being consumed, which has room for it. *)
Lemma acquire_tail s spans F P n :
  linv s spans F P -> __consume_ (loc s) <> nullptr -> 0 <= n -> __bump_ (loc s) + n <= 4096 ->
  Z.of_nat (length spans) + 1 < 2 ^ 62 ->
  returns (l ← get_loc;
           _ ← fetch_add (__consume_ l) 1;
           set_bump (u32 (__bump_ l + n));;
           mret (mkSpan (__consume_ l) (__bump_ l) n)) s (fun x s' =>
    x = mkSpan (__consume_ (loc s)) (__bump_ (loc s)) n /\ linv s' (x :: spans) F P /\
    __bump_ (loc s') = __bump_ (loc s) + n).
Proof.
  intros Hs Hc Hn0 Hn Hfew. destruct (consume_held _ _ _ _ Hs Hc) as (HFP & Hr & nx & Hnx).
  pose proof Hs as [Hi Hcnt Hb Hf Hsp _]. apply returns_bind, returns_get_loc, returns_bind.
  eapply returns_mono.
  { eapply (fetch_add_inv s spans _ (mkSpan (__consume_ (loc s)) (__bump_ (loc s)) n :: spans) (__consume_ (loc s))
      F P _ 1 nx); [done..| | |].
    - intros b Hb0. by rewrite refs_cons.
    - rewrite refs_cons. simpl. rewrite decide_True by done.
      pose proof (refs_bound spans (__consume_ (loc s)) (__consume_ (loc s))). lia.
    - constructor; [done|apply Hi]. }
  intros old s1 (_ & Hi1 & El & _). unfold set_bump, get_loc, set_loc. rsteps. rewrite El, wrap_small by (split; lia).
  split_and!; try done. constructor; simpl; rewrite ?El; try done.
  - apply inv_loc; [done|]. by rewrite El.
  - lia.
  - apply spans_ok_acquire; [done|lia..].
  - lia.
Qed.

Lemma acquire_linv s spans F P n :
  linv s spans F P -> (4096 - __bump_ (loc s) < n -> ready s P) ->
  0 < n <= 4096 -> Z.of_nat (length spans) + 1 < 2 ^ 62 ->
  returns (__acquire n) s (fun x s' => exists F' P',
    linv s' (x :: spans) F' P' /\ __len_ x = n /\
    (if decide (__bump_ (loc s) + n <= 4096)
     then __source_ x = __consume_ (loc s) /\ __offset_ x = __bump_ (loc s)
     else __offset_ x = 0) /\
    __bump_ (loc s') = __offset_ x + n).
Proof.
  intros Hs Hready Hn Hfew. unfold __acquire, _M_acquire. apply returns_bind, returns_get_loc, returns_bind.
  pose proof (l_bump _ _ _ _ Hs) as Hb. rewrite wrap_small by (split; lia).
  destruct (Z.ltb_spec (4096 - __bump_ (loc s)) n) as [Hlt|Hge].
  - eapply returns_mono; [by eapply allocate_linv; [|apply Hready]|]. intros ? s1 (F1 & P1 & Hs1 & Hc1 & Hb1).
    eapply returns_mono; [eapply acquire_tail; [done|done|lia|rewrite Hb1; lia|done]|].
    intros x s2 (-> & Hs2 & Hb2). exists F1, P1. rewrite decide_False by lia. simpl. rewrite Hb1 in *. done.
  - apply returns_ret. eapply returns_mono; [eapply acquire_tail; [done| |lia|lia|done]|].
    { intros E. pose proof (l_fresh _ _ _ _ Hs E). lia. }
    intros x s2 (-> & Hs2 & Hb2). exists F, P. rewrite decide_True by lia. done.
Qed.

(** *** Dropping a span *)

Lemma release_linv s spans F P i x :
  linv s spans F P -> can_release s P -> spans !! i = Some x ->
  returns (__release x) s (fun _ s' => exists F' P',
    linv s' (delete i spans) F' P' /\
    (if decide (refs spans (__consume_ (loc s)) (__source_ x) = 1)
     then F' ++ P' ≡ₚ __source_ x :: F ++ P else F' = F /\ P' = P)).
Proof.
  intros Hs Hpush Hx. pose proof Hs as [Hi Hcnt Hb Hf Hsp Hfew].
  assert (0 < refs spans (__consume_ (loc s)) (__source_ x)) as Hr.
  { apply refs_elem. by eapply list_elem_of_lookup_2. }
  pose proof (i_source _ _ _ _ _ Hi) as Hsrc. rewrite Forall_lookup in Hsrc.
  pose proof (Hsrc i x Hx) as Hx0. destruct (i_used _ _ _ _ _ Hi _ Hx0 Hr) as (HFP & n & Hn).
  assert (refs (delete i spans) (__consume_ (loc s)) (__source_ x)
    = refs spans (__consume_ (loc s)) (__source_ x) - 1) as Hdel.
  { rewrite (refs_delete _ _ _ _ _ Hx), decide_True by done. lia. }
  assert (Z.of_nat (length (delete i spans)) < 2 ^ 62) as Hfew'.
  { pose proof (length_delete spans i ltac:(by eexists)). lia. }
  unfold __release. eapply returns_bind_mono.
  { eapply (fetch_add_inv s spans _ (delete i spans) (__consume_ (loc s)) F P _ (-1) n); [done..| | |].
    - intros b _. by apply refs_delete.
    - rewrite Hdel. pose proof (refs_few _ _ _ _ (__consume_ (loc s)) (__source_ x) Hs). lia.
    - apply Forall_delete, Hi. }
  intros old s1 (-> & Hi1 & El & Em & Er). case_decide as E1.
  - rewrite Hdel, E1 in Em. eapply returns_mono.
    { eapply (release_inv s1 _ _ F P); [done| | |done|done| |].
      - unfold counted. by rewrite El.
      - unfold can_release. rewrite Er, El. intros Hfull. apply can_push_frame. by apply Hpush.
      - rewrite Hdel. lia.
      - intros y ->%list_elem_of_singleton. rewrite Em, lookup_insert_eq. eauto. }
    rewrite El. intros ? s2 (F' & P' & ? & ? & _ & ? & Ec & Eb). exists F', P'. split; [|done].
    constructor; rewrite ?Ec, ?Eb; try done. by apply spans_ok_delete.
  - apply returns_ret. exists F, P. split; [|done].
    constructor; rewrite ?El; try done; [by unfold counted; rewrite El|by apply spans_ok_delete].
Qed.

(** *** Runs of a thread *)

(** The states a thread gets to with the spans it then holds: it acquires spans
    of up to a block's size and releases what it holds, in any order.  A request
    that does not fit behind the last one, and the release of a last reference,
    may turn to the pool, which must then be able to serve. *)
Inductive lstep : lstate R * list __shared_block_subrange -> lstate R * list __shared_block_subrange -> Prop :=
  | step_acquire s spans n x s' :
      (4096 - __bump_ (loc s) < n -> forall P, pool (lrem s) P -> ready s P) ->
      0 < n <= 4096 -> Z.of_nat (length spans) + 1 < 2 ^ 62 ->
      __acquire n s = Done (x, s') -> lstep (s, spans) (s', x :: spans)
  | step_release s spans i x s' :
      (forall P, pool (lrem s) P -> can_release s P) -> spans !! i = Some x ->
      __release x s = Done (tt, s') -> lstep (s, spans) (s', delete i spans).

Definition initial s : Prop := loc s = local_init /\ exists P, pool (lrem s) P /\ NoDup P.

Lemma fresh_linv s P : loc s = local_init -> pool (lrem s) P -> NoDup P -> linv s [] [] P.
Proof.
  intros E ??. constructor; rewrite ?E; try done.
  - constructor; rewrite ?E; try done.
    + intros x Hx. by apply not_elem_of_nil in Hx.
    + intros b Hb. unfold refs. simpl. case_decide as Ed; [by rewrite <- Ed in Hb|]. simpl. lia.
  - unfold counted. rewrite E. simpl. split; lia.
Qed.

Lemma initial_linv s : initial s -> exists P, linv s [] [] P.
Proof. intros (E & P & ? & ?). exists P. by apply fresh_linv. Qed.

Lemma lstep_linv st st' :
  (exists F P, linv st.1 st.2 F P) -> lstep st st' -> exists F P, linv st'.1 st'.2 F P.
Proof.
  intros (F & P & Hs) Hstep. inversion Hstep as [s spans n x s' Hsrv Hn Hfew E|s spans i x s' Hsrv Hx E]; subst; simpl in *.
  - opose proof* (acquire_linv s spans F P n) as Ha; [done|intros Hout; apply (Hsrv Hout), Hs|done|done|].
    unfold returns in Ha. rewrite E in Ha. destruct Ha as (F' & P' & ? & _). eauto.
  - opose proof* (release_linv s spans F P i x) as Ha; [done|apply (Hsrv P), Hs|done|].
    unfold returns in Ha. rewrite E in Ha. destruct Ha as (F' & P' & ? & _). eauto.
Qed.

Lemma reachable_linv s0 s spans :
  initial s0 -> rtc lstep (s0, []) (s, spans) -> exists F P, linv s spans F P.
Proof.
  intros [P HP]%initial_linv Hr.
  by apply (invariant_rtc lstep (fun st => exists F P, linv st.1 st.2 F P) lstep_linv (s0, []) (s, spans)); eauto.
Qed.

Lemma linv_head_apart s x spans F P : linv s (x :: spans) F P ->
  in_block x /\ (forall y, y ∈ spans -> apart x y) /\ __source_ x ∉ F ++ P /\ __source_ x <> nullptr /\
  exists n, mem s !! __source_ x = Some (mkBlock (refs (x :: spans) (__consume_ (loc s)) (__source_ x)) n).
Proof.
  intros Hs. pose proof (l_spans _ _ _ _ Hs) as [Hb _ Ha].
  assert (__source_ x <> nullptr) as Hx0.
  { pose proof (i_source _ _ _ _ _ (l_inv _ _ _ _ Hs)) as Hsrc. by apply Forall_cons in Hsrc as [? _]. }
  destruct (i_used _ _ _ _ _ (l_inv _ _ _ _ Hs) (__source_ x)) as [? ?]; [done|apply refs_elem; by left|].
  split_and!; try done.
  - by apply Forall_cons in Hb as [? _].
  - intros y [j Hj]%list_elem_of_lookup. by apply (Ha 0%nat (S j) x y).
Qed.

(** *** The members of a span *)

Lemma splice_spec s spans F P i x n :
  linv s spans F P -> spans !! i = Some x ->
  returns (__splice_prefix x n) s (fun r s' =>
    r = (mkSpan (__source_ x) (__offset_ x) n, mkSpan (__source_ x) (u32 (__offset_ x + n)) (__len_ x)) /\
    exists nx, mem s' = <[__source_ x := mkBlock (refs spans (__consume_ (loc s)) (__source_ x) + 1) nx]> (mem s)).
Proof.
  intros Hs Hx. pose proof (l_inv _ _ _ _ Hs) as Hi.
  pose proof (i_source _ _ _ _ _ Hi) as Hsrc. rewrite Forall_lookup in Hsrc.
  assert (0 < refs spans (__consume_ (loc s)) (__source_ x)) as Hr.
  { apply refs_elem. by eapply list_elem_of_lookup_2. }
  destruct (i_used _ _ _ _ _ Hi _ (Hsrc i x Hx) Hr) as (HFP & nx & Hnx).
  unfold __splice_prefix. eapply returns_bind_mono.
  { eapply (fetch_add_inv s spans _ (x :: spans) (__consume_ (loc s)) F P _ 1 nx); [done|by eapply Hsrc|done..| | |].
    - intros b _. by rewrite refs_cons.
    - rewrite refs_cons, decide_True by done. pose proof (refs_few _ _ _ _ (__consume_ (loc s)) (__source_ x) Hs). lia.
    - constructor; [by eapply Hsrc|apply Hi]. }
  intros old s1 (_ & _ & _ & Em & _). apply returns_ret. split; [done|]. exists nx. rewrite Em, refs_cons.
  by rewrite decide_True by done.
Qed.

(** The block a request larger than a block is cut from. *)
Lemma acquire_oversized s spans F P n :
  linv s spans F P -> ready s P -> 4096 < n < 2 ^ 32 ->
  returns (__acquire n) s (fun x s' =>
    __source_ x <> nullptr /\ __offset_ x = 0 /\ __len_ x = n /\
    __consume_ (loc s') = __source_ x /\ __bump_ (loc s') = n /\
    exists c nx, mem s' !! __source_ x = Some (mkBlock c nx)).
Proof.
  intros Hs Hready Hn. unfold __acquire, _M_acquire. apply returns_bind, returns_get_loc, returns_bind.
  pose proof (l_bump _ _ _ _ Hs) as Hb. rewrite wrap_small by (split; lia).
  destruct (Z.ltb_spec (4096 - __bump_ (loc s)) n) as [_|Hge]; [|lia].
  eapply returns_mono; [by eapply allocate_linv|]. intros ? s1 (F1 & P1 & Hs1 & Hc1 & Hb1).
  apply returns_bind, returns_get_loc, returns_bind. rewrite Hb1.
  destruct (consume_held _ _ _ _ Hs1 Hc1) as (_ & _ & nx & Hnx).
  unfold fetch_add. apply returns_on_blocks. rsteps. unfold set_bump, get_loc, set_loc. rsteps.
  rewrite blocks_set, lookup_insert_eq, wrap_small by (split; lia). eauto 10.
Qed.

(** A cursor beyond the block: the room that is left wraps around. *)
Lemma acquire_beyond s c nx n :
  4096 < __bump_ (loc s) < 2 ^ 32 -> 0 <= n < 2 ^ 31 -> __consume_ (loc s) <> nullptr ->
  mem s !! __consume_ (loc s) = Some (mkBlock c nx) -> __bump_ (loc s) < 2 ^ 31 ->
  returns (__acquire n) s (fun x _ => x = mkSpan (__consume_ (loc s)) (__bump_ (loc s)) n).
Proof.
  intros Hb Hn Hc Hm Hb'. unfold __acquire, _M_acquire. apply returns_bind, returns_get_loc, returns_bind.
  assert (u32 (4096 - __bump_ (loc s)) = 4096 - __bump_ (loc s) + 2 ^ 32) as ->.
  { unfold wrap. rewrite <- (Z.mod_add _ 1) by lia. apply Z.mod_small. lia. }
  destruct (Z.ltb_spec (4096 - __bump_ (loc s) + 2 ^ 32) n); [lia|]. apply returns_ret.
  apply returns_bind, returns_get_loc, returns_bind. unfold fetch_add. apply returns_on_blocks. rsteps.
  unfold set_bump, get_loc, set_loc. by rsteps.
Qed.

(** ** Properties *)

(** C23: a thread that acquires spans of 1 to 4096 bytes and releases what it
    holds, in any order, holds spans that are inside their blocks and share no
    byte, and the use count of a span's block is the number of spans it holds in
    that block, plus one while the thread consumes the block.  A next request
    that fits behind the last one completes in any case; one that does not
    completes if the pool can pop a batch when the free list is empty and can
    take a block when the free list is full; a release completes if the pool can
    take a block when the free list is full.  The ring can pop a batch when it
    holds 16 blocks, or none and has room for a mapping; a ring of 1 to 15 blocks,
    and requests of 0 or of more than 4096 bytes, are outside. *)
Theorem held_spans_disjoint s0 s spans :
  initial s0 -> rtc lstep (s0, []) (s, spans) ->
  Forall in_block spans /\
  (forall i j x y, i <> j -> spans !! i = Some x -> spans !! j = Some y -> apart x y) /\
  (forall x, x ∈ spans -> exists n, blocks (lrem s) !! __source_ x =
     Some (mkBlock (refs spans (__consume_ (loc s)) (__source_ x)) n)) /\
  (forall n, 0 < n <= 4096 -> Z.of_nat (length spans) + 1 < 2 ^ 62 ->
     (4096 - __bump_ (loc s) < n -> forall P, pool (lrem s) P -> ready s P) ->
     exists x s', __acquire n s = Done (x, s')) /\
  (forall x, x ∈ spans -> (forall P, pool (lrem s) P -> can_release s P) ->
     exists s', __release x s = Done (tt, s')).
Proof.
  intros Hinit Hr. destruct (reachable_linv s0 s spans Hinit Hr) as (F & P & Hs).
  pose proof (i_pool _ _ _ _ _ (l_inv _ _ _ _ Hs)) as HP. destruct (l_spans _ _ _ _ Hs) as [Hb _ Ha].
  split_and!; [done|done|..].
  - intros x Hx. eapply (i_used _ _ _ _ _ (l_inv _ _ _ _ Hs)); [|by apply refs_elem].
    pose proof (i_source _ _ _ _ _ (l_inv _ _ _ _ Hs)) as Hsrc. rewrite Forall_forall in Hsrc. by apply Hsrc.
  - intros n Hn Hfew Hsrv. opose proof* (acquire_linv s spans F P n) as (x & s' & E & _)%returns_Done; eauto.
  - intros x [i Hi]%list_elem_of_lookup Hsrv.
    opose proof* (release_linv s spans F P i x) as ([] & s' & E & _)%returns_Done; eauto.
Qed.

(** [__acquire] of [n] bytes returns a span of [n] bytes inside one block
    that shares no byte with any span held, right behind the last one if it
    fits there and at the start of an unused block otherwise; the block counts
    its spans plus the consumption, and is in neither the free list nor the pool. *)
Theorem acquire_cuts_fresh_span s spans F P n :
  linv s spans F P -> ready s P -> 0 < n <= 4096 -> Z.of_nat (length spans) + 1 < 2 ^ 62 ->
  returns (__acquire n) s (fun x s' => exists F' P',
    linv s' (x :: spans) F' P' /\ __len_ x = n /\ in_block x /\ (forall y, y ∈ spans -> apart x y) /\
    __source_ x ∉ F' ++ P' /\
    (if decide (__bump_ (loc s) + n <= 4096)
     then __source_ x = __consume_ (loc s) /\ __offset_ x = __bump_ (loc s)
     else __offset_ x = 0) /\
    (exists nx, blocks (lrem s') !! __source_ x
       = Some (mkBlock (refs (x :: spans) (__consume_ (loc s')) (__source_ x)) nx)) /\
    returns __bump_suffix s' (fun room s'' => room = 4096 - (__offset_ x + n) /\ s'' = s')).
Proof.
  intros. eapply returns_mono; [by eapply acquire_linv; [|intros _|..]|]. intros x s' (F' & P' & Hs & Hlen & Hat & Hb).
  destruct (linv_head_apart _ _ _ _ _ Hs) as (Hin & ? & ? & ? & ?). exists F', P'.
  split_and!; try done. unfold __bump_suffix. apply returns_bind, returns_get_loc, returns_ret.
  rewrite Hb, wrap_small; [done|]. destruct Hin as (? & ? & ?). split; lia.
Qed.

(** [__release] of any held span completes and leaves the others as they
    were; it returns the block to the free list or the pool exactly when no other
    span and no consumption refers to it. *)
Theorem release_last_recycles s spans F P i x :
  linv s spans F P -> can_release s P -> spans !! i = Some x ->
  returns (__release x) s (fun _ s' => exists F' P', linv s' (delete i spans) F' P' /\
    (if decide (refs (delete i spans) (__consume_ (loc s)) (__source_ x) = 0)
     then F' ++ P' ≡ₚ __source_ x :: F ++ P else F' = F /\ P' = P)).
Proof.
  intros Hs Hp Hx. eapply returns_mono; [by eapply release_linv|]. intros ? s' (F' & P' & ? & Hif).
  exists F', P'. split; [done|]. rewrite (refs_delete _ _ _ _ _ Hx), (decide_True (P := __source_ x = _)) by done.
  destruct (decide (refs spans _ _ = 1)); destruct (decide (_ + -1 = 0)); try done; lia.
Qed.

(** the room left in a block is computed without regard to requests
    larger than a block: a first one is served past the end of its block, and
    all later requests are served from beyond it, because the room has wrapped
    around. *)
Theorem oversized_request_escapes s spans F P n m :
  linv s spans F P -> ready s P -> 4096 < n < 2 ^ 31 -> 0 <= m < 2 ^ 31 ->
  returns (x ← __acquire n; y ← __acquire m; mret (x, y)) s (fun '(x, y) _ =>
    __offset_ x = 0 /\ __len_ x = n /\ ~ in_block x /\
    __source_ y = __source_ x /\ __offset_ y = n /\ ~ in_block y).
Proof.
  intros Hs Hr Hn Hm. eapply returns_bind_mono; [eapply acquire_oversized; [done|done|lia]|].
  intros x s1 (Hx0 & Hx & Hl & Ec & Eb & c & nx & Hb). eapply returns_bind_mono.
  { eapply (acquire_beyond s1 c nx m); rewrite ?Ec, ?Eb; [lia|lia|done|done|lia]. }
  intros y s2 ->. apply returns_ret. rewrite Ec, Eb. unfold in_block. simpl. split_and!; try done; lia.
Qed.

(** [__splice_prefix] takes a reference for the prefix and moves the offset
    of the rest behind it, but leaves the length of the rest: it ends [n] bytes
    beyond the end of the span that was split. *)
Theorem splice_remainder_overruns s spans F P i x n :
  linv s spans F P -> spans !! i = Some x -> 0 < n <= __len_ x ->
  returns (__splice_prefix x n) s (fun '(prefix, rest) s' =>
    in_block prefix /\ __offset_ prefix = __offset_ x /\ __len_ prefix = n /\ apart prefix rest /\
    (exists nx, blocks (lrem s') !! __source_ x =
       Some (mkBlock (refs spans (__consume_ (loc s)) (__source_ x) + 1) nx)) /\
    __offset_ rest + __len_ rest = __offset_ x + __len_ x + n /\
    (__offset_ x + __len_ x = 4096 -> ~ in_block rest)).
Proof.
  intros Hs Hx Hn. eapply returns_mono; [by eapply splice_spec|]. intros [p r] s' ([= -> ->] & nx & Em).
  destruct (l_spans _ _ _ _ Hs) as [Hb _ _]. rewrite Forall_lookup in Hb.
  destruct (Hb i x Hx) as (? & ? & ?). simpl. rewrite wrap_small by (split; lia). unfold in_block, apart. simpl.
  split_and!; try lia; try done. exists nx. by rewrite Em, lookup_insert_eq.
Qed.

(** a request for no bytes by a thread that has no block yet reads the
    block it does not have. *)
Theorem empty_request_faults s :
  loc s = local_init -> __acquire 0 s = Fault NullDeref.
Proof.
  intros E. unfold __acquire, _M_acquire, get_loc, mbind, M_bind, get, mret, M_ret. rewrite E. simpl. by rewrite E.
Qed.
End proofs.

(** ** The ring keeps the promises *)

Section ring.
Context (mmap : rstate -> option ptr).

#[local] Instance ring_remote : Remote rstate := {|
  blocks := rmem;
  set_blocks m r := mkR m (rsrc r);
  remote_pop := _M_pop_swap_reversed mmap 22;
  remote_push := remote_source._M_push 1;
|}.

Definition ring_pool (r : rstate) (l : list ptr) : Prop := zeroed (rmem r) l /\ exists t, rrep r t l.

(** Slots emptied so far, and filled so far. *)
Definition emptied (r : rstate) : Z := u32 (Z.shiftr (__state_ (rsrc r)) 32).
Definition filled (r : rstate) : Z := u32 (__state_ (rsrc r)).

(** A batch is ready, or nothing is left and there is room for a mapping; the
    counters are not at their end. *)
Definition ring_can_pop (r : rstate) (l : list ptr) : Prop :=
  (16 <= length l)%nat \/ l = [] /\ 0 <= __n_ (rsrc r) < __N_ /\ emptied r + 4 < 2 ^ 32.
Definition ring_can_push (r : rstate) (l : list ptr) : Prop :=
  (length l < 1024)%nat /\ filled r + 1 < 2 ^ 32.

Hypothesis Hmmap : mmap_spec mmap.
Hypothesis Hmapped : forall r, is_Some (mmap r).

Lemma ring_pop_law r l : ring_pool r l -> ring_can_pop r l ->
  returns (_M_pop_swap_reversed mmap 22) r (fun q r' => exists c l',
    qrep (rmem r') q c /\ Z.of_nat (length c) = __T_ /\ zeroed (rmem r') c /\ ring_pool r' l' /\
    NoDup (c ++ l') /\ (forall x, x ∈ c ++ l' -> x ∈ l \/ rmem r !! x = None) /\
    (forall x, x ∉ c ++ l' -> rmem r' !! x = rmem r !! x)).
Proof.
  intros (Hz & t & Hs) Hcan. destruct (decide (16 <= length l)%nat) as [Hl|Hl].
  - eapply returns_mono; [by apply (pop_full mmap r t l 21)|]. intros q r' (Hq & Hs' & Hr & _).
    assert (zeroed (rmem r') l) as Hz' by by eapply zeroed_relinks.
    rewrite <- (take_drop 16 l) in Hz'. apply zeroed_app in Hz' as [??].
    exists (take 16 l), (drop 16 l). rewrite take_drop. split_and!; try done; [| |apply Hs| |].
    + rewrite length_take. unfold __T_. lia.
    + split; [done|eauto].
    + by left.
    + intros x Hx. apply (relinks_lookup _ _ _ _ Hr). by intros ?%subseteq_take.
  - destruct Hcan as [|(-> & Hn & Ht)]; [done|]. destruct (Hmapped r) as [p Hp].
    destruct (rrep_words _ _ _ Hs) as [_ Et]. unfold emptied in Ht. rewrite Et in Ht.
    eapply returns_mono; [by apply (starved_pop_spec mmap r t p 0)|].
    intros q r' (c & l' & Hq & Hlen & Hs' & Hperm & Hz' & Hframe & _ & _).
    destruct (blocks_of_fresh mmap p r [] Hmmap Hp) as (Hnd & _).
    { intros x Hx. by apply not_elem_of_nil in Hx. }
    assert (zeroed (rmem r') (c ++ l')) as [? ?]%zeroed_app.
    { intros x Hx. apply Hz'. by rewrite <- Hperm. }
    exists c, l'. split_and!; try done; [split; eauto|by rewrite Hperm|..].
    + intros x Hx. rewrite Hperm in Hx. right. destruct (Hmmap r p Hp) as [_ Hfree].
      apply eq_None_not_Some. intros ?. eapply Hfree; [done|].
      apply list_elem_of_fmap in Hx as (j & -> & Hj%elem_of_seq). apply block_addr_range. lia.
    + intros x Hx. apply Hframe. by rewrite <- Hperm.
Qed.

Lemma ring_push_law r l p : ring_pool r l -> ring_can_push r l -> p ∉ l -> p <> nullptr -> zeroed (rmem r) [p] ->
  returns (remote_source._M_push 1 p) r (fun _ r' =>
    ring_pool r' (l ++ [p]) /\ forall x, x ∉ l ++ [p] -> rmem r' !! x = rmem r !! x).
Proof.
  intros (Hz & t & Hs) (Hl & Ht) Hp Hp0 Hzp. destruct (rrep_words _ _ _ Hs) as [Eh _].
  unfold filled in Ht. rewrite Eh in Ht. destruct (Hzp p) as [n Hn]; [by left|].
  eapply returns_mono.
  { apply (push_block_spec r t l p 0 Hs Hl); [|done|split; [done|eauto]].
    rewrite div16_succ. case_decide; lia. }
  intros ? r' (Hs' & Hr & _). split; [split; [|eauto]|].
  - eapply zeroed_relinks; [|done]. by apply zeroed_app.
  - intros x Hx. apply (relinks_lookup _ _ _ _ Hr). set_solver.
Qed.

Program Definition ring_laws : RemoteLaws rstate := {|
  pool := ring_pool;
  can_pop := ring_can_pop;
  can_push := ring_can_push;
|}.
Next Obligation. done. Qed.
Next Obligation. by intros r l []. Qed.
Next Obligation.
  intros r l m (Hz & t & Hs) Hm. split.
  - intros p Hp. destruct (Hz p Hp) as [n ?]. exists n. simpl. by rewrite Hm.
  - exists t. by apply (rrep_same r).
Qed.
Next Obligation. done. Qed.
Next Obligation. done. Qed.
Next Obligation. apply ring_pop_law. Qed.
Next Obligation. apply ring_push_law. Qed.
End ring.

(** ** Witnesses *)

Module local_example.

(** A kernel that maps behind everything in use. *)
Definition highest (m : gmap ptr __block) : Z := map_fold (fun a _ h => Z.max a h) 0 m.
Definition above (r : rstate) : option ptr := Some (4096 * (1 + highest (rmem r) / 4096)).

Lemma highest_bound m : 0 <= highest m /\ forall a b, m !! a = Some b -> a <= highest m.
Proof.
  unfold highest.
  apply (map_fold_weak_ind (fun h m => 0 <= h /\ forall a b, m !! a = Some b -> a <= h)).
  - split; [done|]. intros a b Ha. by rewrite lookup_empty in Ha.
  - intros i x m' h Hi [Hh IH]. split; [lia|]. intros a b [[<- _]|[_ Ha]]%lookup_insert_Some; [lia|].
    specialize (IH a b Ha). lia.
Qed.

Lemma above_spec : mmap_spec above.
Proof.
  intros r p [= <-]. destruct (highest_bound (rmem r)) as [Hh Hb].
  pose proof (Z.div_mod (highest (rmem r)) 4096). pose proof (Z.mod_pos_bound (highest (rmem r)) 4096).
  assert (0 <= highest (rmem r) / 4096) by (apply Z.div_pos; lia). split; [lia|].
  intros a [b Ha] ?. specialize (Hb a b Ha). lia.
Qed.

Lemma above_maps r : is_Some (above r).
Proof. by eexists. Qed.

#[local] Instance above_remote : Remote rstate := ring_remote above.
#[local] Instance above_laws : RemoteLaws rstate := ring_laws above above_spec above_maps.

Definition start : lstate rstate := mkL (mkR ∅ remote_init) local_init.

Lemma start_pool : pool (lrem start) [].
Proof. split; [intros x Hx; by apply not_elem_of_nil in Hx|]. exists 0. apply rrep_init. Qed.

Lemma start_fresh : initial start.
Proof. split; [done|]. exists []. split; [apply start_pool|constructor]. Qed.

Lemma start_linv : linv start [] [] [].
Proof. apply fresh_linv; [done|apply start_pool|constructor]. Qed.

Lemma start_ready P : pool (lrem start) P -> ready start P.
Proof.
  intros (_ & t & Hs). destruct (rrep_words _ _ _ Hs) as [Eh Et]. change (_ = t) with (0 = t) in Et. subst t.
  change (0 = 0 + Z.of_nat (length P / 16)) in Eh. pose proof (Nat.div_mod_eq (length P) 16).
  pose proof (Nat.mod_upper_bound (length P) 16). split; [intros _|intros _; split; [lia|done]].
  right. split; [|done]. destruct (r_slots _ _ _ Hs 0%nat) as (b & Hb & [_ Hn]); [rewrite K_64; lia|].
  rewrite batch_length in Hn. change (Some (nullptr, 0) = Some b) in Hb. simplify_eq. cbn [snd] in Hn.
  apply length_zero_iff_nil. lia.
Qed.

(** After one request the ring holds three full slots. *)
Lemma first_request : exists x s, __acquire 64 start = Done (x, s) /\
  filled (lrem s) = 4 /\ emptied (lrem s) = 1 /\ x = mkSpan 70592 0 64.
Proof.
  destruct (__acquire 64 start) as [[x s]|] eqn:E; vm_compute in E; simplify_eq.
  do 2 eexists. split; [done|]. by vm_compute.
Qed.

Lemma three_slots_ready s P : filled (lrem s) = 4 -> emptied (lrem s) = 1 -> pool (lrem s) P -> ready s P.
Proof.
  intros Ef Ee (_ & t & Hs). destruct (rrep_words _ _ _ Hs) as [Eh Et].
  unfold filled, emptied in *. pose proof (Nat.div_mod_eq (length P) 16).
  pose proof (Nat.mod_upper_bound (length P) 16).
  split; [left; lia|]. intros _. split; [lia|]. unfold filled. simpl in *. lia.
Qed.

Lemma held_spans_disjoint_witness : exists s,
  rtc lstep (start, []) (s, [mkSpan 70592 0 64]) /\
  Forall in_block [mkSpan 70592 0 64] /\
  (exists n, rmem (lrem s) !! 70592 = Some (mkBlock (refs [mkSpan 70592 0 64] (__consume_ (loc s)) 70592) n)) /\
  exists x s', __acquire 4096 s = Done (x, s').
Proof.
  destruct first_request as (x & s & E & Ef & Ee & ->). exists s.
  assert (rtc lstep (start, []) (s, [mkSpan 70592 0 64])) as Hr.
  { apply rtc_once. eapply (step_acquire start [] 64); [intros _; apply start_ready|lia|done|exact E]. }
  split; [exact Hr|].
  destruct (held_spans_disjoint start s [mkSpan 70592 0 64] start_fresh Hr) as (Hb & _ & Hu & Ha & _).
  split; [exact Hb|]. split; [apply (Hu (mkSpan 70592 0 64)); by left|].
  apply Ha; [lia|done|]. intros _ P HP. by apply three_slots_ready.
Defined.

Lemma acquire_cuts_fresh_span_witness :
  returns (__acquire 128) start (fun x s' => exists F' P',
    linv s' [x] F' P' /\ __len_ x = 128 /\ in_block x /\ (forall y, y ∈ [] -> apart x y) /\
    __source_ x ∉ F' ++ P' /\
    (if decide (__bump_ (loc start) + 128 <= 4096)
     then __source_ x = __consume_ (loc start) /\ __offset_ x = __bump_ (loc start)
     else __offset_ x = 0) /\
    (exists nx, blocks (lrem s') !! __source_ x = Some (mkBlock (refs [x] (__consume_ (loc s')) (__source_ x)) nx)) /\
    returns __bump_suffix s' (fun room s'' => room = 4096 - (__offset_ x + 128) /\ s'' = s')).
Proof. apply (acquire_cuts_fresh_span start [] [] []); [apply start_linv|apply start_ready, start_pool|lia|done]. Defined.

(** A thread that holds a first span. *)
Lemma one_span : exists s F P, linv s [mkSpan 70592 0 64] F P /\ can_release s P.
Proof.
  destruct first_request as (x & s & E & Ef & Ee & ->).
  opose proof* (acquire_linv start [] [] [] 64) as Ha; [apply start_linv|intros _; apply start_ready, start_pool|lia|done|].
  unfold returns in Ha. rewrite E in Ha. destruct Ha as (F & P & Hs & _). exists s, F, P. split; [exact Hs|].
  apply three_slots_ready; [done..|]. apply Hs.
Qed.

Lemma release_last_recycles_witness : exists s F P, linv s [mkSpan 70592 0 64] F P /\
  returns (__release (mkSpan 70592 0 64)) s (fun _ s' => exists F' P', linv s' [] F' P' /\
    (if decide (refs [] (__consume_ (loc s)) 70592 = 0) then F' ++ P' ≡ₚ 70592 :: F ++ P else F' = F /\ P' = P)).
Proof.
  destruct one_span as (s & F & P & Hs & Hp). exists s, F, P. split; [exact Hs|].
  apply (release_last_recycles s [mkSpan 70592 0 64] F P 0 (mkSpan 70592 0 64)); [exact Hs|exact Hp|reflexivity].
Defined.

Lemma oversized_request_escapes_witness :
  returns (x ← __acquire 5000; y ← __acquire 64; mret (x, y)) start (fun '(x, y) _ =>
    __offset_ x = 0 /\ __len_ x = 5000 /\ ~ in_block x /\
    __source_ y = __source_ x /\ __offset_ y = 5000 /\ ~ in_block y).
Proof. apply (oversized_request_escapes start [] [] []); [apply start_linv|apply start_ready, start_pool|lia|lia]. Defined.

Lemma splice_remainder_overruns_witness : exists s F P, linv s [mkSpan 70592 0 64] F P /\
  returns (__splice_prefix (mkSpan 70592 0 64) 16) s (fun '(prefix, rest) s' =>
    in_block prefix /\ __offset_ prefix = 0 /\ __len_ prefix = 16 /\ apart prefix rest /\
    (exists nx, blocks (lrem s') !! 70592 =
       Some (mkBlock (refs [mkSpan 70592 0 64] (__consume_ (loc s)) 70592 + 1) nx)) /\
    __offset_ rest + __len_ rest = 0 + 64 + 16 /\ (0 + 64 = 4096 -> ~ in_block rest)).
Proof.
  destruct one_span as (s & F & P & Hs & Hp). exists s, F, P. split; [exact Hs|].
  apply (splice_remainder_overruns s [mkSpan 70592 0 64] F P 0 (mkSpan 70592 0 64)); [exact Hs|reflexivity|simpl; lia].
Defined.

Lemma empty_request_faults_witness : __acquire 0 start = Fault NullDeref.
Proof. apply (empty_request_faults start). reflexivity. Defined.
End local_example.

End local_source.
