(* ===== verification/StopSource.v ===== *)
(** * [__stop_inplace.hpp]: stop requests and their callbacks

    A stop source keeps a doubly linked list of registered callbacks under a
    one-bit spin lock that shares its byte with the stop-requested bit.  The
    first request takes the callbacks off one by one and runs each without the
    lock; the destructor of a callback that is being run waits until it has
    completed.

    Module [stop_source] has the code as a machine: [thread_step] does one step
    of one call of [_M_request_stop], [_M_register_callback] or
    [~__stop_callback], and [step] interleaves any number of calls.  A call made
    from inside a callback is a call like any other here, its caller being at
    rest until it returns, so that what holds for all interleavings holds for
    nested calls too.  The accesses between taking and leaving the lock are one
    step; [mutual_exclusion] says that no other call is between them then. *)

From S2P Require Import Prelude Memory.

(** ** [__pause_or_yield] *)

Module pause_or_yield.
Definition __yield_threshold_ : Z := 20.

(** What one call does with the processor, and the new [__count_]. *)
Inductive action := Pause | Yield.
Definition _M_try (__count_ : Z) : action * Z :=
  let count := u32 (__count_ + 1) in
  if __count_ <? __yield_threshold_ then (Pause, count)
  else (Yield, if decide (count = 0) then __yield_threshold_ else count).

Fixpoint tries (n : nat) (__count_ : Z) : list action * Z :=
  match n with
  | O => ([], __count_)
  | S n => let '(a, c) := _M_try __count_ in let '(l, c) := tries n c in (a :: l, c)
  end.

Lemma tries_yield n c : __yield_threshold_ <= c < 2 ^ 32 ->
  (tries n c).1 = replicate n Yield /\ __yield_threshold_ <= (tries n c).2 < 2 ^ 32.
Proof.
  revert c. induction n as [|n IH]; intros c Hc; [done|]. unfold __yield_threshold_ in *. simpl.
  unfold _M_try, __yield_threshold_. destruct (Z.ltb_spec c 20); [lia|].
  set (c' := if decide _ then _ else _). assert (20 <= c' < 2 ^ 32) as Hc'.
  { unfold c'. case_decide as E; [lia|]. pose proof (wrap_range 32 (c + 1)) as [].
    - lia.
    - destruct (decide (c + 1 = 2 ^ 32)) as [E'|]; [by rewrite E' in E|].
      rewrite wrap_small by (split; lia). lia. }
  specialize (IH c' Hc') as [??]. destruct (tries n c') as [l c2]. simpl in *. by subst.
Qed.

(** a wait pauses the processor 20 times and yields from then on, however
    long it lasts: the counter that wraps around is put back to the threshold. *)
Theorem spin_then_yield n :
  (tries (20 + n) 0).1 = replicate 20 Pause ++ replicate n Yield.
Proof.
  assert (forall k m c, (tries (k + m) c).1 = (tries k c).1 ++ (tries m (tries k c).2).1) as Happ.
  { induction k as [|k IH]; intros m c; [done|]. simpl. destruct (_M_try c) as [a c'].
    specialize (IH m c'). destruct (tries (k + m) c'), (tries k c'). simpl in *. by rewrite IH. }
  rewrite Happ. change (tries 20 0) with (replicate 20 Pause, 20). simpl fst. f_equal.
  apply tries_yield. unfold __yield_threshold_. simpl. lia.
Qed.
End pause_or_yield.

Module stop_source.

(** ** Data *)

(** [__prev_] points to the pointer that points here: the list's head or the
    [__next_] of the callback before. *)
Inductive slot := SNull | SHead | SNext (q : ptr).
Definition is_null (s : slot) : bool := match s with SNull => true | _ => false end.

(** [__source_] is kept as whether it is set. *)
Record cb := mkCb {
  __next_ : ptr;
  __prev_ : slot;
  __source_ : bool;
  __callback_completed_ : bool
}.

Record shared := mkShared {
  __state_ : Z;
  __callback_ : ptr;
  __notify_ : bool;
  objs : gmap ptr cb
}.

Definition __none_flag_ : Z := 0.
Definition __stop_requested_flag_ : Z := 1.
Definition __locked_flag_ : Z := 2.

Definition init : shared := mkShared __none_flag_ nullptr false ∅.

(** Where a call is. *)
Inductive try_kind := Req | Reg (__cb : ptr).
Inductive lock_kind := Loop | Rem (__cb : ptr).
Inductive pc :=
  | TryLoad (k : try_kind)
  | TryTest (k : try_kind) (__prev : Z)
  | TryCas (k : try_kind)
  | LockLoad (k : lock_kind)
  | LockTest (k : lock_kind) (__prev : Z)
  | LockCas (k : lock_kind) (__prev : Z)
  | RqNotify
  | RqLoop
  | RqUnlock (__tmp : ptr)
  | RqExec (__tmp : ptr)
  | RqRun (__tmp : ptr)
  | RqComplete (__tmp : ptr)
  | RqEnd
  | RqRet (b : bool)
  | RgLink (__cb : ptr)
  | RgUnlock (__cb : ptr)
  | RgNull (__cb : ptr)
  | RgExec (__cb : ptr)
  | RgRun (__cb : ptr)
  | RgRet (__cb : ptr)
  | RmStart (__cb : ptr)
  | RmUnlink (__cb : ptr) (__prev : Z)
  | RmUnlock (__cb : ptr) (__prev : Z) (wait : bool)
  | RmWait (__cb : ptr)
  | RmRet (__cb : ptr).

(** ** The code *)

Definition get_state : M shared Z := s ← get; mret (__state_ s).
Definition set_state (v : Z) : M shared unit :=
  modify (fun s => mkShared v (__callback_ s) (__notify_ s) (objs s)).
Definition get_callback : M shared ptr := s ← get; mret (__callback_ s).
Definition set_callback (p : ptr) : M shared unit :=
  modify (fun s => mkShared (__state_ s) p (__notify_ s) (objs s)).
Definition set_notify (b : bool) : M shared unit :=
  modify (fun s => mkShared (__state_ s) (__callback_ s) b (objs s)).

Definition on_objs {A} (c : M (gmap ptr cb) A) : M shared A := fun s =>
  match c (objs s) with
  | Done (a, m) => Done (a, mkShared (__state_ s) (__callback_ s) (__notify_ s) m)
  | Fault f => Fault f
  end.
Definition get_cb (p : ptr) : M shared cb := on_objs (load p).
Definition with_next v x := mkCb v (__prev_ x) (__source_ x) (__callback_completed_ x).
Definition with_prev v x := mkCb (__next_ x) v (__source_ x) (__callback_completed_ x).
Definition with_source v x := mkCb (__next_ x) (__prev_ x) v (__callback_completed_ x).
Definition with_completed v x := mkCb (__next_ x) (__prev_ x) (__source_ x) v.
Definition put_cb (p : ptr) (f : cb -> cb) : M shared unit := on_objs (update p f).

(** [*slot = v] *)
Definition write_slot (s : slot) (v : ptr) : M shared unit :=
  match s with
  | SNull => throw NullDeref
  | SHead => set_callback v
  | SNext q => put_cb q (with_next v)
  end.

(** [__state_.compare_exchange_weak]: whether it succeeded, and the value left
    in the expected value's variable. *)
Definition compare_exchange_weak (spurious : bool) (__expected __desired : Z) : M shared (bool * Z) :=
  v ← get_state;
  if decide (v = __expected /\ spurious = false) then set_state __desired;; mret (true, __expected)
  else mret (false, v).

Definition stop_bit (v : Z) : bool := negb (Z.land v __stop_requested_flag_ =? 0).
Definition locked_bit (v : Z) : bool := negb (Z.land v __locked_flag_ =? 0).

(** [_M_try_lock_unless_stop_requested]: what it is called for decides what
    it installs and where its two results lead. *)
Definition try_next (k : try_kind) : Z :=
  match k with
  | Req => Z.lor __locked_flag_ __stop_requested_flag_
  | Reg _ => __locked_flag_
  end.
Definition try_locked (k : try_kind) : pc := match k with Req => RqNotify | Reg p => RgLink p end.
Definition try_failed (k : try_kind) : pc := match k with Req => RqRet true | Reg p => RgNull p end.

(** Where [_M_lock] returns to. *)
Definition locked (k : lock_kind) (__prev : Z) : pc :=
  match k with Loop => RqLoop | Rem p => RmUnlink p __prev end.

(** The list under the lock: the head is taken off; a callback is linked in
    front; a callback is unlinked, or must be waited for. *)
Definition pop_callback : M shared pc :=
  __tmp ← get_callback;
  if decide (__tmp = nullptr) then mret RqEnd
  else
    put_cb __tmp (with_prev SNull);;
    x ← get_cb __tmp;
    set_callback (__next_ x);;
    (if decide (__next_ x <> nullptr) then put_cb (__next_ x) (with_prev SHead) else mret tt);;
    mret (RqUnlock __tmp).

Definition link_callback (__cb : ptr) : M shared unit :=
  head ← get_callback;
  put_cb __cb (with_next head);;
  put_cb __cb (with_prev SHead);;
  (if decide (head <> nullptr) then put_cb head (with_prev (SNext __cb)) else mret tt);;
  set_callback __cb.

Definition unlink_callback (__cb : ptr) (__prev : Z) : M shared pc :=
  x ← get_cb __cb;
  if negb (is_null (__prev_ x)) then
    write_slot (__prev_ x) (__next_ x);;
    (if decide (__next_ x <> nullptr) then put_cb (__next_ x) (with_prev (__prev_ x)) else mret tt);;
    mret (RmUnlock __cb __prev false)
  else s ← get; mret (RmUnlock __cb __prev (__notify_ s)).

(** One step of a call. *)
Definition thread_step (spurious : bool) (c : pc) : M shared pc :=
  match c with
  | TryLoad k => v ← get_state; mret (TryTest k v)
  | TryTest k __prev =>
      mret (if stop_bit __prev then try_failed k
            else if decide (__prev = __none_flag_) then TryCas k else TryLoad k)
  | TryCas k =>
      '(ok, v) ← compare_exchange_weak spurious __none_flag_ (try_next k);
      mret (if (ok : bool) then try_locked k else TryTest k v)
  | LockLoad k => v ← get_state; mret (LockTest k v)
  | LockTest k __prev => mret (if locked_bit __prev then LockLoad k else LockCas k __prev)
  | LockCas k __prev =>
      '(ok, v) ← compare_exchange_weak spurious __prev (Z.lor __prev __locked_flag_);
      mret (if (ok : bool) then locked k __prev else LockTest k v)
  | RqNotify => set_notify true;; mret RqLoop
  | RqLoop => pop_callback
  | RqUnlock p => set_state __stop_requested_flag_;; mret (RqExec p)
  | RqExec p => _ ← get_cb p; mret (RqRun p)
  | RqRun p => mret (RqComplete p)
  | RqComplete p => put_cb p (with_completed true);; mret (LockLoad Loop)
  | RqEnd => set_state __stop_requested_flag_;; mret (RqRet false)
  | RqRet b => mret (RqRet b)
  | RgLink p => link_callback p;; mret (RgUnlock p)
  | RgUnlock p => set_state __none_flag_;; mret (RgRet p)
  | RgNull p => put_cb p (with_source false);; mret (RgExec p)
  | RgExec p => _ ← get_cb p; mret (RgRun p)
  | RgRun p => mret (RgRet p)
  | RgRet p => mret (RgRet p)
  | RmStart p => x ← get_cb p; mret (if __source_ x then LockLoad (Rem p) else RmRet p)
  | RmUnlink p __prev => unlink_callback p __prev
  | RmUnlock p __prev wait => set_state __prev;; mret (if (wait : bool) then RmWait p else RmRet p)
  | RmWait p => x ← get_cb p; mret (if __callback_completed_ x then RmRet p else RmWait p)
  | RmRet p => mret (RmRet p)
  end.

(** ** The system of calls

    The ghost state says for every callback object how far its life and its
    execution have come and how often it was executed, and which call holds the
    lock and which made the stop request.  The code does not read it. *)

Inductive phase := Making | Linked | Current | Completed | Unlinked | Failing | Failed.
Inductive life := Con (o : nat) | Alive | Des (o : nat).
Record ghost := mkGhost { ph : phase; lf : life; runs : nat }.

#[export] Instance phase_eq_dec : EqDecision phase.
Proof. solve_decision. Defined.
#[export] Instance life_eq_dec : EqDecision life.
Proof. solve_decision. Defined.

Record sys := mkSys {
  sh : shared;
  ops : gmap nat pc;
  gh : gmap ptr ghost;
  holder : option nat;
  winner : option nat
}.

(** The call is between taking and leaving the lock. *)
Definition holds (c : pc) : bool :=
  match c with
  | RqNotify | RqLoop | RqUnlock _ | RqEnd | RgLink _ | RgUnlock _ | RmUnlink _ _ | RmUnlock _ _ _ => true
  | _ => false
  end.

(** The call is the one that made the request. *)
Definition wins (c : pc) : bool :=
  match c with
  | RqNotify | RqLoop | RqUnlock _ | RqExec _ | RqRun _ | RqComplete _ | RqEnd | RqRet false
  | LockLoad Loop | LockTest Loop _ | LockCas Loop _ => true
  | _ => false
  end.

Definition set_ph v g := mkGhost v (lf g) (runs g).
Definition set_lf v g := mkGhost (ph g) v (runs g).
Definition one_run g := mkGhost (ph g) (lf g) (S (runs g)).

Definition ghost_step (c c' : pc) (g : gmap ptr ghost) : gmap ptr ghost :=
  match c, c' with
  | TryTest (Reg p) _, RgNull _ => alter (set_ph Failing) p g
  | RgNull p, _ => alter (set_ph Failed) p g
  | RgExec p, _ | RqExec p, _ => alter one_run p g
  | RgRun p, _ | RgUnlock p, _ => alter (set_lf Alive) p g
  | RgLink p, _ => alter (set_ph Linked) p g
  | RqLoop, RqUnlock p => alter (set_ph Current) p g
  | RqComplete p, _ => alter (set_ph Completed) p g
  | RmUnlink p _, RmUnlock _ _ false => alter (set_ph Unlinked) p g
  | _, _ => g
  end.

Definition holder_step (o : nat) (c c' : pc) (h : option nat) : option nat :=
  if holds c' then Some o else if holds c then None else h.
Definition winner_step (o : nat) (c' : pc) (w : option nat) : option nat :=
  if wins c' then Some o else w.

(** Calls start whenever their clients like: a constructor on storage that
    holds no object, a destructor once on an object that is constructed.  A call
    that has returned is forgotten, and the storage of a destroyed object is
    free again. *)
Inductive step : sys -> sys -> Prop :=
  | step_request s o :
      ops s !! o = None ->
      step s (mkSys (sh s) (<[o := TryLoad Req]> (ops s)) (gh s) (holder s) (winner s))
  | step_construct s o p :
      ops s !! o = None -> p <> nullptr -> objs (sh s) !! p = None ->
      step s (mkSys (mkShared (__state_ (sh s)) (__callback_ (sh s)) (__notify_ (sh s))
                       (<[p := mkCb nullptr SNull true false]> (objs (sh s))))
                (<[o := TryLoad (Reg p)]> (ops s)) (<[p := mkGhost Making (Con o) 0]> (gh s))
                (holder s) (winner s))
  | step_destroy s o p x n :
      ops s !! o = None -> gh s !! p = Some (mkGhost x Alive n) ->
      step s (mkSys (sh s) (<[o := RmStart p]> (ops s)) (<[p := mkGhost x (Des o) n]> (gh s))
                (holder s) (winner s))
  | step_op s o c c' spurious sh' :
      ops s !! o = Some c -> thread_step spurious c (sh s) = Done (c', sh') ->
      step s (mkSys sh' (<[o := c']> (ops s)) (ghost_step c c' (gh s))
                (holder_step o c c' (holder s)) (winner_step o c' (winner s)))
  | step_free s o p :
      ops s !! o = Some (RmRet p) ->
      step s (mkSys (mkShared (__state_ (sh s)) (__callback_ (sh s)) (__notify_ (sh s)) (delete p (objs (sh s))))
                (delete o (ops s)) (delete p (gh s)) (holder s) (winner s)).

Definition start : sys := mkSys init ∅ ∅ None None.
Definition reachable (s : sys) : Prop := rtc step start s.

(** ** The list *)

Fixpoint dseg (m : gmap ptr cb) (s : slot) (p : ptr) (L : list ptr) (s' : slot) (p' : ptr) : Prop :=
  match L with
  | [] => s = s' /\ p = p'
  | x :: L => p = x /\ x <> nullptr /\
      exists n, m !! x = Some n /\ __prev_ n = s /\ dseg m (SNext x) (__next_ n) L s' p'
  end.
Definition dlist (m : gmap ptr cb) (s : slot) (p : ptr) (L : list ptr) : Prop :=
  exists s', dseg m s p L s' nullptr.

Lemma dseg_app m s p A B s' p' :
  dseg m s p (A ++ B) s' p' <-> exists s1 p1, dseg m s p A s1 p1 /\ dseg m s1 p1 B s' p'.
Proof.
  revert s p. induction A as [|x A IH]; intros s p; simpl.
  - naive_solver.
  - setoid_rewrite IH. naive_solver.
Qed.

Lemma dseg_insert m s p L s' p' x n : x ∉ L -> dseg m s p L s' p' -> dseg (<[x := n]> m) s p L s' p'.
Proof.
  revert s p. induction L as [|y L IH]; intros s p Hx; simpl; [done|].
  intros (-> & ? & n' & ? & ? & ?). split_and!; [done..|]. exists n'.
  rewrite lookup_insert_ne by set_solver. set_solver.
Qed.

Lemma dseg_in m s p L s' p' x : dseg m s p L s' p' -> s <> SNull -> x ∈ L ->
  x <> nullptr /\ exists n, m !! x = Some n /\ __prev_ n <> SNull.
Proof.
  revert s p. induction L as [|y L IH]; intros s p; simpl; [by intros _ _ Hx%not_elem_of_nil|].
  intros (-> & ? & n & ? & Hp & Hd) Hs [->|Hx]%elem_of_cons; [|by eapply IH].
  split; [done|]. exists n. by rewrite Hp.
Qed.

Lemma dseg_set_prev m s p x L s' p' n s2 : dseg m s p (x :: L) s' p' -> x ∉ L -> m !! x = Some n ->
  dseg (<[x := with_prev s2 n]> m) s2 p (x :: L) s' p'.
Proof.
  simpl. intros (-> & ? & n' & ? & ? & ?) ??. assert (n' = n) as -> by congruence. split_and!; [done..|].
  exists (with_prev s2 n). rewrite lookup_insert_eq. split_and!; [done..|]. by apply dseg_insert.
Qed.

Lemma dseg_agree m m' s p L s' p' :
  (forall x, x ∈ L -> m' !! x = m !! x) -> dseg m s p L s' p' -> dseg m' s p L s' p'.
Proof.
  revert s p. induction L as [|y L IH]; intros s p Hin; simpl; [done|].
  intros (-> & ? & n & ? & ? & ?). split_and!; try done. exists n. rewrite Hin by by left.
  split_and!; try done. apply IH; [|done]. intros x ?. apply Hin. by right.
Qed.

Lemma dlist_nil m s p : dlist m s p [] <-> p = nullptr.
Proof. split; [by intros (? & _ & ->)|]. intros ->. by exists s. Qed.

Lemma dlist_null m s p L : dlist m s p L -> p = nullptr <-> L = [].
Proof. intros [s' Hd]. destruct L as [|x L]; simpl in Hd; [naive_solver|]. destruct Hd as (-> & ? & _). naive_solver. Qed.

(** What linking leaves alone. *)
Definition data (x : cb) : bool * bool := (__source_ x, __callback_completed_ x).

Lemma data_insert (m : gmap ptr cb) p x x' :
  m !! p = Some x -> data x' = data x -> data <$> <[p := x']> m = data <$> m.
Proof. intros Hp E. rewrite fmap_insert, E. apply insert_id. by rewrite lookup_fmap, Hp. Qed.

(** [links S m m']: links of objects in [S] may differ, nothing else. *)
Definition links (S : list ptr) (m m' : gmap ptr cb) : Prop :=
  data <$> m' = data <$> m /\ forall p, p ∉ S -> m' !! p = m !! p.

Lemma links_refl S m : links S m m.
Proof. done. Qed.

Lemma links_insert S m m' p x x' :
  links S m m' -> m' !! p = Some x -> data x' = data x -> p ∈ S -> links S m (<[p := x']> m').
Proof.
  intros [Hd Hs] Hp Hx Hin. split; [by rewrite (data_insert _ _ x)|].
  intros q Hq. rewrite lookup_insert_ne; [by apply Hs|]. by intros ->.
Qed.

Lemma returns_on_objs {A} (k : M (gmap ptr cb) A) (s : shared) (Q : A -> shared -> Prop) :
  returns k (objs s) (fun a m => Q a (mkShared (__state_ s) (__callback_ s) (__notify_ s) m)) ->
  returns (on_objs k) s Q.
Proof. unfold returns, on_objs. by destruct (k (objs s)) as [[]|]. Qed.

Lemma returns_get_cb (s : shared) p x (Q : cb -> shared -> Prop) :
  p <> nullptr -> objs s !! p = Some x -> Q x s -> returns (get_cb p) s Q.
Proof.
  intros. apply returns_on_objs. eapply returns_load; [done..|]. by destruct s.
Qed.

Lemma returns_put_cb (s : shared) p x f (Q : unit -> shared -> Prop) :
  p <> nullptr -> objs s !! p = Some x ->
  Q tt (mkShared (__state_ s) (__callback_ s) (__notify_ s) (<[p := f x]> (objs s))) ->
  returns (put_cb p f) s Q.
Proof. intros. apply returns_on_objs. by eapply returns_update. Qed.

(** The optional step that redirects the back pointer of the callback behind. *)
Lemma redirect_spec (s : shared) p L s1 s2 (Q : unit -> shared -> Prop) :
  dlist (objs s) s1 p L -> NoDup L ->
  (forall m, dlist m s2 p L -> links L (objs s) m ->
    Q tt (mkShared (__state_ s) (__callback_ s) (__notify_ s) m)) ->
  returns (if decide (p <> nullptr) then put_cb p (with_prev s2) else mret tt) s Q.
Proof.
  intros Hd Hnd HQ. destruct (decide (p = nullptr)) as [Hp|Hp].
  - rewrite decide_False by tauto. apply returns_ret. destruct s. apply HQ; [|done].
    apply (dlist_null _ _ _ _ Hd) in Hp as E. rewrite E. by apply dlist_nil.
  - rewrite decide_True by done. destruct L as [|x L]; [by apply dlist_nil in Hd|].
    destruct Hd as [s' Hd]. pose proof Hd as (-> & _ & n & Hn & _ & _). apply NoDup_cons in Hnd as [? _].
    eapply returns_put_cb; [done..|]. apply HQ.
    + exists s'. by apply (dseg_set_prev _ s1).
    + eapply links_insert; [done|done|done|by left].
Qed.

Lemma links_app_l S S' m m' : links S m m' -> links (S ++ S') m m'.
Proof. intros [? Hs]. split; [done|]. intros p Hp. apply Hs. set_solver. Qed.

Lemma pop_callback_spec (s : shared) L :
  dlist (objs s) SHead (__callback_ s) L -> NoDup L ->
  returns pop_callback s (fun c s' =>
    __state_ s' = __state_ s /\ __notify_ s' = __notify_ s /\ links L (objs s) (objs s') /\
    match L with
    | [] => c = RqEnd /\ s' = s
    | x :: L' => c = RqUnlock x /\ dlist (objs s') SHead (__callback_ s') L' /\
        exists n, objs s' !! x = Some n /\ __prev_ n = SNull
    end).
Proof.
  intros Hd Hnd. unfold pop_callback, get_callback. rsteps. destruct L as [|x L].
  - apply dlist_nil in Hd as E. rewrite decide_True by done. by rsteps.
  - destruct Hd as [s' (E & Hx & n & Hn & Hp & Hd)]. rewrite E, decide_False by done.
    apply NoDup_cons in Hnd as [HxL Hnd]. rsteps. eapply returns_put_cb; [done..|]. rsteps.
    eapply returns_get_cb; [done|simpl; apply lookup_insert_eq|]. unfold set_callback. rsteps.
    eapply (redirect_spec _ _ L (SNext x) SHead); simpl; [|done|].
    { exists s'. by apply dseg_insert. }
    intros m Hm Hl. rsteps. split_and!; try done.
    + split.
      * destruct Hl as [-> _]. by apply (data_insert _ _ n).
      * intros q Hq. destruct Hl as [_ Hl]. rewrite Hl by set_solver. apply lookup_insert_ne. set_solver.
    + exists (with_prev SNull n). split; [|done]. destruct Hl as [_ Hl]. rewrite Hl by done. apply lookup_insert_eq.
Qed.

Lemma link_callback_spec (s : shared) L p n :
  dlist (objs s) SHead (__callback_ s) L -> NoDup L -> p <> nullptr -> objs s !! p = Some n -> p ∉ L ->
  returns (link_callback p) s (fun _ s' =>
    __state_ s' = __state_ s /\ __notify_ s' = __notify_ s /\ links (p :: L) (objs s) (objs s') /\
    dlist (objs s') SHead (__callback_ s') (p :: L)).
Proof.
  intros Hd Hnd Hp Hn HpL. unfold link_callback, get_callback. rsteps.
  eapply returns_put_cb; [done..|]. rsteps. eapply returns_put_cb; [done|simpl; apply lookup_insert_eq|]. rsteps.
  rewrite insert_insert_eq.
  set (n' := with_prev _ _). eapply (redirect_spec _ _ L SHead (SNext p)); simpl; [|done|].
  { destruct Hd as [s' Hd]. exists s'. by apply dseg_insert. }
  intros m [s' Hm] [Hl1 Hl2]. unfold set_callback. rsteps. split_and!; try done.
  - split; [rewrite Hl1; by apply (data_insert _ _ n)|].
    intros q Hq. rewrite Hl2 by set_solver. apply lookup_insert_ne. set_solver.
  - exists s'. simpl. split_and!; try done. exists n'. rewrite Hl2, lookup_insert_eq by done. done.
Qed.

Lemma unlink_callback_spec (s : shared) L1 p L2 prev :
  dlist (objs s) SHead (__callback_ s) (L1 ++ p :: L2) -> NoDup (L1 ++ p :: L2) ->
  returns (unlink_callback p prev) s (fun c s' =>
    c = RmUnlock p prev false /\
    __state_ s' = __state_ s /\ __notify_ s' = __notify_ s /\ links (L1 ++ p :: L2) (objs s) (objs s') /\
    dlist (objs s') SHead (__callback_ s') (L1 ++ L2)).
Proof.
  intros [s' Hd] Hnd. apply NoDup_app in Hnd as (Hnd1 & H12 & [HpL Hnd2]%NoDup_cons).
  apply dseg_app in Hd as (sp & pp & H1 & -> & Hp & n & Hn & Hsp & H2).
  unfold unlink_callback. rsteps. eapply returns_get_cb; [done..|]. rewrite Hsp.
  destruct L1 as [|q L1 _] using rev_ind.
  - destruct H1 as [<- E]. simpl. unfold set_callback. rsteps.
    eapply (redirect_spec _ _ L2 (SNext p) SHead); simpl; [by exists s'|done|]. intros m Hm [Hl1 Hl2].
    rsteps. split_and!; try done. split; [done|]. intros x Hx. apply Hl2. set_solver.
  - apply dseg_app in H1 as (sq & pq & H1 & -> & Hq & nq & Hnq & Hsq & <- & Enx). simpl.
    assert (q ∉ L1 /\ q <> p /\ q ∉ L2 /\ NoDup L1) as (HqL1 & Hqp & HqL2 & Hnd1').
    { apply NoDup_app in Hnd1 as (? & Hq1 & _). split_and!; [|set_solver..|done].
      intros ?. eapply Hq1; [done|by left]. }
    rsteps. eapply returns_put_cb; [done..|]. rsteps.
    eapply (redirect_spec _ _ L2 (SNext p) (SNext q)); simpl; [|done|].
    { exists s'. by apply dseg_insert. }
    intros m [s2 Hm] [Hl1 Hl2]. rsteps. split_and!; try done.
    + split; [rewrite Hl1; by apply (data_insert _ _ nq)|].
      intros x Hx. rewrite Hl2 by set_solver. apply lookup_insert_ne. set_solver.
    + exists s2. rewrite <- app_assoc. apply dseg_app. exists sq, q. split.
      * assert (dseg (<[q := with_next (__next_ n) nq]> (objs s)) SHead (__callback_ s) L1 sq q) as H1' by by apply dseg_insert.
        eapply dseg_agree; [|exact H1']. intros x Hx. apply Hl2. intros ?. eapply H12; [|by right]. set_solver.
      * simpl. split_and!; try done. exists (with_next (__next_ n) nq). rewrite Hl2, lookup_insert_eq by done. done.
Qed.

Lemma unlink_popped_spec (s : shared) p n prev :
  p <> nullptr -> objs s !! p = Some n -> __prev_ n = SNull ->
  returns (unlink_callback p prev) s (fun c s' => c = RmUnlock p prev (__notify_ s) /\ s' = s).
Proof. intros ?? E. unfold unlink_callback. rsteps. eapply returns_get_cb; [done..|]. rewrite E. by rsteps. Qed.

(** ** The invariant *)

Definition is_at (g : gmap ptr ghost) (p : ptr) (P : ghost -> Prop) : Prop :=
  exists x, g !! p = Some x /\ P x.

(** The winner is at work on the callback. *)
Definition current (c : pc) : option ptr :=
  match c with RqUnlock p | RqExec p | RqRun p | RqComplete p => Some p | _ => None end.

Definition registered (x : phase) : bool :=
  match x with Linked | Current | Completed => true | _ => false end.
Definition popped (x : phase) : bool := match x with Current | Completed => true | _ => false end.

Definition flag (w : option nat) : Z := match w with Some _ => 1 | None => 0 end.

(** What the ghost state says where a call is. *)
Definition op_ok (g : gmap ptr ghost) (w : option nat) (notify : bool) (L : list ptr) (o : nat) (c : pc) : Prop :=
  match c with
  | TryLoad Req | TryCas Req | RqNotify => True
  | TryTest Req v => stop_bit v = true -> w <> None
  | TryLoad (Reg p) | TryCas (Reg p) => is_at g p (eq (mkGhost Making (Con o) 0))
  | TryTest (Reg p) v => is_at g p (eq (mkGhost Making (Con o) 0)) /\ (stop_bit v = true -> w <> None)
  | RgLink p => is_at g p (eq (mkGhost Making (Con o) 0)) /\ w = None
  | RgUnlock p => is_at g p (eq (mkGhost Linked (Con o) 0)) /\ w = None
  | RgNull p => is_at g p (eq (mkGhost Failing (Con o) 0)) /\ w <> None
  | RgExec p => is_at g p (eq (mkGhost Failed (Con o) 0)) /\ w <> None
  | RgRun p => is_at g p (eq (mkGhost Failed (Con o) 1)) /\ w <> None
  | RgRet _ => True
  | LockLoad Loop | LockTest Loop _ | RqLoop => notify = true
  | LockCas Loop v => notify = true /\ locked_bit v = false
  | RqUnlock p | RqExec p => notify = true /\ is_at g p (fun x => ph x = Current /\ runs x = 0%nat)
  | RqRun p | RqComplete p => notify = true /\ is_at g p (fun x => ph x = Current /\ runs x = 1%nat)
  | RqEnd | RqRet false => L = []
  | RqRet true => w <> None
  | RmStart p => is_at g p (fun x => lf x = Des o /\ (registered (ph x) = true \/ ph x = Failed))
  | LockLoad (Rem p) | LockTest (Rem p) _ => is_at g p (fun x => lf x = Des o /\ registered (ph x) = true)
  | LockCas (Rem p) v => is_at g p (fun x => lf x = Des o /\ registered (ph x) = true) /\ locked_bit v = false
  | RmUnlink p v => is_at g p (fun x => lf x = Des o /\ registered (ph x) = true) /\ v = flag w
  | RmUnlock p v wait =>
      is_at g p (fun x => lf x = Des o /\ if wait then popped (ph x) = true else ph x = Unlinked) /\ v = flag w
  | RmWait p => is_at g p (fun x => lf x = Des o /\ popped (ph x) = true)
  | RmRet p => is_at g p (fun x => lf x = Des o /\ (ph x = Completed \/ ph x = Unlinked \/ ph x = Failed))
  end.

(** What the object looks like in each phase, and how often it ran. *)
Definition cb_ok (w : option nat) (O : gmap nat pc) (L : list ptr) (notify : bool) (p : ptr) (n : cb) (x : ghost) : Prop :=
  (p ∈ L <-> ph x = Linked) /\
  match ph x with
  | Making => __prev_ n = SNull /\ data n = (true, false) /\ runs x = 0%nat /\ exists o, lf x = Con o
  | Linked => data n = (true, false) /\ runs x = 0%nat
  | Current => __prev_ n = SNull /\ data n = (true, false) /\ notify = true /\
      (exists o c, w = Some o /\ O !! o = Some c /\ current c = Some p) /\ (runs x <= 1)%nat
  | Completed => __prev_ n = SNull /\ data n = (true, true) /\ notify = true /\ w <> None /\ runs x = 1%nat
  | Unlinked => runs x = 0%nat /\ exists o, lf x = Des o
  | Failing => w <> None /\ runs x = 0%nat /\ exists o, lf x = Con o
  | Failed => w <> None /\ __source_ n = false /\ (runs x = 1%nat \/ runs x = 0%nat /\ exists o, lf x = Con o)
  end.

Record Inv (s : sys) (L : list ptr) : Prop := {
  i_flags : __state_ (sh s) = flag (winner s) + 2 * flag (holder s);
  i_list : dlist (objs (sh s)) SHead (__callback_ (sh s)) L;
  i_nodup : NoDup L;
  i_dom p : is_Some (objs (sh s) !! p) <-> is_Some (gh s !! p);
  i_null p : is_Some (gh s !! p) -> p <> nullptr;
  i_op o c : ops s !! o = Some c -> op_ok (gh s) (winner s) (__notify_ (sh s)) L o c;
  i_holds o c : ops s !! o = Some c -> holds c = true <-> holder s = Some o;
  i_wins o c : ops s !! o = Some c -> wins c = true <-> winner s = Some o;
  i_holder o : holder s = Some o -> is_Some (ops s !! o);
  i_winner o : winner s = Some o -> is_Some (ops s !! o);
  i_cb p n x : objs (sh s) !! p = Some n -> gh s !! p = Some x ->
    cb_ok (winner s) (ops s) L (__notify_ (sh s)) p n x
}.

(** *** Framing *)

(** How the ghost of an object may change in a step of [o] without any other
    call [c2] noticing. *)
Definition keeps (o : nat) (c2 : pc) (p : ptr) (x x' : ghost) : Prop :=
  x' = x \/
  ((lf x = Con o \/ lf x = Des o) /\ (ph x = Current -> current c2 <> Some p)) \/
  (lf x = Alive /\ ph x' = ph x /\ runs x' = runs x) \/
  (lf x' = lf x /\ registered (ph x) = true /\ registered (ph x') = true /\
   (popped (ph x) = true -> popped (ph x') = true) /\ (ph x = Completed -> ph x' = Completed) /\
   (ph x = Linked -> holds c2 = false) /\
   current c2 <> Some p).

Lemma keeps_con o o2 c2 p x x' : keeps o c2 p x x' -> o2 <> o -> lf x = Con o2 ->
  (registered (ph x) = true -> ph x = Linked /\ holds c2 = true) -> x' = x.
Proof.
  intros [?|[[[E|E] _]|[(E & _)|(_ & Hr & _ & _ & _ & Hh & _)]]] ? El Hc; try congruence.
  destruct (Hc Hr) as [HL Hc2]. specialize (Hh HL). congruence.
Qed.

Lemma keeps_des o o2 c2 p x x' : keeps o c2 p x x' -> o2 <> o -> lf x = Des o2 ->
  x' = x \/ lf x' = Des o2 /\ registered (ph x) = true /\ registered (ph x') = true /\
    (popped (ph x) = true -> popped (ph x') = true) /\ (ph x = Completed -> ph x' = Completed).
Proof.
  intros [?|[[[E|E] _]|[(E & _)|(E & Hr & Hr' & Hp & Hd & _)]]] ? El; try congruence; [by left|right]. by rewrite E.
Qed.

Lemma keeps_cur o c2 p x x' : keeps o c2 p x x' -> current c2 = Some p -> ph x = Current ->
  ph x' = Current /\ runs x' = runs x.
Proof.
  intros [->|[[_ E]|[(_ & E & ?)|(_ & _ & _ & _ & _ & _ & E)]]] Hc Hx; [done|by destruct (E Hx)|by rewrite E|done].
Qed.

Lemma op_ok_frame o g g' w w' nt nt' L L' o2 c2 :
  o2 <> o -> op_ok g w nt L o2 c2 ->
  (nt = true -> nt' = true) -> (w <> None -> w' <> None) -> w' = w \/ holds c2 = false ->
  (L = [] -> L' = []) \/ holds c2 = false /\ wins c2 = false ->
  (forall p x, g !! p = Some x -> exists x', g' !! p = Some x' /\ keeps o c2 p x x') ->
  op_ok g' w' nt' L' o2 c2.
Proof.
  intros Ho Hop Hnt Hw Hw' HL Hg.
  assert (forall p ph0 n, is_at g p (eq (mkGhost ph0 (Con o2) n)) ->
    (registered ph0 = true -> ph0 = Linked /\ holds c2 = true) -> is_at g' p (eq (mkGhost ph0 (Con o2) n))) as Hcon.
  { intros p ph0 n (x & Hx & <-) Hc. destruct (Hg p _ Hx) as (x' & ? & Hk). exists x'. split; [done|].
    by rewrite (keeps_con _ _ _ _ _ _ Hk Ho). }
  assert (forall p (P : ghost -> Prop), is_at g p P -> (forall x, P x -> lf x = Des o2) ->
    (forall x x', P x -> lf x' = Des o2 -> registered (ph x) = true -> registered (ph x') = true ->
       (popped (ph x) = true -> popped (ph x') = true) -> (ph x = Completed -> ph x' = Completed) -> P x') ->
    is_at g' p P) as Hdes.
  { intros p P (x & Hx & HP) Hlf HPP. destruct (Hg p _ Hx) as (x' & ? & Hk). exists x'. split; [done|].
    destruct (keeps_des _ _ _ _ _ _ Hk Ho (Hlf _ HP)) as [->|(? & ? & ? & ? & ?)]; [done|]. by apply (HPP x). }
  assert (forall p n, current c2 = Some p -> is_at g p (fun x => ph x = Current /\ runs x = n) ->
    is_at g' p (fun x => ph x = Current /\ runs x = n)) as Hcur.
  { intros p n Hc (x & Hx & HP & Hn). destruct (Hg p _ Hx) as (x' & ? & Hk). exists x'. split; [done|].
    destruct (keeps_cur _ _ _ _ _ Hk Hc HP) as [? ->]. done. }
  destruct c2 as [[|q]|[|q] v|[|q]|[|q]|[|q] v|[|q] v| | |q|q|q|q| |[]|q|q|q|q|q|q|q|q v|q v []|q|q];
    simpl in *; destruct_and?; split_and?; auto;
    try (by destruct Hw' as [->|]); try (by destruct HL as [|[]]; auto);
    try (eapply Hcur; by eauto);
    try (apply Hcon; [assumption|by intros]);
    try (eapply Hdes; [eassumption|intros ? []; done|intros ? ? [] ? Hr ? ? ?; split; auto]; destruct_or?; auto;
         match goal with E : ph _ = _ |- _ => rewrite E in Hr; done end).
Qed.

Lemma cb_ok_frame w w' O o c c' L L' nt nt' p n n' x :
  cb_ok w O L nt p n x -> O !! o = Some c ->
  (p ∈ L' <-> p ∈ L) -> data n' = data n -> ph x = Linked \/ __prev_ n' = __prev_ n ->
  (nt = true -> nt' = true) -> w = None \/ w' = w ->
  (current c = Some p -> current c' = Some p) ->
  cb_ok w' (<[o := c']> O) L' nt' p n' x.
Proof.
  intros [HL Hx] Ho HL' Hd Hp Hnt Hw Hc. split; [by rewrite HL'|].
  assert (w <> None -> w' <> None) as Hw' by (destruct Hw as [->| ->]; done).
  assert (__source_ n' = __source_ n) as Hs by (unfold data in Hd; congruence).
  destruct (ph x); rewrite ?Hd, ?Hs; destruct_and?; split_and?; try done; auto;
    try (destruct Hp as [|Hp]; [done|by rewrite Hp]).
  match goal with H : exists _ _, _ |- _ => destruct H as (o1 & c1 & Hw1 & Ho1 & Hc1) end.
  destruct Hw as [->| ->]; [done|]. destruct (decide (o1 = o)) as [->|].
  - exists o, c'. rewrite lookup_insert_eq. simplify_eq. auto.
  - exists o1, c1. by rewrite lookup_insert_ne.
Qed.

Lemma holds_other s L o o2 c2 :
  Inv s L -> holder s = Some o -> o2 <> o -> ops s !! o2 = Some c2 -> holds c2 = false.
Proof.
  intros Hs Hh Ho H2. destruct (holds c2) eqn:E; [|done]. apply (i_holds _ _ Hs _ _ H2) in E. congruence.
Qed.

Lemma holds_none s L o2 c2 : Inv s L -> holder s = None -> ops s !! o2 = Some c2 -> holds c2 = false.
Proof. intros Hs Hh H2. destruct (holds c2) eqn:E; [|done]. apply (i_holds _ _ Hs _ _ H2) in E. congruence. Qed.

Lemma wins_none s L o2 c2 : Inv s L -> winner s = None -> ops s !! o2 = Some c2 -> wins c2 = false.
Proof. intros Hs Hh H2. destruct (wins c2) eqn:E; [|done]. apply (i_wins _ _ Hs _ _ H2) in E. congruence. Qed.

Lemma wins_other s L o o2 c2 :
  Inv s L -> winner s = Some o -> o2 <> o -> ops s !! o2 = Some c2 -> wins c2 = false.
Proof.
  intros Hs Hh Ho H2. destruct (wins c2) eqn:E; [|done]. apply (i_wins _ _ Hs _ _ H2) in E. congruence.
Qed.

Lemma current_wins c p : current c = Some p -> wins c = true.
Proof. by destruct c. Qed.

(** What a step of the call [o] has to establish. *)
Lemma Inv_next s L o c c' sh' g' L' :
  let h' := holder_step o c c' (holder s) in
  let w' := winner_step o c' (winner s) in
  Inv s L -> ops s !! o = Some c ->
  __state_ sh' = flag w' + 2 * flag h' ->
  dlist (objs sh') SHead (__callback_ sh') L' -> NoDup L' ->
  (forall p, is_Some (objs sh' !! p) <-> is_Some (objs (sh s) !! p)) ->
  (forall p, is_Some (g' !! p) <-> is_Some (gh s !! p)) ->
  op_ok g' w' (__notify_ sh') L' o c' ->
  (holds c = false -> holds c' = true -> holder s = None) ->
  (wins c = false -> wins c' = true -> winner s = None /\ holder s = None) ->
  (wins c = true -> wins c' = true) ->
  (__notify_ (sh s) = true -> __notify_ sh' = true) ->
  L' = L \/ holder s = Some o /\ (L <> [] \/ winner s = None) ->
  (forall o2 c2 p x, o2 <> o -> ops s !! o2 = Some c2 -> gh s !! p = Some x ->
     exists x', g' !! p = Some x' /\ keeps o c2 p x x') ->
  (forall p n x, objs sh' !! p = Some n -> g' !! p = Some x ->
     cb_ok w' (<[o := c']> (ops s)) L' (__notify_ sh') p n x) ->
  Inv (mkSys sh' (<[o := c']> (ops s)) g' h' w') L'.
Proof.
  intros h' w' Hs Ho Hf Hl Hnd Hdom Hg Hop Hh Hw Hw2 Hnt HL Hk Hcb.
  assert (forall o2 c2, o2 <> o -> ops s !! o2 = Some c2 -> h' = holder s \/ holds c2 = false) as Hh2.
  { intros o2 c2 Hne H2. unfold h', holder_step. destruct (holds c') eqn:E', (holds c) eqn:E.
    - right. eapply holds_other; [done|by apply (i_holds _ _ Hs o c)|done..].
    - right. eapply holds_none; [done|by apply Hh|done].
    - right. eapply holds_other; [done|by apply (i_holds _ _ Hs o c)|done..].
    - by left. }
  constructor; simpl; try done.
  - intros p. by rewrite Hdom, Hg, (i_dom _ _ Hs).
  - intros p ?. apply (i_null _ _ Hs). by apply Hg.
  - intros o2 c2 [[<- <-]|[Hne%not_eq_sym H2]]%lookup_insert_Some; [done|].
    eapply (op_ok_frame o); [done|by apply (i_op _ _ Hs)|done|..|by eauto].
    + unfold w', winner_step. by destruct (wins c').
    + unfold w', winner_step. destruct (wins c') eqn:E'; [|by left]. destruct (wins c) eqn:E.
      * left. symmetry. by apply (i_wins _ _ Hs o c).
      * right. eapply holds_none; [done|by apply Hw|done].
    + destruct HL as [->|[HL [HL'|HL']]]; [by left|..].
      * by left; intros.
      * right. split; [by eapply holds_other|by eapply wins_none].
  - intros o2 c2 [[<- <-]|[Hne%not_eq_sym H2]]%lookup_insert_Some.
    + unfold h', holder_step. destruct (holds c') eqn:E'; [done|]. split; [done|].
      destruct (holds c) eqn:E; [done|]. intros Hho. apply (i_holds _ _ Hs _ _ Ho) in Hho. congruence.
    + destruct (Hh2 o2 c2 Hne H2) as [->|E2]; [by apply (i_holds _ _ Hs)|]. rewrite E2. split; [done|].
      unfold h', holder_step. destruct (holds c'); [congruence|]. destruct (holds c); [done|].
      intros Hho. apply (i_holds _ _ Hs _ _ H2) in Hho. congruence.
  - intros o2 c2 [[<- <-]|[Hne%not_eq_sym H2]]%lookup_insert_Some; unfold w', winner_step.
    + destruct (wins c') eqn:E'; [done|]. split; [done|]. intros Hwo.
      apply (i_wins _ _ Hs _ _ Ho) in Hwo. by specialize (Hw2 Hwo).
    + destruct (wins c') eqn:E'; [|by apply (i_wins _ _ Hs)]. destruct (wins c) eqn:E.
      * assert (winner s = Some o) as <- by by apply (i_wins _ _ Hs o c). by apply (i_wins _ _ Hs).
      * rewrite (wins_none _ _ _ _ Hs (proj1 (Hw eq_refl eq_refl)) H2). split; [done|congruence].
  - intros o2 Hho. destruct (decide (o2 = o)) as [->|]; [rewrite lookup_insert_eq; eauto|].
    rewrite lookup_insert_ne by done. apply (i_holder _ _ Hs). unfold h', holder_step in Hho.
    destruct (holds c'); [congruence|]. by destruct (holds c).
  - intros o2 Hwo. destruct (decide (o2 = o)) as [->|]; [rewrite lookup_insert_eq; eauto|].
    rewrite lookup_insert_ne by done. apply (i_winner _ _ Hs). unfold w', winner_step in Hwo.
    destruct (wins c'); [congruence|done].
Qed.

(** *** Steps by what they change *)

Lemma alter_at {A} (g : gmap ptr A) p x f : g !! p = Some x -> alter f p g = <[p := f x]> g.
Proof.
  intros Hp. apply map_eq. intros q. destruct (decide (q = p)) as [->|].
  - by rewrite lookup_alter_eq, lookup_insert_eq, Hp.
  - by rewrite lookup_alter_ne, lookup_insert_ne.
Qed.

Lemma winner_mono o c' w : wins c' = false \/ w = None \/ w = Some o -> w = None \/ winner_step o c' w = w.
Proof. unfold winner_step. intros [->|[->| ->]]; [by right|by left|right; by destruct (wins c')]. Qed.

(** The state byte only. *)
Lemma Inv_word s L o c c' v :
  let h' := holder_step o c c' (holder s) in
  let w' := winner_step o c' (winner s) in
  Inv s L -> ops s !! o = Some c -> v = flag w' + 2 * flag h' ->
  op_ok (gh s) w' (__notify_ (sh s)) L o c' ->
  (holds c = false -> holds c' = true -> holder s = None) ->
  (wins c = false -> wins c' = true -> winner s = None /\ holder s = None) ->
  (wins c = true -> wins c' = true) ->
  (forall p, current c = Some p -> current c' = Some p) ->
  Inv (mkSys (mkShared v (__callback_ (sh s)) (__notify_ (sh s)) (objs (sh s))) (<[o := c']> (ops s)) (gh s) h' w') L.
Proof.
  intros h' w' Hs Ho Hv Hop Hh Hw Hw2 Hc. apply (Inv_next s L); simpl; try done.
  - apply (i_list _ _ Hs).
  - apply (i_nodup _ _ Hs).
  - by left.
  - intros o2 c2 p x _ _ Hp. exists x. split; [done|by left].
  - intros p n x Hn Hx. eapply cb_ok_frame; [by apply (i_cb _ _ Hs)|done..|by right|done| |by apply Hc].
    unfold winner_step in *. destruct (wins c') eqn:E'; [|by right]. destruct (wins c) eqn:E.
    + right. symmetry. by apply (i_wins _ _ Hs o c).
    + left. by apply Hw.
Qed.

(** Nothing but the place in the code. *)
Lemma Inv_local s L o c c' :
  Inv s L -> ops s !! o = Some c -> holds c' = holds c -> wins c' = wins c ->
  (forall p, current c = Some p -> current c' = Some p) ->
  op_ok (gh s) (winner s) (__notify_ (sh s)) L o c' ->
  Inv (mkSys (sh s) (<[o := c']> (ops s)) (gh s) (holder_step o c c' (holder s)) (winner_step o c' (winner s))) L.
Proof.
  intros Hs Ho Eh Ew Hc Hop.
  assert (holder_step o c c' (holder s) = holder s) as Eh'.
  { unfold holder_step. rewrite Eh. destruct (holds c) eqn:E; [|done]. symmetry. by apply (i_holds _ _ Hs o c). }
  assert (winner_step o c' (winner s) = winner s) as Ew'.
  { unfold winner_step. rewrite Ew. destruct (wins c) eqn:E; [|done]. symmetry. by apply (i_wins _ _ Hs o c). }
  pose proof (Inv_word s L o c c' (__state_ (sh s)) Hs Ho) as HI. rewrite Eh', Ew' in *.
  destruct (sh s) eqn:Esh. simpl in *. apply HI; try done; rewrite ?Eh, ?Ew; try congruence.
  pose proof (i_flags _ _ Hs) as Hf. by rewrite Esh in Hf.
Qed.

(** One object and its ghost, its links excepted. *)
Lemma Inv_at s L o c c' sh' p n n' x x' :
  let h' := holder_step o c c' (holder s) in
  let w' := winner_step o c' (winner s) in
  Inv s L -> ops s !! o = Some c -> objs (sh s) !! p = Some n -> gh s !! p = Some x ->
  wins c' = wins c ->
  n' = n \/ p ∉ L ->
  __callback_ sh' = __callback_ (sh s) -> __notify_ sh' = __notify_ (sh s) -> objs sh' = <[p := n']> (objs (sh s)) ->
  __state_ sh' = flag w' + 2 * flag h' ->
  op_ok (<[p := x']> (gh s)) w' (__notify_ (sh s)) L o c' ->
  (holds c = false -> holds c' = true -> holder s = None) ->
  (forall q, q <> p -> current c = Some q -> current c' = Some q) ->
  (forall o2 c2, o2 <> o -> ops s !! o2 = Some c2 -> keeps o c2 p x x') ->
  cb_ok w' (<[o := c']> (ops s)) L (__notify_ (sh s)) p n' x' ->
  Inv (mkSys sh' (<[o := c']> (ops s)) (<[p := x']> (gh s)) h' w') L.
Proof.
  intros h' w' Hs Ho Hn Hx Ew Hn' Ecb Ent Eobjs Hv Hop Hh Hc Hk Hcb.
  destruct sh' as [v' cb' nt' objs']. simpl in Ecb, Ent, Eobjs, Hv. subst cb' nt' objs'.
  assert (w' = winner s) as Ew'.
  { unfold w', winner_step. rewrite Ew. destruct (wins c) eqn:E; [|done]. symmetry. by apply (i_wins _ _ Hs o c). }
  apply (Inv_next s L); simpl; try done.
  - destruct Hn' as [->|HpL]; [rewrite insert_id by done; apply (i_list _ _ Hs)|].
    destruct (i_list _ _ Hs) as [s' Hd]. exists s'. by apply dseg_insert.
  - apply (i_nodup _ _ Hs).
  - intros q. destruct (decide (q = p)) as [->|]; [rewrite lookup_insert_eq, Hn; split; eauto|by rewrite lookup_insert_ne].
  - intros q. destruct (decide (q = p)) as [->|]; [rewrite lookup_insert_eq, Hx; split; eauto|by rewrite lookup_insert_ne].
  - rewrite Ew. congruence.
  - by rewrite Ew.
  - by left.
  - intros o2 c2 q y Hne H2 Hq. destruct (decide (q = p)) as [->|].
    + rewrite Hx in Hq. injection Hq as <-. exists x'. rewrite lookup_insert_eq. eauto.
    + exists y. rewrite lookup_insert_ne by done. split; [done|by left].
  - intros q m y. destruct (decide (q = p)) as [->|Hq].
    + rewrite !lookup_insert_eq. by intros [= <-] [= <-].
    + rewrite !lookup_insert_ne by done. intros Hm Hy. fold w'. rewrite Ew'.
      destruct (decide (current c = Some q)) as [E|E].
      * eapply cb_ok_frame; [by apply (i_cb _ _ Hs)|done..|by right|done|by right|by apply Hc].
      * eapply cb_ok_frame; [by apply (i_cb _ _ Hs)|done..|by right|done|by right|done].
Qed.

(** *** Every step of a call *)

Lemma stop_bit_flags w h : stop_bit (flag w + 2 * flag h) = true <-> w <> None.
Proof. by destruct w, h. Qed.
Lemma locked_bit_flags w h : locked_bit (flag w + 2 * flag h) = true <-> h <> None.
Proof. by destruct w, h. Qed.

Lemma holder_of s L o c : Inv s L -> ops s !! o = Some c -> holds c = true -> holder s = Some o.
Proof. intros Hs Ho. apply (i_holds _ _ Hs _ _ Ho). Qed.
Lemma winner_of s L o c : Inv s L -> ops s !! o = Some c -> wins c = true -> winner s = Some o.
Proof. intros Hs Ho. apply (i_wins _ _ Hs _ _ Ho). Qed.

(** The call gets the lock bit, and with a request the stop bit. *)
Lemma cas_spec spurious e d (s : shared) ok v s' :
  compare_exchange_weak spurious e d s = Done ((ok, v), s') ->
  (ok = true /\ v = e /\ __state_ s = e /\ s' = mkShared d (__callback_ s) (__notify_ s) (objs s)) \/
  (ok = false /\ v = __state_ s /\ s' = s).
Proof.
  unfold compare_exchange_weak, get_state, set_state, mbind, M_bind, mret, M_ret, get, modify. simpl.
  case_decide as E; intros [= <- <- <-]; [left|by right]. by destruct E as [-> _].
Qed.

Section call.
Context (s : sys) (L : list ptr) (o : nat) (Hs : Inv s L).

Abbreviation after c c' sh' :=
  (Inv (mkSys sh' (<[o := c']> (ops s)) (ghost_step c c' (gh s))
     (holder_step o c c' (holder s)) (winner_step o c' (winner s)))) (only parsing).

Lemma step_try_load k c' sh' spurious : ops s !! o = Some (TryLoad k) ->
  thread_step spurious (TryLoad k) (sh s) = Done (c', sh') -> after (TryLoad k) c' sh' L.
Proof.
  intros Ho [= <- <-]. pose proof (i_op _ _ Hs _ _ Ho) as Hop.
  apply Inv_local; [done..|]. simpl in *. destruct k as [|p]; [|split; [done|]];
    rewrite (i_flags _ _ Hs); apply stop_bit_flags.
Qed.

Lemma step_try_test k v c' sh' spurious : ops s !! o = Some (TryTest k v) ->
  thread_step spurious (TryTest k v) (sh s) = Done (c', sh') -> after (TryTest k v) c' sh' L.
Proof.
  intros Ho [= <- <-]. pose proof (i_op _ _ Hs _ _ Ho) as Hop. destruct (stop_bit v) eqn:Ev.
  - destruct k as [|p]; simpl in *; [apply Inv_local; try done; by apply Hop|].
    destruct Hop as [(x & Hx & <-) Hw]. specialize (Hw Ev). rewrite (alter_at _ _ _ _ Hx).
    destruct (proj2 (i_dom _ _ Hs p)) as [n Hn]; [eauto|].
    pose proof (i_cb _ _ Hs _ _ _ Hn Hx) as [HL (Hp & Hd & _ & _)].
    eapply (Inv_at s L o _ _ _ p n n); try done; [by left|by rewrite insert_id|apply (i_flags _ _ Hs)|..].
    + split; [|done]. eexists. by rewrite lookup_insert_eq.
    + intros o2 c2 ? ?. right; left. split; [by left|done].
    + split; [by rewrite HL|]. simpl. split_and!; [done|done|eauto].
  - case_decide; destruct k as [|p]; simpl in *; apply Inv_local; try done; by destruct Hop.
Qed.

Lemma step_try_cas k c' sh' spurious : ops s !! o = Some (TryCas k) ->
  thread_step spurious (TryCas k) (sh s) = Done (c', sh') -> after (TryCas k) c' sh' L.
Proof.
  intros Ho E. pose proof (i_op _ _ Hs _ _ Ho) as Hop. simpl in E. unfold mbind, M_bind in E.
  destruct (compare_exchange_weak _ _ _ _) as [[[ok v] s1]|] eqn:Ec; [|done]. injection E as <- <-.
  pose proof (i_flags _ _ Hs) as Hf.
  apply cas_spec in Ec as [(-> & -> & E0 & ->)|(-> & -> & ->)].
  - assert (winner s = None /\ holder s = None) as [Ew Eh].
    { rewrite E0 in Hf. destruct (winner s), (holder s); done. }
    destruct k as [|p]; simpl in *; apply Inv_word; try done; rewrite ?Ew, ?Eh; try done.
  - destruct k as [|p]; simpl in *; apply Inv_local; try done; simpl; rewrite Hf, ?stop_bit_flags; done.
Qed.

Lemma step_lock_load k c' sh' spurious : ops s !! o = Some (LockLoad k) ->
  thread_step spurious (LockLoad k) (sh s) = Done (c', sh') -> after (LockLoad k) c' sh' L.
Proof.
  intros Ho [= <- <-]. pose proof (i_op _ _ Hs _ _ Ho) as Hop. by apply Inv_local; destruct k.
Qed.

Lemma step_lock_test k v c' sh' spurious : ops s !! o = Some (LockTest k v) ->
  thread_step spurious (LockTest k v) (sh s) = Done (c', sh') -> after (LockTest k v) c' sh' L.
Proof.
  intros Ho [= <- <-]. pose proof (i_op _ _ Hs _ _ Ho) as Hop.
  destruct (locked_bit v) eqn:E; destruct k; apply Inv_local; try done.
Qed.

Lemma step_lock_cas k v c' sh' spurious : ops s !! o = Some (LockCas k v) ->
  thread_step spurious (LockCas k v) (sh s) = Done (c', sh') -> after (LockCas k v) c' sh' L.
Proof.
  intros Ho E. pose proof (i_op _ _ Hs _ _ Ho) as Hop. simpl in E. unfold mbind, M_bind in E.
  destruct (compare_exchange_weak _ _ _ _) as [[[ok v'] s1]|] eqn:Ec; [|done]. injection E as <- <-.
  pose proof (i_flags _ _ Hs) as Hf.
  apply cas_spec in Ec as [(-> & -> & E0 & ->)|(-> & -> & ->)].
  - assert (holder s = None /\ v = flag (winner s)) as [Eh Ev].
    { assert (locked_bit v = false) as Hb by by destruct k; destruct Hop. rewrite <- E0, Hf in Hb.
      destruct (holder s) eqn:E; [by destruct (winner s)|]. split; [done|]. rewrite <- E0, Hf. simpl. lia. }
    assert (Z.lor v __locked_flag_ = flag (winner s) + 2) as Ev2 by (rewrite Ev; by destruct (winner s)).
    destruct k as [|p]; simpl in *; apply Inv_word; try done; simpl; try by destruct Hop.
    by rewrite (winner_of s L o _ Hs Ho eq_refl) in Ev2.
  - destruct k as [|p]; simpl in *; apply Inv_local; try done; by destruct Hop.
Qed.

(** The winner's steps. *)
Lemma step_notify c' sh' spurious : ops s !! o = Some RqNotify ->
  thread_step spurious RqNotify (sh s) = Done (c', sh') -> after RqNotify c' sh' L.
Proof.
  intros Ho [= <- <-]. pose proof (holder_of s L o _ Hs Ho eq_refl) as Eh.
  pose proof (winner_of s L o _ Hs Ho eq_refl) as Ew. pose proof (i_flags _ _ Hs) as Hf.
  apply (Inv_next s L); simpl; try done.
  - unfold winner_step, holder_step. simpl. by rewrite Ew, Eh in Hf.
  - apply (i_list _ _ Hs).
  - apply (i_nodup _ _ Hs).
  - by left.
  - intros o2 c2 p x _ _ Hp. exists x. split; [done|by left].
  - intros p n x Hn Hx. eapply cb_ok_frame; [by apply (i_cb _ _ Hs)|done..|by right|done| |done].
    right. unfold winner_step. by rewrite Ew.
Qed.

Lemma step_loop c' sh' spurious : ops s !! o = Some RqLoop ->
  thread_step spurious RqLoop (sh s) = Done (c', sh') -> exists L', after RqLoop c' sh' L'.
Proof.
  intros Ho E. pose proof (i_op _ _ Hs _ _ Ho) as Hop. simpl in E, Hop.
  pose proof (holder_of s L o _ Hs Ho eq_refl) as Eh. pose proof (winner_of s L o _ Hs Ho eq_refl) as Ew.
  pose proof (i_flags _ _ Hs) as Hf. pose proof (i_nodup _ _ Hs) as Hnd.
  pose proof (pop_callback_spec (sh s) L (i_list _ _ Hs) Hnd) as Hpop. unfold returns in Hpop. rewrite E in Hpop.
  destruct Hpop as (Est & Ent & [Hdata Hlinks] & HL). destruct L as [|x L'] eqn:EL.
  - destruct HL as [-> ->]. exists []. by apply Inv_local.
  - destruct HL as (-> & Hlist & nx & Hnx & Hprev). exists L'. apply NoDup_cons in Hnd as [HxL Hnd].
    assert (is_Some (gh s !! x)) as [gx Hgx].
    { apply (i_dom _ _ Hs). assert (is_Some ((data <$> objs sh') !! x)) as Hsome by (rewrite lookup_fmap, Hnx; eauto).
      rewrite Hdata, lookup_fmap in Hsome. by apply fmap_is_Some in Hsome. }
    assert (forall p, option_map data (objs sh' !! p) = option_map data (objs (sh s) !! p)) as Hd.
    { intros p. pose proof (f_equal (.!! p) Hdata) as Hd. simpl in Hd. by rewrite !lookup_fmap in Hd. }
    destruct (proj2 (i_dom _ _ Hs x)) as [n0 Hn0]; [eauto|].
    pose proof (i_cb _ _ Hs _ _ _ Hn0 Hgx) as [Hin Hcb].
    assert (ph gx = Linked) as Eph by (apply Hin; by left). rewrite Eph in Hcb. destruct Hcb as [Hdx Hrx].
    simpl. rewrite (alter_at _ _ _ _ Hgx). apply (Inv_next s (x :: L')); simpl; try done.
    + rewrite Est, Hf. unfold winner_step, holder_step. simpl. by rewrite Ew, Eh.
    + intros p. specialize (Hd p). destruct (objs sh' !! p), (objs (sh s) !! p); try done; split; eauto.
    + intros p. destruct (decide (p = x)) as [->|]; [rewrite lookup_insert_eq, Hgx; split; eauto|by rewrite lookup_insert_ne].
    + rewrite Ent. split; [done|]. exists (set_ph Current gx). by rewrite lookup_insert_eq.
    + by rewrite Ent.
    + right. split; [done|by left].
    + intros o2 c2 p y Hne H2 Hp. destruct (decide (p = x)) as [->|].
      * exists (set_ph Current gx). rewrite lookup_insert_eq. split; [done|]. rewrite Hgx in Hp. injection Hp as <-.
        right; right; right. rewrite Eph. simpl. split_and!; try done.
        -- intros _. by eapply holds_other.
        -- intros Hc%current_wins. by rewrite (wins_other s _ o _ _ Hs Ew Hne H2) in Hc.
      * exists y. rewrite lookup_insert_ne by done. split; [done|by left].
    + intros p n y Hn Hy. destruct (decide (p = x)) as [->|Hpx].
      * rewrite lookup_insert_eq in Hy. injection Hy as <-. rewrite Hnx in Hn. injection Hn as <-.
        split; [by split|]. simpl. split_and!; [done| |by rewrite Ent| |by rewrite Hrx; lia].
        -- specialize (Hd x). rewrite Hnx, Hn0 in Hd. simpl in Hd. congruence.
        -- exists o, (RqUnlock x). by rewrite lookup_insert_eq.
      * rewrite lookup_insert_ne in Hy by done. specialize (Hd p). rewrite Hn in Hd.
        destruct (objs (sh s) !! p) as [n1|] eqn:Hn1; [|done]. simpl in Hd. injection Hd as Hd.
        pose proof (i_cb _ _ Hs _ _ _ Hn1 Hy) as Hcb'. eapply cb_ok_frame; [exact Hcb'|done|set_solver| | | | |done].
        -- unfold data. congruence.
        -- destruct (decide (p ∈ L')) as [Hp|Hp]; [left; apply (proj1 Hcb'); by right|right].
           rewrite (Hlinks p) in Hn by set_solver. congruence.
        -- by rewrite Ent.
        -- right. unfold winner_step. by rewrite Ew.
Qed.

Lemma step_unlock p c' sh' spurious : ops s !! o = Some (RqUnlock p) ->
  thread_step spurious (RqUnlock p) (sh s) = Done (c', sh') -> after (RqUnlock p) c' sh' L.
Proof.
  intros Ho [= <- <-]. pose proof (i_op _ _ Hs _ _ Ho) as Hop. pose proof (winner_of s L o _ Hs Ho eq_refl) as Ew.
  simpl. by apply Inv_word.
Qed.

Lemma step_end c' sh' spurious : ops s !! o = Some RqEnd ->
  thread_step spurious RqEnd (sh s) = Done (c', sh') -> after RqEnd c' sh' L.
Proof. intros Ho [= <- <-]. pose proof (i_op _ _ Hs _ _ Ho) as Hop. simpl. by apply Inv_word. Qed.

Lemma load_Done (s0 : shared) p x s1 :
  get_cb p s0 = Done (x, s1) -> s1 = s0 /\ objs s0 !! p = Some x.
Proof.
  unfold get_cb, on_objs, load. case_decide; [done|]. destruct (objs s0 !! p); [|done]. intros [= <- <-]. by destruct s0.
Qed.

Lemma put_Done (s0 : shared) p f s1 :
  put_cb p f s0 = Done (tt, s1) -> exists x, objs s0 !! p = Some x /\
    s1 = mkShared (__state_ s0) (__callback_ s0) (__notify_ s0) (<[p := f x]> (objs s0)).
Proof.
  unfold put_cb, on_objs, update, load, mbind, M_bind, modify. case_decide; [done|].
  destruct (objs s0 !! p) as [x|]; [|done]. intros [= <-]. eauto.
Qed.

Lemma step_exec p c' sh' spurious : ops s !! o = Some (RqExec p) ->
  thread_step spurious (RqExec p) (sh s) = Done (c', sh') -> after (RqExec p) c' sh' L.
Proof.
  intros Ho E. pose proof (i_op _ _ Hs _ _ Ho) as (Hnt & x & Hx & Hph & Hrun).
  pose proof (winner_of s L o _ Hs Ho eq_refl) as Ew. simpl in E. unfold mbind, M_bind in E.
  destruct (get_cb p (sh s)) as [[n s1]|] eqn:El; [|done]. injection E as <- <-.
  apply load_Done in El as [-> Hn]. simpl. rewrite (alter_at _ _ _ _ Hx).
  pose proof (i_cb _ _ Hs _ _ _ Hn Hx) as [HL Hcb]. rewrite Hph in Hcb. destruct Hcb as (Hp & Hd & _ & _ & _).
  eapply (Inv_at s L o _ _ _ p n n); try done; [by left|by rewrite insert_id|by rewrite (i_flags _ _ Hs), Ew|..].
  - split; [done|]. eexists. rewrite lookup_insert_eq. split; [done|]. simpl. by rewrite Hrun.
  - intros o2 c2 Hne H2. right; right; right. simpl. rewrite Hph. split_and!; try done.
    intros Hc%current_wins. by rewrite (wins_other s _ o _ _ Hs Ew Hne H2) in Hc.
  - split; [done|]. simpl. rewrite Hph. split_and!; try done; [|rewrite Hrun; lia].
    exists o, (RqRun p). rewrite lookup_insert_eq. split_and!; try done.
Qed.

Lemma step_run p c' sh' spurious : ops s !! o = Some (RqRun p) ->
  thread_step spurious (RqRun p) (sh s) = Done (c', sh') -> after (RqRun p) c' sh' L.
Proof. intros Ho [= <- <-]. pose proof (i_op _ _ Hs _ _ Ho) as Hop. by apply Inv_local. Qed.

Lemma step_complete p c' sh' spurious : ops s !! o = Some (RqComplete p) ->
  thread_step spurious (RqComplete p) (sh s) = Done (c', sh') -> after (RqComplete p) c' sh' L.
Proof.
  intros Ho E. pose proof (i_op _ _ Hs _ _ Ho) as (Hnt & x & Hx & Hph & Hrun).
  pose proof (winner_of s L o _ Hs Ho eq_refl) as Ew. simpl in E. unfold mbind, M_bind in E.
  destruct (put_cb p _ (sh s)) as [[[] s1]|] eqn:El; [|done]. injection E as <- <-.
  apply put_Done in El as (n & Hn & ->). simpl. rewrite (alter_at _ _ _ _ Hx).
  pose proof (i_cb _ _ Hs _ _ _ Hn Hx) as [HL Hcb]. rewrite Hph in HL, Hcb. destruct Hcb as (Hp & Hd & _ & _ & _).
  assert (p ∉ L) as HpL by (by rewrite HL).
  eapply (Inv_at s L o _ _ _ p n); try done; [by right|by rewrite (i_flags _ _ Hs), Ew|..].
  - intros q Hq [= ->]. done.
  - intros o2 c2 Hne H2. right; right; right. simpl. rewrite Hph. split_and!; try done.
    intros Hc%current_wins. by rewrite (wins_other s _ o _ _ Hs Ew Hne H2) in Hc.
  - split; [by split|]. simpl. unfold data in *. simpl. injection Hd as -> _. split_and!; try done.
Qed.

(** The steps of a constructor. *)
Lemma step_link p c' sh' spurious : ops s !! o = Some (RgLink p) ->
  thread_step spurious (RgLink p) (sh s) = Done (c', sh') -> exists L', after (RgLink p) c' sh' L'.
Proof.
  intros Ho E. pose proof (i_op _ _ Hs _ _ Ho) as [(x & Hx & <-) Ew].
  pose proof (holder_of s L o _ Hs Ho eq_refl) as Eh. pose proof (i_flags _ _ Hs) as Hf.
  pose proof (i_nodup _ _ Hs) as Hnd. destruct (proj2 (i_dom _ _ Hs p)) as [n Hn]; [eauto|].
  pose proof (i_null _ _ Hs p ltac:(eauto)) as Hp0.
  pose proof (i_cb _ _ Hs _ _ _ Hn Hx) as [HL (Hp & Hdn & _ & _)]. simpl in HL.
  assert (p ∉ L) as HpL by (by rewrite HL).
  pose proof (link_callback_spec (sh s) L p n (i_list _ _ Hs) Hnd Hp0 Hn HpL) as Hlink.
  simpl in E. unfold mbind, M_bind in E. unfold returns in Hlink.
  destruct (link_callback p (sh s)) as [[[] s1]|] eqn:El; [|done]. injection E as <- <-.
  destruct Hlink as (Est & Ent & [Hdata Hlinks] & Hlist). exists (p :: L).
  assert (forall q, option_map data (objs s1 !! q) = option_map data (objs (sh s) !! q)) as Hd.
  { intros q. pose proof (f_equal (.!! q) Hdata) as Hd. simpl in Hd. by rewrite !lookup_fmap in Hd. }
  simpl. rewrite (alter_at _ _ _ _ Hx). apply (Inv_next s L); simpl; try done.
  - rewrite Est, Hf. unfold winner_step, holder_step. simpl. by rewrite Eh.
  - by apply NoDup_cons.
  - intros q. specialize (Hd q). destruct (objs s1 !! q), (objs (sh s) !! q); try done; split; eauto.
  - intros q. destruct (decide (q = p)) as [->|]; [rewrite lookup_insert_eq, Hx; split; eauto|by rewrite lookup_insert_ne].
  - split; [|done]. eexists. by rewrite lookup_insert_eq.
  - by rewrite Ent.
  - right. split; [done|by right].
  - intros o2 c2 q y Hne H2 Hq. destruct (decide (q = p)) as [->|].
    + eexists. rewrite lookup_insert_eq. split; [done|]. rewrite Hx in Hq. injection Hq as <-.
      right; left. split; [by left|done].
    + exists y. rewrite lookup_insert_ne by done. split; [done|by left].
  - intros q m y Hm Hy. specialize (Hd q). rewrite Hm in Hd.
    destruct (objs (sh s) !! q) as [n1|] eqn:Hn1; [|done]. simpl in Hd. injection Hd as Hd1 Hd2.
    destruct (decide (q = p)) as [->|Hqp].
    + rewrite lookup_insert_eq in Hy. injection Hy as <-. split; [split; [done|by left]|]. simpl. split; [|done].
      rewrite Hn in Hn1. injection Hn1 as <-. rewrite <- Hdn. unfold data. congruence.
    + rewrite lookup_insert_ne in Hy by done. pose proof (i_cb _ _ Hs _ _ _ Hn1 Hy) as Hcb'.
      eapply cb_ok_frame; [exact Hcb'|done|set_solver| | | | |done].
      * unfold data. congruence.
      * destruct (decide (q ∈ L)) as [HqL|HqL]; [left; by apply (proj1 Hcb')|right].
        rewrite (Hlinks q) in Hm by set_solver. congruence.
      * by rewrite Ent.
      * by left.
Qed.

Lemma step_reg_unlock p c' sh' spurious : ops s !! o = Some (RgUnlock p) ->
  thread_step spurious (RgUnlock p) (sh s) = Done (c', sh') -> after (RgUnlock p) c' sh' L.
Proof.
  intros Ho [= <- <-]. pose proof (i_op _ _ Hs _ _ Ho) as [(x & Hx & <-) Ew].
  destruct (proj2 (i_dom _ _ Hs p)) as [n Hn]; [eauto|]. simpl. rewrite (alter_at _ _ _ _ Hx).
  pose proof (i_cb _ _ Hs _ _ _ Hn Hx) as [HL Hcb].
  eapply (Inv_at s L o _ _ _ p n n); try done; [by left|by rewrite insert_id| |].
  - unfold winner_step, holder_step. simpl. by rewrite Ew.
  - intros o2 c2 ? ?. right; left. split; [by left|done].
Qed.

Lemma step_null p c' sh' spurious : ops s !! o = Some (RgNull p) ->
  thread_step spurious (RgNull p) (sh s) = Done (c', sh') -> after (RgNull p) c' sh' L.
Proof.
  intros Ho E. pose proof (i_op _ _ Hs _ _ Ho) as [(x & Hx & <-) Ew]. simpl in E. unfold mbind, M_bind in E.
  destruct (put_cb p _ (sh s)) as [[[] s1]|] eqn:El; [|done]. injection E as <- <-.
  apply put_Done in El as (n & Hn & ->). simpl. rewrite (alter_at _ _ _ _ Hx).
  pose proof (i_cb _ _ Hs _ _ _ Hn Hx) as [HL _]. simpl in HL. assert (p ∉ L) as HpL by (by rewrite HL).
  eapply (Inv_at s L o _ _ _ p n); try done; [by right|apply (i_flags _ _ Hs)|..].
  - split; [|done]. eexists. by rewrite lookup_insert_eq.
  - intros o2 c2 ? ?. right; left. split; [by left|done].
  - split; [by split|]. simpl. split_and!; [done|done|right; eauto].
Qed.

Lemma step_reg_exec p c' sh' spurious : ops s !! o = Some (RgExec p) ->
  thread_step spurious (RgExec p) (sh s) = Done (c', sh') -> after (RgExec p) c' sh' L.
Proof.
  intros Ho E. pose proof (i_op _ _ Hs _ _ Ho) as [(x & Hx & <-) Ew]. simpl in E. unfold mbind, M_bind in E.
  destruct (get_cb p (sh s)) as [[n s1]|] eqn:El; [|done]. injection E as <- <-.
  apply load_Done in El as [-> Hn]. simpl. rewrite (alter_at _ _ _ _ Hx).
  pose proof (i_cb _ _ Hs _ _ _ Hn Hx) as [HL (_ & Hsrc & _)].
  eapply (Inv_at s L o _ _ _ p n n); try done; [by left|by rewrite insert_id|apply (i_flags _ _ Hs)|..].
  - split; [|done]. eexists. by rewrite lookup_insert_eq.
  - intros o2 c2 ? ?. right; left. split; [by left|done].
  - split; [done|]. simpl. split_and!; [done|done|by left].
Qed.

Lemma step_reg_run p c' sh' spurious : ops s !! o = Some (RgRun p) ->
  thread_step spurious (RgRun p) (sh s) = Done (c', sh') -> after (RgRun p) c' sh' L.
Proof.
  intros Ho [= <- <-]. pose proof (i_op _ _ Hs _ _ Ho) as [(x & Hx & <-) Ew].
  destruct (proj2 (i_dom _ _ Hs p)) as [n Hn]; [eauto|]. simpl. rewrite (alter_at _ _ _ _ Hx).
  pose proof (i_cb _ _ Hs _ _ _ Hn Hx) as [HL (_ & Hsrc & _)].
  eapply (Inv_at s L o _ _ _ p n n); try done; [by left|by rewrite insert_id|apply (i_flags _ _ Hs)|..].
  - intros o2 c2 ? ?. right; left. split; [by left|done].
  - split; [done|]. simpl. split_and!; [done|done|by left].
Qed.

(** The steps of a destructor. *)
Lemma step_rm_start p c' sh' spurious : ops s !! o = Some (RmStart p) ->
  thread_step spurious (RmStart p) (sh s) = Done (c', sh') -> after (RmStart p) c' sh' L.
Proof.
  intros Ho E. pose proof (i_op _ _ Hs _ _ Ho) as (x & Hx & Hlf & Hph). simpl in E. unfold mbind, M_bind in E.
  destruct (get_cb p (sh s)) as [[n s1]|] eqn:El; [|done]. injection E as <- <-.
  apply load_Done in El as [-> Hn]. pose proof (i_cb _ _ Hs _ _ _ Hn Hx) as [_ Hcb].
  destruct (__source_ n) eqn:Esrc; simpl; apply Inv_local; try done; exists x; (split; [done|]); split; try done.
  - destruct Hph as [|Hph]; [done|]. rewrite Hph in Hcb. destruct Hcb as (_ & Hsrc & _). congruence.
  - destruct Hph as [Hr|]; [|by auto]. unfold data in Hcb.
    destruct (ph x); try done; destruct_and?; congruence.
Qed.

Lemma step_rm_unlink p v c' sh' spurious : ops s !! o = Some (RmUnlink p v) ->
  thread_step spurious (RmUnlink p v) (sh s) = Done (c', sh') -> exists L', after (RmUnlink p v) c' sh' L'.
Proof.
  intros Ho E. pose proof (i_op _ _ Hs _ _ Ho) as [(x & Hx & Hlf & Hr) Hv].
  pose proof (holder_of s L o _ Hs Ho eq_refl) as Eh. pose proof (i_flags _ _ Hs) as Hf.
  pose proof (i_nodup _ _ Hs) as Hnd. destruct (proj2 (i_dom _ _ Hs p)) as [n Hn]; [eauto|].
  pose proof (i_null _ _ Hs p ltac:(eauto)) as Hp0. pose proof (i_cb _ _ Hs _ _ _ Hn Hx) as [HL Hcb].
  simpl in E. destruct (decide (ph x = Linked)) as [Eph|Hnl].
  - rewrite Eph in Hcb. destruct Hcb as [Hdn Hrn].
    apply HL in Eph as HpL. apply list_elem_of_split in HpL as (L1 & L2 & EL).
    pose proof (i_list _ _ Hs) as Hlist. rewrite EL in Hlist, Hnd.
    pose proof (unlink_callback_spec (sh s) L1 p L2 v Hlist Hnd) as Hun. unfold returns in Hun. rewrite E in Hun.
    destruct Hun as (-> & Est & Ent & [Hdata Hlinks] & Hlist'). exists (L1 ++ L2).
    assert (forall q, option_map data (objs sh' !! q) = option_map data (objs (sh s) !! q)) as Hd.
    { intros q. pose proof (f_equal (.!! q) Hdata) as Hd. simpl in Hd. by rewrite !lookup_fmap in Hd. }
    pose proof Hnd as (Hnd1 & H12 & [HpL2 Hnd2]%NoDup_cons)%NoDup_app.
    assert (p ∉ L1) as HpL1 by (intros ?; eapply H12; [done|by left]).
    simpl. rewrite (alter_at _ _ _ _ Hx). apply (Inv_next s L); simpl; try done.
    + rewrite Est, Hf. unfold winner_step, holder_step. simpl. by rewrite Eh.
    + apply NoDup_app. split_and!; [done| |done]. intros q Hq Hq'. eapply H12; [done|by right].
    + intros q. specialize (Hd q). destruct (objs sh' !! q), (objs (sh s) !! q); try done; split; eauto.
    + intros q. destruct (decide (q = p)) as [->|]; [rewrite lookup_insert_eq, Hx; split; eauto|by rewrite lookup_insert_ne].
    + split; [|done]. eexists. rewrite lookup_insert_eq. by split.
    + by rewrite Ent.
    + right. split; [done|left]. rewrite EL. by destruct L1.
    + intros o2 c2 q y Hne H2 Hq. destruct (decide (q = p)) as [->|].
      * eexists. rewrite lookup_insert_eq. split; [done|]. rewrite Hx in Hq. injection Hq as <-.
        right; left. split; [by right|by rewrite Eph].
      * exists y. rewrite lookup_insert_ne by done. split; [done|by left].
    + intros q m y Hm Hy. specialize (Hd q). rewrite Hm in Hd.
      destruct (objs (sh s) !! q) as [n1|] eqn:Hn1; [|done]. simpl in Hd. injection Hd as Hd1 Hd2.
      destruct (decide (q = p)) as [->|Hqp].
      * rewrite lookup_insert_eq in Hy. injection Hy as <-. split; [split; [|done]|simpl; eauto].
        intros [?|?]%elem_of_app; done.
      * rewrite lookup_insert_ne in Hy by done. pose proof (i_cb _ _ Hs _ _ _ Hn1 Hy) as Hcb'.
        assert (q ∈ L1 ++ L2 <-> q ∈ L) as HqL.
        { rewrite EL, !elem_of_app, elem_of_cons. tauto. }
        eapply cb_ok_frame; [exact Hcb'|done|exact HqL| | | |by right|done].
        -- unfold data. congruence.
        -- destruct (decide (q ∈ L)) as [HqL'|HqL']; [left; by apply (proj1 Hcb')|right].
           rewrite (Hlinks q) in Hm by (by rewrite <- EL). congruence.
        -- by rewrite Ent.
  - exists L. assert (__prev_ n = SNull /\ __notify_ (sh s) = true /\ popped (ph x) = true) as (Hp & Hnt & Hpop).
    { destruct (ph x); try done; by destruct_and?. }
    pose proof (unlink_popped_spec (sh s) p n v Hp0 Hn Hp) as Hun. unfold returns in Hun. rewrite E in Hun.
    destruct Hun as [-> ->]. rewrite Hnt in *. simpl. apply Inv_local; try done.
    split; [|done]. by exists x.
Qed.

Lemma step_rm_unlock p v wait c' sh' spurious : ops s !! o = Some (RmUnlock p v wait) ->
  thread_step spurious (RmUnlock p v wait) (sh s) = Done (c', sh') -> after (RmUnlock p v wait) c' sh' L.
Proof.
  intros Ho [= <- <-]. pose proof (i_op _ _ Hs _ _ Ho) as [(x & Hx & Hlf & Hph) Hv].
  pose proof (holder_of s L o _ Hs Ho eq_refl) as Eh.
  destruct wait; simpl; apply Inv_word; try done; 
    try (unfold winner_step, holder_step; simpl; lia); exists x; (split; [done|]); split; auto.
Qed.

Lemma step_rm_wait p c' sh' spurious : ops s !! o = Some (RmWait p) ->
  thread_step spurious (RmWait p) (sh s) = Done (c', sh') -> after (RmWait p) c' sh' L.
Proof.
  intros Ho E. pose proof (i_op _ _ Hs _ _ Ho) as (x & Hx & Hlf & Hph). simpl in E. unfold mbind, M_bind in E.
  destruct (get_cb p (sh s)) as [[n s1]|] eqn:El; [|done]. injection E as <- <-.
  apply load_Done in El as [-> Hn]. pose proof (i_cb _ _ Hs _ _ _ Hn Hx) as [_ Hcb].
  destruct (__callback_completed_ n) eqn:Ec; simpl; apply Inv_local; try done; exists x; (split; [done|]); split; try done.
  left. unfold data in Hcb. destruct (ph x); try done. destruct_and?. congruence.
Qed.

Lemma step_call c c' sh' spurious : ops s !! o = Some c ->
  thread_step spurious c (sh s) = Done (c', sh') -> exists L', after c c' sh' L'.
Proof.
  intros Ho E. destruct c.
  all: try (exists L; match goal with
    | E : thread_step _ (TryLoad _) _ = _ |- _ => by eapply step_try_load
    | E : thread_step _ (TryTest _ _) _ = _ |- _ => by eapply step_try_test
    | E : thread_step _ (TryCas _) _ = _ |- _ => by eapply step_try_cas
    | E : thread_step _ (LockLoad _) _ = _ |- _ => by eapply step_lock_load
    | E : thread_step _ (LockTest _ _) _ = _ |- _ => by eapply step_lock_test
    | E : thread_step _ (LockCas _ _) _ = _ |- _ => by eapply step_lock_cas
    | E : thread_step _ RqNotify _ = _ |- _ => by eapply step_notify
    | E : thread_step _ (RqUnlock _) _ = _ |- _ => by eapply step_unlock
    | E : thread_step _ (RqExec _) _ = _ |- _ => by eapply step_exec
    | E : thread_step _ (RqRun _) _ = _ |- _ => by eapply step_run
    | E : thread_step _ (RqComplete _) _ = _ |- _ => by eapply step_complete
    | E : thread_step _ RqEnd _ = _ |- _ => by eapply step_end
    | E : thread_step _ (RgUnlock _) _ = _ |- _ => by eapply step_reg_unlock
    | E : thread_step _ (RgNull _) _ = _ |- _ => by eapply step_null
    | E : thread_step _ (RgExec _) _ = _ |- _ => by eapply step_reg_exec
    | E : thread_step _ (RgRun _) _ = _ |- _ => by eapply step_reg_run
    | E : thread_step _ (RmStart _) _ = _ |- _ => by eapply step_rm_start
    | E : thread_step _ (RmUnlock _ _ _) _ = _ |- _ => by eapply step_rm_unlock
    | E : thread_step _ (RmWait _) _ = _ |- _ => by eapply step_rm_wait
    | E : thread_step _ _ _ = _ |- _ => injection E as <- <-; apply Inv_local; try done; by apply (i_op _ _ Hs)
    end).
  - by eapply step_loop.
  - by eapply step_link.
  - by eapply step_rm_unlink.
Qed.



End call.

(** *** Starting calls and freeing objects *)

Lemma Inv_start s L o c g' m' :
  Inv s L -> ops s !! o = None -> holds c = false -> wins c = false ->
  op_ok g' (winner s) (__notify_ (sh s)) L o c ->
  (forall p, is_Some (m' !! p) <-> is_Some (g' !! p)) ->
  (forall p, is_Some (g' !! p) -> p <> nullptr) ->
  (forall p, p ∈ L -> m' !! p = objs (sh s) !! p) ->
  (forall p x, gh s !! p = Some x -> exists x', g' !! p = Some x' /\ (x' = x \/ lf x = Alive /\ ph x' = ph x /\ runs x' = runs x)) ->
  (forall p n x, m' !! p = Some n -> g' !! p = Some x ->
     (objs (sh s) !! p = Some n /\ exists x0, gh s !! p = Some x0 /\
        (x = x0 \/ lf x0 = Alive /\ (exists o, lf x = Des o) /\ ph x = ph x0 /\ runs x = runs x0)) \/
     cb_ok (winner s) (ops s) L (__notify_ (sh s)) p n x) ->
  Inv (mkSys (mkShared (__state_ (sh s)) (__callback_ (sh s)) (__notify_ (sh s)) m')
         (<[o := c]> (ops s)) g' (holder s) (winner s)) L.
Proof.
  intros Hs Ho Hh Hw Hop Hdom Hnull HmL Hg Hcb.
  assert (forall o2, is_Some (ops s !! o2) -> o2 <> o) as Hne by (intros o2 [c2 Hc2] ->; congruence).
  assert (holder s <> Some o) as Hho by (intros E%(i_holder _ _ Hs); by apply Hne in E).
  assert (winner s <> Some o) as Hwo by (intros E%(i_winner _ _ Hs); by apply Hne in E).
  constructor; simpl; try done.
  - apply (i_flags _ _ Hs).
  - destruct (i_list _ _ Hs) as [s' Hd]. exists s'. by eapply dseg_agree.
  - apply (i_nodup _ _ Hs).
  - intros o2 c2 [[<- <-]|[Hn2%not_eq_sym H2]]%lookup_insert_Some; [done|].
    eapply (op_ok_frame o); [done|by apply (i_op _ _ Hs)|done|done|by left|by left|].
    intros p x Hx. destruct (Hg p x Hx) as (x' & ? & Hk). exists x'. split; [done|]. unfold keeps. tauto.
  - intros o2 c2 [[<- <-]|[Hn2%not_eq_sym H2]]%lookup_insert_Some; [|by apply (i_holds _ _ Hs)]. rewrite Hh. by split.
  - intros o2 c2 [[<- <-]|[Hn2%not_eq_sym H2]]%lookup_insert_Some; [|by apply (i_wins _ _ Hs)]. rewrite Hw. by split.
  - intros o2 H2. pose proof (i_holder _ _ Hs _ H2) as H3. rewrite lookup_insert_ne; [done|]. by apply not_eq_sym, Hne.
  - intros o2 H2. pose proof (i_winner _ _ Hs _ H2) as H3. rewrite lookup_insert_ne; [done|]. by apply not_eq_sym, Hne.
  - intros p n x Hn Hx.
    assert (cb_ok (winner s) (ops s) L (__notify_ (sh s)) p n x) as [HL Hc].
    { destruct (Hcb p n x Hn Hx) as [(Hn0 & x0 & Hx0 & Hk)|]; [|done].
      pose proof (i_cb _ _ Hs _ _ _ Hn0 Hx0) as [HL Hc].
      destruct Hk as [->|(Hlf & Hdes & Eph & Er)]; [by split|]. unfold cb_ok. rewrite Eph, Er. split; [done|].
      destruct (ph x0); try done; destruct_and?; split_and?; try done;
        repeat match goal with H : exists _, lf _ = _ |- _ => destruct H; congruence end.
      destruct_or?; [by left|]. destruct_and?. match goal with H : exists _, lf _ = _ |- _ => destruct H; congruence end. }
    split; [done|]. destruct (ph x); try done. destruct Hc as (? & ? & ? & (o1 & c1 & ? & Ho1 & ?) & ?).
    split_and!; try done. exists o1, c1. split_and!; try done. rewrite lookup_insert_ne; [done|]. apply not_eq_sym, Hne. eauto.
Qed.

(** The storage of a destroyed object is on no list and no call's business. *)
Lemma Inv_free s L o p :
  Inv s L -> ops s !! o = Some (RmRet p) ->
  Inv (mkSys (mkShared (__state_ (sh s)) (__callback_ (sh s)) (__notify_ (sh s)) (delete p (objs (sh s))))
         (delete o (ops s)) (delete p (gh s)) (holder s) (winner s)) L.
Proof.
  intros Hs Ho. pose proof (i_op _ _ Hs _ _ Ho) as (x & Hx & Hlf & Hph).
  destruct (proj2 (i_dom _ _ Hs p)) as [n Hn]; [eauto|]. pose proof (i_cb _ _ Hs _ _ _ Hn Hx) as [HL Hc].
  assert (holder s <> Some o) as Hho by (intros E; apply (i_holds _ _ Hs _ _ Ho) in E; done).
  assert (winner s <> Some o) as Hwo by (intros E; apply (i_wins _ _ Hs _ _ Ho) in E; done).
  assert (p ∉ L) as HpL by (intros HpL%HL; rewrite HpL in Hph; naive_solver).
  assert (forall o2 c2 q P, o2 <> o -> ops s !! o2 = Some c2 -> is_at (gh s) q P ->
    (q = p -> forall y, P y -> lf y = Con o2 \/ lf y = Des o2 \/ ph y = Current) -> is_at (delete p (gh s)) q P) as Hat.
  { intros o2 c2 q P Hne H2 (y & Hy & HP) Hq. exists y. rewrite lookup_delete_ne; [done|]. intros <-.
    rewrite Hx in Hy. injection Hy as <-. destruct (Hq eq_refl x HP) as [E|[E|E]]; [congruence..|].
    rewrite E in Hph. naive_solver. }
  constructor; simpl; try done.
  - apply (i_flags _ _ Hs).
  - destruct (i_list _ _ Hs) as [s' Hd]. exists s'. eapply dseg_agree; [|done].
    intros y Hy. apply lookup_delete_ne. by intros ->.
  - apply (i_nodup _ _ Hs).
  - intros q. destruct (decide (q = p)) as [->|]; [by rewrite !lookup_delete_eq|].
    rewrite !lookup_delete_ne by done. apply (i_dom _ _ Hs).
  - intros q. destruct (decide (q = p)) as [->|]; [by rewrite lookup_delete_eq; intros []|].
    rewrite lookup_delete_ne by done. apply (i_null _ _ Hs).
  - intros o2 c2 [Hne%not_eq_sym H2]%lookup_delete_Some. pose proof (i_op _ _ Hs _ _ H2) as Hop.
    destruct c2 as [[|q]|[|q] v|[|q]|[|q]|[|q] v|[|q] v| | |q|q|q|q| |[]|q|q|q|q|q|q|q|q v|q v []|q|q];
      simpl in *; destruct_and?; split_and?; try done;
      (eapply Hat; [done..|]; intros ? y Hy; try (by rewrite <- Hy; left); destruct_and?; tauto).
  - intros o2 c2 [Hne H2]%lookup_delete_Some. by apply (i_holds _ _ Hs).
  - intros o2 c2 [Hne H2]%lookup_delete_Some. by apply (i_wins _ _ Hs).
  - intros o2 H2. rewrite lookup_delete_ne by (by intros ->). by apply (i_holder _ _ Hs).
  - intros o2 H2. rewrite lookup_delete_ne by (by intros ->). by apply (i_winner _ _ Hs).
  - intros q m y [Hq Hm]%lookup_delete_Some [_ Hy]%lookup_delete_Some.
    pose proof (i_cb _ _ Hs _ _ _ Hm Hy) as [HLq Hcq]. split; [done|].
    destruct (ph y); try done. destruct Hcq as (? & ? & ? & (o1 & c1 & Hw1 & Ho1 & Hc1) & ?).
    split_and!; try done. exists o1, c1. split_and!; try done. rewrite lookup_delete_ne; [done|]. by intros ->.
Qed.

Lemma Inv_sys_step s s' L : Inv s L -> step s s' -> exists L', Inv s' L'.
Proof.
  intros Hs Hstep. destruct Hstep as [s o Ho|s o p Ho Hp Hn|s o p x n Ho Hx|s o c c' spurious sh' Ho E|s o p Ho].
  - exists L. destruct s as [[st h nt m] O g hd w]. apply (Inv_start _ L o (TryLoad Req) g m Hs); try done; simpl.
    + apply (i_dom _ _ Hs).
    + apply (i_null _ _ Hs).
    + eauto.
    + intros p n x ??. left. eauto.
  - exists L. assert (gh s !! p = None) as Hg.
    { apply eq_None_not_Some. intros Hg%(i_dom _ _ Hs). by rewrite Hn in Hg; destruct Hg. }
    assert (p ∉ L) as HpL.
    { intros HpL. destruct (i_list _ _ Hs) as [s' Hd]. destruct (dseg_in _ _ _ _ _ _ p Hd) as (_ & n & ? & _); [done..|congruence]. }
    apply (Inv_start s L o (TryLoad (Reg p))); try done.
    + eexists. by rewrite lookup_insert_eq.
    + intros q. destruct (decide (q = p)) as [->|]; [rewrite !lookup_insert_eq; split; eauto|].
      rewrite !lookup_insert_ne by done. apply (i_dom _ _ Hs).
    + intros q. destruct (decide (q = p)) as [->|]; [done|]. rewrite lookup_insert_ne by done. apply (i_null _ _ Hs).
    + intros q Hq. apply lookup_insert_ne. by intros ->.
    + intros q y Hy. exists y. rewrite lookup_insert_ne by congruence. eauto.
    + intros q m y. destruct (decide (q = p)) as [->|].
      * rewrite !lookup_insert_eq. intros [= <-] [= <-]. right. split; [by split|]. simpl. eauto 10.
      * rewrite !lookup_insert_ne by done. left. eauto.
  - exists L. destruct (sh s) as [st h nt m] eqn:Esh.
    assert (is_Some (m !! p)) as [nd Hnd] by (pose proof (proj2 (i_dom _ _ Hs p)) as Hd; rewrite Esh in Hd; eauto).
    assert (registered x = true \/ x = Failed) as Hreg.
    { pose proof (fun x => i_cb _ _ Hs p nd x) as Hc. rewrite Esh in Hc. destruct (Hc _ Hnd Hx) as [_ Hcb].
      destruct x; simpl in *; try tauto; destruct_and?; match goal with H : exists _, _ |- _ => by destruct H end. }
    pose proof (Inv_start s L o (RmStart p) (<[p := mkGhost x (Des o) n]> (gh s)) m Hs Ho) as HI.
    rewrite Esh in HI. apply HI; try done.
    + eexists. by rewrite lookup_insert_eq.
    + intros q. pose proof (i_dom _ _ Hs q) as Hd. rewrite Esh in Hd. simpl in Hd. rewrite Hd.
      destruct (decide (q = p)) as [->|]; [rewrite lookup_insert_eq, Hx; split; eauto|by rewrite lookup_insert_ne].
    + intros q. destruct (decide (q = p)) as [->|]; [intros _; apply (i_null _ _ Hs); eauto|].
      rewrite lookup_insert_ne by done. apply (i_null _ _ Hs).
    + intros q y Hy. destruct (decide (q = p)) as [->|].
      * eexists. rewrite lookup_insert_eq. split; [done|]. right. rewrite Hx in Hy. by injection Hy as <-.
      * exists y. rewrite lookup_insert_ne by done. eauto.
    + intros q nq y Hq. destruct (decide (q = p)) as [->|].
      * rewrite lookup_insert_eq. intros [= <-]. left. split; [done|]. eexists. split; [done|]. right. simpl. eauto.
      * rewrite lookup_insert_ne by done. left. eauto.
  - by eapply step_call.
  - exists L. by apply Inv_free.
Qed.

Lemma start_Inv : Inv start [].
Proof.
  constructor; try done; try (by intros ? ? ?); [by exists SHead|constructor|..].
  - intros p. simpl. by rewrite !lookup_empty.
  - by intros p [].
Qed.

Lemma reachable_Inv s : reachable s -> exists L, Inv s L.
Proof.
  intros Hr. apply (invariant_rtc step (fun s => exists L, Inv s L)) with (s := start); [|exists []; apply start_Inv|done].
  intros s1 s2 [L HL] Hstep. by eapply Inv_sys_step.
Qed.

(** ** Consequences *)

(** The object a call works on. *)
Definition touches (c : pc) : option ptr :=
  match c with
  | TryLoad (Reg p) | TryTest (Reg p) _ | TryCas (Reg p)
  | LockLoad (Rem p) | LockTest (Rem p) _ | LockCas (Rem p) _
  | RqUnlock p | RqExec p | RqRun p | RqComplete p
  | RgLink p | RgUnlock p | RgNull p | RgExec p | RgRun p
  | RmStart p | RmUnlink p _ | RmUnlock p _ _ | RmWait p | RmRet p => Some p
  | _ => None
  end.

Lemma touches_ghost g w nt L o c p : op_ok g w nt L o c -> touches c = Some p ->
  is_at g p (fun x => lf x = Con o \/ lf x = Des o \/ current c = Some p /\ ph x = Current).
Proof.
  intros Hop Ht.
  destruct c as [[|q]|[|q] v|[|q]|[|q]|[|q] v|[|q] v| | |q|q|q|q| |[]|q|q|q|q|q|q|q|q v|q v []|q|q];
    simpl in *; simplify_eq; destruct_and?;
    repeat match goal with H : is_at _ _ _ |- _ => destruct H as (x & Hx & Hp) end; exists x; (split; [done|]);
    subst; destruct_and?; try (by left); try (by right; left); right; right; by split.
Qed.

Lemma live_object s L p : Inv s L -> is_Some (gh s !! p) -> p <> nullptr /\ exists n, objs (sh s) !! p = Some n.
Proof. intros Hs Hp. split; [by apply (i_null _ _ Hs)|]. by apply (i_dom _ _ Hs). Qed.

Lemma returns_thread s L o c spurious : Inv s L -> ops s !! o = Some c ->
  returns (thread_step spurious c) (sh s) (fun _ _ => True).
Proof.
  intros Hs Ho. pose proof (i_op _ _ Hs _ _ Ho) as Hop.
  assert (forall p, touches c = Some p -> p <> nullptr /\ exists n, objs (sh s) !! p = Some n) as Hlive.
  { intros p Hp. eapply live_object; [done|]. destruct (touches_ghost _ _ _ _ _ _ _ Hop Hp) as (x & -> & _). eauto. }
  assert (forall A p f (a : A), touches c = Some p -> returns (put_cb p f;; mret a) (sh s) (fun _ _ => True)) as Hput.
  { intros A p f a Hp. destruct (Hlive p Hp) as (? & n & Hn). rstep. eapply returns_put_cb; [done..|]. by rsteps. }
  assert (forall A p (k : cb -> A), touches c = Some p -> returns (x ← get_cb p; mret (k x)) (sh s) (fun _ _ => True)) as Hget.
  { intros A p k Hp. destruct (Hlive p Hp) as (? & n & Hn). rstep. eapply returns_get_cb; [done..|]. by rsteps. }
  assert (forall e d A (k : bool * Z -> A), returns (r ← compare_exchange_weak spurious e d; mret (k r)) (sh s) (fun _ _ => True)) as Hcas.
  { intros e d A k. unfold returns, mbind, M_bind, compare_exchange_weak, get_state, mbind, M_bind, get, mret, M_ret. simpl.
    by case_decide. }
  destruct c; simpl; try done; try (by apply Hput); try (by apply Hget);
    try (unfold returns, mbind, M_bind, compare_exchange_weak, get_state, mbind, M_bind, get, mret, M_ret; simpl; by case_decide).
  - eapply returns_mono; [eapply pop_callback_spec; [apply (i_list _ _ Hs)|apply (i_nodup _ _ Hs)]|done].
  - destruct (Hlive _ eq_refl) as (Hp & n & Hn). destruct Hop as [(x & Hx & <-) _].
    pose proof (i_cb _ _ Hs _ _ _ Hn Hx) as [HL _]. simpl in HL.
    rstep. eapply returns_mono; [eapply link_callback_spec; [apply (i_list _ _ Hs)|apply (i_nodup _ _ Hs)|done|done|by rewrite HL]|].
    intros. by rsteps.
  - destruct (Hlive _ eq_refl) as (Hp & n & Hn). destruct Hop as [(x & Hx & _ & Hr) _].
    pose proof (i_cb _ _ Hs _ _ _ Hn Hx) as [HL Hcb]. destruct (decide (ph x = Linked)) as [E|E].
    + apply HL in E as (L1 & L2 & EL)%list_elem_of_split. eapply returns_mono; [eapply (unlink_callback_spec _ L1 _ L2)|done].
      * rewrite <- EL. apply (i_list _ _ Hs).
      * rewrite <- EL. apply (i_nodup _ _ Hs).
    + eapply returns_mono; [eapply unlink_popped_spec; [done..|]|done]. destruct (ph x); try done; by destruct_and?.
Qed.

(** A call that has the object runs on while the winner is at it. *)
Lemma current_phase s L o c p : Inv s L -> ops s !! o = Some c -> current c = Some p ->
  is_at (gh s) p (fun x => ph x = Current).
Proof.
  intros Hs Ho Hc. pose proof (i_op _ _ Hs _ _ Ho) as Hop.
  destruct c; simpl in *; simplify_eq; destruct Hop as (_ & x & ? & ? & _); by exists x.
Qed.

(** *** A request that meets nobody *)

Fixpoint solo (n : nat) (c : pc) : M shared (list ptr * pc) :=
  match n with
  | O => mret ([], c)
  | S n =>
      c' ← thread_step false c;
      '(l, c'') ← solo n c';
      mret ((match c with RqExec p => [p] | _ => [] end) ++ l, c'')
  end.

Lemma solo_step n c s c' s' l c2 s2 :
  thread_step false c s = Done (c', s') -> solo n c' s' = Done ((l, c2), s2) ->
  solo (S n) c s = Done ((match c with RqExec p => [p] | _ => [] end) ++ l, c2, s2).
Proof. intros E E2. simpl. erewrite run_bind by done. by erewrite run_bind by done. Qed.

Lemma solo_loop L : forall s, dlist (objs s) SHead (__callback_ s) L -> NoDup L -> __notify_ s = true ->
  exists s', solo (8 * length L + 2) RqLoop s = Done ((L, RqRet false), s') /\
    __callback_ s' = nullptr /\ __state_ s' = __stop_requested_flag_ /\ __notify_ s' = true /\
    (forall p, p ∈ L -> exists n, objs s' !! p = Some n /\ __callback_completed_ n = true) /\
    (forall p, p ∉ L -> objs s' !! p = objs s !! p).
Proof.
  induction L as [|x L IH]; intros s Hl Hnd Hnt;
    destruct (proj1 (returns_Done _ _ _) (pop_callback_spec s _ Hl Hnd)) as (c & s1 & E1 & Est & Ent & [_ Hlk] & HL).
  - destruct HL as [-> ->]. eexists. split; [exact (solo_step 1 RqLoop s _ _ [] _ _ E1 eq_refl)|].
    simpl. split_and!; try done; [by apply dlist_nil in Hl|]. intros p Hp. by apply not_elem_of_nil in Hp.
  - destruct HL as (-> & Hl1 & n & Hn & _). apply NoDup_cons in Hnd as [HxL Hnd].
    assert (x <> nullptr) as Hx by (destruct Hl as (? & _ & ? & _); done).
    set (s2 := mkShared __stop_requested_flag_ (__callback_ s1) (__notify_ s1) (objs s1)).
    set (s3 := mkShared __stop_requested_flag_ (__callback_ s1) (__notify_ s1) (<[x := with_completed true n]> (objs s1))).
    set (s4 := mkShared 3 (__callback_ s1) (__notify_ s1) (<[x := with_completed true n]> (objs s1))).
    assert (get_cb x s2 = Done (n, s2)) as Hg.
    { unfold get_cb, on_objs, load. rewrite decide_False by done. simpl. by rewrite Hn. }
    assert (put_cb x (with_completed true) s2 = Done (tt, s3)) as Hput.
    { unfold put_cb, on_objs, update, load, mbind, M_bind. rewrite decide_False by done. simpl. by rewrite Hn. }
    destruct (IH s4) as (s' & E & Hcb & Hst & Hnt' & Hin & Hout); [|done|by rewrite <- Hnt|].
    { destruct Hl1 as [sl Hl1]. exists sl. by apply dseg_insert. }
    exists s'. split_and!; try done.
    + replace (8 * length (x :: L) + 2)%nat with (S (S (S (S (S (S (S (S (8 * length L + 2)))))))))%nat by (simpl; lia).
      change (x :: L) with ([] ++ [] ++ [x] ++ [] ++ [] ++ [] ++ [] ++ [] ++ L).
      eapply (solo_step _ RqLoop); [exact E1|]. eapply (solo_step _ (RqUnlock x) _ _ s2); [reflexivity|].
      eapply (solo_step _ (RqExec x) _ _ s2).
      { cbn [thread_step]. by erewrite run_bind by exact Hg. }
      eapply (solo_step _ (RqRun x)); [reflexivity|]. eapply (solo_step _ (RqComplete x) _ _ s3).
      { cbn [thread_step]. by erewrite run_bind by exact Hput. }
      eapply (solo_step _ (LockLoad Loop)); [reflexivity|]. eapply (solo_step _ (LockTest Loop _)); [reflexivity|].
      eapply (solo_step _ (LockCas Loop _) _ _ s4); [reflexivity|]. exact E.
    + intros p [->|Hp]%elem_of_cons; [|by apply Hin]. exists (with_completed true n).
      rewrite Hout by done. simpl. by rewrite lookup_insert_eq.
    + intros p [Hpx HpL]%not_elem_of_cons. rewrite Hout by done. simpl. rewrite lookup_insert_ne by done. apply Hlk. set_solver.
Qed.

(** ** Properties *)

(** C37: no step of any call ever reads or writes through a null or dangling
    pointer, whatever calls are made and however they interleave: the list and
    the callbacks a call works on are there while it does. *)
Theorem stop_never_faults s o c spurious :
  reachable s -> ops s !! o = Some c ->
  exists c' sh', thread_step spurious c (sh s) = Done (c', sh').
Proof.
  intros [L Hs]%reachable_Inv Ho. destruct (proj1 (returns_Done _ _ _) (returns_thread s L o c spurious Hs Ho))
    as (c' & sh' & E & _). eauto.
Qed.

(** at most one call is between taking and leaving the lock, and one is
    exactly when the lock bit is set; the stop bit is set exactly when some
    request has won, and at most one ever does. *)
Theorem mutual_exclusion s :
  reachable s ->
  (forall o1 o2 c1 c2, ops s !! o1 = Some c1 -> ops s !! o2 = Some c2 ->
     holds c1 = true -> holds c2 = true -> o1 = o2) /\
  (forall o1 o2 c1 c2, ops s !! o1 = Some c1 -> ops s !! o2 = Some c2 ->
     wins c1 = true -> wins c2 = true -> o1 = o2) /\
  (locked_bit (__state_ (sh s)) = true <-> exists o c, ops s !! o = Some c /\ holds c = true) /\
  (stop_bit (__state_ (sh s)) = true <-> exists o c, ops s !! o = Some c /\ wins c = true).
Proof.
  intros [L Hs]%reachable_Inv. rewrite (i_flags _ _ Hs), locked_bit_flags, stop_bit_flags. split_and!.
  - intros o1 o2 c1 c2 H1 H2 E1 E2. pose proof (holder_of _ _ _ _ Hs H1 E1). pose proof (holder_of _ _ _ _ Hs H2 E2). congruence.
  - intros o1 o2 c1 c2 H1 H2 E1 E2. pose proof (winner_of _ _ _ _ Hs H1 E1). pose proof (winner_of _ _ _ _ Hs H2 E2). congruence.
  - split.
    + destruct (holder s) as [o|] eqn:E; [|done]. intros _. destruct (i_holder _ _ Hs _ E) as [c Hc].
      exists o, c. split; [done|]. by apply (i_holds _ _ Hs _ _ Hc).
    + intros (o & c & Hc & E). by rewrite (holder_of _ _ _ _ Hs Hc E).
  - split.
    + destruct (winner s) as [o|] eqn:E; [|done]. intros _. destruct (i_winner _ _ Hs _ E) as [c Hc].
      exists o, c. split; [done|]. by apply (i_wins _ _ Hs _ _ Hc).
    + intros (o & c & Hc & E). by rewrite (winner_of _ _ _ _ Hs Hc E).
Qed.

(** C1: a callback is executed at most once in its life, and only after the
    stop was requested; once the request that won has returned, the list is empty and
    every callback whose constructor has returned and whose destructor has not
    been called was executed exactly once. *)
Theorem callbacks_run_once s :
  reachable s ->
  (forall p x, gh s !! p = Some x -> (runs x <= 1)%nat) /\
  (forall p x, gh s !! p = Some x -> runs x <> 0%nat -> stop_bit (__state_ (sh s)) = true) /\
  (forall o, ops s !! o = Some (RqRet false) -> __callback_ (sh s) = nullptr /\
     forall p x, gh s !! p = Some x -> lf x = Alive -> runs x = 1%nat).
Proof.
  intros [L Hs]%reachable_Inv.
  assert (forall p x, gh s !! p = Some x -> exists n, cb_ok (winner s) (ops s) L (__notify_ (sh s)) p n x) as Hcb.
  { intros p x Hx. destruct (proj2 (i_dom _ _ Hs p)) as [n Hn]; [eauto|]. exists n. by apply (i_cb _ _ Hs). }
  split_and!.
  - intros p x Hx. destruct (Hcb p x Hx) as (n & _ & Hc). destruct (ph x); destruct_and?; destruct_or?; destruct_and?; lia.
  - intros p x Hx Hr. rewrite (i_flags _ _ Hs), stop_bit_flags. destruct (Hcb p x Hx) as (n & _ & Hc).
    destruct (ph x); destruct_and?; try done. match goal with H : exists _ _, _ |- _ => destruct H as (? & ? & -> & _) end. done.
  - intros o Ho. pose proof (i_op _ _ Hs _ _ Ho) as HL. simpl in HL. subst L. split.
    { pose proof (i_list _ _ Hs) as Hd. by apply dlist_nil in Hd. }
    pose proof (winner_of _ _ _ _ Hs Ho eq_refl) as Hw. intros p x Hx Hlf.
    destruct (Hcb p x Hx) as (n & HpL & Hc). rewrite Hlf, Hw in Hc.
    destruct (ph x) eqn:E; destruct_and?; try done;
      repeat match goal with H : exists _, Alive = _ |- _ => by destruct H end.
    + by destruct (not_elem_of_nil p (proj2 HpL eq_refl)).
    + match goal with H : exists _ _, _ |- _ => destruct H as (o1 & c1 & ? & ? & ?) end. by simplify_eq.
    + destruct_or?; [done|]. destruct_and?. match goal with H : exists _, Alive = _ |- _ => by destruct H end.
Qed.

(** C36: when the destructor of a callback returns, no other call has the
    callback in hand or will come across it: it is executed by nobody, waited for by
    nobody and linked nowhere, so that its storage may be reused. *)
Theorem destroyed_is_untouched s o p :
  reachable s -> ops s !! o = Some (RmRet p) ->
  (forall o' c, ops s !! o' = Some c -> touches c = Some p -> o' = o) /\
  __callback_ (sh s) <> p /\
  (forall q n, gh s !! q = Some n -> ph n = Linked -> forall x, objs (sh s) !! q = Some x -> __next_ x <> p).
Proof.
  intros [L Hs]%reachable_Inv Ho. pose proof (i_op _ _ Hs _ _ Ho) as (x & Hx & Hlf & Hph).
  destruct (live_object s L p Hs) as (Hp & n & Hn); [eauto|].
  pose proof (i_cb _ _ Hs _ _ _ Hn Hx) as [HL _].
  assert (p ∉ L) as HpL by (intros E%HL; rewrite E in Hph; naive_solver).
  destruct (i_list _ _ Hs) as [s' Hd]. split_and!.
  - intros o' c Hc Ht. destruct (touches_ghost _ _ _ _ _ _ _ (i_op _ _ Hs _ _ Hc) Ht) as (y & Hy & [E|[E|[_ E]]]);
      simplify_eq; [congruence..|]. rewrite E in Hph. naive_solver.
  - intros E. destruct L as [|y L]; simpl in Hd; [destruct Hd; congruence|]. destruct Hd as (E' & _). set_solver.
  - intros q y Hy Hq z Hz E. destruct (i_cb _ _ Hs _ _ _ Hz Hy) as [HLq _]. apply HLq in Hq.
    apply list_elem_of_split in Hq as (L1 & L2 & ->). apply dseg_app in Hd as (s1 & p1 & _ & (-> & _ & m & Hm & _ & Hd)).
    simplify_eq. destruct L2 as [|y2 L2]; simpl in Hd; [destruct Hd; congruence|]. destruct Hd as (E' & _). set_solver.
Qed.

(** while the request executes a callback, no destructor of that callback
    returns: every one of its steps leaves it short of returning.  In
    particular a destructor called from inside the callback never does. *)
Theorem destructor_waits_for_run s o w p c cw spurious cw' sh' :
  reachable s -> ops s !! o = Some c -> current c = Some p ->
  ops s !! w = Some cw -> touches cw = Some p -> thread_step spurious cw (sh s) = Done (cw', sh') ->
  cw' <> RmRet p /\ (cw = RmWait p -> cw' = RmWait p /\ sh' = sh s).
Proof.
  intros [L Hs]%reachable_Inv Ho Hc Hw Ht E. split.
  - intros ->. destruct (decide (w = o)) as [->|Hne].
    + rewrite Ho in Hw. injection Hw as <-. destruct c; try done; simpl in E; unfold mbind, M_bind in E;
        repeat case_match; by simplify_eq/=.
    + destruct (step_call s L w Hs cw (RmRet p) sh' spurious Hw E) as [L' Hs'].
      destruct (current_phase _ _ o c p Hs') as (x & Hx & Hph); [simpl; by rewrite lookup_insert_ne|done|].
      pose proof (i_op _ _ Hs' w (RmRet p)) as Hop. simpl in Hop. rewrite lookup_insert_eq in Hop.
      destruct (Hop eq_refl) as (y & Hy & _ & Hy'). simpl in Hx. simplify_eq. rewrite Hph in Hy'. naive_solver.
  - intros ->. destruct (current_phase _ _ _ _ _ Hs Ho Hc) as (x & Hx & Hph).
    destruct (live_object s L p Hs) as (Hp & n & Hn); [eauto|].
    pose proof (i_cb _ _ Hs _ _ _ Hn Hx) as [_ Hcb]. rewrite Hph in Hcb. destruct Hcb as (_ & Hd & _).
    simpl in E. erewrite run_bind in E.
    2: { unfold get_cb, on_objs, load. by rewrite decide_False, Hn by done. }
    unfold data in Hd. injection Hd as _ Hd. rewrite Hd in E. injection E as <- <-. split; [done|]. by destruct (sh s).
Qed.

(** a request nobody interferes with executes every registered callback,
    the one registered last first, within a number of steps linear in their
    number, reports that it was the first and leaves the list empty. *)
Theorem request_runs_all_in_order s L :
  __state_ s = __none_flag_ -> dlist (objs s) SHead (__callback_ s) L -> NoDup L ->
  exists s', solo (8 * length L + 6) (TryLoad Req) s = Done ((L, RqRet false), s') /\
    __callback_ s' = nullptr /\ __state_ s' = __stop_requested_flag_ /\
    (forall p, p ∈ L -> exists n, objs s' !! p = Some n /\ __callback_completed_ n = true) /\
    (forall p, p ∉ L -> objs s' !! p = objs s !! p).
Proof.
  intros Hst Hl Hnd. destruct (solo_loop L (mkShared 3 (__callback_ s) true (objs s)) Hl Hnd eq_refl)
    as (s' & E & Hcb & Hst' & _ & Hin & Hout).
  exists s'. split_and!; try done. destruct s as [st h nt m]. simpl in Hst. subst st.
  replace (8 * length L + 6)%nat with (S (S (S (S (8 * length L + 2))))) by lia.
  change L with ([] ++ [] ++ [] ++ [] ++ L) at 2.
  eapply (solo_step _ (TryLoad Req)); [reflexivity|]. eapply (solo_step _ (TryTest Req _)); [reflexivity|].
  eapply (solo_step _ (TryCas Req)); [reflexivity|]. eapply (solo_step _ RqNotify); [reflexivity|]. exact E.
Qed.

(** ** Witnesses *)

Module stop_example.

(** A schedule that can be run. *)
Inductive action :=
  | Request (o : nat)
  | Construct (o : nat) (p : ptr)
  | Destroy (o : nat) (p : ptr)
  | Run (o : nat) (n : nat).

Definition run_one (o : nat) (s : sys) : option sys :=
  match ops s !! o with
  | Some c =>
      match thread_step false c (sh s) with
      | Done (c', sh') => Some (mkSys sh' (<[o := c']> (ops s)) (ghost_step c c' (gh s))
                                  (holder_step o c c' (holder s)) (winner_step o c' (winner s)))
      | Fault _ => None
      end
  | None => None
  end.
Fixpoint run_many (o n : nat) (s : sys) : sys :=
  match n with O => s | S n => match run_one o s with Some s' => run_many o n s' | None => s end end.

Definition act (a : action) (s : sys) : sys :=
  match a with
  | Request o =>
      if decide (ops s !! o = None) then
        mkSys (sh s) (<[o := TryLoad Req]> (ops s)) (gh s) (holder s) (winner s)
      else s
  | Construct o p =>
      match ops s !! o, objs (sh s) !! p with
      | None, None =>
          if decide (p = nullptr) then s
          else mkSys (mkShared (__state_ (sh s)) (__callback_ (sh s)) (__notify_ (sh s))
                        (<[p := mkCb nullptr SNull true false]> (objs (sh s))))
                 (<[o := TryLoad (Reg p)]> (ops s)) (<[p := mkGhost Making (Con o) 0]> (gh s)) (holder s) (winner s)
      | _, _ => s
      end
  | Destroy o p =>
      match ops s !! o, gh s !! p with
      | None, Some (mkGhost x Alive n) =>
          mkSys (sh s) (<[o := RmStart p]> (ops s)) (<[p := mkGhost x (Des o) n]> (gh s)) (holder s) (winner s)
      | _, _ => s
      end
  | Run o n => run_many o n s
  end.

Lemma run_many_steps o n s : rtc step s (run_many o n s).
Proof.
  revert s. induction n as [|n IH]; intros s; simpl; [done|]. unfold run_one.
  destruct (ops s !! o) as [c|] eqn:Ho; [|done]. destruct (thread_step false c (sh s)) as [[c' sh']|] eqn:E; [|done].
  eapply rtc_l; [by eapply step_op|apply IH].
Qed.

Lemma act_steps a s : rtc step s (act a s).
Proof.
  destruct a as [o|o p|o p|o n]; simpl.
  - case_decide; [|done]. by apply rtc_once, step_request.
  - destruct (ops s !! o) eqn:Ho; [done|]. destruct (objs (sh s) !! p) eqn:Hp; [done|].
    case_decide; [done|]. by apply rtc_once, step_construct.
  - destruct (ops s !! o) eqn:Ho; [done|]. destruct (gh s !! p) as [[x [] n]|] eqn:Hp; try done.
    by apply rtc_once, step_destroy.
  - apply run_many_steps.
Qed.

Definition schedule (l : list action) : sys := foldl (fun s a => act a s) start l.
Lemma schedule_reachable l : reachable (schedule l).
Proof.
  assert (forall s, reachable s -> reachable (foldl (fun s a => act a s) s l)) as H; [|by apply H; apply rtc_refl].
  induction l as [|a l IH]; intros s Hs; simpl; [done|]. apply IH. unfold reachable. etrans; [exact Hs|apply act_steps].
Qed.

(** Two callbacks, a request in the middle of executing the second, and a
    destructor waiting for it. *)
Definition actions : list action :=
  [Construct 0 64; Run 0 5; Construct 1 128; Run 1 5; Request 2; Run 2 7; Destroy 3 128; Run 3 6].
Definition busy : sys := schedule actions.
(** The same after the request has returned and so has the destructor. *)
Definition over : sys := schedule (actions ++ [Run 2 20; Run 3 1]).

Lemma stop_never_faults_witness : exists c' sh', thread_step true (RqRun 128) (sh busy) = Done (c', sh').
Proof. apply (stop_never_faults busy 2 (RqRun 128) true); [apply schedule_reachable|reflexivity]. Defined.

Lemma mutual_exclusion_witness :
  stop_bit (__state_ (sh busy)) = true <-> exists o c, ops busy !! o = Some c /\ wins c = true.
Proof. apply (mutual_exclusion busy). apply schedule_reachable. Defined.

Lemma callbacks_run_once_witness :
  ops over !! 2%nat = Some (RqRet false) /\ __callback_ (sh over) = nullptr /\
  (forall p x, gh over !! p = Some x -> lf x = Alive -> runs x = 1%nat) /\
  gh over !! 64 = Some (mkGhost Completed Alive 1).
Proof.
  destruct (callbacks_run_once over (schedule_reachable _)) as (_ & _ & H).
  destruct (H 2%nat) as [H1 H2]; [reflexivity|]. split; [reflexivity|]. split; [exact H1|]. split; [exact H2|reflexivity].
Defined.

Lemma destroyed_is_untouched_witness :
  ops over !! 3%nat = Some (RmRet 128) /\
  forall o' c, ops over !! o' = Some c -> touches c = Some 128 -> o' = 3%nat.
Proof.
  split; [reflexivity|]. apply (destroyed_is_untouched over 3 128 (schedule_reachable _)). reflexivity.
Defined.

Lemma destructor_waits_for_run_witness : exists cw' sh',
  thread_step false (RmWait 128) (sh busy) = Done (cw', sh') /\ cw' <> RmRet 128.
Proof.
  eexists _, _. split; [vm_compute; reflexivity|].
  eapply (destructor_waits_for_run busy 2 3 128 (RqRun 128) (RmWait 128) false);
    [apply schedule_reachable|reflexivity..|vm_compute; reflexivity].
Defined.

Definition registered_two : shared := sh (schedule [Construct 0 64; Run 0 5; Construct 1 128; Run 1 5]).
Lemma request_runs_all_in_order_witness : exists s',
  solo 22 (TryLoad Req) registered_two = Done (([128; 64], RqRet false), s') /\
  __callback_ s' = nullptr /\ __state_ s' = __stop_requested_flag_ /\
  (forall p, p ∈ [128; 64] -> exists n, objs s' !! p = Some n /\ __callback_completed_ n = true) /\
  (forall p, p ∉ [128; 64] -> objs s' !! p = objs registered_two !! p).
Proof.
  apply (request_runs_all_in_order registered_two [128; 64]).
  - reflexivity.
  - eexists. vm_compute. repeat (split; [done|]). eexists. repeat (split; [reflexivity|]).
    split; [done|]. eexists. repeat (split; [reflexivity|]). reflexivity.
  - apply NoDup_cons. split; [set_solver|apply NoDup_singleton].
Defined.
End stop_example.
End stop_source.
