(* ===== verification/StopToken.v ===== *)
(** * [__stop_inplace.hpp]: the token of a stop source

    A [__stop_token] is a pointer to its source, or null.  Module [stop_token] has
    the tokens that exist and the sources of module [stop_source] they may point
    to, and one definition per member function; clients are programs over them. *)

From S2P Require Import Prelude Memory StopSource.

Module stop_token.

Record __stop_token := mkToken { __source_ : ptr }.

(** The tokens, and the sources that are alive. *)
Record store := mkStore { tokens : gmap ptr __stop_token; sources : gmap ptr stop_source.shared }.

Definition on_tokens {A} (c : M (gmap ptr __stop_token) A) : M store A := fun s =>
  match c (tokens s) with
  | Done (a, m) => Done (a, mkStore m (sources s))
  | Fault f => Fault f
  end.
Definition on_source {A} (p : ptr) (c : stop_source.shared -> A) : M store A := fun s =>
  match load p (sources s) with
  | Done (x, _) => Done (c x, s)
  | Fault f => Fault f
  end.

(** [std::exchange(__other.__source_, v)] *)
Definition exchange_source (__other v : ptr) : M store ptr :=
  t ← on_tokens (load __other); on_tokens (update __other (fun _ => mkToken v));; mret (__source_ t).
Definition create (this : ptr) (t : __stop_token) : M store unit := on_tokens (modify <[this := t]>).

Definition construct_default (this : ptr) : M store unit := create this (mkToken nullptr).
Definition construct_copy (this __other : ptr) : M store unit := t ← on_tokens (load __other); create this t.
Definition construct_move (this __other : ptr) : M store unit :=
  v ← exchange_source __other nullptr; create this (mkToken v).
Definition construct (this __src : ptr) : M store unit := create this (mkToken __src).
Definition assign_copy (this __other : ptr) : M store unit :=
  t ← on_tokens (load __other); on_tokens (update this (fun _ => t)).
Definition assign_move (this __other : ptr) : M store unit :=
  v ← exchange_source __other nullptr; on_tokens (update this (fun _ => mkToken v)).
Definition swap (this __other : ptr) : M store unit :=
  t ← on_tokens (load this); v ← exchange_source __other (__source_ t); on_tokens (update this (fun _ => mkToken v)).

Definition source_M_stop_requested (s : stop_source.shared) : bool := stop_source.stop_bit (stop_source.__state_ s).
Definition _M_stop_requested (this : ptr) : M store bool :=
  t ← on_tokens (load this);
  if decide (__source_ t <> nullptr) then on_source (__source_ t) source_M_stop_requested else mret false.
Definition _M_stop_possible (this : ptr) : M store bool :=
  t ← on_tokens (load this); mret (bool_decide (__source_ t <> nullptr)).
Definition equal (a b : ptr) : M store bool :=
  x ← on_tokens (load a); y ← on_tokens (load b); mret (bool_decide (__source_ x = __source_ y)).

(** [__stop_source::_M_get_stop_token] *)
Definition _M_get_stop_token (self this : ptr) : M store unit := construct this self.

(** ** Clients *)

Inductive op :=
  | Default (t : ptr) | Copy (t o : ptr) | Move (t o : ptr) | FromSource (src t : ptr)
  | AssignCopy (t o : ptr) | AssignMove (t o : ptr) | Swap (t o : ptr).

Definition run (o : op) : M store unit :=
  match o with
  | Default t => construct_default t
  | Copy t o => construct_copy t o
  | Move t o => construct_move t o
  | FromSource src t => _M_get_stop_token src t
  | AssignCopy t o => assign_copy t o
  | AssignMove t o => assign_move t o
  | Swap t o => swap t o
  end.

(** What the operations mean: values of variables, where moving from a token
    leaves it without a source unless it is moved to itself. *)
Definition meaning (o : op) (v : ptr -> option ptr) : ptr -> option ptr :=
  match o with
  | Default t => fun x => if decide (x = t) then Some nullptr else v x
  | FromSource src t => fun x => if decide (x = t) then Some src else v x
  | Copy t o | AssignCopy t o => fun x => if decide (x = t) then v o else v x
  | Move t o | AssignMove t o => fun x => if decide (x = t) then v o else if decide (x = o) then Some nullptr else v x
  | Swap t o => fun x => if decide (x = t) then v o else if decide (x = o) then v t else v x
  end.

(** The tokens an operation uses exist, and those it creates do not. *)
Definition allowed (o : op) (s : store) : Prop :=
  match o with
  | Default t => t <> nullptr /\ tokens s !! t = None
  | FromSource src t => t <> nullptr /\ tokens s !! t = None /\ live (sources s) src
  | Copy t o | Move t o => t <> nullptr /\ tokens s !! t = None /\ live (tokens s) o
  | AssignCopy t o | AssignMove t o | Swap t o => live (tokens s) t /\ live (tokens s) o
  end.

Definition value (s : store) (x : ptr) : option ptr := __source_ <$> tokens s !! x.

(** Every token is null or designates a source that is alive. *)
Definition tokens_ok (s : store) : Prop := forall x p, value s x = Some p -> p = nullptr \/ live (sources s) p.

Lemma value_insert m src t k x : value (mkStore (<[t := k]> m) src) x =
  if decide (x = t) then Some (__source_ k) else value (mkStore m src) x.
Proof.
  unfold value. simpl. case_decide as E; [by rewrite E, lookup_insert_eq|by rewrite lookup_insert_ne].
Qed.

(** Running one operation has its meaning and leaves the sources alone. *)
Lemma run_means o s : allowed o s ->
  returns (run o) s (fun _ s' => (forall x, value s' x = meaning o (value s) x) /\ sources s' = sources s).
Proof.
  destruct s as [m src].
  assert (forall {A} (c : M (gmap ptr __stop_token) A) s Q, returns c (tokens s) (fun a m' => Q a (mkStore m' (sources s))) ->
    returns (on_tokens c) s Q) as Hon.
  { intros A c s Q. unfold returns, on_tokens. by destruct (c (tokens s)) as [[]|]. }
  assert (forall p t s Q, p <> nullptr -> tokens s !! p = Some t -> Q t s -> returns (on_tokens (load p)) s Q) as Hload.
  { intros p t [] Q Hp Ht HQ. by eapply Hon, returns_load. }
  assert (forall p f s Q, p <> nullptr -> is_Some (tokens s !! p) ->
    (forall t, tokens s !! p = Some t -> Q tt (mkStore (<[p := f t]> (tokens s)) (sources s))) ->
    returns (on_tokens (update p f)) s Q) as Hupd.
  { intros p f s Q Hp [t Ht] HQ. eapply Hon, returns_update; eauto. }
  destruct o as [t|t o|t o|sp t|t o|t o|t o]; simpl.
  - intros [Ht Hn]. apply Hon, returns_modify. split; [|done]. intros x. by rewrite value_insert.
  - intros (Ht & Hn & Ho & [k Hk]). eapply returns_bind, (Hload _ k); [done..|]. apply Hon, returns_modify. split; [|done].
    intros x. rewrite value_insert. unfold value. simpl. by rewrite Hk.
  - intros (Ht & Hn & Ho & [k Hk]). unfold construct_move, exchange_source.
    eapply returns_bind, returns_bind, (Hload _ k); [done..|]. eapply returns_bind, Hupd; [done|by eexists|].
    intros k' _. apply returns_ret, Hon, returns_modify. split; [|done].
    intros x. rewrite value_insert. cbn [tokens sources]. rewrite value_insert. unfold value. simpl. by rewrite Hk.
  - intros (Ht & Hn & Hsrc). apply Hon, returns_modify. split; [|done]. intros x. by rewrite value_insert.
  - intros [[Ht Hlt] [Ho [k Hk]]]. eapply returns_bind, (Hload _ k); [done..|]. eapply Hupd; [done..|]. intros k' _. split; [|done].
    intros x. rewrite value_insert. unfold value. simpl. by rewrite Hk.
  - intros [[Ht Hlt] [Ho [k Hk]]]. unfold assign_move, exchange_source.
    eapply returns_bind, returns_bind, (Hload _ k); [done..|]. eapply returns_bind, Hupd; [done|by eexists|].
    intros k' _. apply returns_ret, Hupd; [done|by apply lookup_insert_is_Some'; right|]. intros k2 _. split; [|done].
    intros x. cbn [tokens sources]. rewrite !value_insert. unfold value. simpl. by rewrite Hk.
  - intros [[Ht [h Hh]] [Ho [k Hk]]]. unfold swap, exchange_source.
    eapply returns_bind, (Hload _ h); [done..|]. eapply returns_bind, returns_bind, (Hload _ k); [done..|].
    eapply returns_bind, Hupd; [done|by eexists|].
    intros k' _. apply returns_ret, Hupd; [done|by apply lookup_insert_is_Some'; right; eexists|]. intros k2 _. split; [|done].
    intros x. cbn [tokens sources]. rewrite !value_insert. unfold value. simpl. by rewrite Hk, Hh.
Qed.

Lemma tokens_ok_run o s : tokens_ok s -> allowed o s -> returns (run o) s (fun _ s' => tokens_ok s').
Proof.
  intros Hs Ho. eapply returns_mono; [by apply run_means|]. intros _ s' [Hv Hsrc] x p. rewrite Hv, Hsrc.
  destruct o; simpl in *; repeat case_decide; try (intros [= <-]; by auto); try (by apply Hs);
    intros [= <-]; right; apply Ho.
Qed.

(** A token that designates a living source, or none, answers for it. *)
Lemma requested_answers s x p : x <> nullptr -> tokens_ok s -> value s x = Some p ->
  _M_stop_requested x s = Done (match sources s !! p with
    | Some src => bool_decide (p <> nullptr) && source_M_stop_requested src | None => false end, s).
Proof.
  intros Hx Hs Hv. specialize (Hs x p Hv). destruct s as [m src]. unfold value in Hv. simpl in *.
  destruct (m !! x) as [t|] eqn:Ht; [|done]. injection Hv as <-.
  unfold _M_stop_requested, mbind, M_bind, on_tokens, load. simpl. rewrite decide_False, Ht by done.
  destruct Hs as [->|[Hp [y Hy]]].
  - rewrite decide_False by tauto. rewrite bool_decide_eq_false_2 by tauto. by destruct (src !! nullptr).
  - rewrite decide_True by done. unfold on_source, load. simpl. rewrite decide_False, Hy by done.
    by rewrite bool_decide_eq_true_2.
Qed.

(** A token of a source that has been asked to stop, moved twice and swapped. *)
Example token_example :
  (_M_get_stop_token 8 64;; construct_default 128;; assign_move 128 64;; assign_move 128 128;; swap 64 128;;
   a ← _M_stop_requested 64; b ← _M_stop_possible 128; c ← equal 64 128; mret (a, b, c))
    (mkStore ∅ {[8 := stop_source.mkShared 1 nullptr true ∅]}) =
  Done ((true, false, false), mkStore (<[64 := mkToken 8]> {[128 := mkToken nullptr]})
    {[8 := stop_source.mkShared 1 nullptr true ∅]}).
Proof. by vm_compute. Qed.
End stop_token.
