(* ===== verification/MpscQueue.v ===== *)
(** * [__intrusive_mpsc_queue.hpp]: many producers, one consumer

    An unbounded queue whose producers exchange the head and then link the node
    they found there to their own, so that for a moment the chain has a gap; the
    consumer follows the links from the tail and puts a stub node back when it
    has to.  Atomics are sequentially consistent.  Module [mpsc_queue] models [_M_push_back] and [_M_pop_front] as a
    machine with one step per access to shared memory; the client allocates
    nodes, pushes nodes it owns, and owns (and may free) what is popped. *)

From S2P Require Import Prelude.

Module mpsc_queue.

(** ** Data *)

(** [next] is the member [_Next] of every node that exists, [stub] the address
    of [__stub_]; [__tail_] belongs to the consumer. *)
Record shared := mkShared { next : gmap ptr ptr; __head_ : ptr; __tail_ : ptr }.

Section code.
Context (stub : ptr).

(** The constructor. *)
Definition init_shared : shared := mkShared {[stub := nullptr]} stub stub.

Definition load_next (p : ptr) (s : shared) : option ptr := if decide (p = nullptr) then None else next s !! p.
Definition store_next (p v : ptr) (s : shared) : option shared :=
  _ ← load_next p s; Some (mkShared (<[p := v]> (next s)) (__head_ s) (__tail_ s)).
Definition exchange_head (p : ptr) (s : shared) : ptr * shared :=
  (__head_ s, mkShared (next s) p (__tail_ s)).
Definition set_tail (p : ptr) (s : shared) : shared := mkShared (next s) (__head_ s) p.

(** ** [_M_push_back], at each access; [None] is a fault *)
Inductive ppc :=
  | PClear (x : ptr)
  | PExchange (x : ptr)
  | PLink (__prev x : ptr)
  | PRet (was_stub : bool).

Definition push_step (c : ppc) (s : shared) : option (ppc * shared) :=
  match c with
  | PClear x => s ← store_next x nullptr s; Some (PExchange x, s)
  | PExchange x => let '(__prev, s) := exchange_head x s in Some (PLink __prev x, s)
  | PLink __prev x => s ← store_next __prev x s; Some (PRet (bool_decide (__prev = stub)), s)
  | PRet b => Some (PRet b, s)
  end.

(** ** [_M_pop_front]; the push of the stub is inlined *)
Inductive cpc :=
  | CIdle
  | CStart
  | CSecond (__tail : ptr)
  | CTest (__tail __next : ptr)
  | CHead (__tail : ptr)
  | CClear (__tail : ptr)
  | CExchange (__tail : ptr)
  | CLink (__tail __prev : ptr)
  | CAgain (__tail : ptr)
  | CRet (__result : ptr).

Definition pop_step (c : cpc) (s : shared) : option (cpc * shared) :=
  match c with
  | CIdle => Some (CIdle, s)
  | CStart =>
      let __tail := __tail_ s in
      __next ← load_next __tail s;
      if decide (stub = __tail) then
        if decide (nullptr = __next) then Some (CRet nullptr, s)
        else Some (CSecond __next, set_tail __next s)
      else Some (CTest __tail __next, s)
  | CSecond __tail => __next ← load_next __tail s; Some (CTest __tail __next, s)
  | CTest __tail __next =>
      if decide (nullptr <> __next) then Some (CRet __tail, set_tail __next s)
      else Some (CHead __tail, s)
  | CHead __tail =>
      if decide (__tail <> __head_ s) then Some (CRet nullptr, s) else Some (CClear __tail, s)
  | CClear __tail => s ← store_next stub nullptr s; Some (CExchange __tail, s)
  | CExchange __tail => let '(__prev, s) := exchange_head stub s in Some (CLink __tail __prev, s)
  | CLink __tail __prev => s ← store_next __prev stub s; Some (CAgain __tail, s)
  | CAgain __tail =>
      __next ← load_next __tail s;
      if decide (nullptr <> __next) then Some (CRet __tail, set_tail __next s)
      else Some (CRet nullptr, s)
  | CRet p => Some (CRet p, s)
  end.

(** ** The system

    [owned] are the nodes the client may use; the ghosts [pushed] and [popped]
    list the nodes in the order of the exchanges and of the pops. *)
Record sys := mkSys {
  sh : shared;
  prods : gmap nat ppc;
  cons : cpc;
  owned : gset ptr;
  pushed : list ptr;
  popped : list ptr
}.

Definition exchanged (c : ppc) : list ptr := match c with PExchange x => [x] | _ => [] end.

(** The node a step of the consumer decides to return. *)
Definition taken (c c' : cpc) : list ptr :=
  match c, c' with
  | CTest _ _, CRet p | CAgain _, CRet p => if decide (p = nullptr) then [] else [p]
  | _, _ => []
  end.

Inductive step : sys -> sys -> Prop :=
  | step_new s x : next (sh s) !! x = None -> x <> nullptr ->
      step s (mkSys (mkShared (<[x := nullptr]> (next (sh s))) (__head_ (sh s)) (__tail_ (sh s)))
        (prods s) (cons s) ({[x]} ∪ owned s) (pushed s) (popped s))
  | step_free s x : x ∈ owned s ->
      step s (mkSys (mkShared (delete x (next (sh s))) (__head_ (sh s)) (__tail_ (sh s)))
        (prods s) (cons s) (owned s ∖ {[x]}) (pushed s) (popped s))
  | step_push s o x : prods s !! o = None -> x ∈ owned s ->
      step s (mkSys (sh s) (<[o := PClear x]> (prods s)) (cons s) (owned s ∖ {[x]}) (pushed s) (popped s))
  | step_producer s o c c' h : prods s !! o = Some c -> push_step c (sh s) = Some (c', h) ->
      step s (mkSys h (<[o := c']> (prods s)) (cons s) (owned s) (pushed s ++ exchanged c) (popped s))
  | step_pop s : cons s = CIdle ->
      step s (mkSys (sh s) (prods s) CStart (owned s) (pushed s) (popped s))
  | step_consumer s c' h : pop_step (cons s) (sh s) = Some (c', h) ->
      step s (mkSys h (prods s) c' (owned s) (pushed s) (popped s ++ taken (cons s) c'))
  | step_return s p : cons s = CRet p ->
      step s (mkSys (sh s) (prods s) CIdle
        (if decide (p = nullptr) then owned s else {[p]} ∪ owned s) (pushed s) (popped s)).

Definition init : sys := mkSys init_shared ∅ CIdle ∅ [] [].
Definition reachable (s : sys) : Prop := rtc step init s.

(** ** The chain from the tail to the head

    [adj l a b]: [b] follows [a] in [l]. *)
Definition adj (l : list ptr) (a b : ptr) : Prop := exists l1 l2, l = l1 ++ a :: b :: l2.

Lemma adj_cons t n r a b : adj (t :: n :: r) a b <-> a = t /\ b = n \/ adj (n :: r) a b.
Proof.
  split.
  - intros ([|x l1] & l2 & E); simplify_eq/=; [by left|right]. by exists l1, l2.
  - intros [[-> ->]|(l1 & l2 & E)]; [by exists [], r|]. exists (t :: l1), l2. by rewrite E.
Qed.

Lemma adj_single t a b : ~ adj [t] a b.
Proof. by intros ([|? [|]] & l2 & E). Qed.

Lemma adj_snoc l z x a b : adj ((l ++ [z]) ++ [x]) a b <-> adj (l ++ [z]) a b \/ a = z /\ b = x.
Proof.
  induction l as [|y [|y' l] IH]; simpl in *.
  - rewrite adj_cons. pose proof (adj_single z a b). pose proof (adj_single x a b). tauto.
  - rewrite !(adj_cons y z). rewrite IH. tauto.
  - rewrite !(adj_cons y y'). rewrite IH. tauto.
Qed.

Lemma adj_elem l a b : adj l a b -> a ∈ l /\ b ∈ l.
Proof. intros (l1 & l2 & ->). rewrite !elem_of_app, !elem_of_cons. tauto. Qed.

Lemma adj_fun l a b b' : NoDup l -> adj l a b -> adj l a b' -> b = b'.
Proof.
  intros Hl (l1 & l2 & ->) (k1 & k2 & E). revert k1 E. induction l1 as [|x l1 IH]; intros [|y k1] E;
    simpl in *; [by simplify_eq|injection E as -> E; apply NoDup_cons in Hl as [Hx Hl]..].
  - exfalso. apply Hx. rewrite E, elem_of_app. right. by left.
  - exfalso. apply Hx. rewrite elem_of_app. right. by left.
  - by apply (IH Hl k1).
Qed.

Lemma adj_last l a b z : NoDup l -> last l = Some z -> adj l a b -> a <> z.
Proof.
  intros Hl Hz (l1 & l2 & ->) ->. apply last_Some in Hz as [k E].
  apply NoDup_app in Hl as (_ & _ & Hl). apply NoDup_cons in Hl as [Hl _]. apply Hl.
  destruct l2 as [|y l2] using rev_ind.
  - replace (l1 ++ [z; b]) with ((l1 ++ [z]) ++ [b]) in E by by rewrite <- app_assoc.
    apply app_inj_tail in E as [_ ->]. by left.
  - rewrite app_comm_cons, app_comm_cons, app_assoc in E. apply app_inj_tail in E as [_ ->].
    right. apply elem_of_app. right. by left.
Qed.

(** [L a b]: the link from [a] to [b] is still to be written. *)
Definition shape (m : gmap ptr ptr) (hd tl : ptr) (seg : list ptr) (L : ptr -> ptr -> Prop) : Prop :=
  NoDup seg /\ head seg = Some tl /\ last seg = Some hd /\
  (forall x, x ∈ seg -> x <> nullptr /\ is_Some (m !! x)) /\ m !! hd = Some nullptr /\
  (forall a b, adj seg a b -> m !! a = Some b \/ m !! a = Some nullptr /\ L a b) /\
  (forall a b, L a b -> adj seg a b /\ m !! a = Some nullptr).

Lemma shape_agree m m' hd tl seg L : shape m hd tl seg L -> (forall y, y ∈ seg -> m' !! y = m !! y) ->
  shape m' hd tl seg L.
Proof.
  intros (Hnd & Ht & Hl & Hlive & He & Hk & HL) E. split_and!; [done..| | | |].
  - intros y Hy. rewrite E by done. by apply Hlive.
  - rewrite E; [done|]. by apply last_Some_elem_of.
  - intros a b Hab. rewrite E by by apply adj_elem in Hab as [? _]. by apply Hk.
  - intros a b Hab. destruct (HL a b Hab) as [Ha ?]. rewrite E by by apply adj_elem in Ha as [? _]. done.
Qed.

Lemma shape_iff m hd tl seg L L' : shape m hd tl seg L -> (forall a b, L' a b <-> L a b) -> shape m hd tl seg L'.
Proof.
  intros (? & ? & ? & ? & ? & Hk & HL) E. split_and!; try done.
  - intros a b Hab. rewrite E. by apply Hk.
  - intros a b. rewrite E. apply HL.
Qed.

Lemma shape_push m hd tl seg L x : shape m hd tl seg L -> x ∉ seg -> x <> nullptr -> m !! x = Some nullptr ->
  shape m x tl (seg ++ [x]) (fun a b => L a b \/ a = hd /\ b = x).
Proof.
  intros (Hnd & Ht & Hl & Hlive & He & Hk & HL) Hx Hx0 Hm.
  apply last_Some in Hl as [l ->]. split_and!.
  - apply NoDup_app. split_and!; [done|intros y Hy ->%list_elem_of_singleton; done|apply NoDup_singleton].
  - destruct l; simpl in *; done.
  - by rewrite last_snoc.
  - intros y [Hy| ->%list_elem_of_singleton]%elem_of_app; [by apply Hlive|]. by rewrite Hm.
  - done.
  - intros a b [Hab|[-> ->]]%adj_snoc; [|right; auto]. destruct (Hk a b Hab) as [?|[??]]; auto.
  - intros a b [Hab|[-> ->]]; [destruct (HL a b Hab)|]; (split; [apply adj_snoc; auto|done]).
Qed.

Lemma shape_link m hd tl seg L a b : shape m hd tl seg L -> L a b ->
  shape (<[a := b]> m) hd tl seg (fun a' b' => L a' b' /\ a' <> a).
Proof.
  intros (Hnd & Ht & Hl & Hlive & He & Hk & HL) Hab. destruct (HL a b Hab) as [Hadj Hm].
  split_and!; [done..| | | |].
  - intros y Hy. destruct (Hlive y Hy). destruct (decide (a = y)) as [<-|]; simplify_map_eq; eauto.
  - rewrite lookup_insert_ne; [done|]. by eapply adj_last.
  - intros a' b' Hab'. destruct (decide (a' = a)) as [->|Hne].
    + left. rewrite lookup_insert_eq. f_equal. by eapply adj_fun.
    + rewrite lookup_insert_ne by done. destruct (Hk a' b' Hab') as [?|[??]]; auto.
  - intros a' b' [Hab' Hne]. rewrite lookup_insert_ne by done. by apply HL.
Qed.

Lemma shape_head m hd tl seg L : shape m hd tl seg L -> exists r, seg = tl :: r.
Proof. intros (_ & Ht & _). destruct seg as [|x r]; [done|]. simpl in Ht. simplify_eq. eauto. Qed.

Lemma shape_next m hd t seg L n : shape m hd t seg L -> m !! t = Some n -> n <> nullptr ->
  exists r, seg = t :: n :: r /\ shape m hd n (n :: r) L.
Proof.
  intros Hs Hn Hn0. destruct (shape_head _ _ _ _ _ Hs) as [r ->].
  destruct Hs as (Hnd & _ & Hl & Hlive & He & Hk & HL). destruct r as [|n' r].
  { simpl in Hl. by simplify_eq. }
  assert (n' = n) as ->.
  { destruct (Hk t n') as [E|[E _]]; [apply adj_cons; by left|congruence..]. }
  exists r. split; [done|]. split_and!; [by apply NoDup_cons in Hnd as [_ ?]|done|done| |done| |].
  - intros x Hx. apply Hlive. by right.
  - intros a b Hab. apply Hk. apply adj_cons. by right.
  - intros a b Hab. destruct (HL a b Hab) as [Ha E]. apply adj_cons in Ha as [[-> ->]|?]; [congruence|done].
Qed.

(** An unlinked tail is alone or its link is on its way. *)
Lemma shape_null m hd t seg L : shape m hd t seg L -> m !! t = Some nullptr -> seg = [t] \/ exists b, L t b.
Proof.
  intros Hs Hn. destruct (shape_head _ _ _ _ _ Hs) as [r ->].
  destruct Hs as (Hnd & _ & Hl & Hlive & He & Hk & HL). destruct r as [|n' r]; [by left|right].
  exists n'. destruct (Hk t n') as [E|[_ E]]; [apply adj_cons; by left| |done].
  destruct (Hlive n') as [? _]; [right; by left|congruence].
Qed.

Lemma shape_tail m hd t seg L : shape m hd t seg L -> t ∈ seg.
Proof. intros [r ->]%shape_head. by left. Qed.

Lemma shape_link_null m hd t seg L a b : shape m hd t seg L -> L a b -> a ∈ seg /\ m !! a = Some nullptr.
Proof. intros (_ & _ & _ & _ & _ & _ & HL) [Ha ?]%HL. by apply adj_elem in Ha as [? _]. Qed.

Lemma shape_link_fun m hd t seg L a b b' : shape m hd t seg L -> L a b -> L a b' -> b = b'.
Proof.
  intros (Hnd & _ & _ & _ & _ & _ & HL) [Ha _]%HL [Hb _]%HL. by eapply adj_fun.
Qed.

Lemma shape_link_head m hd t seg L a b : shape m hd t seg L -> L a b -> a <> hd.
Proof. intros (Hnd & _ & Hl & _ & _ & _ & HL) [Ha _]%HL. by eapply adj_last. Qed.

Lemma shape_live m hd t seg L x : shape m hd t seg L -> x ∈ seg -> x <> nullptr /\ is_Some (m !! x).
Proof. intros (_ & _ & _ & Hlive & _). apply Hlive. Qed.

Lemma shape_single m hd t seg L : shape m hd t seg L -> t = hd -> seg = [t].
Proof.
  intros Hs <-. destruct (shape_head _ _ _ _ _ Hs) as [[|n r] ->]; [done|].
  destruct Hs as ([Ht _]%NoDup_cons & _ & Hl & _). destruct Ht. simpl in Hl. by apply last_Some_elem_of.
Qed.

(** ** Who has a node outside the chain, and who has a link to write *)
Inductive place := Client | Producer (o : nat) | Consumer.

Definition away (s : sys) (k : place) (x : ptr) : Prop :=
  match k with
  | Client => x ∈ owned s
  | Producer o => prods s !! o = Some (PClear x) \/ prods s !! o = Some (PExchange x)
  | Consumer => cons s = CRet x /\ x <> nullptr
  end.

Definition pend (s : sys) (k : place) (a b : ptr) : Prop :=
  match k with
  | Client => False
  | Producer o => prods s !! o = Some (PLink a b)
  | Consumer => exists t, cons s = CLink t a /\ b = stub
  end.

Definition linking (s : sys) (a b : ptr) : Prop := exists k, pend s k a b.

Definition cons_ok (c : cpc) (h : shared) (seg : list ptr) : Prop :=
  match c with
  | CIdle | CStart | CRet _ => True
  | CSecond t | CHead t | CLink t _ | CAgain t => t = __tail_ h /\ t <> stub
  | CTest t n => t = __tail_ h /\ t <> stub /\ (n <> nullptr -> next h !! t = Some n)
  | CClear t => t = __tail_ h /\ t <> stub /\ stub ∉ seg
  | CExchange t => t = __tail_ h /\ t <> stub /\ stub ∉ seg /\ next h !! stub = Some nullptr
  end.

Record inv (s : sys) (seg : list ptr) : Prop := {
  inv_shape : shape (next (sh s)) (__head_ (sh s)) (__tail_ (sh s)) seg (linking s);
  inv_stub : stub <> nullptr /\ is_Some (next (sh s) !! stub);
  inv_away : forall k x, away s k x -> x <> stub /\ x <> nullptr /\ is_Some (next (sh s) !! x) /\ x ∉ seg;
  inv_excl : forall k k' x, away s k x -> away s k' x -> k = k';
  inv_clean : forall o x, prods s !! o = Some (PExchange x) -> next (sh s) !! x = Some nullptr;
  inv_pend : forall k k' a b b', pend s k a b -> pend s k' a b' -> k = k';
  inv_cons : cons_ok (cons s) (sh s) seg;
  inv_fifo : pushed s = popped s ++ filter (fun x => x <> stub) seg
}.

Lemma cons_ok_mono c h h' seg seg' : cons_ok c h seg -> __tail_ h' = __tail_ h ->
  (forall n, n <> nullptr -> next h !! __tail_ h = Some n -> next h' !! __tail_ h = Some n) ->
  (stub ∉ seg -> stub ∉ seg' /\ (next h !! stub = Some nullptr -> next h' !! stub = Some nullptr)) ->
  cons_ok c h' seg'.
Proof.
  intros Hc Et En Es. destruct c; simpl in *; rewrite ?Et; try done.
  - destruct Hc as (-> & ? & Hn). split_and!; auto.
  - destruct Hc as (-> & ? & [? _]%Es). done.
  - destruct Hc as (-> & ? & [??]%Es & ?). split_and!; auto.
Qed.

Lemma mpsc_inv_init : stub <> nullptr -> inv init [stub].
Proof.
  intros Hs. split; simpl.
  - split_and!; [apply NoDup_singleton|done|done| | | |].
    + intros x ->%list_elem_of_singleton. split; [done|]. by rewrite lookup_singleton_eq.
    + by rewrite lookup_singleton_eq.
    + by intros a b ?%adj_single.
    + intros a b [[|o|] Hk]; simpl in Hk; [done|by rewrite lookup_empty in Hk|by destruct Hk as (? & ? & _)].
  - split; [done|]. by rewrite lookup_singleton_eq.
  - intros [|o|] x; simpl; [set_solver|rewrite lookup_empty; naive_solver|naive_solver].
  - intros [|o|] k' x; simpl; [set_solver|rewrite lookup_empty; naive_solver|naive_solver].
  - intros o x. by rewrite lookup_empty.
  - intros [|o|] k' a b b'; simpl; [done|by rewrite lookup_empty|naive_solver].
  - done.
  - rewrite filter_cons_False by (by intros ?). done.
Qed.

Lemma linking_iff s s' : (forall k a b, pend s' k a b <-> pend s k a b) ->
  forall a b, linking s' a b <-> linking s a b.
Proof. intros E a b. split; intros [k Hk]; exists k; by apply E. Qed.

(** *** The client's steps *)
Lemma inv_new s seg x : inv s seg -> next (sh s) !! x = None -> x <> nullptr ->
  inv (mkSys (mkShared (<[x := nullptr]> (next (sh s))) (__head_ (sh s)) (__tail_ (sh s)))
        (prods s) (cons s) ({[x]} ∪ owned s) (pushed s) (popped s)) seg.
Proof.
  intros [Hsh [Hs0 Hs] Ha Hex Hcl Hp Hc Hf] Hx Hx0.
  assert (forall y, is_Some (next (sh s) !! y) -> <[x := nullptr]> (next (sh s)) !! y = next (sh s) !! y) as E.
  { intros y [v Hv]. apply lookup_insert_ne. congruence. }
  assert (forall y, y ∈ seg -> is_Some (next (sh s) !! y)) as Hlive by (intros; by eapply shape_live).
  assert (x ∉ seg) as Hxs by (intros Hin; destruct (Hlive x Hin); congruence).
  assert (forall k, ~ away s k x) as Hnew.
  { intros k Hk. destruct (Ha k x Hk) as (_ & _ & [v Hv] & _). congruence. }
  split; simpl; try done.
  - eapply shape_iff; [|by apply linking_iff]. eapply shape_agree; [done|]. intros y Hy. by apply E, Hlive.
  - rewrite E by done. done.
  - assert (forall k y, away s k y -> y <> stub /\ y <> nullptr /\
        is_Some (<[x := nullptr]> (next (sh s)) !! y) /\ y ∉ seg) as Hk.
    { intros k y Hk. destruct (Ha k y Hk) as (? & ? & Hy & ?). rewrite E by done. done. }
    intros [|o|] y; simpl.
    + intros [->%elem_of_singleton|Hy]%elem_of_union; [|by apply (Hk Client)].
      rewrite lookup_insert_eq. split_and!; [|done..]. intros ->. destruct Hs. congruence.
    + apply (Hk (Producer o)).
    + apply (Hk Consumer).
  - assert (forall k y, away (mkSys (mkShared (<[x := nullptr]> (next (sh s))) (__head_ (sh s)) (__tail_ (sh s)))
        (prods s) (cons s) ({[x]} ∪ owned s) (pushed s) (popped s)) k y -> away s k y \/ k = Client /\ y = x) as Hk.
    { intros [|o|] y; simpl; set_solver. }
    intros k k' y [H1|[-> E1]]%Hk [H2|[-> E2]]%Hk; subst; [by eapply Hex|by destruct (Hnew k)|by destruct (Hnew k')|done].
  - intros o y Hy. rewrite E; [by eapply Hcl|]. apply (Ha (Producer o)). by right.
  - eapply cons_ok_mono; [done|done| |].
    + intros n _ Hn. simpl. rewrite E; [done|]. by rewrite Hn.
    + intros ?. split; [done|]. intros Hn. simpl. by rewrite E.
Qed.

Lemma inv_free s seg x : inv s seg -> x ∈ owned s ->
  inv (mkSys (mkShared (delete x (next (sh s))) (__head_ (sh s)) (__tail_ (sh s)))
        (prods s) (cons s) (owned s ∖ {[x]}) (pushed s) (popped s)) seg.
Proof.
  intros [Hsh [Hs0 Hs] Ha Hex Hcl Hp Hc Hf] Hx. destruct (Ha Client x Hx) as (Hxs & Hx0 & Hxl & Hxseg).
  assert (forall k y, away (mkSys (mkShared (delete x (next (sh s))) (__head_ (sh s)) (__tail_ (sh s)))
        (prods s) (cons s) (owned s ∖ {[x]}) (pushed s) (popped s)) k y -> y <> x /\ away s k y) as Hk.
  { intros [|o|] y; simpl.
    - set_solver.
    - intros Hy. split; [|done]. intros ->. by specialize (Hex Client (Producer o) x Hx Hy).
    - intros Hy. split; [|done]. intros ->. by specialize (Hex Client Consumer x Hx Hy). }
  assert (forall y, y <> x -> delete x (next (sh s)) !! y = next (sh s) !! y) as E.
  { intros y Hy. by apply lookup_delete_ne. }
  split; simpl; try done.
  - eapply shape_iff; [|by apply linking_iff]. eapply shape_agree; [done|]. intros y Hy. apply E. by intros ->.
  - rewrite E by done. done.
  - intros k y [Hy Hky]%Hk. rewrite E by done. by apply (Ha k).
  - intros k k' y [_ H1]%Hk [_ H2]%Hk. by eapply Hex.
  - intros o y Hy. rewrite E; [by eapply Hcl|]. by apply (Hk (Producer o)); right.
  - apply shape_tail in Hsh as Ht. eapply cons_ok_mono; [done|done| |].
    + intros n _ Hn. simpl. rewrite E; [done|]. by intros <-.
    + intros ?. split; [done|]. intros Hn. simpl. by rewrite E.
Qed.

Lemma inv_push s seg o x : inv s seg -> prods s !! o = None -> x ∈ owned s ->
  inv (mkSys (sh s) (<[o := PClear x]> (prods s)) (cons s) (owned s ∖ {[x]}) (pushed s) (popped s)) seg.
Proof.
  intros [Hsh [Hs0 Hs] Ha Hex Hcl Hp Hc Hf] Ho Hx.
  set (s' := mkSys _ _ _ _ _ _).
  assert (forall k y, away s' k y -> k = Producer o /\ y = x \/ away s k y /\ y <> x) as Hk.
  { intros [|o'|] y; simpl.
    - set_solver.
    - destruct (decide (o = o')) as [<-|Hne]; [rewrite lookup_insert_eq; naive_solver|].
      rewrite lookup_insert_ne by done. intros Hy. right. split; [done|]. intros ->.
      by specialize (Hex Client (Producer o') x Hx Hy).
    - intros Hy. right. split; [done|]. intros ->. by specialize (Hex Client Consumer x Hx Hy). }
  assert (forall k a b, pend s' k a b <-> pend s k a b) as Hpk.
  { intros [|o'|] a b; simpl; [done| |done]. destruct (decide (o = o')) as [<-|Hne].
    - rewrite lookup_insert_eq, Ho. naive_solver.
    - by rewrite lookup_insert_ne. }
  split; try done.
  - eapply shape_iff; [done|by apply linking_iff].
  - intros k y [[-> ->]|[Hy _]]%Hk; [by apply (Ha Client)|by apply (Ha k)].
  - intros k k' y [[-> ->]|[H1 ?]]%Hk [[-> ?]|[H2 ?]]%Hk; try done. by eapply Hex.
  - simpl. intros o' y [[_ ?]|[_ ?]]%lookup_insert_Some; [done|]. by apply (Hcl o').
  - intros k k' a b b'. rewrite !Hpk. apply Hp.
Qed.

(** *** A producer's steps *)
Lemma away_upd s h o c pu po k y : away (mkSys h (<[o := c]> (prods s)) (cons s) (owned s) pu po) k y <->
  k = Producer o /\ (c = PClear y \/ c = PExchange y) \/ k <> Producer o /\ away s k y.
Proof.
  destruct k as [|o'|]; simpl; [naive_solver| |naive_solver].
  destruct (decide (o = o')) as [<-|Hne]; [rewrite lookup_insert_eq|rewrite lookup_insert_ne by done]; naive_solver.
Qed.

Lemma pend_upd s h o c pu po k a b : pend (mkSys h (<[o := c]> (prods s)) (cons s) (owned s) pu po) k a b <->
  k = Producer o /\ c = PLink a b \/ k <> Producer o /\ pend s k a b.
Proof.
  destruct k as [|o'|]; simpl; [naive_solver| |naive_solver].
  destruct (decide (o = o')) as [<-|Hne]; [rewrite lookup_insert_eq|rewrite lookup_insert_ne by done]; naive_solver.
Qed.

Lemma inv_clear s seg o x : inv s seg -> prods s !! o = Some (PClear x) ->
  inv (mkSys (mkShared (<[x := nullptr]> (next (sh s))) (__head_ (sh s)) (__tail_ (sh s)))
        (<[o := PExchange x]> (prods s)) (cons s) (owned s) (pushed s) (popped s)) seg.
Proof.
  intros [Hsh [Hs0 Hs] Ha Hex Hcl Hp Hc Hf] Ho.
  destruct (Ha (Producer o) x (or_introl Ho)) as (Hxs & Hx0 & Hxl & Hxseg).
  assert (forall y, y <> x -> <[x := nullptr]> (next (sh s)) !! y = next (sh s) !! y) as E.
  { intros y Hy. by apply lookup_insert_ne. }
  assert (forall y, is_Some (next (sh s) !! y) -> is_Some (<[x := nullptr]> (next (sh s)) !! y)) as El.
  { intros y Hy. apply lookup_insert_is_Some'. by right. }
  set (s' := mkSys _ _ _ _ _ _).
  assert (forall k y, away s' k y -> away s k y) as Hk.
  { intros k y. unfold s'. rewrite away_upd. intros [[-> [?|?]]|[_ ?]]; [done| |done]. simplify_eq. by left. }
  assert (forall k a b, pend s' k a b <-> pend s k a b) as Hpk.
  { intros k a b. unfold s'. rewrite pend_upd. split; [naive_solver|]. intros Hk'. right. split; [|done].
    intros ->. simpl in Hk'. congruence. }
  split; try done.
  - eapply shape_iff; [|by apply linking_iff].
    eapply shape_agree; [done|]. intros y Hy. apply E. by intros ->.
  - split; [done|]. by apply El.
  - intros k y Hy%Hk. destruct (Ha k y Hy) as (? & ? & ? & ?). split_and!; try done. by apply El.
  - intros k k' y H1%Hk H2%Hk. by eapply Hex.
  - simpl. intros o' y [[<- ?]|[? Hy]]%lookup_insert_Some; [simplify_eq; by rewrite lookup_insert_eq|].
    destruct (decide (y = x)) as [->|]; [by rewrite lookup_insert_eq|rewrite E by done; by apply (Hcl o')].
  - intros k k' a b b'. rewrite !Hpk. apply Hp.
  - apply shape_tail in Hsh as Ht. eapply cons_ok_mono; [done|done| |].
    + intros n _ Hn. simpl. rewrite E; [done|]. by intros <-.
    + intros ?. split; [done|]. intros Hn. simpl. by rewrite E.
Qed.

Lemma inv_exchange s seg o x : inv s seg -> prods s !! o = Some (PExchange x) ->
  inv (mkSys (mkShared (next (sh s)) x (__tail_ (sh s))) (<[o := PLink (__head_ (sh s)) x]> (prods s))
        (cons s) (owned s) (pushed s ++ [x]) (popped s)) (seg ++ [x]).
Proof.
  intros [Hsh [Hs0 Hs] Ha Hex Hcl Hp Hc Hf] Ho.
  destruct (Ha (Producer o) x (or_intror Ho)) as (Hxs & Hx0 & Hxl & Hxseg).
  set (s' := mkSys _ _ _ _ _ _).
  assert (forall k y, away s' k y -> away s k y /\ y <> x) as Hk.
  { intros k y. unfold s'. rewrite away_upd. intros [[-> [?|?]]|[Hne Hy]]; [done..|]. split; [done|].
    intros ->. apply Hne. apply (Hex _ _ x); [done|by right]. }
  assert (forall k a b, pend s' k a b <-> pend s k a b \/ k = Producer o /\ a = __head_ (sh s) /\ b = x) as Hpk.
  { intros k a b. unfold s'. rewrite pend_upd. split; [naive_solver|]. intros [Hk'|(-> & -> & ->)]; [right|by left].
    split; [|done]. intros ->. simpl in Hk'. congruence. }
  assert (forall k b, ~ pend s k (__head_ (sh s)) b) as Hhd.
  { intros k b Hk'. eapply (shape_link_head _ _ _ _ _ _ b Hsh); [by exists k|done]. }
  split; try done.
  - eapply shape_iff; [apply shape_push; [done..|by apply (Hcl o)]|].
    intros a b. unfold linking. setoid_rewrite Hpk. naive_solver.
  - intros k y [Hy Hne]%Hk. destruct (Ha k y Hy) as (? & ? & ? & ?). split_and!; try done.
    intros [?| ->%list_elem_of_singleton]%elem_of_app; done.
  - intros k k' y [H1 _]%Hk [H2 _]%Hk. by eapply Hex.
  - simpl. intros o' y [[<- ?]|[? Hy]]%lookup_insert_Some; [done|]. by apply (Hcl o').
  - intros k k' a b b'. rewrite !Hpk. intros [H1|(-> & -> & _)] [H2|(-> & ? & _)]; subst;
      [by eapply Hp|by destruct (Hhd k b)|by destruct (Hhd k' b')|done].
  - eapply cons_ok_mono; [done|done|done|]. intros Hn. split; [|done].
    intros [?| E%list_elem_of_singleton]%elem_of_app; [done|]. by subst x.
  - simpl. rewrite Hf, filter_app, filter_cons_True, filter_nil by done. by rewrite app_assoc.
Qed.

Lemma inv_link s seg o a b : inv s seg -> prods s !! o = Some (PLink a b) ->
  inv (mkSys (mkShared (<[a := b]> (next (sh s))) (__head_ (sh s)) (__tail_ (sh s)))
        (<[o := PRet (bool_decide (a = stub))]> (prods s)) (cons s) (owned s) (pushed s) (popped s)) seg.
Proof.
  intros [Hsh [Hs0 Hs] Ha Hex Hcl Hp Hc Hf] Ho.
  assert (linking s a b) as Hl by by exists (Producer o).
  destruct (shape_link_null _ _ _ _ _ _ _ Hsh Hl) as [Has Han].
  assert (forall y, y <> a -> <[a := b]> (next (sh s)) !! y = next (sh s) !! y) as E.
  { intros y Hy. by apply lookup_insert_ne. }
  assert (forall y, is_Some (next (sh s) !! y) -> is_Some (<[a := b]> (next (sh s)) !! y)) as El.
  { intros y Hy. apply lookup_insert_is_Some'. by right. }
  set (s' := mkSys _ _ _ _ _ _).
  assert (forall k y, away s' k y -> away s k y) as Hk.
  { intros k y. unfold s'. rewrite away_upd. intros [[-> [?|?]]|[_ ?]]; done. }
  assert (forall k a' b', pend s' k a' b' <-> pend s k a' b' /\ k <> Producer o) as Hpk.
  { intros k a' b'. unfold s'. rewrite pend_upd. naive_solver. }
  split; try done.
  - eapply shape_iff; [by apply shape_link|]. intros a' b'. unfold linking. setoid_rewrite Hpk. split.
    + intros (k & Hk' & Hne). split; [by exists k|]. intros ->. apply Hne. by eapply Hp.
    + intros [[k Hk'] Hne]. exists k. split; [done|]. intros ->. simpl in Hk'. congruence.
  - split; [done|]. by apply El.
  - intros k y Hy%Hk. destruct (Ha k y Hy) as (? & ? & ? & ?). split_and!; try done. by apply El.
  - intros k k' y H1%Hk H2%Hk. by eapply Hex.
  - simpl. intros o' y [[<- ?]|[? Hy]]%lookup_insert_Some; [done|].
    rewrite E; [by apply (Hcl o')|]. intros ->. by destruct (Ha (Producer o') a (or_intror Hy)) as (_ & _ & _ & []).
  - intros k k' a' b1 b2. rewrite !Hpk. intros [? _] [? _]. by eapply Hp.
  - eapply cons_ok_mono; [done|done| |].
    + intros n Hn0 Hn. simpl. rewrite E; [done|]. congruence.
    + intros ?. split; [done|]. intros Hn. simpl. rewrite E; [done|]. by intros <-.
Qed.

Lemma inv_same_producer s seg o b : inv s seg -> prods s !! o = Some (PRet b) ->
  inv (mkSys (sh s) (<[o := PRet b]> (prods s)) (cons s) (owned s) (pushed s ++ []) (popped s)) seg.
Proof. intros Hi Ho. rewrite insert_id, app_nil_r by done. by destruct s. Qed.

(** *** The consumer's steps *)
Definition quiet (c : cpc) : Prop := match c with CLink _ _ => False | CRet p => p = nullptr | _ => True end.

Lemma away_cons s h c ow pu po k y : ow = owned s ->
  away (mkSys h (prods s) c ow pu po) k y <-> k = Consumer /\ c = CRet y /\ y <> nullptr \/ k <> Consumer /\ away s k y.
Proof. intros ->. destruct k; simpl; naive_solver. Qed.

Lemma pend_cons s h c pu po k a b : pend (mkSys h (prods s) c (owned s) pu po) k a b <->
  k = Consumer /\ (exists t, c = CLink t a /\ b = stub) \/ k <> Consumer /\ pend s k a b.
Proof. destruct k; simpl; naive_solver. Qed.

Lemma quiet_away s h c pu po k y : quiet (cons s) -> quiet c ->
  away (mkSys h (prods s) c (owned s) pu po) k y <-> away s k y.
Proof.
  intros Hq Hq'. rewrite away_cons by done. split; [naive_solver|]. intros Hk. right. split; [|done]. intros ->.
  destruct Hk as [E ?]. by rewrite E in Hq.
Qed.

Lemma quiet_pend s h c pu po k a b : quiet (cons s) -> match c with CLink _ _ => False | _ => True end ->
  pend (mkSys h (prods s) c (owned s) pu po) k a b <-> pend s k a b.
Proof.
  intros Hq Hq'. rewrite pend_cons. split; [naive_solver|]. intros Hk. right. split; [|done]. intros ->.
  destruct Hk as (t & E & ?). by rewrite E in Hq.
Qed.

Lemma inv_quiet s seg c : inv s seg -> quiet (cons s) -> quiet c -> cons_ok c (sh s) seg ->
  inv (mkSys (sh s) (prods s) c (owned s) (pushed s) (popped s)) seg.
Proof.
  intros [Hsh Hst Ha Hex Hcl Hp _ Hf] Hq Hq' Hc.
  assert (match c with CLink _ _ => False | _ => True end) as Hq'' by by destruct c.
  split; try done.
  - eapply shape_iff; [done|]. apply linking_iff. intros. by apply quiet_pend.
  - intros k y Hy%quiet_away; [|done..]. by apply (Ha k).
  - intros k k' y H1%quiet_away H2%quiet_away; [|done..]. by eapply Hex.
  - intros k k' a b b' H1%quiet_pend H2%quiet_pend; [|done..]. by eapply Hp.
Qed.

(** The tail moves to its successor; what it leaves is the stub or the result. *)
Lemma inv_advance s seg n : inv s seg -> quiet (cons s) -> next (sh s) !! __tail_ (sh s) = Some n -> n <> nullptr ->
  exists seg', inv (mkSys (mkShared (next (sh s)) (__head_ (sh s)) n) (prods s)
    (if decide (stub = __tail_ (sh s)) then CSecond n else CRet (__tail_ (sh s))) (owned s) (pushed s)
    (popped s ++ if decide (stub = __tail_ (sh s)) then [] else [__tail_ (sh s)])) seg'.
Proof.
  intros [Hsh Hst Ha Hex Hcl Hp _ Hf] Hq Hn Hn0. set (t := __tail_ (sh s)) in *.
  destruct (shape_next _ _ _ _ _ _ Hsh Hn Hn0) as (r & -> & Hsh'). exists (n :: r).
  destruct (shape_live _ _ _ _ _ t Hsh) as [Ht0 Htl]; [by left|].
  assert (t ∉ n :: r) as Htr by by destruct Hsh as [[? _]%NoDup_cons _].
  set (c := if decide (stub = t) then _ else _). set (s' := mkSys _ _ _ _ _ _).
  assert (match c with CLink _ _ => False | _ => True end) as Hq' by (unfold c; by case_decide).
  assert (forall k y, away s' k y -> y = t /\ k = Consumer /\ t <> stub \/ away s k y) as Hk.
  { intros k y. unfold s'. rewrite away_cons by done. unfold c. case_decide; naive_solver. }
  assert (forall k, ~ away s k t) as Hnt.
  { intros k Hk'. destruct (Ha k t Hk') as (_ & _ & _ & []). by left. }
  split; try done.
  - eapply shape_iff; [done|]. apply linking_iff. intros. by apply quiet_pend.
  - intros k y [(-> & -> & ?)|Hy]%Hk; [done|]. destruct (Ha k y Hy) as (? & ? & ? & Hys). split_and!; try done.
    intros ?. apply Hys. by right.
  - intros k k' y [(E1 & -> & _)|H1]%Hk [(E2 & -> & _)|H2]%Hk; [done| | |by eapply Hex].
    + rewrite E1 in H2. by destruct (Hnt k').
    + rewrite E2 in H1. by destruct (Hnt k).
  - intros k k' a b b' H1%quiet_pend H2%quiet_pend; [|done..]. by eapply Hp.
  - simpl. unfold c. case_decide as E; simpl; [|done]. split; [done|]. intros ->. apply Htr. rewrite <- E. by left.
  - simpl. rewrite Hf, filter_cons. destruct (decide (stub = t)) as [E|E].
    + rewrite decide_False by (by intros []). by rewrite app_nil_r.
    + rewrite decide_True by done. by rewrite <- app_assoc.
Qed.

Lemma inv_stub_clear s seg t : inv s seg -> cons s = CClear t ->
  inv (mkSys (mkShared (<[stub := nullptr]> (next (sh s))) (__head_ (sh s)) (__tail_ (sh s)))
        (prods s) (CExchange t) (owned s) (pushed s) (popped s)) seg.
Proof.
  intros [Hsh [Hs0 Hs] Ha Hex Hcl Hp Hc Hf] Ec. rewrite Ec in Hc. destruct Hc as (-> & Ht & Hseg).
  assert (quiet (cons s)) as Hq by by rewrite Ec.
  assert (forall y, y <> stub -> <[stub := nullptr]> (next (sh s)) !! y = next (sh s) !! y) as E.
  { intros y Hy. by apply lookup_insert_ne. }
  split; simpl; try done.
  - eapply shape_iff; [eapply shape_agree; [done|]|].
    + intros y Hy. apply E. by intros ->.
    + apply linking_iff. intros. by apply quiet_pend.
  - by rewrite lookup_insert_eq.
  - intros k y Hy%quiet_away; [|done..]. destruct (Ha k y Hy) as (? & ? & ? & ?). by rewrite E.
  - intros k k' y H1%quiet_away H2%quiet_away; [|done..]. by eapply Hex.
  - intros o y Hy. rewrite E; [by eapply Hcl|]. apply (Ha (Producer o)). by right.
  - intros k k' a b b' H1%quiet_pend H2%quiet_pend; [|done..]. by eapply Hp.
  - split_and!; [done..|]. apply lookup_insert_eq.
Qed.

Lemma inv_stub_exchange s seg t : inv s seg -> cons s = CExchange t ->
  inv (mkSys (mkShared (next (sh s)) stub (__tail_ (sh s)))
        (prods s) (CLink t (__head_ (sh s))) (owned s) (pushed s) (popped s)) (seg ++ [stub]).
Proof.
  intros [Hsh [Hs0 Hs] Ha Hex Hcl Hp Hc Hf] Ec. rewrite Ec in Hc. destruct Hc as (-> & Ht & Hseg & Hsn).
  assert (quiet (cons s)) as Hq by by rewrite Ec.
  set (s' := mkSys _ _ _ _ _ _).
  assert (forall k y, away s' k y -> away s k y) as Hk.
  { intros k y. unfold s'. rewrite away_cons by done. naive_solver. }
  assert (forall k a b, pend s' k a b <-> pend s k a b \/ k = Consumer /\ a = __head_ (sh s) /\ b = stub) as Hpk.
  { intros k a b. unfold s'. rewrite pend_cons. split; [naive_solver|].
    intros [Hk'|(-> & -> & ->)]; [right|left; eauto]. split; [|done]. intros ->.
    destruct Hk' as (t & E & _). by rewrite E in Ec. }
  assert (forall k b, ~ pend s k (__head_ (sh s)) b) as Hhd.
  { intros k b Hk'. eapply (shape_link_head _ _ _ _ _ _ b Hsh); [by exists k|done]. }
  split; try done.
  - eapply shape_iff; [by apply shape_push|].
    intros a b. unfold linking. setoid_rewrite Hpk. naive_solver.
  - intros k y Hy%Hk. destruct (Ha k y Hy) as (? & ? & ? & ?). split_and!; try done.
    intros [?| ->%list_elem_of_singleton]%elem_of_app; done.
  - intros k k' y H1%Hk H2%Hk. by eapply Hex.
  - intros k k' a b b'. rewrite !Hpk. intros [H1|(-> & -> & _)] [H2|(-> & ? & _)]; subst;
      [by eapply Hp|by destruct (Hhd k b)|by destruct (Hhd k' b')|done].
  - simpl. rewrite filter_app, filter_cons_False, filter_nil, app_nil_r by naive_solver. done.
Qed.

Lemma inv_stub_link s seg t a : inv s seg -> cons s = CLink t a ->
  inv (mkSys (mkShared (<[a := stub]> (next (sh s))) (__head_ (sh s)) (__tail_ (sh s)))
        (prods s) (CAgain t) (owned s) (pushed s) (popped s)) seg.
Proof.
  intros [Hsh [Hs0 Hs] Ha Hex Hcl Hp Hc Hf] Ec.
  assert (pend s Consumer a stub) as Hpa by (exists t; by rewrite Ec).
  assert (linking s a stub) as Hl by by exists Consumer.
  destruct (shape_link_null _ _ _ _ _ _ _ Hsh Hl) as [Has Han].
  assert (forall y, y <> a -> <[a := stub]> (next (sh s)) !! y = next (sh s) !! y) as E.
  { intros y Hy. by apply lookup_insert_ne. }
  assert (forall y, is_Some (next (sh s) !! y) -> is_Some (<[a := stub]> (next (sh s)) !! y)) as El.
  { intros y Hy. apply lookup_insert_is_Some'. by right. }
  set (s' := mkSys _ _ _ _ _ _).
  assert (forall k y, away s' k y -> away s k y) as Hk.
  { intros k y. unfold s'. rewrite away_cons by done. naive_solver. }
  assert (forall k a' b', pend s' k a' b' <-> pend s k a' b' /\ k <> Consumer) as Hpk.
  { intros k a' b'. unfold s'. rewrite pend_cons. naive_solver. }
  split; try done.
  - eapply shape_iff; [by apply shape_link|]. intros a' b'. unfold linking. setoid_rewrite Hpk. split.
    + intros (k & Hk' & Hne). split; [by exists k|]. intros ->. apply Hne. by eapply Hp.
    + intros [[k Hk'] Hne]. exists k. split; [done|]. intros ->. destruct Hk' as (t' & E' & _). simplify_eq. congruence.
  - split; [done|]. by apply El.
  - intros k y Hy%Hk. destruct (Ha k y Hy) as (? & ? & ? & ?). split_and!; try done. by apply El.
  - intros k k' y H1%Hk H2%Hk. by eapply Hex.
  - simpl. intros o y Hy. rewrite E; [by apply (Hcl o)|]. intros ->.
    by destruct (Ha (Producer o) a (or_intror Hy)) as (_ & _ & _ & []).
  - intros k k' a' b1 b2. rewrite !Hpk. intros [? _] [? _]. by eapply Hp.
  - rewrite Ec in Hc. done.
Qed.

Lemma inv_return s seg p : inv s seg -> cons s = CRet p ->
  inv (mkSys (sh s) (prods s) CIdle (if decide (p = nullptr) then owned s else {[p]} ∪ owned s)
    (pushed s) (popped s)) seg.
Proof.
  intros Hi Ec. case_decide as Hp0.
  { apply inv_quiet; [done|by rewrite Ec|done..]. }
  destruct Hi as [Hsh Hst Ha Hex Hcl Hp Hc Hf]. assert (away s Consumer p) as Hap by done.
  set (s' := mkSys _ _ _ _ _ _).
  assert (forall k y, away s' k y -> k = Client /\ y = p \/ k <> Consumer /\ away s k y) as Hk.
  { intros [|o|] y; simpl; [set_solver|naive_solver..]. }
  assert (forall k a b, pend s' k a b <-> pend s k a b) as Hpk.
  { intros [|o|] a b; simpl; [done..|]. split; intros (t & E & _); [done|]. by rewrite E in Ec. }
  split; try done.
  - eapply shape_iff; [done|by apply linking_iff].
  - intros k y [[-> ->]|[_ Hy]]%Hk; [by apply (Ha Consumer)|by apply (Ha k)].
  - intros k k' y [[-> E1]|[H0 H1]]%Hk [[-> E2]|[H0' H2]]%Hk; subst; [done| | |by eapply Hex].
    + by rewrite (Hex _ _ _ H2 Hap) in H0'.
    + by rewrite (Hex _ _ _ H1 Hap) in H0.
  - intros k k' a b b'. rewrite !Hpk. apply Hp.
Qed.

Lemma load_live s p : p <> nullptr -> load_next p s = next s !! p.
Proof. intros. unfold load_next. by rewrite decide_False. Qed.

Lemma store_live s p v : p <> nullptr -> is_Some (next s !! p) ->
  store_next p v s = Some (mkShared (<[p := v]> (next s)) (__head_ s) (__tail_ s)).
Proof. intros Hp [x Hx]. unfold store_next. by rewrite load_live, Hx. Qed.

(** A producer that has not returned always has a next step, and it keeps the
    invariant. *)
Lemma inv_producer s seg o c : inv s seg -> prods s !! o = Some c ->
  exists c' h seg', push_step c (sh s) = Some (c', h) /\
    inv (mkSys h (<[o := c']> (prods s)) (cons s) (owned s) (pushed s ++ exchanged c) (popped s)) seg'.
Proof.
  intros Hi Ho. destruct c as [x|x|a b|b]; simpl.
  - destruct (inv_away _ _ Hi (Producer o) x (or_introl Ho)) as (_ & Hx0 & Hx & _).
    rewrite store_live by done. simpl. eexists _, _, seg. split; [done|]. rewrite app_nil_r. by apply inv_clear.
  - eexists _, _, (seg ++ [x]). split; [done|]. by apply inv_exchange.
  - assert (linking s a b) as Hl by by exists (Producer o). pose proof (inv_shape _ _ Hi) as Hsh.
    destruct (shape_link_null _ _ _ _ _ _ _ Hsh Hl) as [Has Han].
    destruct (shape_live _ _ _ _ _ _ Hsh Has) as [Ha0 ?]. rewrite store_live by done. simpl.
    eexists _, _, seg. split; [done|]. rewrite app_nil_r. by apply inv_link.
  - eexists _, _, seg. split; [done|]. by apply inv_same_producer.
Qed.

Lemma tail_live s seg : inv s seg -> __tail_ (sh s) <> nullptr /\ exists n, next (sh s) !! __tail_ (sh s) = Some n.
Proof. intros Hi. pose proof (inv_shape _ _ Hi) as Hsh. by eapply shape_live, shape_tail. Qed.

Lemma inv_consumer s seg : inv s seg -> exists c' h seg', pop_step (cons s) (sh s) = Some (c', h) /\
  inv (mkSys h (prods s) c' (owned s) (pushed s) (popped s ++ taken (cons s) c')) seg'.
Proof.
  intros Hi. destruct (tail_live _ _ Hi) as [Ht0 [n Hn]]. pose proof (inv_cons _ _ Hi) as Hc.
  assert (forall c, quiet (cons s) -> quiet c -> cons_ok c (sh s) seg -> taken (cons s) c = [] ->
    inv (mkSys (sh s) (prods s) c (owned s) (pushed s) (popped s ++ taken (cons s) c)) seg) as Hquiet.
  { intros c ? ? ? ->. rewrite app_nil_r. by apply inv_quiet. }
  destruct (cons s) as [| |t|t m|t|t|t|t a|t|p] eqn:Ec; simpl in Hc.
  - eexists _, _, seg. split; [done|]. by apply Hquiet.
  - simpl. rewrite load_live, Hn by done. simpl. case_decide as Es.
    + case_decide as En.
      * eexists _, _, seg. split; [done|]. by apply Hquiet.
      * destruct (inv_advance s seg n Hi) as [seg' Hi']; [by rewrite Ec|done|done|].
        rewrite !decide_True in Hi' by done. eexists _, _, seg'. split; [done|]. exact Hi'.
    + eexists _, _, seg. split; [done|]. by apply Hquiet.
  - destruct Hc as [-> Ht]. simpl. rewrite load_live, Hn by done. eexists _, _, seg. split; [done|]. by apply Hquiet.
  - destruct Hc as (-> & Ht & Hm). simpl. case_decide as Em.
    + destruct (inv_advance s seg m Hi) as [seg' Hi']; [by rewrite Ec|by apply Hm|done|].
      rewrite !decide_False in Hi' by done. eexists _, _, seg'. split; [done|].
      simpl. rewrite decide_False by done. exact Hi'.
    + eexists _, _, seg. split; [done|]. by apply Hquiet.
  - destruct Hc as [-> Ht]. simpl. case_decide as Eh; (eexists _, _, seg; split; [done|]); apply Hquiet; try done.
    simpl. split_and!; [done..|].
    rewrite (shape_single _ _ _ _ _ (inv_shape _ _ Hi)) by done. intros ->%list_elem_of_singleton. done.
  - destruct Hc as (-> & Ht & Hs). destruct (inv_stub _ _ Hi) as [Hs0 Hsl]. simpl. rewrite store_live by done.
    eexists _, _, seg. split; [done|]. simpl. rewrite app_nil_r. by apply inv_stub_clear.
  - destruct Hc as (-> & Ht & Hs & Hsn). simpl. eexists _, _, (seg ++ [stub]). split; [done|].
    simpl. rewrite app_nil_r. by apply inv_stub_exchange.
  - destruct Hc as (-> & Ht). pose proof (inv_shape _ _ Hi) as Hsh.
    assert (linking s a stub) as Hl by (exists Consumer; simpl; eauto).
    destruct (shape_link_null _ _ _ _ _ _ _ Hsh Hl) as [Has Han].
    destruct (shape_live _ _ _ _ _ _ Hsh Has) as [Ha0 ?]. simpl. rewrite store_live by done.
    eexists _, _, seg. split; [done|]. simpl. rewrite app_nil_r. by apply inv_stub_link.
  - destruct Hc as (-> & Ht). simpl. rewrite load_live, Hn by done. simpl.
    case_decide as Em.
    + destruct (inv_advance s seg n Hi) as [seg' Hi']; [by rewrite Ec|done|done|].
      rewrite !decide_False in Hi' by done. eexists _, _, seg'. split; [done|]. simpl.
      rewrite decide_False by done. exact Hi'.
    + eexists _, _, seg. split; [done|]. by apply Hquiet.
  - simpl. eexists _, _, seg. split; [done|]. simpl. rewrite app_nil_r. rewrite <- Ec. by destruct s.
Qed.

Lemma mpsc_inv_step s s' seg : inv s seg -> step s s' -> exists seg', inv s' seg'.
Proof.
  intros Hi Hs. destruct Hs as [s x ? ?|s x ?|s o x ? ?|s o c c' h Ho Hstep|s Ec|s c' h Hstep|s p ?].
  - exists seg. by apply inv_new.
  - exists seg. by apply inv_free.
  - exists seg. by apply inv_push.
  - destruct (inv_producer s seg o c Hi Ho) as (c1 & h1 & seg' & E & Hi'). simplify_eq. eauto.
  - exists seg. apply inv_quiet; [done|by rewrite Ec|done..].
  - destruct (inv_consumer s seg Hi) as (c1 & h1 & seg' & E & Hi'). simplify_eq. eauto.
  - exists seg. by apply inv_return.
Qed.

Lemma mpsc_inv_reachable s : stub <> nullptr -> reachable s -> exists seg, inv s seg.
Proof.
  intros Hs0 Hr. cut (exists seg, inv init seg); [|exists [stub]; by apply mpsc_inv_init].
  induction Hr as [|s1 s2 s3 H12 _ IH]; [done|]. intros [seg Hi]. apply IH. by eapply mpsc_inv_step.
Qed.

(** ** A call of [_M_pop_front] that nothing interrupts; nine steps are enough *)
Fixpoint pop_run (fuel : nat) (c : cpc) (h : shared) : option (ptr * shared) :=
  match fuel with
  | O => None
  | S k => match c with CRet p => Some (p, h) | _ => '(c, h) ← pop_step c h; pop_run k c h end
  end.

Lemma shape_settled m hd t r L : shape m hd t (t :: r) L -> (forall a b, ~ L a b) ->
  m !! t = Some (default nullptr (head r)).
Proof.
  intros (_ & _ & Hl & _ & He & Hk & _) HL. destruct r as [|n r]; simpl in *; [by simplify_eq|].
  destruct (Hk t n) as [?|[_ H]]; [apply adj_cons; by left|done|by destruct (HL t n)].
Qed.

Lemma run_S k c h c' h' : pop_step c h = Some (c', h') -> match c with CRet _ => False | _ => True end ->
  pop_run (S k) c h = pop_run k c' h'.
Proof. intros E Hc. destruct c; try done; cbn [pop_run]; by rewrite E. Qed.

Lemma run_test k h t n : t <> stub -> t <> nullptr -> stub <> nullptr -> next h !! t = Some n ->
  is_Some (next h !! stub) -> (n = nullptr -> __head_ h = t) -> exists h', pop_run (7 + k) (CTest t n) h = Some (t, h').
Proof.
  intros Ht Ht0 Hs0 Hn Hs Hh. cbn [Nat.add]. destruct (decide (nullptr = n)) as [<-|Hn0].
  - erewrite run_S; [|reflexivity|done].
    erewrite run_S; [|simpl; rewrite decide_False by (rewrite Hh by done; intros H; by apply H); done|done].
    erewrite run_S; [|simpl; by rewrite store_live|done].
    erewrite run_S; [|done|done]. simpl __head_. rewrite Hh by done.
    erewrite run_S; [|simpl; rewrite store_live; [done|done|by simpl; rewrite lookup_insert_ne]|done].
    erewrite run_S; [|simpl; rewrite load_live by done; simpl; rewrite lookup_insert_eq; simpl;
      by rewrite decide_True|done].
    by eexists.
  - erewrite run_S; [|by simpl; rewrite decide_True|done]. by eexists.
Qed.

Lemma shape_alone m hd t r L : shape m hd t (t :: r) L -> default nullptr (head r) = nullptr -> hd = t.
Proof.
  intros Hs E. destruct r as [|n r]; simpl in E.
  - destruct Hs as (_ & _ & Hl & _). by simplify_eq/=.
  - destruct (shape_live _ _ _ _ _ n Hs) as [? _]; [right; by left|done].
Qed.

Lemma pop_settled s seg : inv s seg -> (forall a b, ~ linking s a b) ->
  exists rest h, pushed s = popped s ++ rest /\ pop_run 9 CStart (sh s) = Some (default nullptr (head rest), h).
Proof.
  intros [Hsh [Hs0 Hst] _ _ _ _ _ Hf] HL. exists (filter (fun x => x <> stub) seg).
  cut (exists h, pop_run 9 CStart (sh s) = Some (default nullptr (head (filter (fun x => x <> stub) seg)), h)).
  { intros [h Hr]. by exists h. }
  clear Hf.
  destruct (sh s) as [m hd t]. cbn [next __head_ __tail_] in Hsh, Hst. destruct (shape_head _ _ _ _ _ Hsh) as [r ->].
  pose proof (shape_settled _ _ _ _ _ Hsh HL) as Hn. destruct (shape_live _ _ _ _ _ t Hsh) as [Ht0 _]; [by left|].
  destruct (decide (stub = t)) as [<-|Ht].
  - rewrite filter_cons_False by (by intros ?). destruct r as [|n r]; simpl in Hn.
    + erewrite run_S; [|simpl; rewrite load_live by done; simpl; rewrite Hn; simpl; by rewrite decide_True|done].
      eexists. done.
    + destruct (shape_live _ _ _ _ _ n Hsh) as [Hn0 _]; [right; by left|].
      destruct (shape_next _ _ _ _ _ _ Hsh Hn Hn0) as (r' & [= <-] & Hsh').
      pose proof (shape_settled _ _ _ _ _ Hsh' HL) as Hm.
      assert (n <> stub) as Hns.
      { intros ->. destruct Hsh as [[H _]%NoDup_cons _]. apply H. by left. }
      rewrite filter_cons_True by done.
      erewrite run_S; [|simpl; rewrite load_live by done; simpl; rewrite Hn; simpl;
        rewrite decide_True, decide_False by done; done|done].
      erewrite run_S; [|simpl; rewrite load_live by done; simpl; by rewrite Hm|done].
      destruct (run_test 0 (mkShared m hd n) n (default nullptr (head r))) as [h Hr]; try done.
      { intros E. by apply (shape_alone _ _ _ _ _ Hsh'). }
      exists h. done.
  - rewrite filter_cons_True by done.
    erewrite run_S; [|simpl; rewrite load_live by done; simpl; rewrite Hn; simpl; by rewrite decide_False|done].
    destruct (run_test 1 (mkShared m hd t) t (default nullptr (head r))) as [h Hr]; try done.
    { intros E. by apply (shape_alone _ _ _ _ _ Hsh). }
    exists h. done.
Qed.

(** ** The theorems *)

(** C7: the nodes come out in the order of their exchanges: what [_M_pop_front]
    has returned so far is a prefix of what has been pushed, and the rest is in
    the queue, each node once, while the client neither owns it nor is being
    handed it. *)
Theorem mpsc_fifo s : stub <> nullptr -> reachable s ->
  exists rest, pushed s = popped s ++ rest /\ NoDup rest /\
    (forall x, x ∈ rest -> x ∉ owned s /\ cons s <> CRet x).
Proof.
  intros Hs0 [seg [Hsh _ Ha _ _ _ _ Hf]]%mpsc_inv_reachable; [|done]. eexists. split; [exact Hf|].
  assert (forall x, x ∈ filter (fun x => x <> stub) seg -> x ∈ seg) as Hin by by intros x [_ ?]%list_elem_of_filter.
  split; [apply NoDup_filter; by destruct Hsh|]. intros x Hx%Hin. split.
  - intros Hc. by destruct (Ha Client x Hc) as (_ & _ & _ & []).
  - intros Hc. destruct (shape_live _ _ _ _ _ x Hsh) as [? _]; [done|].
    by destruct (Ha Consumer x) as (_ & _ & _ & []).
Qed.

(** C38: no access of a push or a pop ever goes through a null or freed node,
    although a node may be freed as soon as it has been popped, while the
    producers that met it as the head are still running. *)
Theorem mpsc_never_faults s : stub <> nullptr -> reachable s ->
  is_Some (pop_step (cons s) (sh s)) /\
  forall o c, prods s !! o = Some c -> is_Some (push_step c (sh s)).
Proof.
  intros Hs0 [seg Hi]%mpsc_inv_reachable; [|done]. split.
  - destruct (inv_consumer _ _ Hi) as (c & h & _ & -> & _). eauto.
  - intros o c Ho. destruct (inv_producer _ _ _ _ Hi Ho) as (c' & h & _ & -> & _). eauto.
Qed.

(** a pop that runs alone while no producer is between its exchange and its
    link ends within nine steps and returns the oldest node of the queue, or
    null exactly when the queue is empty. *)
Theorem settled_pop_takes_oldest s : stub <> nullptr -> reachable s -> cons s = CIdle ->
  (forall o a b, prods s !! o <> Some (PLink a b)) ->
  exists rest h, pushed s = popped s ++ rest /\ pop_run 9 CStart (sh s) = Some (default nullptr (head rest), h).
Proof.
  intros Hs0 [seg Hi]%mpsc_inv_reachable Hc Hp; [|done]. apply (pop_settled _ _ Hi). intros a b [[|o|] Hk]; simpl in Hk.
  - done.
  - by eapply Hp.
  - destruct Hk as (t & E & _). by rewrite E in Hc.
Qed.

(** ** Executions *)
Inductive event := ENew (x : ptr) | EFree (x : ptr) | EPush (o : nat) (x : ptr) | EProducer (o : nat)
  | EPop | EConsumer | EReturn.

Definition fire (e : event) (s : sys) : option sys :=
  match e with
  | ENew x => if decide (next (sh s) !! x = None /\ x <> nullptr) then
      Some (mkSys (mkShared (<[x := nullptr]> (next (sh s))) (__head_ (sh s)) (__tail_ (sh s)))
        (prods s) (cons s) ({[x]} ∪ owned s) (pushed s) (popped s)) else None
  | EFree x => if decide (x ∈ owned s) then
      Some (mkSys (mkShared (delete x (next (sh s))) (__head_ (sh s)) (__tail_ (sh s)))
        (prods s) (cons s) (owned s ∖ {[x]}) (pushed s) (popped s)) else None
  | EPush o x => if decide (is_Some (prods s !! o)) then None else if decide (x ∈ owned s) then
      Some (mkSys (sh s) (<[o := PClear x]> (prods s)) (cons s) (owned s ∖ {[x]}) (pushed s) (popped s)) else None
  | EProducer o => c ← prods s !! o; '(c', h) ← push_step c (sh s);
      Some (mkSys h (<[o := c']> (prods s)) (cons s) (owned s) (pushed s ++ exchanged c) (popped s))
  | EPop => match cons s with
      | CIdle => Some (mkSys (sh s) (prods s) CStart (owned s) (pushed s) (popped s)) | _ => None end
  | EConsumer => '(c', h) ← pop_step (cons s) (sh s);
      Some (mkSys h (prods s) c' (owned s) (pushed s) (popped s ++ taken (cons s) c'))
  | EReturn => match cons s with
      | CRet p => Some (mkSys (sh s) (prods s) CIdle
          (if decide (p = nullptr) then owned s else {[p]} ∪ owned s) (pushed s) (popped s))
      | _ => None end
  end.

Lemma fire_step e s s' : fire e s = Some s' -> step s s'.
Proof.
  intros H. destruct e; simpl in H; try (case_decide; [|done]).
  - simplify_eq. apply step_new; naive_solver.
  - simplify_eq. by apply step_free.
  - case_decide as Ho; [done|]. case_decide; [|done]. simplify_eq. apply step_push; [|done]. by apply eq_None_not_Some.
  - apply bind_Some in H as (c & Hc & ([c' h] & Hs & ?)%bind_Some). simplify_eq. by apply step_producer.
  - destruct (cons s) eqn:E; simplify_eq. by apply step_pop.
  - apply bind_Some in H as ([c' h] & Hs & ?). simplify_eq. by apply step_consumer.
  - destruct (cons s) eqn:E; simplify_eq. by apply step_return.
Qed.

Fixpoint fire_all (es : list event) (s : sys) : option sys :=
  match es with [] => Some s | e :: es => s ← fire e s; fire_all es s end.

Lemma fire_all_steps es s s' : fire_all es s = Some s' -> rtc step s s'.
Proof.
  revert s. induction es as [|e es IH]; intros s H; simpl in H; [by simplify_eq|].
  apply bind_Some in H as (s1 & H1 & H). eapply rtc_l; [by eapply fire_step|by apply IH].
Qed.
End code.

Module mpsc_example.

(** The stub is at 1; node 2 is pushed; a pop gets as far as reading the head;
    node 3 is pushed; the pop goes on. *)
Definition push_of (o : nat) (x : ptr) : list event := [ENew x; EPush o x; EProducer o; EProducer o; EProducer o].
Definition late : list event :=
  push_of 0 2 ++ [EPop; EConsumer; EConsumer; EConsumer] ++ push_of 1 3 ++ [EConsumer].
Definition run (es : list event) : sys := default (init 1) (fire_all 1 es (init 1)).

Lemma run_reachable es : is_Some (fire_all 1 es (init 1)) -> reachable 1 (run es).
Proof. intros [s E]. apply (fire_all_steps 1 es). unfold run. by rewrite E. Qed.

(** a null result does not mean what the comments in [_M_pop_front] say, that
    the queue is empty or that a producer is in the middle of adding a node: here
    both pushes have returned, two nodes are linked, and the pop returns null,
    because it had read the link of the first node before the second push and
    reads the head after it. *)
Theorem pop_misses_settled_nodes : exists s, reachable 1 s /\ cons s = CRet nullptr /\
  map_Forall (fun _ c => exists b, c = PRet b) (prods s) /\ pushed s = [2; 3] /\ popped s = [].
Proof.
  exists (run late). split_and!; [|vm_compute; reflexivity| |vm_compute; reflexivity..].
  - apply run_reachable. vm_compute. by eexists.
  - intros o c Ho.
    assert (prods (run late) = {[0%nat := PRet true; 1%nat := PRet false]}) as E by (vm_compute; reflexivity).
    rewrite E in Ho. apply lookup_insert_Some in Ho as [[_ <-]|[_ Ho]]; [eauto|].
    apply lookup_singleton_Some in Ho as [_ <-]. eauto.
Qed.

(** Node 2 has been popped and freed; the push of 3 has still to link. *)
Definition midway : list event :=
  push_of 0 2 ++ push_of 1 4 ++ [EPop; EConsumer; EConsumer; EConsumer; EReturn; EFree 2; ENew 3; EPush 2 3; EProducer 2; EProducer 2].

Lemma mpsc_fifo_witness : pushed (run midway) = [2; 4; 3] /\ popped (run midway) = [2] /\
  exists rest, pushed (run midway) = popped (run midway) ++ rest /\ NoDup rest /\
    (forall x, x ∈ rest -> x ∉ owned (run midway) /\ cons (run midway) <> CRet x).
Proof.
  split; [vm_compute; reflexivity|]. split; [vm_compute; reflexivity|].
  apply (mpsc_fifo 1 (run midway)); [done|]. apply run_reachable. vm_compute. by eexists.
Defined.

Lemma mpsc_never_faults_witness : is_Some (pop_step 1 (cons (run late)) (sh (run late))) /\
  forall o c, prods (run late) !! o = Some c -> is_Some (push_step 1 c (sh (run late))).
Proof.
  apply (mpsc_never_faults 1 (run late)); [done|]. apply run_reachable. vm_compute. by eexists.
Defined.

Lemma settled_pop_takes_oldest_witness :
  exists rest h, pushed (run (push_of 0 2)) = popped (run (push_of 0 2)) ++ rest /\
    pop_run 1 9 CStart (sh (run (push_of 0 2))) = Some (default nullptr (head rest), h).
Proof.
  apply (settled_pop_takes_oldest 1 (run (push_of 0 2))); [done| |vm_compute; reflexivity|].
  - apply run_reachable. vm_compute. by eexists.
  - intros o a b Ho. assert (prods (run (push_of 0 2)) = {[0%nat := PRet true]}) as E by (vm_compute; reflexivity).
    rewrite E in Ho. apply lookup_singleton_Some in Ho as [_ ?]. done.
Defined.

End mpsc_example.
End mpsc_queue.
