(* ===== verification/Tasks.v ===== *)
(** * [__scheduler.hpp]: tasks, their virtual functions and operation counts

    A scheduler keeps intrusive queues of [__task_facade] objects.  What is
    behind a facade is one of four classes: an [__ioring_task] (an operation
    for the kernel, with the count [__n_ops_]), an [__ioring_stop_inplace], a
    [__timer_task] or a [__timer_stop_inplace].  Module [tasks] models these
    objects, the state of a [__scheduler] they are queued in, and the functions
    by which tasks are submitted, completed and stopped.

    The functions a task was constructed with are the client's code: they are
    arguments of the model, and may do anything to the scheduler that their
    law allows.  [log] is a ghost: it records the virtual calls in order. *)

From S2P Require Import Prelude Memory IntrusiveQueue IntrusiveHeap.
Import intrusive_queue.

Module tasks.

(** ** Kernel interface records, the members the source touches *)

Record io_uring_sqe := mkSqe {
  opcode : Z; sqe_flags : Z; ioprio : Z; sqe_fd : Z; off : Z; sqe_addr : Z; sqe_len : Z;
  accept_flags : Z; buf_group : Z; user_data : Z
}.
Record io_uring_cqe := mkCqe { cqe_user_data : Z; res : Z; cqe_flags : Z }.

(** [__builtin_memset(&__sqe, 0, sizeof __sqe)] *)
Definition zero_sqe : io_uring_sqe := mkSqe 0 0 0 0 0 0 0 0 0 0.
Definition with_user_data (v : Z) (e : io_uring_sqe) : io_uring_sqe :=
  mkSqe (opcode e) (sqe_flags e) (ioprio e) (sqe_fd e) (off e) (sqe_addr e) (sqe_len e)
    (accept_flags e) (buf_group e) v.

(** Constants of the kernel's headers. *)
Definition IORING_OP_ASYNC_CANCEL : Z := 14.
Definition IORING_CQE_F_MORE : Z := 2.
Definition ECANCELED : Z := 125.
Definition EINTR : Z := 4.
Definition ETIME : Z := 62.

(** ** Objects *)

Inductive derived :=
  | Ioring (__n_ops_ : Z)
  | IoringStop
  | Timer
  | TimerStop.
Record __task_facade := mkFacade { __target_ : ptr; __next_ : ptr; class_of : derived }.

#[export] Program Instance facade_linked : Linked __task_facade := {|
  next_of := __next_;
  set_next p t := mkFacade (__target_ t) p (class_of t)
|}.
Solve Obligations with by intros; try destruct n.

Definition with_class (d : derived) (t : __task_facade) : __task_facade :=
  mkFacade (__target_ t) (__next_ t) d.

Inductive event :=
  | Submitted (p : ptr)
  | Completed (p : ptr) (e : io_uring_cqe)
  | TimerDone (p : ptr) (stopped : bool).

(** ** The scheduler *)

Record __submission_queue := mkSq {
  sq_head : Z; sq_tail : Z; __array_ : list Z; __sqe_ : list io_uring_sqe;
  sq_mask : Z; __n_slot_ : Z
}.
Record __completion_queue := mkCq {
  cq_head : Z; cq_tail : Z; __cqe_ : list io_uring_cqe; cq_mask : Z
}.
Abbreviation timers := (intrusive_heap.heap (K := __time_sequence)).

(** [__key_] of the constructor of [__timer_task]; the state is the counter
    [__next_seq_] that all timers share. *)
Definition timer_key (__tp : Z) : M Z __time_sequence := fun __next_seq_ =>
  Done (mkTimeSequence __tp __next_seq_, u64 (__next_seq_ + 1)).

Fixpoint timer_keys (__tps : list Z) : M Z (list __time_sequence) :=
  match __tps with
  | [] => mret []
  | __tp :: __tps => k ← timer_key __tp; ks ← timer_keys __tps; mret (k :: ks)
  end.

(** Until the counter wraps around, a timer constructed later has the larger key
    among those of the same deadline, so they leave the heap in the order of
    their construction; no two keys are equal. *)
Lemma timer_keys_in_order tps n : 0 <= n -> n + Z.of_nat (length tps) < 2 ^ 64 ->
  exists ks, timer_keys tps n = Done (ks, n + Z.of_nat (length tps)) /\ __deadline_ <$> ks = tps /\
    forall i j k k', (i < j)%nat -> ks !! i = Some k -> ks !! j = Some k' ->
      k <> k' /\ (__deadline_ k = __deadline_ k' -> key_lt k k' = true).
Proof.
  intros Hn Hl. exists (imap (fun i tp => mkTimeSequence tp (n + Z.of_nat i)) tps). split_and!.
  - revert n Hn Hl. induction tps as [|tp tps IH]; intros n Hn Hl; simpl in *; [unfold mret, M_ret; do 2 f_equal; lia|].
    unfold timer_key, mbind, M_bind. rewrite (wrap_small 64) by (split; lia). rewrite IH by lia. unfold mret, M_ret.
    rewrite Z.add_0_r. do 2 f_equal; [|lia]. f_equal. apply imap_ext. intros i x _. simpl. f_equal. lia.
  - revert n Hn Hl. induction tps as [|tp tps IH]; intros n Hn Hl; [done|]. simpl. f_equal.
    etrans; [|apply (IH (n + 1)); simpl in Hl; lia]. f_equal. apply imap_ext. intros i x _. simpl. f_equal. lia.
  - intros i j k k' Hij. rewrite !list_lookup_imap. intros (x & _ & ->)%fmap_Some (y & _ & ->)%fmap_Some. split.
    + intros [= _ ?]. lia.
    + simpl. intros ->. apply time_sequence_lt_spec. simpl. right. split; [done|lia].
Qed.

Record __scheduler (C : Type) := mkSched {
  objs : gmap ptr __task_facade;
  __heap_ : timers;
  __sq_ : __submission_queue;
  __cq_ : __completion_queue;
  __io_pending_ : queue;
  __dr_pending_ : queue;
  __n_total_submit_ : Z;
  __n_newly_submit_ : Z;
  cq_entries : Z;
  client : C;
  log : list event
}.
Arguments mkSched {C}.
Arguments objs {C}. Arguments __heap_ {C}. Arguments __sq_ {C}. Arguments __cq_ {C}.
Arguments __io_pending_ {C}. Arguments __dr_pending_ {C}. Arguments __n_total_submit_ {C}.
Arguments __n_newly_submit_ {C}. Arguments cq_entries {C}. Arguments client {C}. Arguments log {C}.

Section code.
Context {C : Type}.
Abbreviation sched := (__scheduler C).
Implicit Types (s : sched) (p : ptr).

Definition set_objs m s : sched := mkSched m (__heap_ s) (__sq_ s) (__cq_ s) (__io_pending_ s)
  (__dr_pending_ s) (__n_total_submit_ s) (__n_newly_submit_ s) (cq_entries s) (client s) (log s).
Definition set_heap h s : sched := mkSched (objs s) h (__sq_ s) (__cq_ s) (__io_pending_ s)
  (__dr_pending_ s) (__n_total_submit_ s) (__n_newly_submit_ s) (cq_entries s) (client s) (log s).
Definition set_sq q s : sched := mkSched (objs s) (__heap_ s) q (__cq_ s) (__io_pending_ s)
  (__dr_pending_ s) (__n_total_submit_ s) (__n_newly_submit_ s) (cq_entries s) (client s) (log s).
Definition set_cq q s : sched := mkSched (objs s) (__heap_ s) (__sq_ s) q (__io_pending_ s)
  (__dr_pending_ s) (__n_total_submit_ s) (__n_newly_submit_ s) (cq_entries s) (client s) (log s).
Definition set_io q s : sched := mkSched (objs s) (__heap_ s) (__sq_ s) (__cq_ s) q
  (__dr_pending_ s) (__n_total_submit_ s) (__n_newly_submit_ s) (cq_entries s) (client s) (log s).
Definition set_dr q s : sched := mkSched (objs s) (__heap_ s) (__sq_ s) (__cq_ s) (__io_pending_ s)
  q (__n_total_submit_ s) (__n_newly_submit_ s) (cq_entries s) (client s) (log s).
Definition set_counts total newly s : sched := mkSched (objs s) (__heap_ s) (__sq_ s) (__cq_ s)
  (__io_pending_ s) (__dr_pending_ s) total newly (cq_entries s) (client s) (log s).
Definition set_client c s : sched := mkSched (objs s) (__heap_ s) (__sq_ s) (__cq_ s)
  (__io_pending_ s) (__dr_pending_ s) (__n_total_submit_ s) (__n_newly_submit_ s) (cq_entries s) c (log s).
Definition add_event x s : sched := mkSched (objs s) (__heap_ s) (__sq_ s) (__cq_ s)
  (__io_pending_ s) (__dr_pending_ s) (__n_total_submit_ s) (__n_newly_submit_ s) (cq_entries s)
  (client s) (log s ++ [x]).

Definition on_objs {A} (c : M (gmap ptr __task_facade) A) : M sched A := fun s =>
  match c (objs s) with
  | Done (a, m) => Done (a, set_objs m s)
  | Fault f => Fault f
  end.
Definition on_heap {A} (c : M timers A) : M sched A := fun s =>
  match c (__heap_ s) with
  | Done (a, h) => Done (a, set_heap h s)
  | Fault f => Fault f
  end.

Definition emit (x : event) : M sched unit := modify (add_event x).

(** ** The client's functions *)

Context (client_submit : ptr -> io_uring_sqe -> M sched io_uring_sqe).
Context (client_complete : ptr -> io_uring_cqe -> M sched unit).
Context (timer_complete : ptr -> bool -> M sched unit).

(** [__ioring_task_base::__manage] of an [__ioring_task], by the command. *)
Definition virt_submit (p : ptr) (__sqe : io_uring_sqe) : M sched io_uring_sqe :=
  emit (Submitted p);; client_submit p __sqe.
Definition virt_complete (p : ptr) (__cqe : io_uring_cqe) : M sched unit :=
  emit (Completed p __cqe);; client_complete p __cqe.

(** ** [__ioring_task] *)

(** The accesses to [__n_ops_]: an object of another class has no such member,
    the access is past its end. *)
Definition load_n_ops (p : ptr) : M sched Z :=
  t ← on_objs (load p);
  match class_of t with Ioring n => mret n | _ => throw OutOfBounds end.
Definition store_n_ops (p : ptr) (v : Z) : M sched unit :=
  _ ← load_n_ops p; on_objs (update p (with_class (Ioring v))).
Definition fetch_sub_n_ops (p : ptr) : M sched Z :=
  n ← load_n_ops p; store_n_ops p (swrap 32 (n - 1));; mret n.

(** [__ioring_task::_M_submit]: the entry it leaves. *)
Definition _M_submit (this : ptr) (__sqe : io_uring_sqe) : M sched io_uring_sqe :=
  store_n_ops this 1;; virt_submit this __sqe.

Definition more (e : io_uring_cqe) : bool := negb (Z.land (cqe_flags e) IORING_CQE_F_MORE =? 0).

Definition _M_complete (this : ptr) (__cqe : io_uring_cqe) : M sched Z :=
  let __more := more __cqe in
  a ← (if (__more : bool) then n ← load_n_ops this; mret (n =? 1) else mret false);
  b ← (if (a : bool) then mret true else n ← fetch_sub_n_ops this; mret (n =? 1));
  (if (b : bool) then virt_complete this __cqe else mret tt);;
  mret (if (__more : bool) then 0 else 1).

Definition canceled (__op : ptr) : io_uring_cqe := mkCqe __op (- ECANCELED) 0.
Definition __manual_stop (__op : ptr) : M sched unit :=
  _ ← _M_complete __op (canceled __op); mret tt.

(** ** [__ioring_stop_inplace] *)

Definition stop_submit (__op : ptr) (__sqe : io_uring_sqe) : M sched io_uring_sqe :=
  t ← on_objs (load __op);
  mret (mkSqe IORING_OP_ASYNC_CANCEL 0 0 0 0 (__target_ t) 0 0 0 0).

Definition stop_complete (__op : ptr) (_ : io_uring_cqe) : M sched unit :=
  t ← on_objs (load __op);
  let __target := __target_ t in
  n ← fetch_sub_n_ops __target;
  if decide (n = 1) then __manual_stop __target else mret tt.

(** ** Timers *)

(** [__timer_task::_M_complete] and [_M_stop] *)
Definition timer_call (p : ptr) (stopped : bool) : M sched unit :=
  t ← on_objs (load p);
  match class_of t with
  | Timer => emit (TimerDone p stopped);; timer_complete p stopped
  | _ => throw Undefined
  end.
Definition timer_M_complete (p : ptr) : M sched unit := timer_call p false.
Definition timer_M_stop (p : ptr) : M sched unit := timer_call p true.

(** [__manual_stop] of a [__timer_task_base], by [__cmd_] *)
Definition __manual_stop_timer (__op : ptr) : M sched unit :=
  t ← on_objs (load __op);
  match class_of t with
  | Timer => timer_M_stop __op
  | TimerStop => timer_M_stop (__target_ t)
  | _ => throw Undefined
  end.

(** [__scheduler::_M_submit] of an operation of the same thread *)
Definition submit_pending (__op : ptr) : M sched unit :=
  s ← get; q ← on_objs (_M_push_front (__io_pending_ s) __op); modify (set_io q).
End code.

(** ** What the client's functions may do

    A submit function fills in its entry and may change the client's own data,
    a completion function may besides push tasks on the scheduler's queue and
    destroy the task that has finished; [budget] bounds how many tasks it will
    push.  [is_cancel] are the tasks whose entries cancel another one. *)

Definition is_ioring (m : gmap ptr __task_facade) (p : ptr) (n : Z) : Prop :=
  p <> nullptr /\ exists t, m !! p = Some t /\ class_of t = Ioring n.

(** Everything outside [D] is still there, its class and target are the same,
    and only operations are linked anew. *)
Definition keeps (D : list ptr) (m m' : gmap ptr __task_facade) : Prop := forall x t,
  x ∉ D -> m !! x = Some t ->
  exists t', m' !! x = Some t' /\ class_of t' = class_of t /\ __target_ t' = __target_ t /\
    ((forall n, class_of t <> Ioring n) -> t' = t).

(** The queue holds operations that are not with the kernel. *)
Definition queued (m : gmap ptr __task_facade) (q : queue) (l : list ptr) : Prop :=
  qrep m q l /\ forall p, p ∈ l -> exists n, n <= 0 /\ is_ioring m p n.

(** ** Counts, classes and links of known objects *)

Section objects.
Implicit Types (p q x : ptr) (m : gmap ptr __task_facade) (D l : list ptr).

(** The object with another count. *)
Definition put_n_ops (p : ptr) (v : Z) (m : gmap ptr __task_facade) : gmap ptr __task_facade :=
  alter (with_class (Ioring v)) p m.

Lemma is_ioring_put m p n v : is_ioring m p n -> is_ioring (put_n_ops p v m) p v.
Proof.
  intros (? & t & Ht & ?). split; [done|]. exists (with_class (Ioring v) t).
  unfold put_n_ops. by rewrite lookup_alter_eq, Ht.
Qed.

Lemma is_ioring_put_ne m p q n v : p <> q -> is_ioring m q n -> is_ioring (put_n_ops p v m) q n.
Proof.
  intros ? (? & t & Ht & ?). split; [done|]. exists t.
  unfold put_n_ops. by rewrite lookup_alter_ne.
Qed.

Lemma is_ioring_fun m p n n' : is_ioring m p n -> is_ioring m p n' -> n = n'.
Proof. intros (_ & t & ? & ?) (_ & t' & ? & ?). simplify_eq. congruence. Qed.

Lemma keeps_refl D m : keeps D m m.
Proof. intros x t _ ?. eauto 10. Qed.

Lemma keeps_trans D D' m1 m2 m3 : keeps D m1 m2 -> keeps D' m2 m3 -> keeps (D ++ D') m1 m3.
Proof.
  intros H1 H2 x t Hx Ht. apply not_elem_of_app in Hx as [??].
  destruct (H1 x t) as (t1 & Ht1 & Hc & Htg & E1); [done..|].
  destruct (H2 x t1) as (t2 & Ht2 & Hc2 & Htg2 & E2); [done..|].
  exists t2. split_and!; [done|congruence..|]. intros Hn. rewrite E2; [auto|]. intros n. by rewrite Hc.
Qed.

Lemma keeps_mono (D D' : list ptr) m1 m2 : D ⊆ D' -> keeps D m1 m2 -> keeps D' m1 m2.
Proof. intros Hs H1 x t Hx. apply H1. intros ?. by apply Hx, Hs. Qed.

Lemma keeps_ioring D m m' p n : keeps D m m' -> p ∉ D -> is_ioring m p n -> is_ioring m' p n.
Proof.
  intros H ? (? & t & Ht & ?). destruct (H p t) as (t' & ? & E & _); [done..|].
  split; [done|]. exists t'. by rewrite E.
Qed.

(** Only operations that are not with the kernel change. *)
Definition spares (m m' : gmap ptr __task_facade) : Prop :=
  exists D, keeps D m m' /\ forall x, x ∈ D -> exists n, n <= 0 /\ is_ioring m x n.

Lemma spares_refl m : spares m m.
Proof. exists []. split; [apply keeps_refl|]. intros x Hx. by apply not_elem_of_nil in Hx. Qed.

Lemma spares_trans m1 m2 m3 : spares m1 m2 -> spares m2 m3 -> spares m1 m3.
Proof.
  intros (D & Hk & HD) (D' & Hk' & HD'). exists (D ++ filter (fun x => is_Some (m1 !! x)) D'). split.
  - intros x t Hx Ht. rewrite elem_of_app, list_elem_of_filter in Hx.
    destruct (Hk x t) as (t1 & Ht1 & Hc & Htg & E1); [tauto|done|].
    destruct (Hk' x t1) as (t2 & Ht2 & Hc2 & Htg2 & E2); [by intros ?; apply Hx; right|done|].
    exists t2. split_and!; [done|congruence..|]. intros Hn. rewrite E2; [auto|]. intros n. by rewrite Hc.
  - intros x [Hx|[[t Ht] Hx]%list_elem_of_filter]%elem_of_app; [by apply HD|].
    destruct (decide (x ∈ D)) as [|Hn]; [by apply HD|]. destruct (HD' x Hx) as (n & Hle & Hp & t1 & Ht1 & Hc1).
    destruct (Hk x t Hn Ht) as (t2 & Ht2 & Hc2 & _). simplify_eq. exists n. split; [done|]. split; [done|]. exists t. by rewrite <- Hc2.
Qed.

Lemma spares_idle m m' (q : queue) l p : queued m q l -> p ∈ l -> keeps [p] m m' -> spares m m'.
Proof. intros [_ Hq] Hp Hk. exists [p]. split; [done|]. intros x ->%list_elem_of_singleton. by apply Hq. Qed.

Lemma spares_ioring m m' p n : spares m m' -> is_ioring m p n -> 0 < n -> is_ioring m' p n.
Proof.
  intros (D & Hk & HD) Hp Hn. eapply keeps_ioring; [done| |done]. intros (k & ? & _ & t & Ht & Hc)%HD.
  destruct Hp as (_ & t' & Ht' & Hc'). simplify_eq. rewrite Hc in Hc'. injection Hc'. lia.
Qed.

Lemma put_n_ops_keeps p v m : keeps [p] m (put_n_ops p v m).
Proof.
  intros x t Hx Ht. exists t. unfold put_n_ops. rewrite lookup_alter_ne by set_solver. done.
Qed.

Lemma lseg_links m m' p l q :
  (forall x (n : __task_facade), m !! x = Some n -> exists n', m' !! x = Some n' /\ next_of n' = next_of n) ->
  lseg m p l q -> lseg m' p l q.
Proof.
  intros Hm. revert p. induction l as [|y l IH]; intros p; simpl; [done|].
  intros (-> & ? & n & Hn & ?). destruct (Hm _ _ Hn) as (n' & ? & E).
  split_and!; [done..|]. exists n'. simpl in E. rewrite E. auto.
Qed.

Lemma queued_put m (q : queue) l p v n : queued m q l -> is_ioring m p n -> (p ∈ l -> v <= 0) ->
  queued (put_n_ops p v m) q l.
Proof.
  intros [[Hl Ht] Hi] Hp Hv. split.
  - split; [|done]. eapply lseg_links; [|done]. intros x t Hx. unfold put_n_ops.
    destruct (decide (x = p)) as [->|].
    + rewrite lookup_alter_eq, Hx. simpl. eauto.
    + rewrite lookup_alter_ne by done. eauto.
  - intros x Hx. destruct (decide (p = x)) as [<-|].
    + exists v. split; [auto|]. by eapply is_ioring_put.
    + destruct (Hi x Hx) as (k & ? & ?). exists k. split; [done|]. by apply is_ioring_put_ne.
Qed.

Lemma queued_idle m (q : queue) l p n : queued m q l -> is_ioring m p n -> 0 < n -> p ∉ l.
Proof. intros [_ Hi] Hp Hn Hx. destruct (Hi p Hx) as (k & ? & Hk). rewrite (is_ioring_fun _ _ _ _ Hp Hk) in Hn. lia. Qed.

Lemma queued_NoDup m (q : queue) l : queued m q l -> NoDup l.
Proof. intros [? _]. by eapply qrep_NoDup. Qed.

Lemma put_n_ops_same p n m : is_ioring m p n -> put_n_ops p n m = m.
Proof.
  intros (_ & t & Ht & Hc). apply map_eq. intros x. unfold put_n_ops.
  destruct (decide (x = p)) as [->|]; [|by rewrite lookup_alter_ne].
  rewrite lookup_alter_eq, Ht. destruct t; simpl in *. by rewrite Hc.
Qed.

Lemma put_n_ops_put p v w m : put_n_ops p v (put_n_ops p w m) = put_n_ops p v m.
Proof.
  apply map_eq. intros x. unfold put_n_ops. destruct (decide (x = p)) as [->|].
  - rewrite !lookup_alter_eq. by destruct (m !! p).
  - by rewrite !lookup_alter_ne.
Qed.

End objects.

Section laws.
Context {C : Type}.
Abbreviation sched := (__scheduler C).

Definition pushes_only (budget : C -> nat) (D l : list ptr) (s s' : sched) : Prop :=
  exists new q m c, s' = set_client c (set_io q (set_objs m s)) /\ queued m q (new ++ l) /\
    keeps D (objs s) m /\ (length new + budget c <= budget (client s))%nat.

Definition finished (p : ptr) (e : io_uring_cqe) : list ptr := if more e then [] else [p].

Class ClientLaws (client_submit : ptr -> io_uring_sqe -> M sched io_uring_sqe)
    (client_complete : ptr -> io_uring_cqe -> M sched unit)
    (is_cancel : ptr -> bool) (budget : C -> nat) := {
  client_submit_law p e s : returns (client_submit p e) s (fun e' s' =>
    (exists c, s' = set_client c s /\ (budget c <= budget (client s))%nat) /\
    (opcode e' =? IORING_OP_ASYNC_CANCEL) = is_cancel p);
  client_complete_law p e s l : queued (objs s) (__io_pending_ s) l -> p ∉ l ->
    is_ioring (objs s) p (if more e then 1 else 0) ->
    returns (client_complete p e) s (fun _ s' => pushes_only budget (finished p e) l s s')
}.

Class TimerLaws (timer_complete : ptr -> bool -> M sched unit) (budget : C -> nat) :=
  timer_complete_law p b s l : queued (objs s) (__io_pending_ s) l ->
    returns (timer_complete p b) s (fun _ s' => pushes_only budget [] l s s').
End laws.

(** ** The accesses, on known objects *)

Section specs.
Context {C : Type}.
Abbreviation sched := (__scheduler C).
Implicit Types (s : sched) (p : ptr).
Context (client_submit : ptr -> io_uring_sqe -> M sched io_uring_sqe).
Context (client_complete : ptr -> io_uring_cqe -> M sched unit).

Lemma set_objs_same s : set_objs (objs s) s = s.
Proof. by destruct s. Qed.

Lemma on_objs_load s p t (Q : __task_facade -> sched -> Prop) :
  p <> nullptr -> objs s !! p = Some t -> Q t s -> returns (on_objs (load p)) s Q.
Proof.
  intros ? Ht ?. unfold returns, on_objs, load. rewrite decide_False by done.
  by rewrite Ht, set_objs_same.
Qed.

Lemma returns_load_n_ops s p n (Q : Z -> sched -> Prop) :
  is_ioring (objs s) p n -> Q n s -> returns (load_n_ops p) s Q.
Proof.
  intros (? & t & ? & Ht) ?. unfold load_n_ops. eapply returns_bind, on_objs_load; [done..|].
  by rewrite Ht.
Qed.

Lemma returns_store_n_ops s p n v (Q : unit -> sched -> Prop) :
  is_ioring (objs s) p n -> Q tt (set_objs (put_n_ops p v (objs s)) s) ->
  returns (store_n_ops p v) s Q.
Proof.
  intros Hp HQ. unfold store_n_ops. eapply returns_bind, returns_load_n_ops; [done|].
  destruct Hp as (? & t & Ht & Hc). unfold returns, on_objs, update, mbind, M_bind, load, modify.
  rewrite decide_False, Ht by done.
  replace (<[p := _]> (objs s)) with (put_n_ops p v (objs s)); [done|].
  unfold put_n_ops. apply map_eq. intros x. destruct (decide (x = p)) as [->|].
  - by rewrite lookup_alter_eq, lookup_insert_eq, Ht.
  - by rewrite lookup_alter_ne, lookup_insert_ne by done.
Qed.

Lemma returns_fetch_sub s p n (Q : Z -> sched -> Prop) :
  is_ioring (objs s) p n -> Q n (set_objs (put_n_ops p (swrap 32 (n - 1)) (objs s)) s) ->
  returns (fetch_sub_n_ops p) s Q.
Proof.
  intros ??. unfold fetch_sub_n_ops. eapply returns_bind, returns_load_n_ops; [done|].
  eapply returns_bind, returns_store_n_ops; eauto.
Qed.

(** [__ioring_task::_M_complete], on every branch: what the call returns,
    whether the task's function is called, and the count it is called with. *)
Definition delivers (n : Z) : bool := n =? 1.
Definition count_after (n : Z) (e : io_uring_cqe) : Z :=
  if more e && (n =? 1) then n else swrap 32 (n - 1).

Lemma complete_cases s p n e (Q : Z -> sched -> Prop) :
  is_ioring (objs s) p n ->
  (let s' := set_objs (put_n_ops p (count_after n e) (objs s)) s in
   let r := if more e then 0 else 1 in
   if delivers n then returns (virt_complete client_complete p e) s' (fun _ => Q r) else Q r s') ->
  returns (_M_complete client_complete p e) s Q.
Proof.
  intros Hp. unfold _M_complete, delivers, count_after.
  destruct (more e), (Z.eqb_spec n 1) as [->|Hn]; simpl; intros HQ.
  - rewrite put_n_ops_same, set_objs_same in HQ by done. do 2 apply returns_bind.
    eapply returns_load_n_ops; [done|]. apply returns_ret, returns_bind, returns_ret, returns_bind. by eapply returns_mono; [exact HQ|].
  - apply Z.eqb_neq in Hn as E. do 2 apply returns_bind. eapply returns_load_n_ops; [done|].
    apply returns_ret. rewrite E. do 2 apply returns_bind. eapply returns_fetch_sub; [done|].
    apply returns_ret. by rewrite E.
  - apply returns_bind, returns_ret. do 2 apply returns_bind.
    eapply returns_fetch_sub; [done|]. apply returns_ret. simpl. apply returns_bind.
    by eapply returns_mono; [exact HQ|].
  - apply Z.eqb_neq in Hn as E. apply returns_bind, returns_ret. do 2 apply returns_bind.
    eapply returns_fetch_sub; [done|]. apply returns_ret. by rewrite E.
Qed.

Lemma run_load_n_ops s p n : is_ioring (objs s) p n -> load_n_ops p s = Done (n, s).
Proof.
  intros Hp. assert (returns (load_n_ops p) s (fun a s' => a = n /\ s' = s)) as Hr
    by by eapply returns_load_n_ops.
  by apply returns_Done in Hr as (? & ? & ? & -> & ->).
Qed.

Lemma run_fetch_sub s p n : is_ioring (objs s) p n ->
  fetch_sub_n_ops p s = Done (n, set_objs (put_n_ops p (swrap 32 (n - 1)) (objs s)) s).
Proof.
  intros Hp. eapply (returns_fetch_sub s p n (fun a s' => a = n /\ s' = _)) in Hp as Hr; [|done].
  by apply returns_Done in Hr as (? & ? & ? & -> & ->).
Qed.

(** A last completion, by the count it finds. *)
Lemma run_final s p n e : is_ioring (objs s) p n -> more e = false ->
  _M_complete client_complete p e s =
    ((if delivers n then virt_complete client_complete p e else mret tt);; mret 1)
      (set_objs (put_n_ops p (swrap 32 (n - 1)) (objs s)) s).
Proof.
  intros Hp He. unfold _M_complete. rewrite He. simpl.
  erewrite (run_bind (mret false)) by done. cbv beta iota.
  erewrite run_bind; [|by erewrite run_bind by by apply run_fetch_sub]. done.
Qed.

Lemma run_stop_complete s st t x c n :
  objs s !! st = Some (mkFacade t x IoringStop) -> st <> nullptr -> is_ioring (objs s) t n ->
  stop_complete client_complete st c s =
    (if decide (n = 1) then __manual_stop client_complete t else mret tt)
      (set_objs (put_n_ops t (swrap 32 (n - 1)) (objs s)) s).
Proof.
  intros Hst ? Ht. unfold stop_complete.
  erewrite run_bind; [|unfold on_objs, load; by rewrite decide_False, Hst by done].
  rewrite set_objs_same. by erewrite run_bind by by apply run_fetch_sub.
Qed.

Lemma run_unstarted s p : is_ioring (objs s) p 0 ->
  __manual_stop client_complete p s = Done (tt, set_objs (put_n_ops p (-1) (objs s)) s).
Proof.
  intros Hp. unfold __manual_stop. erewrite run_bind; [done|].
  rewrite (run_final _ _ 0) by done. done.
Qed.

Lemma relinks_keeps m m' p n : relinks [p] m m' -> is_ioring m p n -> keeps [] m m'.
Proof.
  intros H (_ & tp & Hp & Hc) x t _ Hx. destruct (H x) as [E|(Hin & t' & v & E & E')]; [exists t; by rewrite E|].
  simplify_eq. exists (set_next v t). split_and!; [done..|]. intros Hn.
  apply list_elem_of_singleton in Hin as ->. simplify_eq. by destruct (Hn n).
Qed.

(** Pushing an operation that is not with the kernel. *)
Lemma submit_pending_spec s p n l :
  queued (objs s) (__io_pending_ s) l -> p ∉ l -> is_ioring (objs s) p n -> n <= 0 ->
  returns (submit_pending p) s (fun _ s' => exists q m, s' = set_io q (set_objs m s) /\
    queued m q (p :: l) /\ keeps [] (objs s) m).
Proof.
  intros [Hq Hi] Hpl Hp Hn. unfold submit_pending. apply returns_bind, returns_get.
  assert (live (objs s) p) as Hlive by (destruct Hp as (? & t & ? & _); split; eauto).
  pose proof (push_front_spec _ _ _ _ Hq Hlive Hpl) as (q & m & E & Hq' & Hr)%returns_Done.
  apply returns_bind. unfold returns at 1, on_objs. rewrite E. simpl.
  pose proof (relinks_keeps _ _ _ _ Hr Hp) as Hk. exists q, m. split_and!; [done| |done].
  split; [done|]. intros x [->|Hx]%elem_of_cons; [exists n|destruct (Hi x Hx) as (k & ? & ?); exists k].
  all: split; [done|]; eapply keeps_ioring; [done|apply not_elem_of_nil|done].
Qed.

(** an operation whose cancellation has been submitted too counts two
    completions, and which of them comes first decides what its owner sees.
    When the cancellation completes first, the operation's own completion is
    delivered to it.  When the operation completes first, its completion is held
    back and the completion of the cancellation does not deliver one either: the
    count it decrements to zero is tested for one once more by [__manual_stop],
    so the function is never called and the count ends at -1.  An operation that
    was never submitted (its count is zero) is not called by [__manual_stop]
    either. *)
Theorem cancel_race s st t x e c :
  objs s !! st = Some (mkFacade t x IoringStop) -> st <> nullptr -> more e = false ->
  (is_ioring (objs s) t 2 ->
    (stop_complete client_complete st c;; _M_complete client_complete t e) s =
      (virt_complete client_complete t e;; mret 1) (set_objs (put_n_ops t 0 (objs s)) s) /\
    (_ ← _M_complete client_complete t e; stop_complete client_complete st c) s =
      Done (tt, set_objs (put_n_ops t (-1) (objs s)) s)) /\
  (is_ioring (objs s) t 0 ->
    __manual_stop client_complete t s = Done (tt, set_objs (put_n_ops t (-1) (objs s)) s)).
Proof.
  intros Hst ? He. split; [intros H2; split|by apply run_unstarted].
  - erewrite run_bind; [|by rewrite (run_stop_complete _ _ t x _ 2)].
    erewrite run_final; [|by eapply is_ioring_put|done]. simpl. by rewrite put_n_ops_put.
  - assert (st <> t) by (intros ->; destruct H2 as (_ & ? & ? & ?); by simplify_eq).
    erewrite run_bind; [|by rewrite (run_final _ _ 2) by done]. erewrite run_stop_complete; [| |done|by eapply is_ioring_put].
    + change (swrap 32 (2 - 1)) with 1. rewrite decide_True by done. rewrite run_unstarted.
      * simpl. by rewrite !put_n_ops_put.
      * by eapply is_ioring_put, is_ioring_put.
    + unfold put_n_ops. simpl. rewrite lookup_alter_ne by done. done.
Qed.
End specs.

Module task_example.
Definition objects : gmap ptr __task_facade := list_to_map [
  (64, mkFacade 0 nullptr (Ioring 2)); (128, mkFacade 64 nullptr IoringStop);
  (192, mkFacade 0 nullptr (Ioring 0)); (256, mkFacade 192 nullptr IoringStop)].
Definition start : __scheduler nat := mkSched objects (intrusive_heap.mkHeap ∅ nullptr 0)
  (mkSq 0 0 [] [] 0 0) (mkCq 0 0 [] 0) empty_queue empty_queue 0 0 0 0%nat [].
Definition complete (_ : ptr) (_ : io_uring_cqe) : M (__scheduler nat) unit :=
  modify (fun s => set_client (S (client s)) s).

Lemma cancel_race_witness :
  (_ ← _M_complete complete 64 (mkCqe 64 (-125) 0); stop_complete complete 128 (mkCqe 128 0 0)) start =
    Done (tt, set_objs (put_n_ops 64 (-1) objects) start) /\
  __manual_stop complete 192 start = Done (tt, set_objs (put_n_ops 192 (-1) objects) start).
Proof.
  split.
  - apply (cancel_race complete start 128 64 nullptr (mkCqe 64 (-125) 0) (mkCqe 128 0 0)); [done..|].
    split; [done|]. by eexists.
  - apply (cancel_race complete start 256 192 nullptr (mkCqe 64 (-125) 0) (mkCqe 128 0 0)); [done..|].
    split; [done|]. by eexists.
Defined.
End task_example.
End tasks.
