(* ===== verification/Rings.v ===== *)
(** * [__scheduler.hpp]: the submission and the completion queue

    The two rings a scheduler shares with the kernel.  [__submission_queue] and
    [__completion_queue] hold 32-bit positions that only grow and wrap around;
    an entry is found by masking.  Module [rings] models [_M_submit] and
    [_M_complete]: the loops call the tasks' functions, which may push further
    tasks on the queue that is being drained.

    What the kernel posts while completions are consumed is an argument. *)

From S2P Require Import Prelude Memory IntrusiveQueue IntrusiveHeap Tasks.
Import intrusive_queue tasks.

Module rings.
Section code.
Context {C : Type}.
Abbreviation sched := (__scheduler C).
Implicit Types (s : sched) (p : ptr).
Context (client_submit : ptr -> io_uring_sqe -> M sched io_uring_sqe).
Context (client_complete : ptr -> io_uring_cqe -> M sched unit).

Definition __umin (__a __b : Z) : Z := if __a <? __b then __a else __b.
Definition __umax (__a __b : Z) : Z := if __a <? __b then __b else __a.

(** ** Accesses *)

Definition read_at {A} (l : list A) (i : Z) : M sched A :=
  match l !! Z.to_nat i with Some x => mret x | None => throw OutOfBounds end.
Definition read_sqe (m : Z) : M sched io_uring_sqe := s ← get; read_at (__sqe_ (__sq_ s)) m.
Definition read_cqe (m : Z) : M sched io_uring_cqe := s ← get; read_at (__cqe_ (__cq_ s)) m.
Definition write_sqe (m : Z) (e : io_uring_sqe) : M sched unit :=
  _ ← read_sqe m;
  modify (fun s => let q := __sq_ s in
    set_sq (mkSq (sq_head q) (sq_tail q) (__array_ q) (<[Z.to_nat m := e]> (__sqe_ q)) (sq_mask q) (__n_slot_ q)) s).
Definition write_array (m v : Z) : M sched unit :=
  s ← get; _ ← read_at (__array_ (__sq_ s)) m;
  modify (fun s => let q := __sq_ s in
    set_sq (mkSq (sq_head q) (sq_tail q) (<[Z.to_nat m := v]> (__array_ q)) (__sqe_ q) (sq_mask q) (__n_slot_ q)) s).
Definition store_sq_tail (v : Z) : M sched unit :=
  modify (fun s => let q := __sq_ s in
    set_sq (mkSq (sq_head q) v (__array_ q) (__sqe_ q) (sq_mask q) (__n_slot_ q)) s).
Definition store_cq_head (v : Z) : M sched unit :=
  modify (fun s => let q := __cq_ s in
    set_cq (mkCq v (cq_tail q) (__cqe_ q) (cq_mask q)) s).

Definition pop_pending : M sched ptr :=
  s ← get; '(p, q) ← on_objs (_M_pop_front (__io_pending_ s)); modify (set_io q);; mret p.

(** ** [__submission_queue::_M_submit]

    The [while] loop: [__tail], [__r] and [__stop] are the local variables; the
    third is assigned in the body. *)
Fixpoint submit_loop (fuel : nat) (__max __tail __r : Z) (__stop : bool) : M sched (Z * Z) :=
  match fuel with
  | O => throw OutOfFuel
  | S fuel =>
      s ← get;
      if negb (_M_empty (__io_pending_ s)) && (__r <? __max) then
        let __m := Z.land __tail (sq_mask (__sq_ s)) in
        old ← read_sqe __m;
        __op ← pop_pending;
        __sqe ← _M_submit client_submit __op old;
        write_sqe __m __sqe;;
        let __stop := __stop && negb (opcode __sqe =? IORING_OP_ASYNC_CANCEL) in
        if (__stop : bool) then
          __manual_stop client_complete __op;;
          submit_loop fuel __max __tail __r __stop
        else
          write_sqe __m (with_user_data __op __sqe);;
          write_array __m __m;;
          submit_loop fuel __max (u32 (__tail + 1)) (u32 (__r + 1)) __stop
      else mret (__tail, __r)
  end.

Definition sq_M_submit (fuel : nat) (__max : Z) (__stop : bool) : M sched Z :=
  s ← get;
  let __tail := sq_tail (__sq_ s) in
  let __n := u32 (__tail - sq_head (__sq_ s)) in
  let __max := __umin __max (u32 (__n_slot_ (__sq_ s) - __n)) in
  '(__tail, __r) ← submit_loop fuel __max __tail 0 __stop;
  store_sq_tail __tail;;
  mret __r.

(** ** [__completion_queue::_M_complete]

    [kernel es] posts the entries [es]; [arrivals] are the entries it posts
    before each time the loop reads the tail again. *)
Context (kernel : list io_uring_cqe -> __completion_queue -> __completion_queue).

Fixpoint complete_loop (fuel : nat) (arrivals : list (list io_uring_cqe)) (__head __tail __n : Z) :
    M sched (Z * Z) :=
  match fuel with
  | O => throw OutOfFuel
  | S fuel =>
      if decide (__head <> __tail) then
        s ← get;
        __cqe ← read_cqe (Z.land __head (cq_mask (__cq_ s)));
        d ← _M_complete client_complete (cqe_user_data __cqe) __cqe;
        modify (fun s => set_cq (kernel (default [] (head arrivals)) (__cq_ s)) s);;
        s ← get;
        complete_loop fuel (tail arrivals) (u32 (__head + 1)) (cq_tail (__cq_ s)) (u32 (__n + d))
      else mret (__head, __n)
  end.

Definition cq_M_complete (fuel : nat) (arrivals : list (list io_uring_cqe)) : M sched Z :=
  s ← get;
  '(__head, __n) ← complete_loop fuel arrivals (cq_head (__cq_ s)) (cq_tail (__cq_ s)) 0;
  store_cq_head __head;;
  mret __n.
Lemma submit_loop_grows n n' max t r stop : (n <= n')%nat -> grows (submit_loop n max t r stop) (submit_loop n' max t r stop).
Proof.
  revert n' t r stop. induction n as [|n IH]; intros [|n'] t r stop Hn; [grow..|lia|]. simpl. grow; apply IH; lia.
Qed.

Lemma sq_M_submit_grows n n' max stop : (n <= n')%nat -> grows (sq_M_submit n max stop) (sq_M_submit n' max stop).
Proof. intros Hn. unfold sq_M_submit. apply grows_bind; [grow|]. intros s. apply grows_bind; [by apply submit_loop_grows|grow]. Qed.

Lemma complete_loop_grows n n' A h t c : (n <= n')%nat -> grows (complete_loop n A h t c) (complete_loop n' A h t c).
Proof.
  revert n' A h t c. induction n as [|n IH]; intros [|n'] A h t c Hn; [grow..|lia|]. simpl. grow; apply IH; lia.
Qed.

Lemma cq_M_complete_grows n n' A : (n <= n')%nat -> grows (cq_M_complete n A) (cq_M_complete n' A).
Proof. intros Hn. unfold cq_M_complete. apply grows_bind; [grow|]. intros s. apply grows_bind; [by apply complete_loop_grows|grow]. Qed.
End code.

(** ** What the rings hold *)

(** The slots of [n] positions from [h] on in a ring of [2 ^ k]. *)
Definition slot (k i : Z) : nat := Z.to_nat (i mod 2 ^ k).

(** The submission ring presents [es] to the kernel: entry and index at every
    position from the head on. *)
Definition sq_holds (k : Z) (q : __submission_queue) (es : list io_uring_sqe) : Prop :=
  forall j e, es !! j = Some e ->
    __array_ q !! slot k (sq_head q + Z.of_nat j) = Some (Z.of_nat (slot k (sq_head q + Z.of_nat j))) /\
    __sqe_ q !! slot k (sq_head q + Z.of_nat j) = Some e.

Definition sq_shape (k : Z) (q : __submission_queue) : Prop :=
  0 <= k < 32 /\ __n_slot_ q = 2 ^ k /\ sq_mask q = 2 ^ k - 1 /\
  length (__array_ q) = Z.to_nat (2 ^ k) /\ length (__sqe_ q) = Z.to_nat (2 ^ k) /\
  is_word 32 (sq_head q).

Definition sq_rep (k : Z) (q : __submission_queue) (es : list io_uring_sqe) : Prop :=
  sq_shape k q /\ sq_holds k q es /\ Z.of_nat (length es) <= 2 ^ k /\
  sq_tail q = u32 (sq_head q + Z.of_nat (length es)).

Definition cq_shape (k : Z) (q : __completion_queue) : Prop :=
  0 <= k < 32 /\ cq_mask q = 2 ^ k - 1 /\ length (__cqe_ q) = Z.to_nat (2 ^ k) /\
  is_word 32 (cq_head q).

(** From position [h] on the completion ring holds [es]. *)
Definition cq_holds (k h : Z) (q : __completion_queue) (es : list io_uring_cqe) : Prop :=
  forall j e, es !! j = Some e -> __cqe_ q !! slot k (h + Z.of_nat j) = Some e.

Definition cq_rep (k : Z) (q : __completion_queue) (es : list io_uring_cqe) : Prop :=
  cq_shape k q /\ cq_holds k (cq_head q) q es /\ Z.of_nat (length es) <= 2 ^ k /\
  cq_tail q = u32 (cq_head q + Z.of_nat (length es)).

(** ** Slots *)

Lemma slot_land k z : 0 <= k -> Z.to_nat (Z.land (u32 z) (2 ^ k - 1)) = slot k (u32 z).
Proof. intros. by rewrite land_pow2_mask. Qed.

Lemma slot_u32 k z : 0 <= k <= 32 -> slot k (u32 z) = slot k z.
Proof. intros. unfold slot. by rewrite wrap_mod_pow2. Qed.

Lemma slot_lt k z : 0 <= k -> (slot k z < Z.to_nat (2 ^ k))%nat.
Proof. intros. unfold slot. pose proof (Z.pow_pos_nonneg 2 k). pose proof (Z.mod_pos_bound z (2 ^ k)). lia. Qed.

Lemma mod_shift_inj m h i j : 0 < m -> 0 <= i < m -> 0 <= j < m ->
  (h + i) mod m = (h + j) mod m -> i = j.
Proof.
  intros ? Hi Hj E. assert ((i - j) mod m = 0) as Hz.
  { replace (i - j) with ((h + i) - (h + j)) by lia. rewrite Zminus_mod, E, Z.sub_diag. done. }
  apply Z.mod_divide in Hz as [d Hd]; [|lia]. assert (d < 1 /\ -1 < d) by (split; nia). nia.
Qed.

Lemma ring_slot_inj k h i j : 0 <= k -> 0 <= i < 2 ^ k -> 0 <= j < 2 ^ k ->
  slot k (h + i) = slot k (h + j) -> i = j.
Proof.
  intros ? Hi Hj E. unfold slot in E. apply Z2Nat.inj in E; [|apply Z.mod_pos_bound; lia..].
  by apply mod_shift_inj in E; [|lia..].
Qed.

Lemma lookup_slot {A} (l : list A) k z : 0 <= k -> length l = Z.to_nat (2 ^ k) ->
  exists x, l !! slot k z = Some x.
Proof. intros ? Hl. apply lookup_lt_is_Some. rewrite Hl. by apply slot_lt. Qed.

(** ** What the loops do not touch *)

Section specs.
Context {C : Type}.
Abbreviation sched := (__scheduler C).
Implicit Types (s : sched) (p : ptr) (l : list ptr) (k : Z).

Definition sq_rest s := (__heap_ s, __cq_ s, __dr_pending_ s, (__n_total_submit_ s, __n_newly_submit_ s, cq_entries s)).

Context (client_submit : ptr -> io_uring_sqe -> M sched io_uring_sqe).
Context (client_complete : ptr -> io_uring_cqe -> M sched unit).
Context (is_cancel : ptr -> bool) (budget : C -> nat).
Context `{!ClientLaws client_submit client_complete is_cancel budget}.

Lemma returns_read_at {A} (l : list A) i x s (Q : A -> sched -> Prop) :
  l !! Z.to_nat i = Some x -> Q x s -> returns (read_at l i) s Q.
Proof. intros E ?. unfold read_at. by rewrite E. Qed.

Lemma returns_pop s p l (Q : ptr -> sched -> Prop) :
  queued (objs s) (__io_pending_ s) (p :: l) ->
  (forall q, queued (objs s) q l -> Q p (set_io q s)) -> returns pop_pending s Q.
Proof.
  intros [Hq Hi] HQ. unfold pop_pending. apply returns_bind, returns_get.
  apply pop_front_spec, returns_Done in Hq as ([x q] & m & E & -> & -> & Hq).
  apply returns_bind. unfold returns at 1, on_objs. rewrite E, set_objs_same. simpl.
  apply HQ. split; [done|]. intros y ?. apply Hi. by right.
Qed.

(** Taking the first task and letting it fill in its entry. *)
Definition submitted p l s s1 : Prop :=
  queued (objs s1) (__io_pending_ s1) l /\ is_ioring (objs s1) p 1 /\
  keeps [p] (objs s) (objs s1) /\ __sq_ s1 = __sq_ s /\ sq_rest s1 = sq_rest s /\
  log s1 = log s ++ [Submitted p] /\ (budget (client s1) <= budget (client s))%nat.

Lemma returns_take {B} s p l old (K : ptr -> io_uring_sqe -> M sched B) Q :
  queued (objs s) (__io_pending_ s) (p :: l) ->
  (forall e s1, submitted p l s s1 -> (opcode e =? IORING_OP_ASYNC_CANCEL) = is_cancel p ->
    returns (K p e) s1 Q) ->
  returns (__op ← pop_pending; __sqe ← _M_submit client_submit __op old; K __op __sqe) s Q.
Proof.
  intros Hq HK. pose proof (queued_NoDup _ _ _ Hq) as [Hp _]%NoDup_cons.
  destruct (proj2 Hq p) as (n & _ & Hn); [by left|].
  eapply returns_bind, returns_pop; [done|]. intros q Hq'.
  apply returns_bind. unfold _M_submit. eapply returns_bind, returns_store_n_ops; [done|].
  eapply returns_bind, returns_modify. eapply returns_mono; [by apply client_submit_law|].
  intros e s1 ((c & -> & ?) & ?). apply HK; [|done].
  split_and!; [by eapply queued_put; [done|done|intros ?]|by eapply is_ioring_put|by apply put_n_ops_keeps|done..].
Qed.

Definition put_sqe (i : nat) (e : io_uring_sqe) (q : __submission_queue) : __submission_queue :=
  mkSq (sq_head q) (sq_tail q) (__array_ q) (<[i := e]> (__sqe_ q)) (sq_mask q) (__n_slot_ q).
Definition put_index (i : nat) (v : Z) (q : __submission_queue) : __submission_queue :=
  mkSq (sq_head q) (sq_tail q) (<[i := v]> (__array_ q)) (__sqe_ q) (sq_mask q) (__n_slot_ q).

Lemma shape_put_sqe k q i e : sq_shape k q -> sq_shape k (put_sqe i e q).
Proof. intros (? & ? & ? & ? & ? & ?). split_and!; simpl; rewrite ?length_insert; done || lia. Qed.
Lemma shape_put_index k q i v : sq_shape k q -> sq_shape k (put_index i v q).
Proof. intros (? & ? & ? & ? & ? & ?). split_and!; simpl; rewrite ?length_insert; done || lia. Qed.

Lemma mask_slot k q z : sq_shape k q -> Z.to_nat (Z.land (u32 z) (sq_mask q)) = slot k z.
Proof. intros (? & _ & -> & _). rewrite slot_land by lia. apply slot_u32. lia. Qed.

Lemma returns_read_sqe k s z (Q : io_uring_sqe -> sched -> Prop) :
  sq_shape k (__sq_ s) -> (forall e, Q e s) ->
  returns (read_sqe (Z.land (u32 z) (sq_mask (__sq_ s)))) s Q.
Proof.
  intros Hk HQ. unfold read_sqe. apply returns_bind, returns_get.
  pose proof Hk as (? & _ & _ & _ & Hl & _).
  destruct (lookup_slot _ k z ltac:(lia) Hl) as [e He]. eapply returns_read_at; [|apply HQ].
  by rewrite (mask_slot k).
Qed.

Lemma returns_write_sqe k s q z e (Q : unit -> sched -> Prop) :
  sq_shape k (__sq_ s) -> sq_mask q = sq_mask (__sq_ s) ->
  Q tt (set_sq (put_sqe (slot k z) e (__sq_ s)) s) ->
  returns (write_sqe (Z.land (u32 z) (sq_mask q)) e) s Q.
Proof.
  intros Hk -> HQ. unfold write_sqe. eapply returns_bind, returns_read_sqe; [done|]. intros _.
  apply returns_modify. by rewrite (mask_slot k).
Qed.

Lemma returns_write_array k s q z v (Q : unit -> sched -> Prop) :
  sq_shape k (__sq_ s) -> sq_mask q = sq_mask (__sq_ s) ->
  Q tt (set_sq (put_index (slot k z) v (__sq_ s)) s) ->
  returns (write_array (Z.land (u32 z) (sq_mask q)) v) s Q.
Proof.
  intros Hk -> HQ. unfold write_array. apply returns_bind, returns_get.
  pose proof Hk as (? & _ & _ & Hl & _).
  destruct (lookup_slot _ k z ltac:(lia) Hl) as [x Hx].
  eapply returns_bind, returns_read_at; [by rewrite (mask_slot k)|].
  apply returns_modify. by rewrite (mask_slot k).
Qed.

(** Writing the slot behind the entries leaves the entries alone. *)
Lemma holds_behind k q q' es :
  0 <= k -> sq_holds k q es -> Z.of_nat (length es) < 2 ^ k -> sq_head q' = sq_head q ->
  (forall i, i <> slot k (sq_head q + Z.of_nat (length es)) ->
    __array_ q' !! i = __array_ q !! i /\ __sqe_ q' !! i = __sqe_ q !! i) ->
  sq_holds k q' es.
Proof.
  intros ? Hh Hl Eh Hi j e He. rewrite Eh. pose proof (lookup_lt_Some _ _ _ He).
  destruct (Hi (slot k (sq_head q + Z.of_nat j))) as [-> ->]; [|by apply Hh].
  intros E%ring_slot_inj; lia.
Qed.

Lemma holds_snoc k q es e :
  sq_shape k q -> sq_holds k q es -> Z.of_nat (length es) < 2 ^ k ->
  let i := slot k (sq_head q + Z.of_nat (length es)) in
  sq_holds k (put_index i (Z.of_nat i) (put_sqe i e q)) (es ++ [e]).
Proof.
  intros Hk Hh Hl i j x Hx. pose proof Hk as (? & _ & _ & Ha & Hs & _).
  apply lookup_app_Some in Hx as [Hx|[Hj Hx]].
  - refine (holds_behind k q _ es _ Hh Hl _ _ j x Hx); [lia|done|].
    intros i' Hi'. simpl. by rewrite !list_lookup_insert_ne.
  - apply list_lookup_singleton_Some in Hx as [Hj' <-].
    assert (j = length es) as -> by lia. simpl. fold i.
    rewrite !list_lookup_insert_eq; [done|..]; rewrite ?Ha, ?Hs; apply slot_lt; lia.
Qed.

Lemma returns_enter {A} k s q es e e2 (K : M sched A) Q :
  q = __sq_ s -> sq_shape k q -> sq_holds k q es -> Z.of_nat (length es) < 2 ^ k ->
  (forall q', sq_shape k q' -> sq_head q' = sq_head q -> sq_holds k q' (es ++ [e2]) ->
    returns K (set_sq q' s) Q) ->
  let m := Z.land (u32 (sq_head q + Z.of_nat (length es))) (sq_mask q) in
  returns (write_sqe m e;; write_sqe m e2;; write_array m m;; K) s Q.
Proof.
  intros -> Hk Hh Hl HK m. subst m.
  eapply returns_bind, (returns_write_sqe k); [done..|].
  eapply returns_bind, (returns_write_sqe k); [by apply shape_put_sqe|done|].
  eapply returns_bind, (returns_write_array k); [by do 2 apply shape_put_sqe|done|].
  match goal with |- returns K (set_sq ?q' _) Q => apply (HK q') end; simpl.
  - by apply shape_put_index; do 2 apply shape_put_sqe.
  - done.
  - rewrite <- (Z2Nat.id (Z.land _ _)) by (apply Z.land_nonneg; left; by apply wrap_range).
    rewrite (mask_slot k) by done. refine (holds_snoc k (put_sqe _ e (__sq_ s)) es e2 _ _ Hl).
    + by apply shape_put_sqe.
    + eapply (holds_behind k (__sq_ s)); [destruct Hk as [? _]; lia|done..|].
      intros i Hi. simpl. by rewrite list_lookup_insert_ne.
Qed.

(** ** [__submission_queue::_M_submit] while nothing is to be stopped *)

Definition batch_of (l : list ptr) (n : Z) : nat := Nat.min (length l) (Z.to_nat n).

(** The first tasks of the queue follow the entries that are in the ring. *)
Definition batch_submitted k l (es : list io_uring_sqe) (b : nat) s s1 : Prop :=
  queued (objs s1) (__io_pending_ s1) (drop b l) /\
  (forall p, p ∈ take b l -> is_ioring (objs s1) p 1) /\ keeps (take b l) (objs s) (objs s1) /\
  sq_rest s1 = sq_rest s /\ log s1 = log s ++ (Submitted <$> take b l) /\
  (budget (client s1) <= budget (client s))%nat /\
  sq_shape k (__sq_ s1) /\ sq_head (__sq_ s1) = sq_head (__sq_ s) /\
  exists new, sq_holds k (__sq_ s1) (es ++ new) /\ user_data <$> new = take b l.

Lemma batch_submitted_nil k l es s :
  queued (objs s) (__io_pending_ s) l -> sq_shape k (__sq_ s) -> sq_holds k (__sq_ s) es ->
  batch_submitted k l es 0 s s.
Proof.
  intros ???. unfold batch_submitted. rewrite take_0, drop_0, !app_nil_r.
  split_and!; try done; [set_solver|apply keeps_refl|]. exists []. by rewrite app_nil_r.
Qed.

Lemma batch_submitted_cons k p l es e b s s1 q s2 :
  p ∉ l -> submitted p l s s1 -> sq_head q = sq_head (__sq_ s) -> user_data e = p ->
  batch_submitted k l (es ++ [e]) b (set_sq q s1) s2 ->
  batch_submitted k (p :: l) es (S b) s s2.
Proof.
  intros Hp (Hq1 & Hp1 & Hk1 & Hs1 & Hr1 & Hl1 & Hb1) Ehd <-
    (Hq2 & Hi2 & Hk2 & Hr2 & Hl2 & Hb2 & Hsh & Eh2 & new & Hh2 & Hn2).
  unfold batch_submitted. simpl in *. split_and!; [done| | | | |lia|done|congruence|].
  - intros x [->|Hx]%elem_of_cons; [|auto]. eapply keeps_ioring; [done| |done].
    intros Hx. apply Hp. by eapply subseteq_take.
  - eapply keeps_mono, keeps_trans; [|done..]. list_incl.
  - rewrite Hr2. done.
  - by rewrite Hl2, Hl1, <- app_assoc.
  - exists (e :: new). split; [by rewrite <- app_assoc in Hh2|]. by rewrite fmap_cons, Hn2.
Qed.

Definition loop_post k l es (max r : Z) s : Z * Z -> sched -> Prop := fun '(t, r') s1 =>
  let b := batch_of l (max - r) in
  batch_submitted k l es b s s1 /\ r' = r + Z.of_nat b /\
  t = u32 (sq_head (__sq_ s) + Z.of_nat (length es) + Z.of_nat b).

(** One round: the task is entered unless it is to be stopped, which a
    cancellation is not; after it nothing is. *)
Lemma submit_round fuel s p l k max r es stop :
  stop = false \/ is_cancel p = true ->
  queued (objs s) (__io_pending_ s) (p :: l) -> sq_shape k (__sq_ s) -> sq_holds k (__sq_ s) es ->
  0 <= r -> max < 2 ^ 32 -> Z.of_nat (length es) + (max - r) <= 2 ^ k -> r < max ->
  (forall e s1 q, submitted p l s s1 -> sq_shape k q -> sq_holds k q (es ++ [e]) ->
    let s2 := set_sq q s1 in
    returns (submit_loop client_submit client_complete fuel max
      (u32 (sq_head q + Z.of_nat (length (es ++ [e])))) (r + 1) false) s2
      (loop_post k l (es ++ [e]) max (r + 1) s2)) ->
  returns (submit_loop client_submit client_complete (S fuel) max
    (u32 (sq_head (__sq_ s) + Z.of_nat (length es))) r stop) s (loop_post k (p :: l) es max r s).
Proof.
  intros Hstop Hq Hk Hh Hr Hmax Hroom Hlt IH. simpl.
  apply returns_bind, returns_get. rewrite (qrep_empty _ _ _ (proj1 Hq)).
  rewrite (proj2 (Z.ltb_lt r max)) by done. simpl.
  eapply returns_bind, returns_read_sqe; [done|]. intros old.
  eapply returns_take; [done|]. intros e s1 Hsub He. pose proof Hsub as (_ & _ & _ & Hs1 & _).
  replace (stop && _) with false by (rewrite He; destruct Hstop as [->| ->]; [done|by rewrite andb_false_r]).
  rewrite <- Hs1. eapply (returns_enter k); rewrite ?Hs1; [done..|lia|].
  intros q Hkq Ehd Hhq. rewrite wrap_add_l, (wrap_small 32 (r + 1)) by (split; lia).
  rewrite <- Z.add_assoc, <- Ehd.
  replace (Z.of_nat (length es) + 1) with (Z.of_nat (length (es ++ [with_user_data p e])))
    by (rewrite length_app; simpl; lia).
  eapply returns_mono; [by eapply IH|].
  intros [t r'] s2 (Hb & -> & ->). unfold loop_post. simpl in Hb.
  assert (batch_of (p :: l) (max - r) = S (batch_of l (max - (r + 1)))) as ->
    by (unfold batch_of; rewrite length_cons; lia).
  rewrite length_app in *. simpl. rewrite <- Ehd. split_and!; [|lia|f_equal; lia].
  eapply batch_submitted_cons; [|exact Hsub|exact Ehd| |exact Hb]; [|done].
  by apply queued_NoDup, NoDup_cons in Hq as [? _].
Qed.

Lemma submit_loop_run fuel : forall s l k max r es,
  queued (objs s) (__io_pending_ s) l -> sq_shape k (__sq_ s) -> sq_holds k (__sq_ s) es ->
  0 <= r -> max < 2 ^ 32 -> Z.of_nat (length es) + (max - r) <= 2 ^ k -> (length l < fuel)%nat ->
  returns (submit_loop client_submit client_complete fuel max
    (u32 (sq_head (__sq_ s) + Z.of_nat (length es))) r false) s (loop_post k l es max r s).
Proof.
  induction fuel as [|fuel IH]; [lia|]. intros s l k max r es Hq Hk Hh Hr Hmax Hroom Hfuel.
  destruct l as [|p l]; [|destruct (Z.ltb_spec r max) as [Hlt|]].
  2: { eapply submit_round; [by left|done..|]. intros e s1 q (Hq1 & _) Hkq Hhq s2.
    eapply (IH s2 l k); rewrite ?length_app; simpl in *; done || lia. }
  all: simpl; apply returns_bind, returns_get; rewrite (qrep_empty _ _ _ (proj1 Hq)); simpl.
  2: rewrite (proj2 (Z.ltb_ge r max)) by done; simpl.
  all: unfold loop_post; match goal with |- context [batch_of ?l ?n] =>
      replace (batch_of l n) with 0%nat by (unfold batch_of; cbn [length]; lia) end.
  all: rewrite !Z.add_0_r; split_and!; [by apply batch_submitted_nil|done..].
Qed.

Lemma umin_spec a b : __umin a b = Z.min a b.
Proof. unfold __umin. destruct (Z.ltb_spec a b); lia. Qed.

Lemma sq_room k q es : sq_rep k q es ->
  u32 (sq_tail q - sq_head q) = Z.of_nat (length es) /\
  u32 (__n_slot_ q - u32 (sq_tail q - sq_head q)) = 2 ^ k - Z.of_nat (length es).
Proof.
  intros ((Hk & Hn & _ & _ & _ & Hh) & _ & Hl & Ht).
  assert (2 ^ k < 2 ^ 32) by (apply Z.pow_lt_mono_r; lia).
  assert (u32 (sq_tail q - sq_head q) = Z.of_nat (length es)) as E.
  { rewrite Ht, wrap_sub_l, Z.add_simpl_l. apply wrap_small. split; lia. }
  rewrite E, Hn. split; [done|]. apply wrap_small. split; lia.
Qed.

(** The queue's first tasks, as many as there is room for, are in the ring. *)
Definition submits k l es (b : nat) s s1 : Prop :=
  queued (objs s1) (__io_pending_ s1) (drop b l) /\
  (forall p, p ∈ take b l -> is_ioring (objs s1) p 1) /\ keeps (take b l) (objs s) (objs s1) /\
  sq_rest s1 = sq_rest s /\ log s1 = log s ++ (Submitted <$> take b l) /\
  (budget (client s1) <= budget (client s))%nat /\ sq_head (__sq_ s1) = sq_head (__sq_ s) /\
  exists new, sq_rep k (__sq_ s1) (es ++ new) /\ user_data <$> new = take b l.

Lemma store_tail_submits k l es b s s1 :
  batch_submitted k l es b s s1 -> (b <= length l)%nat -> Z.of_nat (length es) + Z.of_nat b <= 2 ^ k ->
  returns (store_sq_tail (u32 (sq_head (__sq_ s) + Z.of_nat (length es) + Z.of_nat b))) s1
    (fun _ s2 => submits k l es b s s2).
Proof.
  intros (Hq & Hi & Hk & Hr & Hl & Hb & Hsh & Hh & new & Hh2 & Hn) Hbl Hroom. apply returns_modify.
  assert (length new = b) as Hlen.
  { apply (f_equal length) in Hn. rewrite length_fmap, length_take in Hn. lia. }
  split_and!; try done. exists new. split; [|done]. split_and!.
  - exact Hsh.
  - intros j e He. simpl. by apply Hh2.
  - rewrite length_app. lia.
  - simpl. rewrite Hh, length_app. f_equal. lia.
Qed.

(** [_M_submit], when its loop enters every task it takes. *)
Lemma sq_M_submit_enters s l k es max fuel stop :
  queued (objs s) (__io_pending_ s) l -> sq_rep k (__sq_ s) es -> is_word 32 max ->
  (forall max', max' = Z.min max (2 ^ k - Z.of_nat (length es)) ->
    returns (submit_loop client_submit client_complete fuel max'
      (u32 (sq_head (__sq_ s) + Z.of_nat (length es))) 0 stop) s (loop_post k l es max' 0 s)) ->
  let b := batch_of l (Z.min max (2 ^ k - Z.of_nat (length es))) in
  returns (sq_M_submit client_submit client_complete fuel max stop) s
    (fun r s1 => r = Z.of_nat b /\ submits k l es b s s1).
Proof.
  intros Hq Hrep Hmax Hloop b. unfold sq_M_submit. apply returns_bind, returns_get.
  destruct (sq_room _ _ _ Hrep) as [_ ->]. rewrite umin_spec.
  pose proof Hrep as (Hk & Hh & Hl & ->). unfold is_word in Hmax.
  eapply returns_bind_mono; [by apply Hloop|].
  intros [t r] s1 (Hb & -> & ->). rewrite Z.sub_0_r in *.
  eapply returns_bind_mono; [apply store_tail_submits; [done|unfold batch_of; lia..]|].
  intros ? s2 Hs. apply returns_ret. done.
Qed.

Lemma submit_spec s l k es max fuel :
  queued (objs s) (__io_pending_ s) l -> sq_rep k (__sq_ s) es -> is_word 32 max ->
  (length l < fuel)%nat ->
  let b := batch_of l (Z.min max (2 ^ k - Z.of_nat (length es))) in
  returns (sq_M_submit client_submit client_complete fuel max false) s
    (fun r s1 => r = Z.of_nat b /\ submits k l es b s s1).
Proof.
  intros Hq Hrep Hmax Hf b. apply sq_M_submit_enters; [done..|]. intros max' ->.
  destruct Hrep as (Hk & Hh & Hl & _). unfold is_word in Hmax. eapply submit_loop_run; done || lia.
Qed.

(** C25: while no stop is requested, [_M_submit] takes the tasks at the front of
    the queue in their order, as many as the ring and [__max] leave room for,
    writes their entries behind those the kernel has not taken yet, which stay
    as they are, and publishes the new tail; each task was asked once for its
    entry, counts one operation and is named by it, and the number of them is
    returned. *)
Theorem submit_fifo s l k es max fuel :
  queued (objs s) (__io_pending_ s) l -> sq_rep k (__sq_ s) es -> is_word 32 max ->
  (length l < fuel)%nat ->
  let b := Nat.min (length l) (Z.to_nat (Z.min max (2 ^ k - Z.of_nat (length es)))) in
  returns (sq_M_submit client_submit client_complete fuel max false) s (fun r s1 =>
    r = Z.of_nat b /\ queued (objs s1) (__io_pending_ s1) (drop b l) /\
    (exists new, sq_rep k (__sq_ s1) (es ++ new) /\ user_data <$> new = take b l) /\
    log s1 = log s ++ (Submitted <$> take b l) /\
    (forall p, p ∈ take b l -> is_ioring (objs s1) p 1)).
Proof.
  intros ????. eapply returns_mono; [by eapply submit_spec|].
  intros r s1 (-> & Hq & Hi & _ & _ & Hl & _ & _ & Hn). done.
Qed.

(** ** Completing and stopping *)

(** The completion [e] was delivered to [p]: its function may have pushed tasks. *)
Definition delivered p e l s s1 : Prop :=
  (exists new, queued (objs s1) (__io_pending_ s1) (new ++ l) /\
    (length new + budget (client s1) <= budget (client s))%nat) /\
  keeps (finished p e) (objs s) (objs s1) /\ __sq_ s1 = __sq_ s /\ sq_rest s1 = sq_rest s /\
  log s1 = log s ++ [Completed p e].

Lemma complete_one s p l e :
  is_ioring (objs s) p 1 -> queued (objs s) (__io_pending_ s) l ->
  returns (_M_complete client_complete p e) s
    (fun d s1 => d = (if more e then 0 else 1) /\ delivered p e l s s1).
Proof.
  intros Hp Hq. eapply complete_cases; [done|]. cbv zeta. change (delivers 1) with true. cbv iota.
  set (m := put_n_ops p (count_after 1 e) (objs s)).
  assert (p ∉ l) as Hpl by (by eapply queued_idle).
  assert (queued m (__io_pending_ s) l) as Hqm by (by eapply queued_put).
  assert (is_ioring m p (if more e then 1 else 0)) as Hpm.
  { subst m. unfold count_after. destruct (more e); by eapply is_ioring_put. }
  eapply returns_bind, returns_modify, returns_mono; [by apply (client_complete_law p e _ l)|].
  intros [] s2 (new & q & m' & c & -> & Hq' & Hk & Hb).
  split; [done|]. split_and!; [by exists new| |done..].
  simpl in *. unfold finished in *. destruct (more e) eqn:He.
  - subst m. unfold count_after in Hk. rewrite He in Hk. simpl in Hk. by rewrite put_n_ops_same in Hk.
  - eapply (keeps_mono ([p] ++ [p])); [list_incl|].
    eapply keeps_trans; [apply put_n_ops_keeps|done].
Qed.

Definition stop_events (p : ptr) : list event := [Submitted p; Completed p (canceled p)].

(** All queued tasks are stopped, and those their functions push. *)
Definition stops k es l s s1 : Prop :=
  (exists ps, l `sublist_of` ps /\ log s1 = log s ++ concat (stop_events <$> ps) /\
    (length ps <= length l + budget (client s))%nat) /\
  queued (objs s1) (__io_pending_ s1) [] /\ sq_rest s1 = sq_rest s /\
  sq_shape k (__sq_ s1) /\ sq_holds k (__sq_ s1) es /\ sq_head (__sq_ s1) = sq_head (__sq_ s) /\
  spares (objs s) (objs s1).

Lemma stops_cons k es p l new s s1 q s2 s3 :
  queued (objs s) (__io_pending_ s) (p :: l) ->
  submitted p l s s1 -> sq_head q = sq_head (__sq_ s1) ->
  delivered p (canceled p) l (set_sq q s1) s2 ->
  stops k es (new ++ l) s2 s3 -> (length new + budget (client s2) <= budget (client s1))%nat ->
  stops k es (p :: l) s s3.
Proof.
  intros Hq0 (_ & _ & Hk1 & Hs1 & Hr1 & Hl1 & Hb1) Ehd (_ & Hk2 & Hs2 & Hr2 & Hl2)
    ((ps & Hps & Hl3 & Hlen) & Hq & Hr3 & Hsh & Hh & Hhd & Hk3) Hb2.
  unfold stops. simpl in *. split_and!; [|done| |done|done| |].
  - exists (p :: ps). split_and!.
    + apply sublist_skip. etrans; [|done]. by apply sublist_inserts_l.
    + rewrite Hl3, Hl2, Hl1, <- !app_assoc. done.
    + rewrite length_app in Hlen. simpl. lia.
  - rewrite Hr3, Hr2. done.
  - rewrite Hhd, Hs2, <- Hs1. done.
  - eapply spares_trans; [|exact Hk3]. eapply (spares_idle _ _ _ _ p); [exact Hq0|by left|].
    eapply keeps_mono; [|by eapply keeps_trans]. list_incl.
Qed.

Lemma write_behind k es q e : sq_shape k q -> sq_holds k q es -> Z.of_nat (length es) < 2 ^ k ->
  let q' := put_sqe (slot k (sq_head q + Z.of_nat (length es))) e q in
  sq_shape k q' /\ sq_holds k q' es.
Proof.
  intros Hk Hh Hl q'. split; [by apply shape_put_sqe|].
  eapply (holds_behind k q); [destruct Hk; lia|done..|].
  intros i Hi. simpl. by rewrite list_lookup_insert_ne.
Qed.

Lemma stop_loop fuel : forall s l k max es,
  (forall p, is_cancel p = false) ->
  queued (objs s) (__io_pending_ s) l -> sq_shape k (__sq_ s) -> sq_holds k (__sq_ s) es ->
  0 < max -> Z.of_nat (length es) < 2 ^ k -> (length l + budget (client s) < fuel)%nat ->
  let t := u32 (sq_head (__sq_ s) + Z.of_nat (length es)) in
  returns (submit_loop client_submit client_complete fuel max t 0 true) s
    (fun '(t', r) s1 => t' = t /\ r = 0 /\ stops k es l s s1).
Proof.
  induction fuel as [|fuel IH]; [lia|]. intros s l k max es Hc Hq Hk Hh Hmax Hroom Hfuel t.
  simpl. apply returns_bind, returns_get. rewrite (qrep_empty _ _ _ (proj1 Hq)).
  rewrite (proj2 (Z.ltb_lt 0 max)), andb_true_r by done.
  destruct l as [|p l]; simpl.
  - split_and!; [done..|]. unfold stops. split_and!; try done; [|apply spares_refl]. exists []. simpl. rewrite app_nil_r. split_and!; (done || lia).
  - eapply returns_bind, returns_read_sqe; [done|]. intros old.
    eapply returns_take; [done|]. intros e s1 Hsub He. pose proof Hsub as (Hq1 & Hp1 & _ & Hs1 & _ & _ & Hb1).
    subst t. rewrite <- Hs1 in *. eapply returns_bind, (returns_write_sqe k); [done..|].
    destruct (write_behind k es (__sq_ s1) e Hk Hh Hroom) as [Hk' Hh'].
    rewrite He, Hc. simpl. set (q := put_sqe _ e (__sq_ s1)) in *.
    apply returns_bind. unfold __manual_stop. eapply returns_bind_mono; [by apply (complete_one _ p l)|].
    intros d s2 [_ Hdel]. apply returns_ret. pose proof Hdel as ((new & Hq2 & Hb2) & _ & Hs2 & _).
    replace (sq_head (__sq_ s1)) with (sq_head (__sq_ s2)) by (by rewrite Hs2).
    eapply returns_mono; [eapply (IH s2 (new ++ l) k max es); rewrite ?Hs2, ?length_app; simpl in *; done || lia|].
    intros [t r] s3 (-> & -> & Hst). split_and!; [done..|]. eapply stops_cons; [exact Hq|exact Hsub| |exact Hdel|exact Hst|exact Hb2]; done.
Qed.

Lemma stop_spec s l k es max fuel :
  (forall p, is_cancel p = false) ->
  queued (objs s) (__io_pending_ s) l -> sq_rep k (__sq_ s) es -> is_word 32 max ->
  0 < max -> Z.of_nat (length es) < 2 ^ k -> (length l + budget (client s) < fuel)%nat ->
  returns (sq_M_submit client_submit client_complete fuel max true) s (fun r s1 => r = 0 /\
    sq_rep k (__sq_ s1) es /\ stops k es l s s1).
Proof.
  intros Hc Hq Hrep Hw Hmax Hroom Hf. unfold sq_M_submit. apply returns_bind, returns_get.
  destruct (sq_room _ _ _ Hrep) as [_ ->]. rewrite umin_spec.
  pose proof Hrep as (Hk & Hh & Hl & ->).
  eapply returns_bind_mono; [eapply (stop_loop fuel s l k); done || lia|].
  intros [t r] s1 (-> & -> & Hst). eapply returns_bind, returns_modify, returns_ret.
  split; [done|]. pose proof Hst as (_ & _ & _ & Hsh & Hh' & Hhd & _). split; [|done].
  split_and!; [exact Hsh|exact Hh'|done|]. simpl. by rewrite Hhd.
Qed.

(** with a stop requested, no cancellation among the tasks and room for one
    entry, [_M_submit] empties the queue, whatever the tasks' functions push
    while they are stopped (within their budget): every task is asked for its
    entry and then completed with [-ECANCELED], once each time it is taken, and
    nothing is added to the ring. *)
Theorem stop_drains s l k es max fuel :
  (forall p, is_cancel p = false) ->
  queued (objs s) (__io_pending_ s) l -> sq_rep k (__sq_ s) es -> is_word 32 max ->
  0 < max -> Z.of_nat (length es) < 2 ^ k -> (length l + budget (client s) < fuel)%nat ->
  returns (sq_M_submit client_submit client_complete fuel max true) s (fun r s1 => r = 0 /\
    queued (objs s1) (__io_pending_ s1) [] /\ sq_rep k (__sq_ s1) es /\
    exists ps, l `sublist_of` ps /\
      log s1 = log s ++ concat ((fun p => [Submitted p; Completed p (canceled p)]) <$> ps)).
Proof.
  intros. eapply returns_mono; [by eapply stop_spec|].
  intros r s1 (-> & Hrep & (ps & Hps & Hlog & _) & Hq & _). split_and!; [done..|by exists ps].
Qed.

(** [__stop] is overwritten in the loop: once a cancellation has been
    entered, the tasks behind it are submitted as if no stop had been requested
    instead of being stopped. *)
Theorem cancel_disables_stop s c l k es max fuel :
  is_cancel c = true ->
  queued (objs s) (__io_pending_ s) (c :: l) -> sq_rep k (__sq_ s) es -> is_word 32 max ->
  0 < max -> Z.of_nat (length es) < 2 ^ k -> (length l < fuel)%nat ->
  let b := Nat.min (length (c :: l)) (Z.to_nat (Z.min max (2 ^ k - Z.of_nat (length es)))) in
  returns (sq_M_submit client_submit client_complete (S fuel) max true) s (fun r s1 =>
    r = Z.of_nat b /\ queued (objs s1) (__io_pending_ s1) (drop b (c :: l)) /\
    (exists new, sq_rep k (__sq_ s1) (es ++ new) /\ user_data <$> new = take b (c :: l)) /\
    log s1 = log s ++ (Submitted <$> take b (c :: l))).
Proof.
  intros Hc Hq Hrep Hw Hmax Hroom Hf b. eapply returns_mono; [apply (sq_M_submit_enters s (c :: l) k es); try done|].
  - intros max' Em. pose proof Hrep as (Hk & Hh & Hl & _). unfold is_word in Hw.
    eapply submit_round; [by right|done || lia..|]. intros e s1 q (Hq1 & _) Hkq Hhq s2.
    eapply (submit_loop_run fuel s2 l k); rewrite ?length_app; simpl in *; done || lia.
  - intros r s1 (-> & Hq1 & _ & _ & _ & Hl & _ & _ & Hn). done.
Qed.

(** ** [__completion_queue::_M_complete] *)

Definition finals (es : list io_uring_cqe) : list io_uring_cqe := filter (fun e => more e = false) es.

(** No completion follows the last one of its task. *)
Fixpoint well_ended (es : list io_uring_cqe) : Prop :=
  match es with
  | [] => True
  | e :: es => (more e = false -> cqe_user_data e ∉ (cqe_user_data <$> es)) /\ well_ended es
  end.

Definition cq_rest s := (__heap_ s, __sq_ s, __dr_pending_ s, (__n_total_submit_ s, __n_newly_submit_ s, cq_entries s)).

(** The completions [es] were delivered in order. *)
Definition all_delivered (es : list io_uring_cqe) l s s1 : Prop :=
  log s1 = log s ++ ((fun e => Completed (cqe_user_data e) e) <$> es) /\
  (exists new, queued (objs s1) (__io_pending_ s1) (new ++ l) /\
    (length new + budget (client s1) <= budget (client s))%nat) /\
  keeps (cqe_user_data <$> finals es) (objs s) (objs s1) /\ cq_rest s1 = cq_rest s.

Lemma all_delivered_nil l s : queued (objs s) (__io_pending_ s) l -> all_delivered [] l s s.
Proof.
  intros Hq. unfold all_delivered. simpl. rewrite app_nil_r.
  split_and!; [done|exists []; done|apply keeps_refl|done].
Qed.

Lemma finals_cons e es : cqe_user_data <$> finals (e :: es) =
  finished (cqe_user_data e) e ++ (cqe_user_data <$> finals es).
Proof. unfold finals, finished. rewrite filter_cons. by destruct (more e). Qed.

Lemma finals_length e es :
  Z.of_nat (length (finals (e :: es))) = (if more e then 0 else 1) + Z.of_nat (length (finals es)).
Proof.
  pose proof (f_equal length (finals_cons e es)) as E. rewrite length_app, !length_fmap in E.
  rewrite E. unfold finished. destruct (more e); simpl; lia.
Qed.

Lemma all_delivered_cons e es new q l s s1 s2 :
  delivered (cqe_user_data e) e l s s1 ->
  (length new + budget (client s1) <= budget (client s))%nat ->
  all_delivered es (new ++ l) (set_cq q s1) s2 -> all_delivered (e :: es) l s s2.
Proof.
  intros (_ & Hk1 & Hs1 & Hr1 & Hl1) Hb1 (Hl2 & (new2 & Hq2 & Hb2) & Hk2 & Hr2).
  unfold all_delivered. simpl in *. split_and!.
  - by rewrite Hl2, Hl1, <- app_assoc.
  - exists (new2 ++ new). rewrite <- app_assoc, length_app. split; [done|lia].
  - rewrite finals_cons. by eapply keeps_trans.
  - rewrite Hr2. unfold cq_rest, sq_rest in *. simpl. rewrite Hs1. congruence.
Qed.

Context (kernel : list io_uring_cqe -> __completion_queue -> __completion_queue).
(** The kernel posts behind the entries that have not been released, and only
    while there is room for them. *)
Context (kernel_law : forall k q (l es : list io_uring_cqe), cq_rep k q l -> Z.of_nat (length (l ++ es)) <= 2 ^ k ->
  cq_rep k (kernel es q) (l ++ es) /\ cq_head (kernel es q) = cq_head q).

Lemma returns_read_cqe k s es j e (Q : io_uring_cqe -> sched -> Prop) :
  cq_rep k (__cq_ s) es -> es !! j = Some e -> Q e s ->
  returns (read_cqe (Z.land (u32 (cq_head (__cq_ s) + Z.of_nat j)) (cq_mask (__cq_ s)))) s Q.
Proof.
  intros ((Hk & -> & _) & Hh & _) Hj HQ. unfold read_cqe. apply returns_bind, returns_get.
  eapply returns_read_at; [|exact HQ]. rewrite slot_land, slot_u32 by lia. by apply Hh.
Qed.

Lemma delivered_others e es l s s1 :
  delivered (cqe_user_data e) e l s s1 -> well_ended (e :: es) ->
  (forall x, x ∈ e :: es -> is_ioring (objs s) (cqe_user_data x) 1) ->
  forall x, x ∈ es -> is_ioring (objs s1) (cqe_user_data x) 1.
Proof.
  intros (_ & Hk & _) [Hend _] Hi x Hx. eapply keeps_ioring; [exact Hk| |apply Hi; by right].
  unfold finished. destruct (more e) eqn:He; [set_solver|]. intros E%list_elem_of_singleton.
  apply Hend; [done|]. rewrite <- E. by apply list_elem_of_fmap_2.
Qed.

Definition complete_post k dn td (arrivals : list (list io_uring_cqe)) n l s :
    Z * Z -> sched -> Prop := fun '(h, n') s1 => exists j,
  let es := td ++ concat (take j arrivals) in
  cq_rep k (__cq_ s1) (dn ++ es) /\ cq_head (__cq_ s1) = cq_head (__cq_ s) /\
  h = u32 (cq_head (__cq_ s) + Z.of_nat (length (dn ++ es))) /\
  n' = n + Z.of_nat (length (finals es)) /\ all_delivered es l s s1.

Lemma complete_post_cons k dn e td A n l s s1 q new a s2 :
  delivered (cqe_user_data e) e l s s1 ->
  (length new + budget (client s1) <= budget (client s))%nat -> cq_head q = cq_head (__cq_ s) ->
  complete_post k (dn ++ [e]) (td ++ default [] (head A)) (tail A) (n + (if more e then 0 else 1))
    (new ++ l) (set_cq q s1) a s2 ->
  complete_post k dn (e :: td) A n l s a s2.
Proof.
  destruct a as [h n']. intros Hd Hb Hh (j & Hc & Hh2 & -> & -> & Hall). simpl in Hh2.
  assert (exists j', (td ++ default [] (head A)) ++ concat (take j (tail A)) = td ++ concat (take j' A)) as [j' Ej].
  { destruct A as [|a A]; simpl.
    - exists 0%nat. by rewrite take_nil, !app_nil_r.
    - exists (S j). by rewrite <- app_assoc. }
  rewrite Ej, <- app_assoc in *. simpl in *. exists j'. split_and!.
  - done.
  - by rewrite Hh2.
  - by rewrite Hh.
  - rewrite finals_length. lia.
  - by eapply all_delivered_cons.
Qed.

Lemma cq_rep_tail_ne k q dn e td : cq_rep k q (dn ++ e :: td) ->
  u32 (cq_head q + Z.of_nat (length dn)) <> cq_tail q.
Proof.
  intros ((Hk & _) & _ & Hl & ->) E. rewrite length_app in *. simpl in *.
  assert (2 ^ k < 2 ^ 32) by (apply Z.pow_lt_mono_r; lia).
  apply mod_shift_inj in E; lia.
Qed.

Lemma complete_loop_spec fuel : forall s l k dn td A n,
  queued (objs s) (__io_pending_ s) l -> cq_rep k (__cq_ s) (dn ++ td) ->
  Z.of_nat (length (dn ++ td ++ concat A)) <= 2 ^ k -> well_ended (td ++ concat A) ->
  (forall e, e ∈ td ++ concat A -> is_ioring (objs s) (cqe_user_data e) 1) ->
  (length (td ++ concat A) < fuel)%nat -> 0 <= n -> n + Z.of_nat (length (td ++ concat A)) < 2 ^ 32 ->
  returns (complete_loop client_complete kernel fuel A
    (u32 (cq_head (__cq_ s) + Z.of_nat (length dn))) (cq_tail (__cq_ s)) n) s
    (complete_post k dn td A n l s).
Proof.
  induction fuel as [|fuel IH]; [lia|]. intros s l k dn td A n Hq Hc Hroom Hend Hi Hf Hn Hn2. simpl.
  destruct td as [|e td].
  - rewrite decide_False; [|rewrite app_nil_r in Hc; destruct Hc as (_ & _ & _ & ->); tauto].
    apply returns_ret. exists 0%nat. rewrite take_0. simpl. rewrite app_nil_r in *.
    split_and!; [done..|simpl; lia|by apply all_delivered_nil].
  - rewrite decide_True by by eapply cq_rep_tail_ne. apply returns_bind, returns_get.
    eapply returns_bind, (returns_read_cqe k s _ (length dn) e); [done|by apply list_lookup_middle|].
    eapply returns_bind_mono; [apply (complete_one _ _ l); [apply Hi; by left|done]|].
    intros d s1 [-> Hd]. pose proof Hd as ((new & Hq1 & Hb1) & _ & _ & Hr1 & _).
    assert (__cq_ s1 = __cq_ s) as Hcq by (unfold sq_rest in Hr1; congruence).
    set (es := default [] (head A)). eapply returns_bind, returns_modify. apply returns_bind, returns_get.
    assert (td ++ concat A = (td ++ es) ++ concat (tail A)) as EA
      by (subst es; rewrite <- app_assoc; by destruct A).
    assert (dn ++ e :: td ++ concat A = (dn ++ e :: td) ++ concat A) as Edn by by rewrite <- app_assoc.
    destruct (kernel_law k (__cq_ s) (dn ++ e :: td) es Hc) as [Hc' Hh'].
    { simpl in Hroom. rewrite Edn in Hroom. rewrite length_app in *.
      enough (length es <= length (concat A))%nat by lia. subst es.
      destruct A; simpl; rewrite ?length_app; lia. }
    rewrite wrap_add_l. simpl. rewrite Hcq, (wrap_small 32 (n + _))
      by (simpl in Hn2; destruct (more e); split; lia).
    replace (cq_head (__cq_ s) + _ + 1) with
      (cq_head (kernel es (__cq_ s)) + Z.of_nat (length (dn ++ [e])))
      by (rewrite Hh', length_app; simpl; lia).
    replace (dn ++ e :: td) with ((dn ++ [e]) ++ td) in Hc' by by rewrite <- app_assoc.
    eapply returns_mono; [eapply (IH (set_cq (kernel es (__cq_ s)) s1) (new ++ l) k (dn ++ [e]) (td ++ es) (tail A))|].
    all: simpl in *; rewrite <- ?EA in *.
    + done.
    + by rewrite app_assoc.
    + by rewrite <- app_assoc.
    + apply Hend.
    + by eapply delivered_others.
    + lia.
    + destruct (more e); lia.
    + destruct (more e); lia.
    + intros a s2 Ha. eapply complete_post_cons; [exact Hd|exact Hb1|exact Hh'|exact Ha].
Qed.

(** What [_M_complete] has done: every completion that was in the ring and those
    posted meanwhile, [es], are delivered; the ring is empty. *)
Definition completes k l es (n : Z) s s1 : Prop :=
  n = Z.of_nat (length (finals es)) /\ cq_rep k (__cq_ s1) [] /\ all_delivered es l s s1.

Lemma release_all k q es h : cq_rep k q es -> h = u32 (cq_head q + Z.of_nat (length es)) ->
  cq_rep k (mkCq h (cq_tail q) (__cqe_ q) (cq_mask q)) [].
Proof.
  intros ((Hk & Hm & Hl & _) & _ & _ & Ht) ->. split_and!.
  - split_and!; try done || lia. by apply wrap_range.
  - intros j e. by rewrite lookup_nil.
  - simpl. lia.
  - simpl. by rewrite Ht, Z.add_0_r, wrap_wrap.
Qed.

Lemma cq_complete_spec s l k td A fuel :
  queued (objs s) (__io_pending_ s) l -> cq_rep k (__cq_ s) td ->
  Z.of_nat (length (td ++ concat A)) <= 2 ^ k -> well_ended (td ++ concat A) ->
  (forall e, e ∈ td ++ concat A -> is_ioring (objs s) (cqe_user_data e) 1) ->
  (length (td ++ concat A) < fuel)%nat ->
  returns (cq_M_complete client_complete kernel fuel A) s
    (fun n s1 => exists j, completes k l (td ++ concat (take j A)) n s s1).
Proof.
  intros Hq Hc Hroom Hend Hi Hf. unfold cq_M_complete. apply returns_bind, returns_get.
  pose proof Hc as ((Hk & _ & _ & Hw) & _). assert (2 ^ k < 2 ^ 32) by (apply Z.pow_lt_mono_r; lia).
  eapply returns_bind_mono.
  { pose proof (complete_loop_spec fuel s l k [] td A 0) as H1. simpl in H1.
    rewrite Z.add_0_r, (wrap_small 32 (cq_head _)) in H1 by done. apply H1; done || lia. }
  intros [h n] s1 (j & Hc1 & Hh & -> & -> & Hall). simpl in Hc1, Hh.
  eapply returns_bind, returns_modify, returns_ret. exists j. split_and!; [done| |done].
  by eapply release_all; [|rewrite Hh].
Qed.

(** C24: [_M_complete] terminates, consumes the completions in ring order,
    those the kernel posts while it runs included, releases all of them and
    leaves the ring empty; each is delivered to its task exactly once, whatever
    the tasks' functions push and destroy, and the number returned is that of the
    operations that have ended. *)
Theorem complete_in_order s l k td A fuel :
  queued (objs s) (__io_pending_ s) l -> cq_rep k (__cq_ s) td ->
  Z.of_nat (length (td ++ concat A)) <= 2 ^ k -> well_ended (td ++ concat A) ->
  (forall e, e ∈ td ++ concat A -> is_ioring (objs s) (cqe_user_data e) 1) ->
  (length (td ++ concat A) < fuel)%nat ->
  returns (cq_M_complete client_complete kernel fuel A) s (fun n s1 => exists j,
    let es := td ++ concat (take j A) in
    log s1 = log s ++ ((fun e => Completed (cqe_user_data e) e) <$> es) /\
    n = Z.of_nat (length (filter (fun e => more e = false) es)) /\ cq_rep k (__cq_ s1) [] /\
    exists new, queued (objs s1) (__io_pending_ s1) (new ++ l)).
Proof.
  intros. eapply returns_mono; [by eapply cq_complete_spec|].
  intros n s1 (j & -> & Hc & Hl & (new & Hq & _) & _). exists j. split_and!; [done..|by exists new].
Qed.
End specs.

(** ** A client and a kernel

    A task is submitted with the opcode of a receive, 512 with that of a
    cancellation if there are any; a task whose last completion is delivered is
    pushed again as often as the client's counter allows. *)

Module ring_example.
Definition ex_submit (cancels : bool) (p : ptr) (_ : io_uring_sqe) : M (__scheduler nat) io_uring_sqe :=
  mret (mkSqe (if cancels && (p =? 512) then 14 else 27) 0 0 0 0 0 0 0 0 0).
Definition ex_complete (p : ptr) (e : io_uring_cqe) : M (__scheduler nat) unit :=
  s ← get;
  match client s, more e with
  | S b, false => submit_pending p;; modify (set_client b)
  | _, _ => mret tt
  end.

#[export] Instance ex_laws cancels :
  ClientLaws (ex_submit cancels) ex_complete (fun p => cancels && (p =? 512)) (fun c => c).
Proof.
  split.
  - intros p e s. apply returns_ret. split; [by exists (client s); destruct s|].
    simpl. by destruct (cancels && (p =? 512)).
  - intros p e s l Hq Hp Hi. unfold ex_complete. apply returns_bind, returns_get.
    assert (pushes_only (fun c => c) (finished p e) l s s) as Hsame.
    { exists [], (__io_pending_ s), (objs s), (client s). split_and!; [by destruct s|done|apply keeps_refl|done]. }
    destruct (client s) as [|b] eqn:Hb; [done|]. destruct (more e) eqn:He; [done|].
    eapply returns_bind_mono; [by eapply submit_pending_spec|].
    intros [] s1 (q & m & -> & Hq' & Hk). apply returns_modify. exists [p], q, m, b.
    split_and!; [done..| |simpl; lia]. eapply keeps_mono; [|done]. list_incl.
Qed.

Definition post (q : __completion_queue) (e : io_uring_cqe) : __completion_queue :=
  mkCq (cq_head q) (u32 (cq_tail q + 1)) (<[Z.to_nat (Z.land (cq_tail q) (cq_mask q)) := e]> (__cqe_ q)) (cq_mask q).
Definition ex_kernel (es : list io_uring_cqe) (q : __completion_queue) : __completion_queue :=
  fold_left post es q.

Lemma post_law k q l e : cq_rep k q l -> Z.of_nat (length (l ++ [e])) <= 2 ^ k ->
  cq_rep k (post q e) (l ++ [e]).
Proof.
  intros ((Hk & Hm & Hl & Hw) & Hh & Hn & Ht) Hroom. rewrite length_app in Hroom. simpl in Hroom.
  assert (Z.to_nat (Z.land (cq_tail q) (cq_mask q)) = slot k (cq_head q + Z.of_nat (length l))) as Hs
    by (rewrite Ht, Hm, slot_land, slot_u32 by lia; done).
  unfold post. rewrite Hs. split_and!; simpl.
  - split_and!; simpl; rewrite ?length_insert; done || lia.
  - intros j x [Hj|[Hj Hx]]%lookup_app_Some; simpl.
    + pose proof (lookup_lt_Some _ _ _ Hj). rewrite list_lookup_insert_ne; [by apply Hh|].
      intros E%ring_slot_inj; lia.
    + apply list_lookup_singleton_Some in Hx as [Hj' <-]. replace j with (length l) by lia.
      apply list_lookup_insert_eq. rewrite Hl. apply slot_lt. lia.
  - rewrite length_app. simpl. lia.
  - rewrite Ht, wrap_add_l, length_app. simpl. f_equal. lia.
Qed.

Lemma ex_kernel_law k q (l es : list io_uring_cqe) : cq_rep k q l -> Z.of_nat (length (l ++ es)) <= 2 ^ k ->
  cq_rep k (ex_kernel es q) (l ++ es) /\ cq_head (ex_kernel es q) = cq_head q.
Proof.
  revert q l. induction es as [|e es IH]; intros q l Hq Hroom; simpl; [by rewrite app_nil_r|].
  replace (l ++ e :: es) with ((l ++ [e]) ++ es) in * by by rewrite <- app_assoc.
  apply (IH (post q e)); [|done].
  apply post_law; [done|]. rewrite length_app in Hroom. lia.
Qed.

(** Rings of four slots whose positions are about to wrap around: one entry the
    kernel has not taken, two completions. *)
Definition objects : gmap ptr __task_facade := list_to_map [
  (512, mkFacade 0 64 (Ioring 0)); (64, mkFacade 0 128 (Ioring 0)); (128, mkFacade 0 nullptr (Ioring 0));
  (192, mkFacade 0 nullptr (Ioring 1)); (256, mkFacade 0 nullptr (Ioring 1))].
Definition entry (p : ptr) : io_uring_sqe := mkSqe 27 0 0 0 0 0 0 0 0 p.
Definition ring_sq : __submission_queue :=
  mkSq (2 ^ 32 - 1) 0 [0; 1; 2; 3] [zero_sqe; zero_sqe; zero_sqe; entry 192] 3 4.
Definition c1 : io_uring_cqe := mkCqe 192 10 2.
Definition c2 : io_uring_cqe := mkCqe 256 20 0.
Definition c3 : io_uring_cqe := mkCqe 192 0 0.
Definition ring_cq : __completion_queue := mkCq (2 ^ 32 - 1) 1 [c2; c1; c1; c1] 3.
Definition queue3 : queue := mkQueue 512 128.
Definition start : __scheduler nat := mkSched objects (intrusive_heap.mkHeap ∅ nullptr 0)
  ring_sq ring_cq queue3 empty_queue 2 0 8 1%nat [].

Lemma start_queued : queued (objs start) (__io_pending_ start) [512; 64; 128].
Proof.
  split.
  - split; [|done]. repeat (split; [done|]; split; [done|]; eexists; split; [done|]). done.
  - intros p Hp. exists 0. split; [done|].
    repeat (apply elem_of_cons in Hp as [->|Hp]; [split; [done|by eexists]|]). by apply elem_of_nil in Hp.
Qed.

Lemma start_sq : sq_rep 2 (__sq_ start) [entry 192].
Proof.
  split_and!; [split_and!; done| |done|done].
  intros [|j] e He; [by injection He as <-|done].
Qed.

Lemma start_cq : cq_rep 2 (__cq_ start) [c1; c2].
Proof.
  split_and!; [split_and!; done| |done|done].
  intros [|[|j]] e He; [by injection He as <-..|done].
Qed.

Lemma submit_fifo_witness :
  returns (sq_M_submit (ex_submit true) ex_complete 4 6 false) start (fun r s1 =>
    r = 3 /\ queued (objs s1) (__io_pending_ s1) [] /\
    (exists new, sq_rep 2 (__sq_ s1) ([entry 192] ++ new) /\ user_data <$> new = [512; 64; 128]) /\
    log s1 = [Submitted 512; Submitted 64; Submitted 128] /\
    (forall p, p ∈ [512; 64; 128] -> is_ioring (objs s1) p 1)).
Proof.
  apply (submit_fifo (ex_submit true) ex_complete _ _ start [512; 64; 128] 2 [entry 192] 6 4);
    [apply start_queued|apply start_sq|split; lia|simpl; lia].
Defined.

Lemma stop_drains_witness :
  returns (sq_M_submit (ex_submit false) ex_complete 5 6 true) start (fun r s1 => r = 0 /\
    queued (objs s1) (__io_pending_ s1) [] /\ sq_rep 2 (__sq_ s1) [entry 192] /\
    exists ps, [512; 64; 128] `sublist_of` ps /\
      log s1 = concat ((fun p => [Submitted p; Completed p (canceled p)]) <$> ps)).
Proof.
  apply (stop_drains (ex_submit false) ex_complete (fun p => false && (p =? 512)) (fun c => c)
    start [512; 64; 128] 2 [entry 192] 6 5);
    [done|apply start_queued|apply start_sq|split; lia|lia|simpl; lia|simpl; lia].
Defined.

Lemma cancel_disables_stop_witness :
  returns (sq_M_submit (ex_submit true) ex_complete 4 6 true) start (fun r s1 =>
    r = 3 /\ queued (objs s1) (__io_pending_ s1) [] /\
    (exists new, sq_rep 2 (__sq_ s1) ([entry 192] ++ new) /\ user_data <$> new = [512; 64; 128]) /\
    log s1 = [Submitted 512; Submitted 64; Submitted 128]).
Proof.
  apply (cancel_disables_stop (ex_submit true) ex_complete (fun p => true && (p =? 512)) (fun c => c)
    start 512 [64; 128] 2 [entry 192] 6 3);
    [done|apply start_queued|apply start_sq|split; lia|lia|simpl; lia|simpl; lia].
Defined.

Lemma complete_in_order_witness :
  returns (cq_M_complete ex_complete ex_kernel 4 [[c3]]) start (fun n s1 => exists j,
    let es := [c1; c2] ++ concat (take j [[c3]]) in
    log s1 = (fun e => Completed (cqe_user_data e) e) <$> es /\
    n = Z.of_nat (length (filter (fun e => more e = false) es)) /\ cq_rep 2 (__cq_ s1) [] /\
    exists new, queued (objs s1) (__io_pending_ s1) (new ++ [512; 64; 128])).
Proof.
  apply (complete_in_order (ex_submit true) ex_complete _ (fun c => c) ex_kernel ex_kernel_law
    start [512; 64; 128] 2 [c1; c2] [[c3]] 4); [apply start_queued|apply start_cq|simpl; lia| | |simpl; lia].
  - split; [done|]. do 2 (split; [intros _; apply (bool_decide_unpack _); by vm_compute|]). done.
  - intros e He. repeat (apply elem_of_cons in He as [->|He]; [split; [done|by eexists]|]).
    by apply elem_of_nil in He.
Defined.
End ring_example.
End rings.
