(* ===== verification/Scheduler.v ===== *)
(** * [__scheduler.hpp]: one round of the scheduler

    What the thread that runs a [__scheduler] does between two visits to the
    kernel: it consumes completions, submits the pending operations and hands
    the pending timer commands to the heap.  Module [scheduler] models
    [_M_run_some], [_M_io_uring_submit], the bookkeeping of [_M_io_uring_enter]
    and the conversion of its timeout, on top of the rings (module [rings]) and
    the timer heap (module [intrusive_heap]). *)

From S2P Require Import Prelude Memory Cells IntrusiveQueue IntrusiveHeap Tasks Rings.
Import intrusive_queue tasks rings.

Module scheduler.

(** ** Timeouts *)

(** [std::clamp] *)
Definition clamp (v lo hi : Z) : Z := if v <? lo then lo else if hi <? v then hi else v.

(** Seconds and nanoseconds of a duration in nanoseconds; [duration_cast]
    truncates towards zero. *)
Definition __duration_to_timespec (__dur : Z) : Z * Z :=
  let __sec := Z.quot __dur 1000000000 in
  let __dur := __dur - __sec * 1000000000 in
  let __sec := Z.max __sec 0 in
  let __dur := clamp __dur 0 999999999 in
  (__sec, __dur).

Section code.
Context {C : Type}.
Abbreviation sched := (__scheduler C).
Implicit Types (s : sched) (p : ptr).
Context (client_submit : ptr -> io_uring_sqe -> M sched io_uring_sqe).
Context (client_complete : ptr -> io_uring_cqe -> M sched unit).
Context (timer_complete : ptr -> bool -> M sched unit).

(** ** [_M_io_uring_submit] *)

Definition pop_task (__tmp : queue) : M sched (ptr * queue) := on_objs (_M_pop_front __tmp).

(** The two loops over the timer commands have the same shape ... *)
Fixpoint timer_loop (body : ptr -> M sched unit) (fuel : nat) (__tmp : queue) : M sched queue :=
  match fuel with
  | O => throw OutOfFuel
  | S fuel =>
      if negb (_M_empty __tmp) then
        '(__op, __tmp) ← pop_task __tmp;
        body __op;;
        timer_loop body fuel __tmp
      else mret __tmp
  end.

(** ... with a stop requested every command is stopped, else [switch] decides. *)
Definition timer_command (__op : ptr) : M sched unit :=
  t ← on_objs (load __op);
  match class_of t with
  | Timer => on_heap (intrusive_heap._M_push 63 __op)
  | TimerStop =>
      let __target := __target_ t in
      _ ← on_heap (intrusive_heap._M_remove 63 __target);
      timer_M_stop timer_complete __target
  | _ => throw Undefined
  end.

Definition stop_timers : nat -> queue -> M sched queue := timer_loop (__manual_stop_timer timer_complete).
Definition run_timers : nat -> queue -> M sched queue := timer_loop timer_command.

(** Both loops, on the queue moved out of [__dr_pending_]; it is destroyed, and
    its destructor asserts that it is empty, at the end. *)
Definition drain_timers (fuel : nat) (__stop : bool) : M sched unit :=
  s ← get;
  let '(__tmp, __rest) := move (__dr_pending_ s) in
  modify (set_dr __rest);;
  __tmp ← (if __stop then stop_timers fuel __tmp else run_timers fuel __tmp);
  on_objs (destroy __tmp).

Definition _M_io_uring_submit (fuel : nat) (__stop : bool) : M sched unit :=
  s ← get;
  let __max := u32 (cq_entries s - u32 (__n_total_submit_ s)) in
  __n ← sq_M_submit client_submit client_complete fuel __max __stop;
  modify (fun s => set_counts (swrap 64 (__n_total_submit_ s + __n)) (swrap 64 (__n_newly_submit_ s + __n)) s);;
  drain_timers fuel __stop.

(** ** [_M_run_some]

    [__stop] is what [__source_._M_stop_requested()] returns between the two. *)
Context (kernel : list io_uring_cqe -> __completion_queue -> __completion_queue).

Definition _M_run_some (fuel : nat) (arrivals : list (list io_uring_cqe)) (__stop : bool) : M sched unit :=
  __n ← cq_M_complete client_complete kernel fuel arrivals;
  modify (fun s => set_counts (swrap 64 (__n_total_submit_ s - __n)) (__n_newly_submit_ s) s);;
  _M_io_uring_submit fuel __stop.

Lemma timer_loop_grows body n n' q : (n <= n')%nat -> grows (timer_loop body n q) (timer_loop body n' q).
Proof. revert n' q. induction n as [|n IH]; intros [|n'] q Hn; [grow..|lia|]. simpl. grow; apply IH; lia. Qed.

Lemma io_uring_submit_grows n n' stop : (n <= n')%nat -> grows (_M_io_uring_submit n stop) (_M_io_uring_submit n' stop).
Proof.
  intros Hn. unfold _M_io_uring_submit, drain_timers, stop_timers, run_timers. apply grows_bind; [grow|]. intros s.
  apply grows_bind; [by apply sq_M_submit_grows|]. intros r. apply grows_bind; [grow|]. intros _. apply grows_bind; [grow|]. intros s2.
  destruct (move (__dr_pending_ s2)) as [tmp rest]. apply grows_bind; [grow|]. intros _.
  apply grows_bind; [destruct stop; by apply timer_loop_grows|grow].
Qed.

Lemma run_some_grows n n' A stop : (n <= n')%nat -> grows (_M_run_some n A stop) (_M_run_some n' A stop).
Proof.
  intros Hn. unfold _M_run_some. apply grows_bind; [by apply cq_M_complete_grows|]. intros r.
  apply grows_bind; [grow|]. intros _. by apply io_uring_submit_grows.
Qed.

(** ** [_M_io_uring_enter], what follows the system call

    [__rc] is what it returned; a result that is thrown ends the program, since
    nothing on the way to [main] catches it. *)
Definition after_enter (__rc : Z) : M sched unit :=
  if (__rc <? 0) && negb (__rc =? - EINTR) && negb (__rc =? - ETIME) then throw Terminate
  else
    s ← get;
    if - __rc =? ETIME then modify (set_counts (__n_total_submit_ s) 0)
    else if negb (- __rc =? EINTR) then
      modify (set_counts (__n_total_submit_ s) (swrap 64 (__n_newly_submit_ s - __rc)))
    else mret tt.

(** The timeout of the call: none without a timer, else the time until the
    deadline of the root; [now] is the clock. *)
Definition enter_timeout (now : Z) : M sched (option (Z * Z)) :=
  s ← get;
  if decide (intrusive_heap.__root_ (__heap_ s) = nullptr) then mret None
  else
    k ← on_heap (intrusive_heap.get_key (intrusive_heap.__root_ (__heap_ s)));
    mret (Some (__duration_to_timespec (swrap 64 (__deadline_ k - now)))).
End code.

(** a deadline in the future is split exactly, a passed one gives a zero
    timeout, and the nanoseconds are in the range the kernel accepts. *)
Theorem timespec_exact dur :
  let '(sec, nsec) := __duration_to_timespec dur in
  0 <= nsec <= 999999999 /\ 0 <= sec /\ (0 <= dur -> sec * 1000000000 + nsec = dur) /\
  (dur <= 0 -> sec = 0 /\ nsec = 0).
Proof.
  unfold __duration_to_timespec, clamp.
  pose proof (Z.quot_rem' dur 1000000000) as E. pose proof (Z.quot_pos dur 1000000000).
  pose proof (Z.quot_pos (- dur) 1000000000) as Hq. rewrite Z.quot_opp_l in Hq by lia.
  assert (0 <= dur -> 0 <= Z.rem dur 1000000000 < 1000000000) by (intros; apply Z.rem_bound_pos; lia).
  assert (dur <= 0 -> Z.rem dur 1000000000 <= 0) by (intros; apply Z.rem_nonpos; lia).
  generalize dependent (Z.quot dur 1000000000). generalize dependent (Z.rem dur 1000000000). intros r Hr0 Hr1 q E **.
  destruct (Z.ltb_spec (dur - q * 1000000000) 0), (Z.ltb_spec 999999999 (dur - q * 1000000000)); lia.
Qed.

(** ** The heap as a map of armed timers

    [timers_rep h a i]: the heap [h] holds the timers [a] with their keys; the
    timers [i] are in no heap and marked so. *)

Abbreviation key := __time_sequence.
Definition timers_rep (h : timers) (a i : gmap ptr key) : Prop :=
  exists t F, intrusive_heap.heap_rep h t F /\ intrusive_heap.elems t ≡ₚ map_to_list a /\ a ##ₘ i /\
    forall x k, i !! x = Some k -> exists nd,
      (x, nd) ∈ F /\ intrusive_heap._Prev nd = nullptr /\ intrusive_heap._Key nd = k.

Lemma elems_armed t (a : gmap ptr key) x :
  intrusive_heap.elems t ≡ₚ map_to_list a -> x ∈ (intrusive_heap.elems t).*1 <-> is_Some (a !! x).
Proof.
  intros ->. rewrite list_elem_of_fmap. split.
  - intros ([y k] & -> & Hy%elem_of_map_to_list). eauto.
  - intros [k Hk%elem_of_map_to_list]. by exists (x, k).
Qed.

Lemma elems_size t (a : gmap ptr key) :
  intrusive_heap.elems t ≡ₚ map_to_list a -> length (intrusive_heap.elems t) = size a.
Proof. intros ->. apply length_map_to_list. Qed.

Lemma arm_spec h a i p k :
  timers_rep h a i -> i !! p = Some k -> Z.of_nat (size a) + 1 < 2 ^ 63 ->
  returns (intrusive_heap._M_push 63 p) h (fun _ h' => timers_rep h' (<[p := k]> a) (delete p i)).
Proof.
  intros (t & F & Hh & He & Hd & Hi) Hp Hn. destruct (Hi p k Hp) as (nd & HF & Hnd & <-).
  apply list_elem_of_split in HF as (F1 & F2 & ->).
  assert (a !! p = None) as Hap by (by eapply map_disjoint_Some_r).
  eapply returns_mono.
  { eapply (intrusive_heap.push_correct h t p nd (F1 ++ F2)); [|by rewrite (elems_size _ _ He)|lia].
    eapply intrusive_heap.heap_rep_perm; [done|]. by rewrite Permutation_middle. }
  intros _ h' (t' & Hh' & He'). exists t', (F1 ++ F2). split_and!; [done| | |].
  - rewrite He', He, map_to_list_insert by done. done.
  - apply map_disjoint_insert_l. split; [by rewrite lookup_delete_eq|by apply map_disjoint_delete_r].
  - intros x kx [Hne Hx]%lookup_delete_Some. destruct (Hi x kx Hx) as (ndx & HF & ?).
    exists ndx. split; [|done]. revert HF. rewrite !elem_of_app, elem_of_cons.
    intros [?|[[= ]|?]]; by auto.
Qed.

Lemma disarm_spec h a i x k :
  timers_rep h a i -> a !! x = Some k -> Z.of_nat (size a) < 2 ^ 63 ->
  returns (intrusive_heap._M_remove 63 x) h
    (fun b h' => b = true /\ timers_rep h' (delete x a) (<[x := k]> i)).
Proof.
  intros (t & F & Hh & He & Hd & Hi) Hx Hn. eapply returns_mono.
  { eapply (intrusive_heap.remove_correct h t x F);
      [done|by rewrite (elems_armed _ _ _ He), Hx|by rewrite (elems_size _ _ He)|lia]. }
  intros b h' (-> & t' & k' & nl & nr & Hh' & He'). split; [done|].
  assert (k' = k) as ->.
  { apply (inj Some). rewrite <- Hx. symmetry. apply elem_of_map_to_list. rewrite <- He, He'. by left. }
  exists t', ((x, intrusive_heap.mkNode k nullptr nl nr) :: F). split_and!; [done| | |].
  - apply (Permutation_cons_inv (a := (x, k))). by rewrite <- He', He, map_to_list_delete.
  - apply map_disjoint_insert_r. split; [by rewrite lookup_delete_eq|by apply map_disjoint_delete_l].
  - intros y ky [[<- <-]|[Hne Hy]]%lookup_insert_Some; [eexists; split; [by left|done]|].
    destruct (Hi y ky Hy) as (nd & ? & ?). exists nd. split; [by right|done].
Qed.

Lemma disarm_idle_spec h a i x k :
  timers_rep h a i -> i !! x = Some k -> intrusive_heap._M_remove 63 x h = Done (false, h).
Proof.
  intros (t & F & Hh & _ & _ & Hi) Hx. destruct (Hi x k Hx) as (nd & ? & ? & _).
  by eapply intrusive_heap.remove_absent.
Qed.

(** ** The pending commands, abstractly *)

Inductive command := Arm (p : ptr) | Disarm (x : ptr).

Definition command_of (m : gmap ptr __task_facade) (p : ptr) (c : command) : Prop :=
  p <> nullptr /\ exists t, m !! p = Some t /\
  match c with
  | Arm p' => p' = p /\ class_of t = Timer
  | Disarm x => class_of t = TimerStop /\ __target_ t = x /\ x <> nullptr /\
      exists tx, m !! x = Some tx /\ class_of tx = Timer
  end.

(** Commands stay the commands they are. *)
Definition same_commands (m m' : gmap ptr __task_facade) : Prop := forall p c, command_of m p c -> command_of m' p c.

Lemma same_commands_refl m : same_commands m m.
Proof. by intros p c. Qed.

Lemma same_commands_trans m1 m2 m3 : same_commands m1 m2 -> same_commands m2 m3 -> same_commands m1 m3.
Proof. intros H1 H2 p c Hp. by apply H2, H1. Qed.

Lemma same_commands_Forall2 m m' cl cs : same_commands m m' ->
  Forall2 (command_of m) cl cs -> Forall2 (command_of m') cl cs.
Proof. intros Hs Hc. eapply Forall2_impl; [exact Hc|]. by apply Hs. Qed.

(** Timers and stop commands do not change while functions run. *)
Lemma keeps_timer D m m' x t : keeps D m m' -> (forall x, x ∈ D -> exists n, is_ioring m x n) ->
  m !! x = Some t -> (forall n, class_of t <> Ioring n) -> m' !! x = Some t.
Proof.
  intros Hk HD Hx Hn. destruct (Hk x t) as (t' & Hx' & _ & _ & E); [|done|by rewrite E in Hx'].
  intros Hin. destruct (HD x Hin) as (n & _ & t' & ? & ?). simplify_eq. by apply (Hn n).
Qed.

Lemma keeps_same_commands D m m' : keeps D m m' -> (forall x, x ∈ D -> exists n, is_ioring m x n) ->
  same_commands m m'.
Proof.
  intros Hk HD p c (? & t & Hp & Hc). split; [done|]. exists t. destruct c as [p'|x].
  - destruct Hc as [-> Ht]. split_and!; [|done..]. eapply keeps_timer; [done..|]. by rewrite Ht.
  - destruct Hc as (Ht & E & ? & tx & Hx & Hcx). split_and!; [|done..|].
    + eapply keeps_timer; [done..|]. by rewrite Ht.
    + exists tx. split; [|done]. eapply keeps_timer; [done..|]. by rewrite Hcx.
Qed.

Lemma spares_same_commands m m' : spares m m' -> same_commands m m'.
Proof. intros (D & Hk & HD). eapply keeps_same_commands; [exact Hk|]. intros x (n & _ & ?)%HD. by exists n. Qed.

Lemma keeps_nil_same_commands m m' : keeps [] m m' -> same_commands m m'.
Proof. intros Hk. eapply keeps_same_commands; [exact Hk|]. intros x Hx. by apply elem_of_nil in Hx. Qed.

(** The queue of commands does not change either. *)
Lemma keeps_commands D m m' q cl cs :
  keeps D m m' -> (forall x, x ∈ D -> exists n, is_ioring m x n) ->
  qrep m q cl -> Forall2 (command_of m) cl cs ->
  qrep m' q cl /\ Forall2 (command_of m') cl cs.
Proof.
  intros Hk HD [Hl Ht] Hc. split; [split; [|done]|].
  - eapply lseg_agree; [|done]. intros x Hx. apply list_elem_of_lookup in Hx as [j Hj].
    destruct (Forall2_lookup_l _ _ _ _ _ Hc Hj) as (c & _ & _ & t & Hx & Hn).
    rewrite Hx. eapply keeps_timer; [done..|]. destruct c as [p'|y].
    + by destruct Hn as [_ ->].
    + by destruct Hn as [-> _].
  - eapply same_commands_Forall2; [by eapply keeps_same_commands|done].
Qed.

(** The timers armed and idle after the commands; a timer is armed at most once
    at a time, and only existing timers are stopped. *)
Definition settle1 (c : command) (ai : gmap ptr key * gmap ptr key) : option (gmap ptr key * gmap ptr key) :=
  let '(a, i) := ai in
  match c with
  | Arm p => k ← i !! p; Some (<[p := k]> a, delete p i)
  | Disarm x =>
      match a !! x with
      | Some k => Some (delete x a, <[x := k]> i)
      | None => _ ← i !! x; Some (a, i)
      end
  end.
Fixpoint settle_by (next : command -> gmap ptr key * gmap ptr key -> option (gmap ptr key * gmap ptr key))
    (cs : list command) (ai : gmap ptr key * gmap ptr key) : option (gmap ptr key * gmap ptr key) :=
  match cs with
  | [] => Some ai
  | c :: cs => ai ← next c ai; settle_by next cs ai
  end.
Definition settle : list command -> gmap ptr key * gmap ptr key -> option (gmap ptr key * gmap ptr key) :=
  settle_by settle1.

(** The timers whose function a command calls; [stopping] calls it for both. *)
Definition running (c : command) : list event :=
  match c with Arm _ => [] | Disarm x => [TimerDone x true] end.
Definition stopping (c : command) : list event :=
  match c with Arm x | Disarm x => [TimerDone x true] end.

Section timers.
Context {C : Type}.
Abbreviation sched := (__scheduler C).
Implicit Types (s : sched) (p x : ptr) (l : list ptr) (cs : list command) (a i : gmap ptr key).
Context (timer_complete : ptr -> bool -> M sched unit) (budget : C -> nat).
Context `{!TimerLaws timer_complete budget}.

Definition timer_rest s := (__sq_ s, __cq_ s, __dr_pending_ s, (__n_total_submit_ s, __n_newly_submit_ s, cq_entries s)).

(** What timer functions and the loop leave alone; the queue of operations may grow. *)
Definition timers_ran l (evs : list event) s s1 : Prop :=
  (exists new, queued (objs s1) (__io_pending_ s1) (new ++ l) /\
    (length new + budget (client s1) <= budget (client s))%nat) /\
  keeps [] (objs s) (objs s1) /\ timer_rest s1 = timer_rest s /\ log s1 = log s ++ evs.

Lemma timers_ran_nil l s : queued (objs s) (__io_pending_ s) l -> timers_ran l [] s s.
Proof.
  intros Hq. unfold timers_ran. rewrite app_nil_r.
  split_and!; [by exists []|apply keeps_refl|done..].
Qed.

Lemma timers_ran_trans new l evs evs' s s1 s2 :
  timers_ran l evs s s1 -> (length new + budget (client s1) <= budget (client s))%nat ->
  timers_ran (new ++ l) evs' s1 s2 -> timers_ran l (evs ++ evs') s s2.
Proof.
  intros (_ & Hk & Hr & Hl) Hb ((new2 & Hq2 & Hb2) & Hk2 & Hr2 & Hl2). split_and!.
  - exists (new2 ++ new). rewrite <- app_assoc, length_app. split; [done|lia].
  - by apply (keeps_trans [] []  _ (objs s1)).
  - congruence.
  - by rewrite Hl2, Hl, app_assoc.
Qed.

Lemma timer_stop_spec s x l tx :
  queued (objs s) (__io_pending_ s) l -> x <> nullptr -> objs s !! x = Some tx -> class_of tx = Timer ->
  returns (timer_M_stop timer_complete x) s
    (fun _ s1 => timers_ran l [TimerDone x true] s s1 /\ __heap_ s1 = __heap_ s).
Proof.
  intros Hq ? Hx Ht. unfold timer_M_stop, timer_call. eapply returns_bind, on_objs_load; [done..|].
  rewrite Ht. eapply returns_bind, returns_modify, returns_mono; [by apply (timer_complete_law x true _ l)|].
  intros [] s1 (new & q & m & c & -> & Hq' & Hk & Hb). split; [|done].
  by split_and!; [exists new|..].
Qed.

Definition fits (ai : gmap ptr key * gmap ptr key) : Prop :=
  ai.1 ##ₘ ai.2 /\ Z.of_nat (size ai.1) + Z.of_nat (size ai.2) + 1 < 2 ^ 63.

Lemma settle1_fits c ai ai' : fits ai -> settle1 c ai = Some ai' -> fits ai'.
Proof.
  destruct ai as [a i]. intros [Hd Hn]. unfold fits in *. simpl in *. destruct c as [p|x].
  - destruct (i !! p) as [k|] eqn:Hp; [|done]. intros [= <-]. simpl.
    assert (a !! p = None) by (by eapply map_disjoint_Some_r). split.
    + apply map_disjoint_insert_l. split; [by rewrite lookup_delete_eq|by apply map_disjoint_delete_r].
    + rewrite map_size_insert_None by done. rewrite <- (insert_delete_id _ _ _ Hp) in Hn.
      rewrite map_size_insert_None in Hn by apply lookup_delete_eq. lia.
  - destruct (a !! x) as [k|] eqn:Hx.
    + intros [= <-]. simpl. assert (i !! x = None) by (by eapply map_disjoint_Some_l). split.
      * apply map_disjoint_insert_r. split; [by rewrite lookup_delete_eq|by apply map_disjoint_delete_l].
      * rewrite map_size_insert_None by done. rewrite <- (insert_delete_id _ _ _ Hx) in Hn.
        rewrite map_size_insert_None in Hn by apply lookup_delete_eq. lia.
    + destruct (i !! x); [|done]. by intros [= <-].
Qed.

Lemma returns_on_heap {A} (c : M timers A) s (Q : A -> sched -> Prop) :
  returns c (__heap_ s) (fun v h => Q v (set_heap h s)) -> returns (on_heap c) s Q.
Proof. unfold returns, on_heap. by destruct (c (__heap_ s)) as [[]|]. Qed.

Lemma timers_ran_heap l evs h s s1 : timers_ran l evs (set_heap h s) s1 -> timers_ran l evs s s1.
Proof. done. Qed.

Lemma timer_command_spec s l p c ai ai' :
  queued (objs s) (__io_pending_ s) l -> command_of (objs s) p c ->
  timers_rep (__heap_ s) ai.1 ai.2 -> fits ai -> settle1 c ai = Some ai' ->
  returns (timer_command timer_complete p) s
    (fun _ s1 => timers_ran l (running c) s s1 /\ timers_rep (__heap_ s1) ai'.1 ai'.2).
Proof.
  destruct ai as [a i]. intros Hq (Hp & t & Ht & Hc) Hrep [_ Hn] Hs. simpl in *.
  unfold timer_command. eapply returns_bind, on_objs_load; [done..|].
  destruct c as [p'|x]; [destruct Hc as [-> ->]|destruct Hc as (-> & -> & Hx0 & tx & Hx & Hcx)].
  - destruct (i !! p) as [k|] eqn:Hk; [|done]. simpl in Hs. injection Hs as <-.
    apply returns_on_heap. eapply returns_mono; [eapply arm_spec; [done..|lia]|].
    intros ? h' Hrep'. split; [|done]. by eapply (timers_ran_heap l [] h'), (timers_ran_nil l (set_heap h' s)).
  - assert (forall h', timers_rep h' ai'.1 ai'.2 -> returns (timer_M_stop timer_complete x) (set_heap h' s)
      (fun _ s1 => timers_ran l (running (Disarm x)) s s1 /\ timers_rep (__heap_ s1) ai'.1 ai'.2)) as Hstop.
    { intros h' Hrep'. eapply returns_mono; [by eapply (timer_stop_spec (set_heap h' s) x l)|].
      intros ? s1 [Hran Hh]. split; [done|]. by rewrite Hh. }
    apply returns_bind, returns_on_heap. destruct (a !! x) as [k|] eqn:Hk.
    + injection Hs as <-. eapply returns_mono; [eapply disarm_spec; [done..|lia]|].
      intros b h' [_ Hrep']. by apply Hstop.
    + destruct (i !! x) as [k|] eqn:Hk'; [|done]. injection Hs as <-.
      unfold returns at 1. rewrite (disarm_idle_spec _ _ _ _ _ Hrep Hk'). by apply Hstop.
Qed.

Lemma returns_pop_task s q p l (Q : ptr * queue -> sched -> Prop) :
  qrep (objs s) q (p :: l) -> (forall q', qrep (objs s) q' l -> Q (p, q') s) ->
  returns (pop_task q) s Q.
Proof.
  intros Hq HQ. unfold pop_task.
  apply pop_front_spec, returns_Done in Hq as ([x q'] & m & E & -> & -> & Hq).
  unfold returns, on_objs. rewrite E, set_objs_same. by apply HQ.
Qed.

(** A command when a stop was requested. *)
Lemma stop_command_spec s l p c ai :
  queued (objs s) (__io_pending_ s) l -> command_of (objs s) p c ->
  timers_rep (__heap_ s) ai.1 ai.2 ->
  returns (__manual_stop_timer timer_complete p) s
    (fun _ s1 => timers_ran l (stopping c) s s1 /\ timers_rep (__heap_ s1) ai.1 ai.2).
Proof.
  intros Hq (Hp & t & Ht & Hc) Hrep. unfold __manual_stop_timer.
  eapply returns_bind, on_objs_load; [done..|]. destruct c as [p'|x].
  - destruct Hc as [-> Hc]. rewrite Hc. eapply returns_mono; [by eapply (timer_stop_spec s p l)|].
    intros ? s1 [Hran Hh]. split; [done|]. by rewrite Hh.
  - destruct Hc as (-> & -> & Hx0 & tx & Hx & Hcx).
    eapply returns_mono; [by eapply (timer_stop_spec s x l)|].
    intros ? s1 [Hran Hh]. split; [done|]. by rewrite Hh.
Qed.

(** What a loop over the commands [cs] does to heap, log and client. *)
Lemma timer_loop_spec body evs next :
  (forall s l p c ai ai', queued (objs s) (__io_pending_ s) l -> command_of (objs s) p c ->
    timers_rep (__heap_ s) ai.1 ai.2 -> fits ai -> next c ai = Some ai' ->
    returns (body p) s (fun _ s1 => timers_ran l (evs c) s s1 /\ timers_rep (__heap_ s1) ai'.1 ai'.2 /\ fits ai')) ->
  forall fuel s l q cl cs ai ai',
  queued (objs s) (__io_pending_ s) l -> qrep (objs s) q cl -> Forall2 (command_of (objs s)) cl cs ->
  timers_rep (__heap_ s) ai.1 ai.2 -> fits ai -> settle_by next cs ai = Some ai' -> (length cl < fuel)%nat ->
  returns (timer_loop body fuel q) s (fun q' s1 => q' = empty_queue /\
    timers_ran l (concat (evs <$> cs)) s s1 /\ timers_rep (__heap_ s1) ai'.1 ai'.2).
Proof.
  intros Hbody. induction fuel as [|fuel IH]; [lia|].
  intros s l q cl cs ai ai' Hq Hcl Hcs Hrep Hfit Hs Hf.
  simpl. rewrite (qrep_empty _ _ _ Hcl). destruct Hcs as [|p c cl cs Hc Hcs]; simpl.
  - apply returns_ret. injection Hs as <-. apply qrep_nil in Hcl as ->.
    split_and!; [done|by apply timers_ran_nil|done].
  - simpl in Hs. destruct (next c ai) as [ai1|] eqn:E1; [|done]. simpl in Hs.
    eapply returns_bind, returns_pop_task; [done|]. intros q' Hq'.
    eapply returns_bind_mono; [by apply (Hbody s l p c ai ai1)|].
    intros [] s1 (Hran & Hrep1 & Hfit1). pose proof Hran as ((new & Hq1 & Hb1) & _).
    pose proof Hran as (_ & Hk1 & _).
    destruct (keeps_commands _ _ _ _ _ _ Hk1 ltac:(by intros x ?%elem_of_nil) Hq' Hcs) as [Hcl1 Hcs1].
    eapply returns_mono; [eapply (IH s1 (new ++ l)); try done; simpl in Hf; lia|].
    intros q2 s2 (-> & Hran2 & Hrep2). split_and!; [done| |done].
    by eapply timers_ran_trans.
Qed.

Definition events_of (stop : bool) (cs : list command) : list event :=
  concat ((if stop then stopping else running) <$> cs).

Lemma settle_by_stay cs ai : settle_by (fun _ ai => Some ai) cs ai = Some ai.
Proof. by induction cs. Qed.

Lemma drain_timers_spec s l cl cs ai ai' fuel (stop : bool) :
  queued (objs s) (__io_pending_ s) l -> qrep (objs s) (__dr_pending_ s) cl ->
  Forall2 (command_of (objs s)) cl cs -> timers_rep (__heap_ s) ai.1 ai.2 -> fits ai ->
  settle cs ai = Some ai' -> (length cl < fuel)%nat ->
  returns (drain_timers timer_complete fuel stop) s (fun _ s1 =>
    timers_ran l (events_of stop cs) (set_dr empty_queue s) s1 /\
    timers_rep (__heap_ s1) (if stop then ai else ai').1 (if stop then ai else ai').2).
Proof.
  intros Hq Hd Hcs Hrep Hfit Hs Hf. unfold drain_timers. apply returns_bind, returns_get. simpl.
  eapply returns_bind, returns_modify. set (s0 := set_dr _ s).
  apply (returns_bind_mono _ _ _ (fun q' s1 => q' = empty_queue /\
    timers_ran l (events_of stop cs) s0 s1 /\
    timers_rep (__heap_ s1) (if stop then ai else ai').1 (if stop then ai else ai').2)).
  - replace (mkQueue _ _) with (__dr_pending_ s) by by destruct (__dr_pending_ s).
    destruct stop.
    + eapply (timer_loop_spec _ stopping (fun _ ai => Some ai)); try done; [|apply settle_by_stay].
      intros s' l' p c aj ai'' ???? [= <-]. eapply returns_mono; [by eapply stop_command_spec|]. naive_solver.
    + eapply (timer_loop_spec _ running settle1); try done.
      intros s' l' p c aj ai'' Hq' Hc' Hr' Hf' H1. eapply returns_mono; [by eapply timer_command_spec|].
      intros ? s1 [??]. split_and!; [done..|by eapply settle1_fits].
  - intros q' s1 (-> & Hran & Hrep1). unfold returns, on_objs, destroy, assert. simpl.
    rewrite set_objs_same. done.
Qed.

(** handing the pending timer commands to the heap empties their queue.
    Without a stop request every scheduled timer is armed in the heap, and every
    stop command takes its timer out of the heap, if it is still there, and calls
    its function; no other timer's function is called.  With a stop request the
    functions of all timers the commands are about are called, the heap stays as
    it is: timers that were armed before are not told. *)
Theorem timers_settle s l cl cs ai ai' fuel (stop : bool) :
  queued (objs s) (__io_pending_ s) l -> qrep (objs s) (__dr_pending_ s) cl ->
  Forall2 (command_of (objs s)) cl cs -> timers_rep (__heap_ s) ai.1 ai.2 -> fits ai ->
  settle cs ai = Some ai' -> (length cl < fuel)%nat ->
  returns (drain_timers timer_complete fuel stop) s (fun _ s1 =>
    __dr_pending_ s1 = empty_queue /\
    log s1 = log s ++ concat ((if stop then stopping else running) <$> cs) /\
    timers_rep (__heap_ s1) (if stop then ai else ai').1 (if stop then ai else ai').2).
Proof.
  intros. eapply returns_mono; [by eapply drain_timers_spec|].
  intros ? s1 ((_ & _ & Hr & Hl) & Hrep). split_and!; [|done..].
  unfold timer_rest in Hr. simpl in Hr. congruence.
Qed.

(** ** The accounts

    [O] are the operations the kernel has or will find in the ring: the total
    counts them, the new ones are those in the ring, and the completion queue has
    room for all of them. *)
Definition accounts s (es : list io_uring_sqe) (O : list ptr) : Prop :=
  __n_newly_submit_ s = Z.of_nat (length es) /\ __n_total_submit_ s = Z.of_nat (length O) /\
  NoDup O /\ Z.of_nat (length O) <= cq_entries s < 2 ^ 31 /\
  forall p, p ∈ O -> is_ioring (objs s) p 1.

Definition ended (es : list io_uring_cqe) : list ptr := cqe_user_data <$> finals es.

Lemma ended_incl es : ended es ⊆ cqe_user_data <$> es.
Proof.
  intros p. unfold ended, finals. rewrite !list_elem_of_fmap.
  intros (e & -> & [_ He]%list_elem_of_filter). eauto.
Qed.

Lemma ended_NoDup es : well_ended es -> NoDup (ended es).
Proof.
  induction es as [|e es IH]; intros He; [constructor|]. destruct He as [He Hes].
  unfold ended. rewrite finals_cons. unfold finished. destruct (more e) eqn:Hm; [by apply IH|].
  constructor; [|by apply IH]. intros Hin. apply He; [done|]. by apply ended_incl.
Qed.

Lemma well_ended_prefix es es' : well_ended (es ++ es') -> well_ended es.
Proof.
  induction es as [|e es IH]; [done|]. simpl. rewrite fmap_app. intros [He ?].
  split; [|auto]. intros Hm Hin. apply He; [done|]. apply elem_of_app. by left.
Qed.

(** An operation that has ended leaves the accounts. *)
Definition outstanding (O D : list ptr) : list ptr := filter (fun p => p ∉ D) O.

Lemma outstanding_perm O D : NoDup O -> NoDup D -> D ⊆ O -> O ≡ₚ D ++ outstanding O D.
Proof.
  intros HO HD Hsub. apply NoDup_Permutation; [done| |].
  - apply NoDup_app. split_and!; [done| |by apply NoDup_filter].
    intros x Hx. unfold outstanding. rewrite list_elem_of_filter. tauto.
  - intros x. rewrite elem_of_app. unfold outstanding. rewrite list_elem_of_filter.
    destruct (decide (x ∈ D)) as [Hx|]; [pose proof (Hsub x Hx); tauto|tauto].
Qed.

Lemma outstanding_length O D : NoDup O -> NoDup D -> D ⊆ O ->
  length O = (length D + length (outstanding O D))%nat.
Proof. intros. erewrite (Permutation_length (outstanding_perm O D _ _ _)). by rewrite length_app. Unshelve. all: done. Qed.

Lemma swrap_counts n : 0 <= n < 2 ^ 33 -> swrap 64 n = n.
Proof. intros. apply swrap_small; lia. Qed.

(** Consuming the completions [dn]. *)
Lemma completes_accounts k l es O dn n s s1 :
  accounts s es O -> completes budget k l dn n s s1 -> well_ended dn ->
  (forall e, e ∈ dn -> cqe_user_data e ∈ O) ->
  accounts (set_counts (swrap 64 (__n_total_submit_ s1 - n)) (__n_newly_submit_ s1) s1) es
    (outstanding O (ended dn)).
Proof.
  intros (Hn & Ht & HO & Hb & Hi) (-> & _ & _ & _ & Hk & Hr) Hend Hin.
  assert (ended dn ⊆ O) as Hsub.
  { intros p (e & -> & He)%ended_incl%list_elem_of_fmap. by apply Hin. }
  pose proof (outstanding_length O (ended dn) HO (ended_NoDup _ Hend) Hsub) as Hlen.
  assert (__n_total_submit_ s1 = __n_total_submit_ s /\ __n_newly_submit_ s1 = __n_newly_submit_ s /\
    cq_entries s1 = cq_entries s) as (Et & En & Ee) by (unfold cq_rest in Hr; by injection Hr).
  assert (length (ended dn) = length (finals dn)) as El by apply length_fmap.
  unfold accounts. simpl. rewrite En, Et, Ee. split_and!; [done| |by apply NoDup_filter|lia..|].
  - rewrite swrap_counts; lia.
  - intros p [Hp HpO]%list_elem_of_filter. eapply keeps_ioring; [exact Hk|done|by apply Hi].
Qed.

(** Entering the first [b] tasks of the queue. *)
Lemma submits_accounts k l es O b s s1 new :
  accounts s es O -> queued (objs s) (__io_pending_ s) l -> submits budget k l es b s s1 ->
  Z.of_nat (length es) < 2 ^ 32 -> (b <= length l)%nat -> Z.of_nat b <= cq_entries s - Z.of_nat (length O) ->
  user_data <$> new = take b l ->
  accounts (set_counts (swrap 64 (__n_total_submit_ s1 + Z.of_nat b))
    (swrap 64 (__n_newly_submit_ s1 + Z.of_nat b)) s1) (es ++ new) (O ++ take b l) .
Proof.
  intros (Hn & Ht & HO & Hb & Hi) Hq (_ & Hone & Hk & Hr & _) Hes Hbl Hroom Hnew.
  assert (__n_total_submit_ s1 = __n_total_submit_ s /\ __n_newly_submit_ s1 = __n_newly_submit_ s /\
    cq_entries s1 = cq_entries s) as (Et & En & Ee) by (unfold sq_rest in Hr; by injection Hr).
  assert (length new = b /\ length (take b l) = b) as [Hlen Hlen2].
  { rewrite <- (length_fmap user_data new), Hnew, length_take. lia. }
  assert (forall p, p ∈ O -> p ∉ take b l) as Hd.
  { intros p Hp Hin. eapply queued_idle; [exact Hq|by apply Hi|lia|]. by eapply subseteq_take. }
  unfold accounts. simpl. rewrite En, Et, Ee, !length_app. split_and!; [| | |lia..|].
  - rewrite swrap_counts; lia.
  - rewrite swrap_counts; lia.
  - apply NoDup_app. split_and!; [done|done|].
    apply queued_NoDup in Hq. rewrite <- (take_drop b l) in Hq. by apply NoDup_app in Hq as (? & _).
  - intros p [Hp|Hp]%elem_of_app; [|by apply Hone]. eapply keeps_ioring; [exact Hk|by apply Hd|by apply Hi].
Qed.

Lemma timers_ran_accounts l evs es O s s1 : accounts s es O -> timers_ran l evs s s1 -> accounts s1 es O.
Proof.
  intros (Hn & Ht & HO & Hb & Hi) (_ & Hk & Hr & _).
  assert (__n_total_submit_ s1 = __n_total_submit_ s /\ __n_newly_submit_ s1 = __n_newly_submit_ s /\
    cq_entries s1 = cq_entries s) as (Et & En & Ee) by (unfold timer_rest in Hr; by injection Hr).
  unfold accounts. rewrite En, Et, Ee. split_and!; [done..|lia|lia|].
  intros p Hp. eapply keeps_ioring; [exact Hk|apply not_elem_of_nil|by apply Hi].
Qed.

(** The kernel takes the first [rc] entries and [_M_io_uring_enter] books them. *)
Lemma after_enter_accounts s es O rc q :
  accounts s es O -> (rc <= length es)%nat -> Z.of_nat (length es) < 2 ^ 32 ->
  returns (after_enter (Z.of_nat rc)) (set_sq q s) (fun _ s1 => accounts s1 (drop rc es) O).
Proof.
  intros (Hn & Ht & HO & Hb & Hi) Hrc Hes. unfold after_enter.
  rewrite (proj2 (Z.ltb_ge (Z.of_nat rc) 0)) by lia. simpl. apply returns_bind, returns_get.
  rewrite (proj2 (Z.eqb_neq (- Z.of_nat rc) ETIME)), (proj2 (Z.eqb_neq (- Z.of_nat rc) EINTR))
    by (unfold ETIME, EINTR; lia). simpl. apply returns_modify.
  unfold accounts. simpl. rewrite Hn, length_drop, swrap_counts by lia. split_and!; [lia|done..|lia|lia|done].
Qed.
End timers.

(** ** A whole round *)

Section round.
Context {C : Type}.
Abbreviation sched := (__scheduler C).
Implicit Types (s : sched) (p x : ptr) (l : list ptr) (cs : list command).
Context (client_submit : ptr -> io_uring_sqe -> M sched io_uring_sqe).
Context (client_complete : ptr -> io_uring_cqe -> M sched unit).
Context (timer_complete : ptr -> bool -> M sched unit).
Context (kernel : list io_uring_cqe -> __completion_queue -> __completion_queue).
Context (is_cancel : ptr -> bool) (budget : C -> nat).
Context `{!ClientLaws client_submit client_complete is_cancel budget}.
Context `{!TimerLaws timer_complete budget}.
Context (kernel_law : forall k q (l es : list io_uring_cqe), cq_rep k q l -> Z.of_nat (length (l ++ es)) <= 2 ^ k ->
  cq_rep k (kernel es q) (l ++ es) /\ cq_head (kernel es q) = cq_head q).

(** The pending timer commands and the heap they are for. *)
Definition commands s cl cs ai : Prop :=
  qrep (objs s) (__dr_pending_ s) cl /\ Forall2 (command_of (objs s)) cl cs /\
  timers_rep (__heap_ s) ai.1 ai.2.

Lemma commands_keep D s s1 cl cs ai :
  commands s cl cs ai -> keeps D (objs s) (objs s1) -> (forall x, x ∈ D -> exists n, is_ioring (objs s) x n) ->
  __dr_pending_ s1 = __dr_pending_ s -> __heap_ s1 = __heap_ s -> commands s1 cl cs ai.
Proof.
  intros (Hd & Hc & Hh) Hk HD Ed Eh. unfold commands. rewrite Ed, Eh.
  destruct (keeps_commands _ _ _ _ _ _ Hk HD Hd Hc). done.
Qed.

(** Submitting when nothing is to be stopped. *)
Lemma io_uring_submit_spec s l ks es O cl cs ai ai' fuel :
  queued (objs s) (__io_pending_ s) l -> sq_rep ks (__sq_ s) es -> accounts s es O ->
  commands s cl cs ai -> fits ai -> settle cs ai = Some ai' ->
  (length l < fuel)%nat -> (length cl < fuel)%nat ->
  returns (_M_io_uring_submit client_submit client_complete timer_complete fuel false) s
    (fun _ s1 => exists new pushed,
      let b := batch_of l (Z.min (cq_entries s - Z.of_nat (length O)) (2 ^ ks - Z.of_nat (length es))) in
      user_data <$> new = take b l /\
      accounts s1 (es ++ new) (O ++ (user_data <$> new)) /\
      queued (objs s1) (__io_pending_ s1) (pushed ++ drop b l) /\
      (length pushed + budget (client s1) <= budget (client s))%nat /\
      sq_rep ks (__sq_ s1) (es ++ new) /\ __cq_ s1 = __cq_ s /\ commands s1 [] [] ai' /\
      same_commands (objs s) (objs s1) /\
      log s1 = log s ++ (Submitted <$> (user_data <$> new)) ++ concat (running <$> cs)).
Proof.
  intros Hq Hsq Ha Hcom Hfit Hs Hf Hf2. unfold _M_io_uring_submit. apply returns_bind, returns_get.
  pose proof Ha as (Hn & Ht & _ & Hb & _). rewrite Ht.
  rewrite (wrap_small 32 (Z.of_nat (length O))), wrap_small by (split; lia).
  set (max := cq_entries s - Z.of_nat (length O)).
  assert (is_word 32 max) as Hmax by (split; lia).
  set (b := batch_of l (Z.min max (2 ^ ks - Z.of_nat (length es)))).
  assert ((b <= length l)%nat /\ Z.of_nat b <= max) as [Hbl Hbm] by (subst b; unfold batch_of; lia).
  eapply returns_bind_mono; [by eapply (submit_spec _ _ is_cancel budget s l ks es max fuel)|].
  intros r s1 (-> & Hsub). pose proof Hsub as (Hq1 & Hi1 & Hk1 & Hr1 & Hl1 & Hb1 & _ & new & Hsq1 & Hnew).
  assert (Z.of_nat (length es) < 2 ^ 32) as Hes.
  { destruct Hsq as ((? & _) & _ & ? & _). assert (2 ^ ks < 2 ^ 32) by (apply Z.pow_lt_mono_r; lia). lia. }
  pose proof (submits_accounts budget ks l es O b s s1 new Ha Hq Hsub Hes Hbl Hbm Hnew) as Ha1.
  eapply returns_bind, returns_modify. set (s2 := set_counts _ _ s1) in *.
  assert (forall x, x ∈ take b l -> exists n, is_ioring (objs s) x n) as Htasks.
  { intros x Hx%subseteq_take. destruct (proj2 Hq x Hx) as (n & _ & ?). by exists n. }
  assert (commands s2 cl cs ai) as (Hd2 & Hc2 & Hh2).
  { eapply (commands_keep (take b l) s); [done|done|done|unfold sq_rest in Hr1; simpl; by injection Hr1..]. }
  eapply returns_mono; [by eapply (drain_timers_spec timer_complete budget s2)|].
  intros [] s3 [Hran Hh3]. pose proof Hran as ((new' & Hq3 & Hb3) & Hk3 & Hr3 & Hl3).
  unfold timer_rest in Hr3. simpl in Hr3. injection Hr3 as Esq Ecq Edr _ _ _.
  exists new, new'. split_and!; [done| |done|simpl in Hb3; lia|by rewrite Esq| | | |].
  - rewrite Hnew. eapply (timers_ran_accounts _ _ _ _ _ (set_dr empty_queue s2)); [exact Ha1|exact Hran].
  - rewrite Ecq. unfold sq_rest in Hr1. by injection Hr1.
  - unfold commands. rewrite Edr. split_and!; [by apply qrep_nil|constructor|done].
  - eapply same_commands_trans; [by eapply keeps_same_commands|by apply keeps_nil_same_commands].
  - rewrite Hl3. simpl. by rewrite Hl1, Hnew, <- app_assoc.
Qed.

(** The first half of a round: the completions are consumed and the total goes
    down by the operations that have ended. *)
Lemma consume_spec s l kc es td A O cl cs ai fuel :
  queued (objs s) (__io_pending_ s) l -> cq_rep kc (__cq_ s) td ->
  accounts s es O -> Z.of_nat (length (td ++ concat A)) <= 2 ^ kc -> well_ended (td ++ concat A) ->
  (forall e, e ∈ td ++ concat A -> cqe_user_data e ∈ O) -> commands s cl cs ai ->
  (length (td ++ concat A) < fuel)%nat ->
  returns (__n ← cq_M_complete client_complete kernel fuel A;
    modify (fun s => set_counts (swrap 64 (__n_total_submit_ s - __n)) (__n_newly_submit_ s) s)) s
    (fun _ s2 => exists j new, let dn := td ++ concat (take j A) in
      accounts s2 es (outstanding O (ended dn)) /\ queued (objs s2) (__io_pending_ s2) (new ++ l) /\
      (length new + budget (client s2) <= budget (client s))%nat /\ cq_rep kc (__cq_ s2) [] /\ commands s2 cl cs ai /\
      same_commands (objs s) (objs s2) /\ cq_entries s2 = cq_entries s /\
      __sq_ s2 = __sq_ s /\ log s2 = log s ++ ((fun e => Completed (cqe_user_data e) e) <$> dn)).
Proof.
  intros Hq Hcq Ha Hroom Hend Hin Hcom Hf. pose proof Ha as (_ & _ & _ & _ & Hi).
  eapply returns_bind_mono.
  { eapply (cq_complete_spec _ _ is_cancel budget kernel kernel_law); [done..| |lia]. auto. }
  intros n s1 (j & Hcomp). pose proof Hcomp as (-> & Hc1 & Hl1 & (new1 & Hq1 & Hb1) & Hk1 & Hr1).
  apply returns_modify. exists j, new1. set (dn := td ++ concat (take j A)) in *.
  assert (exists dn', td ++ concat A = dn ++ dn') as [dn' Edn].
  { exists (concat (drop j A)). subst dn. by rewrite <- app_assoc, <- concat_app, take_drop. }
  rewrite Edn in Hend, Hin.
  assert (forall e, e ∈ dn -> cqe_user_data e ∈ O) as Hin' by (intros e He; apply Hin, elem_of_app; by left).
  pose proof (completes_accounts budget kc l es O dn _ s s1 Ha Hcomp (well_ended_prefix _ _ Hend) Hin') as Ha1.
  unfold cq_rest in Hr1. injection Hr1 as Eh Esq Edr _ _ Ee.
  assert (forall x, x ∈ ended dn -> exists n, is_ioring (objs s) x n) as Htasks.
  { intros x (e & -> & He)%ended_incl%list_elem_of_fmap. exists 1. by apply Hi, Hin'. }
  split_and!; [done..| | |done|done|done]; [by eapply (commands_keep (ended dn) s)|by eapply keeps_same_commands].
Qed.

(** C6: one round of the scheduler while no stop is requested.  The completions
    in the ring and those posted meanwhile are delivered in order, and the
    operations they end leave the total.  Then the first tasks of the queue, which
    is what the functions of the tasks have pushed in front of what was pending, are
    entered in order, as many as there are, as the submission ring has room for
    and as the completion queue has room for besides the operations that are with
    the kernel; the others stay in the queue, in order, behind what the timers'
    functions push.  Then the timer commands are carried out.
    [__n_total_submit_] goes on counting exactly the operations that were entered
    and have not ended, [__n_newly_submit_] those the kernel has not taken, and
    there is a place in the completion queue for each of them.  The functions of
    the tasks return and push a bounded number of tasks. *)
Theorem run_some_accounts s l ks kc es td A O cl cs ai ai' fuel :
  queued (objs s) (__io_pending_ s) l -> sq_rep ks (__sq_ s) es -> cq_rep kc (__cq_ s) td ->
  accounts s es O -> Z.of_nat (length (td ++ concat A)) <= 2 ^ kc -> well_ended (td ++ concat A) ->
  (forall e, e ∈ td ++ concat A -> cqe_user_data e ∈ O) ->
  commands s cl cs ai -> fits ai -> settle cs ai = Some ai' ->
  (length (td ++ concat A) + length l + budget (client s) + length cl < fuel)%nat ->
  returns (_M_run_some client_submit client_complete timer_complete kernel fuel A false) s
    (fun _ s1 => exists j pushed new pushed', let dn := td ++ concat (take j A) in
      let left := outstanding O (ended dn) in
      let b := batch_of (pushed ++ l) (Z.min (cq_entries s - Z.of_nat (length left)) (2 ^ ks - Z.of_nat (length es))) in
      (length pushed + length pushed' + budget (client s1) <= budget (client s))%nat /\
      user_data <$> new = take b (pushed ++ l) /\
      queued (objs s1) (__io_pending_ s1) (pushed' ++ drop b (pushed ++ l)) /\
      accounts s1 (es ++ new) (left ++ (user_data <$> new)) /\ sq_rep ks (__sq_ s1) (es ++ new) /\
      cq_rep kc (__cq_ s1) [] /\ commands s1 [] [] ai' /\
      log s1 = log s ++ ((fun e => Completed (cqe_user_data e) e) <$> dn) ++
        (Submitted <$> (user_data <$> new)) ++ concat (running <$> cs)).
Proof.
  intros Hq Hsq Hcq Ha Hroom Hend Hin Hcom Hfit Hs Hf. unfold _M_run_some. apply returns_bind_assoc.
  eapply returns_bind_mono; [eapply (consume_spec s l kc es td A O cl cs ai); done || lia|].
  intros [] s2 (j & new1 & Ha2 & Hq2 & Hb2 & Hcq2 & Hcom2 & _ & Ee & Esq & Hl2). set (dn := td ++ concat (take j A)) in *.
  eapply returns_mono.
  { eapply (io_uring_submit_spec s2 (new1 ++ l) ks es (outstanding O (ended dn)) cl cs ai ai');
      try done; [by rewrite Esq|rewrite length_app; lia|lia]. }
  intros [] s3 (new & new2 & Hnew & Ha3 & Hq3 & Hb3 & Hsq3 & Hcq3 & Hcom3 & _ & Hl3). rewrite Ee in *.
  exists j, new1, new, new2. split_and!; [lia|done..|by rewrite Hcq3|done|]. by rewrite Hl3, Hl2, <- app_assoc.
Qed.
End round.

(** ** A scheduler in the middle of its work

    The client and the kernel of module [ring_example]; two timers are to be
    armed and the first of them to be stopped. *)

Module scheduler_example.
Import ring_example.

Definition ex_timer (_ : ptr) (_ : bool) : M (__scheduler nat) unit := mret tt.

#[local] Instance ex_timer_laws : TimerLaws ex_timer (fun c => c).
Proof.
  intros p b s l Hq. apply returns_ret. exists [], (__io_pending_ s), (objs s), (client s).
  split_and!; [by destruct s|done|apply keeps_refl|done].
Qed.

Definition timer_objects : gmap ptr __task_facade := list_to_map [
  (1024, mkFacade 0 1088 Timer); (1088, mkFacade 0 1152 Timer); (1152, mkFacade 1024 nullptr TimerStop)].
Definition all_objects : gmap ptr __task_facade := objects ∪ timer_objects.
Definition k1 : key := mkTimeSequence 500 0.
Definition k2 : key := mkTimeSequence 400 1.
Definition timer_nodes : list (ptr * intrusive_heap.node (K := key)) :=
  [(1024, intrusive_heap.mkNode k1 nullptr nullptr nullptr);
   (1088, intrusive_heap.mkNode k2 nullptr nullptr nullptr)].
Definition busy : __scheduler nat := mkSched all_objects
  (intrusive_heap.mkHeap (list_to_map timer_nodes) nullptr 0)
  ring_sq ring_cq queue3 (mkQueue 1024 1152) 2 1 4 1%nat [].
Definition idle : gmap ptr key * gmap ptr key := (∅, {[1024 := k1; 1088 := k2]}).
Definition settled : gmap ptr key * gmap ptr key := ({[1088 := k2]}, {[1024 := k1]}).

Lemma busy_queued : queued (objs busy) (__io_pending_ busy) [512; 64; 128].
Proof.
  split.
  - split; [|done]. repeat (split; [done|]; split; [done|]; eexists; split; [done|]). done.
  - intros p Hp. exists 0. split; [done|].
    repeat (apply elem_of_cons in Hp as [->|Hp]; [split; [done|by eexists]|]). by apply elem_of_nil in Hp.
Qed.

Lemma busy_timers : timers_rep (__heap_ busy) idle.1 idle.2.
Proof.
  exists intrusive_heap.Leaf, timer_nodes. split_and!; [|done|apply map_disjoint_empty_l|].
  - unfold intrusive_heap.heap_rep, intrusive_heap.hp, holds. split_and!; try done.
    + apply (bool_decide_unpack _). by vm_compute.
    + repeat constructor; by vm_compute.
  - unfold idle. simpl. intros x k [[<- <-]|[_ [<- <-]%lookup_singleton_Some]]%lookup_insert_Some.
    + eexists. split; [by left|done].
    + eexists. split; [right; by left|done].
Qed.

Definition pending : list command := [Arm 1024; Arm 1088; Disarm 1024].

Lemma busy_commands : commands busy [1024; 1088; 1152] pending idle.
Proof.
  split_and!; [split; [|done]| |apply busy_timers].
  - repeat (split; [done|]; split; [done|]; eexists; split; [done|]). done.
  - repeat constructor; try done; eexists; split; try done. split_and!; try done. by eexists.
Qed.

Lemma idle_fits : fits idle.
Proof. split; [apply map_disjoint_empty_l|by vm_compute]. Qed.

Lemma settle_pending : settle pending idle = Some settled.
Proof. by vm_compute. Qed.

Lemma busy_accounts : accounts busy [entry 192] [192; 256].
Proof.
  split_and!; [done..|repeat constructor; set_solver|done|done|].
  intros p Hp. repeat (apply elem_of_cons in Hp as [->|Hp]; [split; [done|by eexists]|]).
  by apply elem_of_nil in Hp.
Qed.

Lemma timers_settle_witness :
  returns (drain_timers ex_timer 4 false) busy (fun _ s1 =>
    __dr_pending_ s1 = empty_queue /\ log s1 = [TimerDone 1024 true] /\
    timers_rep (__heap_ s1) {[1088 := k2]} {[1024 := k1]}).
Proof.
  apply (timers_settle ex_timer (fun c => c) busy [512; 64; 128] [1024; 1088; 1152] pending idle settled 4 false);
    [apply busy_queued|apply busy_commands..|apply idle_fits|apply settle_pending|simpl; lia].
Defined.

Lemma run_some_accounts_witness :
  returns (_M_run_some (ex_submit true) ex_complete ex_timer ex_kernel 20 [[c3]] false) busy
    (fun _ s1 => exists j pushed new pushed', let dn := [c1; c2] ++ concat (take j [[c3]]) in
      let left := outstanding [192; 256] (ended dn) in
      let b := batch_of (pushed ++ [512; 64; 128]) (Z.min (4 - Z.of_nat (length left)) (2 ^ 2 - 1)) in
      (length pushed + length pushed' + client s1 <= 1)%nat /\
      user_data <$> new = take b (pushed ++ [512; 64; 128]) /\
      queued (objs s1) (__io_pending_ s1) (pushed' ++ drop b (pushed ++ [512; 64; 128])) /\
      accounts s1 ([entry 192] ++ new) (left ++ (user_data <$> new)) /\ sq_rep 2 (__sq_ s1) ([entry 192] ++ new) /\
      cq_rep 2 (__cq_ s1) [] /\ commands s1 [] [] settled /\
      log s1 = log busy ++ ((fun e => Completed (cqe_user_data e) e) <$> dn) ++
        (Submitted <$> (user_data <$> new)) ++ concat (running <$> pending)).
Proof.
  apply (run_some_accounts (ex_submit true) ex_complete ex_timer ex_kernel _ (fun c => c) ex_kernel_law
    busy [512; 64; 128] 2 2 [entry 192] [c1; c2] [[c3]] [192; 256] [1024; 1088; 1152] pending idle settled 20);
    [apply busy_queued|apply start_sq|apply start_cq|apply busy_accounts|simpl; lia| | |apply busy_commands
    |apply idle_fits|apply settle_pending|simpl; lia].
  - split; [done|]. do 2 (split; [intros _; apply (bool_decide_unpack _); by vm_compute|]). done.
  - intros e He. apply (bool_decide_unpack _).
    repeat (apply elem_of_cons in He as [->|He]; [by vm_compute|]). by apply elem_of_nil in He.
Defined.
End scheduler_example.
End scheduler.
