(* ===== verification/Shutdown.v ===== *)
(** * [__scheduler.hpp]: the end of [_M_run_until_stop]

    When the loop is left and the remote queues are closed, the scheduler stops
    what is still queued, enters the kernel once more to wait for the operations
    that are with it, consumes their completions and asserts that these were all.
    Module [shutdown] models these steps over the scheduler of module [tasks];
    closing the remote queues is in module [wakeup]. *)

From S2P Require Import Prelude Memory IntrusiveQueue IntrusiveHeap Tasks Rings Scheduler.
Import intrusive_queue tasks rings scheduler.

Module shutdown.
Section code.
Context {C : Type}.
Abbreviation sched := (__scheduler C).
Context (client_submit : ptr -> io_uring_sqe -> M sched io_uring_sqe).
Context (client_complete : ptr -> io_uring_cqe -> M sched unit).
Context (timer_complete : ptr -> bool -> M sched unit).
Context (kernel : list io_uring_cqe -> __completion_queue -> __completion_queue).

(** What the wrapper makes of the result of the system call and [errno]. *)
Definition __io_uring_enter (__rc errno : Z) : Z := if decide (__rc = -1) then - errno else __rc.

(** The call takes the entries, which leaves the submission queue as [q], and
    posts the completions [posted]. *)
Definition during_call (q : __submission_queue) (posted : list io_uring_cqe) : M sched unit :=
  modify (fun s => set_cq (kernel posted (__cq_ s)) (set_sq q s)).

Definition drain (fuel : nat) (q : __submission_queue) (posted : list io_uring_cqe) (rc errno : Z)
    (arrivals : list (list io_uring_cqe)) : M sched unit :=
  _M_io_uring_submit client_submit client_complete timer_complete fuel true;;
  during_call q posted;;
  let __rc := __io_uring_enter rc errno in
  if (__rc <? 0) && negb (__rc =? - EINTR) && negb (__rc =? - ETIME) then throw Terminate
  else
    __m ← cq_M_complete client_complete kernel fuel arrivals;
    s ← get;
    assert (__n_total_submit_ s =? __m).

Lemma drain_grows n n' q posted rc errno A : (n <= n')%nat -> grows (drain n q posted rc errno A) (drain n' q posted rc errno A).
Proof.
  intros Hn. unfold drain. apply grows_bind; [by apply io_uring_submit_grows|]. intros _. apply grows_bind; [grow|]. intros _. cbv zeta.
  case_match; [grow|]. apply grows_bind; [by apply cq_M_complete_grows|grow].
Qed.
End code.

Section specs.
Context {C : Type}.
Abbreviation sched := (__scheduler C).
Implicit Types (s : sched) (p x : ptr) (l : list ptr) (cs : list command).
Context (client_submit : ptr -> io_uring_sqe -> M sched io_uring_sqe).
Context (client_complete : ptr -> io_uring_cqe -> M sched unit).
Context (timer_complete : ptr -> bool -> M sched unit).
Context (kernel : list io_uring_cqe -> __completion_queue -> __completion_queue).
Context (is_cancel : ptr -> bool) (budget : C -> nat).
Context `{!ClientLaws client_submit client_complete is_cancel budget}.
Context `{!TimerLaws timer_complete budget}.
Context (kernel_law : forall k q (l es : list io_uring_cqe), cq_rep k q l -> Z.of_nat (length (l ++ es)) <= 2 ^ k ->
  cq_rep k (kernel es q) (l ++ es) /\ cq_head (kernel es q) = cq_head q).
Context (no_cancel : forall p, is_cancel p = false).

(** What stopping the queued tasks [ps] and the timer commands [cs] logs. *)
Definition stop_log (ps : list ptr) cs : list event :=
  concat (stop_events <$> ps) ++ concat (stopping <$> cs).

(** Both rings have room for one more operation. *)
Definition room s ks (es : list io_uring_sqe) (O : list ptr) : Prop :=
  Z.of_nat (length O) < cq_entries s /\ Z.of_nat (length es) < 2 ^ ks.
#[local] Instance room_dec s ks es O : Decision (room s ks es O).
Proof. apply _. Defined.

(** The queue of tasks is stopped if there is room, and left as it is if not. *)
Lemma stop_queue_spec s l ks es O fuel max :
  queued (objs s) (__io_pending_ s) l -> sq_rep ks (__sq_ s) es -> Z.of_nat (length O) <= cq_entries s < 2 ^ 31 ->
  max = cq_entries s - Z.of_nat (length O) -> (length l + budget (client s) < fuel)%nat ->
  returns (sq_M_submit client_submit client_complete fuel max true) s (fun r s1 =>
    r = 0 /\ sq_rep ks (__sq_ s1) es /\ sq_rest s1 = sq_rest s /\ spares (objs s) (objs s1) /\
    exists ps l1, queued (objs s1) (__io_pending_ s1) l1 /\ log s1 = log s ++ concat (stop_events <$> ps) /\
      if decide (room s ks es O) then l `sublist_of` ps /\ l1 = [] else ps = [] /\ l1 = l).
Proof.
  intros Hq Hsq Hb -> Hf. destruct (decide (room s ks es O)) as [[Hr1 Hr2]|Hr].
  - eapply returns_mono.
    { eapply (stop_spec client_submit client_complete is_cancel budget s l ks es); done || lia || (split; lia). }
    intros r s1 (-> & Hsq1 & (ps & Hps & Hl1 & _) & Hq1 & Hr & _ & _ & _ & Hk1). split_and!; [done..|by exists ps, []].
  - pose proof Hsq as (Hk & Hh & Hl & _).
    assert (Z.min (cq_entries s - Z.of_nat (length O)) (2 ^ ks - Z.of_nat (length es)) = 0) as E0.
    { unfold room in Hr. destruct (decide (Z.of_nat (length O) < cq_entries s)); [|lia].
      assert (~ Z.of_nat (length es) < 2 ^ ks) by tauto. lia. }
    assert (forall n, n = 0 -> batch_of l n = 0%nat) as Eb by (intros n ->; apply Nat.min_0_r).
    eapply returns_mono; [eapply (sq_M_submit_enters client_submit client_complete budget s l ks es); [done..|split; lia|]|].
    + intros max'. rewrite E0. intros ->. destruct fuel as [|fuel]; [lia|]. simpl. apply returns_bind, returns_get.
      rewrite andb_false_r. unfold loop_post. rewrite Eb by done. rewrite !Z.add_0_r.
      split_and!; [by eapply (batch_submitted_nil client_submit client_complete is_cancel budget)|done..].
    + rewrite E0, Eb by done. intros r s1 (-> & Hq1 & _ & Hk1 & Hr1 & Hl1 & _ & _ & nw & Hsq1 & Hnew).
      rewrite take_0 in *. rewrite drop_0 in Hq1. apply fmap_nil_inv in Hnew as ->. rewrite app_nil_r in Hsq1.
      split_and!; [done..| |by exists [], l]. exists []. split; [done|]. intros x Hx. by apply not_elem_of_nil in Hx.
Qed.

(** Submitting when everything is to be stopped. *)
Lemma stop_submit_spec s l ks es O cl cs ai ai' fuel :
  queued (objs s) (__io_pending_ s) l -> sq_rep ks (__sq_ s) es -> accounts s es O ->
  commands s cl cs ai -> fits ai -> settle cs ai = Some ai' ->
  (length l + budget (client s) + length cl < fuel)%nat ->
  returns (_M_io_uring_submit client_submit client_complete timer_complete fuel true) s
    (fun _ s1 => accounts s1 es O /\ __cq_ s1 = __cq_ s /\ sq_rep ks (__sq_ s1) es /\ commands s1 [] [] ai /\
      same_commands (objs s) (objs s1) /\
      exists ps l1, queued (objs s1) (__io_pending_ s1) l1 /\ log s1 = log s ++ stop_log ps cs /\
        if decide (room s ks es O) then l `sublist_of` ps else ps = [] /\ l `suffix_of` l1).
Proof.
  intros Hq Hsq Ha Hcom Hfit Hs Hf. unfold _M_io_uring_submit. apply returns_bind, returns_get.
  pose proof Ha as (Hn & Ht & HO & Hb & Hi). rewrite Ht.
  rewrite (wrap_small 32 (Z.of_nat (length O))), wrap_small by (split; lia).
  eapply returns_bind_mono; [eapply (stop_queue_spec s l ks es O); done || lia|].
  intros r s1 (-> & Hsq1 & Hr1 & Hk1 & ps & l1 & Hq1 & Hl1 & Hps).
  eapply returns_bind, returns_modify. unfold sq_rest in Hr1. injection Hr1 as Eh Ecq Edr Et En Ee.
  rewrite Et, En, Hn, Ht, !Z.add_0_r.
  assert (Z.of_nat (length es) < 2 ^ 33) as Hes33.
  { destruct Hsq as ((Hks & _) & _ & Hes & _). assert (2 ^ ks < 2 ^ 33) by (apply Z.pow_lt_mono_r; lia). lia. }
  rewrite !swrap_counts by lia. set (s2 := set_counts _ _ s1).
  assert (commands s2 cl cs ai) as (Hd2 & Hc2 & Hh2).
  { pose proof Hk1 as (D & HkD & HD). eapply (commands_keep D s); [done|done| |done..]. intros x (n & _ & ?)%HD. by exists n. }
  eapply returns_mono; [by eapply (drain_timers_spec timer_complete budget s2 l1 cl cs ai ai' fuel true); done || lia|].
  intros [] s3 [Hran Hh3]. pose proof Hran as ((new & Hq3 & _) & Hk3 & Hr3 & Hl3).
  unfold timer_rest in Hr3. simpl in Hr3. injection Hr3 as Esq3 Ecq3 Edr3 _ _ _. split_and!.
  - eapply (timers_ran_accounts _ _ _ _ _ (set_dr empty_queue s2)); [|exact Hran].
    unfold accounts. simpl. rewrite Ee. split_and!; [done..|lia|lia|]. intros p Hp. eapply spares_ioring; [done|by apply Hi|lia].
  - by rewrite Ecq3.
  - by rewrite Esq3.
  - unfold commands. rewrite Edr3. split_and!; [by apply qrep_nil|constructor|done].
  - eapply same_commands_trans; [by apply spares_same_commands|by apply keeps_nil_same_commands].
  - exists ps, (new ++ l1). split; [done|]. split; [rewrite Hl3; simpl; by rewrite Hl1, <- app_assoc|].
    case_decide; [by destruct Hps|]. destruct Hps as [-> ->]. split; [done|]. by exists new.
Qed.

(** The results of the call that end the program. *)
Definition refused (rc errno : Z) : Prop := rc = -1 /\ errno <> EINTR /\ errno <> ETIME.
#[local] Instance refused_dec rc errno : Decision (refused rc errno).
Proof. apply _. Defined.

Lemma enter_refused rc errno : rc = -1 /\ 0 < errno \/ 0 <= rc ->
  ((__io_uring_enter rc errno <? 0) && negb (__io_uring_enter rc errno =? - EINTR) &&
    negb (__io_uring_enter rc errno =? - ETIME)) = bool_decide (refused rc errno).
Proof.
  intros Hrc. unfold __io_uring_enter, refused. destruct Hrc as [[-> He]|Hrc].
  - rewrite decide_True by done. rewrite (proj2 (Z.ltb_lt _ _)) by lia. cbn [andb].
    destruct (Z.eqb_spec (- errno) (- EINTR)), (Z.eqb_spec (- errno) (- ETIME)); symmetry; cbn [negb andb];
      first [apply bool_decide_eq_true|apply bool_decide_eq_false]; lia.
  - rewrite decide_False by lia. rewrite (proj2 (Z.ltb_ge rc 0)) by done. symmetry. apply bool_decide_eq_false. lia.
Qed.

(** What [drain] does, on every outcome of the call. *)
Lemma drain_accounts s l ks kc es td posted A O cl cs ai ai' fuel q rc errno :
  queued (objs s) (__io_pending_ s) l -> sq_rep ks (__sq_ s) es -> cq_rep kc (__cq_ s) td -> accounts s es O ->
  commands s cl cs ai -> fits ai -> settle cs ai = Some ai' ->
  Z.of_nat (length ((td ++ posted) ++ concat A)) <= 2 ^ kc -> well_ended ((td ++ posted) ++ concat A) ->
  (forall e, e ∈ (td ++ posted) ++ concat A -> cqe_user_data e ∈ O) ->
  (rc = -1 /\ 0 < errno \/ 0 <= rc) ->
  (length ((td ++ posted) ++ concat A) + length l + budget (client s) + length cl < fuel)%nat ->
  if decide (refused rc errno) then
    drain client_submit client_complete timer_complete kernel fuel q posted rc errno A s = Fault Terminate
  else exists j, let dn := (td ++ posted) ++ concat (take j A) in
    if decide (length (ended dn) = length O) then
      returns (drain client_submit client_complete timer_complete kernel fuel q posted rc errno A) s (fun _ s1 =>
        outstanding O (ended dn) = [] /\ cq_rep kc (__cq_ s1) [] /\ commands s1 [] [] ai /\ same_commands (objs s) (objs s1) /\
        exists ps l1, queued (objs s1) (__io_pending_ s1) l1 /\
        log s1 = log s ++ stop_log ps cs ++ ((fun e => Completed (cqe_user_data e) e) <$> dn) /\
        if decide (room s ks es O) then l `sublist_of` ps else ps = [] /\ l `suffix_of` l1)
    else drain client_submit client_complete timer_complete kernel fuel q posted rc errno A s = Fault AssertFailed.
Proof.
  intros Hq Hsq Hcq Ha Hcom Hfit Hs Hkc Hend Hin Hrc Hf.
  destruct (proj1 (returns_Done _ _ _) (stop_submit_spec s l ks es O cl cs ai ai' fuel Hq Hsq Ha Hcom Hfit Hs
    ltac:(lia))) as ([] & s1 & E1 & Ha1 & Ecq & _ & Hcom1 & Hsame1 & ps & l1 & Hq1 & Hl1 & Hps).
  pose proof Ha1 as (Hn1 & Ht1 & HO1 & Hb1 & Hi1).
  set (s2 := set_cq (kernel posted (__cq_ s1)) (set_sq q s1)).
  destruct (kernel_law kc (__cq_ s1) td posted) as [Hcq2 _]; [by rewrite Ecq|rewrite !length_app in *; lia|].
  destruct (proj1 (returns_Done _ _ _) (cq_complete_spec client_submit client_complete is_cancel budget kernel kernel_law
    s2 l1 kc (td ++ posted) A fuel Hq1 Hcq2 Hkc Hend ltac:(by intros e He; apply Hi1, Hin) ltac:(lia)))
    as (n & s3 & E3 & j & -> & Hcq3 & Hl3 & (new & Hq3 & _) & Hk3 & Hr3).
  unfold cq_rest in Hr3. injection Hr3 as Eh3 _ Ed3 Et _ _. simpl in Et, Eh3, Ed3.
  pose proof (enter_refused rc errno Hrc) as Eref.
  assert (drain client_submit client_complete timer_complete kernel fuel q posted rc errno A s =
    (if bool_decide (refused rc errno) then throw Terminate
     else __m ← cq_M_complete client_complete kernel fuel A; s ← get; assert (__n_total_submit_ s =? __m)) s2) as Ed0.
  { unfold drain. rewrite (run_bind _ _ _ _ _ E1), (run_bind _ _ _ _ s2 eq_refl). cbv zeta. by rewrite Eref. }
  destruct (decide (refused rc errno)) as [Href|Href]; [by rewrite Ed0, (bool_decide_true _ Href)|]. rewrite (bool_decide_false _ Href) in Ed0.
  exists j. intros dn.
  assert (drain client_submit client_complete timer_complete kernel fuel q posted rc errno A s =
    assert (Z.of_nat (length O) =? Z.of_nat (length (finals dn))) s3) as Ed.
  { rewrite Ed0, (run_bind _ _ _ _ _ E3), (run_bind _ _ _ _ _ eq_refl). by rewrite Et, Ht1. }
  assert (exists dn', (td ++ posted) ++ concat A = dn ++ dn') as [dn' Edn].
  { exists (concat (drop j A)). subst dn. by rewrite <- (take_drop j A) at 1; rewrite concat_app, !app_assoc. }
  assert (forall x, x ∈ ended dn -> exists n, is_ioring (objs s2) x n) as Htasks.
  { intros x (e & -> & He)%ended_incl%list_elem_of_fmap. exists 1. apply Hi1, Hin. rewrite Edn.
    apply elem_of_app. by left. }
  assert (length (ended dn) = length (finals dn)) as El by apply length_fmap.
  destruct (decide (length (ended dn) = length O)) as [Hd|Hd]; [unfold returns|]; rewrite Ed.
  - rewrite (proj2 (Z.eqb_eq _ _)) by lia. simpl. split_and!; [|done|..].
    + rewrite Edn in Hend, Hin. apply nil_length_inv.
      pose proof (outstanding_length O (ended dn) HO1 (ended_NoDup _ (well_ended_prefix _ _ Hend))) as Hlen.
      rewrite Hlen in Hd; [lia|]. intros p (e & -> & He)%ended_incl%list_elem_of_fmap. apply Hin, elem_of_app. by left.
    + by eapply (commands_keep (ended dn) s2).
    + eapply same_commands_trans; [exact Hsame1|]. by eapply (keeps_same_commands (ended dn) (objs s2)).
    + exists ps, (new ++ l1). split; [done|]. split; [rewrite Hl3; simpl; by rewrite Hl1, <- app_assoc|].
      case_decide; [done|]. destruct Hps as [-> ?]. split; [done|]. by apply suffix_app_r.
  - rewrite (proj2 (Z.eqb_neq _ _)) by lia. done.
Qed.

(** C31: the end of a run, when no cancellation is among the queued operations and
    the functions of the tasks return.  Every queued task and every timer with a
    pending command is told to stop, if the rings have room for one more operation
    (the tasks stay in the queue if not).  If the call is then refused, for another
    reason than a signal or the time, the program ends.  Else the completions that are
    there when the kernel returns, or arrive while they are consumed, are delivered
    in order.  The run ends when they are the last ones of all operations that
    were with the kernel, and then nothing is with it any more; otherwise, as when
    a signal has interrupted the wait or some completions were not the last of their
    operations, the final assertion fails. *)
Theorem shutdown_needs_all s l ks kc es td posted A O cl cs ai ai' fuel q rc errno :
  queued (objs s) (__io_pending_ s) l -> sq_rep ks (__sq_ s) es -> cq_rep kc (__cq_ s) td -> accounts s es O ->
  commands s cl cs ai -> fits ai -> settle cs ai = Some ai' ->
  Z.of_nat (length ((td ++ posted) ++ concat A)) <= 2 ^ kc -> well_ended ((td ++ posted) ++ concat A) ->
  (forall e, e ∈ (td ++ posted) ++ concat A -> cqe_user_data e ∈ O) ->
  (rc = -1 /\ 0 < errno \/ 0 <= rc) ->
  (length ((td ++ posted) ++ concat A) + length l + budget (client s) + length cl < fuel)%nat ->
  if decide (refused rc errno) then
    drain client_submit client_complete timer_complete kernel fuel q posted rc errno A s = Fault Terminate
  else exists j, let dn := (td ++ posted) ++ concat (take j A) in
    if decide (length (ended dn) = length O) then
      returns (drain client_submit client_complete timer_complete kernel fuel q posted rc errno A) s (fun _ s1 =>
        outstanding O (ended dn) = [] /\ cq_rep kc (__cq_ s1) [] /\ commands s1 [] [] ai /\
        exists ps l1, queued (objs s1) (__io_pending_ s1) l1 /\
        log s1 = log s ++ stop_log ps cs ++ ((fun e => Completed (cqe_user_data e) e) <$> dn) /\
        if decide (room s ks es O) then l `sublist_of` ps else ps = [] /\ l `suffix_of` l1)
    else drain client_submit client_complete timer_complete kernel fuel q posted rc errno A s = Fault AssertFailed.
Proof.
  intros Hq Hsq Hcq Ha Hcom Hfit Hs Hkc Hend Hin Hrc Hf.
  pose proof (drain_accounts s l ks kc es td posted A O cl cs ai ai' fuel q rc errno
    Hq Hsq Hcq Ha Hcom Hfit Hs Hkc Hend Hin Hrc Hf) as H.
  destruct (decide (refused rc errno)); [exact H|]. destruct H as [j Hj]. exists j.
  intros dn. fold dn in Hj. cbv zeta in Hj.
  destruct (decide (length (ended dn) = length O)); [|exact Hj]. eapply returns_mono; [exact Hj|].
  intros [] s1 (? & ? & ? & _ & ?). by split_and!.
Qed.
End specs.

(** ** Two operations are with the kernel

    The multishot operation 192 has posted one completion that is not its last,
    256 its only one: that is as many completions as the kernel is asked to
    wait for. *)
Module shutdown_example.
Import ring_example scheduler_example.
#[local] Existing Instance ex_timer_laws.

Lemma shutdown_needs_all_witness :
  returns (drain (ex_submit false) ex_complete ex_timer ex_kernel 20 ring_sq [c3] 1 0 []) busy (fun _ s1 =>
    cq_rep 2 (__cq_ s1) [] /\ outstanding [192; 256] [256; 192] = []) /\
  drain (ex_submit false) ex_complete ex_timer ex_kernel 20 ring_sq [] (- 1) 9 [] busy = Fault Terminate /\
  drain (ex_submit false) ex_complete ex_timer ex_kernel 20 ring_sq [] (- 1) EINTR [] busy = Fault AssertFailed.
Proof.
  assert (forall e, e ∈ [c1; c2; c3] -> cqe_user_data e ∈ [192; 256]) as Hin.
  { intros e He. apply (bool_decide_unpack _).
    repeat (apply elem_of_cons in He as [->|He]; [by vm_compute|]). by apply elem_of_nil in He. }
  split_and!.
  - destruct (shutdown_needs_all (ex_submit false) ex_complete ex_timer ex_kernel _ (fun c => c) ex_kernel_law
      (fun p => eq_refl) busy [512; 64; 128] 2 2 [entry 192] [c1; c2] [c3] [] [192; 256] [1024; 1088; 1152] pending idle
      settled 20 ring_sq 1 0) as [j H];
      [apply busy_queued|apply start_sq|apply start_cq|apply busy_accounts|apply busy_commands|apply idle_fits
      |apply settle_pending|simpl; lia| |exact Hin|lia|simpl; lia|].
    + split; [done|]. do 2 (split; [intros _; apply (bool_decide_unpack _); by vm_compute|]). done.
    + cbv zeta in H. rewrite take_nil, decide_True in H by (vm_compute; reflexivity).
      eapply returns_mono; [exact H|]. intros [] s1 (_ & Hc & _). split; [exact Hc|vm_compute; reflexivity].
  - apply (shutdown_needs_all (ex_submit false) ex_complete ex_timer ex_kernel _ (fun c => c) ex_kernel_law
      (fun p => eq_refl) busy [512; 64; 128] 2 2 [entry 192] [c1; c2] [] [] [192; 256] [1024; 1088; 1152] pending idle
      settled 20 ring_sq (- 1) 9);
      [apply busy_queued|apply start_sq|apply start_cq|apply busy_accounts|apply busy_commands|apply idle_fits
      |apply settle_pending|simpl; lia| |intros e He; apply Hin; set_solver|by left; auto|simpl; lia].
    split; [done|]. split; [intros _; apply (bool_decide_unpack _); by vm_compute|]. done.
  - destruct (shutdown_needs_all (ex_submit false) ex_complete ex_timer ex_kernel _ (fun c => c) ex_kernel_law
      (fun p => eq_refl) busy [512; 64; 128] 2 2 [entry 192] [c1; c2] [] [] [192; 256] [1024; 1088; 1152] pending idle
      settled 20 ring_sq (- 1) EINTR) as [j H];
      [apply busy_queued|apply start_sq|apply start_cq|apply busy_accounts|apply busy_commands|apply idle_fits
      |apply settle_pending|simpl; lia| |intros e He; apply Hin; set_solver|by left; auto|simpl; lia|].
    + split; [done|]. split; [intros _; apply (bool_decide_unpack _); by vm_compute|]. done.
    + cbv zeta in H. rewrite take_nil, decide_False in H by (vm_compute; lia). exact H.
Defined.
End shutdown_example.
End shutdown.
