(* ===== verification/Wakeup.v ===== *)
(** * [__scheduler.hpp]: submitting from other threads, sleeping and shutting down

    Any number of threads hand requests to the thread that runs a scheduler:
    they push on queues of their own that the scheduler empties, and wake it if
    it sleeps in the kernel.  Module [wakeup] is a machine whose steps are the
    single accesses to the shared members of [__scheduler]: [__state_],
    [__n_submit_in_flight_], [__mut_] and the remote queues.  It models
    [_M_submit] from another thread, [_M_notify], [_M_request_stop],
    [_M_accept_remote_request], [_M_io_uring_enter] and [_M_run_until_stop].

    A push on a remote queue and emptying one are single steps, which is what
    module [atomic_intrusive_queue] proves of them.  What the scheduler does with
    its own data is an interface, [LocalScheduler]; that it keeps what it is given
    is [LocalLaws].  The write to the event descriptor succeeds. *)

From S2P Require Import Prelude.

Module wakeup.

(** ** Data *)

Inductive _Sg := _S_run | _S_sleep | _S_notify.
#[export] Instance Sg_eq_dec : EqDecision _Sg.
Proof. solve_decision. Defined.

Definition __no_new_submit_ : Z := -1.

(** Who holds [__mut_]. *)
Inductive owner := Scheduler | Caller (o : nat).

(** [io_remote] and [dr_remote] are the registered queues, the last request
    pushed first; [__eventfd_] is its counter. *)
Record shared := mkShared {
  __state_ : _Sg;
  __n_submit_in_flight_ : Z;
  __mut_ : option owner;
  io_remote : list (list ptr);
  dr_remote : list (list ptr);
  __eventfd_ : Z;
  stop_requested : bool
}.

Definition set_state v s := mkShared v (__n_submit_in_flight_ s) (__mut_ s) (io_remote s) (dr_remote s) (__eventfd_ s) (stop_requested s).
Definition set_in_flight v s := mkShared (__state_ s) v (__mut_ s) (io_remote s) (dr_remote s) (__eventfd_ s) (stop_requested s).
Definition set_mut v s := mkShared (__state_ s) (__n_submit_in_flight_ s) v (io_remote s) (dr_remote s) (__eventfd_ s) (stop_requested s).
Definition set_eventfd v s := mkShared (__state_ s) (__n_submit_in_flight_ s) (__mut_ s) (io_remote s) (dr_remote s) v (stop_requested s).
Definition set_stop s := mkShared (__state_ s) (__n_submit_in_flight_ s) (__mut_ s) (io_remote s) (dr_remote s) (__eventfd_ s) true.

(** A registered queue: one of [__io_remote_] or of [__dr_remote_]. *)
Inductive qid := Io (i : nat) | Dr (i : nat).
#[export] Instance qid_eq_dec : EqDecision qid.
Proof. solve_decision. Defined.
Definition queue_of (q : qid) (s : shared) : option (list ptr) :=
  match q with Io i => io_remote s !! i | Dr i => dr_remote s !! i end.
Definition set_queue (q : qid) (l : list ptr) (s : shared) : shared :=
  match q with
  | Io i => mkShared (__state_ s) (__n_submit_in_flight_ s) (__mut_ s) (<[i := l]> (io_remote s)) (dr_remote s) (__eventfd_ s) (stop_requested s)
  | Dr i => mkShared (__state_ s) (__n_submit_in_flight_ s) (__mut_ s) (io_remote s) (<[i := l]> (dr_remote s)) (__eventfd_ s) (stop_requested s)
  end.

(** [compare_exchange_weak]: success and the value that was found. *)
Definition cas_in_flight (spurious : bool) (__exp __new : Z) (s : shared) : bool * Z * shared :=
  if bool_decide (__n_submit_in_flight_ s = __exp) && negb spurious
  then (true, __exp, set_in_flight __new s)
  else (false, __n_submit_in_flight_ s, s).

(** ** Calls from other threads

    [Try] is at the loop condition of [_M_submit], with the local [__n]. *)
Inductive pc :=
  | Try (q : qid) (__op : ptr) (__n : Z)
  | Push (q : qid) (__op : ptr)
  | Leave (q : qid) (__op : ptr)
  | ManualStop (__op : ptr)
  | RequestStop
  | Exchange (__op : option (qid * ptr))
  | Lock
  | Unlock
  | Write
  | Ret (woke : bool).

Definition call_step (spurious : bool) (o : nat) (c : pc) (s : shared) : option (pc * shared) :=
  match c with
  | Try q __op __n =>
      if decide (__n = __no_new_submit_) then Some (ManualStop __op, s)
      else
        let '(ok, v, s') := cas_in_flight spurious __n (__n + 1) s in
        Some (if (ok : bool) then Push q __op else Try q __op v, s')
  | Push q __op => l ← queue_of q s; Some (Leave q __op, set_queue q (__op :: l) s)
  | Leave q __op =>
      Some (Exchange (Some (q, __op)), set_in_flight (__n_submit_in_flight_ s - 1) s)
  | ManualStop _ => Some (Ret false, s)
  | RequestStop => Some (Exchange None, set_stop s)
  | Exchange _ =>
      Some (if decide (__state_ s = _S_sleep) then Lock else Ret false, set_state _S_notify s)
  | Lock => if __mut_ s is Some _ then None else Some (Unlock, set_mut (Some (Caller o)) s)
  | Unlock => Some (Write, set_mut None s)
  | Write => Some (Ret true, set_eventfd (__eventfd_ s + 1) s)
  | Ret _ => None
  end.

(** ** The scheduler's thread *)

(** Its own data: the pending queues and what it does with them. *)
Class LocalScheduler (L : Type) := {
  append_io : list ptr -> L -> L -> Prop;
  append_dr : list ptr -> L -> L -> Prop;
  n_total_submit : L -> Z;
  run_some : bool -> L -> L -> Prop;
  after_enter : L -> L -> Prop;
  finish : L -> L -> Prop
}.

(** What it keeps of the requests it is handed: [given d] are all it was given up
    to [d], in whatever state they are. *)
Class LocalLaws (L : Type) `{LocalScheduler L} := {
  given : L -> list ptr;
  append_io_given l d d' : append_io l d d' -> given d' ≡ₚ given d ++ l;
  append_dr_given l d d' : append_dr l d d' -> given d' ≡ₚ given d ++ l;
  run_some_given b d d' : run_some b d d' -> given d' ≡ₚ given d;
  after_enter_given d d' : after_enter d d' -> given d' ≡ₚ given d;
  finish_given d d' : finish d d' -> given d' ≡ₚ given d
}.

(** Where in [_M_run_until_stop]; [final] tells the visit to the remote queues
    after the loop from the others, [acc] is the queue the fold builds. *)
Inductive spc :=
  | AcceptIo (final : bool) (i : nat) (acc : list ptr)
  | AcceptDr (final : bool) (i : nat) (acc : list ptr)
  | RunSome
  | TestDone
  | EnterLock
  | EnterCas
  | SkipUnlock
  | EnterUnlock
  | InKernel
  | StoreRun
  | Close (__n : Z)
  | Finish
  | Done.

Section machine.
Context `{LocalScheduler L}.

Inductive sched_step : bool -> spc -> L -> shared -> spc -> L -> shared -> Prop :=
  | visit_io b final i acc l d s : io_remote s !! i = Some l ->
      sched_step b (AcceptIo final i acc) d s
        (AcceptIo final (S i) (acc ++ reverse l)) d (set_queue (Io i) [] s)
  | append_io_pending b final i acc d d' s : io_remote s !! i = None -> append_io acc d d' ->
      sched_step b (AcceptIo final i acc) d s (AcceptDr final 0 []) d' s
  | visit_dr b final i acc l d s : dr_remote s !! i = Some l ->
      sched_step b (AcceptDr final i acc) d s
        (AcceptDr final (S i) (acc ++ reverse l)) d (set_queue (Dr i) [] s)
  | append_dr_pending b (final : bool) i acc d d' s : dr_remote s !! i = None -> append_dr acc d d' ->
      sched_step b (AcceptDr final i acc) d s (if final then Finish else RunSome) d' s
  | run_some_step b d d' s : run_some (stop_requested s) d d' ->
      sched_step b RunSome d s TestDone d' s
  | test_done b d s :
      sched_step b TestDone d s
        (if (n_total_submit d =? 0) || ((n_total_submit d =? 1) && stop_requested s)
         then Close 0 else EnterLock) d s
  | enter_lock b d s : __mut_ s = None ->
      sched_step b EnterLock d s EnterCas d (set_mut (Some Scheduler) s)
  | enter_cas b d s : __state_ s = _S_run ->
      sched_step b EnterCas d s EnterUnlock d (set_state _S_sleep s)
  | skip_cas b d s : __state_ s <> _S_run -> sched_step b EnterCas d s SkipUnlock d s
  | skip_unlock b d s : sched_step b SkipUnlock d s (AcceptIo false 0 []) d (set_mut None s)
  | enter_unlock b d s : sched_step b EnterUnlock d s InKernel d (set_mut None s)
  | kernel_returns b d s : sched_step b InKernel d s StoreRun d s
  | store_run b d d' s : after_enter d d' ->
      sched_step b StoreRun d s (AcceptIo false 0 []) d' (set_state _S_run s)
  | close spurious n ok v d s s' : cas_in_flight spurious n __no_new_submit_ s = (ok, v, s') ->
      sched_step spurious (Close n) d s
        (if (ok : bool) || bool_decide (v = __no_new_submit_) then AcceptIo true 0 [] else Close 0) d s'
  | finish_step b d d' s : finish d d' -> sched_step b Finish d s Done d' s.

(** ** The system

    Ghosts: [pushed] are the requests pushed on remote queues; [wakes] counts the
    writes to the event descriptor since the scheduler last went to sleep,
    [entries] how often it has. *)
Record sys := mkSys {
  sh : shared;
  calls : gmap nat pc;
  spos : spc;
  local : L;
  pushed : list ptr;
  wakes : nat;
  entries : nat
}.

Definition pushes (c : pc) : list ptr := match c with Push _ x => [x] | _ => [] end.
Definition writes (c : pc) : nat := match c with Write => 1%nat | _ => 0%nat end.
Definition sleeps (p p' : spc) : bool :=
  match p, p' with EnterCas, EnterUnlock => true | _, _ => false end.

Inductive step : sys -> sys -> Prop :=
  | step_submit s o q x : calls s !! o = None -> is_Some (queue_of q (sh s)) ->
      step s (mkSys (sh s) (<[o := Try q x 0]> (calls s)) (spos s) (local s) (pushed s)
        (wakes s) (entries s))
  | step_request s o : calls s !! o = None ->
      step s (mkSys (sh s) (<[o := RequestStop]> (calls s)) (spos s) (local s) (pushed s)
        (wakes s) (entries s))
  | step_call s o spurious c c' h : calls s !! o = Some c -> call_step spurious o c (sh s) = Some (c', h) ->
      step s (mkSys h (<[o := c']> (calls s)) (spos s) (local s) (pushed s ++ pushes c)
        (wakes s + writes c)%nat (entries s))
  | step_sched s b p d h : sched_step b (spos s) (local s) (sh s) p d h ->
      step s (mkSys h (calls s) p d (pushed s)
        (if sleeps (spos s) p then 0%nat else wakes s)
        (if sleeps (spos s) p then S (entries s) else entries s)).

(** [n] queues of each kind are registered; [_M_run_until_stop] is about to start. *)
Definition init (n_io n_dr : nat) (d : L) : sys :=
  mkSys (mkShared _S_run 0 None (replicate n_io []) (replicate n_dr []) 0 false) ∅
    (AcceptIo false 0 []) d [] 0 0.
Definition reachable (s : sys) : Prop := exists n_io n_dr d, rtc step (init n_io n_dr d) s.

(** ** Who is where *)

(** The call has entered the section that [__n_submit_in_flight_] counts. *)
Definition inside (c : pc) : bool := match c with Push _ _ | Leave _ _ => true | _ => false end.
(** The call has pushed [x] on [q] and not yet exchanged the state. *)
Definition unannounced (q : qid) (x : ptr) (c : pc) : Prop :=
  c = Leave q x \/ c = Exchange (Some (q, x)).
(** The call found the scheduler asleep and has not written yet. *)
Definition waking (c : pc) : bool := match c with Lock | Unlock | Write => true | _ => false end.
(** The scheduler has left its loop for good. *)
Definition closed (p : spc) : bool :=
  match p with AcceptIo true _ _ | AcceptDr true _ _ | Finish | Done => true | _ => false end.
(** The scheduler will empty [q] before it can fall asleep. *)
Definition will_visit (p : spc) (q : qid) : Prop :=
  match p, q with
  | AcceptIo _ i _, Io j => (i <= j)%nat
  | AcceptIo _ _ _, Dr _ => True
  | AcceptDr _ i _, Dr j => (i <= j)%nat
  | StoreRun, _ => True
  | _, _ => False
  end.
Definition asleep (p : spc) : bool := match p with EnterUnlock | InKernel => true | _ => false end.

(** ** The section of submitting calls *)

Definition flight_inv (s : sys) : Prop :=
  (forall n, spos s = Close n -> n = 0) /\
  exists F : gset nat, (forall o, o ∈ F <-> exists c, calls s !! o = Some c /\ inside c = true) /\
    if closed (spos s) then F = ∅ /\ __n_submit_in_flight_ (sh s) = -1
    else __n_submit_in_flight_ (sh s) = Z.of_nat (size F).

(** What one call changes of the section. *)
Lemma call_step_flight b o c s c' s' : call_step b o c s = Some (c', s') ->
  __n_submit_in_flight_ s' = __n_submit_in_flight_ s + (if inside c' then 1 else 0) - (if inside c then 1 else 0) /\
  (inside c = false -> inside c' = true -> __n_submit_in_flight_ s <> -1).
Proof.
  destruct c; simpl; intros E.
  - case_decide as Hn; [simplify_eq; simpl; split; [lia|done]|]. unfold cas_in_flight in E.
    destruct (bool_decide _ && _) eqn:Eb; simplify_eq; simpl; [|split; [lia|done]].
    apply andb_true_iff in Eb as [->%bool_decide_eq_true _]. split; [lia|done].
  - destruct (queue_of q s) as [l|] eqn:Eq; simpl in E; [|done]. simplify_eq.
    split; [destruct q; simpl; lia|done].
  - simplify_eq. simpl. split; [lia|done].
  - simplify_eq. simpl. split; [lia|done].
  - simplify_eq. simpl. split; [lia|done].
  - simplify_eq. case_decide; simpl; (split; [lia|done]).
  - destruct (__mut_ s); simplify_eq. simpl. split; [lia|done].
  - simplify_eq. simpl. split; [lia|done].
  - simplify_eq. simpl. split; [lia|done].
  - done.
Qed.

(** What one step of the scheduler changes of it. *)
Lemma sched_step_flight b p d s p' d' s' : sched_step b p d s p' d' s' ->
  (forall n, p = Close n -> n = 0) -> -1 <= __n_submit_in_flight_ s ->
  (forall n, p' = Close n -> n = 0) /\
  ((closed p' = closed p /\ __n_submit_in_flight_ s' = __n_submit_in_flight_ s) \/
   (closed p = false /\ closed p' = true /\ (__n_submit_in_flight_ s = 0 \/ __n_submit_in_flight_ s = -1) /\
    __n_submit_in_flight_ s' = -1)).
Proof.
  intros Hs Hc Hf. destruct Hs as [| | |b final| |b d s| | | | | | | |b n ok v d s s' Ecas|]; simpl;
    try (split; [by intros|by left]); try (by destruct final; (split; [by intros|by left])).
  - destruct (_ || _); (split; [intros ? ?; simpl in *; congruence|by left]).
  - rewrite (Hc n) in Ecas by done. unfold cas_in_flight in Ecas.
    destruct (bool_decide _ && _) eqn:Eb; simplify_eq; simpl.
    + apply andb_true_iff in Eb as [E%bool_decide_eq_true _]. split; [by intros|]. right. auto.
    + destruct (bool_decide_reflect (__n_submit_in_flight_ s' = __no_new_submit_)) as [E|E]; simpl; [|split; [intros ? [= <-]; done|by left]].
      split; [by intros|]. right. rewrite E. auto.
Qed.

Definition section_is (m : gmap nat pc) (F : gset nat) : Prop :=
  forall o, o ∈ F <-> exists c, m !! o = Some c /\ inside c = true.

(** One call moves: the section with and without it. *)
Lemma section_move m F o c' : section_is m F ->
  section_is (<[o := c']> m) (if inside c' then {[o]} ∪ F else F ∖ {[o]}).
Proof.
  intros HF x. destruct (decide (x = o)) as [->|Hne].
  - setoid_rewrite lookup_insert_eq. destruct (inside c') eqn:E; [set_solver|].
    rewrite elem_of_difference, elem_of_singleton. naive_solver congruence.
  - setoid_rewrite lookup_insert_ne; [|done]. pose proof (HF x) as Hx. destruct (inside c'); set_solver.
Qed.

Lemma section_size m F o c c' : section_is m F -> m !! o = c ->
  Z.of_nat (size (if inside c' then {[o]} ∪ F else F ∖ {[o]})) =
    Z.of_nat (size F) + (if inside c' then 1 else 0) - (if from_option inside false c then 1 else 0).
Proof.
  intros HF <-. assert (o ∈ F <-> from_option inside false (m !! o) = true) as Ho.
  { split; [intros (c & -> & ?)%HF; done|]. intros Hc. apply HF. destruct (m !! o); [eauto|done]. }
  destruct (from_option inside false (m !! o)), (inside c').
  - rewrite (subseteq_union_1_L {[o]} F) by set_solver. lia.
  - rewrite size_difference by set_solver. rewrite size_singleton.
    assert (size F <> 0)%nat by (intros E%size_empty_inv; set_solver). lia.
  - rewrite size_union, size_singleton by set_solver. lia.
  - rewrite difference_disjoint_L by set_solver. lia.
Qed.

Lemma flight_init n_io n_dr d : flight_inv (init n_io n_dr d).
Proof.
  split; [done|]. exists ∅. split; [|by rewrite size_empty]. intros o. simpl.
  setoid_rewrite lookup_empty. set_solver.
Qed.

Lemma flight_calls s m h pu w e o c c' :
  flight_inv s -> calls s !! o = c -> m = <[o := c']> (calls s) ->
  __n_submit_in_flight_ h = __n_submit_in_flight_ (sh s) + (if inside c' then 1 else 0)
    - (if from_option inside false c then 1 else 0) ->
  (from_option inside false c = false -> inside c' = true -> __n_submit_in_flight_ (sh s) <> -1) ->
  flight_inv (mkSys h m (spos s) (local s) pu w e).
Proof.
  intros (Hcl & F & HF & HP) Ho -> Hn Henter. split; [done|]. simpl.
  exists (if inside c' then {[o]} ∪ F else F ∖ {[o]}). split; [by apply section_move|].
  destruct (closed (spos s)).
  - destruct HP as [-> E]. assert (from_option inside false c = false) as Hc.
    { destruct (from_option inside false c) eqn:Hc; [|done]. exfalso.
      destruct c as [c|]; [|done]. apply (not_elem_of_empty (C := gset nat) o). apply HF. eauto. }
    rewrite Hc in *. destruct (inside c'); [by destruct Henter|]. split; [set_solver|lia].
  - by rewrite (section_size _ _ _ _ _ HF Ho), Hn, HP.
Qed.

Lemma flight_step s s' : flight_inv s -> step s s' -> flight_inv s'.
Proof.
  intros Hi Hs. destruct Hs as [s o q x Ho _|s o Ho|s o b c c' h Ho E|s b p d h E].
  - eapply flight_calls; try done. simpl. lia.
  - eapply flight_calls; try done. simpl. lia.
  - apply call_step_flight in E as [En Hen]. eapply flight_calls; done.
  - destruct Hi as (Hcl & F & HF & HP).
    apply sched_step_flight in E as [Hcl' Hor]; [|done|destruct (closed (spos s)); lia].
    split; [done|]. simpl. destruct Hor as [[Ecl En]|(Ec & Ec' & Hz & En)].
    + exists F. rewrite Ecl, En. done.
    + rewrite Ec in HP. exists F. rewrite Ec'. split_and!; [done| |done].
      apply leibniz_equiv, size_empty_inv. lia.
Qed.

(** ** No request is lost or doubled *)

Definition waiting (h : shared) : list ptr := concat (io_remote h) ++ concat (dr_remote h).
(** The requests a visit has taken off the remote queues and not handed over yet. *)
Definition in_hand (p : spc) : list ptr :=
  match p with AcceptIo _ _ acc | AcceptDr _ _ acc => acc | _ => [] end.

Lemma concat_insert (ls : list (list ptr)) i l l' : ls !! i = Some l ->
  concat (<[i := l']> ls) ++ l ≡ₚ concat ls ++ l'.
Proof.
  revert i. induction ls as [|k ls IH]; intros [|i]; simpl; [done..| |].
  - intros [= ->]. rewrite <- !app_assoc. solve_Permutation.
  - intros Hi. rewrite <- !app_assoc. by rewrite (IH i Hi).
Qed.

Lemma waiting_set q l l' h : queue_of q h = Some l -> waiting (set_queue q l' h) ++ l ≡ₚ waiting h ++ l'.
Proof.
  unfold waiting. destruct q as [i|i]; simpl; intros Hq; pose proof (concat_insert _ _ _ l' Hq) as E.
  - transitivity ((concat (<[i := l']> (io_remote h)) ++ l) ++ concat (dr_remote h)); [solve_Permutation|].
    rewrite E. solve_Permutation.
  - rewrite <- !app_assoc. by rewrite E.
Qed.

(** Only a push changes a remote queue. *)
Lemma call_step_queues b o c h c' h' : call_step b o c h = Some (c', h') ->
  (exists q x l, c = Push q x /\ c' = Leave q x /\ queue_of q h = Some l /\ h' = set_queue q (x :: l) h) \/
  (pushes c = [] /\ io_remote h' = io_remote h /\ dr_remote h' = dr_remote h).
Proof.
  destruct c; simpl; intros E; try by (simplify_eq; right).
  - case_decide; [by simplify_eq; right|]. unfold cas_in_flight in E.
    destruct (_ && _); simplify_eq; by right.
  - destruct (queue_of q h) as [l|] eqn:Eq; simpl in E; [|done]. simplify_eq. left. by exists q, __op, l.
  - destruct (__mut_ h); simplify_eq. by right.
Qed.

(** Only the two visits of the scheduler do; what they take is handed over. *)
Lemma sched_step_conserves `{!LocalLaws L} b p d h p' d' h' : sched_step b p d h p' d' h' ->
  given d' ++ in_hand p' ++ waiting h' ≡ₚ given d ++ in_hand p ++ waiting h.
Proof.
  destruct 1 as [b final i acc l d s E|b final i acc d d' s _ E|b final i acc l d s E|b final i acc d d' s _ E
    |b d d' s E|b d s| | | | | | |b d d' s E|b n ok v d s s' E|b d d' s E]; try done; simpl.
  - pose proof (waiting_set (Io i) l [] s E) as Ew. rewrite app_nil_r in Ew. simpl in Ew. rewrite <- Ew, reverse_Permutation.
    solve_Permutation.
  - rewrite (append_io_given _ _ _ E). by rewrite <- app_assoc.
  - pose proof (waiting_set (Dr i) l [] s E) as Ew. rewrite app_nil_r in Ew. simpl in Ew. rewrite <- Ew, reverse_Permutation.
    solve_Permutation.
  - rewrite (append_dr_given _ _ _ E), <- app_assoc. by destruct final.
  - by rewrite (run_some_given _ _ _ E).
  - by destruct (_ || _).
  - by rewrite (after_enter_given _ _ E).
  - assert (waiting s' = waiting s) as -> by (unfold cas_in_flight in E; destruct (_ && _); by simplify_eq).
    by destruct (_ || _).
  - by rewrite (finish_given _ _ E).
Qed.

(** Every request pushed since [d0] is with the scheduler, in its hand or waits. *)
Definition conserve_inv `{!LocalLaws L} (d0 : L) (s : sys) : Prop :=
  given d0 ++ pushed s ≡ₚ given (local s) ++ in_hand (spos s) ++ waiting (sh s).

Lemma conserve_step `{!LocalLaws L} d0 s s' : conserve_inv d0 s -> step s s' -> conserve_inv d0 s'.
Proof.
  unfold conserve_inv. intros Hi Hs. destruct Hs as [| |s o b c c' h _ E|s b p d h E]; simpl; [done..| |].
  - rewrite app_assoc, Hi. apply call_step_queues in E as [(q & x & l & -> & _ & Hq & ->)|(-> & E1 & E2)].
    + simpl. pose proof (waiting_set _ _ (x :: l) _ Hq) as E. apply (Permutation_app_inv_r l). rewrite <- !app_assoc.
      rewrite E. simpl. solve_Permutation.
    + rewrite app_nil_r. unfold waiting. by rewrite E1, E2.
  - by rewrite Hi, (sched_step_conserves _ _ _ _ _ _ _ E).
Qed.

Lemma conserved `{!LocalLaws L} n_io n_dr d0 s : rtc step (init n_io n_dr d0) s -> conserve_inv d0 s.
Proof.
  intros Hr. eapply invariant_rtc; [apply conserve_step| |exact Hr]. unfold conserve_inv, waiting. simpl.
  assert (forall n, concat (replicate n (@nil ptr)) = []) as E by (induction n; done). by rewrite !E.
Qed.

(** ** What the last visit leaves *)

Lemma queue_of_set q q' l k h : queue_of q (set_queue q' l h) = Some k ->
  q = q' /\ k = l \/ q <> q' /\ queue_of q h = Some k.
Proof.
  destruct q as [i|i], q' as [j|j]; simpl; try by (intros; right).
  all: intros [(<- & <- & _)|[Hne ?]]%list_lookup_insert_Some; [by left|right; split; [congruence|done]].
Qed.

Lemma beyond (ls : list (list ptr)) i j l : ls !! i = None -> ls !! j = Some l -> (j < i)%nat.
Proof. intros ?%lookup_ge_None ?%lookup_lt_Some. lia. Qed.

Lemma queue_of_same q h h' : io_remote h' = io_remote h -> dr_remote h' = dr_remote h -> queue_of q h' = queue_of q h.
Proof. intros E1 E2. destruct q; simpl; congruence. Qed.

(** [q] has been emptied after the loop was left. *)
Definition visited (p : spc) (q : qid) : Prop :=
  match p, q with
  | AcceptIo true i _, Io j | AcceptDr true i _, Dr j => (j < i)%nat
  | AcceptDr true _ _, Io _ | Finish, _ | Done, _ => True
  | _, _ => False
  end.

Lemma visited_closed p q : visited p q -> closed p = true.
Proof. by destruct p as [[]| [] | | | | | | | | | | | ]. Qed.

Definition drained_inv (s : sys) : Prop := forall q l,
  visited (spos s) q -> queue_of q (sh s) = Some l -> l = [].

Lemma closed_outside s o c : flight_inv s -> closed (spos s) = true -> calls s !! o = Some c -> inside c = false.
Proof.
  intros (_ & F & HF & HP) Hc Ho. rewrite Hc in HP. destruct HP as [-> _].
  destruct (inside c) eqn:E; [|done]. exfalso. apply (not_elem_of_empty (C := gset nat) o), HF. eauto.
Qed.

Lemma sched_step_visited b p d h p' d' h' q l : sched_step b p d h p' d' h' ->
  visited p' q -> queue_of q h' = Some l -> l = [] \/ visited p q /\ queue_of q h = Some l.
Proof.
  intros Hs Hv Hq. destruct Hs as [b final i acc k d s Hi|b final i acc d d' s Hi Happ|b final i acc k d s Hi|b final i acc d d' s Hi Happ| |b d s| | | | | | | |b n ok v d s s' Ecas|]; simpl in *; try done; try by right.
  - apply (queue_of_set q (Io i)) in Hq as [[-> ->]|[Hne Hq]]; [by left|right]. split; [|done].
    destruct final, q; simpl in *; try done. assert (i0 <> i) by congruence. lia.
  - right. split; [|done]. destruct final, q; simpl in *; try done; [by eapply beyond|lia].
  - apply (queue_of_set q (Dr i)) in Hq as [[-> ->]|[Hne Hq]]; [by left|right]. split; [|done].
    destruct final, q; simpl in *; try done. assert (i0 <> i) by congruence. lia.
  - right. split; [|done]. destruct final, q; simpl in *; try done. by eapply beyond.
  - by destruct (_ || _).
  - destruct (_ || _); [|done]. by destruct q; simpl in Hv; [lia|].
Qed.

Lemma drained_step s s' : flight_inv s -> drained_inv s -> step s s' -> drained_inv s'.
Proof.
  intros Hf Hi Hs. destruct Hs as [s o q0 x0 _ _|s o _|s o b c c' h Ho E|s b p d h E]; intros q l Hv Hq; simpl in *; [by eapply Hi..| |].
  - apply call_step_queues in E as [(q' & x & k & -> & _)|(_ & E1 & E2)].
    + by pose proof (closed_outside _ _ _ Hf (visited_closed _ _ Hv) Ho).
    + rewrite (queue_of_same _ (sh s)) in Hq by done. by eapply Hi.
  - destruct (sched_step_visited _ _ _ _ _ _ _ _ _ E Hv Hq) as [->|[??]]; [done|by eapply Hi].
Qed.

(** ** Waking *)

Definition cover_inv (s : sys) : Prop := forall q l x, queue_of q (sh s) = Some l -> x ∈ l ->
  (exists o c, calls s !! o = Some c /\ unannounced q x c) \/ __state_ (sh s) = _S_notify \/
  will_visit (spos s) q.

Definition asleep_inv (s : sys) : Prop := asleep (spos s) = true ->
  __state_ (sh s) = _S_sleep \/
  __state_ (sh s) = _S_notify /\
    ((exists o c, calls s !! o = Some c /\ waking c = true) \/ (0 < wakes s)%nat).

(** The state only changes by an exchange of a call and by the scheduler. *)
Lemma call_step_state b o c h c' h' : call_step b o c h = Some (c', h') ->
  (exists m, c = Exchange m /\ __state_ h' = _S_notify /\ (__state_ h = _S_sleep -> c' = Lock)) \/
  ((forall m, c <> Exchange m) /\ __state_ h' = __state_ h /\
    (waking c = true -> waking c' = true \/ c = Write) /\
    (forall q x, unannounced q x c -> unannounced q x c')).
Proof.
  destruct c; simpl; intros E; try by (right; simplify_eq; split_and!; try done; intros ?? [?|?]).
  - right. case_decide; [by simplify_eq; split_and!; try done; intros ?? [?|?]|]. unfold cas_in_flight in E.
    destruct (_ && _); simplify_eq; split_and!; try done; intros ?? [?|?]; done.
  - right. destruct (queue_of q h); simpl in E; simplify_eq. split_and!; try done; [by destruct q|].
    by intros ?? [?|?].
  - right. simplify_eq. split_and!; try done. intros q' x [[= -> ->]|?]; [by right|done].
  - left. exists __op. simplify_eq. split_and!; [done..|]. intros ->. by rewrite decide_True.
  - right. destruct (__mut_ h); simplify_eq. split_and!; try done; [by left|]. by intros ?? [?|?].
  - right. simplify_eq. split_and!; try done; [by left|]. by intros ?? [?|?].
  - right. simplify_eq. split_and!; try done; [by right|]. by intros ?? [?|?].
Qed.

Lemma cover_init n_io n_dr d : cover_inv (init n_io n_dr d).
Proof. intros q l x _ _. right. right. destruct q; simpl; lia || done. Qed.

Lemma cover_calls s m h pu w e o c' :
  cover_inv s -> m = <[o := c']> (calls s) ->
  (forall q l x, queue_of q h = Some l -> x ∈ l -> (exists l, queue_of q (sh s) = Some l /\ x ∈ l) \/ unannounced q x c') ->
  (__state_ h = _S_notify \/ __state_ h = __state_ (sh s) /\
    forall q x c, calls s !! o = Some c -> unannounced q x c -> unannounced q x c') ->
  cover_inv (mkSys h m (spos s) (local s) pu w e).
Proof.
  intros Hi -> Hq Hst q l x Hl Hx. simpl in *. destruct Hst as [Hst|[Est Hun]]; [by right; left|].
  destruct (Hq q l x Hl Hx) as [(l' & Hl' & Hx')|Hc']; [|left; exists o, c'; by rewrite lookup_insert_eq].
  destruct (Hi q l' x Hl' Hx') as [(o2 & c & Ho & Hu)|[Hn|Hv]]; [|right; left; congruence|by right; right].
  left. destruct (decide (o2 = o)) as [->|Hne].
  - exists o, c'. rewrite lookup_insert_eq. eauto.
  - exists o2, c. rewrite lookup_insert_ne by done. done.
Qed.

Lemma sched_step_cover b p d h p' d' h' q l x : sched_step b p d h p' d' h' ->
  queue_of q h' = Some l -> x ∈ l ->
  exists k, queue_of q h = Some k /\ x ∈ k /\
    (__state_ h = _S_notify \/ will_visit p q -> __state_ h' = _S_notify \/ will_visit p' q).
Proof.
  intros Hs Hq Hx. destruct Hs as [b final i acc k d s Hi|b final i acc d d' s Hi Happ|b final i acc k d s Hi|b final i acc d d' s Hi Happ| |b d s| | | | | | | |b n ok v d s s' Ecas|].
  all: simpl in *; try (exists l; split_and!; [done..|]; simpl; tauto).
  - apply (queue_of_set q (Io i)) in Hq as [[-> ->]|[Hne Hq]]; [by apply elem_of_nil in Hx|].
    exists l. split_and!; [done..|]. intros [?|Hv]; [by left|right]. destruct q; simpl in *; [|done].
    assert (i0 <> i) by congruence. lia.
  - exists l. split_and!; [done..|]. intros [?|Hv]; [by left|right]. destruct q; simpl in *; [|lia].
    pose proof (beyond _ _ _ _ Hi Hq). lia.
  - apply (queue_of_set q (Dr i)) in Hq as [[-> ->]|[Hne Hq]]; [by apply elem_of_nil in Hx|].
    exists l. split_and!; [done..|]. intros [?|Hv]; [by left|right]. destruct q; simpl in *; [done|].
    assert (i0 <> i) by congruence. lia.
  - exists l. split_and!; [done..|]. intros [?|Hv]; [by left|]. destruct q; simpl in *; [done|].
    pose proof (beyond _ _ _ _ Hi Hq). lia.
  - exists l. split_and!; [done..|]. intros [E|[]]. congruence.
  - exists l. split_and!; [done..|]. intros _. right. destruct q; simpl; lia || done.
  - unfold cas_in_flight in Ecas. destruct (bool_decide _ && _); simplify_eq; simpl in *;
      (exists l; split_and!; [by destruct q|done|tauto]).
Qed.

Lemma cover_step s s' : cover_inv s -> step s s' -> cover_inv s'.
Proof.
  intros Hi Hs. destruct Hs as [s o q0 x0 Ho _|s o Ho|s o b c c' h Ho E|s b p d h E].
  - eapply cover_calls; [done..|eauto|]. right. split; [done|]. intros q x c. by rewrite Ho.
  - eapply cover_calls; [done..|eauto|]. right. split; [done|]. intros q x c. by rewrite Ho.
  - eapply cover_calls; [done..| |].
    + intros q l x Hl Hx. apply call_step_queues in E as [(q' & y & k & -> & -> & Hk & ->)|(_ & E1 & E2)].
      * apply queue_of_set in Hl as [[-> ->]|[Hne Hl]]; [|eauto].
        apply elem_of_cons in Hx as [->|Hx]; [right; by left|eauto].
      * rewrite (queue_of_same _ (sh s)) in Hl by done. eauto.
    + apply call_step_state in E as [(m & -> & Hn & _)|(_ & Hst & _ & Hu)]; [by left|right].
      split; [done|]. intros q x c0. rewrite Ho. intros [= <-]. apply Hu.
  - intros q l x Hl Hx. simpl in *.
    destruct (sched_step_cover _ _ _ _ _ _ _ _ _ _ E Hl Hx) as (k & Hk & Hxk & Hkeep).
    destruct (Hi q k x Hk Hxk) as [Hc|Hr]; [by left|right; auto].
Qed.

Lemma asleep_calls s m h pu w o c' :
  asleep_inv s -> m = <[o := c']> (calls s) ->
  ((exists op, calls s !! o = Some (Exchange op)) /\ __state_ h = _S_notify /\
     (__state_ (sh s) = _S_sleep -> c' = Lock)) \/
  (__state_ h = __state_ (sh s) /\
     forall c, calls s !! o = Some c -> waking c = true -> waking c' = true \/ (0 < w)%nat) ->
  (wakes s <= w)%nat -> asleep_inv (mkSys h m (spos s) (local s) pu w (entries s)).
Proof.
  intros Hi -> Hc Hw Ha. simpl in *. destruct Hc as [((op & Ho) & -> & Hl)|(-> & Hk)].
  - right. split; [done|]. destruct (Hi Ha) as [Hs|(_ & [(o2 & c & Ho2 & Hc2)|Hw2])]; [|left|right; lia].
    + left. exists o, Lock. rewrite lookup_insert_eq, Hl by done. done.
    + exists o2, c. rewrite lookup_insert_ne; [done|]. intros ->. by simplify_eq.
  - destruct (Hi Ha) as [Hs|(Hn & [(o2 & c & Ho2 & Hc2)|Hw2])]; [by left|right; split; [done|]..].
    + destruct (decide (o2 = o)) as [->|Hne].
      * destruct (Hk c Ho2 Hc2); [left; exists o, c'; by rewrite lookup_insert_eq|by right].
      * left. exists o2, c. by rewrite lookup_insert_ne.
    + right. lia.
Qed.

Lemma asleep_step s s' : asleep_inv s -> step s s' -> asleep_inv s'.
Proof.
  intros Hi Hs. destruct Hs as [s o q0 x0 Ho _|s o Ho|s o b c c' h Ho E|s b p d h E].
  - eapply asleep_calls; [done..| |done]. right. split; [done|]. intros c. by rewrite Ho.
  - eapply asleep_calls; [done..| |done]. right. split; [done|]. intros c. by rewrite Ho.
  - eapply asleep_calls; [done..| |lia].
    apply call_step_state in E as [(m & -> & Hn & Hl)|(_ & Hst & Hk & _)]; [left|right].
    + split; [by exists m|done].
    + split; [done|]. rewrite Ho. intros c0 [= <-] Hw. destruct (Hk Hw) as [?| ->]; [by left|right]. simpl. lia.
  - unfold asleep_inv in *. simpl. intros Ha. inversion E; subst; try done; simpl in *.
    + by destruct final.
    + by destruct (_ || _).
    + by left.
    + replace (spos s) with EnterUnlock in *. simpl in *. by apply Hi.
    + by destruct (_ || _).
Qed.

(** ** Everything reachable *)

Record inv (s : sys) : Prop := {
  inv_flight : flight_inv s;
  inv_drained : drained_inv s;
  inv_cover : cover_inv s;
  inv_asleep : asleep_inv s
}.

Lemma wakeup_inv_init n_io n_dr d : inv (init n_io n_dr d).
Proof.
  split; [apply flight_init|by intros q l Hv|apply cover_init|done].
Qed.

Lemma inv_step s s' : inv s -> step s s' -> inv s'.
Proof.
  intros [] ?. split; eauto using flight_step, drained_step, cover_step, asleep_step.
Qed.

Lemma inv_reachable s : reachable s -> inv s.
Proof. intros (n_io & n_dr & d & Hr). eapply invariant_rtc; [apply inv_step|apply wakeup_inv_init|done]. Qed.

Definition awake (p : spc) : bool :=
  match p with EnterUnlock | InKernel | StoreRun => false | _ => true end.

Lemma notify_step s s' : __state_ (sh s) = _S_notify -> awake (spos s) = true -> step s s' ->
  __state_ (sh s') = _S_notify /\ awake (spos s') = true /\ entries s' = entries s.
Proof.
  intros Hn Ha Hs. destruct Hs as [s o q0 x0 Ho _|s o Ho|s o b c c' h Ho E|s b p d h E]; simpl; [done..| |].
  - split_and!; [|done..].
    apply call_step_state in E as [(m & -> & Hh & _)|(_ & Hst & _)]; [done|congruence].
  - inversion E; subst; simpl in *; try (by split_and!); try congruence.
    all: try match goal with Hp : _ = spos ?z |- _ => by rewrite <- Hp in Ha end.
    + by destruct final.
    + by destruct (_ || _).
    + match goal with Ec : cas_in_flight _ _ _ _ = _ |- _ => unfold cas_in_flight in Ec; rename Ec into Ecas end.
      destruct (bool_decide _ && _); simplify_eq; by split_and!; [|destruct (_ || _)|].
Qed.

Lemma closed_step s s' : flight_inv s -> spos s = Finish \/ spos s = Done -> step s s' ->
  (spos s' = Finish \/ spos s' = Done) /\ pushed s' = pushed s.
Proof.
  intros Hf Hp Hs. assert (closed (spos s) = true) as Hc by (by destruct Hp as [-> | ->]).
  destruct Hs as [s o q0 x0 Ho _|s o Ho|s o b c c' h Ho E|s b p d h E]; simpl; [done..| |].
  - split; [done|]. pose proof (closed_outside _ _ _ Hf Hc Ho) as Hin.
    destruct c; by rewrite ?app_nil_r.
  - destruct Hp as [Hp|Hp]; rewrite Hp in *; inversion E; subst; auto.
Qed.

Lemma all_drained s : inv s -> spos s = Finish \/ spos s = Done -> waiting (sh s) = [].
Proof.
  intros Hi Hp. assert (forall q l, queue_of q (sh s) = Some l -> l = []) as Hd.
  { intros q l. apply (inv_drained _ Hi). by destruct Hp as [-> | ->], q. }
  assert (forall ls : list (list ptr), (forall i l, ls !! i = Some l -> l = []) -> concat ls = []) as Hcat.
  { induction ls as [|l ls IH]; [done|]. intros Hl. simpl. rewrite (Hl 0%nat l) by done.
    apply IH. intros i k. apply (Hl (S i)). }
  unfold waiting. rewrite (Hcat (io_remote (sh s))), (Hcat (dr_remote (sh s))); [done|..].
  - intros i l. apply (Hd (Dr i)).
  - intros i l. apply (Hd (Io i)).
Qed.

(** ** Properties *)

(** C2: no wake-up is lost.  Whenever the scheduler sleeps in the kernel while a
    request waits on a remote queue, its submitter has not finished announcing
    it, or a call that found the scheduler asleep is about to write to the event
    descriptor, or one has written since the scheduler went to sleep. *)
Theorem no_lost_wakeup s q l x :
  reachable s -> spos s = InKernel -> queue_of q (sh s) = Some l -> x ∈ l ->
  (exists o c, calls s !! o = Some c /\ (unannounced q x c \/ waking c = true)) \/ (0 < wakes s)%nat.
Proof.
  intros Hr Hp Hq Hx. apply inv_reachable in Hr as [_ _ Hcov Hasl].
  destruct (Hcov q l x Hq Hx) as [(o & c & Ho & Hc)|[Hn|Hv]]; [left; exists o, c; auto| |].
  - destruct Hasl as [Hs|(_ & [(o & c & Ho & Hc)|Hw])]; [by rewrite Hp|congruence| |by right].
    left. exists o, c. auto.
  - by rewrite Hp in Hv.
Qed.

(** C30: shutting down strands nothing.  When the scheduler has emptied the
    remote queues for the last time, the requests it was given since the start are
    exactly those that were pushed, each once; none is in its hand or on a remote
    queue, no call is on its way to push another, and whatever happens afterwards
    none is pushed: a later submission stops its request itself. *)
Theorem shutdown_strands_nothing `{!LocalLaws L} n_io n_dr d0 s s' :
  rtc step (init n_io n_dr d0) s -> spos s = Finish \/ spos s = Done -> rtc step s s' ->
  pushed s' = pushed s /\ given (local s') ≡ₚ given d0 ++ pushed s /\
  in_hand (spos s') = [] /\ waiting (sh s') = [] /\ forall o c, calls s' !! o = Some c -> inside c = false.
Proof.
  intros Hr Hp Hs. assert (inv s) as Hi by (apply inv_reachable; by exists n_io, n_dr, d0).
  assert (inv s' /\ (spos s' = Finish \/ spos s' = Done) /\ pushed s' = pushed s) as (Hi' & Hp' & Epu).
  { revert Hi Hp. clear Hr. induction Hs as [|s s1 s2 H1 _ IH]; [done|]. intros Hi Hp.
    destruct (closed_step _ _ (inv_flight _ Hi) Hp H1) as (Hp1 & <-). apply IH; [by eapply inv_step|done]. }
  assert (in_hand (spos s') = []) as Eh by (by destruct Hp' as [-> | ->]).
  split_and!; [done| |done|by apply all_drained|].
  - assert (conserve_inv d0 s') as Hc by (eapply conserved; by etrans). unfold conserve_inv in Hc.
    by rewrite Eh, (all_drained _ Hi' Hp'), !app_nil_r, Epu in Hc.
  - intros o c. apply closed_outside; [apply Hi'|]. by destruct Hp' as [-> | ->].
Qed.

(** a notification sticks.  When a request is announced while the scheduler
    is awake, [__state_] stays [_S_notify] for good, since only the way out of
    the kernel resets it: [_M_io_uring_enter] never enters the kernel again and
    the loop goes round without submitting or waiting. *)
Theorem notify_sticks s s' :
  __state_ (sh s) = _S_notify -> awake (spos s) = true -> rtc step s s' ->
  __state_ (sh s') = _S_notify /\ awake (spos s') = true /\ entries s' = entries s.
Proof.
  intros Hn Ha Hs. induction Hs as [s|s s1 s2 H1 _ IH]; [done|].
  destruct (notify_step _ _ Hn Ha H1) as (Hn1 & Ha1 & <-). by apply IH.
Qed.
End machine.

(** ** A run

    One operation is outstanding from the start; each round submits what is
    pending, and the last submission finishes everything.  One queue of each kind
    is registered. *)

Module wakeup_example.
Record toy := mkToy { t_io : list ptr; t_dr : list ptr; t_total : Z; t_all : list ptr }.

#[local] Instance toy_local : LocalScheduler toy := {|
  append_io l d d' := d' = mkToy (t_io d ++ l) (t_dr d) (t_total d) (t_all d ++ l);
  append_dr l d d' := d' = mkToy (t_io d) (t_dr d ++ l) (t_total d) (t_all d ++ l);
  n_total_submit := t_total;
  run_some stop d d' := d' = mkToy [] [] (if stop then 0 else t_total d + Z.of_nat (length (t_io d))) (t_all d);
  after_enter d d' := d' = d;
  finish d d' := d' = mkToy [] [] 0 (t_all d)
|}.

#[local] Instance toy_laws : LocalLaws toy.
Proof. exists t_all; intros; simpl in *; by subst. Defined.

Ltac sched := eapply rtc_l; [eapply (step_sched _ false); (econstructor; done)|simpl].
Ltac call o := eapply rtc_l; [eapply (step_call _ o false); done|simpl].
Ltac round_to_lock := do 6 sched.

(** A request is pushed while the scheduler sleeps. *)
Definition asleep_state : sys := mkSys
  (mkShared _S_sleep 0 None [[64]] [[]] 0 false) {[0%nat := Exchange (Some (Io 0, 64))]}
  InKernel (mkToy [] [] 1 []) [64] 0 1.

Lemma asleep_reachable : reachable asleep_state.
Proof.
  exists 1%nat, 1%nat, (mkToy [] [] 1 []). unfold init. simpl. round_to_lock. do 3 sched.
  eapply rtc_l; [by apply (step_submit _ 0%nat (Io 0) 64)|simpl].
  do 3 call 0%nat. apply rtc_refl.
Qed.

Lemma no_lost_wakeup_witness :
  (exists o c, calls asleep_state !! o = Some c /\ (unannounced (Io 0) 64 c \/ waking c = true)) \/
  (0 < wakes asleep_state)%nat.
Proof.
  apply (no_lost_wakeup asleep_state (Io 0) [64] 64); [apply asleep_reachable|done|done|by left].
Defined.

(** A request is announced while the scheduler runs. *)
Definition notified_state : sys := mkSys
  (mkShared _S_notify 0 None [[64]] [[]] 0 false) {[0%nat := Ret false]}
  EnterLock (mkToy [] [] 1 []) [64] 0 0.

Lemma notified_reachable : reachable notified_state.
Proof.
  exists 1%nat, 1%nat, (mkToy [] [] 1 []). unfold init. simpl. round_to_lock.
  eapply rtc_l; [by apply (step_submit _ 0%nat (Io 0) 64)|simpl].
  do 4 call 0%nat. apply rtc_refl.
Qed.

(** The next round accepts the request and comes to [EnterLock] again, with the
    request submitted to the ring but not to the kernel. *)
Definition spinning_state : sys := mkSys
  (mkShared _S_notify 0 None [[]] [[]] 0 false) {[0%nat := Ret false]}
  EnterLock (mkToy [] [] 2 [64]) [64] 0 0.

Lemma notified_spins : rtc step notified_state spinning_state.
Proof. unfold notified_state. do 3 sched. round_to_lock. apply rtc_refl. Qed.

Lemma notify_sticks_witness :
  reachable notified_state /\ rtc step notified_state spinning_state /\
  __state_ (sh spinning_state) = _S_notify /\ awake (spos spinning_state) = true /\
  entries spinning_state = entries notified_state.
Proof.
  split; [apply notified_reachable|]. split; [apply notified_spins|].
  apply (notify_sticks notified_state spinning_state); [done|done|apply notified_spins].
Defined.

(** A stop request ends the loop while a request is being pushed. *)
Definition finished_state : sys := mkSys
  (mkShared _S_notify (-1) None [[]] [[]] 0 true) {[0%nat := Ret false; 1%nat := Ret false]}
  Finish (mkToy [64] [] 0 [64]) [64] 0 0.

Lemma finished_reachable : rtc step (init 1 1 (mkToy [] [] 1 [])) finished_state.
Proof.
  unfold init. simpl.
  eapply rtc_l; [by apply (step_request _ 1%nat)|simpl]. do 2 call 1%nat.
  round_to_lock.
  eapply rtc_l; [by apply (step_submit _ 0%nat (Io 0) 64)|simpl].
  do 4 call 0%nat.
  eapply rtc_l; [eapply (step_sched _ false); eapply (close false 0 true 0); done|simpl].
  do 4 sched. apply rtc_refl.
Qed.

(** A request submitted afterwards is stopped by its submitter. *)
Definition late_state : sys := mkSys
  (mkShared _S_notify (-1) None [[]] [[]] 0 true)
  {[0%nat := Ret false; 1%nat := Ret false; 2%nat := Ret false]}
  Finish (mkToy [64] [] 0 [64]) [64] 0 0.

Lemma late_rejected : rtc step finished_state late_state.
Proof.
  unfold finished_state. eapply rtc_l; [by apply (step_submit _ 2%nat (Dr 0) 128)|simpl].
  do 3 call 2%nat. apply rtc_refl.
Qed.

Lemma shutdown_strands_nothing_witness :
  pushed late_state = pushed finished_state /\ t_all (local late_state) ≡ₚ [64] /\
  waiting (sh late_state) = [] /\ forall o c, calls late_state !! o = Some c -> inside c = false.
Proof.
  destruct (shutdown_strands_nothing 1 1 (mkToy [] [] 1 []) finished_state late_state) as (H1 & H2 & _ & H4 & H5);
    [apply finished_reachable|by left|apply late_rejected|]. split; [exact H1|]. split; [exact H2|]. split; [exact H4|exact H5].
Defined.
End wakeup_example.
End wakeup.
