(* ===== verification/Runtime.v ===== *)
(** * [__scheduler.hpp]: a scheduler and the threads that submit to it

    Module [wakeup] runs the protocol between threads over an interface,
    [LocalScheduler]; the modules [tasks], [rings], [scheduler] and [shutdown]
    have what the scheduler's own thread does with its data.  Module [runtime]
    puts them together: the data of a scheduler is an instance of the interface,
    so that the system of [wakeup] over it is the whole of
    [_M_run_until_stop] with any number of submitting threads, a kernel and the
    functions of the tasks.  A step of the interface is allowed where the
    environment keeps its side: other threads submit operations that are in no
    queue and not with the kernel ([io_ok], [dr_ok]), the kernel takes entries from
    the front and completes operations it has ([kernel_returns], [posts_ok]; any
    other error of the kernel ends the program, [after_enter_fails]); what the
    scheduler's own code does in the step is the function of [scheduler] or
    [shutdown].  Ghosts say which requests the scheduler was given; [kept] ties
    them to the queues, the heap and the log of the data.  Module [runtime_example] is a run from the start to the end, with
    a submission that wakes the scheduler.

    The ring is set up with [IORING_SETUP_DEFER_TASKRUN] ([__init_params]): the
    kernel posts completions only during [io_uring_enter]. *)

From S2P Require Import Prelude Memory Cells IntrusiveQueue IntrusiveHeap Tasks Rings Scheduler Shutdown Wakeup.
Import intrusive_queue tasks rings scheduler shutdown.

Module runtime.

(** ** [_M_accept_remote_request] *)

Section accept.
Context {C : Type}.
Abbreviation sched := (__scheduler C).
Implicit Types (s : sched) (p x : ptr) (l : list ptr) (m : gmap ptr __task_facade).

(** The links among the tasks [l] as the pushes of other threads and the
    emptying of their queues leave them. *)
Fixpoint link l m : gmap ptr __task_facade :=
  match l with
  | [] => m
  | x :: l' => alter (set_next (head_ptr l')) x (link l' m)
  end.
Definition chain l : M sched queue :=
  modify (fun s => set_objs (link l (objs s)) s);; mret (mkQueue (head_ptr l) (last_ptr l)).

(** [__io_pending_._M_append(__io_remote_._M_pop_swap_reversed())] *)
Definition accept_io l : M sched unit :=
  __other ← chain l; s ← get; q ← on_objs (_M_append (__io_pending_ s) __other); modify (set_io q).
Definition accept_dr l : M sched unit :=
  __other ← chain l; s ← get; q ← on_objs (_M_append (__dr_pending_ s) __other); modify (set_dr q).

Lemma link_relinks l m : (forall x, x ∈ l -> live m x) -> relinks l m (link l m).
Proof.
  induction l as [|x l IH]; intros Hl; [done|]. cbn [link].
  assert (relinks (x :: l) m (link l m)) as Hr.
  { eapply relinks_mono; [apply IH; intros y ?; apply Hl; by right|]. intros y ?. by right. }
  destruct (relinks_live _ _ _ x Hr (Hl x (list_elem_of_here _ _))) as [_ [n Hn]].
  rewrite (alter_alt_Some _ _ _ _ Hn). etrans; [exact Hr|]. by apply (relinks_insert (x :: l) (link l m) x n (head_ptr l)); [left|].
Qed.

Lemma link_chain l m : NoDup l -> (forall x, x ∈ l -> live m x) -> lseg (link l m) (head_ptr l) l nullptr.
Proof.
  induction l as [|x l IH]; intros Hd Hl; [done|]. apply NoDup_cons in Hd as [Hx Hd]. cbn [link lseg].
  assert (forall y, y ∈ l -> live m y) as Hl' by (intros y ?; apply Hl; by right).
  destruct (relinks_live _ _ _ x (link_relinks l m Hl') (Hl x (list_elem_of_here _ _))) as [Hnx [n Hn]].
  split; [done|]. split; [done|]. exists (set_next (head_ptr l) n). rewrite (alter_alt_Some _ _ _ _ Hn), lookup_insert_eq.
  split; [done|]. rewrite next_of_set_next. apply lseg_insert; [done|by apply IH].
Qed.

(** Only links change. *)
Definition same_tasks m m' : Prop := forall x t, m !! x = Some t ->
  exists t', m' !! x = Some t' /\ class_of t' = class_of t /\ __target_ t' = __target_ t.

Lemma relinks_same l m m' : relinks l m m' -> same_tasks m m'.
Proof. intros Hr x t Ht. destruct (Hr x) as [->|(_ & n & v & En & ->)]; [by exists t|]. simplify_eq. by eexists. Qed.

Lemma same_ioring m m' p n : same_tasks m m' -> is_ioring m p n -> is_ioring m' p n.
Proof. intros Hs (Hp & t & Ht & Hc). destruct (Hs p t Ht) as (t' & Ht' & E & _). split; [done|]. exists t'. by rewrite E. Qed.

Lemma same_command m m' p c : same_tasks m m' -> command_of m p c -> command_of m' p c.
Proof.
  intros Hs (Hp & t & Ht & Hc). destruct (Hs p t Ht) as (t' & Ht' & E & Etg). split; [done|]. exists t'. split; [done|].
  rewrite E, Etg. destruct c as [|x]; [done|]. destruct Hc as (? & ? & ? & tx & Hx & Hcx). split_and!; [done..|].
  destruct (Hs x tx Hx) as (tx' & Hx' & E' & _). exists tx'. by rewrite E'.
Qed.

(** Appending an accepted chain to a queue of the scheduler. *)
Lemma append_chain m q l0 l : qrep m q l0 -> NoDup l -> (forall x, x ∈ l -> live m x) -> l0 ## l ->
  returns (_M_append q (mkQueue (head_ptr l) (last_ptr l))) (link l m) (fun q' m' =>
    qrep m' q' (l0 ++ l) /\ relinks (l0 ++ l) m m').
Proof.
  intros Hq Hd Hl Hdj. pose proof (link_relinks l m Hl) as Hr.
  eapply returns_mono; [apply (append_spec _ _ _ l0 l); [by eapply qrep_relinks| |done]|].
  - split; [by apply link_chain|done].
  - intros q' m' [Hq' Hr']. split; [done|]. etrans; eapply relinks_mono; [exact Hr| |exact Hr'|]; list_incl.
Qed.

Lemma ioring_live m p n : is_ioring m p n -> live m p.
Proof. intros (? & t & ? & _). by split. Qed.

Lemma relinks_keep_tasks l m m' : relinks l m m' -> (forall x, x ∈ l -> exists n, is_ioring m x n) -> keeps [] m m'.
Proof.
  intros Hr Hl x t _ Ht. destruct (Hr x) as [->|(Hx & n & v & En & ->)]; [by exists t|]. simplify_eq.
  eexists. split_and!; [done..|]. intros Hn. destruct (Hl x Hx) as (k & _ & t' & ? & Hc). simplify_eq. by destruct (Hn k).
Qed.

Lemma accept_io_spec s l0 l :
  queued (objs s) (__io_pending_ s) l0 -> NoDup l -> (forall x, x ∈ l -> exists n, n <= 0 /\ is_ioring (objs s) x n) ->
  l0 ## l ->
  returns (accept_io l) s (fun _ s1 => exists q m, s1 = set_io q (set_objs m s) /\ queued m q (l0 ++ l) /\
    keeps [] (objs s) m /\ same_tasks (objs s) m).
Proof.
  intros [Hq Hi] Hd Hl Hdj. unfold accept_io, chain. apply returns_bind, returns_bind, returns_modify, returns_ret.
  apply returns_bind, returns_get, returns_bind.
  assert (forall x, x ∈ l -> live (objs s) x) as Hlive by (intros x (n & _ & ?)%Hl; by eapply ioring_live).
  pose proof (append_chain _ _ _ _ Hq Hd Hlive Hdj) as Hap. simpl. apply returns_Done in Hap as (q & m & E & Hq' & Hr).
  unfold returns at 1, on_objs. simpl. rewrite E. apply returns_modify. exists q, m.
  pose proof (relinks_same _ _ _ Hr) as Hs. split_and!; [by destruct s| | |done].
  - split; [done|]. intros p [Hp|Hp]%elem_of_app; [destruct (Hi p Hp) as (n & ? & ?)|destruct (Hl p Hp) as (n & ? & ?)];
      (exists n; split; [done|by eapply same_ioring]).
  - eapply relinks_keep_tasks; [exact Hr|]. intros x [Hx|Hx]%elem_of_app; [destruct (Hi x Hx) as (n & ? & ?)|destruct (Hl x Hx) as (n & ? & ?)]; by exists n.
Qed.

Lemma command_live m p c : command_of m p c -> live m p.
Proof. intros (? & t & ? & _). by split. Qed.

Lemma command_not_ioring m p c n : command_of m p c -> is_ioring m p n -> False.
Proof. intros (_ & t & Ht & Hc) (_ & t' & Ht' & Hc'). simplify_eq. destruct c; [destruct Hc as [_ Hc]|destruct Hc as [Hc _]]; congruence. Qed.

Lemma accept_dr_spec s l0 cl cs l cs' ai :
  queued (objs s) (__io_pending_ s) l0 -> commands s cl cs ai -> NoDup l -> Forall2 (command_of (objs s)) l cs' -> cl ## l ->
  returns (accept_dr l) s (fun _ s1 => exists q m, s1 = set_dr q (set_objs m s) /\
    queued m (__io_pending_ s) l0 /\ commands s1 (cl ++ l) (cs ++ cs') ai /\ same_tasks (objs s) m).
Proof.
  intros [Hq Hi] (Hd & Hc & Hh) Hnd Hc' Hdj. unfold accept_dr, chain.
  apply returns_bind, returns_bind, returns_modify, returns_ret. apply returns_bind, returns_get, returns_bind.
  assert (forall x, x ∈ cl ++ l -> exists c, command_of (objs s) x c) as Hcom.
  { intros x Hx. pose proof (Forall2_app Hc Hc') as Hcc. apply list_elem_of_lookup in Hx as [i Hx].
    destruct (Forall2_lookup_l _ _ _ _ _ Hcc Hx) as (c & _ & ?). by exists c. }
  assert (forall x, x ∈ l -> live (objs s) x) as Hlive.
  { intros x Hx. destruct (Hcom x) as [c ?]; [apply elem_of_app; by right|]. by eapply command_live. }
  pose proof (append_chain _ _ _ _ Hd Hnd Hlive Hdj) as Hap. simpl. apply returns_Done in Hap as (q & m & E & Hq' & Hr).
  unfold returns at 1, on_objs. simpl. rewrite E. apply returns_modify. exists q, m.
  pose proof (relinks_same _ _ _ Hr) as Hs. split_and!; [by destruct s| | |done].
  - split; [|intros p Hp; destruct (Hi p Hp) as (n & ? & ?); exists n; split; [done|by eapply same_ioring]].
    eapply qrep_relinks; [exact Hq|exact Hr|]. intros x Hx Hx'. destruct (Hcom x Hx') as [c Hcx].
    destruct (Hi x Hx) as (n & _ & ?). by eapply command_not_ioring.
  - split_and!; [done| |done]. apply Forall2_app; eapply Forall2_impl; [exact Hc| |exact Hc'|]; intros; by eapply same_command.
Qed.
End accept.

(** ** The data of a scheduler as the client of [wakeup] *)

(** What the log of a scheduler says of requests: the operations that were asked
    for their entry, and the timers whose function was called. *)
Definition submitted : list event -> list ptr := omap (fun ev => if ev is Submitted p then Some p else None).
Definition told : list event -> list ptr := omap (fun ev => if ev is TimerDone x _ then Some x else None).

Lemma submitted_app l l' : submitted (l ++ l') = submitted l ++ submitted l'.
Proof. apply omap_app. Qed.
Lemma told_app l l' : told (l ++ l') = told l ++ told l'.
Proof. apply omap_app. Qed.
Lemma submitted_Submitted l : submitted (Submitted <$> l) = l.
Proof. induction l as [|x l IH]; [done|]. cbn. by f_equal. Qed.
Lemma told_Submitted l : told (Submitted <$> l) = [].
Proof. by induction l. Qed.
Lemma submitted_Completed es : submitted ((fun e => Completed (cqe_user_data e) e) <$> es) = [].
Proof. by induction es. Qed.
Lemma told_Completed es : told ((fun e => Completed (cqe_user_data e) e) <$> es) = [].
Proof. by induction es. Qed.
Lemma submitted_stop_events ps : submitted (concat (stop_events <$> ps)) = ps.
Proof. induction ps as [|x ps IH]; [done|]. cbn. by f_equal. Qed.
Lemma told_stop_events ps : told (concat (stop_events <$> ps)) = [].
Proof. by induction ps. Qed.

(** A timer command with whether it was carried out or stopped: the events of
    that, and its effect on the timers. *)
Definition events_of1 (bc : bool * command) : list event := if bc.1 then stopping bc.2 else running bc.2.
Definition told_of (bc : bool * command) : list ptr := told (events_of1 bc).
Definition carry1 (ai : gmap ptr key * gmap ptr key) (bc : bool * command) : option (gmap ptr key * gmap ptr key) :=
  if bc.1 then Some ai else settle1 bc.2 ai.
Definition carry (ai : gmap ptr key * gmap ptr key) (h : list (bool * command)) : option (gmap ptr key * gmap ptr key) :=
  foldl (fun o bc => ai ← o; carry1 ai bc) (Some ai) h.

Lemma told_events (stop : bool) cs :
  told (concat ((if stop then stopping else running) <$> cs)) = concat (told_of <$> (pair stop <$> cs)).
Proof. destruct stop; (induction cs as [|c cs IH]; [done|]); rewrite !fmap_cons; cbn [concat]; by rewrite told_app, IH. Qed.
Lemma submitted_events (stop : bool) cs : submitted (concat ((if stop then stopping else running) <$> cs)) = [].
Proof. destruct stop; (induction cs as [|[] cs IH]; [done|..]); rewrite fmap_cons; cbn [concat]; by rewrite submitted_app, IH. Qed.

Lemma carry_stop ai h ai' cs : carry ai h = Some ai' -> carry ai (h ++ (pair true <$> cs)) = Some ai'.
Proof. unfold carry. rewrite foldl_app. intros ->. by induction cs. Qed.
Lemma carry_run ai h ai1 cs ai2 : carry ai h = Some ai1 -> settle cs ai1 = Some ai2 ->
  carry ai (h ++ (pair false <$> cs)) = Some ai2.
Proof.
  unfold carry. rewrite foldl_app. intros ->. revert ai1. induction cs as [|c cs IH]; intros ai1; [done|].
  unfold settle in *. simpl. destruct (settle1 c ai1) as [ai3|] eqn:E; [|done]. unfold carry1 at 2. simpl. rewrite E. apply IH.
Qed.

(** The requests the scheduler was given, and the timer commands that were
    carried out or stopped since the timers were as in [origin]. *)
Record requests := mkRequests {
  io_given : list ptr;
  dr_given : list ptr;
  origin : gmap ptr key * gmap ptr key;
  history : list (bool * command)
}.
Definition give_io l r := mkRequests (io_given r ++ l) (dr_given r) (origin r) (history r).
Definition give_dr l r := mkRequests (io_given r) (dr_given r ++ l) (origin r) (history r).
Definition carry_out (stop : bool) cs r :=
  mkRequests (io_given r) (dr_given r) (origin r) (history r ++ (pair stop <$> cs)).

(** The scheduler with ghosts: the entries of the submission ring the kernel has
    not taken, the operations that were entered and have not ended, the
    completions in the ring, the pending timer commands, the timers armed and
    idle, and the requests. *)
Record local C := mkLocal {
  st : __scheduler C;
  entered : list io_uring_sqe;
  held : list ptr;
  posted : list io_uring_cqe;
  todo : list command;
  alarms : gmap ptr key * gmap ptr key;
  reqs : requests
}.
Arguments mkLocal {C}. Arguments st {C}. Arguments entered {C}. Arguments held {C}.
Arguments posted {C}. Arguments todo {C}. Arguments alarms {C}. Arguments reqs {C}.

Section local.
Context {C : Type}.
Abbreviation sched := (__scheduler C).
Implicit Types (d : local C) (s : sched) (p x : ptr) (l : list ptr).
Context (client_submit : ptr -> io_uring_sqe -> M sched io_uring_sqe).
Context (client_complete : ptr -> io_uring_cqe -> M sched unit).
Context (timer_complete : ptr -> bool -> M sched unit).
Context (kernel : list io_uring_cqe -> __completion_queue -> __completion_queue).
Context (ks kc : Z).

(** What other threads may submit: operations that are not with the kernel, and
    timer commands that make sense, none of them in a queue already. *)
Definition io_ok l d : Prop :=
  NoDup l /\ (forall x, x ∈ l -> exists n, n <= 0 /\ is_ioring (objs (st d)) x n) /\
  forall l0, queued (objs (st d)) (__io_pending_ (st d)) l0 -> l0 ## l.
Definition dr_ok l cs d : Prop :=
  NoDup l /\ Forall2 (command_of (objs (st d))) l cs /\
  (forall l0, qrep (objs (st d)) (__dr_pending_ (st d)) l0 -> l0 ## l) /\
  is_Some (settle (todo d ++ cs) (alarms d)).

(** What the kernel may post: completions of operations it has, none after the
    last of its operation, as far as the ring has room. *)
Definition posts_ok d (es : list io_uring_cqe) : Prop :=
  Z.of_nat (length (posted d ++ es)) <= 2 ^ kc /\ well_ended (posted d ++ es) /\
  forall e, e ∈ posted d ++ es -> cqe_user_data e ∈ held d.

(** How [io_uring_enter] may return: with the number of entries it has taken,
    interrupted by a signal, or when the time is over, without having taken any. *)
Inductive kernel_returns d : Z -> Z -> nat -> Prop :=
  | took n : (n <= length (entered d))%nat -> kernel_returns d (Z.of_nat n) 0 n
  | interrupted : kernel_returns d (- 1) EINTR 0
  | timed_out : entered d = [] -> kernel_returns d (- 1) ETIME 0.

Definition rt_append_io l d d' : Prop :=
  io_ok l d /\ exists s, accept_io l (st d) = Done (tt, s) /\
  d' = mkLocal s (entered d) (held d) (posted d) (todo d) (alarms d) (give_io l (reqs d)).

Definition rt_append_dr l d d' : Prop := exists cs,
  dr_ok l cs d /\ exists s, accept_dr l (st d) = Done (tt, s) /\
  d' = mkLocal s (entered d) (held d) (posted d) (todo d ++ cs) (alarms d) (give_dr l (reqs d)).

Definition rt_run_some (stop : bool) d d' : Prop := exists fuel s new,
  _M_run_some client_submit client_complete timer_complete kernel fuel [] stop (st d) = Done (tt, s) /\
  sq_rep ks (__sq_ s) (entered d ++ new) /\
  d' = mkLocal s (entered d ++ new) (outstanding (held d) (ended (posted d)) ++ (user_data <$> new)) [] []
    (if stop then alarms d else default (alarms d) (settle (todo d) (alarms d))) (carry_out stop (todo d) (reqs d)).

(** Whatever the completions bring may change what the functions of the tasks do
    next: [c] is any state of theirs. *)
Definition rt_after_enter d d' : Prop := exists rc errno n q es s c,
  kernel_returns d rc errno n /\ sq_rep ks q (drop n (entered d)) /\ posts_ok d es /\
  (during_call kernel q es;; after_enter (__io_uring_enter rc errno)) (st d) = Done (tt, s) /\
  d' = mkLocal (set_client c s) (drop n (entered d)) (held d) (posted d ++ es) (todo d) (alarms d) (reqs d).

Definition rt_finish d d' : Prop := exists fuel rc errno n q es s,
  kernel_returns d rc errno n /\ posts_ok d es /\
  drain client_submit client_complete timer_complete kernel fuel q es rc errno [] (st d) = Done (tt, s) /\
  d' = mkLocal s (drop n (entered d)) (outstanding (held d) (ended (posted d ++ es))) [] [] (alarms d)
    (carry_out true (todo d) (reqs d)).

#[local] Instance runtime_local : wakeup.LocalScheduler (local C) := {|
  wakeup.append_io := rt_append_io;
  wakeup.append_dr := rt_append_dr;
  wakeup.n_total_submit d := __n_total_submit_ (st d);
  wakeup.run_some := rt_run_some;
  wakeup.after_enter := rt_after_enter;
  wakeup.finish := rt_finish
|}.

#[local] Instance runtime_laws : wakeup.LocalLaws (local C).
Proof.
  exists (fun d => io_given (reqs d) ++ dr_given (reqs d)).
  - intros l d d' (_ & s & _ & ->). cbn. solve_Permutation.
  - intros l d d' (cs & _ & s & _ & ->). cbn. by rewrite app_assoc.
  - by intros b d d' (fuel & s & new & _ & _ & ->).
  - by intros d d' (rc & errno & n & q & es & s & c & _ & _ & _ & _ & ->).
  - by intros d d' (fuel & rc & errno & n & q & es & s & _ & _ & _ & ->).
Defined.

(** ** The invariant of the scheduler's data *)

Context (is_cancel : ptr -> bool) (budget : C -> nat).
Context `{!ClientLaws client_submit client_complete is_cancel budget}.
Context `{!TimerLaws timer_complete budget}.
Context (kernel_law : forall k q (l es : list io_uring_cqe), cq_rep k q l -> Z.of_nat (length (l ++ es)) <= 2 ^ k ->
  cq_rep k (kernel es q) (l ++ es) /\ cq_head (kernel es q) = cq_head q).
Context (no_cancel : forall p, is_cancel p = false).

(** No request the scheduler was given is lost: an operation was asked for its
    entry or is in the pending queue; the timer commands were carried out or
    stopped, in their order, except for those in their pending queue, the timers
    in the heap are what the commands carried out leave, and the timers' functions
    were called as the commands say. *)
Record kept d : Prop := {
  k_queued : exists l, queued (objs (st d)) (__io_pending_ (st d)) l /\
    io_given (reqs d) ⊆+ submitted (log (st d)) ++ l;
  k_commands : exists ps cl, dr_given (reqs d) = ps ++ cl /\ commands (st d) cl (todo d) (alarms d) /\
    Forall2 (command_of (objs (st d))) ps (history (reqs d)).*2;
  k_carried : carry (origin (reqs d)) (history (reqs d)) = Some (alarms d);
  k_told : concat (told_of <$> history (reqs d)) `suffix_of` told (log (st d))
}.

Record wf d : Prop := {
  wf_kept : kept d;
  wf_sq : sq_rep ks (__sq_ (st d)) (entered d);
  wf_cq : cq_rep kc (__cq_ (st d)) (posted d);
  wf_accounts : accounts (st d) (entered d) (held d);
  wf_posted : well_ended (posted d) /\ forall e, e ∈ posted d -> cqe_user_data e ∈ held d;
  wf_fits : fits (alarms d);
  wf_settle : is_Some (settle (todo d) (alarms d))
}.

Lemma sq_rep_fun k q es es' : sq_rep k q es -> sq_rep k q es' -> es = es'.
Proof.
  intros H1 H2. pose proof (proj1 (sq_room _ _ _ H1)) as E. rewrite (proj1 (sq_room _ _ _ H2)) in E.
  destruct H1 as (_ & H1 & _), H2 as (_ & H2 & _). apply list_eq_same_length with (length es); [lia..|].
  intros i e e' _ He He'. destruct (H1 i e He) as [_ E1], (H2 i e' He') as [_ E2]. rewrite E1 in E2. by injection E2.
Qed.

Lemma queued_fun m q l l' : queued m q l -> queued m q l' -> l = l'.
Proof. intros [[H1 _] _] [[H2 _] _]. by rewrite <- (walk_lseg _ _ _ H1), (walk_lseg _ _ _ H2). Qed.

Lemma wf_append_io l d d' : wf d -> rt_append_io l d d' -> wf d'.
Proof.
  intros [[(l0 & Hq & Hio) (ps & cl & Edr & Hc & Hps) Hcar Htold] Hsq Hcq Ha Hp Hf Hs] ((Hnd & Hl & Hdj) & s & E & ->).
  destruct (proj1 (returns_Done _ _ _) (accept_io_spec (st d) l0 l Hq Hnd Hl (Hdj l0 Hq))) as ([] & s' & E' & q & m & -> & Hq' & Hk & Hsm).
  rewrite E in E'. injection E' as ->. split; cbn [st entered held posted todo alarms reqs]; try done.
  - split; cbn [st todo alarms reqs give_io io_given dr_given origin history]; try done.
    + exists (l0 ++ l). split; [done|]. rewrite app_assoc. by apply submseteq_app.
    + exists ps, cl. split; [done|]. split; [|eapply Forall2_impl; [exact Hps|]; intros; by eapply same_command].
      eapply (commands_keep []); [exact Hc|exact Hk| |done..]. intros x Hx. by apply not_elem_of_nil in Hx.
  - destruct Ha as (? & ? & ? & ? & Hi). do 4 (split; [done|]). intros p Hp'. by eapply same_ioring, Hi.
Qed.

Lemma wf_append_dr l d d' : wf d -> rt_append_dr l d d' -> wf d'.
Proof.
  intros [[(l0 & Hq & Hio) (ps & cl & Edr & Hc & Hps) Hcar Htold] Hsq Hcq Ha Hp Hf Hs] (cs & (Hnd & Hl & Hdj & Hset) & s & E & ->).
  destruct (proj1 (returns_Done _ _ _) (accept_dr_spec (st d) l0 cl (todo d) l cs (alarms d) Hq Hc Hnd Hl (Hdj cl (proj1 Hc))))
    as ([] & s' & E' & q & m & -> & Hq' & Hc' & Hsm).
  rewrite E in E'. injection E' as ->. split; cbn [st entered held posted todo alarms reqs]; try done.
  - split; cbn [st todo alarms reqs give_dr io_given dr_given origin history]; try done.
    + by exists l0.
    + exists ps, (cl ++ l). rewrite Edr, <- app_assoc. split; [done|]. split; [done|].
      eapply Forall2_impl; [exact Hps|]. intros; by eapply same_command.
  - destruct Ha as (? & ? & ? & ? & Hi). do 4 (split; [done|]). intros p Hp'. by eapply same_ioring, Hi.
Qed.
Lemma settle_fits cs ai ai' : fits ai -> settle cs ai = Some ai' -> fits ai'.
Proof.
  revert ai. induction cs as [|c cs IH]; intros ai Hf; [by intros [= <-]|]. unfold settle in *. simpl.
  destruct (settle1 c ai) as [ai2|] eqn:E; [|done]. by eapply IH, settle1_fits.
Qed.

(** The state after a round that has left the scheduler as [s]. *)
Definition after_round (stop : bool) d s (new : list io_uring_sqe) : local C :=
  mkLocal s (entered d ++ new) (outstanding (held d) (ended (posted d)) ++ (user_data <$> new)) [] []
    (if stop then alarms d else default (alarms d) (settle (todo d) (alarms d))) (carry_out stop (todo d) (reqs d)).

(** A step that has emptied the queue of commands and logged [evs]: the requests
    are kept if the pending operations were logged or are pending still. *)
Lemma kept_round (stop : bool) d s l l1 evs ai en he po :
  kept d -> queued (objs s) (__io_pending_ s) l1 ->
  (forall l0, queued (objs (st d)) (__io_pending_ (st d)) l0 -> l0 ⊆+ l) -> l ⊆+ submitted evs ++ l1 ->
  log s = log (st d) ++ evs -> told evs = concat (told_of <$> (pair stop <$> todo d)) ->
  commands s [] [] ai -> same_commands (objs (st d)) (objs s) ->
  (if stop then ai = alarms d else settle (todo d) (alarms d) = Some ai) ->
  kept (mkLocal s en he po [] ai (carry_out stop (todo d) (reqs d))).
Proof.
  intros [(l0 & Hq & Hio) (ps & cl & Edr & (_ & Hc & _) & Hps) Hcar [pre Htold]] Hq1 Hl Hl1 Elog Etold Hcom Hsame Hai.
  split; cbn [st todo alarms reqs carry_out io_given dr_given origin history].
  - exists l1. split; [done|]. rewrite Elog, submitted_app, <- app_assoc. etrans; [exact Hio|].
    apply submseteq_app; [done|]. etrans; [by apply Hl|done].
  - exists (ps ++ cl), []. rewrite app_nil_r. split; [done|]. split; [done|]. rewrite fmap_app.
    assert ((pair stop <$> todo d).*2 = todo d) as -> by (rewrite <- list_fmap_compose; apply list_fmap_id).
    by apply Forall2_app; eapply same_commands_Forall2.
  - destruct stop; [rewrite Hai; by apply carry_stop|by eapply carry_run].
  - exists pre. by rewrite Elog, told_app, Htold, Etold, fmap_app, concat_app, app_assoc.
Qed.

Lemma take_drop_submseteq n l k : l ⊆+ take n l ++ k ++ drop n l.
Proof. rewrite <- (take_drop n l) at 1. by apply submseteq_app, submseteq_inserts_l. Qed.

(** A round ends, whatever the functions of the tasks do, and keeps the
    invariant. *)
Lemma run_some_runs d stop : wf d -> exists n, forall fuel, (n <= fuel)%nat -> exists s new,
  _M_run_some client_submit client_complete timer_complete kernel fuel [] stop (st d) = Done (tt, s) /\
  wf (after_round stop d s new).
Proof.
  intros [Hkept Hsq Hcq Ha [Hend Hin] Hf [ai' Hs]]. pose proof Hkept as [(l & Hq & _) (ps0 & cl & _ & Hc & _) _ _].
  assert (concat [] = @nil io_uring_cqe) as Enil by done.
  exists (S (length (posted d) + length l + budget (client (st d)) + length cl)). intros fuel Hfuel.
  unfold _M_run_some. cut (returns (_M_run_some client_submit client_complete timer_complete kernel fuel [] stop) (st d)
    (fun _ s => exists new, wf (after_round stop d s new))).
  { intros ([] & s & E & new & ?)%returns_Done. by exists s, new. }
  apply returns_bind_assoc. eapply returns_bind_mono.
  { eapply (consume_spec client_submit client_complete kernel is_cancel budget kernel_law (st d) l kc (entered d) (posted d) [] (held d));
      rewrite ?Enil, ?app_nil_r; try done; [apply Hcq|lia]. }
  intros [] s2 (j & new1 & Ha2 & Hq2 & Hb2 & Hcq2 & Hcom2 & Hsame2 & Ee2 & Esq & Hlog2). rewrite take_nil, Enil, app_nil_r in *.
  assert (forall l0, queued (objs (st d)) (__io_pending_ (st d)) l0 -> l0 ⊆+ new1 ++ l) as Hpend.
  { intros l0 Hq0. rewrite (queued_fun _ _ _ _ Hq0 Hq). by apply submseteq_inserts_l. }
  unfold after_round. destruct stop.
  - eapply returns_mono.
    { eapply (stop_submit_spec client_submit client_complete timer_complete is_cancel budget no_cancel s2 (new1 ++ l) ks
        (entered d)); try done; [by rewrite Esq|rewrite length_app; lia]. }
    intros [] s3 (Ha3 & Hcq3 & Hsq3 & Hcom3 & Hsame3 & ps & l1 & Hq3 & Hlog3 & Hps). exists []. rewrite !app_nil_r.
    split; cbn [st entered held posted todo alarms reqs]; try done; [|by rewrite Hcq3|split; [done|]; intros e He; by apply not_elem_of_nil in He].
    eapply (kept_round true d s3 (new1 ++ l) l1); [done..| |by rewrite Hlog3, Hlog2, <- app_assoc| |done| |done].
    + unfold stop_log. rewrite !submitted_app, submitted_Completed, submitted_stop_events, (submitted_events true), app_nil_r.
      simpl. case_decide; [|destruct Hps as [-> Hsuf]; simpl; destruct Hsuf as [pre ->]; by apply submseteq_inserts_l].
      by apply submseteq_inserts_r, sublist_submseteq.
    + unfold stop_log. by rewrite !told_app, told_Completed, told_stop_events, (told_events true).
    + by eapply same_commands_trans.
  - eapply returns_mono.
    { eapply (io_uring_submit_spec client_submit client_complete timer_complete is_cancel budget s2 (new1 ++ l) ks
        (entered d)); try done; [by rewrite Esq|rewrite length_app; lia|lia]. }
    intros [] s3 (new & new2 & Hnew & Ha3 & Hq3 & _ & Hsq3 & Hcq3 & Hcom3 & Hsame3 & Hlog3). exists new. rewrite Hs.
    split; cbn [st entered held posted todo alarms reqs default]; try done;
      [|by rewrite Hcq3|split; [done|]; intros e He; by apply not_elem_of_nil in He|by eapply settle_fits].
    eapply (kept_round false d s3 (new1 ++ l)); [done|exact Hq3|done| |by rewrite Hlog3, Hlog2, <- app_assoc| |done| |done].
    + rewrite !submitted_app, submitted_Completed, submitted_Submitted, (submitted_events false), app_nil_r. rewrite Hnew. simpl.
      apply take_drop_submseteq.
    + by rewrite !told_app, told_Completed, told_Submitted, (told_events false).
    + by eapply same_commands_trans.
Qed.

(** What a visit to the kernel leaves: the rings as the kernel leaves them, and
    the number of entries it has not taken. *)
Definition visited d q (es : list io_uring_cqe) (n : nat) : sched :=
  set_counts (__n_total_submit_ (st d)) (Z.of_nat (length (drop n (entered d))))
    (set_cq (kernel es (__cq_ (st d))) (set_sq q (st d))).

Lemma entered_bound d : wf d -> Z.of_nat (length (entered d)) < 2 ^ 32.
Proof. intros H. destruct (wf_sq d H) as ((? & _) & _ & ? & _). assert (2 ^ ks < 2 ^ 32) by (apply Z.pow_lt_mono_r; lia). lia. Qed.

Lemma after_enter_books d rc errno n q es : wf d -> kernel_returns d rc errno n ->
  (during_call kernel q es;; after_enter (__io_uring_enter rc errno)) (st d) = Done (tt, visited d q es n).
Proof.
  intros Hwf Hr. pose proof (entered_bound d Hwf) as Hb. pose proof (wf_accounts d Hwf) as (Hn & _).
  rewrite (run_bind _ _ _ _ (set_cq (kernel es (__cq_ (st d))) (set_sq q (st d))) eq_refl). unfold visited.
  destruct Hr as [n Hn2| |He].
  - unfold __io_uring_enter. rewrite decide_False by lia. unfold after_enter.
    rewrite (proj2 (Z.ltb_ge (Z.of_nat n) 0)) by lia. cbn [andb]. rewrite (run_bind _ _ _ _ _ eq_refl).
    rewrite (proj2 (Z.eqb_neq (- Z.of_nat n) ETIME)), (proj2 (Z.eqb_neq (- Z.of_nat n) EINTR))
      by (unfold ETIME, EINTR; lia). unfold modify. cbn [negb]. do 3 f_equal. cbn [__n_newly_submit_ set_cq set_sq].
    rewrite Hn, length_drop, swrap_counts by lia. lia.
  - rewrite drop_0, <- Hn. by destruct (st d).
  - rewrite He, drop_nil. done.
Qed.

Lemma visited_wf d q es n c : wf d -> sq_rep ks q (drop n (entered d)) -> posts_ok d es ->
  wf (mkLocal (set_client c (visited d q es n)) (drop n (entered d)) (held d) (posted d ++ es) (todo d) (alarms d) (reqs d)).
Proof.
  intros [[] Hsq Hcq (Hn & Ht & HO & Hb & Hi) _ Hf Hs] Hq' (Hroom & Hend & Hin).
  split; cbn [st entered held posted todo alarms reqs]; try done. by apply kernel_law.
Qed.

(** An error of the kernel ends the program. *)
Lemma after_enter_fails d rc errno q es : rc = -1 -> 0 < errno -> refused rc errno ->
  (during_call kernel q es;; after_enter (__io_uring_enter rc errno)) (st d) = Fault Terminate.
Proof.
  intros -> He Href. rewrite (run_bind _ _ _ _ (set_cq (kernel es (__cq_ (st d))) (set_sq q (st d))) eq_refl).
  unfold after_enter. by rewrite (enter_refused (- 1) errno) by auto; rewrite bool_decide_true.
Qed.

(** The end of the run either passes the final assertion, and then no operation
    is left, or fails on it. *)
Lemma drain_ends d rc errno n q es : wf d -> kernel_returns d rc errno n -> posts_ok d es ->
  exists n0, forall fuel, (n0 <= fuel)%nat ->
    let r := drain client_submit client_complete timer_complete kernel fuel q es rc errno [] (st d) in
    if decide (length (ended (posted d ++ es)) = length (held d)) then exists s, r = Done (tt, s) /\
      outstanding (held d) (ended (posted d ++ es)) = [] /\ cq_rep kc (__cq_ s) [] /\
      kept (mkLocal s (drop n (entered d)) [] [] [] (alarms d) (carry_out true (todo d) (reqs d)))
    else r = Fault AssertFailed.
Proof.
  intros [Hkept Hsq Hcq Ha _ Hf [ai' Hs]] Hr (Hroom & Hend & Hin).
  pose proof Hkept as [(l & Hq & _) (ps0 & cl & _ & Hc & _) _ _].
  exists (S (length (posted d ++ es) + length l + budget (client (st d)) + length cl)). intros fuel Hfuel r.
  assert (concat [] = @nil io_uring_cqe) as Enil by done.
  pose proof (drain_accounts client_submit client_complete timer_complete kernel is_cancel budget kernel_law no_cancel
    (st d) l ks kc (entered d) (posted d) es [] (held d) cl (todo d) (alarms d) ai' fuel q rc errno) as Hj.
  rewrite ?Enil, ?app_nil_r in Hj. specialize (Hj Hq Hsq Hcq Ha Hc Hf Hs Hroom Hend Hin).
  rewrite decide_False in Hj by (unfold refused, EINTR, ETIME; destruct Hr; unfold EINTR, ETIME; lia).
  destruct (Hj ltac:(destruct Hr; unfold EINTR, ETIME; lia) ltac:(lia)) as [j Hj2]. clear Hj. rename Hj2 into Hj.
  rewrite take_nil, Enil, app_nil_r in Hj. cbv zeta in Hj.
  destruct (decide (length (ended (posted d ++ es)) = length (held d))); [|exact Hj].
  apply returns_Done in Hj as ([] & s & E & Ho & Hcq' & Hcom & Hsame & ps & l1 & Hq1 & Hlog & Hps). exists s.
  split_and!; [exact E|exact Ho|exact Hcq'|]. eapply (kept_round true d s l l1); [done..| | |exact Hlog| |exact Hcom|exact Hsame|done].
  - intros l0 Hq0. by rewrite (queued_fun _ _ _ _ Hq0 Hq).
  - unfold stop_log. rewrite !submitted_app, submitted_Completed, submitted_stop_events, (submitted_events true), !app_nil_r.
    case_decide; [|destruct Hps as [-> [pre ->]]; simpl; by apply submseteq_inserts_l].
    by apply submseteq_inserts_r, sublist_submseteq.
  - unfold stop_log. by rewrite !told_app, told_Completed, told_stop_events, (told_events true), app_nil_r.
Qed.

(** ** The whole system *)

(** [_M_run_until_stop] is called on a scheduler with well-formed data, [d0]. *)
Definition reachable d0 (s : wakeup.sys) : Prop :=
  wf d0 /\ exists n_io n_dr, rtc wakeup.step (wakeup.init n_io n_dr d0) s.

(** The data are well formed until the run is over, and then nothing is left. *)
Definition rt_inv (s : wakeup.sys) : Prop :=
  let d := wakeup.local s in
  match wakeup.spos s with
  | wakeup.Done => held d = [] /\ cq_rep kc (__cq_ (st d)) [] /\ todo d = [] /\ kept d
  | _ => wf d
  end.

Lemma wf_run_some stop d d' : wf d -> rt_run_some stop d d' -> wf d'.
Proof.
  intros Hwf (fuel & s & new & E & Hsq & ->). destruct (run_some_runs d stop Hwf) as [n Hn].
  destruct (Hn (max n fuel)) as (s' & new' & E' & Hwf'); [lia|].
  apply (run_some_grows _ _ _ _ fuel (max n fuel)) in E; [|lia]. rewrite E in E'. injection E' as <-.
  pose proof (sq_rep_fun _ _ _ _ Hsq (wf_sq _ Hwf')) as En. apply app_inv_head in En as ->. exact Hwf'.
Qed.

Lemma wf_after_enter d d' : wf d -> rt_after_enter d d' -> wf d'.
Proof.
  intros Hwf (rc & errno & n & q & es & s & c & Hr & Hq & Hes & E & ->). rewrite (after_enter_books d rc errno n q es Hwf Hr) in E.
  injection E as <-. by apply visited_wf.
Qed.

Lemma wf_finish d d' : wf d -> rt_finish d d' ->
  held d' = [] /\ cq_rep kc (__cq_ (st d')) [] /\ todo d' = [] /\ kept d'.
Proof.
  intros Hwf (fuel & rc & errno & n & q & es & s & Hr & Hes & E & ->). destruct (drain_ends d rc errno n q es Hwf Hr Hes) as [n0 Hn0].
  apply (drain_grows _ _ _ _ fuel (max n0 fuel)) in E; [|lia].
  specialize (Hn0 (max n0 fuel) ltac:(lia)). cbv zeta in Hn0.
  destruct (decide (length (ended (posted d ++ es)) = length (held d))); [|congruence].
  destruct Hn0 as (s' & E' & Ho & Hcq & Hk). rewrite E in E'. injection E' as <-. split_and!; [done..|].
  by destruct Hk; split.
Qed.

Lemma rt_inv_step (s s' : wakeup.sys) : rt_inv s -> wakeup.step s s' -> rt_inv s'.
Proof.
  intros Hi Hs. destruct Hs as [| | |s b p d h Hs]; try exact Hi. unfold rt_inv in *. cbn [wakeup.spos wakeup.local] in *.
  destruct Hs; try (destruct final); try exact Hi;
    try (match goal with |- context [if ?b then _ else _] => destruct b end; exact Hi); try (by eapply wf_append_io); try (by eapply wf_append_dr);
    try (by eapply wf_run_some); try (by eapply wf_after_enter); by eapply wf_finish.
Qed.

Lemma rt_reachable d0 (s : wakeup.sys) : reachable d0 s -> rt_inv s.
Proof. intros (Hd & n & m & Hr). by apply (invariant_rtc wakeup.step rt_inv rt_inv_step) with (wakeup.init n m d0). Qed.

Lemma running_wf d0 (s : wakeup.sys) : reachable d0 s -> wakeup.spos s <> wakeup.Done -> wf (wakeup.local s).
Proof. intros Hr Hp. pose proof (rt_reachable d0 s Hr) as Hi. unfold rt_inv in Hi. by destruct (wakeup.spos s). Qed.

(** Every request pushed is with the scheduler, in its hand or waits. *)
Lemma requests_conserved d0 (s : wakeup.sys) : reachable d0 s ->
  (io_given (reqs d0) ++ dr_given (reqs d0)) ++ wakeup.pushed s ≡ₚ
    (io_given (reqs (wakeup.local s)) ++ dr_given (reqs (wakeup.local s))) ++
    wakeup.in_hand (wakeup.spos s) ++ wakeup.waiting (wakeup.sh s).
Proof. intros (_ & n & m & Hr). exact (wakeup.conserved n m d0 s Hr). Qed.

(** C3: at every point of a run, with any number of threads submitting, while no
    cancellation is queued, the functions of the tasks return, and the kernel
    answers as it is documented to (an answer that the code does not go on after
    ends the run): the total counts exactly the operations that were entered and have
    not ended, each of which is held once and has a place in the completion queue;
    the new ones are those in the submission ring; completions are of operations
    held.  No request is lost: every one that was pushed waits on a remote
    queue, is being moved, or was given to the scheduler; an operation given to it
    was asked for its entry or is in the pending queue, a timer command was carried
    out, or stopped, or is in its pending queue ([kept]). *)
Theorem whole_run_accounts d0 (s : wakeup.sys) : reachable d0 s -> wakeup.spos s <> wakeup.Done ->
  let d := wakeup.local s in
  __n_total_submit_ (st d) = Z.of_nat (length (held d)) /\ NoDup (held d) /\
  Z.of_nat (length (held d)) <= cq_entries (st d) /\ (forall p, p ∈ held d -> is_ioring (objs (st d)) p 1) /\
  __n_newly_submit_ (st d) = Z.of_nat (length (entered d)) /\ sq_rep ks (__sq_ (st d)) (entered d) /\
  cq_rep kc (__cq_ (st d)) (posted d) /\ (forall e, e ∈ posted d -> cqe_user_data e ∈ held d) /\ kept d /\
  (io_given (reqs d0) ++ dr_given (reqs d0)) ++ wakeup.pushed s ≡ₚ
    (io_given (reqs d) ++ dr_given (reqs d)) ++ wakeup.in_hand (wakeup.spos s) ++ wakeup.waiting (wakeup.sh s).
Proof.
  intros Hr Hp d. assert (wf d) as [Hk Hsq Hcq (Hn & Ht & HO & Hb & Hi) [_ Hin] _ _] by by apply (running_wf d0).
  split_and!; try done; [lia|]. exact (requests_conserved d0 s Hr).
Qed.

(** C5: a step of the scheduler's thread before the final assertion ends, if no
    cancellation is queued and the functions of the tasks return.  Accepting
    operations that are fit to be submitted puts them behind the pending ones, in
    order, and accepting timer commands behind the pending commands.  A round, with
    or without a stop request, ends with the completion queue and the commands
    consumed.  After the kernel has taken entries, or returned because of a signal or
    the time, the books are right; after any other error the program ends. *)
Theorem rounds_always_end d0 (s : wakeup.sys) : reachable d0 s -> wakeup.spos s <> wakeup.Done ->
  let d := wakeup.local s in
  (forall l l0, queued (objs (st d)) (__io_pending_ (st d)) l0 -> io_ok l d ->
     exists d', wakeup.append_io l d d' /\ queued (objs (st d')) (__io_pending_ (st d')) (l0 ++ l)) /\
  (forall l cs cl, commands (st d) cl (todo d) (alarms d) -> dr_ok l cs d ->
     exists d', wakeup.append_dr l d d' /\ commands (st d') (cl ++ l) (todo d ++ cs) (alarms d)) /\
  (forall stop, exists d', wakeup.run_some stop d d' /\ cq_rep kc (__cq_ (st d')) [] /\
     commands (st d') [] [] (alarms d') /\ kept d') /\
  (forall rc errno n q es, kernel_returns d rc errno n -> sq_rep ks q (drop n (entered d)) -> posts_ok d es ->
     exists d', wakeup.after_enter d d' /\ entered d' = drop n (entered d) /\ posted d' = posted d ++ es /\
       __n_newly_submit_ (st d') = Z.of_nat (length (entered d'))) /\
  (forall rc errno q es, rc = -1 -> 0 < errno -> errno <> EINTR -> errno <> ETIME ->
     (during_call kernel q es;; after_enter (__io_uring_enter rc errno)) (st d) = Fault Terminate).
Proof.
  intros Hr Hp d. assert (wf d) as Hwf by by apply (running_wf d0). split_and!.
  - intros l l0 Hq (Hnd & Hl & Hdj).
    destruct (proj1 (returns_Done _ _ _) (accept_io_spec (st d) l0 l Hq Hnd Hl (Hdj l0 Hq))) as ([] & s' & E & q & m & -> & Hq' & _).
    eexists. split; [split; [by split_and!|]; eexists; by split|exact Hq'].
  - intros l cs cl Hc (Hnd & Hl & Hdj & Hs). pose proof (wf_kept d Hwf) as [(l0 & Hq & _) _ _ _].
    destruct (proj1 (returns_Done _ _ _) (accept_dr_spec (st d) l0 cl (todo d) l cs (alarms d) Hq Hc Hnd Hl (Hdj cl (proj1 Hc))))
      as ([] & s' & E & q & m & -> & _ & Hc' & _).
    eexists. split; [exists cs; split; [by split_and!|]; eexists; by split|exact Hc'].
  - intros stop. destruct (run_some_runs d stop Hwf) as [n Hn]. destruct (Hn n (le_n n)) as (s' & new & E & Hwf').
    exists (after_round stop d s' new). split; [exists n, s', new; split; [exact E|]; split; [exact (wf_sq _ Hwf')|done]|].
    split; [exact (wf_cq _ Hwf')|]. pose proof (wf_kept _ Hwf') as Hk. split; [|exact Hk].
    destruct Hk as [_ (ps & cl & _ & Hc & _) _ _]. simpl in Hc. pose proof Hc as (_ & Hc2 & _).
    by apply Forall2_nil_inv_r in Hc2 as ->.
  - intros rc errno n q es Hk Hsq Hes. pose proof (visited_wf d q es n (client (st d)) Hwf Hsq Hes) as Hwf'.
    eexists. split; [exists rc, errno, n, q, es, (visited d q es n), (client (st d)); split_and!;
      [done..|by apply after_enter_books|reflexivity]|]. split_and!; [done..|]. by destruct Hwf' as [_ _ _ (? & _)].
  - intros rc errno q es Erc He H1 H2. by apply after_enter_fails.
Qed.

(** C4: when a run has ended nothing is with the kernel and no completion waits,
    no request is on a remote queue or on its way there, and every request pushed
    was given to the scheduler, once.  The operations given to it were asked for
    their entries, or are still in the pending queue ([shutdown_needs_all] says when
    some are left); the timer commands, all of them, were carried out or stopped in
    their order, the timers in the heap are those the commands carried out leave, and
    the timers' functions were called as the commands say. *)
Theorem run_ends_clean d0 (s : wakeup.sys) : reachable d0 s -> wakeup.spos s = wakeup.Done ->
  let d := wakeup.local s in
  held d = [] /\ cq_rep kc (__cq_ (st d)) [] /\ wakeup.waiting (wakeup.sh s) = [] /\
  (forall o c, wakeup.calls s !! o = Some c -> wakeup.inside c = false) /\
  (io_given (reqs d0) ++ dr_given (reqs d0)) ++ wakeup.pushed s ≡ₚ io_given (reqs d) ++ dr_given (reqs d) /\
  (exists l, queued (objs (st d)) (__io_pending_ (st d)) l /\ io_given (reqs d) ⊆+ submitted (log (st d)) ++ l) /\
  commands (st d) [] [] (alarms d) /\ Forall2 (command_of (objs (st d))) (dr_given (reqs d)) (history (reqs d)).*2 /\
  carry (origin (reqs d)) (history (reqs d)) = Some (alarms d) /\
  concat (told_of <$> history (reqs d)) `suffix_of` told (log (st d)).
Proof.
  intros Hr Hp d. pose proof (rt_reachable d0 s Hr) as Hi. unfold rt_inv in Hi. rewrite Hp in Hi.
  destruct Hi as (Hh & Hcq & Htodo & [Hio (ps & cl & Edr & Hc & Hps) Hcar Htold]).
  pose proof (requests_conserved d0 s Hr) as Hcons. destruct Hr as (_ & n & m & Hr).
  assert (wakeup.inv s) as Hi by (apply wakeup.inv_reachable; by exists n, m, d0).
  assert (wakeup.waiting (wakeup.sh s) = []) as Hw by (apply wakeup.all_drained; auto).
  rewrite Hw, Hp, !app_nil_r in Hcons. fold d in Htodo, Hc, Edr. rewrite Htodo in Hc. pose proof Hc as (_ & Hc2 & _).
  apply Forall2_nil_inv_r in Hc2 as ->. rewrite app_nil_r in Edr. split_and!; try done; [|by rewrite Edr].
  intros o c. apply wakeup.closed_outside; [apply Hi|]. by rewrite Hp.
Qed.
End local.
(** ** A run

    One operation, 192, is pending when the run starts.  While the scheduler waits
    for it in the kernel, another thread submits 64 and wakes it; the run ends
    when both have completed. *)
Module runtime_example.
Import ring_example scheduler_example.
#[local] Existing Instance ex_timer_laws.

Definition tasks0 : gmap ptr __task_facade := list_to_map [
  (64, mkFacade 0 nullptr (Ioring 0)); (192, mkFacade 0 nullptr (Ioring 0))].
Definition ring0 : __submission_queue := mkSq 0 0 [0; 1; 2; 3] (replicate 4 zero_sqe) 3 4.
Definition completions0 : __completion_queue := mkCq 0 0 (replicate 4 c1) 3.
Definition start : __scheduler nat := mkSched tasks0 (intrusive_heap.mkHeap ∅ nullptr 0)
  ring0 completions0 (mkQueue 192 192) empty_queue 0 0 4 0%nat [].
Definition data : local nat := mkLocal start [] [] [] [] (∅, ∅) (mkRequests [192] [] (∅, ∅) []).

#[local] Instance example_local : wakeup.LocalScheduler (local nat) :=
  runtime_local (ex_submit false) ex_complete ex_timer ex_kernel 2 2.
Definition example_reachable : wakeup.sys -> Prop := reachable (ex_submit false) ex_complete ex_timer ex_kernel 2 2 data.

Lemma data_kept : kept data.
Proof.
  split; [| |reflexivity|by exists []].
  - exists [192]. split; [|done]. split.
    + split; [|done]. split; [done|]. split; [done|]. by eexists.
    + intros p ->%list_elem_of_singleton. exists 0. split; [done|]. split; [done|by eexists].
  - exists [], []. split; [done|]. split; [|constructor]. split_and!; [done|constructor|].
    exists intrusive_heap.Leaf, []. split_and!; [|done|apply map_disjoint_empty_l|].
    + unfold intrusive_heap.heap_rep, intrusive_heap.hp, holds. split_and!; try done; constructor.
    + intros x k. simpl. by rewrite lookup_empty.
Qed.

Lemma data_wf : wf 2 2 data.
Proof.
  split; cbn [st entered held posted todo alarms reqs data start]; [exact data_kept|..].
  - split_and!; [split_and!; done| |done|done]. intros j e. by rewrite lookup_nil.
  - split_and!; [split_and!; done| |done|done]. intros j e. by rewrite lookup_nil.
  - split_and!; [done|done|constructor|done|done|]. intros p Hp. by apply not_elem_of_nil in Hp.
  - split; [done|]. intros e He. by apply not_elem_of_nil in He.
  - split; [apply map_disjoint_empty_l|by vm_compute].
  - by eexists.
Qed.

(** Nothing to accept. *)
Lemma accepts_nothing_io d : wakeup.append_io [] d d.
Proof.
  split; [split_and!; [constructor| |]|].
  - intros x Hx. by apply not_elem_of_nil in Hx.
  - intros l0 _ x _ Hx. by apply not_elem_of_nil in Hx.
  - exists (st d). destruct d as [[] ? ? ? ? ? []]. split; [done|]. unfold give_io. simpl. by rewrite app_nil_r.
Qed.

Lemma accepts_nothing_dr d : is_Some (settle (todo d) (alarms d)) -> wakeup.append_dr [] d d.
Proof.
  intros Hs. exists []. split; [split_and!; [constructor|constructor| |by rewrite app_nil_r]|].
  - intros l0 _ x _ Hx. by apply not_elem_of_nil in Hx.
  - exists (st d). rewrite app_nil_r. destruct d as [[] ? ? ? ? ? []]. split; [done|]. unfold give_dr. simpl. by rewrite app_nil_r.
Qed.

(** What a round, a visit to the kernel, in which it takes all entries and ends
    [es], and accepting one request leave. *)
Definition state {A} (r : outcome (A * __scheduler nat)) (d : local nat) : __scheduler nat :=
  if r is Prelude.Done (_, s) then s else st d.
Definition turn new (d : local nat) : local nat := mkLocal
  (state (_M_run_some (ex_submit false) ex_complete ex_timer ex_kernel 20 [] false (st d)) d)
  (entered d ++ new) (outstanding (held d) (ended (posted d)) ++ (user_data <$> new)) [] [] (alarms d)
  (carry_out false (todo d) (reqs d)).
Definition taken (d : local nat) : __submission_queue := let q := __sq_ (st d) in
  mkSq (u32 (sq_head q + Z.of_nat (length (entered d)))) (sq_tail q) (__array_ q) (__sqe_ q) (sq_mask q) (__n_slot_ q).
Definition visit es (d : local nat) : local nat := let n := length (entered d) in mkLocal
  (visited ex_kernel d (taken d) es n) (drop n (entered d)) (held d) (posted d ++ es) (todo d) (alarms d) (reqs d).
Definition accept l (d : local nat) : local nat :=
  mkLocal (state (accept_io l (st d)) d) (entered d) (held d) (posted d) (todo d) (alarms d)
    (give_io l (reqs d)).

Definition data1 := turn [entry 192] data.
Definition data2 := visit [c3] data1.
Definition data3 := accept [64] data2.
Definition data4 := turn [entry 64] data3.
Definition data5 := visit [mkCqe 64 1 0] data4.
Definition data6 := turn [] data5.
Definition data7 := mkLocal (state (drain (ex_submit false) ex_complete ex_timer ex_kernel 20 ring0 [] (- 1) EINTR []
  (st data6)) data6) [] [] [] [] (∅, ∅) (mkRequests [192; 64] [] (∅, ∅) []).

Ltac sq_done := split_and!; [split_and!; done| |done|done]; intros [|j] e He; [first [done|by injection He as <-]|done].

Lemma round1 : wakeup.run_some false data data1.
Proof. eexists 20%nat, _, [entry 192]. split; [vm_compute; reflexivity|]. split; [sq_done|reflexivity]. Qed.
Lemma round2 : wakeup.run_some false data3 data4.
Proof. eexists 20%nat, _, [entry 64]. split; [vm_compute; reflexivity|]. split; [sq_done|reflexivity]. Qed.
Lemma round3 : wakeup.run_some false data5 data6.
Proof.
  eexists 20%nat, _, []. split; [vm_compute; reflexivity|]. split; [|reflexivity].
  split_and!; [split_and!; done| |done|done]. intros j e He. done.
Qed.
Lemma posts_one (d : local nat) e : posted d = [] -> cqe_user_data e ∈ held d -> posts_ok 2 d [e].
Proof.
  intros E He. unfold posts_ok. rewrite E. split; [done|]. split; [split; [intros _; apply not_elem_of_nil|done]|].
  by intros x ->%list_elem_of_singleton.
Qed.

(** The kernel takes the one entry and ends an operation. *)
Lemma visit_takes (d : local nat) e i : length (entered d) = 1%nat -> posted d = [] -> cqe_user_data e ∈ held d ->
  (during_call ex_kernel (taken d) [e];; after_enter (__io_uring_enter 1 0)) (st d) =
    Done (tt, visited ex_kernel d (taken d) [e] 1) ->
  sq_rep 2 (taken d) [] -> i = visit [e] d -> wakeup.after_enter d i.
Proof.
  intros En Ep He E Hq ->. exists 1, 0, 1%nat, (taken d), [e], (visited ex_kernel d (taken d) [e] 1), (client (st d)).
  unfold visit. rewrite En. split; [apply (took d 1); lia|]. destruct (entered d) as [|? []]; try done.
  split_and!; [done|by apply posts_one|exact E|done].
Qed.

Ltac visits e := eapply (visit_takes _ e);
  [done|done|by apply list_elem_of_singleton|vm_compute; reflexivity| |reflexivity];
  split_and!; [split_and!; done| |done|done]; intros j x Hj; by rewrite lookup_nil in Hj.

Lemma visit1 : wakeup.after_enter data1 data2.
Proof. visits c3. Qed.
Lemma visit2 : wakeup.after_enter data4 data5.
Proof. visits (mkCqe 64 1 0). Qed.

Lemma accept1 : wakeup.append_io [64] data2 data3.
Proof.
  split; [split_and!|].
  - by apply NoDup_singleton.
  - intros x ->%list_elem_of_singleton. exists 0. split; [done|]. split; [done|by eexists].
  - intros l0 [[Hl _] _] x Hx _. destruct l0 as [|y l0]; [by apply not_elem_of_nil in Hx|].
    by destruct Hl as (E & Hy & _).
  - eexists. split; [vm_compute; reflexivity|reflexivity].
Qed.

Lemma finish1 : wakeup.finish data6 data7.
Proof.
  exists 20%nat, (- 1), EINTR, 0%nat, ring0, []. eexists. split; [by apply interrupted|]. split.
  - split; [done|]. split; [done|]. intros e He. by apply not_elem_of_nil in He.
  - split; [vm_compute; reflexivity|reflexivity].
Qed.

(** Pieces of a run with one remote queue of each kind. *)
Section pieces.
Import wakeup.
Context (calls : gmap nat pc) (pu : list ptr) (w e : nat) (n ev : Z).
Implicit Types (v : _Sg) (d : runtime.local nat) (l : list ptr).

Abbreviation on v io p d := (mkSys (mkShared v n None [io] [[]] ev false) calls p d pu w e).

Ltac thread c := eapply rtc_l; [eapply (step_sched _ false); eapply c; first [done|eassumption]|].

Lemma accept_steps v (final : bool) l d d' : append_io (reverse l) d d' -> append_dr [] d' d' ->
  rtc step (on v l (AcceptIo final 0 []) d) (on v [] (if final then Finish else RunSome) d').
Proof.
  intros H1 H2. thread visit_io. cbn [set_queue insert list_insert sh spos local].
  thread append_io_pending. thread visit_dr. thread append_dr_pending. cbn. apply rtc_refl.
Qed.

Lemma sleep_steps d d' io : run_some false d d' -> (__n_total_submit_ (st d') =? 0) = false ->
  rtc step (on _S_run io RunSome d)
    (mkSys (mkShared _S_sleep n None [io] [[]] ev false) calls InKernel d' pu 0 (S e)).
Proof.
  intros H1 H2. thread run_some_step. thread test_done. cbn. rewrite H2, andb_false_r. cbn [orb].
  thread enter_lock. thread enter_cas. thread enter_unlock. cbn. apply rtc_refl.
Qed.

Lemma wake_steps v io d d' : after_enter d d' ->
  rtc step (on v io InKernel d) (on _S_run io (AcceptIo false 0 []) d').
Proof. intros H1. thread kernel_returns. thread store_run. cbn. apply rtc_refl. Qed.

Lemma close_steps v d d' : run_some false d d' -> (__n_total_submit_ (st d') =? 0) = true -> n = 0 ->
  rtc step (on v [] RunSome d)
    (mkSys (mkShared v (-1) None [[]] [[]] ev false) calls (AcceptIo true 0 []) d' pu w e).
Proof.
  intros H1 H2 ->. thread run_some_step. thread test_done. cbn. rewrite H2. cbn [orb].
  eapply rtc_l; [eapply (step_sched _ false); by eapply (close false 0 true 0)|]. cbn. apply rtc_refl.
Qed.

Lemma finish_steps v d d' : finish d d' ->
  rtc step (on v [] Finish d) (on v [] Done d').
Proof. intros H1. thread finish_step. cbn. apply rtc_refl. Qed.
End pieces.

(** Thread 0 moves. *)
Lemma call_moves c c' h h' p d pu w e : wakeup.call_step false 0 c h = Some (c', h') ->
  wakeup.step (wakeup.mkSys h {[0%nat := c]} p d pu w e)
    (wakeup.mkSys h' {[0%nat := c']} p d (pu ++ wakeup.pushes c) (w + wakeup.writes c)%nat e).
Proof.
  intros E. pose proof (wakeup.step_call (wakeup.mkSys h {[0%nat := c]} p d pu w e) 0 false c c' h') as H.
  cbn [wakeup.calls wakeup.sh wakeup.spos wakeup.local wakeup.pushed wakeup.wakes wakeup.entries] in H.
  rewrite insert_singleton_eq in H. apply H; [by rewrite lookup_singleton_eq|exact E].
Qed.

(** Thread 0 submits [x] while the scheduler is asleep. *)
Lemma submit_steps x d :
  rtc wakeup.step (wakeup.mkSys (wakeup.mkShared wakeup._S_sleep 0 None [[]] [[]] 0 false) ∅ wakeup.InKernel d [] 0 1)
    (wakeup.mkSys (wakeup.mkShared wakeup._S_notify 0 None [[x]] [[]] 1 false) {[0%nat := wakeup.Ret true]}
      wakeup.InKernel d [x] 1 1).
Proof.
  eapply rtc_l; [by eapply (wakeup.step_submit _ 0 (wakeup.Io 0) x)|].
  do 7 (eapply rtc_l; [by apply call_moves|]).
  apply rtc_refl.
Qed.

(** Asleep for the first time. *)
Definition sleeping : wakeup.sys (L := local nat) :=
  wakeup.mkSys (wakeup.mkShared wakeup._S_sleep 0 None [[]] [[]] 0 false) ∅ wakeup.InKernel data1 [] 0 1.
Definition ended_run : wakeup.sys (L := local nat) :=
  wakeup.mkSys (wakeup.mkShared wakeup._S_run (-1) None [[]] [[]] 1 false) {[0%nat := wakeup.Ret true]}
    wakeup.Done data7 [64] 0 2.

Lemma settled_dr (d : local nat) : settle (todo d) (alarms d) = Some (∅, ∅) -> wakeup.append_dr [] d d.
Proof. intros E. apply accepts_nothing_dr. by eexists. Qed.

Lemma falls_asleep : rtc wakeup.step (wakeup.init 1 1 data) sleeping.
Proof.
  etrans; [apply (accept_steps ∅ [] 0 0 0 0 _ false []); [exact (accepts_nothing_io _)|apply settled_dr; vm_compute; reflexivity]|].
  apply (sleep_steps ∅ [] 0 0 0 0 _ data1); [exact round1|vm_compute; reflexivity].
Qed.

Lemma whole_run : rtc wakeup.step (wakeup.init 1 1 data) ended_run.
Proof.
  etrans; [exact falls_asleep|].
  etrans; [apply submit_steps|].
  etrans; [apply (wake_steps _ [64] 1 1 0 1 _ _ _ data2); apply visit1|].
  etrans; [apply (accept_steps _ [64] 1 1 0 1 _ false [64] _ data3); [exact accept1|apply settled_dr; vm_compute; reflexivity]|].
  etrans; [apply (sleep_steps _ [64] 1 1 0 1 _ data4); [exact round2|vm_compute; reflexivity]|].
  etrans; [apply (wake_steps _ [64] 0 2 0 1 _ _ _ data5); apply visit2|].
  etrans; [apply (accept_steps _ [64] 0 2 0 1 _ false []); [exact (accepts_nothing_io _)|apply settled_dr; vm_compute; reflexivity]|].
  etrans; [apply (close_steps _ [64] 0 2 0 1 _ _ data6); [exact round3|vm_compute; reflexivity|reflexivity]|].
  etrans; [apply (accept_steps _ [64] 0 2 (-1) 1 _ true []); [exact (accepts_nothing_io _)|apply settled_dr; vm_compute; reflexivity]|].
  apply (finish_steps _ [64] 0 2 (-1) 1); exact finish1.
Qed.
Lemma sleeping_reachable : example_reachable sleeping.
Proof. split; [exact data_wf|]. exists 1%nat, 1%nat. exact falls_asleep. Qed.
Lemma ended_reachable : example_reachable ended_run.
Proof. split; [exact data_wf|]. exists 1%nat, 1%nat. exact whole_run. Qed.

Lemma whole_run_accounts_witness : example_reachable sleeping /\
  __n_total_submit_ (st data1) = 1 /\ held data1 = [192] /\
  __n_newly_submit_ (st data1) = Z.of_nat (length (entered data1)) /\ sq_rep 2 (__sq_ (st data1)) (entered data1) /\
  (forall e, e ∈ posted data1 -> cqe_user_data e ∈ held data1) /\ kept data1 /\
  submitted (log (st data1)) = [192] /\ io_given (reqs data1) = [192].
Proof.
  split; [exact sleeping_reachable|].
  destruct (whole_run_accounts (ex_submit false) ex_complete ex_timer ex_kernel 2 2 (fun p => false && (p =? 512))
    (fun c => c) ex_kernel_law (fun p => eq_refl) data sleeping sleeping_reachable) as (H1 & _ & _ & _ & H5 & H6 & _ & H8 & H9 & _);
    [discriminate|]. split; [exact H1|]. split; [vm_compute; reflexivity|]. split; [exact H5|]. split; [exact H6|].
  split; [exact H8|]. split; [exact H9|]. split; vm_compute; reflexivity.
Defined.

Lemma rounds_always_end_witness : example_reachable sleeping /\
  (exists d', wakeup.run_some true data1 d' /\ kept d') /\
  (exists d', wakeup.after_enter data1 d' /\ entered d' = [entry 192] /\ posted d' = []) /\
  (during_call ex_kernel ring0 [];; after_enter (__io_uring_enter (- 1) 9)) (st data1) = Fault Terminate.
Proof.
  split; [exact sleeping_reachable|].
  destruct (rounds_always_end (ex_submit false) ex_complete ex_timer ex_kernel 2 2 (fun p => false && (p =? 512))
    (fun c => c) ex_kernel_law (fun p => eq_refl) data sleeping sleeping_reachable) as (_ & _ & H3 & H4 & H5);
    [discriminate|]. split; [destruct (H3 true) as (d' & ? & _ & _ & ?); by exists d'|]. split.
  - destruct (H4 (- 1) EINTR 0%nat (__sq_ (st data1)) []) as (d' & H6 & H7 & H8 & _); [exact (interrupted data1)| | |].
    + split_and!; [split_and!; done| |done|done]. intros [|j] x Hx; [by injection Hx as <-|done].
    + split; [done|]. split; [done|]. intros e He. by apply not_elem_of_nil in He.
    + exists d'. split; [exact H6|]. split; [exact H7|exact H8].
  - apply (H5 (- 1) 9); [reflexivity|lia|discriminate|discriminate].
Defined.

Lemma run_ends_clean_witness : example_reachable ended_run /\ held data7 = [] /\
  cq_rep 2 (__cq_ (st data7)) [] /\ [192; 64] ≡ₚ [192; 64] ++ [] /\ submitted (log (st data7)) = [192; 64] /\
  (exists l, queued (objs (st data7)) (__io_pending_ (st data7)) l /\ [192; 64] ⊆+ submitted (log (st data7)) ++ l) /\
  forall o c, ({[0%nat := wakeup.Ret true]} : gmap nat wakeup.pc) !! o = Some c -> wakeup.inside c = false.
Proof.
  split; [exact ended_reachable|].
  destruct (run_ends_clean (ex_submit false) ex_complete ex_timer ex_kernel 2 2 (fun p => false && (p =? 512))
    (fun c => c) ex_kernel_law (fun p => eq_refl) data ended_run ended_reachable eq_refl) as (H1 & H2 & _ & H4 & H5 & H6 & _).
  split; [exact H1|]. split; [exact H2|]. split; [exact H5|]. split; [vm_compute; reflexivity|]. split; [exact H6|exact H4].
Defined.
End runtime_example.
End runtime.
