(* ===== verification/Receive.v ===== *)
(** * [main.cxx]: receiving with a ring of provided buffers

    [__async_receive] keeps one multishot receive outstanding on a socket and
    shares 256 slots of 4096 bytes with the kernel through a buffer ring in
    incremental mode: the kernel packs consecutive receives into one slot and
    says with each completion whether it will go on in that slot.  The awaitable
    hands the coroutine a view of every piece, mirrors the kernel's position in
    [__cur_offset_], and gives a used-up slot back at the next [await_suspend].

    Module [receive] models the awaitable, and the kernel's side of the ring as
    io_uring documents it: a receive takes the entry at the head, writes at its
    address and either advances address and length of the entry or, when the
    entry is used up, consumes it. *)

From S2P Require Import Prelude Tasks.
Import tasks (io_uring_sqe, mkSqe, zero_sqe, io_uring_cqe, mkCqe, res, cqe_flags, IORING_CQE_F_MORE).

Module receive.

(** ** Data *)

Definition __nr_bufs_ : Z := 256.
Definition __buf_size_ : Z := 4096.
Definition __mask_ : Z := __nr_bufs_ - 1.

(** Constants of the kernel's headers. *)
Definition MAP_FAILED : ptr := 2 ^ 64 - 1.
Definition ENOBUFS : Z := 105.
Definition IORING_OP_RECV : Z := 27.
Definition IOSQE_BUFFER_SELECT : Z := 32.
Definition IORING_RECV_MULTISHOT : Z := 2.
Definition IORING_CQE_F_BUFFER : Z := 1.
Definition IORING_CQE_F_BUF_MORE : Z := 16.
Definition IORING_CQE_BUFFER_SHIFT : Z := 16.

(** [::io_uring_buf] and [::io_uring_buf_ring]; [tail] has 16 bits. *)
Record io_uring_buf := mkBuf { addr : Z; len : Z; bid : Z }.
Record io_uring_buf_ring := mkRing { bufs : list io_uring_buf; tail : Z }.

Record __async_receive := mkOp {
  __buf_mem_ : ptr;
  __bgid_ : Z;
  __rfd_ : Z;
  __multishot_live_ : bool;
  __bid_ : Z;
  __offset_ : Z;
  __len_ : Z;
  __buf_more_ : bool;
  __cur_offset_ : Z;
  __replenish_pending_ : bool;
  __replenish_bid_ : Z;
  __resume_ : ptr
}.

(** The object with its ring, the thread's [__callback_] (null, or the function
    that submits [__arg_], which is this object), and how often the object is in
    the scheduler's queue of submissions. *)
Record receiver := mkReceiver {
  __ring_ : io_uring_buf_ring; self : __async_receive; __callback_ : bool; submitted : nat
}.

(** ** Ring helpers *)

Definition _M_slot (o : __async_receive) (__bid : Z) : ptr :=
  u64 (__buf_mem_ o + u32 (__bid * __buf_size_)).

Definition _M_replenish (o : __async_receive) (__bid : Z) (g : io_uring_buf_ring) : io_uring_buf_ring :=
  let __tail := tail g in
  mkRing (<[Z.to_nat (Z.land __tail __mask_) := mkBuf (_M_slot o __bid) __buf_size_ __bid]> (bufs g))
    (u16 (u32 (__tail + 1))).

(** [for (__u32 __i = 0; __i < __nr_bufs_; ++__i)] *)
Fixpoint setup_loop (fuel : nat) (o : __async_receive) (__i : Z) (b : list io_uring_buf) : list io_uring_buf :=
  match fuel with
  | O => b
  | S fuel =>
      if __i <? __nr_bufs_ then
        setup_loop fuel o (u32 (__i + 1))
          (<[Z.to_nat __i := mkBuf (_M_slot o (u16 __i)) __buf_size_ (u16 __i)]> b)
      else b
  end.

(** [buf_mem], [ring_mem]: what the two calls of [mmap] return (fresh memory is
    zero); [rc]: the result of [io_uring_register].  The constructor is
    [noexcept], an error ends the program. *)
Definition _M_setup_ring (fuel : nat) (buf_mem ring_mem : ptr) (rc : Z) (__fd __s : Z) :
    outcome (__async_receive * io_uring_buf_ring) :=
  if decide (buf_mem = MAP_FAILED) then Fault Terminate
  else if decide (ring_mem = MAP_FAILED) then Fault Terminate
  else if rc <? 0 then Fault Terminate
  else
    let o := mkOp buf_mem __s __fd false 0 0 0 false 0 false 0 nullptr in
    Done (o, mkRing (setup_loop fuel o 0 (replicate 256 (mkBuf 0 0 0))) (u16 __nr_bufs_)).

(** ** The functions of the task *)

Definition __submit (o : __async_receive) (__sqe : io_uring_sqe) : __async_receive * io_uring_sqe :=
  let __sqe := zero_sqe in
  (mkOp (__buf_mem_ o) (__bgid_ o) (__rfd_ o) true (__bid_ o) (__offset_ o) (__len_ o) (__buf_more_ o)
     (__cur_offset_ o) (__replenish_pending_ o) (__replenish_bid_ o) (__resume_ o),
   mkSqe IORING_OP_RECV (Z.lor (tasks.sqe_flags __sqe) IOSQE_BUFFER_SELECT)
     (Z.lor (tasks.ioprio __sqe) IORING_RECV_MULTISHOT) (__rfd_ o) (tasks.off __sqe) (tasks.sqe_addr __sqe) 0
     (tasks.accept_flags __sqe) (__bgid_ o) (tasks.user_data __sqe)).

(** What [__complete] ends with: nothing, [__k_schd._M_submit(__op)], or
    [__op->_M_do_execute()]. *)
Inductive action := Return | Resubmit | Execute.

Definition __complete (o : __async_receive) (__cqe : io_uring_cqe) : __async_receive * action :=
  if decide (res __cqe = - ENOBUFS) then
    (mkOp (__buf_mem_ o) (__bgid_ o) (__rfd_ o) false (__bid_ o) (__offset_ o) (__len_ o) (__buf_more_ o)
       0 (__replenish_pending_ o) (__replenish_bid_ o) (__resume_ o), Resubmit)
  else if decide (res __cqe <= 0) then (o, Return)
  else
    let __buf_more := bool_decide (Z.land (cqe_flags __cqe) IORING_CQE_F_BUF_MORE <> 0) in
    let live := if decide (Z.land (cqe_flags __cqe) IORING_CQE_F_MORE = 0) then false else __multishot_live_ o in
    let bid := u16 (Z.shiftr (cqe_flags __cqe) IORING_CQE_BUFFER_SHIFT) in
    let len := u32 (res __cqe) in
    if (__buf_more : bool) then
      (mkOp (__buf_mem_ o) (__bgid_ o) (__rfd_ o) live bid (__cur_offset_ o) len __buf_more
         (u32 (__cur_offset_ o + len)) (__replenish_pending_ o) (__replenish_bid_ o) (__resume_ o), Execute)
    else
      (mkOp (__buf_mem_ o) (__bgid_ o) (__rfd_ o) live bid (__cur_offset_ o) len __buf_more
         0 true bid (__resume_ o), Execute).

(** ** The awaitable *)

(** [__task_facade::__register] with this object: what [__callback_] is then. *)
Definition __register : bool := true.

Definition await_suspend (__coro : ptr) (r : receiver) : receiver :=
  let o := self r in
  let g := if __replenish_pending_ o then _M_replenish o (__replenish_bid_ o) (__ring_ r) else __ring_ r in
  mkReceiver g
    (mkOp (__buf_mem_ o) (__bgid_ o) (__rfd_ o) (__multishot_live_ o) (__bid_ o) (__offset_ o) (__len_ o)
       (__buf_more_ o) (__cur_offset_ o) false (__replenish_bid_ o) __coro)
    (if __multishot_live_ o then __callback_ r else __register) (submitted r).

Definition await_resume (o : __async_receive) : ptr * Z := (u64 (_M_slot o (__bid_ o) + __offset_ o), __len_ o).

(** The end of [_M_do_execute]: the registered function, once. *)
Definition run_callback (r : receiver) : receiver :=
  if __callback_ r then mkReceiver (__ring_ r) (self r) false (S (submitted r)) else r.

(** ** The system

    [cq]: the completions the kernel has posted and the scheduler has not yet
    delivered, each with the range the kernel wrote (a ghost); [reading]: the
    view the running coroutine has, with the range it ought to be; [ended]: an
    end of file or an error has been delivered. *)
Record sys := mkSys {
  recv : receiver;
  khead : Z;
  armed : bool;
  cq : list (io_uring_cqe * (ptr * Z));
  reading : option ((ptr * Z) * (ptr * Z));
  ended : bool
}.

(** *** The kernel *)
Definition recv_flags (b : Z) (more buf_more : bool) : Z :=
  Z.lor (Z.shiftl b IORING_CQE_BUFFER_SHIFT)
    (Z.lor IORING_CQE_F_BUFFER
      (Z.lor (if more then IORING_CQE_F_MORE else 0) (if buf_more then IORING_CQE_F_BUF_MORE else 0))).

Definition head_index (s : sys) : nat := Z.to_nat (Z.land (khead s) __mask_).

Definition set_ring (g : io_uring_buf_ring) (r : receiver) : receiver :=
  mkReceiver g (self r) (__callback_ r) (submitted r).
Definition set_self (o : __async_receive) (r : receiver) : receiver :=
  mkReceiver (__ring_ r) o (__callback_ r) (submitted r).

(** A receive of [n] bytes into the entry [e] at the head of the ring. *)
Definition kernel_receive (n : Z) (more : bool) (e : io_uring_buf) (s : sys) : sys :=
  let g := __ring_ (recv s) in
  let buf_more := bool_decide (n < len e) in
  let cqe := mkCqe 0 n (recv_flags (bid e) more buf_more) in
  mkSys
    (if buf_more then
       set_ring (mkRing (<[head_index s := mkBuf (addr e + n) (len e - n) (bid e)]> (bufs g)) (tail g)) (recv s)
     else recv s)
    (if buf_more then khead s else u16 (khead s + 1)) more (cq s ++ [(cqe, (addr e, n))]) (reading s) (ended s).

Definition kernel_ends (v : Z) (s : sys) : sys :=
  mkSys (recv s) (khead s) false (cq s ++ [(mkCqe 0 v 0, (0, 0))]) (reading s) (ended s).

(** *** The scheduler's thread *)
Definition deliver (c : io_uring_cqe) (w : ptr * Z) (rest : list (io_uring_cqe * (ptr * Z))) (s : sys) : sys :=
  let '(o, a) := __complete (self (recv s)) c in
  let r := set_self o (recv s) in
  match a with
  | Return => mkSys r (khead s) (armed s) rest None true
  | Resubmit => mkSys (mkReceiver (__ring_ r) o (__callback_ r) (S (submitted r))) (khead s) (armed s) rest None (ended s)
  | Execute => mkSys r (khead s) (armed s) rest (Some (await_resume o, w)) (ended s)
  end.

Inductive step (s : sys) : sys -> Prop :=
  | step_receive n more e : armed s = true -> khead s <> tail (__ring_ (recv s)) ->
      bufs (__ring_ (recv s)) !! head_index s = Some e -> 0 < n <= len e ->
      step s (kernel_receive n more e s)
  | step_no_buffer : armed s = true -> khead s = tail (__ring_ (recv s)) -> step s (kernel_ends (- ENOBUFS) s)
  | step_end v : armed s = true -> v <= 0 -> v <> - ENOBUFS -> step s (kernel_ends v s)
  | step_submit k : reading s = None -> submitted (recv s) = S k ->
      step s (mkSys (mkReceiver (__ring_ (recv s)) (fst (__submit (self (recv s)) zero_sqe))
                       (__callback_ (recv s)) k)
                (khead s) true (cq s) None (ended s))
  | step_deliver c w rest : reading s = None -> cq s = (c, w) :: rest -> step s (deliver c w rest s)
  | step_await v coro : reading s = Some v -> coro <> nullptr ->
      step s (mkSys (run_callback (await_suspend coro (recv s))) (khead s) (armed s) (cq s) None (ended s)).

(** The coroutine has constructed the object and awaits it for the first time. *)
Definition start (o : __async_receive) (g : io_uring_buf_ring) (coro : ptr) : sys :=
  mkSys (run_callback (await_suspend coro (mkReceiver g o false 0))) 0 false [] None false.

Definition initial (s : sys) : Prop := exists buf_mem ring_mem rc fd bgid o g coro,
  0 < buf_mem /\ buf_mem + __nr_bufs_ * __buf_size_ <= 2 ^ 64 - 1 /\ coro <> nullptr /\
  _M_setup_ring 256 buf_mem ring_mem rc fd bgid = Done (o, g) /\ s = start o g coro.
Definition reachable (s : sys) : Prop := exists s0, initial s0 /\ rtc step s0 s.

(** ** Numbers *)

Section numbers.
Implicit Types (b n : Z) (m k : bool).

Lemma land_shiftl_low b j : 0 <= j < 16 -> Z.land (Z.shiftl b 16) (2 ^ j) = 0.
Proof.
  intros Hj. apply Z.bits_inj'. intros i Hi. rewrite Z.land_spec, Z.bits_0, Z.pow2_bits_eqb by lia.
  destruct (Z.eqb_spec j i) as [->|]; [|by rewrite andb_false_r].
  rewrite Z.shiftl_spec_low by lia. done.
Qed.

Lemma recv_flags_low b m k j : 0 <= j < 16 -> Z.land (recv_flags b m k) (2 ^ j) =
  Z.land (Z.lor IORING_CQE_F_BUFFER
      (Z.lor (if m then IORING_CQE_F_MORE else 0) (if k then IORING_CQE_F_BUF_MORE else 0))) (2 ^ j).
Proof. intros. unfold recv_flags. rewrite Z.land_lor_distr_l, land_shiftl_low by done. by rewrite Z.lor_0_l. Qed.

Lemma recv_flags_more b m k :
  Z.land (recv_flags b m k) IORING_CQE_F_MORE = if m then IORING_CQE_F_MORE else 0.
Proof. change IORING_CQE_F_MORE with (2 ^ 1) at 1. rewrite recv_flags_low by lia. by destruct m, k. Qed.

Lemma recv_flags_buf_more b m k :
  Z.land (recv_flags b m k) IORING_CQE_F_BUF_MORE = if k then IORING_CQE_F_BUF_MORE else 0.
Proof. change IORING_CQE_F_BUF_MORE with (2 ^ 4) at 1. rewrite recv_flags_low by lia. by destruct m, k. Qed.

Lemma recv_flags_bid b m k : 0 <= b < 65536 ->
  u16 (Z.shiftr (recv_flags b m k) IORING_CQE_BUFFER_SHIFT) = b.
Proof.
  intros Hb. unfold recv_flags. rewrite Z.shiftr_lor, Z.shiftr_shiftl_l by done.
  replace (Z.shiftr _ IORING_CQE_BUFFER_SHIFT) with 0 by by destruct m, k.
  rewrite Z.lor_0_r. by apply wrap_small.
Qed.
End numbers.


(** ** The ring

    [ring_ok mem g kh q koff]: the kernel, which has consumed up to [kh], still
    has the slots [q] in the pool at [mem], in this order, and has filled [koff]
    bytes of the first. *)
Definition slot_at (mem b : Z) : ptr := mem + b * __buf_size_.
Definition filled (koff : Z) (i : nat) : Z := if decide (i = 0%nat) then koff else 0.

Definition entries (mem : Z) (bs : list io_uring_buf) (h : Z) (q : list Z) (koff : Z) : Prop :=
  forall i b, q !! i = Some b -> bs !! Z.to_nat ((h + Z.of_nat i) mod 256) =
    Some (mkBuf (slot_at mem b + filled koff i) (__buf_size_ - filled koff i) b).

Record ring_ok (mem : Z) (g : io_uring_buf_ring) (kh : Z) (q : list Z) (koff : Z) : Prop := {
  rk_pos : exists h, 0 <= h /\ kh = u16 h /\ tail g = u16 (h + Z.of_nat (length q)) /\ entries mem (bufs g) h q koff;
  rk_size : length (bufs g) = 256%nat;
  rk_len : (length q <= 256)%nat;
  rk_off : 0 <= koff < __buf_size_;
  rk_empty : q = [] -> koff = 0
}.

Lemma index_mod h : Z.land (u16 h) __mask_ = h mod 256.
Proof. change __mask_ with (2 ^ 8 - 1). rewrite land_pow2_mask by lia. by rewrite wrap_mod_pow2 by lia. Qed.

Lemma ring_nonempty mem g kh q koff : ring_ok mem g kh q koff -> kh <> tail g <-> q <> [].
Proof.
  intros [(h & Hh & -> & -> & _) _ Hl _ _]. destruct q as [|b q].
  - simpl. rewrite Z.add_0_r. tauto.
  - split; [done|]. intros _ E. unfold wrap in E.
    assert (((h + Z.of_nat (length (b :: q))) - h) mod 2 ^ 16 = 0) as E2.
    { rewrite Zminus_mod, <- E, Z.sub_diag. done. }
    replace (h + Z.of_nat (length (b :: q)) - h) with (Z.of_nat (length (b :: q))) in E2 by lia.
    rewrite Z.mod_small in E2 by lia. done.
Qed.

Lemma ring_first mem g kh b q koff : ring_ok mem g kh (b :: q) koff ->
  bufs g !! Z.to_nat (Z.land kh __mask_) = Some (mkBuf (slot_at mem b + koff) (__buf_size_ - koff) b).
Proof.
  intros [(h & Hh & -> & _ & He) _ _ _ _]. rewrite index_mod.
  pose proof (He 0%nat b eq_refl) as E. by rewrite Z.add_0_r in E.
Qed.

(** Different positions of a ring that is not overfull are different entries. *)
Lemma index_ne h i j : 0 <= h -> (i < 256)%nat -> (j < 256)%nat -> i <> j ->
  Z.to_nat ((h + Z.of_nat i) mod 256) <> Z.to_nat ((h + Z.of_nat j) mod 256).
Proof.
  intros Hh Hi Hj Hne E. apply Z2Nat.inj in E; [|apply Z.mod_pos_bound; lia..].
  assert (((h + Z.of_nat i) - (h + Z.of_nat j)) mod 256 = 0) as E2.
  { rewrite Zminus_mod, E, Z.sub_diag. done. }
  replace (h + Z.of_nat i - (h + Z.of_nat j)) with (Z.of_nat i - Z.of_nat j) in E2 by lia.
  apply Z.mod_divide in E2 as [z E2]; [|done]. assert (z = 0) by lia. lia.
Qed.

Lemma ring_advance mem g kh b q koff n : ring_ok mem g kh (b :: q) koff -> 0 < n -> koff + n < __buf_size_ ->
  ring_ok mem (mkRing (<[Z.to_nat (Z.land kh __mask_) := mkBuf (slot_at mem b + koff + n) (__buf_size_ - koff - n) b]>
    (bufs g)) (tail g)) kh (b :: q) (koff + n).
Proof.
  intros [(h & Hh & -> & Ht & He) Hs Hl Ho _] Hn Hk. split; simpl; try done; [|by rewrite length_insert|lia].
  exists h. split_and!; [done..|]. intros i c Hi.
  assert (i < 256)%nat as Hi2 by (apply lookup_lt_Some in Hi; lia).
  rewrite index_mod. replace (h mod 256) with ((h + Z.of_nat 0) mod 256) by (f_equal; lia).
  destruct (decide (i = 0%nat)) as [->|Hne].
  - simplify_eq/=. rewrite list_lookup_insert_eq by (rewrite Hs; pose proof (Z.mod_pos_bound (h + Z.of_nat 0) 256); lia).
    unfold filled. simpl. f_equal. f_equal; lia.
  - rewrite list_lookup_insert_ne by (apply index_ne; lia). rewrite (He i c Hi). unfold filled. by rewrite !decide_False.
Qed.

Lemma ring_consume mem g kh b q koff : ring_ok mem g kh (b :: q) koff -> ring_ok mem g (u16 (kh + 1)) q 0.
Proof.
  intros [(h & Hh & -> & Ht & He) Hs Hl Ho _]. simpl in Hl. split; try done; [|lia].
  exists (h + 1). split_and!; [lia|by rewrite wrap_add_l|by rewrite Ht; simpl; f_equal; lia|].
  intros i c Hi. replace (h + 1 + Z.of_nat i) with (h + Z.of_nat (S i)) by lia.
  rewrite (He (S i) c Hi). unfold filled. rewrite decide_False by done. by case_decide.
Qed.

Lemma slot_eq o b : 0 < __buf_mem_ o -> __buf_mem_ o + __nr_bufs_ * __buf_size_ <= 2 ^ 64 - 1 -> 0 <= b < 256 ->
  _M_slot o b = slot_at (__buf_mem_ o) b.
Proof.
  intros H1 H2 Hb. unfold _M_slot, slot_at, __nr_bufs_, __buf_size_ in *.
  rewrite (wrap_small 32) by (unfold is_word; lia). apply wrap_small. unfold is_word. lia.
Qed.

Lemma ring_replenish o g kh q koff b : ring_ok (__buf_mem_ o) g kh q koff -> (length q < 256)%nat ->
  0 < __buf_mem_ o -> __buf_mem_ o + __nr_bufs_ * __buf_size_ <= 2 ^ 64 - 1 -> 0 <= b < 256 ->
  ring_ok (__buf_mem_ o) (_M_replenish o b g) kh (q ++ [b]) koff.
Proof.
  intros [(h & Hh & -> & Ht & He) Hs Hl Ho Hz] Hq H1 H2 Hb. unfold _M_replenish. rewrite slot_eq by done.
  split; simpl; try done.
  - exists h. split_and!; [done..| |].
    + rewrite Ht, length_app. rewrite (wrap_small 32), wrap_add_l; [f_equal; simpl; lia|].
      pose proof (wrap_range 16 (h + Z.of_nat (length q))). unfold is_word in *. lia.
    + rewrite Ht, index_mod. intros i c [Hi|[Hi Hc]]%lookup_app_Some.
      * assert (i < length q)%nat by by apply lookup_lt_Some in Hi.
        rewrite list_lookup_insert_ne by (apply index_ne; lia). by apply He.
      * apply list_lookup_singleton_Some in Hc as [Hi0 <-]. assert (i = length q) as -> by lia.
        rewrite list_lookup_insert_eq by (rewrite Hs; pose proof (Z.mod_pos_bound (h + Z.of_nat (length q)) 256); lia).
        assert (filled koff (length q) = 0) as ->.
        { unfold filled. case_decide as E; [|done]. by apply Hz, nil_length_inv. }
        f_equal. f_equal; lia.
  - by rewrite length_insert.
  - rewrite length_app. simpl. lia.
  - by destruct q.
Qed.

Lemma setup_loop_spec o k : forall i b, Z.of_nat (k + i) = __nr_bufs_ -> length b = 256%nat ->
  length (setup_loop k o (Z.of_nat i) b) = 256%nat /\
  forall j, (j < 256)%nat -> setup_loop k o (Z.of_nat i) b !! j =
    if decide (i <= j)%nat then Some (mkBuf (_M_slot o (Z.of_nat j)) __buf_size_ (Z.of_nat j)) else b !! j.
Proof.
  unfold __nr_bufs_. induction k as [|k IH]; intros i b Hk Hb; simpl.
  - split; [done|]. intros j Hj. rewrite decide_False by lia. done.
  - unfold __nr_bufs_. assert (Z.of_nat i <? 256 = true) as -> by lia.
    assert (u16 (Z.of_nat i) = Z.of_nat i) as -> by (apply wrap_small; unfold is_word; lia).
    assert (u32 (Z.of_nat i + 1) = Z.of_nat (S i)) as -> by (rewrite wrap_small; unfold is_word; lia).
    destruct (IH (S i) (<[Z.to_nat (Z.of_nat i) := mkBuf (_M_slot o (Z.of_nat i)) __buf_size_ (Z.of_nat i)]> b))
      as [H1 H2]; [lia|by rewrite length_insert|]. split; [done|].
    intros j Hj. rewrite H2, Nat2Z.id by done. destruct (decide (i = j)) as [->|Hne].
    + rewrite decide_False, decide_True, list_lookup_insert_eq by lia. done.
    + rewrite list_lookup_insert_ne by done. case_decide; case_decide; (done || lia).
Qed.

Definition slots : list Z := seqZ 0 256.

Lemma ring_setup buf_mem ring_mem rc fd bgid o g : 0 < buf_mem -> buf_mem + __nr_bufs_ * __buf_size_ <= 2 ^ 64 - 1 ->
  _M_setup_ring 256 buf_mem ring_mem rc fd bgid = Done (o, g) ->
  o = mkOp buf_mem bgid fd false 0 0 0 false 0 false 0 nullptr /\ ring_ok buf_mem g 0 slots 0.
Proof.
  intros H1 H2. unfold _M_setup_ring. do 2 (case_decide; [done|]). destruct (rc <? 0); [done|].
  set (o' := mkOp _ _ _ _ _ _ _ _ _ _ _ _).
  destruct (setup_loop_spec o' 256 0 (replicate 256 (mkBuf 0 0 0)) eq_refl (length_replicate _ _)) as [Hl He].
  change (Z.of_nat 0) with 0 in Hl, He. revert Hl He. generalize (setup_loop 256 o' 0 (replicate 256 (mkBuf 0 0 0))).
  intros bs Hl He E. injection E as <- <-. split; [done|].
  split; cbn [bufs tail]; [|done|done|done|done].
  exists 0. split_and!; [done..|]. intros i b [-> Hi]%lookup_seqZ.
  replace (0 + Z.of_nat i) with (Z.of_nat i) by lia. rewrite Z.mod_small, Nat2Z.id, He by lia.
  rewrite decide_True, slot_eq by (done || lia). replace (filled 0 i) with 0 by (unfold filled; by case_decide).
  by rewrite Z.add_0_r, Z.sub_0_r.
Qed.

(** ** What the pending completions say

    [cq_ok mem off pb l koff q]: delivered one after the other to an object
    whose mirror of the kernel's position is [off], the completions [l] give
    exactly the ranges the kernel wrote, and leave the mirror at the kernel's
    position [koff]; [pb] is the slot the next piece comes from when [off] is
    not 0.  A completion that ends the multishot is the last one. *)
Definition received (mem off : Z) (c : io_uring_cqe) (w : ptr * Z) (b n : Z) (m k : bool) : Prop :=
  c = mkCqe 0 n (recv_flags b m k) /\ w = (slot_at mem b + off, n) /\ 0 < n /\ off + n <= __buf_size_ /\
  k = bool_decide (off + n < __buf_size_) /\ 0 <= b < 256.

Fixpoint cq_ok (mem off pb : Z) (l : list (io_uring_cqe * (ptr * Z))) (koff : Z) (q : list Z) : Prop :=
  match l with
  | [] => off = koff /\ (0 < off -> head q = Some pb)
  | (c, w) :: l =>
      (exists b n (m k : bool), received mem off c w b n m k /\ (0 < off -> b = pb) /\ (m = false -> l = []) /\
         cq_ok mem (if k then off + n else 0) b l koff q) \/
      (exists v, c = mkCqe 0 v 0 /\ v <= 0 /\ l = [] /\ (v = - ENOBUFS -> off = 0) /\ off = koff /\
         (0 < off -> head q = Some pb))
  end.

(** The slots the completions finish, and the completions after which the
    operation has to be submitted again. *)
Definition finishes (c : io_uring_cqe) : list Z :=
  if decide (0 < res c /\ Z.land (cqe_flags c) IORING_CQE_F_BUF_MORE = 0)
  then [u16 (Z.shiftr (cqe_flags c) IORING_CQE_BUFFER_SHIFT)] else [].
Definition finishing (l : list (io_uring_cqe * (ptr * Z))) : list Z := flat_map (fun x => finishes x.1) l.
Definition final (x : io_uring_cqe * (ptr * Z)) : Prop := Z.land (cqe_flags x.1) IORING_CQE_F_MORE = 0.
Definition held (o : __async_receive) : list Z := if __replenish_pending_ o then [__replenish_bid_ o] else [].

Lemma finishes_recv n b m k : 0 < n -> 0 <= b < 256 ->
  finishes (mkCqe 0 n (recv_flags b m k)) = if k then [] else [b].
Proof.
  intros Hn Hb. unfold finishes. cbn [res cqe_flags]. rewrite recv_flags_buf_more, recv_flags_bid by lia.
  destruct k; [rewrite decide_False by naive_solver|rewrite decide_True by done]; done.
Qed.

Lemma finishes_end v : v <= 0 -> finishes (mkCqe 0 v 0) = [].
Proof. intros. unfold finishes. simpl. rewrite decide_False; [done|lia]. Qed.

Lemma final_recv n b m k w : final (mkCqe 0 n (recv_flags b m k), w) <-> m = false.
Proof. unfold final. cbn [fst cqe_flags]. rewrite recv_flags_more. by destruct m. Qed.

Lemma finishing_app l1 l2 : finishing (l1 ++ l2) = finishing l1 ++ finishing l2.
Proof. apply flat_map_app. Qed.

Lemma complete_recv o n b m k : 0 < n <= __buf_size_ -> 0 <= b < 256 -> 0 <= __cur_offset_ o <= __buf_size_ ->
  __complete o (mkCqe 0 n (recv_flags b m k)) =
  (mkOp (__buf_mem_ o) (__bgid_ o) (__rfd_ o) (if m then __multishot_live_ o else false) b (__cur_offset_ o) n k
     (if k then __cur_offset_ o + n else 0) (if k then __replenish_pending_ o else true)
     (if k then __replenish_bid_ o else b) (__resume_ o), Execute).
Proof.
  unfold __buf_size_. intros Hn Hb Ho. unfold __complete. cbn [res cqe_flags].
  rewrite decide_False by (unfold ENOBUFS; lia). rewrite decide_False by lia.
  rewrite recv_flags_buf_more, recv_flags_more, recv_flags_bid by lia.
  rewrite (wrap_small 32 n) by (unfold is_word; lia).
  rewrite (wrap_small 32 (_ + n)) by (unfold is_word; lia). by destruct m, k.
Qed.

(** Posting at the end of a queue of completions that do not end the multishot. *)
Lemma cq_post_recv mem off pb l b q koff n m w k : cq_ok mem off pb l koff (b :: q) -> 0 <= off ->
  Forall (fun x => ~ final x) l -> w = (slot_at mem b + koff, n) -> 0 < n -> koff + n <= __buf_size_ ->
  k = bool_decide (koff + n < __buf_size_) -> 0 <= b < 256 ->
  cq_ok mem off pb (l ++ [(mkCqe 0 n (recv_flags b m k), w)]) (if k then koff + n else 0) (if k then b :: q else q).
Proof.
  intros H Hoff Hl Hw Hn Hk Ek Hb. revert off pb H Hoff. induction l as [|[c w'] l IH]; intros off pb H Hoff.
  - destruct H as [-> Hp]. left. exists b, n, m, k. split_and!; try done.
    + intros Ho. specialize (Hp Ho). by simplify_eq/=.
    + destruct k; simpl; [|lia]. split_and!; [done|done].
  - apply Forall_cons in Hl as [Hf Hl]. destruct H as [(b' & n' & m' & k' & Hr & Hb' & Hm & H)|(v & -> & _)].
    + left. exists b', n', m', k'. split_and!; [done|done| |].
      * intros ->. destruct Hf. destruct Hr as (-> & _). by apply final_recv.
      * apply IH; [done..|]. destruct Hr as (_ & _ & ? & _). destruct k'; lia.
    + by destruct Hf.
Qed.

Lemma cq_post_end mem off pb l v q koff w : cq_ok mem off pb l koff q -> Forall (fun x => ~ final x) l ->
  v <= 0 -> (v = - ENOBUFS -> koff = 0) -> cq_ok mem off pb (l ++ [(mkCqe 0 v 0, w)]) koff q.
Proof.
  intros H Hl Hv Hk. revert off pb H. induction l as [|[c w'] l IH]; intros off pb H.
  - destruct H as [-> Hp]. right. exists v. by split_and!.
  - apply Forall_cons in Hl as [Hf Hl]. destruct H as [(b' & n' & m' & k' & Hr & Hb' & Hm & H)|(v' & -> & _)].
    + left. exists b', n', m', k'. split_and!; [done|done| |by apply IH].
      intros ->. destruct Hf. destruct Hr as (-> & _). by apply final_recv.
    + by destruct Hf.
Qed.

(** Giving a slot back changes nothing for what is pending. *)
Lemma cq_ok_snoc mem off pb l koff q b : cq_ok mem off pb l koff q -> (0 < koff -> q <> []) ->
  cq_ok mem off pb l koff (q ++ [b]).
Proof.
  intros H Hq. revert off pb H. induction l as [|[c w] l IH]; intros off pb; simpl.
  - intros [-> Hp]. split; [done|]. intros Hk. specialize (Hp Hk). by destruct q.
  - intros [(b' & n & m & k & ? & ? & ? & H)|(v & ? & ? & ? & ? & -> & Hp)]; [left; exists b', n, m, k; auto|right].
    exists v. split_and!; try done. intros Hk. specialize (Hp Hk). by destruct q.
Qed.

(** The slot being read is not ahead of the reader in the ring. *)
Lemma cq_partial mem off pb l koff q : cq_ok mem off pb l koff q -> 0 < off ->
  pb ∈ finishing l \/ head q = Some pb /\ off <= koff.
Proof.
  revert off pb. induction l as [|[c w] l IH]; intros off pb; simpl.
  - intros [-> Hp] Ho. right. split; [auto|lia].
  - intros [(b & n & m & k & (-> & _ & Hn & Hle & -> & Hb) & Hbp & _ & H)|(v & _ & _ & -> & _ & -> & Hp)] Ho.
    + specialize (Hbp Ho) as ->. case_bool_decide as Ek.
      * destruct (IH _ _ H) as [?|[? ?]]; [lia|left; apply elem_of_app; by right|right; split; [done|lia]].
      * left. apply elem_of_app. left. rewrite finishes_recv by done. by left.
    + right. split; [auto|lia].
Qed.

(** ** The invariant *)

#[export] Instance final_dec x : Decision (final x).
Proof. unfold final. apply _. Defined.

Definition count (b : bool) : nat := if b then 1%nat else 0%nat.

(** The places from which the next submission can come. *)
Definition outstanding (s : sys) : nat :=
  (submitted (recv s) + count (armed s) + length (filter final (cq s)) +
   count (bool_decide (is_Some (reading s)) && negb (__multishot_live_ (self (recv s)))))%nat.

Definition view_ok (o : __async_receive) (pb : Z) (v w : ptr * Z) : Prop :=
  v = w /\ exists b off n, w = (slot_at (__buf_mem_ o) b + off, n) /\ 0 <= off /\ 0 < n /\
    off + n <= __buf_size_ /\ 0 <= b < 256 /\
    (__replenish_pending_ o = true /\ __replenish_bid_ o = b \/ __cur_offset_ o = off + n /\ pb = b).

Record inv (s : sys) (q : list Z) (koff pb : Z) : Prop := {
  i_pool : 0 < __buf_mem_ (self (recv s)) /\
    __buf_mem_ (self (recv s)) + __nr_bufs_ * __buf_size_ <= 2 ^ 64 - 1;
  i_ring : ring_ok (__buf_mem_ (self (recv s))) (__ring_ (recv s)) (khead s) q koff;
  i_cq : cq_ok (__buf_mem_ (self (recv s))) (__cur_offset_ (self (recv s))) pb (cq s) koff q;
  i_off : 0 <= __cur_offset_ (self (recv s)) < __buf_size_;
  i_slots : q ++ finishing (cq s) ++ held (self (recv s)) ≡ₚ slots;
  i_idle : reading s = None -> __replenish_pending_ (self (recv s)) = false;
  i_view : forall v w, reading s = Some (v, w) -> view_ok (self (recv s)) pb v w;
  i_callback : __callback_ (recv s) = false;
  i_one : outstanding s = if ended s then 0%nat else 1%nat;
  i_ended : ended s = true -> reading s = None /\ cq s = [];
  i_live : __multishot_live_ (self (recv s)) = false -> armed s = false /\ cq s = [];
  i_resume : __resume_ (self (recv s)) <> nullptr
}.

Lemma receive_inv_start o g coro buf_mem ring_mem rc fd bgid :
  0 < buf_mem -> buf_mem + __nr_bufs_ * __buf_size_ <= 2 ^ 64 - 1 -> coro <> nullptr ->
  _M_setup_ring 256 buf_mem ring_mem rc fd bgid = Done (o, g) -> exists pb, inv (start o g coro) slots 0 pb.
Proof.
  intros H1 H2 Hc H. destruct (ring_setup _ _ _ _ _ _ _ H1 H2 H) as [-> Hr]. exists 0.
  unfold start, await_suspend, run_callback. simpl. split; try done.
Qed.

Lemma final_none (s : sys) : armed s = true -> (outstanding s <= 1)%nat ->
  submitted (recv s) = 0%nat /\ Forall (fun x => ~ final x) (cq s) /\
  (is_Some (reading s) -> __multishot_live_ (self (recv s)) = true).
Proof.
  unfold outstanding. intros -> Hle. simpl in Hle. split; [lia|]. split.
  - apply Forall_forall. intros x Hx Hf. assert (x ∈ filter final (cq s)) as E by by apply list_elem_of_filter.
    destruct (filter final (cq s)); [by apply not_elem_of_nil in E|simpl in Hle; lia].
  - intros Hr. rewrite bool_decide_eq_true_2 in Hle by done. destruct (__multishot_live_ _); [done|simpl in Hle; lia].
Qed.

Lemma filter_none (l : list (io_uring_cqe * (ptr * Z))) : Forall (fun x => ~ final x) l -> filter final l = [].
Proof.
  induction 1 as [|x l Hx _ IH]; [done|]. by rewrite filter_cons_False.
Qed.

Lemma outstanding_le s q koff pb : inv s q koff pb -> (outstanding s <= 1)%nat.
Proof. intros Hi. rewrite (i_one _ _ _ _ Hi). by destruct (ended s); lia. Qed.

Lemma armed_live s q koff pb : inv s q koff pb -> armed s = true ->
  ended s = false /\ __multishot_live_ (self (recv s)) = true.
Proof.
  intros Hi Ha. pose proof (i_one _ _ _ _ Hi) as H1. split.
  - destruct (ended s); [|done]. unfold outstanding in H1. rewrite Ha in H1. simpl in H1. lia.
  - destruct (__multishot_live_ _) eqn:E; [done|]. destruct (i_live _ _ _ _ Hi E). congruence.
Qed.

(** *** The kernel's steps: they change the ring and post a completion *)
Lemma inv_kernel s q koff pb g kh ar l q' koff' : inv s q koff pb -> armed s = true ->
  ring_ok (__buf_mem_ (self (recv s))) g kh q' koff' ->
  cq_ok (__buf_mem_ (self (recv s))) (__cur_offset_ (self (recv s))) pb l koff' q' ->
  q' ++ finishing l ++ held (self (recv s)) ≡ₚ slots ->
  (count ar + length (filter final l) = 1)%nat ->
  inv (mkSys (set_ring g (recv s)) kh ar l (reading s) (ended s)) q' koff' pb.
Proof.
  intros Hi Ha Hr Hcq Hs Ho. destruct (armed_live _ _ _ _ Hi Ha) as [Hend Hlive].
  destruct (final_none s Ha (outstanding_le _ _ _ _ Hi)) as (Hsub & _ & _).
  destruct Hi as [Hp _ _ Hoff _ Hid Hv Hcb _ _ _ Hrs].
  split; simpl; try done; try congruence.
  unfold outstanding. simpl. rewrite Hsub, Hend, Hlive, andb_false_r. simpl. lia.
Qed.

Lemma set_ring_same r : set_ring (__ring_ r) r = r.
Proof. by destruct r. Qed.

Lemma finals_post s q koff pb x : inv s q koff pb -> armed s = true ->
  filter final (cq s ++ [x]) = filter final [x].
Proof.
  intros Hi Ha. destruct (final_none s Ha (outstanding_le _ _ _ _ Hi)) as (_ & Hnf & _).
  by rewrite filter_app, filter_none.
Qed.

Lemma inv_kernel_receive s q koff pb n more e : inv s q koff pb -> armed s = true ->
  khead s <> tail (__ring_ (recv s)) -> bufs (__ring_ (recv s)) !! head_index s = Some e -> 0 < n <= len e ->
  exists q' koff', inv (kernel_receive n more e s) q' koff' pb.
Proof.
  intros Hi Ha Hne He Hn. pose proof (i_ring _ _ _ _ Hi) as Hr. pose proof (i_slots _ _ _ _ Hi) as Hs.
  destruct (final_none s Ha (outstanding_le _ _ _ _ Hi)) as (_ & Hnf & _).
  apply (ring_nonempty _ _ _ _ _ Hr) in Hne. destruct q as [|b q]; [done|].
  unfold head_index in He. rewrite (ring_first _ _ _ _ _ _ Hr) in He. injection He as <-. simpl in Hn.
  assert (0 <= b < 256) as Hb.
  { apply (elem_of_seqZ 0 256). change (seqZ 0 256) with slots. rewrite <- Hs. apply elem_of_app. left. by left. }
  pose proof (rk_off _ _ _ _ _ Hr) as Hko.
  assert (forall k, k = bool_decide (koff + n < __buf_size_) -> cq_ok (__buf_mem_ (self (recv s)))
    (__cur_offset_ (self (recv s))) pb (cq s ++ [(mkCqe 0 n (recv_flags b more k),
      (slot_at (__buf_mem_ (self (recv s))) b + koff, n))]) (if k then koff + n else 0) (if k then b :: q else q)) as Hcq.
  { intros k Hk. apply (cq_post_recv _ _ _ _ _ _ koff); try done; try lia; [apply Hi|apply (i_off _ _ _ _ Hi)]. }
  assert (forall k w, (count more + length (filter final (cq s ++ [(mkCqe 0 n (recv_flags b more k), w)])) = 1)%nat) as Ho.
  { intros k w. rewrite (finals_post _ _ _ _ _ Hi Ha). destruct more.
    - by rewrite filter_cons_False by by rewrite final_recv.
    - by rewrite filter_cons_True by by rewrite final_recv. }
  unfold kernel_receive. cbv zeta. cbn [len bid addr]. unfold head_index.
  destruct (bool_decide_reflect (n < __buf_size_ - koff)) as [Hk|Hk].
  - exists (b :: q), (koff + n). eapply inv_kernel; try done.
    + apply ring_advance; (done || lia).
    + apply (Hcq true). symmetry. apply bool_decide_eq_true_2. lia.
    + rewrite finishing_app. simpl. by rewrite finishes_recv, app_nil_r by lia.
  - exists q, 0. rewrite <- (set_ring_same (recv s)). eapply inv_kernel; try done.
    + by eapply ring_consume.
    + apply (Hcq false). symmetry. apply bool_decide_eq_false_2. lia.
    + rewrite finishing_app. simpl. rewrite finishes_recv, app_nil_r by lia. rewrite <- Hs.
      rewrite <- app_assoc. simpl. rewrite (Permutation_app_comm (finishing _)). simpl.
      rewrite <- Permutation_middle. by rewrite (Permutation_app_comm (finishing _)).
Qed.

Lemma inv_kernel_ends s q koff pb v : inv s q koff pb -> armed s = true -> v <= 0 ->
  (v = - ENOBUFS -> khead s = tail (__ring_ (recv s))) -> inv (kernel_ends v s) q koff pb.
Proof.
  intros Hi Ha Hv Hnb. pose proof (i_ring _ _ _ _ Hi) as Hr.
  destruct (final_none s Ha (outstanding_le _ _ _ _ Hi)) as (_ & Hnf & _).
  unfold kernel_ends. rewrite <- (set_ring_same (recv s)). eapply inv_kernel; try done.
  - apply cq_post_end; [apply Hi|done|done|]. intros E. apply (rk_empty _ _ _ _ _ Hr).
    destruct (decide (q = [])) as [|Hq]; [done|]. destruct (proj2 (ring_nonempty _ _ _ _ _ Hr) Hq). by apply Hnb.
  - rewrite finishing_app. simpl. rewrite finishes_end, app_nil_r by done. apply Hi.
  - rewrite (finals_post _ _ _ _ _ Hi Ha), filter_cons_True by done. done.
Qed.

(** *** The thread's steps *)
Lemma inv_submit s q koff pb k : inv s q koff pb -> reading s = None -> submitted (recv s) = S k ->
  inv (mkSys (mkReceiver (__ring_ (recv s)) (fst (__submit (self (recv s)) zero_sqe)) (__callback_ (recv s)) k)
    (khead s) true (cq s) None (ended s)) q koff pb.
Proof.
  intros Hi Hr Hk. pose proof (outstanding_le _ _ _ _ Hi) as Hle.
  destruct Hi as [Hp Hring Hcq Hoff Hs Hid Hv Hcb H1 Hen Hl Hrs].
  unfold outstanding in Hle, H1. rewrite Hk in Hle, H1. destruct (ended s); [lia|].
  split; simpl; try done; [auto|].
  unfold outstanding. simpl. destruct (armed s); simpl in *; [lia|].
  lia.
Qed.

Lemma slot_sum o b off n : 0 < __buf_mem_ o -> __buf_mem_ o + __nr_bufs_ * __buf_size_ <= 2 ^ 64 - 1 ->
  0 <= b < 256 -> 0 <= off -> 0 < n -> off + n <= __buf_size_ ->
  u64 (_M_slot o b + off) = slot_at (__buf_mem_ o) b + off.
Proof.
  intros. rewrite slot_eq by done. unfold slot_at, __nr_bufs_, __buf_size_ in *. apply wrap_small. unfold is_word. lia.
Qed.

Lemma inv_deliver s q koff pb c w rest : inv s q koff pb -> reading s = None -> cq s = (c, w) :: rest ->
  exists pb', inv (deliver c w rest s) q koff pb'.
Proof.
  intros Hi Hr Ecq. pose proof (i_one _ _ _ _ Hi) as H1. pose proof (i_ended _ _ _ _ Hi) as Hend.
  destruct (ended s) eqn:Ee; [destruct Hend; [done|congruence]|].
  unfold outstanding in H1. rewrite Hr, Ecq in H1. simpl in H1. rewrite Nat.add_0_r in H1.
  destruct Hi as [[Hp1 Hp2] Hring Hcq Hoff Hs Hid Hv Hcb _ Hen Hl Hrs]. specialize (Hid Hr).
  destruct (__multishot_live_ (self (recv s))) eqn:Elive; [|destruct (Hl eq_refl); congruence].
  unfold held in Hs. rewrite Hid, app_nil_r, Ecq in Hs. unfold deliver. rewrite Ecq in Hcq.
  destruct Hcq as [(b & n & m & k & (-> & -> & Hn & Hle & Hk & Hb) & Hbp & Hm & Hcq)|(v & -> & Hv0 & -> & Hv1 & E & Hq)].
  - exists b. rewrite complete_recv by (unfold __buf_size_ in *; lia). rewrite Elive, Hid.
    simpl in Hs. rewrite finishes_recv in Hs by done.
    assert (k = true -> __cur_offset_ (self (recv s)) + n < __buf_size_) as Hkt.
    { intros ->. by apply symmetry, bool_decide_eq_true_1 in Hk. }
    rewrite filter_cons in H1. split; simpl; rewrite ?Ee; try done.
    + destruct k; [specialize (Hkt eq_refl); lia|unfold __buf_size_; lia].
    + unfold held. simpl. destruct k; simpl in *; [by rewrite app_nil_r|].
      rewrite <- Hs. f_equiv. apply Permutation_app_comm.
    + intros v w [= <- <-]. split.
      { unfold await_resume. simpl. f_equal.
        apply (slot_sum (self (recv s)) b (__cur_offset_ (self (recv s))) n); (done || lia). }
      exists b, (__cur_offset_ (self (recv s))), n. simpl. split_and!; try done; try lia.
      destruct k; [by right|by left].
    + unfold outstanding. simpl. destruct m; simpl.
      * rewrite decide_False in H1 by by rewrite final_recv. lia.
      * rewrite decide_True in H1 by by rewrite final_recv. simpl in H1. lia.
    + destruct m; [done|]. intros _. rewrite decide_True in H1 by by rewrite final_recv.
      simpl in H1. split; [|auto]. destruct (armed s); [simpl in H1; lia|done].
  - rewrite filter_cons_True in H1 by done. simpl in H1, Hs. rewrite finishes_end in Hs by done.
    assert (armed s = false) as Ha by (destruct (armed s); [simpl in H1; lia|done]). exists pb.
    unfold __complete. simpl. case_decide as Hnb.
    + specialize (Hv1 Hnb). split; simpl; rewrite ?Ee, ?Ha; try done.
      * split; [lia|]. intros. lia.
      * unfold held. simpl. by rewrite Hid.
      * unfold outstanding. simpl. lia.
    + rewrite decide_True by done. rewrite Ha in *. split; simpl; rewrite ?Ha; try done.
      * unfold held. by rewrite Hid.
      * unfold outstanding. simpl. lia.
Qed.

Lemma slots_room q l b : q ++ l ++ [b] ≡ₚ slots -> (length q < 256)%nat /\ 0 <= b < 256.
Proof.
  intros H. split.
  - apply Permutation_length in H. rewrite !length_app in H. unfold slots in H. rewrite length_seqZ in H. simpl in H. lia.
  - apply (elem_of_seqZ 0 256). change (seqZ 0 256) with slots. rewrite <- H. apply elem_of_app. right.
    apply elem_of_app. right. by left.
Qed.

Definition given_back (r : receiver) : io_uring_buf_ring :=
  if __replenish_pending_ (self r) then _M_replenish (self r) (__replenish_bid_ (self r)) (__ring_ r) else __ring_ r.

Lemma run_await coro r : __callback_ r = false ->
  run_callback (await_suspend coro r) = mkReceiver (given_back r)
    (mkOp (__buf_mem_ (self r)) (__bgid_ (self r)) (__rfd_ (self r)) (__multishot_live_ (self r)) (__bid_ (self r))
       (__offset_ (self r)) (__len_ (self r)) (__buf_more_ (self r)) (__cur_offset_ (self r)) false
       (__replenish_bid_ (self r)) coro)
    false (if __multishot_live_ (self r) then submitted r else S (submitted r)).
Proof.
  intros Hc. unfold run_callback, await_suspend. cbn [__callback_]. destruct (__multishot_live_ (self r)) eqn:E.
  - by rewrite Hc.
  - done.
Qed.

Lemma await_gives_back s q koff pb : inv s q koff pb -> exists q',
  ring_ok (__buf_mem_ (self (recv s))) (given_back (recv s)) (khead s) q' koff /\
  cq_ok (__buf_mem_ (self (recv s))) (__cur_offset_ (self (recv s))) pb (cq s) koff q' /\
  q' ++ finishing (cq s) ≡ₚ slots.
Proof.
  intros [[Hp1 Hp2] Hring Hcq _ Hs _ _ _ _ _ _ _]. unfold given_back. unfold held in Hs.
  destruct (__replenish_pending_ (self (recv s))).
  - destruct (slots_room _ _ _ Hs) as [Hroom Hb]. exists (q ++ [__replenish_bid_ (self (recv s))]). split_and!.
    + by apply ring_replenish.
    + apply cq_ok_snoc; [done|]. intros Hk ->. pose proof (rk_empty _ _ _ _ _ Hring eq_refl). lia.
    + rewrite <- Hs, <- app_assoc. f_equiv. apply Permutation_app_comm.
  - exists q. by rewrite app_nil_r in Hs.
Qed.

Lemma inv_await s q koff pb v coro : inv s q koff pb -> reading s = Some v -> coro <> nullptr ->
  exists q', inv (mkSys (run_callback (await_suspend coro (recv s))) (khead s) (armed s) (cq s) None (ended s)) q' koff pb.
Proof.
  intros Hi Hv Hc. destruct (await_gives_back _ _ _ _ Hi) as (q' & Hring & Hcq & Hs).
  destruct Hi as [Hp _ _ Hoff _ _ _ Hcb H1 Hend Hl Hrs].
  destruct (ended s); [destruct Hend; [done|congruence]|].
  unfold outstanding in H1. rewrite Hv, bool_decide_eq_true_2 in H1 by eauto. simpl in H1.
  exists q'. rewrite run_await by done. split; simpl; try done.
  - by rewrite app_nil_r.
  - unfold outstanding. simpl. destruct (__multishot_live_ _); simpl in *; lia.
Qed.

Lemma receive_inv_step s s' q koff pb : inv s q koff pb -> step s s' -> exists q' koff' pb', inv s' q' koff' pb'.
Proof.
  intros Hi Hs. destruct Hs.
  - edestruct inv_kernel_receive as (? & ? & ?); eauto.
  - eexists _, _, _. by apply inv_kernel_ends; eauto.
  - eexists _, _, _. by apply inv_kernel_ends; eauto.
  - eexists _, _, _. by eapply inv_submit.
  - edestruct inv_deliver as (? & ?); eauto.
  - edestruct inv_await as (? & ?); eauto.
Qed.

Lemma receive_reachable s : reachable s -> exists q koff pb, inv s q koff pb.
Proof.
  intros (s0 & (bm & rm & rc & fd & bg & o & g & coro & H1 & H2 & Hc & H & ->) & Hr).
  refine (invariant_rtc step (fun s => exists q koff pb, inv s q koff pb) _ _ _ _ Hr).
  - intros s1 s2 (q & koff & pb & Hi) ?. by eapply receive_inv_step.
  - edestruct receive_inv_start as (? & ?); eauto.
Qed.

(** ** The theorems *)

(** What the kernel may write: the entries between its head and the tail. *)
Definition in_ring (s : sys) : nat := Z.to_nat (u16 (tail (__ring_ (recv s)) - khead s)).
Definition ring_entry (s : sys) (i : nat) : option io_uring_buf :=
  bufs (__ring_ (recv s)) !! Z.to_nat (Z.land (khead s + Z.of_nat i) __mask_).
Definition kernel_owns (s : sys) (p : ptr) : Prop :=
  exists i e, (i < in_ring s)%nat /\ ring_entry s i = Some e /\ addr e <= p < addr e + len e.
Definition ring_bids (s : sys) : list Z := (fun i => default (- 1) (bid <$> ring_entry s i)) <$> seq 0 (in_ring s).

Lemma in_ring_length s q koff pb : inv s q koff pb -> in_ring s = length q.
Proof.
  intros Hi. destruct (i_ring _ _ _ _ Hi) as [(h & Hh & Ek & Et & _) _ Hl _ _]. unfold in_ring.
  rewrite Ek, Et, wrap_sub_l, wrap_sub_r. rewrite wrap_small; [lia|unfold is_word; lia].
Qed.

Lemma ring_entry_at s q koff pb i b : inv s q koff pb -> q !! i = Some b ->
  ring_entry s i = Some (mkBuf (slot_at (__buf_mem_ (self (recv s))) b + filled koff i) (__buf_size_ - filled koff i) b).
Proof.
  intros Hi Hb. destruct (i_ring _ _ _ _ Hi) as [(h & Hh & Ek & _ & He) _ _ _ _]. unfold ring_entry.
  rewrite Ek. change __mask_ with (2 ^ 8 - 1). rewrite land_pow2_mask by lia.
  rewrite Zplus_mod, wrap_mod_pow2, <- Zplus_mod by lia. by apply He.
Qed.

Lemma ring_bids_eq s q koff pb : inv s q koff pb -> ring_bids s = q.
Proof.
  intros Hi. unfold ring_bids. rewrite (in_ring_length _ _ _ _ Hi). apply list_eq. intros i.
  rewrite list_lookup_fmap. destruct (decide (i < length q)%nat) as [Hl|Hl].
  - rewrite lookup_seq_lt by done. destruct (lookup_lt_is_Some_2 q i Hl) as [b Hb]. simpl.
    by rewrite (ring_entry_at _ _ _ _ _ _ Hi Hb), Hb.
  - rewrite lookup_seq_ge by lia. symmetry. apply lookup_ge_None_2. lia.
Qed.

(** A slot is in one place. *)
Lemma slot_once (q l h : list Z) b : q ++ l ++ h ≡ₚ slots -> b ∈ q -> b ∈ l \/ b ∈ h -> False.
Proof.
  intros H Hq Hr. assert (NoDup (q ++ l ++ h)) as Hn by (rewrite H; apply NoDup_seqZ).
  apply NoDup_app in Hn as (_ & Hd & _). apply (Hd b Hq). by apply elem_of_app.
Qed.

(** C8: while the coroutine looks at a view it is exactly the piece that the
    kernel announced with the completion being delivered, however many more
    pieces it has written and announced meanwhile; it lies in the pool and the
    kernel may write none of its bytes. *)
Theorem receive_view_exact s v w : reachable s -> reading s = Some (v, w) ->
  v = w /\ __buf_mem_ (self (recv s)) <= v.1 /\ 0 < v.2 /\
  v.1 + v.2 <= __buf_mem_ (self (recv s)) + __nr_bufs_ * __buf_size_ /\
  forall p, v.1 <= p < v.1 + v.2 -> ~ kernel_owns s p.
Proof.
  intros (q & koff & pb & Hi)%receive_reachable Hr.
  destruct (i_view _ _ _ _ Hi _ _ Hr) as (<- & b & off & n & -> & Hoff & Hn & Hle & Hb & Hwhere). simpl.
  unfold slot_at, __nr_bufs_, __buf_size_ in *. split_and!; [done|lia..|].
  intros p Hp (i & e & Hlt & He & Hin). rewrite (in_ring_length _ _ _ _ Hi) in Hlt.
  destruct (lookup_lt_is_Some_2 q i Hlt) as [c Hc]. rewrite (ring_entry_at _ _ _ _ _ _ Hi Hc) in He. simplify_eq/=.
  unfold slot_at, __buf_size_ in Hin. pose proof (rk_off _ _ _ _ _ (i_ring _ _ _ _ Hi)) as Hko.
  assert (0 <= filled koff i <= koff) by (unfold filled; case_decide; lia).
  assert (c = b) as -> by lia. pose proof (i_slots _ _ _ _ Hi) as Hs. apply list_elem_of_lookup_2 in Hc as Hbq.
  destruct Hwhere as [[E <-]|[E <-]].
  - apply (slot_once _ _ _ _ Hs Hbq). right. unfold held. rewrite E. by left.
  - destruct (cq_partial _ _ _ _ _ _ (i_cq _ _ _ _ Hi)) as [?|[Hh Hle2]]; [lia|by apply (slot_once _ _ _ _ Hs Hbq); left|].
    assert (i = 0%nat) as ->.
    { apply (NoDup_lookup q i 0%nat pb); [|done|by destruct q].
      assert (NoDup (q ++ finishing (cq s) ++ held (self (recv s)))) as Hn' by (rewrite Hs; apply NoDup_seqZ).
      by apply NoDup_app in Hn' as [? _]. }
    unfold filled in Hin. simpl in Hin. lia.
Qed.

(** C33: no slot is lost or duplicated: each of the 256 is in the ring, or used up
    by a completion still to be delivered, or held by the reader until its next
    [await_suspend]; so whenever a completion says that there was no buffer, all
    of them are back in the ring when it is delivered. *)
Theorem receive_slots_conserved s : reachable s ->
  ring_bids s ++ finishing (cq s) ++ held (self (recv s)) ≡ₚ seqZ 0 256 /\
  forall w rest, reading s = None -> cq s = (mkCqe 0 (- ENOBUFS) 0, w) :: rest -> ring_bids s ≡ₚ seqZ 0 256.
Proof.
  intros (q & koff & pb & Hi)%receive_reachable. pose proof (i_slots _ _ _ _ Hi) as Hs.
  rewrite (ring_bids_eq _ _ _ _ Hi). split; [done|]. intros w rest Hr Ecq.
  pose proof (i_cq _ _ _ _ Hi) as Hcq. unfold held in Hs. rewrite (i_idle _ _ _ _ Hi Hr), Ecq in Hs.
  rewrite Ecq in Hcq. destruct Hcq as [(b & n & m & k & (E & _ & Hn & _) & _)|(v & _ & _ & -> & _)].
  - injection E as <- _. unfold ENOBUFS in Hn. lia.
  - simpl in Hs. by rewrite app_nil_r in Hs.
Qed.

(** C35: as long as no end of file and no error has been delivered there is exactly
    one place from which the receive goes on: it is queued once for submission, or
    armed in the kernel, or its last completion is pending, or the coroutine that
    runs will have it submitted when it awaits again; and a step is possible.
    After an end of file or an error nothing ever happens again, although the
    coroutine is still suspended. *)
Theorem receive_goes_on_or_strands s : reachable s ->
  outstanding s = (if ended s then 0 else 1)%nat /\
  (ended s = false -> exists s', step s s') /\
  (ended s = true -> (forall s', ~ step s s') /\ reading s = None /\ __resume_ (self (recv s)) <> nullptr).
Proof.
  intros (q & koff & pb & Hi)%receive_reachable. pose proof (i_one _ _ _ _ Hi) as H1. split; [done|].
  unfold outstanding in H1. split; intros He; rewrite He in H1.
  - destruct (reading s) as [v|] eqn:Er; [exists (mkSys (run_callback (await_suspend 1 (recv s))) (khead s) (armed s)
      (cq s) None (ended s)); by apply (step_await s v 1)|].
    destruct (submitted (recv s)) as [|k] eqn:Ek; [|eexists; by eapply step_submit].
    destruct (armed s) eqn:Ea; [eexists; by apply (step_end s 0)|].
    destruct (cq s) as [|[c w] rest] eqn:Ec; [simpl in H1; lia|]. eexists. by eapply step_deliver.
  - destruct (i_ended _ _ _ _ Hi He) as [Hr Hc]. split; [|split; [done|apply Hi]].
    rewrite Hc in H1. simpl in H1. assert (submitted (recv s) = 0%nat) by lia.
    assert (armed s = false) by (destruct (armed s); simpl in H1; [lia|done]).
    intros s' Hs. destruct Hs; congruence.
Qed.

Module receive_example.

(** A pool at [2^20].  The kernel packs two pieces into slot 0 before the first
    is delivered; the second uses the slot up. *)
Definition made : __async_receive * io_uring_buf_ring :=
  match _M_setup_ring 256 (2 ^ 20) (2 ^ 21) 0 7 0 with
  | Done r => r
  | Fault _ => (mkOp 0 0 0 false 0 0 0 false 0 false 0 0, mkRing [] 0)
  end.
Definition s0 : sys := start made.1 made.2 64.
Definition s1 : sys := mkSys (mkReceiver (__ring_ (recv s0)) (fst (__submit (self (recv s0)) zero_sqe))
  (__callback_ (recv s0)) 0) (khead s0) true (cq s0) None (ended s0).
Definition first_entry (s : sys) : io_uring_buf := default (mkBuf 0 0 0) (bufs (__ring_ (recv s)) !! head_index s).
Definition s2 : sys := kernel_receive 100 true (first_entry s1) s1.
Definition s3 : sys := kernel_receive 3996 true (first_entry s2) s2.
Definition deliver_first (s : sys) : sys := match cq s with (c, w) :: rest => deliver c w rest s | [] => s end.
Definition s4 : sys := deliver_first s3.

Lemma s0_initial : initial s0.
Proof.
  exists (2 ^ 20), (2 ^ 21), 0, 7, 0, made.1, made.2, 64. split_and!; [done|done|done| |done].
  vm_compute. reflexivity.
Qed.

Lemma s3_reachable : rtc step s0 s3.
Proof.
  eapply rtc_l; [apply (step_submit s0 0); vm_compute; reflexivity|]. fold s1.
  eapply rtc_l; [apply (step_receive s1 100 true (first_entry s1));
    [vm_compute; reflexivity|vm_compute; discriminate|vm_compute; reflexivity|vm_compute; split; [reflexivity|discriminate]]|].
  eapply rtc_l; [apply (step_receive s2 3996 true (first_entry s2));
    [vm_compute; reflexivity|vm_compute; discriminate|vm_compute; reflexivity|vm_compute; split; [reflexivity|discriminate]]|].
  apply rtc_refl.
Qed.

Lemma s4_reachable : reachable s4.
Proof.
  exists s0. split; [apply s0_initial|]. eapply rtc_r; [apply s3_reachable|]. unfold s4, deliver_first.
  destruct (cq s3) as [|[c w] rest] eqn:E; [vm_compute in E; discriminate|].
  apply step_deliver; [vm_compute; reflexivity|done].
Qed.

Lemma receive_view_exact_witness : reading s4 = Some ((2 ^ 20, 100), (2 ^ 20, 100)) /\
  ((2 ^ 20, 100) = (2 ^ 20, 100) /\ __buf_mem_ (self (recv s4)) <= (2 ^ 20, 100).1 /\ 0 < (2 ^ 20, 100).2 /\
   (2 ^ 20, 100).1 + (2 ^ 20, 100).2 <= __buf_mem_ (self (recv s4)) + __nr_bufs_ * __buf_size_ /\
   forall p, (2 ^ 20, 100).1 <= p < (2 ^ 20, 100).1 + (2 ^ 20, 100).2 -> ~ kernel_owns s4 p).
Proof.
  split; [vm_compute; reflexivity|].
  apply (receive_view_exact s4 (2 ^ 20, 100) (2 ^ 20, 100)); [apply s4_reachable|vm_compute; reflexivity].
Defined.

(** Slot 0 is used up by the piece that is still pending. *)
Lemma receive_slots_conserved_witness : finishing (cq s4) = [0] /\ length (ring_bids s4) = 255%nat /\
  (ring_bids s4 ++ finishing (cq s4) ++ held (self (recv s4)) ≡ₚ seqZ 0 256 /\
  forall w rest, reading s4 = None -> cq s4 = (mkCqe 0 (- ENOBUFS) 0, w) :: rest -> ring_bids s4 ≡ₚ seqZ 0 256).
Proof.
  split; [vm_compute; reflexivity|]. split; [vm_compute; reflexivity|].
  apply (receive_slots_conserved s4). apply s4_reachable.
Defined.

Lemma receive_goes_on_or_strands_witness : ended s4 = false /\
  (outstanding s4 = (if ended s4 then 0 else 1)%nat /\
  (ended s4 = false -> exists s', step s4 s') /\
  (ended s4 = true -> (forall s', ~ step s4 s') /\ reading s4 = None /\ __resume_ (self (recv s4)) <> nullptr)).
Proof.
  split; [vm_compute; reflexivity|]. apply (receive_goes_on_or_strands s4). apply s4_reachable.
Defined.

End receive_example.
End receive.
