(* ===== verification/Accept.v ===== *)
(** * [main.cxx]: accepting connections

    One multishot accept stays with the kernel; each completion carries a new
    descriptor and starts a coroutine that receives from it, with a buffer ring
    and a buffer group of its own.  Module [accept] models [__async_accept] and
    the constructor and destructor of [__async_receive], with every connection a
    system of module [receive]; the kernel's side is what io_uring documents: a
    buffer group can be registered once, and stays registered until it is
    unregistered. *)

From S2P Require Import Prelude Tasks Receive.
Import tasks (io_uring_sqe, mkSqe, zero_sqe, io_uring_cqe, mkCqe, res, cqe_flags, IORING_CQE_F_MORE).

Module accept.

(** Constants of the kernel's headers. *)
Definition IORING_OP_ACCEPT : Z := 13.
Definition IORING_ACCEPT_MULTISHOT : Z := 1.
Definition sizeof_io_uring_buf_ring : Z := 16.
Definition sizeof_io_uring_buf : Z := 16.

(** The object [__accept]: where its members [__addr_] and [__addrlen_] are. *)
Record __async_accept := mkAccept { addr_at : ptr; addrlen_at : ptr }.

(** [__s]: the static counter of buffer groups; [groups]: those the kernel has;
    [queued]: how often the accept is in the scheduler's queue of submissions;
    [armed]: the kernel has it; [pending]: completions posted and not delivered;
    [accepted]: a ghost, the descriptors accepted so far. *)
Record server := mkServer {
  __s : Z;
  groups : list Z;
  connections : list receive.sys;
  queued : nat;
  armed : bool;
  pending : list io_uring_cqe;
  accepted : list Z
}.

(** [main] has submitted the accept. *)
Definition start : server := mkServer 0 [] [] 1 false [] [].

Section code.
Context (__k_accept : Z).

Definition __submit (__op : __async_accept) (__sqe : io_uring_sqe) : io_uring_sqe :=
  let __sqe := zero_sqe in
  mkSqe IORING_OP_ACCEPT (tasks.sqe_flags __sqe) IORING_ACCEPT_MULTISHOT __k_accept (addrlen_at __op) (addr_at __op)
    (tasks.sqe_len __sqe) 0 (tasks.buf_group __sqe) (tasks.user_data __sqe).
End code.

(** What a connection gets from the system: two mappings and a coroutine frame. *)
Record resources := mkResources { buf_mem : ptr; ring_mem : ptr; frame : ptr }.

(** [__bgid_{[] { static __u16 __s = 0; return __s++; }()}] *)
Definition next_group : M server Z := fun s =>
  Done (__s s, mkServer (u16 (__s s + 1)) (groups s) (connections s) (queued s) (armed s) (pending s) (accepted s)).

(** [io_uring_register] with [IORING_REGISTER_PBUF_RING]. *)
Definition register_group (g : Z) : M server Z := fun s =>
  if decide (g ∈ groups s) then Done (- 1, s)
  else Done (0, mkServer (__s s) (g :: groups s) (connections s) (queued s) (armed s) (pending s) (accepted s)).

(** The constructor of [__async_receive], up to the first [co_await] of
    [__receive_coro]; the group is registered once the mappings are there. *)
Definition receive_construct (a : resources) (__fd : Z) : M server receive.sys :=
  __bgid_ ← next_group;
  rc ← (if decide (buf_mem a = receive.MAP_FAILED \/ ring_mem a = receive.MAP_FAILED) then mret 0
        else register_group __bgid_);
  match receive._M_setup_ring 256 (buf_mem a) (ring_mem a) rc __fd __bgid_ with
  | Done (o, g) => mret (receive.start o g (frame a))
  | Fault f => throw f
  end.

(** [~__async_receive]: the mappings that are released, with their sizes. *)
Definition receive_destroy (__buf_mem_ __ring_mem_ : ptr) : list (ptr * Z) :=
  (if decide (__buf_mem_ = receive.MAP_FAILED) then [] else [(__buf_mem_, receive.__nr_bufs_ * receive.__buf_size_)]) ++
  (if decide (__ring_mem_ = receive.MAP_FAILED) then []
   else [(__ring_mem_, sizeof_io_uring_buf_ring + receive.__nr_bufs_ * sizeof_io_uring_buf)]).

Definition add_connection (c : receive.sys) : M server unit := modify (fun s =>
  mkServer (__s s) (groups s) (connections s ++ [c]) (queued s) (armed s) (pending s) (accepted s)).
Definition submit_accept : M server unit := modify (fun s =>
  mkServer (__s s) (groups s) (connections s) (S (queued s)) (armed s) (pending s) (accepted s)).

Definition __complete (a : resources) (__cqe : io_uring_cqe) : M server unit :=
  if res __cqe <? 0 then throw Terminate
  else
    c ← receive_construct a (res __cqe);
    add_connection c;;
    if decide (Z.land (cqe_flags __cqe) IORING_CQE_F_MORE = 0) then submit_accept else mret tt.

(** ** The system *)

Definition flags_of (more : bool) : Z := if more then IORING_CQE_F_MORE else 0.

Definition with_pending l (s : server) : server :=
  mkServer (__s s) (groups s) (connections s) (queued s) (armed s) l (accepted s).

(** The addresses the system hands out. *)
Definition usable (a : resources) : Prop :=
  0 < buf_mem a /\ buf_mem a + receive.__nr_bufs_ * receive.__buf_size_ <= 2 ^ 64 - 1 /\
  ring_mem a <> receive.MAP_FAILED /\ frame a <> nullptr.

Inductive step (s : server) : server -> Prop :=
  | step_submit k : queued s = S k ->
      step s (mkServer (__s s) (groups s) (connections s) k true (pending s) (accepted s))
  | step_accept fd more : armed s = true -> 0 <= fd ->
      step s (mkServer (__s s) (groups s) (connections s) (queued s) more
        (pending s ++ [mkCqe 0 fd (flags_of more)]) (accepted s ++ [fd]))
  | step_deliver a c rest s' : pending s = c :: rest -> usable a ->
      __complete a c (with_pending rest s) = Done (tt, s') -> step s s'
  | step_connection i c c' : connections s !! i = Some c -> receive.step c c' ->
      step s (mkServer (__s s) (groups s) (<[i := c']> (connections s)) (queued s) (armed s) (pending s) (accepted s)).

Definition reachable (s : server) : Prop := rtc step start s.

(** ** Every connection is served *)

Definition fd_of (c : receive.sys) : Z := receive.__rfd_ (receive.self (receive.recv c)).
Definition group_of (c : receive.sys) : Z := receive.__bgid_ (receive.self (receive.recv c)).

(** Completions after which the kernel does not have the accept any more. *)
Definition last_ones (l : list io_uring_cqe) : nat :=
  length (filter (fun c => Z.land (cqe_flags c) IORING_CQE_F_MORE = 0) l).

Record inv (s : server) : Prop := {
  i_once : (queued s + (if armed s then 1 else 0) + last_ones (pending s))%nat = 1%nat;
  i_fds : (fd_of <$> connections s) ++ (res <$> pending s) = accepted s;
  i_groups : group_of <$> connections s = seqZ 0 (Z.of_nat (length (connections s)));
  i_registered : groups s = reverse (seqZ 0 (Z.of_nat (length (connections s))));
  i_counter : __s s = u16 (Z.of_nat (length (connections s)));
  i_most : Z.of_nat (length (connections s)) <= 65536;
  i_pending c : c ∈ pending s -> 0 <= res c;
  i_connections c : c ∈ connections s -> receive.reachable c
}.

Lemma step_same_object c c' : receive.step c c' -> fd_of c' = fd_of c /\ group_of c' = group_of c.
Proof.
  unfold fd_of, group_of. destruct 1; try done.
  - unfold receive.kernel_receive. by case_bool_decide.
  - unfold receive.deliver, receive.__complete. repeat case_decide; try done; by case_bool_decide.
  - unfold receive.run_callback. destruct (receive.__callback_ (receive.await_suspend _ _)); done.
Qed.

Lemma receive_construct_runs a fd s n : usable a -> Z.of_nat n < 65536 ->
  __s s = u16 (Z.of_nat n) -> groups s = reverse (seqZ 0 (Z.of_nat n)) ->
  exists c, receive_construct a fd s = Done (c, mkServer (u16 (__s s + 1)) (__s s :: groups s) (connections s)
      (queued s) (armed s) (pending s) (accepted s)) /\
    fd_of c = fd /\ group_of c = __s s /\ receive.reachable c.
Proof.
  intros (Hb & Hb2 & Hr & Hf) Hn Hs Hg. unfold receive_construct, next_group, register_group, mbind, M_bind. cbn.
  assert (buf_mem a <> receive.MAP_FAILED) as Hbm.
  { unfold receive.MAP_FAILED, receive.__nr_bufs_, receive.__buf_size_ in *. lia. }
  rewrite decide_False by (by intros [|]). cbn.
  assert (__s s = Z.of_nat n) as Es by (rewrite Hs; apply wrap_small; split; lia).
  rewrite decide_False; [|rewrite Hg, elem_of_reverse, elem_of_seqZ; lia].
  assert (exists o g, receive._M_setup_ring 256 (buf_mem a) (ring_mem a) 0 fd (__s s) = Done (o, g)) as (o & g & E).
  { unfold receive._M_setup_ring. rewrite !decide_False by done. change (0 <? 0) with false. cbv iota. eauto. }
  rewrite E. eexists. split; [reflexivity|]. pose proof (receive.ring_setup _ _ _ _ _ _ _ Hb Hb2 E) as [Eo _].
  split_and!.
  - by rewrite Eo.
  - by rewrite Eo.
  - eexists. split; [|apply rtc_refl]. by exists (buf_mem a), (ring_mem a), 0, fd, (__s s), o, g, (frame a).
Qed.

Lemma construct_full a fd s : usable a -> __s s = 0 -> 0 ∈ groups s -> receive_construct a fd s = Fault Terminate.
Proof.
  intros (Hb & Hb2 & Hr & Hf) Hs Hg. unfold receive_construct, next_group, register_group, mbind, M_bind. cbn. rewrite Hs.
  assert (buf_mem a <> receive.MAP_FAILED) as Hbm.
  { unfold receive.MAP_FAILED, receive.__nr_bufs_, receive.__buf_size_ in *. lia. }
  rewrite decide_False by (by intros [|]). rewrite decide_True by done.
  unfold receive._M_setup_ring. rewrite !decide_False by done. by change (- 1 <? 0) with true.
Qed.

(** What a completion with a descriptor does to the server. *)
Definition served (x : receive.sys) (last : bool) rest (s : server) : server :=
  mkServer (u16 (__s s + 1)) (__s s :: groups s) (connections s ++ [x]) (if last then S (queued s) else queued s)
    (armed s) rest (accepted s).

Lemma complete_runs a c rest s : inv s -> usable a -> pending s = c :: rest -> Z.of_nat (length (connections s)) < 65536 ->
  exists x, __complete a c (with_pending rest s) =
      Done (tt, served x (bool_decide (Z.land (cqe_flags c) IORING_CQE_F_MORE = 0)) rest s) /\
    fd_of x = res c /\ group_of x = __s s /\ receive.reachable x.
Proof.
  intros Hi Ha Hp Hn. assert (0 <= res c) as Hres by (apply (i_pending _ Hi); rewrite Hp; by left).
  destruct (receive_construct_runs a (res c) (with_pending rest s) (length (connections s)) Ha Hn (i_counter _ Hi) (i_registered _ Hi))
    as (x & E & Hx). exists x. split; [|done]. unfold __complete. destruct (Z.ltb_spec (res c) 0); [lia|].
  rewrite (run_bind _ _ _ _ _ E). by case_decide; [rewrite bool_decide_eq_true_2 by done|rewrite bool_decide_eq_false_2 by done].
Qed.

Lemma inv_served x c rest s : inv s -> pending s = c :: rest -> Z.of_nat (length (connections s)) < 65536 ->
  fd_of x = res c -> group_of x = __s s -> receive.reachable x ->
  inv (served x (bool_decide (Z.land (cqe_flags c) IORING_CQE_F_MORE = 0)) rest s).
Proof.
  intros [Ho Hf Hg Hr Hc Hm Hpd Hcn] Hp Hn Hx Hxg Hxr. rewrite Hp in *.
  assert (__s s = Z.of_nat (length (connections s))) as Es by (rewrite Hc; apply wrap_small; split; lia).
  assert (Z.of_nat (length (connections s ++ [x])) = Z.of_nat (length (connections s)) + 1) as El
    by (rewrite length_app; simpl; lia).
  assert (seqZ 0 (Z.of_nat (length (connections s)) + 1) = seqZ 0 (Z.of_nat (length (connections s))) ++ [__s s]) as Eq
    by (rewrite seqZ_app by lia; rewrite Es; done).
  split; cbn [served connections queued armed pending groups accepted].
  - unfold last_ones in *. rewrite filter_cons in Ho. case_decide; case_bool_decide; simpl in Ho; try done; lia.
  - rewrite fmap_app, <- app_assoc. simpl. by rewrite Hx.
  - by rewrite fmap_app, El, Eq, Hg, <- Hxg.
  - rewrite El, Eq, reverse_snoc. by f_equal.
  - cbn [served __s]. rewrite El, Hc. by rewrite wrap_add_l.
  - lia.
  - intros c' Hc'. apply Hpd. by right.
  - intros c' [Hc'|Hc']%elem_of_app; [by apply Hcn|]. by apply list_elem_of_singleton in Hc' as ->.
Qed.

Lemma complete_full a c rest s : inv s -> usable a -> pending s = c :: rest -> Z.of_nat (length (connections s)) = 65536 ->
  __complete a c (with_pending rest s) = Fault Terminate.
Proof.
  intros Hi Ha Hp Hn. assert (0 <= res c) as Hres by (apply (i_pending _ Hi); rewrite Hp; by left).
  unfold __complete. destruct (Z.ltb_spec (res c) 0); [lia|]. unfold mbind at 1, M_bind at 1.
  rewrite construct_full; [done|done| |]; cbn [with_pending __s groups].
  - by rewrite (i_counter _ Hi), Hn.
  - rewrite (i_registered _ Hi), elem_of_reverse, elem_of_seqZ. lia.
Qed.

Lemma accept_inv_step s s' : inv s -> step s s' -> inv s'.
Proof.
  intros Hi Hs. destruct Hs as [k Hk|fd more Ha Hfd|a c rest s' Hp Ha E|i c c' Hc Hst].
  - destruct Hi as [Ho Hf Hg Hr Hc Hm Hpd Hcn]. split; try done. simpl. rewrite Hk in Ho. destruct (armed s); lia.
  - destruct Hi as [Ho Hf Hg Hr Hc Hm Hpd Hcn]. rewrite Ha in Ho. split; try done; simpl.
    + unfold last_ones in *. rewrite filter_app, length_app, filter_cons, filter_nil. simpl.
      destruct more; [rewrite decide_False by done|rewrite decide_True by done]; simpl; lia.
    + by rewrite fmap_app, app_assoc, Hf.
    + intros c [Hin|Hin]%elem_of_app; [by apply Hpd|]. by apply list_elem_of_singleton in Hin as ->.
  - destruct (decide (Z.of_nat (length (connections s)) < 65536)) as [Hn|Hn].
    + destruct (complete_runs a c rest s Hi Ha Hp Hn) as (x & E2 & Hx1 & Hx2 & Hx3). rewrite E in E2. injection E2 as ->.
      by apply inv_served.
    + pose proof (i_most _ Hi). by rewrite (complete_full a c rest s Hi Ha Hp) in E by lia.
  - destruct Hi as [Ho Hf Hg Hr Hcc Hm Hpd Hcn]. destruct (step_same_object _ _ Hst) as [E1 E2].
    split; try done; cbn [connections]; rewrite ?length_insert; try done.
    + rewrite list_fmap_insert, E1, list_insert_id; [done|]. by rewrite list_lookup_fmap, Hc.
    + rewrite list_fmap_insert, E2, list_insert_id; [done|]. by rewrite list_lookup_fmap, Hc.
    + intros d Hd. apply list_elem_of_lookup in Hd as [j Hj]. destruct (decide (j = i)) as [->|].
      * rewrite list_lookup_insert_eq in Hj by by eapply lookup_lt_Some. injection Hj as <-.
        destruct (Hcn c) as (s0 & Hs0 & Hr0); [by eapply list_elem_of_lookup_2|]. exists s0. split; [done|]. by eapply rtc_r.
      * rewrite list_lookup_insert_ne in Hj by done. apply Hcn. by eapply list_elem_of_lookup_2.
Qed.

Lemma accept_reachable s : reachable s -> inv s.
Proof.
  intros Hr. apply (invariant_rtc step inv accept_inv_step) with (s := start); [|done].
  split; try done; intros c Hc; by apply not_elem_of_nil in Hc.
Qed.

(** C34: at any time the descriptors accepted are those of the connections, in order,
    followed by those of the completions not yet delivered; the connections have
    the buffer groups 0, 1, 2, ... and each is a state the receive of module
    [receive] can be in; and there is exactly one accept: queued, with the
    kernel, or about to be submitted again by a completion that says that the
    kernel does not have it any more. *)
Theorem accepts_are_served s : reachable s ->
  (fd_of <$> connections s) ++ (res <$> pending s) = accepted s /\
  group_of <$> connections s = seqZ 0 (Z.of_nat (length (connections s))) /\
  (forall c, c ∈ connections s -> receive.reachable c) /\
  (queued s + (if armed s then 1 else 0) + last_ones (pending s))%nat = 1%nat.
Proof. intros Hi%accept_reachable. by destruct Hi. Qed.

(** the first 65536 completions each start their connection; the next one ends
    the program, because buffer groups are numbered with 16 bits and never
    unregistered. *)
Theorem group_numbers_run_out s a c rest : reachable s -> usable a -> pending s = c :: rest ->
  if decide (Z.of_nat (length (connections s)) < 65536)
  then exists x, __complete a c (with_pending rest s) =
      Done (tt, served x (bool_decide (Z.land (cqe_flags c) IORING_CQE_F_MORE = 0)) rest s) /\
    fd_of x = res c /\ group_of x = Z.of_nat (length (connections s))
  else __complete a c (with_pending rest s) = Fault Terminate.
Proof.
  intros Hi%accept_reachable Ha Hp. case_decide as Hn.
  - destruct (complete_runs a c rest s Hi Ha Hp Hn) as (x & E & Hx & Hg & _). exists x. split_and!; [done..|].
    rewrite Hg, (i_counter _ Hi). apply wrap_small. split; lia.
  - apply complete_full; [done..|]. pose proof (i_most _ Hi). lia.
Qed.

(** ** Two connections *)
Module accept_example.

Definition place : resources := mkResources 1048576 2097152 64.

Lemma place_usable : usable place.
Proof. by vm_compute. Qed.

Definition two : server := mkServer 0 [] [] 0 false [mkCqe 0 7 2; mkCqe 0 8 0] [7; 8].

Lemma two_reachable : reachable two.
Proof.
  eapply rtc_l; [by apply (step_submit _ 0)|]. eapply rtc_l; [by apply (step_accept _ 7 true)|].
  eapply rtc_l; [by apply (step_accept _ 8 false)|]. apply rtc_refl.
Qed.

Lemma accepts_are_served_witness : reachable two /\
  (queued two + (if armed two then 1 else 0) + last_ones (pending two))%nat = 1%nat.
Proof. split; [exact two_reachable|]. apply (accepts_are_served two two_reachable). Defined.

Lemma group_numbers_run_out_witness : exists x, __complete place (mkCqe 0 7 2) (with_pending [mkCqe 0 8 0] two) =
    Done (tt, served x false [mkCqe 0 8 0] two) /\ fd_of x = 7 /\ group_of x = 0.
Proof. exact (group_numbers_run_out two place (mkCqe 0 7 2) [mkCqe 0 8 0] two_reachable place_usable eq_refl). Defined.
End accept_example.
End accept.
