(* ===== verification/Frames.v ===== *)
(** * [__task.hpp], [__task_facade.hpp]: where coroutine frames are allocated

    The promise of a [__task] allocates its coroutine frame from a frame
    allocator that the thread-local pointer [__k_tls_alloc] designates.  The
    frame created while the pointer is null, the top frame, brings a new
    allocator along and records its address in a word behind the frame; a frame
    created while it is not null is pushed on that allocator and records null.
    [__task_facade::_M_do_execute] resumes a coroutine with the pointer set to
    null and restores it afterwards.

    Module [frames] models a thread with any number of allocators, each one as
    module [frame_allocator] models it; a load or store finds the block that
    contains the address, whichever allocator owns it. *)

From S2P Require Import Prelude RoundUp FrameAllocator.
Import frame_allocator (new_spec, disjoint_ranges, attempts, in_block, arep, payload, frame_size).

Module frames.

Abbreviation astate := frame_allocator.state.

(** [allocs]: the allocators that exist; [prev]: the member [__prev_alloc_] of
    the facades that exist. *)
Record thread := mkThread { allocs : gmap ptr astate; __k_tls_alloc : ptr; prev : gmap ptr ptr }.

Section code.
Context (operator_new : list (ptr * Z) -> Z -> ptr).

(** [sizeof(__allocator)], and size and alignment of a pointer. *)
Definition sizeof_allocator : Z := 32.
Definition sizeof_ptr : Z := 8.

(** The memory in use, without the chunks of the allocator [a]. *)
Definition extent (e : ptr * astate) : list (ptr * Z) := (e.1, sizeof_allocator) :: frame_allocator.blocks e.2.
Definition extents (m : gmap ptr astate) : list (ptr * Z) := flat_map extent (map_to_list m).
Definition others (t : thread) (a : ptr) : list (ptr * Z) := (a, sizeof_allocator) :: extents (delete a (allocs t)).

(** [operator new] as a call made for one allocator sees it. *)
Definition new_beside (l bs : list (ptr * Z)) (n : Z) : ptr := operator_new (l ++ bs) n.

(** ** Access *)

(** A member function called on the allocator at [a]. *)
Definition on_alloc {A} (a : ptr) (m : M astate A) : M thread A := fun t =>
  if decide (a = nullptr) then Fault NullDeref
  else match allocs t !! a with
       | None => Fault (Dangling a)
       | Some s =>
           match m s with
           | Done (x, s') => Done (x, mkThread (<[a := s']> (allocs t)) (__k_tls_alloc t) (prev t))
           | Fault f => Fault f
           end
       end.

Definition owner (t : thread) (p : ptr) : option ptr :=
  fst <$> head (filter (fun e : ptr * astate => existsb (in_block p) (frame_allocator.blocks e.2) = true)
    (map_to_list (allocs t))).

Definition read (p : ptr) : M thread Z := fun t =>
  if decide (p = nullptr) then Fault NullDeref
  else match owner t p with
       | Some a => on_alloc a (frame_allocator.read p) t
       | None => Fault (Dangling p)
       end.

Definition write (p v : ptr) : M thread unit := fun t =>
  if decide (p = nullptr) then Fault NullDeref
  else match owner t p with
       | Some a => on_alloc a (frame_allocator.write p v) t
       | None => Fault (Dangling p)
       end.

Definition set_tls (a : ptr) : M thread unit := modify (fun t => mkThread (allocs t) a (prev t)).

(** [::new (std::nothrow) __allocator{}] *)
Definition new_allocator : M thread ptr :=
  t ← get;
  let p := operator_new (extents (allocs t)) sizeof_allocator in
  if decide (p = nullptr) then mret p
  else put (mkThread (<[p := frame_allocator.fresh ∅]> (allocs t)) (__k_tls_alloc t) (prev t));; mret p.

(** [::operator delete(__alloc, std::nothrow)] *)
Definition delete_allocator (a : ptr) : M thread unit :=
  modify (fun t => mkThread (delete a (allocs t)) (__k_tls_alloc t) (prev t)).

(** [__allocator::_M_push_stack_frame], with fuel for two chunks more than there
    are, and [_M_pop_stack_frame], which reads the prefix wherever it is. *)
Definition push_stack_frame (a : ptr) (__sz : Z) : M thread ptr :=
  t ← get;
  on_alloc a (s ← get;
    frame_allocator._M_push_stack_frame (new_beside (others t a)) (length (frame_allocator.blocks s) + 2) __sz).

Definition pop_stack_frame (a __fr : ptr) : M thread unit :=
  c ← read (__fr - frame_allocator.sizeof_prefix);
  b ← read (__fr - frame_allocator.sizeof_prefix + 8);
  on_alloc a (frame_allocator.set_cursor c b).

(** ** [__promise_new_delete] *)

Definition __alloc_address (__fr __n : Z) : ptr := __round_up_ptr (u64 (__fr + __n)) sizeof_ptr.

Definition __allocate_size (__n : Z) : Z := u64 (__round_up __n sizeof_ptr + sizeof_ptr).

Definition promise_new (__n : Z) : M thread ptr :=
  t ← get;
  let __top_frame := bool_decide (__k_tls_alloc t = nullptr) in
  __pa ← (if __top_frame then __pa ← new_allocator; set_tls __pa;; mret __pa else mret (__k_tls_alloc t));
  __r ← push_stack_frame __pa (__allocate_size __n);
  write (__alloc_address __r __n) (if __top_frame then __pa else nullptr);;
  mret __r.

Definition promise_delete (__ptr __n : Z) : M thread unit :=
  __alloc ← read (__alloc_address __ptr __n);
  if decide (__alloc <> nullptr) then
    pop_stack_frame __alloc __ptr;;
    set_tls nullptr;;
    on_alloc __alloc (s ← get; frame_allocator.destroy (length (frame_allocator.blocks s)));;
    delete_allocator __alloc
  else
    t ← get; pop_stack_frame (__k_tls_alloc t) __ptr.

(** ** [__task_facade::_M_do_execute]

    [resume]: what the coroutine does until it is suspended or ends. *)
Definition exchange_prev (f v : ptr) : M thread ptr := fun t =>
  if decide (f = nullptr) then Fault NullDeref
  else match prev t !! f with
       | Some p => Done (p, mkThread (allocs t) (__k_tls_alloc t) (<[f := v]> (prev t)))
       | None => Fault (Dangling f)
       end.

Definition _M_do_execute (f : ptr) (resume : M thread unit) : M thread unit :=
  t ← get;
  exchange_prev f (__k_tls_alloc t);; set_tls nullptr;;
  resume;;
  p ← exchange_prev f nullptr;
  set_tls p.

(** ** Coroutines that create and destroy frames

    The frames a call chain has, last first, with the sizes asked for. *)
Definition chain_step (o : frame_allocator.op) (ps : list (ptr * Z)) : M thread (list (ptr * Z)) :=
  match o, ps with
  | frame_allocator.Push sz, _ => r ← promise_new sz; mret ((r, sz) :: ps)
  | frame_allocator.Pop, [] => throw Undefined
  | frame_allocator.Pop, (r, sz) :: ps => promise_delete r sz;; mret ps
  | frame_allocator.Store k off v, _ =>
      match ps !! k with Some (r, _) => write (r + off) v;; mret ps | None => throw Undefined end
  end.

Fixpoint chain_run (l : list frame_allocator.op) (ps : list (ptr * Z)) : M thread (list (ptr * Z)) :=
  match l with [] => mret ps | o :: l => ps ← chain_step o ps; chain_run l ps end.
End code.

(** ** Operator new beside other allocators *)

Section beside.
Context (operator_new : list (ptr * Z) -> Z -> ptr).

Lemma new_beside_spec l : new_spec operator_new -> new_spec (new_beside operator_new l).
Proof.
  intros Hnew bs n p Hp. destruct (Hnew (l ++ bs) n Hp) as (? & ? & ? & ? & Hd).
  split_and!; try done. intros b Hb. apply Hd. apply elem_of_app. by right.
Qed.

(** A computation that adds only blocks with the property [G]. *)
Definition adds (G : ptr * Z -> Prop) {A} (m : M astate A) : Prop :=
  forall s, match m s with
            | Done (_, s') => Forall G (frame_allocator.blocks s) -> Forall G (frame_allocator.blocks s')
            | Fault _ => True
            end.

Create HintDb adds.

Section adds.
Context (G : ptr * Z -> Prop).

Lemma adds_ret {A} (a : A) : adds G (mret a).
Proof. intros s. by simpl. Qed.
Lemma adds_throw {A} f : adds G (throw f : M astate A).
Proof. intros s. exact I. Qed.
Lemma adds_get : adds G get.
Proof. intros s. by simpl. Qed.
Lemma adds_bind {A B} (m : M astate A) (k : A -> M astate B) : adds G m -> (forall a, adds G (k a)) -> adds G (m ≫= k).
Proof.
  intros Hm Hk s. unfold mbind, M_bind. specialize (Hm s). destruct (m s) as [[a s1]|f]; [|done].
  specialize (Hk a s1). destruct (k a s1) as [[b s2]|f]; auto.
Qed.
Lemma adds_modify f : (forall s, frame_allocator.blocks (f s) = frame_allocator.blocks s) -> adds G (modify f).
Proof. intros Hf s. simpl. by rewrite Hf. Qed.
Lemma adds_set_chunk v : adds G (frame_allocator.set_chunk v).
Proof. by apply adds_modify. Qed.
Lemma adds_set_cursor c b : adds G (frame_allocator.set_cursor c b).
Proof. by apply adds_modify. Qed.
Lemma adds_set_next_cap v : adds G (frame_allocator.set_next_cap v).
Proof. by apply adds_modify. Qed.

Context (new : list (ptr * Z) -> Z -> ptr) (Hn : forall bs n, new bs n <> nullptr -> G (new bs n, n)).

#[local] Hint Resolve adds_ret adds_throw adds_get adds_set_chunk adds_set_cursor adds_set_next_cap : adds.

Lemma adds_guard p : adds G (frame_allocator.guard_access p).
Proof. unfold frame_allocator.guard_access. apply adds_bind; [auto with adds|]. intros s. case_decide; [auto with adds|]. destruct (existsb _ _); auto with adds. Qed.
Lemma adds_write p v : adds G (frame_allocator.write p v).
Proof. apply adds_bind; [apply adds_guard|]. intros _. by apply adds_modify. Qed.
Lemma adds_read p : adds G (frame_allocator.read p).
Proof.
  apply adds_bind; [apply adds_guard|]. intros _. apply adds_bind; [auto with adds|]. intros s.
  destruct (frame_allocator.mem s !! p); auto with adds.
Qed.
Lemma adds_new n : adds G (frame_allocator.new new n).
Proof.
  intros s. unfold frame_allocator.new, mbind, M_bind, get. case_decide as Hp; [by simpl|]. simpl. intros Hs.
  apply Forall_app. split; [done|]. constructor; [by apply Hn|constructor].
Qed.

#[local] Hint Resolve adds_write adds_read adds_new : adds.

Lemma adds_allocate_chunk n : adds G (frame_allocator._M_allocate_chunk new n).
Proof.
  unfold frame_allocator._M_allocate_chunk, frame_allocator.put_next_, frame_allocator.put_limit_.
  repeat (apply adds_bind; [auto with adds|intros ?]); [|auto with adds].
  case_decide; auto with adds.
Qed.

Lemma adds_push_loop fuel : forall n c b, adds G (frame_allocator.push_loop new fuel n c b).
Proof.
  induction fuel as [|fuel IH]; intros n c b; simpl; [auto with adds|].
  apply adds_bind; [auto with adds|intros s]. apply adds_bind; [apply adds_read|intros limit].
  destruct (_ <=? limit).
  - repeat (apply adds_bind; [auto with adds|intros ?]). auto with adds.
  - apply adds_bind; [apply adds_read|intros next]. case_decide.
    + apply adds_bind; auto with adds.
    + apply adds_bind; [apply adds_allocate_chunk|intros ?]. apply adds_bind; auto with adds.
Qed.

Lemma adds_push fuel sz : adds G (frame_allocator._M_push_stack_frame new fuel sz).
Proof.
  unfold frame_allocator._M_push_stack_frame. apply adds_bind; [auto with adds|intros s].
  apply adds_bind.
  - case_decide; [|auto with adds]. apply adds_bind; [apply adds_allocate_chunk|auto with adds].
  - intros _. apply adds_bind; [auto with adds|intros s']. apply adds_push_loop.
Qed.
End adds.
End beside.

(** ** Allocators that do not overlap *)

(** No chunk overlaps the object of an allocator or a chunk of another one. *)
Definition wf (m : gmap ptr astate) : Prop := forall a s b, m !! a = Some s -> b ∈ frame_allocator.blocks s ->
  (forall a', is_Some (m !! a') -> disjoint_ranges b.1 b.2 a' sizeof_allocator) /\
  (forall a' s' b', m !! a' = Some s' -> a <> a' -> b' ∈ frame_allocator.blocks s' -> disjoint_ranges b.1 b.2 b'.1 b'.2).

Definition upd (t : thread) (a : ptr) (s : astate) : thread := mkThread (<[a := s]> (allocs t)) (__k_tls_alloc t) (prev t).

Lemma in_block_inv p (bs : list (ptr * Z)) : existsb (in_block p) bs = true ->
  exists b, b ∈ bs /\ b.1 <= p /\ p + 8 <= b.1 + b.2.
Proof.
  intros (b & Hb%list_elem_of_In & Hp)%existsb_exists. exists b. split; [done|]. unfold in_block in Hp. lia.
Qed.

Lemma owner_eq t a s p : wf (allocs t) -> allocs t !! a = Some s ->
  existsb (in_block p) (frame_allocator.blocks s) = true -> owner t p = Some a.
Proof.
  intros Hwf Ha Hp. unfold owner. set (l := filter _ _).
  assert ((a, s) ∈ l) as Hin by (apply list_elem_of_filter; split; [done|by apply elem_of_map_to_list]).
  destruct l as [|[a' s'] l'] eqn:El; [by apply not_elem_of_nil in Hin|]. simpl. f_equal.
  assert ((a', s') ∈ l) as Hin' by (rewrite El; by left). unfold l in Hin'. clear Hin El l l'.
  apply list_elem_of_filter in Hin' as [Hp' Ha'%elem_of_map_to_list]. simpl in Hp'.
  destruct (decide (a' = a)) as [|Hne]; [done|exfalso].
  apply in_block_inv in Hp as (b & Hb & ? & ?), Hp' as (b' & Hb' & ? & ?).
  destruct (Hwf _ _ _ Ha' Hb') as [_ Hd]. destruct (Hd _ _ _ Ha Hne Hb); lia.
Qed.

Lemma owner_none t p : (forall a s b, allocs t !! a = Some s -> b ∈ frame_allocator.blocks s -> p + 8 <= b.1 \/ b.1 + b.2 < p + 8) ->
  owner t p = None.
Proof.
  intros H. unfold owner. destruct (filter _ _) as [|[a s] l] eqn:El; [done|exfalso].
  assert ((a, s) ∈ (a, s) :: l) as Hin by by left. rewrite <- El in Hin.
  apply list_elem_of_filter in Hin as [Hp Ha%elem_of_map_to_list]. simpl in Hp.
  apply in_block_inv in Hp as (b & Hb & ? & ?). destruct (H _ _ _ Ha Hb); lia.
Qed.

Lemma returns_on_alloc {A} a (m : M astate A) t s Q : a <> nullptr -> allocs t !! a = Some s ->
  returns m s (fun x s' => Q x (upd t a s')) -> returns (on_alloc a m) t Q.
Proof. intros Ha Hs. unfold returns, on_alloc. rewrite decide_False, Hs by done. by destruct (m s) as [[]|]. Qed.

Lemma attempts_on_alloc R {A} a (m : M astate A) t s Q : a <> nullptr -> allocs t !! a = Some s ->
  attempts R m s (fun x s' => Q x (upd t a s')) -> attempts R (on_alloc a m) t Q.
Proof. intros Ha Hs. unfold attempts, on_alloc. rewrite decide_False, Hs by done. by destruct (m s) as [[]|]. Qed.

(** An access that succeeds in an allocator's memory goes there. *)
Lemma guard_inv p s s' : frame_allocator.guard_access p s = Done (tt, s') ->
  p <> nullptr /\ existsb (in_block p) (frame_allocator.blocks s) = true.
Proof.
  unfold frame_allocator.guard_access, mbind, M_bind, get. case_decide; [done|].
  destruct (existsb _ _) eqn:E; [done|]. done.
Qed.

Lemma read_own a t s p Q : wf (allocs t) -> a <> nullptr -> allocs t !! a = Some s ->
  returns (frame_allocator.read p) s (fun x s' => Q x (upd t a s')) -> returns (read p) t Q.
Proof.
  intros Hwf Ha Hs H. assert (p <> nullptr /\ owner t p = Some a) as [Hp Ho].
  { apply returns_Done in H as (x & s' & H & _). unfold frame_allocator.read, mbind, M_bind in H.
    destruct (frame_allocator.guard_access p s) as [[[] s1]|] eqn:E; [|done].
    apply guard_inv in E as [? ?]. split; [done|by eapply owner_eq]. }
  unfold returns, read. rewrite decide_False, Ho by done. by apply (returns_on_alloc a _ t s).
Qed.

Lemma write_own a t s p v Q : wf (allocs t) -> a <> nullptr -> allocs t !! a = Some s ->
  returns (frame_allocator.write p v) s (fun x s' => Q x (upd t a s')) -> returns (write p v) t Q.
Proof.
  intros Hwf Ha Hs H. assert (p <> nullptr /\ owner t p = Some a) as [Hp Ho].
  { apply returns_Done in H as (x & s' & H & _). unfold frame_allocator.write, mbind, M_bind in H.
    destruct (frame_allocator.guard_access p s) as [[[] s1]|] eqn:E; [|done].
    apply guard_inv in E as [? ?]. split; [done|by eapply owner_eq]. }
  unfold returns, write. rewrite decide_False, Ho by done. by apply (returns_on_alloc a _ t s).
Qed.

Lemma upd_same t a s : allocs t !! a = Some s -> upd t a s = t.
Proof. intros. destruct t. unfold upd. simpl in *. by rewrite insert_id. Qed.

Lemma read_state p s x s' : frame_allocator.read p s = Done (x, s') -> s' = s.
Proof.
  unfold frame_allocator.read, frame_allocator.guard_access, mbind, M_bind, get.
  case_decide; [done|]. destruct (existsb _ _); [|done]. simpl. destruct (frame_allocator.mem s !! p); [|done].
  intros E. by injection E.
Qed.

Lemma pop_own a t s p Q : wf (allocs t) -> a <> nullptr -> allocs t !! a = Some s ->
  returns (frame_allocator._M_pop_stack_frame p) s (fun x s' => Q x (upd t a s')) -> returns (pop_stack_frame a p) t Q.
Proof.
  intros Hwf Ha Hs H. unfold frame_allocator._M_pop_stack_frame, returns, mbind, M_bind in H.
  destruct (frame_allocator.read _ s) as [[c s1]|] eqn:E1; [|done]. pose proof (read_state _ _ _ _ E1) as ->.
  destruct (frame_allocator.read (_ + 8) s) as [[b s1]|] eqn:E2; [|done]. pose proof (read_state _ _ _ _ E2) as ->.
  simpl in H. unfold pop_stack_frame. apply returns_bind, (read_own a t s); [done..|]. unfold returns at 1. rewrite E1.
  rewrite upd_same by done. apply returns_bind, (read_own a t s); [done..|]. unfold returns at 1. rewrite E2.
  rewrite upd_same by done. by apply (returns_on_alloc a _ t s).
Qed.

(** A load depends on the allocators only and changes nothing. *)
Lemma read_same p t t' v t1 : read p t = Done (v, t1) -> allocs t' = allocs t -> t1 = t /\ read p t' = Done (v, t').
Proof.
  unfold read, owner, on_alloc. intros H Eal. rewrite Eal. case_decide; [done|]. destruct (fst <$> _) as [a|]; [|done].
  case_decide; [done|]. destruct (allocs t !! a) as [s|] eqn:Ha; [|done].
  destruct (frame_allocator.read p s) as [[y s2]|] eqn:E; [|done]. apply read_state in E as ->. injection H as -> <-.
  split.
  - by apply upd_same.
  - do 2 f_equal. destruct t'. simpl in *. rewrite insert_id by done. by rewrite Eal.
Qed.

(** Popping for an allocator that does not exist. *)
Lemma pop_null a r t t' u : pop_stack_frame a r t = Done u -> allocs t' = allocs t ->
  pop_stack_frame nullptr r t' = Fault NullDeref.
Proof.
  unfold pop_stack_frame, mbind, M_bind. intros H E.
  destruct (read _ t) as [[c t1]|] eqn:H1; [|done]. destruct (read_same _ _ t' _ _ H1 E) as [-> ->].
  destruct (read (_ + 8) t) as [[b t2]|] eqn:H2; [|done]. destruct (read_same _ _ t' _ _ H2 E) as [-> ->].
  unfold on_alloc. by rewrite decide_True.
Qed.

(** [_M_do_execute] up to the end of the resumption. *)
Lemma execute_resumes f m t x : prev t !! f = Some x -> f <> nullptr ->
  _M_do_execute f m t = (m;; p ← exchange_prev f nullptr; set_tls p)
    (mkThread (allocs t) nullptr (<[f := __k_tls_alloc t]> (prev t))).
Proof.
  intros Hf Hf0. unfold _M_do_execute. rewrite (run_bind get _ t t t) by done.
  rewrite (run_bind _ _ t (default nullptr (prev t !! f)) (mkThread (allocs t) (__k_tls_alloc t) (<[f := __k_tls_alloc t]> (prev t)))).
  - by rewrite (run_bind (set_tls nullptr) _ _ tt (mkThread (allocs t) nullptr (<[f := __k_tls_alloc t]> (prev t)))).
  - unfold exchange_prev. rewrite decide_False, Hf by done. done.
Qed.

Lemma elem_extents m a s b : m !! a = Some s -> b ∈ frame_allocator.blocks s -> b ∈ extents m.
Proof.
  intros Ha Hb. apply list_elem_of_In, in_flat_map. exists (a, s). split; [by apply list_elem_of_In, elem_of_map_to_list|].
  apply list_elem_of_In. by right.
Qed.

Lemma elem_extents_object m a s : m !! a = Some s -> (a, sizeof_allocator) ∈ extents m.
Proof.
  intros Ha. apply list_elem_of_In, in_flat_map. exists (a, s). split; [by apply list_elem_of_In, elem_of_map_to_list|].
  by left.
Qed.

Definition avoids (l : list (ptr * Z)) (b : ptr * Z) : Prop := forall e, e ∈ l -> disjoint_ranges b.1 b.2 e.1 e.2.

Lemma disjoint_sym a n b m : disjoint_ranges a n b m -> disjoint_ranges b m a n.
Proof. unfold disjoint_ranges. lia. Qed.

(** What [others] lists. *)
Lemma avoids_others t a b : avoids (others t a) b <->
  disjoint_ranges b.1 b.2 a sizeof_allocator /\
  (forall a', a' <> a -> is_Some (allocs t !! a') -> disjoint_ranges b.1 b.2 a' sizeof_allocator) /\
  (forall a' s' b', allocs t !! a' = Some s' -> a' <> a -> b' ∈ frame_allocator.blocks s' -> disjoint_ranges b.1 b.2 b'.1 b'.2).
Proof.
  unfold avoids, others. split.
  - intros H. split_and!.
    + apply (H (a, sizeof_allocator)). by left.
    + intros a' Hne [s' Hs']. apply (H (a', sizeof_allocator)). right. apply (elem_extents_object _ _ s').
      by rewrite lookup_delete_ne.
    + intros a' s' b' Ha' Hne Hb'. apply H. right. eapply (elem_extents _ a'); [|done]. by rewrite lookup_delete_ne.
  - intros (H1 & H2 & H3) e [->|He]%elem_of_cons; [done|].
    apply list_elem_of_In, in_flat_map in He as ([x r] & Hx%list_elem_of_In & He%list_elem_of_In).
    apply elem_of_map_to_list, lookup_delete_Some in Hx as [Hxa Hr]. unfold extent in He. simpl in He.
    apply elem_of_cons in He as [->|He]; simpl; [apply H2; eauto|by eapply H3].
Qed.

Lemma wf_avoids t a s : wf (allocs t) -> allocs t !! a = Some s -> Forall (avoids (others t a)) (frame_allocator.blocks s).
Proof.
  intros Hwf Ha. apply Forall_forall. intros b Hb. destruct (Hwf _ _ _ Ha Hb) as [H1 H2].
  apply avoids_others. split_and!; eauto.
Qed.

Lemma wf_upd t a s' : wf (allocs t) -> is_Some (allocs t !! a) ->
  Forall (avoids (others t a)) (frame_allocator.blocks s') -> wf (<[a := s']> (allocs t)).
Proof.
  intros Hwf Ha Hall x s b [[<- <-]|[Hne Hx]]%lookup_insert_Some Hb.
  - rewrite Forall_forall in Hall. apply Hall, avoids_others in Hb as (H1 & H2 & H3). split.
    + intros a' [<-|[Hne ?]]%lookup_insert_is_Some; eauto.
    + intros a' r b' [[<- _]|[_ Hr]]%lookup_insert_Some ? Hb'; [done|]. by eapply H3.
  - destruct (Hwf _ _ _ Hx Hb) as [H1 H2]. split.
    + intros a' [<-|[_ ?]]%lookup_insert_is_Some; eauto.
    + intros a' r b' [[<- <-]|[_ Hr]]%lookup_insert_Some Hne' Hb'; [|by eapply H2].
      rewrite Forall_forall in Hall. apply Hall, avoids_others in Hb' as (_ & _ & H3). apply disjoint_sym. by eapply H3.
Qed.

Lemma wf_new m p : wf m -> (forall e, e ∈ extents m -> disjoint_ranges p sizeof_allocator e.1 e.2) ->
  m !! p = None /\ wf (<[p := frame_allocator.fresh ∅]> m).
Proof.
  intros Hwf Hd. split.
  - destruct (m !! p) as [s|] eqn:E; [exfalso|done]. specialize (Hd _ (elem_extents_object _ _ _ E)).
    unfold disjoint_ranges, sizeof_allocator in Hd. simpl in Hd. lia.
  - intros x s b [[<- <-]|[Hne Hx]]%lookup_insert_Some Hb; [by apply not_elem_of_nil in Hb|].
    destruct (Hwf _ _ _ Hx Hb) as [H1 H2]. split.
    + intros a' [<-|[_ ?]]%lookup_insert_is_Some; [|by apply H1]. apply disjoint_sym. by apply Hd, (elem_extents _ x s).
    + intros a' r b' [[<- <-]|[_ Hr]]%lookup_insert_Some Hne' Hb'; [by apply not_elem_of_nil in Hb'|by eapply H2].
Qed.

(** ** The word behind a frame *)
Definition word_at (sz : Z) : Z := __round_up sz sizeof_ptr.

Lemma word_at_spec sz : 0 <= sz < 2 ^ 62 -> sz <= word_at sz < sz + 8 /\ word_at sz mod 8 = 0 /\
  __allocate_size sz = word_at sz + 8.
Proof.
  intros Hsz. unfold __allocate_size. fold (word_at sz).
  assert (word_at sz = 8 * ((sz + 7) / 8)) as E.
  { unfold word_at, sizeof_ptr. change 8 with (2 ^ 3) at 1. rewrite (round_up_div 3) by lia.
    change (2 ^ 3) with 8. rewrite wrap_small by (unfold is_word; lia). f_equal. f_equal. lia. }
  pose proof (Z.div_mod (sz + 7) 8 ltac:(lia)). pose proof (Z.mod_pos_bound (sz + 7) 8 ltac:(lia)).
  split_and!; [lia|lia| |].
  - rewrite E, Z.mul_comm. by apply Z.mod_mul.
  - unfold sizeof_ptr. rewrite wrap_small; [done|unfold is_word; lia].
Qed.

Lemma alloc_address_eq r sz : 0 <= sz < 2 ^ 62 -> (16 | r) -> 0 < r <= 2 ^ 47 ->
  __alloc_address r sz = r + word_at sz.
Proof.
  intros Hsz [k ->] Hr. unfold __alloc_address, word_at, sizeof_ptr. change 8 with (2 ^ 3).
  rewrite (wrap_small 64) by (unfold is_word; lia).
  rewrite round_up_ptr_eq by (lia || (unfold is_word; lia)). rewrite !(round_up_div 3) by lia. change (2 ^ 3) with 8.
  rewrite !wrap_small by (unfold is_word; lia).
  replace (k * 16 + sz + 8 - 1) with (sz + 8 - 1 + (2 * k) * 8) by lia.
  rewrite Z.div_add by lia. lia.
Qed.

Section frames_of_one.
Implicit Types (s : astate) (fs : list frame_allocator.frame).

Lemma frame_bounds s fs f : arep s fs -> f ∈ fs ->
  (16 | payload f) /\ 0 < frame_allocator.f_at f /\ frame_allocator.f_at f + frame_allocator.f_n f <= 2 ^ 47 /\
  frame_allocator.sizeof_prefix <= frame_allocator.f_n f /\
  exists b, b ∈ frame_allocator.blocks s /\ b.1 <= frame_allocator.f_at f /\
    frame_allocator.f_at f + frame_allocator.f_n f <= b.1 + b.2.
Proof.
  intros Hrep Hf. destruct (decide (frame_allocator.blocks s = [])) as [E|Hb].
  { pose proof (frame_allocator.a_cur _ _ Hrep) as Hcur. rewrite E in Hcur. destruct Hcur as [_ ->].
    by apply not_elem_of_nil in Hf. }
  destruct (frame_allocator.arep_stack _ _ Hrep Hb) as (i & _ & Hs).
  destruct (frame_allocator.stack_elem _ _ _ _ _ _ Hs Hf) as ((c & n & Hc & Hc1 & Hal) & Hn & (c' & n' & Hc' & Hc2 & _) & _).
  rewrite Hc in Hc'. injection Hc' as <- <-.
  destruct (frame_allocator.block_at _ _ _ _ (frame_allocator.a_ok _ _ Hrep) Hc) as (Hc0 & _ & _ & Hend).
  unfold payload, frame_allocator.sizeof_prefix in *. simpl in Hc0, Hend. split_and!; [|lia|lia|lia|].
  - apply Z.divide_add_r; [done|by exists 1].
  - exists (c, n). split; [by eapply list_elem_of_lookup_2|simpl; lia].
Qed.

Lemma client_read s ps st k r n c off v : frame_allocator.client_rel s ps st ->
  ps !! k = Some r -> st !! k = Some (n, c) -> c !! off = Some v ->
  returns (frame_allocator.read (r + off)) s (fun x s' => x = v /\ s' = s).
Proof.
  intros (fs & Hrep & -> & Hall) Hr Hk Hv.
  destruct (Forall2_lookup_r _ _ _ _ _ Hall Hk) as (f & Hf & Hn & Hc). rewrite list_lookup_fmap, Hf in Hr.
  injection Hr as <-. destruct (Hc _ _ Hv) as (H0 & Hoff & _ & Hm). simpl in Hn, Hoff.
  apply list_elem_of_lookup_2 in Hf. destruct (frame_bounds _ _ _ Hrep Hf) as (_ & Hat & _ & _ & [b z] & Hb & Hb1 & Hb2).
  apply list_elem_of_lookup in Hb as [i Hi]. unfold payload, frame_allocator.sizeof_prefix in *. simpl in Hb1, Hb2.
  eapply (frame_allocator.returns_read _ _ _ i b z); [unfold nullptr; lia|done|lia|lia|done|done].
Qed.

Lemma client_pop s r ps e st : frame_allocator.client_rel s (r :: ps) (e :: st) ->
  returns (frame_allocator._M_pop_stack_frame r) s (fun _ s' => frame_allocator.client_rel s' ps st /\
    frame_allocator.blocks s' = frame_allocator.blocks s).
Proof.
  intros (fs & Hrep & E & Hall). destruct fs as [|f fs]; [done|]. injection E as -> ->.
  apply Forall2_cons in Hall as [_ Hall]. eapply returns_mono; [by apply frame_allocator.pop_spec|].
  intros _ s' [Hrep' ->]. split; [|done]. by exists fs.
Qed.

Lemma client_store s ps st k r n c off v : frame_allocator.client_rel s ps st ->
  ps !! k = Some r -> st !! k = Some (n, c) -> 0 <= off -> off + 8 <= n -> off mod 8 = 0 ->
  returns (frame_allocator.write (r + off) v) s (fun _ s' =>
    frame_allocator.client_rel s' ps (<[k := (n, <[off := v]> c)]> st) /\
    frame_allocator.blocks s' = frame_allocator.blocks s).
Proof.
  intros (fs & Hrep & -> & Hall) Hr Hk H0 Hoff Hm.
  destruct (Forall2_lookup_r _ _ _ _ _ Hall Hk) as (f & Hf & Hn & _). rewrite list_lookup_fmap, Hf in Hr.
  injection Hr as <-. simpl in Hn. eapply returns_mono.
  { eapply frame_allocator.store_spec; [done|exact Hf|lia|unfold frame_allocator.sizeof_prefix in *; lia]. }
  intros _ s' [Hrep' ->]. split; [|done]. exists fs. split_and!; [done|done|]. by apply frame_allocator.store_contents.
Qed.

Lemma client_bounds s ps st r : frame_allocator.client_rel s ps st -> r ∈ ps -> (16 | r) /\ 0 < r <= 2 ^ 47.
Proof.
  intros (fs & Hrep & -> & Hall) Hr. apply list_elem_of_fmap in Hr as (f & -> & Hf).
  destruct (frame_bounds _ _ _ Hrep Hf) as (? & ? & ? & ? & _). unfold payload, frame_allocator.sizeof_prefix in *.
  split; [done|lia].
Qed.

Lemma stack_words bs m i b fs f : frame_allocator.stack bs m i b fs -> f ∈ fs ->
  is_Some (m !! frame_allocator.f_at f) /\ is_Some (m !! (frame_allocator.f_at f + 8)).
Proof.
  revert i b. induction fs as [|g fs IH]; intros i b; [by intros _ ?%not_elem_of_nil|].
  intros (_ & _ & _ & _ & _ & _ & H1 & H2 & Hs) [->|Hf]%elem_of_cons; [|by eapply IH].
  destruct (frame_allocator.stack_position _ _ _ _ _ Hs) as (c & n & Hc & _). rewrite H1, H2, Hc. eauto.
Qed.

(** Popping any live frame, the uppermost or not, moves the cursor only. *)
Lemma pop_any s fs f : arep s fs -> f ∈ fs ->
  returns (frame_allocator._M_pop_stack_frame (payload f)) s (fun _ s' =>
    frame_allocator.mem s' = frame_allocator.mem s /\ frame_allocator.blocks s' = frame_allocator.blocks s /\
    frame_allocator.__chunk_ s' = frame_allocator.__chunk_ s).
Proof.
  intros Hrep Hf. destruct (frame_bounds _ _ _ Hrep Hf) as (_ & Hat & _ & Hn & [b z] & Hb & Hb1 & Hb2). simpl in Hb1, Hb2.
  assert (frame_allocator.blocks s <> []) as Hne by (intros E; rewrite E in Hb; by apply not_elem_of_nil in Hb).
  destruct (frame_allocator.arep_stack _ _ Hrep Hne) as (i & _ & Hs).
  destruct (stack_words _ _ _ _ _ _ Hs Hf) as [[c Hc] [d Hd]]. apply list_elem_of_lookup in Hb as [j Hj].
  unfold frame_allocator._M_pop_stack_frame, payload, frame_allocator.sizeof_prefix in *.
  replace (frame_allocator.f_at f + 16 - 16) with (frame_allocator.f_at f) by lia.
  apply returns_bind. eapply (frame_allocator.returns_read _ _ _ j b z); [unfold nullptr; lia|done|lia..|exact Hc|].
  apply returns_bind. eapply (frame_allocator.returns_read _ _ _ j b z); [unfold nullptr; lia|done|lia..|exact Hd|].
  by apply returns_modify.
Qed.

Lemma destroy_after s fs s' : arep s fs -> frame_allocator.mem s' = frame_allocator.mem s ->
  frame_allocator.blocks s' = frame_allocator.blocks s -> frame_allocator.__chunk_ s' = frame_allocator.__chunk_ s ->
  returns (s ← get; frame_allocator.destroy (length (frame_allocator.blocks s))) s' (fun _ _ => True).
Proof.
  intros [[E Hc] Hap Hok _ _] Em Eb Eh. apply returns_bind, returns_get. unfold frame_allocator.destroy.
  apply returns_bind, returns_get. rewrite Eh, E, Eb. eapply returns_mono; [|done].
  apply frame_allocator.destroy_loop_spec; [done| |done|done]. rewrite Em. by split.
Qed.
End frames_of_one.

(** ** A call chain on one allocator

    What the allocator at [a] holds for the chain [st] of frames: each is as
    large as [__allocate_size] says and has its word behind it. *)
Abbreviation chain := (list (Z * frame_allocator.contents)).

Fixpoint encode (a : ptr) (st : chain) : chain :=
  match st with
  | [] => []
  | (sz, c) :: st' =>
      (__allocate_size sz, <[word_at sz := match st' with [] => a | _ => nullptr end]> c) :: encode a st'
  end.

Definition in_frame (e : Z * frame_allocator.contents) : Prop :=
  0 <= e.1 < 2 ^ 62 /\ forall off v, e.2 !! off = Some v -> 0 <= off /\ off + 8 <= e.1.

Record chain_on (t0 t : thread) (a : ptr) (s : astate) (ps : list (ptr * Z)) (st : chain) : Prop := {
  h_tls : __k_tls_alloc t = a;
  h_null : a <> nullptr;
  h_new : allocs t0 !! a = None;
  h_allocs : allocs t = <[a := s]> (allocs t0);
  h_prev : prev t = prev t0;
  h_wf : wf (allocs t);
  h_client : frame_allocator.client_rel s ps.*1 (encode a st);
  h_sizes : ps.*2 = st.*1;
  h_frames : Forall in_frame st;
  h_some : st <> []
}.

(** [t0]: the thread before the chain was entered. *)
Definition chain_rel (t0 t : thread) (ps : list (ptr * Z)) (st : chain) : Prop :=
  st = [] /\ ps = [] /\ t = t0 \/ exists a s, chain_on t0 t a s ps st.

Lemma encode_lookup a st k sz c : st !! k = Some (sz, c) -> exists v,
  encode a st !! k = Some (__allocate_size sz, <[word_at sz := v]> c) /\
  (v = a \/ v = nullptr) /\ (v = a <-> S k = length st \/ a = nullptr).
Proof.
  revert k. induction st as [|[sz' c'] st IH]; intros [|k] Hk; simpl in *; [done|done| |].
  - injection Hk as -> ->. destruct st; eexists; (split; [done|]); simpl; split; naive_solver.
  - destruct (IH k Hk) as (v & ? & ? & ?). exists v. split_and!; [done|done|]. naive_solver.
Qed.

Lemma encode_store a st k sz c off v : st !! k = Some (sz, c) -> off <> word_at sz -> exists x,
  encode a st !! k = Some (__allocate_size sz, <[word_at sz := x]> c) /\
  encode a (<[k := (sz, <[off := v]> c)]> st) =
  <[k := (__allocate_size sz, <[off := v]> (<[word_at sz := x]> c))]> (encode a st).
Proof.
  intros Hk Hoff. revert k Hk. induction st as [|[sz' c'] st IH]; intros [|k] Hk; simpl in *; [done|done| |].
  - injection Hk as -> ->. eexists. split; [done|].
    do 2 f_equal. apply (insert_insert_ne (M := gmap Z)). congruence.
  - destruct (IH k Hk) as (x & ? & E). exists x. split; [done|]. rewrite E. f_equal. f_equal. f_equal. by destruct st, k.
Qed.

Section chains.
Context (operator_new : list (ptr * Z) -> Z -> ptr) (Hnew : new_spec operator_new).

Lemma attempts_adds R (G : ptr * Z -> Prop) {A} (m : M astate A) s Q : attempts R m s Q -> adds G m ->
  Forall G (frame_allocator.blocks s) -> attempts R m s (fun x s' => Q x s' /\ Forall G (frame_allocator.blocks s')).
Proof. unfold attempts, adds. intros H Hm HG. specialize (Hm s). destruct (m s) as [[x s']|]; auto. Qed.

Lemma push_attempts l s ps st sz : frame_allocator.client_rel s ps st -> 0 <= sz < 2 ^ 63 ->
  Forall (avoids l) (frame_allocator.blocks s) ->
  attempts (frame_allocator.refused (new_beside operator_new l) s (frame_size sz)) (s ← get; frame_allocator._M_push_stack_frame (new_beside operator_new l)
      (length (frame_allocator.blocks s) + 2) sz) s
    (fun r s' => frame_allocator.client_rel s' (r :: ps) ((sz, ∅) :: st) /\ Forall (avoids l) (frame_allocator.blocks s')).
Proof using Hnew.
  intros Hrel Hsz Hl. apply attempts_adds; [|apply adds_bind; [apply adds_get|intros s1; apply adds_push]|done].
  - pose proof (frame_allocator.client_step_correct _ (new_beside_spec _ l Hnew) (frame_allocator.Push sz) s ps st
      ((sz, ∅) :: st) Hrel) as H. simpl in H. rewrite bool_decide_eq_true_2 in H by done. specialize (H eq_refl).
    unfold attempts, mbind, M_bind, get in H |- *.
    destruct (frame_allocator._M_push_stack_frame _ _ _ _) as [[r s1]|]; [|done]. exact H.
  - intros bs n Hp. unfold new_beside in *. destruct (Hnew _ _ Hp) as (_ & _ & _ & _ & Hd).
    intros e He. apply Hd, elem_of_app. by left.
Qed.

Lemma wf_store t a s s' : wf (allocs t) -> allocs t !! a = Some s ->
  frame_allocator.blocks s' = frame_allocator.blocks s -> wf (<[a := s']> (allocs t)).
Proof. intros Hwf Ha E. apply wf_upd; [done|eauto|]. rewrite E. by apply wf_avoids. Qed.

Lemma upd_upd t a s s' : upd (upd t a s) a s' = upd t a s'.
Proof. unfold upd. simpl. by rewrite insert_insert_eq. Qed.

(** What [promise_new] asks for is refused: the allocator of a top frame, or a
    chunk for the frame. *)
Definition push_refused (t : thread) (a : ptr) (sz : Z) : Prop := exists s, allocs t !! a = Some s /\
  frame_allocator.refused (new_beside operator_new (others t a)) s (frame_size (__allocate_size sz)).
Definition new_refused (t : thread) (sz : Z) : Prop :=
  if decide (__k_tls_alloc t = nullptr) then
    let p := operator_new (extents (allocs t)) sizeof_allocator in
    p = nullptr \/ push_refused (mkThread (<[p := frame_allocator.fresh ∅]> (allocs t)) p (prev t)) p sz
  else push_refused t (__k_tls_alloc t) sz.

(** Pushing a frame and writing the word behind it. *)
Lemma push_word t a s ps st sz v : wf (allocs t) -> a <> nullptr -> allocs t !! a = Some s ->
  frame_allocator.client_rel s ps st -> 0 <= sz < 2 ^ 62 ->
  attempts (push_refused t a sz) (r ← push_stack_frame operator_new a (__allocate_size sz);
      write (__alloc_address r sz) v;; mret r) t
    (fun r t' => exists s', t' = upd t a s' /\ wf (allocs t') /\
       frame_allocator.client_rel s' (r :: ps) ((__allocate_size sz, {[word_at sz := v]}) :: st)).
Proof using Hnew.
  intros Hwf Ha Hs Hrel Hsz. destruct (word_at_spec sz Hsz) as (Hw & Hmod & Has).
  apply frame_allocator.attempts_bind. unfold push_stack_frame.
  apply frame_allocator.attempts_bind_returns, returns_get.
  apply (attempts_on_alloc _ a _ t s); [done..|]. eapply frame_allocator.attempts_impl.
  { apply push_attempts; [done|lia|by apply wf_avoids]. }
  { intros Hr. by exists s. }
  intros r s1 [Hrel1 Hav]. apply frame_allocator.attempts_returns.
  assert (wf (allocs (upd t a s1))) as Hwf1 by (apply wf_upd; eauto).
  destruct (client_bounds _ _ _ r Hrel1) as (Hal & Hr); [by left|]. rewrite alloc_address_eq by done.
  apply returns_bind, (write_own a _ s1); [done|done|by simpl; rewrite lookup_insert_eq|].
  eapply returns_mono; [eapply (client_store _ _ _ 0); [exact Hrel1|done|done|lia|lia|done]|].
  intros _ s2 [Hrel2 Eb]. apply returns_ret. exists s2. rewrite upd_upd.
  split_and!; [done| |exact Hrel2]. rewrite <- (upd_upd t a s1 s2).
  apply (wf_store (upd t a s1) a s1); [done|apply lookup_insert_eq|done].
Qed.

Lemma chain_push_word t0 t a s ps st sz : 0 <= sz < 2 ^ 62 -> a <> nullptr -> allocs t0 !! a = None ->
  __k_tls_alloc t = a -> allocs t = <[a := s]> (allocs t0) -> prev t = prev t0 -> wf (allocs t) ->
  frame_allocator.client_rel s ps.*1 (encode a st) -> ps.*2 = st.*1 -> Forall in_frame st ->
  attempts (push_refused t a sz) (r ← push_stack_frame operator_new a (__allocate_size sz);
      write (__alloc_address r sz) (match st with [] => a | _ => nullptr end);; mret r) t
    (fun r t' => exists s', chain_on t0 t' a s' ((r, sz) :: ps) ((sz, ∅) :: st)).
Proof using Hnew.
  intros Hsz Ha Hn Htls Hall Hprev Hwf Hrel Hps Hst. eapply frame_allocator.attempts_mono.
  { apply (push_word t a s ps.*1 (encode a st)); [done|done| |done|done]. rewrite Hall. apply lookup_insert_eq. }
  intros r t' (s' & -> & Hwf' & Hrel'). exists s'. split; simpl; try done.
  - rewrite Hall. apply insert_insert_eq.
  - f_equal. exact Hps.
  - constructor; [|done]. split; [done|]. simpl. intros off v Hv. by apply (lookup_empty_Some (M := gmap Z)) in Hv.
Qed.

Lemma chain_new t0 t ps st sz : wf (allocs t0) -> __k_tls_alloc t0 = nullptr -> chain_rel t0 t ps st ->
  0 <= sz < 2 ^ 62 ->
  attempts (new_refused t sz) (promise_new operator_new sz) t (fun r t' => chain_rel t0 t' ((r, sz) :: ps) ((sz, ∅) :: st)).
Proof using Hnew.
  intros Hwf Htls Hrel Hsz. unfold promise_new. apply frame_allocator.attempts_bind_returns, returns_get.
  destruct Hrel as [(-> & -> & ->)|(a & s & [Et Ha Hn Hall Hprev Hwf' Hrel Hps Hst Hne])].
  - rewrite bool_decide_eq_true_2 by done. apply frame_allocator.attempts_bind, frame_allocator.attempts_bind.
    unfold new_allocator. apply frame_allocator.attempts_bind_returns, returns_get.
    set (p := operator_new (extents (allocs t0)) sizeof_allocator). case_decide as Hp.
    { apply frame_allocator.attempts_returns, returns_ret, frame_allocator.attempts_bind_returns, returns_modify.
      apply frame_allocator.attempts_returns, returns_ret. rewrite Hp.
      unfold attempts, push_stack_frame, on_alloc, mbind, M_bind, get. rewrite decide_True by done.
      split; [done|]. unfold new_refused. rewrite decide_True by done. by left. }
    destruct (Hnew _ _ Hp) as (_ & _ & _ & _ & Hd). fold p in Hd. destruct (wf_new _ _ Hwf Hd) as [Hnone Hwf1].
    apply frame_allocator.attempts_bind_returns, returns_put, frame_allocator.attempts_returns, returns_ret.
    apply frame_allocator.attempts_bind_returns, returns_modify. apply frame_allocator.attempts_returns, returns_ret.
    eapply frame_allocator.attempts_impl.
    { eapply (chain_push_word t0 _ p (frame_allocator.fresh ∅) [] []); try done.
      exists []. split_and!; [apply frame_allocator.fresh_rep|done|constructor]. }
    { intros Hr. unfold new_refused. rewrite decide_True by done. right. exact Hr. }
    intros r t' [s' Hon]. right. by exists p, s'.
  - rewrite bool_decide_eq_false_2 by congruence. apply frame_allocator.attempts_bind_returns, returns_ret.
    rewrite Et. replace nullptr with (match st with [] => a | _ => nullptr end) by by destruct st.
    eapply frame_allocator.attempts_impl; [by eapply (chain_push_word t0 t a s ps st)| |].
    { intros Hr. unfold new_refused. by rewrite decide_False, Et by congruence. }
    intros r t' [s' Hon]. right. by exists a, s'.
Qed.

Lemma chain_store t0 t ps st k r sz c off v : chain_rel t0 t ps st -> ps !! k = Some (r, sz) -> st !! k = Some (sz, c) ->
  0 <= off -> off + 8 <= sz -> off mod 8 = 0 ->
  returns (write (r + off) v) t (fun _ t' => chain_rel t0 t' ps (<[k := (sz, <[off := v]> c)]> st)).
Proof.
  intros [(-> & _)|(a & s & [Et Ha Hn Hall Hprev Hwf' Hrel Hps Hst Hne])] Hr Hk H0 Hoff Hm; [done|].
  assert (in_frame (sz, c)) as [Hsz Hc] by (rewrite Forall_lookup in Hst; by eapply Hst). simpl in Hsz, Hc.
  destruct (word_at_spec sz Hsz) as (Hw & _ & Has).
  destruct (encode_store a st k sz c off v Hk) as (x & Hx & E); [lia|].
  assert (allocs t !! a = Some s) as Hs by (rewrite Hall; apply lookup_insert_eq).
  apply (write_own a t s); [done..|]. eapply returns_mono.
  { eapply (client_store _ _ _ k); [exact Hrel|by rewrite list_lookup_fmap, Hr|exact Hx|done|lia|done]. }
  intros _ s' [Hrel' Eb]. right. exists a, s'. split; simpl; try done.
  - rewrite Hall. apply insert_insert_eq.
  - by apply (wf_store t a s).
  - by rewrite E.
  - rewrite Hps, list_fmap_insert, list_insert_id; [done|]. by rewrite list_lookup_fmap, Hk.
  - apply Forall_insert; [done|]. split; [done|]. simpl. intros off' v' [[<- _]|[_ Hv]]%lookup_insert_Some; [lia|eauto].
  - by destruct st, k.
Qed.

(** The word that [promise_delete] reads. *)
Lemma chain_word t0 t a s ps st k r sz c : chain_on t0 t a s ps st -> ps !! k = Some (r, sz) -> st !! k = Some (sz, c) ->
  returns (read (__alloc_address r sz)) t (fun x t' => t' = t /\
    x = if decide (S k = length st) then a else nullptr).
Proof.
  intros [Et Ha Hn Hall Hprev Hwf' Hrel Hps Hst Hne] Hr Hk.
  assert (in_frame (sz, c)) as [Hsz Hc] by (rewrite Forall_lookup in Hst; by eapply Hst). simpl in Hsz, Hc.
  destruct (encode_lookup a st k sz c Hk) as (v & Hv & Hv2 & Hv3).
  assert (ps.*1 !! k = Some r) as Hr1 by by rewrite list_lookup_fmap, Hr.
  destruct (client_bounds _ _ _ r Hrel) as [Hal Hrb]; [by eapply list_elem_of_lookup_2|].
  rewrite alloc_address_eq by done. assert (allocs t !! a = Some s) as Hs by (rewrite Hall; apply lookup_insert_eq).
  apply (read_own a t s); [done..|]. eapply returns_mono.
  { eapply (client_read _ _ _ k); [exact Hrel|done|exact Hv|apply lookup_insert_eq]. }
  intros x s' [-> ->]. split; [by apply upd_same|]. case_decide; naive_solver.
Qed.

(** Deleting the frame that brought the allocator along, whether or not frames
    above it are left, frees the allocator with everything on it. *)
Lemma chain_delete_bottom t0 t t1 a s ps st k r sz c : chain_on t0 t a s ps st -> allocs t1 = allocs t ->
  ps !! k = Some (r, sz) -> st !! k = Some (sz, c) -> S k = length st ->
  returns (promise_delete r sz) t1 (fun _ t' => t' = mkThread (allocs t0) nullptr (prev t1)).
Proof.
  intros Hon E1 Hr Hk El. pose proof Hon as [Et Ha Hn Hall Hprev Hwf' (fs & Hrep & Eps & _) Hps Hst Hne].
  assert (allocs t1 !! a = Some s) as Hs by (rewrite E1, Hall; apply lookup_insert_eq).
  assert (r ∈ payload <$> fs) as (f & -> & Hf)%list_elem_of_fmap.
  { rewrite <- Eps. apply (list_elem_of_lookup_2 _ k). by rewrite list_lookup_fmap, Hr. }
  pose proof (chain_word _ _ _ _ _ _ _ _ _ _ Hon Hr Hk) as Hword. rewrite decide_True in Hword by done.
  apply returns_Done in Hword as (x & t2 & Hread & -> & ->). destruct (read_same _ _ t1 _ _ Hread E1) as [_ Hread1].
  unfold promise_delete, returns. rewrite (run_bind _ _ t1 _ _ Hread1), decide_True by done.
  apply returns_bind. rewrite <- E1 in Hwf'. apply (pop_own a t1 s); [done..|].
  eapply returns_mono; [by eapply pop_any|].
  intros _ s1 (Em & Eb & Eh). apply returns_bind, returns_modify. apply returns_bind.
  apply (returns_on_alloc a _ _ s1); [done|apply lookup_insert_eq|].
  eapply returns_mono; [by eapply destroy_after|]. intros _ s2 _. apply returns_modify.
  unfold upd. cbn [allocs prev]. rewrite insert_insert_eq, E1, Hall, insert_insert_eq. by rewrite delete_insert_id.
Qed.

Lemma chain_delete t0 t r sz ps e st : __k_tls_alloc t0 = nullptr -> chain_rel t0 t ((r, sz) :: ps) (e :: st) ->
  returns (promise_delete r sz) t (fun _ t' => chain_rel t0 t' ps st).
Proof.
  intros Htls0 [(E & _)|(a & s & Hon)]; [done|]. destruct e as [sz' c].
  pose proof Hon as [Et Ha Hn Hall Hprev Hwf' Hrel Hps Hst Hne]. injection Hps as Esz Hps. simpl in Esz. subst sz'.
  destruct (decide (st = [])) as [->|Hst'].
  { apply fmap_nil_inv in Hps as ->.
    eapply returns_mono; [by eapply (chain_delete_bottom _ _ _ _ _ _ _ 0)|].
    intros _ t' ->. left. split_and!; [done..|]. rewrite Hprev, <- Htls0. by destruct t0. }
  assert (allocs t !! a = Some s) as Hs by (rewrite Hall; apply lookup_insert_eq).
  unfold promise_delete. apply returns_bind. eapply returns_mono; [by eapply (chain_word _ _ _ _ _ _ 0)|].
  intros x t1 [-> Ex]. rewrite decide_False in Ex by (destruct st; simpl in *; [done|lia]). subst x. rewrite decide_False by tauto.
  apply returns_bind, returns_get. rewrite Et. apply (pop_own a t s); [done..|].
  simpl in Hrel. eapply returns_mono; [by eapply client_pop|]. intros _ s' [Hrel' Eb]. right. exists a, s'.
  split; simpl; try done.
  - rewrite Hall. apply insert_insert_eq.
  - by apply (wf_store t a s).
  - by apply Forall_cons in Hst as [_ ?].
Qed.

Definition small (o : frame_allocator.op) : Prop := match o with frame_allocator.Push sz => sz < 2 ^ 62 | _ => True end.

(** The run gets to a coroutine whose frame [operator new] does not serve. *)
Definition step_refused (o : frame_allocator.op) (t : thread) : Prop :=
  match o with frame_allocator.Push sz => new_refused t sz | _ => False end.
Definition run_refused (l : list frame_allocator.op) (ps : list (ptr * Z)) (t : thread) : Prop := exists l1 o l2 ps1 t1,
  l = l1 ++ o :: l2 /\ chain_run operator_new l1 ps t = Done (ps1, t1) /\ step_refused o t1.

Lemma chain_step_correct t0 t o ps st st' : wf (allocs t0) -> __k_tls_alloc t0 = nullptr -> chain_rel t0 t ps st ->
  small o -> frame_allocator.spec_step o st = Some st' ->
  attempts (step_refused o t) (chain_step operator_new o ps) t (fun ps' t' => chain_rel t0 t' ps' st').
Proof using Hnew.
  intros Hwf Htls Hrel Hsm Hst. destruct o as [sz| |k off v]; simpl in Hst, Hsm.
  - case_bool_decide; simplify_eq. simpl. apply frame_allocator.attempts_bind. eapply frame_allocator.attempts_mono.
    { eapply chain_new; try done. lia. }
    intros r t' ?. by apply frame_allocator.attempts_returns, returns_ret.
  - destruct st as [|e st]; simplify_eq. destruct ps as [|[r sz] ps].
    { destruct Hrel as [[? _]|(a & s & Hon)]; [done|]. pose proof (h_sizes _ _ _ _ _ _ Hon). done. }
    simpl. apply frame_allocator.attempts_bind_returns. eapply returns_mono; [by eapply chain_delete|].
    intros u t' Hu. apply frame_allocator.attempts_returns, returns_ret. exact Hu.
  - destruct (st !! k) as [[sz c]|] eqn:Hk; [|done]. case_bool_decide as Ho; simplify_eq. destruct Ho as (? & ? & ?).
    assert (exists r, ps !! k = Some (r, sz)) as [r Hr].
    { destruct Hrel as [(-> & _)|(a & s & Hon)]; [done|]. pose proof (h_sizes _ _ _ _ _ _ Hon) as Hps.
      assert (ps.*2 !! k = Some sz) as E by by rewrite Hps, list_lookup_fmap, Hk.
      rewrite list_lookup_fmap in E. destruct (ps !! k) as [[r sz']|]; [|done]. injection E as ->. eauto. }
    simpl. rewrite Hr. apply frame_allocator.attempts_bind_returns. eapply returns_mono; [by eapply chain_store|].
    intros u t' Hu. apply frame_allocator.attempts_returns, returns_ret. exact Hu.
Qed.

Lemma chain_run_correct t0 l : wf (allocs t0) -> __k_tls_alloc t0 = nullptr -> Forall small l ->
  forall t ps st st', chain_rel t0 t ps st -> frame_allocator.spec_run l st = Some st' ->
  attempts (run_refused l ps t) (chain_run operator_new l ps) t (fun ps' t' => chain_rel t0 t' ps' st').
Proof using Hnew.
  intros Hwf Htls. induction l as [|o l IH]; intros Hl t ps st st' Hrel Hrun; simpl in Hrun.
  - simplify_eq. by apply frame_allocator.attempts_returns, returns_ret.
  - apply Forall_cons in Hl as [Ho Hl]. destruct (frame_allocator.spec_step o st) as [st1|] eqn:Hst; [|done].
    pose proof (chain_step_correct t0 t o ps st st1 Hwf Htls Hrel Ho Hst) as Hstep. unfold attempts in Hstep.
    destruct (chain_step operator_new o ps t) as [[ps1 t1]|f] eqn:E; cycle 1.
    { destruct Hstep as [-> Hr]. unfold attempts. simpl. unfold mbind, M_bind. rewrite E. split; [done|].
      by exists [], o, l, ps, t. }
    eapply (frame_allocator.attempts_impl _ (run_refused l ps1 t1));
      [|intros (l1 & o1 & l2 & ps2 & t2 & -> & E2 & Ho1)|intros ps' t' H; exact H].
    { unfold attempts. simpl. unfold mbind, M_bind. rewrite E. exact (IH Hl t1 ps1 st1 st' Hstep Hrun). }
    exists (o :: l1), o1, l2, ps2, t2. split_and!; [done| |done]. simpl. unfold mbind, M_bind. by rewrite E.
Qed.
End chains.

(** ** The theorems *)
Section properties.
Context (operator_new : list (ptr * Z) -> Z -> ptr).

(** A run of a chain that has succeeded is in the relation. *)
Lemma chain_ran t0 l st ps t : new_spec operator_new -> wf (allocs t0) -> __k_tls_alloc t0 = nullptr ->
  Forall small l -> frame_allocator.spec_run l [] = Some st -> chain_run operator_new l [] t0 = Done (ps, t) ->
  chain_rel t0 t ps st.
Proof.
  intros Hnew Hwf Htls Hl Hst Hrun.
  pose proof (chain_run_correct operator_new Hnew t0 l Hwf Htls Hl t0 [] [] st ltac:(by left) Hst) as H.
  unfold attempts in H. by rewrite Hrun in H.
Qed.

Lemma chain_on_frames t0 t a s ps st : chain_on t0 t a s ps st -> exists fs, arep s fs /\
  forall k r sz, ps !! k = Some (r, sz) -> exists f, fs !! k = Some f /\ r = payload f /\
    sz + frame_allocator.sizeof_prefix <= frame_allocator.f_n f.
Proof.
  intros [_ _ _ _ _ _ (fs & Hrep & Eps & Hall) Hps Hst _]. exists fs. split; [done|]. intros k r sz Hk.
  assert (ps.*1 !! k = Some r) as Hr by by rewrite list_lookup_fmap, Hk.
  rewrite Eps, list_lookup_fmap in Hr. destruct (fs !! k) as [f|] eqn:Hf; [|done]. injection Hr as <-.
  assert (st.*1 !! k = Some sz) as Hsz by by rewrite <- Hps, list_lookup_fmap, Hk.
  rewrite list_lookup_fmap in Hsz. destruct (st !! k) as [[sz' c]|] eqn:Hk2; [|done]. injection Hsz as ->.
  destruct (encode_lookup a st k sz c Hk2) as (v & Hv & _). destruct (Forall2_lookup_lr _ _ _ _ _ _ Hall Hf Hv) as [Hn _].
  rewrite Forall_lookup in Hst. destruct (Hst _ _ Hk2) as [Hin _]. simpl in Hn, Hin.
  destruct (word_at_spec sz Hin) as (? & _ & E). rewrite E in Hn. exists f. split_and!; try done. lia.
Qed.

(** C10: coroutines that call each other, create their frames and destroy them in
    stack order within one resumption see independent memories: an operation fails
    only when it creates a frame and [operator new] refuses the allocator or one of
    the at most two chunks this asks for, the first frame brings an
    allocator of its own along, frames are aligned, do not overlap and keep what
    is stored in them, other allocators are left alone, and when the last frame
    is gone so is the allocator and [__k_tls_alloc] is null again. *)
Theorem frames_nest t l st : new_spec operator_new -> wf (allocs t) -> __k_tls_alloc t = nullptr ->
  Forall small l -> frame_allocator.spec_run l [] = Some st ->
  attempts (run_refused operator_new l [] t) (chain_run operator_new l []) t (fun ps t' =>
    (st = [] -> t' = t) /\
    (st <> [] -> __k_tls_alloc t' <> nullptr /\ allocs t !! __k_tls_alloc t' = None /\
       delete (__k_tls_alloc t') (allocs t') = allocs t) /\
    ps.*2 = st.*1 /\
    (forall k r sz c off v, ps !! k = Some (r, sz) -> st !! k = Some (sz, c) -> c !! off = Some v ->
       read (r + off) t' = Done (v, t')) /\
    (forall k r n, ps !! k = Some (r, n) -> (16 | r) /\
       forall j r' n', ps !! j = Some (r', n') -> j <> k -> disjoint_ranges r n r' n')).
Proof.
  intros Hnew Hwf Htls Hl Hst. eapply frame_allocator.attempts_mono.
  { eapply (chain_run_correct operator_new Hnew t l Hwf Htls Hl t [] []); [by left|exact Hst]. }
  intros ps t' [(-> & -> & ->)|(a & s & Hon)]; [by split_and!|].
  pose proof Hon as [Et Ha Hn Hall Hprev Hwf' Hrel Hps Hfr Hne]. split_and!; [done| |done| |].
  - intros _. rewrite Et, Hall. split_and!; [done|done|]. by apply delete_insert_id.
  - intros k r sz c off v Hr Hk Hv. destruct (encode_lookup a st k sz c Hk) as (w & Hw & _).
    assert (allocs t' !! a = Some s) as Hs by (rewrite Hall; apply lookup_insert_eq).
    assert (in_frame (sz, c)) as [Hsz Hc] by (rewrite Forall_lookup in Hfr; by eapply Hfr). simpl in Hsz, Hc.
    destruct (word_at_spec sz Hsz) as (Hwa & _). destruct (Hc _ _ Hv) as [Ho1 Ho2].
    assert (returns (read (r + off)) t' (fun x t1 => x = v /\ t1 = t')) as H.
    { apply (read_own a t' s); [done..|]. eapply returns_mono.
      - eapply (client_read _ _ _ k); [exact Hrel|by rewrite list_lookup_fmap, Hr|exact Hw|].
        etrans; [apply (lookup_insert_ne (M := gmap Z)); lia|exact Hv].
      - intros x s1 [-> ->]. split; [done|by apply upd_same]. }
    apply returns_Done in H as (x & t1 & H & -> & ->). exact H.
  - destruct (chain_on_frames _ _ _ _ _ _ Hon) as (fs & Hrep & Hfs).
    intros k r n Hk. destruct (Hfs k r n Hk) as (f & Hf & -> & Hfn).
    split; [by apply (frame_bounds s fs f Hrep), (list_elem_of_lookup_2 _ k)|]. intros j r' n' Hj Hne'.
    destruct (Hfs j r' n' Hj) as (g & Hg & -> & Hgn).
    pose proof (frame_allocator.arep_pairwise _ _ _ _ _ _ Hrep Hf Hg ltac:(done)) as Hd.
    unfold disjoint_ranges, payload, frame_allocator.sizeof_prefix in *. lia.
Qed.

(** C32: [_M_do_execute] isolates what it resumes: a resumption that destroys every
    frame it creates leaves the allocators of the thread, [__k_tls_alloc] and
    the facades as they were, whatever [__k_tls_alloc] was.  It fails only when
    [operator new] refuses what one of these frames needs. *)
Theorem execute_isolates t l f x : new_spec operator_new -> wf (allocs t) -> Forall small l ->
  frame_allocator.spec_run l [] = Some [] -> prev t !! f = Some x -> f <> nullptr ->
  attempts (run_refused operator_new l [] (mkThread (allocs t) nullptr (<[f := __k_tls_alloc t]> (prev t))))
    (_M_do_execute f (chain_run operator_new l [];; mret tt)) t (fun _ t' =>
    t' = mkThread (allocs t) (__k_tls_alloc t) (<[f := nullptr]> (prev t))).
Proof.
  intros Hnew Hwf Hl Hst Hf Hf0. unfold _M_do_execute. apply frame_allocator.attempts_bind_returns, returns_get.
  apply frame_allocator.attempts_bind_returns. unfold exchange_prev at 1, returns. rewrite decide_False, Hf by done.
  apply frame_allocator.attempts_bind_returns, returns_modify. cbn [allocs prev].
  apply frame_allocator.attempts_bind, frame_allocator.attempts_bind. set (t1 := mkThread _ nullptr _).
  eapply frame_allocator.attempts_mono.
  { eapply (chain_run_correct operator_new Hnew t1 l Hwf eq_refl Hl t1 [] []); [by left|exact Hst]. }
  intros ps t' [(_ & -> & ->)|(a & s & Hon)]; [|by destruct (h_some _ _ _ _ _ _ Hon)].
  apply frame_allocator.attempts_returns, returns_ret, frame_allocator.attempts_returns, returns_bind.
  unfold exchange_prev, returns, t1. cbn [allocs prev __k_tls_alloc]. rewrite decide_False, lookup_insert_eq by done.
  by rewrite insert_insert_eq.
Qed.

(** The chain as [promise_delete] of its first frame finds it. *)
Lemma chain_first t0 t a s r sz ps e1 e2 st : chain_on t0 t a s ((r, sz) :: ps) (e1 :: e2 :: st) ->
  read (__alloc_address r sz) t = Done (nullptr, t) /\ exists u, pop_stack_frame a r t = Done u.
Proof.
  intros Hon. destruct e1 as [sz1 c1]. pose proof Hon as [Et Ha Hn Hall Hprev Hwf' Hrel Hps Hfr Hne].
  injection Hps as Esz Hps. simpl in Esz. subst sz1.
  assert (allocs t !! a = Some s) as Hs by (rewrite Hall; apply lookup_insert_eq). split.
  - pose proof (chain_word _ _ _ _ _ _ 0%nat _ _ _ Hon eq_refl eq_refl) as H. rewrite decide_False in H by (simpl; lia).
    apply returns_Done in H as (y & t2 & H & -> & ->). exact H.
  - assert (returns (pop_stack_frame a r) t (fun _ _ => True)) as H.
    { apply (pop_own a t s); [done..|]. eapply returns_mono; [by eapply client_pop|done]. }
    apply returns_Done in H as (y & t2 & H & _). eauto.
Qed.

(** a frame below which another one is alive can be destroyed only in the
    resumption that created it: when the coroutine was suspended and its caller
    destroys it during a later resumption, [operator delete] goes through the
    null [__k_tls_alloc]. *)
Theorem suspended_child_cannot_be_deleted t0 l e1 e2 st r sz ps t f x : new_spec operator_new -> wf (allocs t0) ->
  __k_tls_alloc t0 = nullptr -> Forall small l -> frame_allocator.spec_run l [] = Some (e1 :: e2 :: st) ->
  chain_run operator_new l [] t0 = Done ((r, sz) :: ps, t) -> prev t !! f = Some x -> f <> nullptr ->
  _M_do_execute f (promise_delete r sz) t = Fault NullDeref.
Proof.
  intros Hnew Hwf Htls Hl Hst Hrun Hf Hf0.
  destruct (chain_ran _ _ _ _ _ Hnew Hwf Htls Hl Hst Hrun) as [(? & _)|(a & s & Hon)]; [done|].
  destruct (chain_first _ _ _ _ _ _ _ _ _ _ Hon) as [Hread [u Hpop]].
  set (t1 := mkThread (allocs t) nullptr (<[f := __k_tls_alloc t]> (prev t))).
  destruct (read_same _ _ t1 _ _ Hread eq_refl) as [_ Hread1].
  rewrite (execute_resumes _ _ _ _ Hf Hf0). fold t1.
  assert (promise_delete r sz t1 = Fault NullDeref) as E; [|unfold mbind at 1, M_bind at 1; by rewrite E].
  unfold promise_delete. rewrite (run_bind _ _ t1 _ _ Hread1), decide_False by tauto.
  rewrite (run_bind get _ t1 t1 t1) by done. exact (pop_null _ _ _ t1 _ Hpop eq_refl).
Qed.

(** when the last frame of a chain is destroyed during a resumption,
    [_M_do_execute] restores the address of the allocator that went with it:
    [__k_tls_alloc] dangles and the next frame is pushed on a deleted
    allocator. *)
Theorem finished_root_leaves_dangling t0 l e r sz t f x : new_spec operator_new -> wf (allocs t0) ->
  __k_tls_alloc t0 = nullptr -> Forall small l -> frame_allocator.spec_run l [] = Some [e] ->
  chain_run operator_new l [] t0 = Done ([(r, sz)], t) -> prev t !! f = Some x -> f <> nullptr ->
  exists t', _M_do_execute f (promise_delete r sz) t = Done (tt, t') /\ allocs t' = allocs t0 /\
    __k_tls_alloc t' = __k_tls_alloc t /\ forall n, promise_new operator_new n t' = Fault (Dangling (__k_tls_alloc t)).
Proof.
  intros Hnew Hwf Htls Hl Hst Hrun Hf Hf0.
  destruct (chain_ran _ _ _ _ _ Hnew Hwf Htls Hl Hst Hrun) as [(? & _)|(a & s & Hon)]; [done|].
  set (pv := <[f := __k_tls_alloc t]> (prev t)).
  set (t1 := mkThread (allocs t) nullptr pv). destruct e as [sz' c].
  assert (sz' = sz) as -> by (pose proof (h_sizes _ _ _ _ _ _ Hon) as E; by injection E).
  pose proof (chain_delete_bottom _ _ t1 _ _ _ _ 0%nat _ _ _ Hon eq_refl eq_refl eq_refl eq_refl) as Hdel.
  apply returns_Done in Hdel as ([] & t' & Hdel & ->).
  exists (mkThread (allocs t0) (__k_tls_alloc t) (<[f := nullptr]> pv)). split_and!; [|done|done|].
  - rewrite (execute_resumes _ _ _ _ Hf Hf0). fold pv t1. rewrite (run_bind _ _ t1 _ _ Hdel).
    unfold mbind, M_bind, exchange_prev. rewrite decide_False by done. unfold t1. cbn [allocs prev].
    unfold pv. by rewrite lookup_insert_eq.
  - intros n. pose proof (h_tls _ _ _ _ _ _ Hon) as Et. pose proof (h_null _ _ _ _ _ _ Hon) as Ha.
    unfold promise_new, push_stack_frame, on_alloc, mbind, M_bind, get, mret, M_ret. cbn [__k_tls_alloc].
    rewrite bool_decide_eq_false_2 by congruence. cbn [allocs]. rewrite Et, decide_False by done.
    by rewrite (h_new _ _ _ _ _ _ Hon).
Qed.

(** a coroutine that is started while another one is suspended gets its frame
    from the other one's allocator, because [__k_tls_alloc] still designates it;
    when the other one is destroyed first, the frame is freed with the
    allocator. *)
Theorem second_root_dies_with_first t0 l e1 e2 r1 sz1 r2 sz2 t : new_spec operator_new -> wf (allocs t0) ->
  __k_tls_alloc t0 = nullptr -> Forall small l -> frame_allocator.spec_run l [] = Some [e2; e1] ->
  chain_run operator_new l [] t0 = Done ([(r2, sz2); (r1, sz1)], t) ->
  exists t', promise_delete r1 sz1 t = Done (tt, t') /\
    forall off, 0 <= off -> off + 8 <= sz2 -> read (r2 + off) t' = Fault (Dangling (r2 + off)).
Proof.
  intros Hnew Hwf Htls Hl Hst Hrun.
  destruct (chain_ran _ _ _ _ _ Hnew Hwf Htls Hl Hst Hrun) as [(? & _)|(a & s & Hon)]; [done|].
  destruct e1 as [sz1' c1]. assert (sz1' = sz1) as -> by (pose proof (h_sizes _ _ _ _ _ _ Hon) as E; by injection E).
  pose proof (chain_delete_bottom _ _ t _ _ _ _ 1%nat _ _ _ Hon eq_refl eq_refl eq_refl eq_refl) as Hdel.
  apply returns_Done in Hdel as ([] & t' & Hdel & ->). eexists. split; [exact Hdel|]. intros off H0 Hoff.
  destruct (chain_on_frames _ _ _ _ _ _ Hon) as (fs & Hrep & Hfs).
  destruct (Hfs 0%nat r2 sz2 eq_refl) as (f & Hf & -> & Hfn). apply list_elem_of_lookup_2 in Hf.
  destruct (frame_bounds _ _ _ Hrep Hf) as (_ & Hat & _ & _ & b & Hb & Hb1 & Hb2).
  unfold payload, frame_allocator.sizeof_prefix in *.
  unfold read. rewrite decide_False by (unfold nullptr; lia). rewrite owner_none; [done|].
  intros a' s' b' Ha' Hb'. cbn [allocs] in Ha'. pose proof (h_new _ _ _ _ _ _ Hon) as Hn.
  assert (a <> a') as Hne by congruence. pose proof (h_allocs _ _ _ _ _ _ Hon) as Hall.
  destruct (h_wf _ _ _ _ _ _ Hon a s b) as [_ Hd]; [rewrite Hall; apply lookup_insert_eq|done|].
  specialize (Hd a' s' b'). rewrite Hall, lookup_insert_ne in Hd by done. specialize (Hd Ha' Hne Hb').
  unfold disjoint_ranges in Hd. lia.
Qed.

End properties.

(** ** A thread with one facade *)
Module frames_example.
Import frame_allocator (Push, Pop, Store, spec_run, contents).
Import frame_allocator.new_example (bump_new, bump_new_spec).

Definition idle : thread := mkThread ∅ nullptr {[64 := nullptr]}.

Lemma wf_empty : wf ∅.
Proof. intros a s b Ha. by rewrite lookup_empty in Ha. Qed.

Definition ran (l : list frame_allocator.op) : list (ptr * Z) * thread :=
  match chain_run bump_new l [] idle with Done r => r | Fault _ => ([], idle) end.

(** A coroutine of 200 bytes calls one of 1500 bytes, which writes to its own
    frame and to that of its caller. *)
Definition call : list frame_allocator.op := [Push 200; Push 1500; Store 0 1488 7; Store 1 0 8].
Definition call_contents : list (Z * contents) := [(1500, {[1488 := 7]}); (200, {[0 := 8]})].

Lemma frames_nest_witness :
  spec_run call [] = Some call_contents /\
  returns (chain_run bump_new call []) idle (fun ps t' =>
    ps.*2 = call_contents.*1 /\ __k_tls_alloc t' <> nullptr).
Proof.
  assert (spec_run call [] = Some call_contents) as E by (vm_compute; reflexivity).
  split; [exact E|]. assert (Forall small call) as Hs by (unfold call; repeat constructor; lia).
  pose proof (frames_nest bump_new idle call call_contents bump_new_spec wf_empty eq_refl Hs E) as H.
  unfold returns, attempts in *. destruct (chain_run bump_new call [] idle) as [[ps t']|f] eqn:Er.
  - destruct H as (_ & H1 & H2 & _). split; [exact H2|]. apply H1. done.
  - vm_compute in Er. discriminate Er.
Defined.

Lemma execute_isolates_witness :
  returns (_M_do_execute 64 (chain_run bump_new (call ++ [Pop; Pop]) [];; mret tt)) idle (fun _ t' =>
    t' = mkThread (allocs idle) (__k_tls_alloc idle) (<[64 := nullptr]> (prev idle))).
Proof.
  assert (Forall small (call ++ [Pop; Pop])) as Hs by (unfold call; repeat constructor; lia).
  assert (spec_run (call ++ [Pop; Pop]) [] = Some []) as E by (vm_compute; reflexivity).
  pose proof (execute_isolates bump_new idle (call ++ [Pop; Pop]) 64 nullptr bump_new_spec wf_empty Hs E eq_refl
    ltac:(discriminate)) as H.
  unfold returns, attempts in *. destruct (_M_do_execute 64 _ idle) as [[u t']|f] eqn:Er; [exact H|].
  vm_compute in Er. discriminate Er.
Defined.

Definition nested : list frame_allocator.op := [Push 200; Push 1500].
Definition root : list frame_allocator.op := [Push 200].

Lemma suspended_child_cannot_be_deleted_witness : exists r sz ps t,
  chain_run bump_new nested [] idle = Done ((r, sz) :: ps, t) /\
  _M_do_execute 64 (promise_delete r sz) t = Fault NullDeref.
Proof.
  destruct (chain_run bump_new nested [] idle) as [[[|[r sz] ps] t]|f] eqn:E;
    [vm_compute in E; discriminate| |vm_compute in E; discriminate].
  exists r, sz, ps, t. split; [reflexivity|].
  apply (suspended_child_cannot_be_deleted bump_new idle nested (1500, ∅) (200, ∅) [] r sz ps t 64 nullptr
    bump_new_spec wf_empty eq_refl); [|vm_compute; reflexivity|exact E| |done].
  - unfold nested. repeat constructor; lia.
  - vm_compute in E. injection E as <- <- <- <-. vm_compute. reflexivity.
Defined.

Lemma finished_root_leaves_dangling_witness : exists r sz t, chain_run bump_new root [] idle = Done ([(r, sz)], t) /\
  exists t', _M_do_execute 64 (promise_delete r sz) t = Done (tt, t') /\ allocs t' = allocs idle /\
    __k_tls_alloc t' = __k_tls_alloc t /\ forall n, promise_new bump_new n t' = Fault (Dangling (__k_tls_alloc t)).
Proof.
  destruct (chain_run bump_new root [] idle) as [[[|[r sz] [|? ?]] t]|f] eqn:E;
    [vm_compute in E; discriminate| |vm_compute in E; discriminate|vm_compute in E; discriminate].
  exists r, sz, t. split; [reflexivity|].
  apply (finished_root_leaves_dangling bump_new idle root (200, ∅) r sz t 64 nullptr
    bump_new_spec wf_empty eq_refl); [|vm_compute; reflexivity|exact E| |done].
  - unfold root. repeat constructor; lia.
  - vm_compute in E. injection E as <- <- <-. vm_compute. reflexivity.
Defined.

Lemma second_root_dies_with_first_witness : exists r1 r2 t,
  chain_run bump_new nested [] idle = Done ([(r2, 1500); (r1, 200)], t) /\
  exists t', promise_delete r1 200 t = Done (tt, t') /\
    forall off, 0 <= off -> off + 8 <= 1500 -> read (r2 + off) t' = Fault (Dangling (r2 + off)).
Proof.
  exists (nth 1 (ran nested).1 (0, 0)).1, (nth 0 (ran nested).1 (0, 0)).1, (ran nested).2.
  assert (chain_run bump_new nested [] idle =
    Done ([((nth 0 (ran nested).1 (0, 0)).1, 1500); ((nth 1 (ran nested).1 (0, 0)).1, 200)], (ran nested).2)) as E
    by (vm_compute; reflexivity).
  split; [exact E|].
  apply (second_root_dies_with_first bump_new idle nested (200, ∅) (1500, ∅) _ 200 _ 1500 (ran nested).2
    bump_new_spec wf_empty eq_refl); [|vm_compute; reflexivity|exact E].
  unfold nested. repeat constructor; lia.
Defined.
End frames_example.

End frames.
