(* ===== verification/Handles.v ===== *)
(** * [__file_descriptor.hpp], [__memory_mapped_region.hpp]: owners of system resources

    Both classes own one resource of the operating system, an open descriptor or
    a mapping: they can be moved but not copied, assignment releases what the
    target owned, the destructor releases what is left.  Module [handles] writes
    the member functions once, for a class [Resource] of values with an empty
    value and a test for ownership, over a memory of owner objects and the
    resources the system has handed out, and instantiates them for the two; [__task]
    owns its coroutine in the same way. *)

From S2P Require Import Prelude.

Module handles.

Class Resource (H : Type) := {
  empty : H;
  valid : H -> bool;
  valid_empty : valid empty = false;
  resource_eq_dec :: EqDecision H;
}.

(** [owners]: the objects that exist; [live]: the resources handed out and not
    yet released; [errors]: the releases of something that was not live. *)
Record world (H : Type) := mkWorld { owners : gmap ptr H; live : list H; errors : list H }.
Arguments mkWorld {H}.
Arguments owners {H}.
Arguments live {H}.
Arguments errors {H}.

Section code.
Context `{Resource H}.

Definition load (p : ptr) : M (world H) H := fun w =>
  if decide (p = nullptr) then Fault NullDeref
  else match owners w !! p with Some h => Done (h, w) | None => Fault (Dangling p) end.
Definition store (p : ptr) (h : H) : M (world H) unit :=
  modify (fun w => mkWorld (<[p := h]> (owners w)) (live w) (errors w)).

(** [::close], [::munmap]. *)
Fixpoint remove_first (h : H) (l : list H) : list H :=
  match l with [] => [] | x :: l => if decide (x = h) then l else x :: remove_first h l end.
Definition release (h : H) : M (world H) unit := modify (fun w =>
  if decide (h ∈ live w) then mkWorld (owners w) (remove_first h (live w)) (errors w)
  else mkWorld (owners w) (live w) (errors w ++ [h])).

(** [std::exchange(__other.member, empty)] *)
Definition exchange (__other : ptr) (v : H) : M (world H) H := h ← load __other; store __other v;; mret h.

(** Constructing an object at [p]. *)
Definition construct (p : ptr) (h : H) : M (world H) unit := store p h.
Definition construct_default (p : ptr) : M (world H) unit := store p empty.
Definition construct_move (p __other : ptr) : M (world H) unit := h ← exchange __other empty; store p h.

Definition assign_move (this __other : ptr) : M (world H) unit :=
  if decide (this <> __other) then
    h ← load this;
    (if valid h then release h else mret tt);;
    v ← exchange __other empty;
    store this v
  else mret tt.

Definition destroy (p : ptr) : M (world H) unit :=
  h ← load p;
  (if valid h then release h else mret tt);;
  modify (fun w => mkWorld (delete p (owners w)) (live w) (errors w)).

Definition operator_bool (p : ptr) : M (world H) bool := h ← load p; mret (valid h).

(** ** Programs that use owners

    A resource is handed out to the constructor of an object; nobody else
    releases it. *)
Inductive step (w : world H) : world H -> Prop :=
  | step_default p w' : p <> nullptr -> owners w !! p = None ->
      construct_default p w = Done (tt, w') -> step w w'
  | step_construct p h w' : p <> nullptr -> owners w !! p = None -> valid h = true -> h ∉ live w ->
      construct p h (mkWorld (owners w) (h :: live w) (errors w)) = Done (tt, w') -> step w w'
  | step_construct_empty p h w' : p <> nullptr -> owners w !! p = None -> valid h = false ->
      construct p h w = Done (tt, w') -> step w w'
  | step_construct_move p o w' : p <> nullptr -> owners w !! p = None ->
      construct_move p o w = Done (tt, w') -> step w w'
  | step_assign p o w' : p <> nullptr -> is_Some (owners w !! p) -> assign_move p o w = Done (tt, w') -> step w w'
  | step_destroy p w' : destroy p w = Done (tt, w') -> step w w'.

Definition start : world H := mkWorld ∅ [] [].
End code.

(** ** The two classes *)

#[export] Instance descriptor : Resource Z := {|
  empty := - 1;
  valid fd := bool_decide (fd <> - 1);
  valid_empty := eq_refl;
  resource_eq_dec := Z.eq_dec
|}.

Definition MAP_FAILED : ptr := 2 ^ 64 - 1.

#[export] Instance region : Resource (ptr * Z) := {|
  empty := (nullptr, 0);
  valid r := bool_decide (r.1 <> nullptr);
  valid_empty := eq_refl;
  resource_eq_dec := _
|}.

Definition fd_construct_default : ptr -> M (world Z) unit := construct_default.
Definition fd_construct : ptr -> Z -> M (world Z) unit := construct.
Definition fd_construct_move : ptr -> ptr -> M (world Z) unit := construct_move.
Definition fd_assign_move : ptr -> ptr -> M (world Z) unit := assign_move.
Definition fd_destroy : ptr -> M (world Z) unit := destroy.
Definition fd_operator_bool : ptr -> M (world Z) bool := operator_bool.

Definition region_value (__ptr __size : Z) : ptr * Z := (if decide (__ptr = MAP_FAILED) then nullptr else __ptr, __size).
Definition region_construct_default : ptr -> M (world (ptr * Z)) unit := construct_default.
Definition region_construct (p __ptr __size : ptr) : M (world (ptr * Z)) unit := construct p (region_value __ptr __size).
Definition region_construct_move : ptr -> ptr -> M (world (ptr * Z)) unit := construct_move.
Definition region_assign_move : ptr -> ptr -> M (world (ptr * Z)) unit := assign_move.
Definition region_destroy : ptr -> M (world (ptr * Z)) unit := destroy.
Definition region_operator_bool : ptr -> M (world (ptr * Z)) bool := operator_bool.

(** A [__task] owns its coroutine in the same way; it has no assignment. *)
Definition coroutine : Resource ptr := {|
  empty := nullptr;
  valid h := bool_decide (h <> nullptr);
  valid_empty := eq_refl;
  resource_eq_dec := Z.eq_dec
|}.
Definition task_construct : ptr -> ptr -> M (world ptr) unit := construct (H := ptr).
Definition task_construct_move : ptr -> ptr -> M (world ptr) unit := construct_move (H0 := coroutine).
Definition task_destroy : ptr -> M (world ptr) unit := destroy (H0 := coroutine).

(** ** What the owners own *)
Section properties.
Context `{Resource H}.
Implicit Types (w : world H) (m : gmap ptr H) (l : list H).

Definition owned m : list H := filter (fun h => valid h = true) (map_to_list m).*2.

Record inv w : Prop := {
  i_owned : owned (owners w) ≡ₚ live w;
  i_once : NoDup (live w);
  i_errors : errors w = []
}.

Definition own1 (h : H) : list H := if valid h then [h] else [].

Lemma owned_insert m p h : m !! p = None -> owned (<[p := h]> m) ≡ₚ own1 h ++ owned m.
Proof.
  intros Hp. unfold owned, own1. rewrite (map_to_list_insert m p h) by done. simpl. rewrite filter_cons.
  destruct (valid h); by case_decide.
Qed.

Lemma owned_delete m p h : m !! p = Some h -> owned m ≡ₚ own1 h ++ owned (delete p m).
Proof.
  intros Hp. rewrite <- (insert_delete_id m p h) at 1 by done. apply owned_insert, lookup_delete_eq.
Qed.

Lemma owned_update m p h v : m !! p = Some h -> exists r, owned m ≡ₚ own1 h ++ r /\ owned (<[p := v]> m) ≡ₚ own1 v ++ r.
Proof.
  intros Hp. exists (owned (delete p m)). split; [by apply owned_delete|].
  rewrite <- insert_delete_eq. apply owned_insert, lookup_delete_eq.
Qed.

Lemma remove_first_perm h l : h ∈ l -> l ≡ₚ h :: remove_first h l.
Proof.
  induction l as [|x l IH]; [by intros ?%not_elem_of_nil|]. intros Hh. simpl. case_decide as E; [by subst|].
  apply elem_of_cons in Hh as [->|Hh]; [done|]. rewrite (IH Hh) at 1. apply Permutation_swap.
Qed.

(** Releasing what an object owns. *)
Lemma release_owned w h r : own1 h ++ r ≡ₚ live w -> NoDup (live w) -> errors w = [] ->
  returns (if valid h then release h else mret tt) w (fun _ w' =>
    owners w' = owners w /\ r ≡ₚ live w' /\ NoDup (live w') /\ errors w' = []).
Proof.
  unfold own1. intros Hp Hn He. destruct (valid h); [|by apply returns_ret].
  assert (h ∈ live w) as Hin by (rewrite <- Hp; by left). apply returns_modify. rewrite decide_True by done. simpl.
  pose proof (remove_first_perm _ _ Hin) as Hr. split_and!; [done| | |done].
  - rewrite Hr in Hp. by apply Permutation_cons_inv in Hp.
  - rewrite Hr in Hn. by apply NoDup_cons in Hn as [_ ?].
Qed.

Lemma owners_inv_new w p h l : inv w -> owners w !! p = None -> l ≡ₚ own1 h ++ live w -> NoDup l ->
  inv (mkWorld (<[p := h]> (owners w)) l (errors w)).
Proof.
  intros [Ho Hn He] Hp El Hl. split; [|done..]. simpl. by rewrite owned_insert, Ho, El.
Qed.

Lemma exchange_inv o v w h w' : exchange o v w = Done (h, w') ->
  o <> nullptr /\ owners w !! o = Some h /\ w' = mkWorld (<[o := v]> (owners w)) (live w) (errors w).
Proof.
  unfold exchange, load, store, mbind, M_bind, modify. case_decide; [done|].
  destruct (owners w !! o) as [h0|]; [|done]. intros E. by injection E as -> <-.
Qed.

Lemma inv_construct_move w p o w' : inv w -> owners w !! p = None -> construct_move p o w = Done (tt, w') -> inv w'.
Proof.
  intros [Ho Hn He] Hp Hr. unfold construct_move in Hr. unfold mbind at 1, M_bind at 1 in Hr.
  destruct (exchange o empty w) as [[h w1]|] eqn:E; [|done]. apply exchange_inv in E as (Ho0 & Ho1 & ->).
  injection Hr as <-. destruct (owned_update _ _ _ empty Ho1) as (r & H1 & H2).
  assert (own1 empty = []) as Ee by (unfold own1; by rewrite valid_empty). rewrite Ee in H2.
  assert (p <> o) by congruence. split; simpl; [|done..].
  by rewrite owned_insert, H2, <- Ho, H1 by by rewrite lookup_insert_ne.
Qed.

Lemma inv_assign w p o w' : inv w -> assign_move p o w = Done (tt, w') -> inv w'.
Proof.
  intros [Ho Hn He] Hr. unfold assign_move in Hr. case_decide as Hne; [|by injection Hr as <-].
  unfold load at 1, mbind at 1, M_bind at 1 in Hr. case_decide as Hpz; [done|].
  destruct (owners w !! p) as [h|] eqn:Hp; [|done].
  destruct (owned_update _ _ _ empty Hp) as (r & H1 & _).
  pose proof (release_owned w h r ltac:(by rewrite <- Ho, H1) Hn He) as Hrel.
  apply returns_Done in Hrel as ([] & w1 & Hrun & Eo & Hr1 & Hn1 & He1).
  rewrite (run_bind _ _ w tt w1 Hrun) in Hr. unfold mbind, M_bind in Hr.
  destruct (exchange o empty w1) as [[v w2]|] eqn:E; [|done]. apply exchange_inv in E as (Ho0 & Ho1 & ->).
  injection Hr as <-. rewrite Eo in Ho1 |- *. split; simpl; [|done..].
  assert (own1 empty = []) as Ee by (unfold own1; by rewrite valid_empty).
  rewrite insert_insert_ne by done. rewrite <- (insert_delete_eq (<[p := v]> (owners w))).
  rewrite owned_insert by apply lookup_delete_eq. rewrite Ee. simpl. rewrite delete_insert_ne by done.
  rewrite <- (insert_delete_eq (delete o (owners w))). rewrite owned_insert by apply lookup_delete_eq.
  rewrite delete_delete. rewrite <- Hr1.
  assert (delete p (owners w) !! o = Some v) as Ho2 by by rewrite lookup_delete_ne.
  rewrite <- (owned_delete _ _ _ Ho2). pose proof (owned_delete _ _ _ Hp) as Hd. rewrite Hd in H1.
  by apply Permutation_app_inv_l in H1.
Qed.

Lemma inv_destroy w p w' : inv w -> destroy p w = Done (tt, w') -> inv w'.
Proof.
  intros [Ho Hn He] Hr. unfold destroy in Hr. unfold load at 1, mbind at 1, M_bind at 1 in Hr. case_decide as Hpz; [done|].
  destruct (owners w !! p) as [h|] eqn:Hp; [|done]. pose proof (owned_delete _ _ _ Hp) as Hd.
  pose proof (release_owned w h (owned (delete p (owners w))) ltac:(by rewrite <- Ho, Hd) Hn He) as Hrel.
  apply returns_Done in Hrel as ([] & w1 & Hrun & Eo & Hr1 & Hn1 & He1).
  rewrite (run_bind _ _ w tt w1 Hrun) in Hr. injection Hr as <-. split; simpl; [by rewrite Eo|done..].
Qed.

Lemma handles_inv_step w w' : inv w -> step w w' -> inv w'.
Proof.
  intros Hi Hs. pose proof (i_once _ Hi) as Hn. pose proof (i_errors _ Hi) as He. destruct Hs as
    [p w' Hp0 Hp Hr|p h w' Hp0 Hp Hv Hl Hr|p h w' Hp0 Hp Hv Hr|p o w' Hp0 Hp Hr|p o w' Hp0 Hp Hr|p w' Hr].
  - injection Hr as <-. apply owners_inv_new; [done..| |done]. unfold own1. by rewrite valid_empty.
  - injection Hr as <-. apply (owners_inv_new w p h); [done..| |by apply NoDup_cons]. unfold own1. by rewrite Hv.
  - injection Hr as <-. apply owners_inv_new; [done..| |done]. unfold own1. by rewrite Hv.
  - by eapply inv_construct_move.
  - by eapply inv_assign.
  - by eapply inv_destroy.
Qed.

Lemma handles_reachable w : rtc step start w -> inv w.
Proof.
  intros Hr. apply (invariant_rtc step inv) with (s := start); [apply handles_inv_step| |done].
  split; [done|constructor|done].
Qed.

(** C17: however owners are constructed, moved, assigned (to themselves, too) and
    destroyed, each resource handed out is owned by exactly one object, none is
    released twice, and when the last object is gone every resource has been
    released. *)
Theorem owners_release_once w : rtc step start w ->
  owned (owners w) ≡ₚ live w /\ NoDup (live w) /\ errors w = [] /\ (owners w = ∅ -> live w = []).
Proof.
  intros Hi%handles_reachable. destruct Hi as [Ho Hn He]. split_and!; [done..|]. intros E. rewrite E in Ho.
  unfold owned in Ho. rewrite map_to_list_empty in Ho. by apply Permutation_nil_l in Ho.
Qed.
End properties.

(** ** Three objects and two descriptors *)
Module handles_example.

Lemma owners_release_once_witness : exists w : world Z, rtc step start w /\ owners w = {[8 := - 1; 16 := 5]} /\
  (owned (owners w) ≡ₚ live w /\ NoDup (live w) /\ errors w = [] /\ (owners w = ∅ -> live w = [])).
Proof.
  assert (exists w : world Z, rtc step start w /\ owners w = {[8 := - 1; 16 := 5]}) as (w & Hr & E).
  { eexists. split.
    - eapply rtc_l; [apply (step_construct _ 8 5); [done|done|done|vm_compute; intros H; inversion H|reflexivity]|].
      eapply rtc_l; [apply (step_construct _ 16 6); [done|vm_compute; reflexivity|done|
        vm_compute; intros H; inversion H as [|? ? ? H1]; inversion H1|reflexivity]|].
      eapply rtc_l; [apply (step_assign _ 16 8); [done|vm_compute; by eexists|vm_compute; reflexivity]|].
      apply rtc_refl.
    - vm_compute. reflexivity. }
  exists w. split; [exact Hr|]. split; [exact E|]. apply (owners_release_once w Hr).
Defined.
End handles_example.
End handles.
