(* ===== verification/Storage.v ===== *)
(** * [__aligned_storage.hpp]: room for one object, constructed by hand

    Module [aligned_storage] has the primary template and its specialisations
    for references and for [void] as instances of one interface, [Storage], with
    the laws a client relies on, [StorageLaws]; what clients may do is a small
    type system of uses.  Objects have a destructor, so the primary template
    records which have been constructed and which destroyed. *)

From S2P Require Import Prelude.

Module aligned_storage.

(** What the three have in common: the member functions; [operator->] designates
    the same object as [_M_get]. *)
Class Storage (S T : Type) := {
  raw : S;
  _M_construct : T -> M S T;
  _M_destroy : M S unit;
  _M_get : M S T
}.

(** [holds (Some v) s]: the object is alive and is [v]; [valid]: what the type of
    the objects can designate. *)
Class StorageLaws (S T : Type) `{Storage S T} := {
  valid : T -> Prop;
  holds : option T -> S -> Prop;
  holds_raw : holds None raw;
  construct_law s v : valid v -> holds None s -> returns (_M_construct v) s (fun r s' => r = v /\ holds (Some v) s');
  get_law s v : holds (Some v) s -> returns _M_get s (fun r s' => r = v /\ s' = s);
  destroy_law s v : holds (Some v) s -> returns _M_destroy s (fun _ s' => holds None s')
}.

(** ** The primary template *)

(** [__buf_]: the object that lives in the bytes; and ghosts, the objects whose
    constructor and whose destructor has run. *)
Record buffer (T : Type) := mkBuffer { __buf_ : option T; made : list T; ended : list T }.
Arguments mkBuffer {T}.
Arguments __buf_ {T}.
Arguments made {T}.
Arguments ended {T}.

Section value.
Context {T : Type}.

(** Placement new ends the life of whatever occupied the bytes, without a
    destructor. *)
Definition value_construct (__arg : T) : M (buffer T) T := fun s =>
  Done (__arg, mkBuffer (Some __arg) (made s ++ [__arg]) (ended s)).
Definition value_get : M (buffer T) T := fun s =>
  match __buf_ s with Some v => Done (v, s) | None => Fault Undefined end.
Definition value_destroy : M (buffer T) unit :=
  v ← value_get; modify (fun s => mkBuffer None (made s) (ended s ++ [v])).
End value.

#[export] Instance value_storage {T} : Storage (buffer T) T := {|
  raw := mkBuffer None [] [];
  _M_construct := value_construct;
  _M_destroy := value_destroy;
  _M_get := value_get
|}.

(** Every object made has been destroyed, in that order, except the one that is
    there. *)
Definition accounted {T} (s : buffer T) : Prop := made s = ended s ++ option_list (__buf_ s).

#[export] Program Instance value_laws {T} : StorageLaws (buffer T) T := {|
  valid _ := True;
  holds o s := __buf_ s = o /\ accounted s
|}.
Next Obligation. done. Qed.
Next Obligation.
  intros T [b m e] v _. unfold accounted. simpl. intros [-> ->]. split; [done|]. split; [done|]. simpl. by rewrite app_nil_r.
Qed.
Next Obligation. intros T s v [Hv _]. unfold returns. simpl. unfold value_get. by rewrite Hv. Qed.
Next Obligation.
  intros T [b m e] v. unfold accounted. simpl. intros [-> ->]. split; [done|]. simpl. by rewrite app_nil_r.
Qed.

(** ** References *)

Section reference.
Definition reference_construct (__ref : ptr) : M ptr ptr := put __ref;; mret __ref.
Definition reference_get : M ptr ptr := p ← get; if decide (p = nullptr) then throw NullDeref else mret p.
Definition reference_destroy : M ptr unit := mret tt.
End reference.

#[export] Instance reference_storage : Storage ptr ptr := {|
  raw := nullptr;
  _M_construct := reference_construct;
  _M_destroy := reference_destroy;
  _M_get := reference_get
|}.

(** A reference has an address; after [_M_destroy] the old one is still there. *)
#[export] Program Instance reference_laws : StorageLaws ptr ptr := {|
  valid p := p <> nullptr;
  holds o s := match o with Some p => s = p /\ p <> nullptr | None => True end
|}.
Next Obligation. done. Qed.
Next Obligation. by intros s v Hv _. Qed.
Next Obligation. intros s v [-> Hv]. unfold returns. simpl. unfold reference_get, mbind, M_bind. simpl. by rewrite decide_False. Qed.
Next Obligation. by intros s v _. Qed.

(** ** [void] *)

Definition void_construct (_ : unit) : M unit unit := mret tt.
Definition void_get : M unit unit := mret tt.
Definition void_destroy : M unit unit := mret tt.

#[export] Instance void_storage : Storage unit unit := {|
  raw := tt;
  _M_construct := void_construct;
  _M_destroy := void_destroy;
  _M_get := void_get
|}.

#[export] Program Instance void_laws : StorageLaws unit unit := {|
  valid _ := True;
  holds _ _ := True
|}.
Next Obligation. done. Qed.
Next Obligation. by intros [] [] _ _. Qed.
Next Obligation. by intros [] [] _. Qed.
Next Obligation. by intros [] [] _. Qed.

(** ** Uses, and which are well typed *)

Inductive use (T : Type) := Construct (v : T) | Get | Destroy.
Arguments Construct {T}.
Arguments Get {T}.
Arguments Destroy {T}.

(** A client that constructs only where nothing is and uses only what is there;
    the result says what is there in the end. *)
Fixpoint typed {T} (o : option T) (us : list (use T)) : option (option T) :=
  match us with
  | [] => Some o
  | u :: us =>
      match u, o with
      | Construct v, None => typed (Some v) us
      | Get, Some v => typed (Some v) us
      | Destroy, Some _ => typed None us
      | _, _ => None
      end
  end.

(** What the uses of a well typed client return: the object constructed last. *)
Fixpoint reads {T} (o : option T) (us : list (use T)) : list T :=
  match us with
  | [] => []
  | Construct v :: us => v :: reads (Some v) us
  | Get :: us => option_list o ++ reads o us
  | Destroy :: us => reads None us
  end.

Definition constructed {T} (us : list (use T)) : list T :=
  omap (fun u => match u with Construct v => Some v | _ => None end) us.

Section client.
Context {S T : Type} `{StorageLaws S T}.

Definition run_use (u : use T) : M S (list T) :=
  match u with
  | Construct v => r ← _M_construct v; mret [r]
  | Get => r ← _M_get; mret [r]
  | Destroy => _M_destroy;; mret []
  end.

Fixpoint run_uses (us : list (use T)) : M S (list T) :=
  match us with
  | [] => mret []
  | u :: us => l ← run_use u; l2 ← run_uses us; mret (l ++ l2)
  end.

Lemma typed_runs us o o' s : typed o us = Some o' -> Forall valid (constructed us) -> holds o s ->
  returns (run_uses us) s (fun l s' => l = reads o us /\ holds o' s').
Proof.
  revert o s. induction us as [|u us IH]; intros o s Ht Hv Hs; [by injection Ht as <-|].
  assert (forall m o2 l, returns m s (fun l' s' => l' = l /\ holds o2 s') -> typed o2 us = Some o' ->
    Forall valid (constructed us) -> reads o (u :: us) = l ++ reads o2 us ->
    returns (l ← m; l2 ← run_uses us; mret (l ++ l2)) s (fun l s' => l = reads o (u :: us) /\ holds o' s')) as Hstep.
  { intros m o2 l Hm Ht2 Hv2 E. eapply returns_bind_mono; [exact Hm|]. intros l' s' [-> Hs'].
    eapply returns_bind_mono; [by eapply IH|]. intros l2 s2 [-> ?]. by apply returns_ret. }
  destruct u as [v| |], o as [w|]; simpl in Ht; try discriminate; simpl run_uses.
  - apply Forall_cons in Hv as [Hv1 Hv2]. eapply (Hstep _ (Some v) [v]); try done. simpl.
    eapply returns_bind_mono; [by apply construct_law|]. intros r s' [-> ?]. by apply returns_ret.
  - eapply (Hstep _ (Some w) [w]); try done. simpl.
    eapply returns_bind_mono; [by apply get_law|]. intros r s' [-> ->]. by apply returns_ret.
  - eapply (Hstep _ None []); try done. simpl.
    eapply returns_bind_mono; [by eapply destroy_law|]. intros r s' ?. by apply returns_ret.
Qed.
End client.

(** ** Well typed and lossless are the same *)

(** Objects made that are neither there nor destroyed. *)
Definition lost {T} (s : buffer T) : Z :=
  Z.of_nat (length (made s)) - Z.of_nat (length (ended s)) - Z.of_nat (length (option_list (__buf_ s))).

Lemma use_made {T} (u : use T) s l s' : run_use u s = Done (l, s') ->
  made s' = made s ++ constructed [u] /\ lost s <= lost s' /\
  (typed (__buf_ s) [u] = Some (__buf_ s') \/ typed (__buf_ s) [u] = None /\ lost s < lost s').
Proof.
  unfold lost. destruct s as [[w|] m e], u as [v| |]; intros E; vm_compute in E; try discriminate; injection E as <- <-;
    simpl; rewrite ?app_nil_r, ?length_app; simpl; (split; [done|]); (split; [lia|]); first [by left|right; split; [done|lia]].
Qed.

Lemma typed_cons {T} (o : option T) u us :
  typed o (u :: us) = match typed o [u] with Some o' => typed o' us | None => None end.
Proof. by destruct u, o. Qed.

Lemma uses_made {T} (us : list (use T)) s l s' : run_uses us s = Done (l, s') ->
  made s' = made s ++ constructed us /\ lost s <= lost s' /\ (typed (__buf_ s) us = None -> lost s < lost s').
Proof.
  revert s l. induction us as [|u us IH]; intros s l E.
  - injection E as <- <-. rewrite app_nil_r. by split_and!.
  - simpl in E. unfold mbind, M_bind in E. destruct (run_use u s) as [[l1 s1]|] eqn:E1; [|done].
    destruct (run_uses us s1) as [[l2 s2]|] eqn:E2; [|done]. injection E as <- <-.
    destruct (use_made _ _ _ _ E1) as (Hm & Hl & Ht). destruct (IH _ _ E2) as (Hm2 & Hl2 & Ht2).
    split_and!; [|lia|].
    + rewrite Hm2, Hm, <- app_assoc. f_equal. by destruct u.
    + rewrite typed_cons. destruct Ht as [->|[_ ?]]; [intros ?%Ht2; lia|lia].
Qed.

(** C40: a client that constructs only where nothing is and uses only what is there
    never fails, gets the object it constructed last, and every object is destroyed
    once, in order, except the one that is there in the end; any other client
    either fails or loses an object without having its destructor run. *)
Theorem storage_well_typed {T} (us : list (use T)) :
  match typed None us with
  | Some o => exists s, run_uses us (raw : buffer T) = Done (reads None us, s) /\ __buf_ s = o /\
      ended s ++ option_list o = constructed us
  | None => forall l s, run_uses us (raw : buffer T) = Done (l, s) ->
      (length (ended s) + length (option_list (__buf_ s)) < length (constructed us))%nat
  end.
Proof.
  destruct (typed None us) as [o|] eqn:Ht.
  - destruct (proj1 (returns_Done _ _ _) (typed_runs us None o raw Ht ltac:(by apply Forall_true) ltac:(by split)))
      as (l & s & E & -> & Ho & Ha). exists s. split_and!; [done..|].
    destruct (uses_made _ _ _ _ E) as (Hm & _). by rewrite <- Ho, <- Ha, Hm.
  - intros l s E. destruct (uses_made _ _ _ _ E) as (Hm & _ & Hl). specialize (Hl Ht). unfold lost in Hl.
    simpl in Hm, Hl. rewrite Hm in Hl. lia.
Qed.

(** The specialisations: references give back the address they were constructed
    with, and [void] never fails. *)
Example reference_reads : run_uses [Construct 64; Get; Destroy; Construct 128; Get] (raw : ptr) = Done ([64; 64; 128; 128], 128).
Proof. reflexivity. Qed.
Example reference_unset : run_uses [Get] (raw : ptr) = Fault NullDeref.
Proof. reflexivity. Qed.
End aligned_storage.
