(* ===== verification/Setup.v ===== *)
(** * [__scheduler.hpp]: what a scheduler owns and how it gets it

    [__scheduler_base] owns the descriptor of an io_uring, an event descriptor
    and the mappings of the rings; its constructor acquires them one after the
    other and may throw after any of them, in which case the members constructed
    so far are destroyed.  Module [setup] models the constructor and the implicit
    destructor over the owners of module [handles], and where the constructors of
    the two queues find their parts in the mappings.  The system calls are
    parameters. *)

From S2P Require Import Prelude Handles.

#[local] Existing Instance handles.descriptor.
#[local] Existing Instance handles.region.

Module setup.

Record io_uring_params := mkParams {
  sq_entries : Z; cq_entries : Z; flags : Z; features : Z;
  sq_off_head : Z; sq_off_tail : Z; sq_off_ring_mask : Z; sq_off_array : Z;
  cq_off_head : Z; cq_off_tail : Z; cq_off_ring_mask : Z; cq_off_cqes : Z
}.
Definition zero_params : io_uring_params := mkParams 0 0 0 0 0 0 0 0 0 0 0 0.

(** Constants of the kernel's headers, and the sizes of its records. *)
Definition IORING_SETUP_SINGLE_ISSUER : Z := 4096.
Definition IORING_SETUP_DEFER_TASKRUN : Z := 8192.
Definition IORING_FEAT_SINGLE_MMAP : Z := 1.
Definition IORING_OFF_SQ_RING : Z := 0.
Definition IORING_OFF_CQ_RING : Z := 134217728.
Definition IORING_OFF_SQES : Z := 268435456.
Definition sizeof_unsigned : Z := 4.
Definition sizeof_sqe : Z := 64.
Definition sizeof_cqe : Z := 16.

Definition __init_params (__flags : Z) : io_uring_params :=
  mkParams 0 0 (Z.lor (Z.lor __flags IORING_SETUP_DEFER_TASKRUN) IORING_SETUP_SINGLE_ISSUER)
    (Z.lor 0 IORING_FEAT_SINGLE_MMAP) 0 0 0 0 0 0 0 0.

Definition __umax (__a __b : Z) : Z := if __a <? __b then __b else __a.

Definition __at_offset_as (__base __offset : Z) : ptr := __base + __offset.

(** ** Owners and exceptions

    A computation that may throw returns the error code or a value. *)
Record state := mkState { fds : handles.world Z; regions : handles.world (ptr * Z) }.
Definition start : state := mkState handles.start handles.start.
Abbreviation run := (M state).
Definition may_throw (A : Type) : Type := Z + A.

Definition on_fds {A} (m : M (handles.world Z) A) : run A := fun s =>
  match m (fds s) with Done (a, w) => Done (a, mkState w (regions s)) | Fault f => Fault f end.
Definition on_regions {A} (m : M (handles.world (ptr * Z)) A) : run A := fun s =>
  match m (regions s) with Done (a, w) => Done (a, mkState (fds s) w) | Fault f => Fault f end.

(** The system hands out a resource. *)
Definition hand_out {H} (h : H) : M (handles.world H) unit :=
  modify (fun w => handles.mkWorld (handles.owners w) (h :: handles.live w) (handles.errors w)).

(** [try { m } then k]: the rest is skipped when [m] throws. *)
Definition then_ {A B} (m : run (may_throw A)) (k : A -> run (may_throw B)) : run (may_throw B) :=
  r ← m; match r with inl e => mret (inl e) | inr a => k a end.
Definition __throw_error_code_if (__cond : bool) (__ec : Z) : run (may_throw unit) :=
  mret (if __cond then inl __ec else inr tt).

(** The members, and the place of the temporary in the assignments. *)
Definition __sq_region_ : ptr := 16.
Definition __cq_region_ : ptr := 32.
Definition __sqe_region_ : ptr := 48.
Definition __ringfd_ : ptr := 184.
Definition __eventfd_ : ptr := 188.
Definition temporary : ptr := 1024.

Section code.

(** The system calls: what they return, [-1] and [errno] on failure.
    [io_uring_setup] fills in the parameters. *)
Context (io_uring_setup : Z -> io_uring_params -> Z * io_uring_params).
Context (eventfd : Z).
Context (mmap : Z -> Z -> Z -> ptr).
Context (io_uring_register : Z -> Z -> Z).
Context (errno : Z).

Definition __io_uring_setup (__entries : Z) (__params : io_uring_params) : run (may_throw io_uring_params) :=
  let '(__rc, __params) := io_uring_setup __entries __params in
  then_ (__throw_error_code_if (__rc <? 0) (- __rc)) (fun _ =>
    on_fds (hand_out __rc;; handles.fd_construct __ringfd_ __rc);; mret (inr __params)).

(** [__eventfd_{::eventfd(0, EFD_CLOEXEC)}] *)
Definition construct_eventfd : run unit :=
  on_fds ((if decide (eventfd = - 1) then mret tt else hand_out eventfd);; handles.fd_construct __eventfd_ eventfd).

(** The result is a temporary object. *)
Definition __map_region (__fd __offset __size : Z) : run (may_throw unit) :=
  let __ptr := mmap __fd __offset __size in
  then_ (__throw_error_code_if (bool_decide (__ptr = handles.MAP_FAILED)) errno) (fun _ =>
    on_regions (hand_out (__ptr, __size);; handles.region_construct temporary __ptr __size);; mret (inr tt)).

(** [member = __map_region(...)], at whose end the temporary is destroyed. *)
Definition assign_region (member __fd __offset __size : Z) : run (may_throw unit) :=
  then_ (__map_region __fd __offset __size) (fun _ =>
    on_regions (handles.region_assign_move member temporary;; handles.region_destroy temporary);; mret (inr tt)).

Definition __io_uring_register_eventfd_async (__rfd __efd : Z) : run (may_throw unit) :=
  let __rc := io_uring_register __rfd __efd in
  __throw_error_code_if (__rc <? 0) (- errno).

(** The sizes of the mappings. *)
Definition ring_sizes (__params_ : io_uring_params) : Z * Z * Z :=
  let __n_sq := u64 (sq_off_array __params_ + sq_entries __params_ * sizeof_unsigned) in
  let __n_cq := u64 (cq_off_cqes __params_ + cq_entries __params_ * sizeof_cqe) in
  let __n_sqe := u64 (sq_entries __params_ * sizeof_sqe) in
  if negb (Z.land (features __params_) IORING_FEAT_SINGLE_MMAP =? 0) then
    let __n_sq := __umax (u32 __n_sq) (u32 __n_cq) in (__n_sq, __n_sq, __n_sqe)
  else (__n_sq, __n_cq, __n_sqe).

Definition constructor_body (__params_ : io_uring_params) : run (may_throw unit) :=
  has_ring ← on_fds (handles.fd_operator_bool __ringfd_);
  then_ (__throw_error_code_if (negb has_ring) errno) (fun _ =>
  has_event ← on_fds (handles.fd_operator_bool __eventfd_);
  then_ (__throw_error_code_if (negb has_event) errno) (fun _ =>
  let '(__n_sq, __n_cq, __n_sqe) := ring_sizes __params_ in
  __fd_ ← on_fds (handles.load __ringfd_);
  then_ (assign_region __sq_region_ __fd_ IORING_OFF_SQ_RING __n_sq) (fun _ =>
  then_ (assign_region __sqe_region_ __fd_ IORING_OFF_SQES __n_sqe) (fun _ =>
  then_ (if Z.land (features __params_) IORING_FEAT_SINGLE_MMAP =? 0
         then assign_region __cq_region_ __fd_ IORING_OFF_CQ_RING __n_cq else mret (inr tt)) (fun _ =>
  __efd ← on_fds (handles.load __eventfd_);
  __io_uring_register_eventfd_async __fd_ __efd))))).

Definition destroy_regions : run unit :=
  on_regions (handles.region_destroy __sqe_region_;; handles.region_destroy __cq_region_;;
    handles.region_destroy __sq_region_).
Definition destroy_members : run unit :=
  on_fds (handles.fd_destroy __eventfd_;; handles.fd_destroy __ringfd_);; destroy_regions.

(** The constructor, with what is destroyed when it throws. *)
Definition __scheduler_base_construct (__entries __flags : Z) : run (may_throw io_uring_params) :=
  on_regions (handles.region_construct_default __sq_region_;; handles.region_construct_default __cq_region_;;
    handles.region_construct_default __sqe_region_);;
  r ← __io_uring_setup __entries (__init_params __flags);
  match r with
  | inl e => destroy_regions;; mret (inl e)
  | inr __params_ =>
      construct_eventfd;;
      b ← constructor_body __params_;
      match b with
      | inl e => destroy_members;; mret (inl e)
      | inr _ => mret (inr __params_)
      end
  end.

(** ** The parts of the rings, by address *)
Record submission_parts := mkSqParts { sq_head_at : ptr; sq_tail_at : ptr; sq_array_at : ptr; sqe_at : ptr; sq_mask_at : ptr; n_slot : Z }.
Record completion_parts := mkCqParts { cq_head_at : ptr; cq_tail_at : ptr; cqe_at : ptr; cq_mask_at : ptr }.

Definition __submission_queue_parts (__sq __sqe : ptr * Z) (__p : io_uring_params) : submission_parts :=
  mkSqParts (__at_offset_as __sq.1 (sq_off_head __p)) (__at_offset_as __sq.1 (sq_off_tail __p))
    (__at_offset_as __sq.1 (sq_off_array __p)) __sqe.1 (__at_offset_as __sq.1 (sq_off_ring_mask __p)) (sq_entries __p).

Definition __completion_queue_parts (__cqe : ptr * Z) (__p : io_uring_params) : completion_parts :=
  mkCqParts (__at_offset_as __cqe.1 (cq_off_head __p)) (__at_offset_as __cqe.1 (cq_off_tail __p))
    (__at_offset_as __cqe.1 (cq_off_cqes __p)) (__at_offset_as __cqe.1 (cq_off_ring_mask __p)).

(** [__cq_region_ ? __cq_region_ : __sq_region_], [__sq_region_, __sqe_region_] *)
Definition scheduler_queues (__p : io_uring_params) : run (completion_parts * submission_parts) :=
  on_regions (
    has_cq ← handles.region_operator_bool __cq_region_;
    cq ← handles.load (if (has_cq : bool) then __cq_region_ else __sq_region_);
    sq ← handles.load __sq_region_;
    sqe ← handles.load __sqe_region_;
    mret (__completion_queue_parts cq __p, __submission_queue_parts sq sqe __p)).
End code.

(** ** One owner at a time *)
Section owners.
Context `{handles.Resource H}.
Implicit Types (w : handles.world H).

Lemma destroy_runs w p h : handles.inv w -> p <> nullptr -> handles.owners w !! p = Some h ->
  exists w', handles.destroy p w = Done (tt, w') /\ handles.inv w' /\ handles.owners w' = delete p (handles.owners w).
Proof.
  intros Hi Hp Hh. assert (returns (handles.destroy p) w (fun _ w' => handles.owners w' = delete p (handles.owners w))) as Hr.
  { unfold handles.destroy. eapply returns_bind_mono with (P := fun a s => a = h /\ s = w).
    - unfold returns, handles.load. by rewrite decide_False, Hh by done.
    - intros a s [-> ->]. eapply returns_bind_mono with (P := fun _ s => handles.owners s = handles.owners w).
      + destruct (handles.valid h); [|by apply returns_ret]. apply returns_modify. by case_decide.
      + intros _ s Hs. apply returns_modify. simpl. by rewrite Hs. }
  apply returns_Done in Hr as ([] & w' & E & Ho). exists w'. split_and!; [done|by eapply handles.inv_destroy|done].
Qed.

Lemma hand_out_inv w p h : handles.inv w -> handles.owners w !! p = None ->
  (handles.valid h = true -> h ∉ handles.live w) ->
  handles.inv (handles.mkWorld (<[p := h]> (handles.owners w))
    (if handles.valid h then h :: handles.live w else handles.live w) (handles.errors w)).
Proof.
  intros Hi Hp Hh. apply handles.owners_inv_new; [done..| |]; unfold handles.own1; destruct (handles.valid h); try done.
  - constructor; [by apply Hh|by destruct Hi].
  - by destruct Hi.
Qed.

Lemma assign_fresh w p o h : handles.inv w -> p <> nullptr -> o <> nullptr -> p <> o ->
  handles.owners w !! p = Some handles.empty -> handles.owners w !! o = Some h ->
  handles.assign_move p o w = Done (tt, handles.mkWorld (<[p := h]> (<[o := handles.empty]> (handles.owners w)))
    (handles.live w) (handles.errors w)).
Proof.
  intros Hi Hp Ho Hpo Ep Eo. unfold handles.assign_move, handles.exchange, handles.load, handles.store, mbind, M_bind.
  rewrite decide_True, (decide_False (P := p = nullptr)), Ep, handles.valid_empty by done.
  cbn. by rewrite decide_False, Eo by done.
Qed.

Lemma live_owned w h : handles.inv w -> h ∈ handles.live w ->
  exists p, handles.owners w !! p = Some h /\ handles.valid h = true.
Proof.
  intros [Ho _ _] Hh. rewrite <- Ho in Hh. apply list_elem_of_filter in Hh as [Hv Hh].
  apply list_elem_of_fmap in Hh as ([p h'] & -> & Hh). apply elem_of_map_to_list in Hh. eauto.
Qed.

Lemma empty_start w : handles.inv w -> handles.owners w = ∅ -> w = handles.start.
Proof.
  intros [Ho _ He] E. destruct w as [m l e]. simpl in *. subst. unfold handles.owned in Ho.
  rewrite map_to_list_empty in Ho. by apply Permutation_nil_l in Ho as <-.
Qed.
End owners.

(** ** What the system promises

    Descriptors and mappings that are handed out are not in use, and no mapping
    starts at the null address. *)
Record system_ok (io_uring_setup : Z -> io_uring_params -> Z * io_uring_params) (eventfd : Z) (mmap : Z -> Z -> Z -> ptr) : Prop := {
  new_descriptor n p : 0 <= (io_uring_setup n p).1 -> eventfd <> (io_uring_setup n p).1;
  new_mapping fd o1 n1 o2 n2 : o1 <> o2 -> mmap fd o1 n1 <> handles.MAP_FAILED -> mmap fd o1 n1 <> mmap fd o2 n2;
  mapping_nonnull fd o n : mmap fd o n <> nullptr
}.

Section proofs.
Context (io_uring_setup : Z -> io_uring_params -> Z * io_uring_params) (eventfd : Z).
Context (mmap : Z -> Z -> Z -> ptr) (io_uring_register : Z -> Z -> Z) (errno : Z).
Context (Hsys : system_ok io_uring_setup eventfd mmap).
Implicit Types (s : state).

(** The members while the body of the constructor runs. *)
Record members s (ring event : Z) (sq cq sqe : ptr * Z) : Prop := {
  m_fds : handles.owners (fds s) = {[__ringfd_ := ring; __eventfd_ := event]};
  m_regions : handles.owners (regions s) = {[__sq_region_ := sq; __cq_region_ := cq; __sqe_region_ := sqe]};
  m_fds_inv : handles.inv (fds s);
  m_regions_inv : handles.inv (regions s)
}.

Lemma destroy_regions_runs s sq cq sqe : handles.inv (regions s) ->
  handles.owners (regions s) = {[__sq_region_ := sq; __cq_region_ := cq; __sqe_region_ := sqe]} ->
  destroy_regions s = Done (tt, mkState (fds s) handles.start).
Proof.
  intros Hi Ho. destruct (destroy_runs (regions s) __sqe_region_ sqe Hi) as (w1 & E1 & Hi1 & Ho1); [done|by rewrite Ho|].
  destruct (destroy_runs w1 __cq_region_ cq Hi1) as (w2 & E2 & Hi2 & Ho2); [done|by rewrite Ho1, Ho|].
  destruct (destroy_runs w2 __sq_region_ sq Hi2) as (w3 & E3 & Hi3 & Ho3); [done|by rewrite Ho2, Ho1, Ho|].
  assert (w3 = handles.start) as -> by (apply empty_start; [done|]; rewrite Ho3, Ho2, Ho1, Ho; done).
  unfold destroy_regions, on_regions, handles.region_destroy.
  rewrite (run_bind _ _ _ _ _ E1), (run_bind _ _ _ _ _ E2). by rewrite E3.
Qed.

Lemma destroy_members_runs s ring event sq cq sqe : members s ring event sq cq sqe -> destroy_members s = Done (tt, start).
Proof.
  intros [Hf Hr Hfi Hri]. destruct (destroy_runs (fds s) __eventfd_ event Hfi) as (w1 & E1 & Hi1 & Ho1); [done|by rewrite Hf|].
  destruct (destroy_runs w1 __ringfd_ ring Hi1) as (w2 & E2 & Hi2 & Ho2); [done|by rewrite Ho1, Hf|].
  assert (w2 = handles.start) as -> by (apply empty_start; [done|]; rewrite Ho2, Ho1, Hf; done).
  unfold destroy_members. rewrite run_bind with (a := tt) (s' := mkState handles.start (regions s)).
  - by rewrite (destroy_regions_runs (mkState handles.start (regions s)) sq cq sqe).
  - unfold on_fds, handles.fd_destroy. rewrite (run_bind _ _ _ _ _ E1). by rewrite E2.
Qed.
Lemma assign_region_runs s member fd off size (m := handles.owners (regions s)) (p := mmap fd off size) :
  handles.inv (regions s) -> member <> nullptr -> member <> temporary ->
  m !! member = Some (nullptr, 0) -> m !! temporary = None ->
  (p <> handles.MAP_FAILED -> forall k r, m !! k = Some r -> r.1 <> p) ->
  if decide (p = handles.MAP_FAILED) then assign_region mmap errno member fd off size s = Done (inl errno, s)
  else exists w', assign_region mmap errno member fd off size s = Done (inr tt, mkState (fds s) w') /\
    handles.inv w' /\ handles.owners w' = <[member := (p, size)]> m.
Proof using Hsys.
  intros Hi Hm0 Hmt Hm Ht Hl. pose proof (mapping_nonnull _ _ _ Hsys fd off size) as Hnn. fold p in Hnn.
  unfold assign_region, __map_region, then_, __throw_error_code_if. fold p. case_decide as Hp.
  - unfold mbind, M_bind, mret, M_ret. by rewrite bool_decide_eq_true_2.
  - assert (handles.valid (p, size) = true) as Hv by (by apply bool_decide_eq_true).
    assert ((p, size) ∉ handles.live (regions s)) as Hnl.
    { intros (k & Hk & _)%live_owned; [|done]. by destruct (Hl Hp _ _ Hk). }
    pose proof (hand_out_inv (regions s) temporary (p, size) Hi Ht ltac:(by intros)) as Hi1. rewrite Hv in Hi1.
    set (w1 := handles.mkWorld _ _ _) in Hi1.
    pose proof (assign_fresh w1 member temporary (p, size) Hi1 Hm0 ltac:(done) Hmt
      ltac:(simpl; by rewrite lookup_insert_ne) ltac:(apply lookup_insert_eq)) as Ha.
    set (w2 := handles.mkWorld _ _ _) in Ha.
    assert (handles.inv w2) as Hi2 by (by eapply handles.inv_assign).
    destruct (destroy_runs w2 temporary (nullptr, 0) Hi2) as (w3 & Hd & Hi3 & Ho3); [done|simpl; rewrite lookup_insert_ne by done; apply lookup_insert_eq|].
    exists w3. split_and!; [|done|].
    + unfold mbind, M_bind, mret, M_ret. rewrite bool_decide_eq_false_2 by done. unfold on_regions at 2. cbn.
      unfold handles.region_construct, handles.construct, handles.region_value, handles.store, modify.
      rewrite decide_False by done. cbn. fold w1. unfold on_regions, mbind, M_bind. cbn [regions].
      unfold handles.region_assign_move. rewrite Ha. unfold handles.region_destroy. by rewrite Hd.
    + rewrite Ho3. simpl. rewrite delete_insert_ne, delete_insert_eq, delete_insert_id by done. done.
Qed.

Abbreviation none := (nullptr, 0).

Lemma then_throw {B} c e (k : unit -> run (may_throw B)) s :
  then_ (__throw_error_code_if c e) k s = if c then Done (inl e, s) else k tt s.
Proof. by destruct c. Qed.

Lemma then_done {A B} (m : run (may_throw A)) (k : A -> run (may_throw B)) s r s' : m s = Done (r, s') ->
  then_ m k s = match r with inl e => Done (inl e, s') | inr a => k a s' end.
Proof. unfold then_, mbind, M_bind. intros ->. by destruct r. Qed.

Lemma fd_bool s q h : q <> nullptr -> handles.owners (fds s) !! q = Some h ->
  on_fds (handles.fd_operator_bool q) s = Done (bool_decide (h <> - 1), s).
Proof.
  intros Hq Hh. unfold on_fds, handles.fd_operator_bool, handles.operator_bool, handles.load, mbind, M_bind.
  rewrite decide_False, Hh by done. by destruct s.
Qed.

Lemma fd_load s q h : q <> nullptr -> handles.owners (fds s) !! q = Some h -> on_fds (handles.load q) s = Done (h, s).
Proof. intros Hq Hh. unfold on_fds, handles.load. rewrite decide_False, Hh by done. by destruct s. Qed.

Lemma different_mapping fd o1 n1 o2 n2 : o1 <> o2 -> mmap fd o1 n1 <> handles.MAP_FAILED -> mmap fd o2 n2 <> mmap fd o1 n1.
Proof using Hsys. intros Ho Hp E. by apply (new_mapping _ _ _ Hsys fd o1 n1 o2 n2 Ho Hp). Qed.

Lemma assign_step s m member fd off size : handles.owners (regions s) = m -> handles.inv (regions s) ->
  member <> nullptr -> member <> temporary -> m !! member = Some none -> m !! temporary = None ->
  (mmap fd off size <> handles.MAP_FAILED -> forall k r, m !! k = Some r -> r.1 <> mmap fd off size) ->
  exists r s', assign_region mmap errno member fd off size s = Done (r, s') /\ fds s' = fds s /\
    handles.inv (regions s') /\
    match r with
    | inl _ => handles.owners (regions s') = m
    | inr _ => mmap fd off size <> handles.MAP_FAILED /\ handles.owners (regions s') = <[member := (mmap fd off size, size)]> m
    end.
Proof using Hsys.
  intros <- Hi Hm Hmt Hn Ht Hd. pose proof (assign_region_runs s member fd off size Hi Hm Hmt Hn Ht Hd) as H.
  case_decide as Hp; [by eexists (inl errno), s|]. destruct H as (w & E & Hi2 & Ho). by eexists (inr tt), _.
Qed.

Ltac distinct_regions Hk :=
  repeat (apply lookup_insert_Some in Hk as [[_ <-]|[_ Hk]]); [..|try apply lookup_singleton_Some in Hk as [_ <-]];
  simpl; first [by apply not_eq_sym|by apply different_mapping].

(** The body stops at the first failure, with the members in some state, or
    leaves the three regions mapped. *)
Lemma constructor_body_runs s ring event p : members s ring event none none none ->
  exists r s' sq cq sqe, constructor_body mmap io_uring_register errno p s = Done (r, s') /\
    members s' ring event sq cq sqe /\
    let '(n_sq, n_cq, n_sqe) := ring_sizes p in
    (r = inr tt -> sq = (mmap ring IORING_OFF_SQ_RING n_sq, n_sq) /\ sqe = (mmap ring IORING_OFF_SQES n_sqe, n_sqe) /\
      cq = if Z.land (features p) IORING_FEAT_SINGLE_MMAP =? 0 then (mmap ring IORING_OFF_CQ_RING n_cq, n_cq) else none).
Proof using Hsys.
  intros Hm. pose proof Hm as [Hf Hr Hfi Hri]. unfold constructor_body.
  rewrite (run_bind _ _ _ _ _ (fd_bool s __ringfd_ ring ltac:(done) ltac:(by rewrite Hf))), then_throw.
  destruct (ring_sizes p) as [[n_sq n_cq] n_sqe]. case_bool_decide; cbn [negb]; [|by eexists (inl errno), s, _, _, _].
  rewrite (run_bind _ _ _ _ _ (fd_bool s __eventfd_ event ltac:(done) ltac:(by rewrite Hf))), then_throw.
  case_bool_decide; cbn [negb]; [|by eexists (inl errno), s, _, _, _].
  rewrite (run_bind _ _ _ _ _ (fd_load s __ringfd_ ring ltac:(done) ltac:(by rewrite Hf))).
  destruct (assign_step s _ __sq_region_ ring IORING_OFF_SQ_RING n_sq Hr Hri) as (r1 & s1 & E1 & F1 & I1 & O1); [done..| |].
  { intros Hnf k r Hk. pose proof (mapping_nonnull _ _ _ Hsys ring IORING_OFF_SQ_RING n_sq). distinct_regions Hk. }
  rewrite (then_done _ _ _ _ _ E1). destruct r1 as [e|[]]; [exists (inl e), s1; do 3 eexists; split; [done|]; by split; [split; rewrite ?F1|]|].
  destruct O1 as [P1 O1]. rewrite insert_insert_eq in O1.
  destruct (assign_step s1 _ __sqe_region_ ring IORING_OFF_SQES n_sqe O1 I1) as (r2 & s2 & E2 & F2 & I2 & O2); [done..| |].
  { intros Hnf k r Hk. pose proof (mapping_nonnull _ _ _ Hsys ring IORING_OFF_SQES n_sqe). distinct_regions Hk. }
  rewrite (then_done _ _ _ _ _ E2). destruct r2 as [e|[]]; [exists (inl e), s2; do 3 eexists; split; [done|]; by split; [split; rewrite ?F2, ?F1|]|].
  destruct O2 as [P2 O2]. set (sq := (mmap ring IORING_OFF_SQ_RING n_sq, n_sq)) in *.
  set (sqe := (mmap ring IORING_OFF_SQES n_sqe, n_sqe)) in *.
  assert (handles.owners (regions s2) = {[__sq_region_ := sq; __cq_region_ := none; __sqe_region_ := sqe]}) as O2'
    by (rewrite O2; done).
  destruct (Z.land (features p) IORING_FEAT_SINGLE_MMAP =? 0).
  - destruct (assign_step s2 _ __cq_region_ ring IORING_OFF_CQ_RING n_cq O2' I2) as (r3 & s3 & E3 & F3 & I3 & O3); [done..| |].
    { intros Hnf k r Hk. pose proof (mapping_nonnull _ _ _ Hsys ring IORING_OFF_CQ_RING n_cq). distinct_regions Hk. }
    rewrite (then_done _ _ _ _ _ E3). destruct r3 as [e|[]]; [exists (inl e), s3; do 3 eexists; split; [done|]; by split; [split; rewrite ?F3, ?F2, ?F1|]|].
    destruct O3 as [P3 O3].
    assert (members s3 ring event sq (mmap ring IORING_OFF_CQ_RING n_cq, n_cq) sqe) as Hm3
      by (split; rewrite ?F3, ?F2, ?F1, ?O3; done).
    rewrite (run_bind _ _ _ _ _ (fd_load s3 __eventfd_ event ltac:(done) ltac:(by rewrite F3, F2, F1, Hf))).
    eexists _, s3, _, _, _. split; [done|]. split; [exact Hm3|done].
  - assert (members s2 ring event sq none sqe) as Hm2 by (split; rewrite ?F2, ?F1, ?O2'; done).
    rewrite (then_done (mret (inr tt)) _ s2 (inr tt) s2) by done.
    rewrite (run_bind _ _ _ _ _ (fd_load s2 __eventfd_ event ltac:(done) ltac:(by rewrite F2, F1, Hf))).
    eexists _, s2, _, _, _. split; [done|]. split; [exact Hm2|done].
Qed.

Abbreviation construct := (__scheduler_base_construct io_uring_setup eventfd mmap io_uring_register errno).

(** The constructor has the members in place before its body runs. *)
Lemma construct_runs entries fl : let '(rc, p) := io_uring_setup entries (__init_params fl) in
  if decide (rc < 0) then construct entries fl start = Done (inl (- rc), start)
  else exists r s sq cq sqe,
    construct entries fl start =
      match r with inl e => Done (inl e, start) | inr _ => Done (inr p, s) end /\
    members s rc eventfd sq cq sqe /\
    let '(n_sq, n_cq, n_sqe) := ring_sizes p in
    (r = inr tt -> sq = (mmap rc IORING_OFF_SQ_RING n_sq, n_sq) /\ sqe = (mmap rc IORING_OFF_SQES n_sqe, n_sqe) /\
      cq = if Z.land (features p) IORING_FEAT_SINGLE_MMAP =? 0 then (mmap rc IORING_OFF_CQ_RING n_cq, n_cq) else none).
Proof using Hsys.
  destruct (io_uring_setup entries (__init_params fl)) as [rc p] eqn:Es.
  set (s0 := mkState handles.start (handles.mkWorld {[__sq_region_ := none; __cq_region_ := none; __sqe_region_ := none]} [] [])).
  assert (construct entries fl start = (
    r ← __io_uring_setup io_uring_setup entries (__init_params fl);
    match r with
    | inl e => destroy_regions;; mret (inl e)
    | inr __params_ => construct_eventfd eventfd;; b ← constructor_body mmap io_uring_register errno __params_;
        match b with inl e => destroy_members;; mret (inl e) | inr _ => mret (inr __params_) end
    end) s0) as ->.
  { unfold __scheduler_base_construct. rewrite run_bind with (a := tt) (s' := s0); [done|].
    unfold on_regions, s0. cbn. do 4 f_equal. }
  assert (handles.inv (regions s0)) as Hi0.
  { split; [|constructor|done]. done. }
  case_decide as Hrc.
  - rewrite run_bind with (a := inl (- rc)) (s' := s0).
    + by rewrite (run_bind _ _ _ _ _ (destroy_regions_runs s0 none none none Hi0 eq_refl)).
    + unfold __io_uring_setup. rewrite Es, then_throw. by destruct (Z.ltb_spec rc 0); [|lia].
  - assert (handles.inv (handles.start (H := Z))) as Hst by (split; [done|constructor|done]).
    pose proof (hand_out_inv _ __ringfd_ rc Hst eq_refl ltac:(intros _; apply not_elem_of_nil)) as Hi1.
    set (w1 := handles.mkWorld _ _ _) in Hi1.
    assert (handles.valid rc = true) as Hv by (apply bool_decide_eq_true; lia).
    pose proof (hand_out_inv w1 __eventfd_ eventfd Hi1 eq_refl) as Hi2.
    set (w2 := handles.mkWorld _ _ _) in Hi2.
    assert (members (mkState w2 (regions s0)) rc eventfd none none none) as Hm.
    { split; [|done| |done]; cbn [fds].
      - apply insert_insert_ne. done.
      - apply Hi2. intros _. unfold w1. cbn [handles.live]. rewrite Hv.
        intros [E|E]%elem_of_cons; [|by apply not_elem_of_nil in E].
        pose proof (new_descriptor _ _ _ Hsys entries (__init_params fl)) as Hn. rewrite Es in Hn. apply Hn; [simpl; lia|done]. }
    destruct (constructor_body_runs _ _ _ p Hm) as (r & s & sq & cq & sqe & Hb & Hms & Hr).
    exists r, s, sq, cq, sqe. split; [|done].
    rewrite run_bind with (a := inr p) (s' := mkState w1 (regions s0)).
    + rewrite run_bind with (a := tt) (s' := mkState w2 (regions s0)).
      * rewrite (run_bind _ _ _ _ _ Hb). destruct r as [e|[]]; [|done].
        by rewrite (run_bind _ _ _ _ _ (destroy_members_runs _ _ _ _ _ _ Hms)).
      * unfold construct_eventfd. case_decide as He; unfold on_fds; cbn; do 3 f_equal; unfold w2; f_equal; simpl.
        -- by rewrite He.
        -- by rewrite (bool_decide_eq_true_2 (eventfd <> - 1)).
    + unfold __io_uring_setup. rewrite Es, then_throw. destruct (Z.ltb_spec rc 0); [lia|]. unfold w1. by rewrite Hv.
Qed.

(** C12: however the system calls end, the constructor of the scheduler returns or
    throws.  When it throws, everything acquired so far has been released, once;
    when it returns, the members own the two descriptors and the mappings of the
    rings in the sizes computed, nothing else is held, and the destructor gives
    all of it back. *)
Theorem scheduler_owns_or_releases entries fl : let '(rc, p) := io_uring_setup entries (__init_params fl) in
  let '(n_sq, n_cq, n_sqe) := ring_sizes p in
  exists r s, construct entries fl start = Done (r, s) /\
    match r with
    | inl _ => s = start
    | inr p' => p' = p /\ 0 <= rc /\ handles.errors (fds s) = [] /\ handles.errors (regions s) = [] /\
        handles.owners (fds s) = {[__ringfd_ := rc; __eventfd_ := eventfd]} /\
        handles.owners (regions s) = {[__sq_region_ := (mmap rc IORING_OFF_SQ_RING n_sq, n_sq);
          __cq_region_ := if Z.land (features p) IORING_FEAT_SINGLE_MMAP =? 0 then (mmap rc IORING_OFF_CQ_RING n_cq, n_cq) else none;
          __sqe_region_ := (mmap rc IORING_OFF_SQES n_sqe, n_sqe)]} /\
        handles.owned (handles.owners (fds s)) ≡ₚ handles.live (fds s) /\
        handles.owned (handles.owners (regions s)) ≡ₚ handles.live (regions s) /\
        destroy_members s = Done (tt, start)
    end.
Proof using Hsys.
  pose proof (construct_runs entries fl) as H. destruct (io_uring_setup entries (__init_params fl)) as [rc p].
  destruct (ring_sizes p) as [[n_sq n_cq] n_sqe]. case_decide as Hrc; [by eexists _, _|].
  destruct H as (r & s & sq & cq & sqe & -> & Hm & Hr). destruct r as [e|[]]; [by eexists _, _|].
  destruct (Hr eq_refl) as (-> & -> & ->). eexists _, _. split; [done|].
  pose proof (destroy_members_runs _ _ _ _ _ _ Hm) as Hd. destruct Hm as [Hf Hg [? _ ?] [? _ ?]].
  by split_and!; [|lia|..].
Qed.

(** ** Where the queues find their parts *)

(** What the system says of the parameters it fills in: the words of a ring lie
    before its array, and the rings are smaller than 4 GB. *)
Record layout_ok (p : io_uring_params) : Prop := {
  l_sq_words : 0 <= sq_off_head p /\ 0 <= sq_off_tail p /\ 0 <= sq_off_ring_mask p;
  l_sq_array : sq_off_head p + 4 <= sq_off_array p /\ sq_off_tail p + 4 <= sq_off_array p /\ sq_off_ring_mask p + 4 <= sq_off_array p;
  l_cq_words : 0 <= cq_off_head p /\ 0 <= cq_off_tail p /\ 0 <= cq_off_ring_mask p;
  l_cq_cqes : cq_off_head p + 4 <= cq_off_cqes p /\ cq_off_tail p + 4 <= cq_off_cqes p /\ cq_off_ring_mask p + 4 <= cq_off_cqes p;
  l_entries : 0 <= sq_entries p /\ 0 <= cq_entries p;
  l_sizes : sq_off_array p + sq_entries p * 4 < 2 ^ 32 /\ cq_off_cqes p + cq_entries p * 16 < 2 ^ 32
}.

(** The [n] bytes at [a] are in a mapping that exists. *)
Definition mapped_at s (a : ptr) (n : Z) : Prop :=
  exists r, r ∈ handles.live (regions s) /\ r.1 <= a /\ a + n <= r.1 + r.2.

Lemma ring_sizes_cover p : layout_ok p -> let '(n_sq, n_cq, n_sqe) := ring_sizes p in
  sq_off_array p + sq_entries p * 4 <= n_sq /\ n_sqe = sq_entries p * 64 /\
  (if Z.land (features p) IORING_FEAT_SINGLE_MMAP =? 0 then cq_off_cqes p + cq_entries p * 16 <= n_cq
   else cq_off_cqes p + cq_entries p * 16 <= n_sq).
Proof.
  intros [Hsw Hsa Hcw Hcc He Hs]. unfold ring_sizes, sizeof_unsigned, sizeof_cqe, sizeof_sqe.
  rewrite !(wrap_small 64) by (unfold is_word; lia). rewrite !(wrap_small 32) by (unfold is_word; lia).
  unfold __umax. destruct (Z.land _ _ =? 0); cbn [negb]; [lia|]. destruct (Z.ltb_spec (sq_off_array p + sq_entries p * 4) (cq_off_cqes p + cq_entries p * 16)); lia.
Qed.

Lemma member_live s k r : handles.inv (regions s) -> handles.owners (regions s) !! k = Some r -> r.1 <> nullptr -> r ∈ handles.live (regions s).
Proof.
  intros [Ho _ _] Hk Hr. rewrite <- Ho. apply list_elem_of_filter. split; [by apply bool_decide_eq_true|].
  apply list_elem_of_fmap. exists (k, r). split; [done|]. by apply elem_of_map_to_list.
Qed.

Lemma region_load s k r : k <> nullptr -> handles.owners (regions s) !! k = Some r ->
  handles.load k (regions s) = Done (r, regions s).
Proof. intros Hk Hr. unfold handles.load. by rewrite decide_False, Hr by done. Qed.

(** C13: with a layout of the rings as the system describes it, every word and every
    entry that the submission and the completion queue will touch lies in one of
    the mappings the scheduler owns, whether the two rings share a mapping or
    not. *)
Theorem rings_in_bounds entries fl p s : construct entries fl start = Done (inr p, s) -> layout_ok p ->
  returns (scheduler_queues p) s (fun '(cq, sq) s' => s' = s /\
    mapped_at s (sq_head_at sq) 4 /\ mapped_at s (sq_tail_at sq) 4 /\ mapped_at s (sq_mask_at sq) 4 /\
    (forall i, 0 <= i < n_slot sq -> mapped_at s (sq_array_at sq + 4 * i) 4 /\ mapped_at s (sqe_at sq + 64 * i) 64) /\
    mapped_at s (cq_head_at cq) 4 /\ mapped_at s (cq_tail_at cq) 4 /\ mapped_at s (cq_mask_at cq) 4 /\
    (forall i, 0 <= i < cq_entries p -> mapped_at s (cqe_at cq + 16 * i) 16)).
Proof using Hsys.
  intros Hc Hl. pose proof (construct_runs entries fl) as H. destruct (io_uring_setup entries (__init_params fl)) as [rc p'].
  case_decide; [by rewrite H in Hc|]. destruct H as (r & s' & sq & cq & sqe & E & Hm & Hr).
  rewrite Hc in E. destruct r as [e|[]]; [done|]. injection E as <- <-. pose proof (ring_sizes_cover p Hl) as Hsz.
  destruct (ring_sizes p) as [[n_sq n_cq] n_sqe]. destruct (Hr eq_refl) as (-> & -> & Hcq). destruct Hsz as (Hs1 & Hs2 & Hs3).
  destruct Hm as [_ Ho _ Hi]. set (sq := (mmap rc IORING_OFF_SQ_RING n_sq, n_sq)) in *. set (sqe := (mmap rc IORING_OFF_SQES n_sqe, n_sqe)) in *.
  assert (sq ∈ handles.live (regions s)) as Lsq by (apply (member_live s __sq_region_); [done|by rewrite Ho|by eapply mapping_nonnull]).
  assert (sqe ∈ handles.live (regions s)) as Lsqe by (apply (member_live s __sqe_region_); [done|by rewrite Ho|by eapply mapping_nonnull]).
  assert (exists c, c ∈ handles.live (regions s) /\ cq_off_cqes p + cq_entries p * 16 <= c.2 /\
    scheduler_queues p s = Done ((__completion_queue_parts c p, __submission_queue_parts sq sqe p), s)) as (c & Lc & Hc2 & Hq).
  { unfold scheduler_queues, on_regions, handles.region_operator_bool, handles.operator_bool.
    unfold mbind, M_bind. rewrite (region_load s __cq_region_ cq) by (done || by rewrite Ho). cbn.
    destruct (Z.land _ _ =? 0); subst cq.
    - exists (mmap rc IORING_OFF_CQ_RING n_cq, n_cq). split; [|split; [done|]].
      + apply (member_live s __cq_region_); [done|by rewrite Ho|by eapply mapping_nonnull].
      + simpl. rewrite bool_decide_eq_true_2 by by eapply mapping_nonnull.
        do 3 (erewrite region_load; [|done|by rewrite Ho]; cbn). by destruct s.
    - exists sq. split_and!; [done|done|]. simpl. do 3 (erewrite region_load; [|done|by rewrite Ho]; cbn). by destruct s. }
  unfold returns. rewrite Hq. destruct Hl as [Hsw Hsa Hcw Hcc He Hs]. cbn. unfold __at_offset_as.
  assert (forall a n, sq.1 <= a -> a + n <= sq.1 + n_sq -> mapped_at s a n) as Msq by (by exists sq).
  assert (forall a n, sqe.1 <= a -> a + n <= sqe.1 + n_sqe -> mapped_at s a n) as Msqe by (by exists sqe).
  assert (forall a n, c.1 <= a -> a + n <= c.1 + c.2 -> mapped_at s a n) as Mc by (by exists c).
  subst sq sqe; cbn [fst snd] in *. split_and!; [done|apply Msq; lia|apply Msq; lia|apply Msq; lia| |apply Mc; lia|apply Mc; lia|apply Mc; lia|].
  - intros i Hi2. split; [apply Msq; lia|apply Msqe; lia].
  - intros i Hi2. apply Mc; lia.
Qed.

End proofs.

(** ** A ring of 1024 entries *)
Module setup_example.

Definition params : io_uring_params := mkParams 1024 2048 12288 1 0 64 256 33088 128 192 264 320.
Definition io_uring_setup (n : Z) (p : io_uring_params) : Z * io_uring_params := (5, params).
Definition mmap (fd off size : Z) : ptr :=
  if off =? IORING_OFF_SQ_RING then 4096 else if off =? IORING_OFF_SQES then 65536
  else if off =? IORING_OFF_CQ_RING then 1048576 else handles.MAP_FAILED.
Definition register (ring event : Z) : Z := 0.

Lemma system : system_ok io_uring_setup 6 mmap.
Proof.
  split.
  - done.
  - intros fd o1 n1 o2 n2 Ho. unfold mmap. repeat case_match; try done; lia.
  - intros fd o n. unfold mmap. by repeat case_match.
Qed.

Lemma layout : layout_ok params.
Proof. split; simpl; lia. Qed.

Definition constructed : state :=
  match __scheduler_base_construct io_uring_setup 6 mmap register 0 1024 0 start with Done (_, s) => s | Fault _ => start end.

Lemma scheduler_owns_or_releases_witness : exists r s,
  __scheduler_base_construct io_uring_setup 6 mmap register 0 1024 0 start = Done (r, s) /\
  match r with inl _ => s = start | inr p => p = params /\ destroy_members s = Done (tt, start) end.
Proof.
  destruct (scheduler_owns_or_releases io_uring_setup 6 mmap register 0 system 1024 0) as (r & s & E & H).
  exists r, s. split; [exact E|]. destruct r as [e|p]; [exact H|]. destruct H as (Ep & _ & _ & _ & _ & _ & _ & _ & Hd).
  split; [exact Ep|exact Hd].
Defined.

Lemma rings_in_bounds_witness : returns (scheduler_queues params) constructed (fun '(cq, sq) s' => s' = constructed /\
  mapped_at constructed (sq_head_at sq) 4 /\ mapped_at constructed (sq_tail_at sq) 4 /\ mapped_at constructed (sq_mask_at sq) 4 /\
  (forall i, 0 <= i < n_slot sq -> mapped_at constructed (sq_array_at sq + 4 * i) 4 /\ mapped_at constructed (sqe_at sq + 64 * i) 64) /\
  mapped_at constructed (cq_head_at cq) 4 /\ mapped_at constructed (cq_tail_at cq) 4 /\ mapped_at constructed (cq_mask_at cq) 4 /\
  (forall i, 0 <= i < cq_entries params -> mapped_at constructed (cqe_at cq + 16 * i) 16)).
Proof.
  apply (rings_in_bounds io_uring_setup 6 mmap register 0 system 1024 0 params constructed).
  - vm_compute. reflexivity.
  - exact layout.
Defined.
End setup_example.

End setup.
