(* ===== verification/Pool.v ===== *)
(** * [__protocal/__memory_resource.hpp]: blocks of buffers by size class

    A block is a mapping cut into equal buffers of one of ten size classes, each
    followed by a cache line with its descriptor; the descriptors of a new block
    form its free list.  Module [pool] models the table of size classes, the
    choice of a class for a size, the counts of references and the construction
    of a block over a memory of descriptors. *)

From S2P Require Import Prelude Memory RoundUp IntrusiveQueue Handles.
Import intrusive_queue (queue, empty_queue, qrep, push_back_spec).

Module pool.

Definition __GCC_DESTRUCTIVE_SIZE : Z := 64.

Record __descriptor := mkDescriptor {
  __bid_ : Z; __sc_ : Z; __refcount_ : Z; __prev_ : ptr; __next_ : ptr
}.
Definition sizeof_descriptor : Z := __GCC_DESTRUCTIVE_SIZE.

#[export] Program Instance descriptor_linked : Linked __descriptor := {|
  next_of := __next_;
  set_next p d := mkDescriptor (__bid_ d) (__sc_ d) (__refcount_ d) (__prev_ d) p
|}.
Solve Obligations with by intros; repeat destruct select __descriptor.

(** The counts are signed 32-bit integers. *)
Definition _M_refcnt_increment (d : __descriptor) : __descriptor :=
  mkDescriptor (__bid_ d) (__sc_ d) (swrap 32 (__refcount_ d + 1)) (__prev_ d) (__next_ d).
Definition _M_refcnt_decrement (d : __descriptor) : Z * __descriptor :=
  let r := swrap 32 (__refcount_ d - 1) in
  (r, mkDescriptor (__bid_ d) (__sc_ d) r (__prev_ d) (__next_ d)).

(** ** Size classes: bit fields of 22, 7, 6 and 5 bits *)
Record __block_sc_meta := mkMeta { __len_ : Z; __cnt_ : Z; __threshold_ : Z; __batch_ : Z }.
Definition meta (len cnt threshold batch : Z) : __block_sc_meta :=
  mkMeta (wrap 22 len) (wrap 7 cnt) (wrap 6 threshold) (wrap 5 batch).

Definition _M_block_n_byte (this : __block_sc_meta) : Z :=
  let __m := u32 (__len_ this + sizeof_descriptor) in
  u32 (__round_up (u32 (__m * __cnt_ this)) 4096).

Definition __k_block_sc_meta : list __block_sc_meta := [
  meta 4096 64 32 16; meta 8192 32 16 8; meta 16384 16 8 4; meta 32768 16 8 4; meta 65536 8 4 2;
  meta 131072 8 4 2; meta 262144 4 2 1; meta 524288 4 2 1; meta 1048576 2 2 1; meta 2097152 1 1 1].

(** [__builtin_clz] of a 32-bit value, undefined at 0. *)
Definition clz (x : Z) : outcome Z := if x =? 0 then Fault Undefined else Done (31 - Z.log2 x).
Definition __choose_blksc (size : Z) : outcome Z :=
  match clz size with Done c => Done (u32 (19 - c)) | Fault f => Fault f end.

(** ** Blocks *)
Record __block := mkBlock { block_sc : Z; __mmr_ : ptr * Z; __free_ : queue }.

(** Constants of the system's headers. *)
Definition MAP_PRIVATE : Z := 2.
Definition MAP_ANONYMOUS : Z := 32.
Definition MAP_HUGETLB : Z := 262144.

Section code.

(** [::mmap] of [n] bytes with these flags. *)
Context (mmap : Z -> Z -> ptr).

Abbreviation run := (M (gmap ptr __descriptor)).

Definition __map_region (__m : __block_sc_meta) : run (ptr * Z) :=
  let __flags := Z.lor MAP_PRIVATE MAP_ANONYMOUS in
  let __flags := if __cnt_ __m =? 1 then Z.lor __flags MAP_HUGETLB else __flags in
  let __n := _M_block_n_byte __m in
  let __ptr := mmap __n __flags in
  if decide (__ptr = handles.MAP_FAILED) then throw Terminate
  else mret (handles.region_value __ptr __n).

(** [::new (p) __descriptor{...}] *)
Definition place (p : ptr) (d : __descriptor) : run unit :=
  if decide (p = nullptr) then throw NullDeref else modify <[p := d]>.

Definition block_at (__base __k __n : Z) (__m : __block_sc_meta) : ptr :=
  u64 (__base + u32 (__n * __k) + __len_ __m).

(** [for (__u32 __n{}; __n < __m.__cnt_; ++__n)] *)
Fixpoint block_loop (fuel : nat) (__r : Z) (__m : __block_sc_meta) (__bid __k __base __n : Z) (__free : queue) :
    run queue :=
  if __n <? __cnt_ __m then
    match fuel with
    | O => throw OutOfFuel
    | S fuel =>
        let __ptr := block_at __base __k __n __m in
        place __ptr (mkDescriptor (u32 (__bid + __n)) __r 1 nullptr nullptr);;
        __free ← intrusive_queue._M_push_back __free __ptr;
        block_loop fuel __r __m __bid __k __base (u32 (__n + 1)) __free
    end
  else mret __free.

Definition block_construct (fuel : nat) (__r : Z) (__m : __block_sc_meta) (__bid : Z) : run __block :=
  __mmr ← __map_region __m;
  let __k := u32 (__GCC_DESTRUCTIVE_SIZE + __len_ __m) in
  let __base := fst __mmr in
  __free ← block_loop fuel __r __m __bid __k __base 0 empty_queue;
  mret (mkBlock __r __mmr __free).
End code.

(** ** Choosing a class *)

(** The number of classes whose buffers are no larger than [size]. *)
Definition classes_below (size : Z) : Z := Z.of_nat (length (filter (fun c => __len_ c <= size) __k_block_sc_meta)).

Lemma table_lens : __len_ <$> __k_block_sc_meta = [4096; 8192; 16384; 32768; 65536; 131072; 262144; 524288; 1048576; 2097152].
Proof. by vm_compute. Qed.

Lemma table_lookup i n : (__len_ <$> __k_block_sc_meta) !! i = Some n -> exists c, __k_block_sc_meta !! i = Some c /\ __len_ c = n.
Proof. rewrite list_lookup_fmap. destruct (__k_block_sc_meta !! i) as [c|]; [|done]. intros [= <-]. eauto. Qed.

Lemma classes_below_lens size :
  classes_below size = Z.of_nat (length (filter (fun n => n <= size) (__len_ <$> __k_block_sc_meta))).
Proof.
  unfold classes_below. f_equal. induction __k_block_sc_meta as [|c l IH]; [done|].
  rewrite fmap_cons, !filter_cons. repeat case_decide; simpl; by rewrite ?IH.
Qed.

Ltac class_found Hc :=
  rewrite (wrap_small 32) by (unfold is_word; lia); split; [lia|]; split;
  [rewrite !filter_cons, filter_nil; repeat (rewrite decide_True by lia); repeat (rewrite decide_False by lia); cbn [length]; lia|eapply Hc; [reflexivity|lia]].

(** C18: [__choose_blksc] of a size between 4 KB and 4 MB finds the last class of the
    table whose buffers are no larger than the size, so that a buffer of the
    class holds the size only if the two are equal; every other size but 0 gives
    an index outside the table, and 0 is undefined. *)
Theorem choose_blksc_floor size : is_word 32 size ->
  match __choose_blksc size with
  | Done i => 0 < size /\ (i < 10 <-> 4096 <= size < 4194304) /\
      (i < 10 -> i = classes_below size - 1 /\
        exists c, __k_block_sc_meta !! Z.to_nat i = Some c /\ __len_ c <= size < 2 * __len_ c)
  | Fault f => size = 0 /\ f = Undefined
  end.
Proof.
  intros [H0 H32]. unfold __choose_blksc, clz.
  destruct (size =? 0) eqn:E; [by apply Z.eqb_eq in E|]. apply Z.eqb_neq in E.
  pose proof (Z.log2_spec size ltac:(lia)) as [H1 H2]. pose proof (Z.log2_nonneg size).
  assert (Z.log2 size < 32) by (by apply Z.log2_lt_pow2; lia). split; [lia|]. rewrite classes_below_lens.
  assert (forall i n, (__len_ <$> __k_block_sc_meta) !! i = Some n -> n <= size < 2 * n ->
    exists c, __k_block_sc_meta !! i = Some c /\ __len_ c <= size < 2 * __len_ c) as Hc.
  { intros i n (c & ? & <-)%table_lookup ?. eauto. }
  rewrite table_lens in *. set (k := Z.log2 size) in *. clearbody k.
  assert (k < 12 \/ 22 <= k \/ k = 12 \/ k = 13 \/ k = 14 \/ k = 15 \/ k = 16 \/
    k = 17 \/ k = 18 \/ k = 19 \/ k = 20 \/ k = 21) as [Hk|[Hk|Hk]] by lia.
  - pose proof (Z.pow_le_mono_r 2 (Z.succ k) 12).
    assert (u32 (19 - (31 - k)) = 2 ^ 32 + k - 12) as -> by (unfold wrap; rewrite <- (Z_mod_plus_full _ 1), Z.mod_small; lia).
    lia.
  - pose proof (Z.pow_le_mono_r 2 22 k). rewrite wrap_small by (split; lia). lia.
  - destruct_or! Hk; subst k; simpl in H1, H2; by class_found Hc.
Qed.

(** ** The layout of a block *)

Definition stride (c : __block_sc_meta) : Z := __len_ c + __GCC_DESTRUCTIVE_SIZE.
Definition buffer_at (base : ptr) (c : __block_sc_meta) (i : Z) : ptr := base + stride c * i.
Definition descriptor_at (base : ptr) (c : __block_sc_meta) (i : Z) : ptr := buffer_at base c i + __len_ c.
Definition descriptors (base : ptr) (c : __block_sc_meta) (n : Z) : list ptr := descriptor_at base c <$> seqZ 0 n.

(** What [::mmap] promises of its result. *)
Definition mapped (base : ptr) (n : Z) : Prop := 0 < base /\ base + n <= 2 ^ 47 /\ (4096 | base).

Record sane (c : __block_sc_meta) : Prop := {
  sane_len : 0 < __len_ c <= 2097152;
  sane_aligned : (64 | __len_ c);
  sane_cnt : 0 < __cnt_ c <= 64;
  sane_total : stride c * __cnt_ c + 4096 < 2 ^ 32
}.

Lemma table_sane c : c ∈ __k_block_sc_meta -> sane c.
Proof.
  intros Hc. assert (Forall (fun c => (0 < __len_ c <= 2097152 /\ __len_ c mod 64 = 0) /\
    0 < __cnt_ c <= 64 /\ stride c * __cnt_ c + 4096 < 2 ^ 32) __k_block_sc_meta) as Ht.
  { apply (bool_decide_unpack _). by vm_compute. }
  rewrite Forall_forall in Ht. destruct (Ht _ Hc) as ((? & ?%Z.mod_divide) & ? & ?); [done|lia].
Qed.

Lemma block_n_byte_rounds c : sane c ->
  (4096 | _M_block_n_byte c) /\ stride c * __cnt_ c <= _M_block_n_byte c < stride c * __cnt_ c + 4096.
Proof.
  intros [Hl Ha Hn Ht]. unfold _M_block_n_byte, sizeof_descriptor. fold (stride c).
  assert (0 < stride c) by (unfold stride, __GCC_DESTRUCTIVE_SIZE in *; lia).
  rewrite !(wrap_small 32 (stride c)), (wrap_small 32 (_ * _)) by (unfold is_word; nia).
  change 4096 with (2 ^ 12). rewrite round_up_div by lia. rewrite (wrap_small 64) by (unfold is_word; nia).
  destruct (least_multiple_div 12 ltac:(lia) (stride c * __cnt_ c)) as (Hd & Hr & _).
  rewrite (wrap_small 32) by (unfold is_word; nia). done.
Qed.

Lemma descriptors_snoc base c n : 0 <= n -> descriptors base c (n + 1) = descriptors base c n ++ [descriptor_at base c n].
Proof. intros. unfold descriptors. by rewrite seqZ_app, fmap_app by lia. Qed.

Lemma elem_of_descriptors base c n x : x ∈ descriptors base c n <-> exists i, x = descriptor_at base c i /\ 0 <= i < n.
Proof. unfold descriptors. rewrite list_elem_of_fmap. setoid_rewrite elem_of_seqZ. by setoid_rewrite Z.add_0_l. Qed.

Lemma descriptor_at_inj base c i j : sane c -> descriptor_at base c i = descriptor_at base c j -> i = j.
Proof.
  intros [? _ _ _]. unfold descriptor_at, buffer_at, stride, __GCC_DESTRUCTIVE_SIZE. intros E.
  apply (Z.mul_reg_l _ _ (__len_ c + 64)); lia.
Qed.

(** The fields a descriptor of the block has besides its link. *)
Definition described (bid sc : Z) (d : __descriptor) : Prop :=
  __bid_ d = u32 bid /\ __sc_ d = sc /\ __refcount_ d = 1 /\ __prev_ d = nullptr.

Lemma relinks_described l (m m' : gmap ptr __descriptor) p bid sc d : relinks l m m' -> m !! p = Some d ->
  described bid sc d -> exists d', m' !! p = Some d' /\ described bid sc d'.
Proof. intros Hr Hp ?. destruct (Hr p) as [->|(_ & d' & v & E & ->)]; [eauto|]. simplify_eq. eauto. Qed.

(** What the loop has done before its [n]-th round. *)
Record laid_out (m0 : gmap ptr __descriptor) base c bid sc (n : Z) (q : queue) (m : gmap ptr __descriptor) : Prop := {
  lo_queue : qrep m q (descriptors base c n);
  lo_descriptors i : 0 <= i < n -> exists d, m !! descriptor_at base c i = Some d /\ described (bid + i) sc d;
  lo_others p : p ∉ descriptors base c n -> m !! p = m0 !! p
}.

Lemma laid_out_round m0 base c bid sc n q m : sane c -> 0 < base -> 0 <= n -> laid_out m0 base c bid sc n q m ->
  let p := descriptor_at base c n in
  returns (place p (mkDescriptor (u32 (bid + n)) sc 1 nullptr nullptr);; intrusive_queue._M_push_back q p) m
    (laid_out m0 base c bid sc (n + 1)).
Proof.
  intros Hs Hb Hn [Hq Hd Ho] p. assert (p <> nullptr) as Hp.
  { destruct Hs. subst p. unfold descriptor_at, buffer_at, stride, __GCC_DESTRUCTIVE_SIZE, nullptr in *. nia. }
  assert (p ∉ descriptors base c n) as Hnew.
  { intros (i & E & ?)%elem_of_descriptors. apply descriptor_at_inj in E; [lia|done]. }
  unfold place. rewrite decide_False by done. rsteps.
  set (d := mkDescriptor _ _ _ _ _). eapply returns_mono; [apply push_back_spec with (l := descriptors base c n)|].
  - destruct Hq as [Hl Ht]. split; [by apply lseg_insert|done].
  - split; [done|]. rewrite lookup_insert_eq. eauto.
  - done.
  - intros q' m' [Hq' Hr]. simpl in Hr. split.
    + by rewrite descriptors_snoc.
    + intros i Hi. destruct (decide (i = n)) as [->|].
      * apply (relinks_described _ _ _ _ _ _ d Hr); [apply lookup_insert_eq|done].
      * destruct (Hd i ltac:(lia)) as (d1 & E & ?). apply (relinks_described _ _ _ _ _ _ d1 Hr); [|done].
        rewrite lookup_insert_ne; [done|]. intros E2. apply descriptor_at_inj in E2; [lia|done].
    + intros x. rewrite descriptors_snoc by done. intros Hx.
      rewrite (relinks_lookup _ _ _ _ Hr) by set_solver. rewrite lookup_insert_ne by set_solver. apply Ho. set_solver.
Qed.

Lemma block_at_eq base c n : sane c -> mapped base (_M_block_n_byte c) -> 0 <= n < __cnt_ c ->
  block_at base (u32 (__GCC_DESTRUCTIVE_SIZE + __len_ c)) n c = descriptor_at base c n.
Proof.
  intros Hs (Hb & He & _) Hn. pose proof (block_n_byte_rounds c Hs) as [_ Hr]. destruct Hs as [Hl _ Hc Ht].
  unfold block_at, descriptor_at, buffer_at. rewrite (Z.add_comm __GCC_DESTRUCTIVE_SIZE). fold (stride c).
  assert (stride c = __len_ c + 64) as Es by done.
  rewrite (wrap_small 32 (stride c)), (wrap_small 32), (wrap_small 64) by (unfold is_word; nia). lia.
Qed.

Lemma block_loop_spec m0 base c bid sc fuel n q m : sane c -> mapped base (_M_block_n_byte c) ->
  0 <= n <= __cnt_ c -> __cnt_ c - n <= Z.of_nat fuel -> laid_out m0 base c bid sc n q m ->
  returns (block_loop fuel sc c bid (u32 (__GCC_DESTRUCTIVE_SIZE + __len_ c)) base n q) m
    (laid_out m0 base c bid sc (__cnt_ c)).
Proof.
  intros Hs Hm. revert n q m. induction fuel as [|fuel IH]; intros n q m Hn Hf Hl; cbn [block_loop];
    destruct (Z.ltb_spec n (__cnt_ c)); try lia; try (replace (__cnt_ c) with n by lia; by apply returns_ret).
  rewrite block_at_eq by (done || lia). pose proof (sane_cnt c Hs). destruct Hm as [Hb ?].
  pose proof (laid_out_round _ _ _ _ _ _ _ _ Hs Hb (proj1 Hn) Hl) as Hround. cbv zeta in Hround.
  apply returns_bind_assoc. eapply returns_bind_mono; [exact Hround|]. intros q' m' Hl'. cbv beta.
  rewrite (wrap_small 32 (n + 1)) by (unfold is_word; lia). apply IH; [lia..|done].
Qed.

(** C11: constructing a block of a class of the table maps a region of whole pages and
    cuts it into the buffers of the class, adjacent and each followed by its
    descriptor on a cache line of its own, the last one inside the region; the
    descriptors are the free list, in the order of their addresses, each with
    its number, its class and one reference, and no other memory is written.  A
    failing [::mmap] terminates the program. *)
Theorem block_lays_out mmap fuel r c bid m :
  c ∈ __k_block_sc_meta -> __cnt_ c <= Z.of_nat fuel ->
  let len := _M_block_n_byte c in
  let base := mmap len (if __cnt_ c =? 1 then 262178 else 34) in
  (base = handles.MAP_FAILED -> block_construct mmap fuel r c bid m = Fault Terminate) /\
  (base <> handles.MAP_FAILED -> mapped base len ->
    returns (block_construct mmap fuel r c bid) m (fun b m' =>
      block_sc b = r /\ __mmr_ b = (base, len) /\
      laid_out m base c bid r (__cnt_ c) (__free_ b) m' /\
      length (descriptors base c (__cnt_ c)) = Z.to_nat (__cnt_ c) /\
      forall i, 0 <= i < __cnt_ c ->
        base <= buffer_at base c i /\ descriptor_at base c i = buffer_at base c i + __len_ c /\
        (64 | descriptor_at base c i) /\ descriptor_at base c i + sizeof_descriptor = buffer_at base c (i + 1) /\
        buffer_at base c (i + 1) <= base + len)).
Proof.
  intros Hs%table_sane Hf len base. unfold block_construct, __map_region.
  assert ((if __cnt_ c =? 1 then Z.lor (Z.lor MAP_PRIVATE MAP_ANONYMOUS) MAP_HUGETLB
    else Z.lor MAP_PRIVATE MAP_ANONYMOUS) = (if __cnt_ c =? 1 then 262178 else 34)) as -> by by destruct (_ =? _).
  fold len base. split.
  - intros E. unfold mbind, M_bind. by rewrite decide_True.
  - intros E Hm. rewrite decide_False by done. rsteps. unfold handles.region_value. rewrite decide_False by done. simpl.
    eapply returns_mono; [apply (block_loop_spec m base c bid r fuel 0); [done..|pose proof (sane_cnt c Hs); lia|lia|]|].
    + split; [by apply intrusive_queue.qrep_nil|intros; lia|done].
    + intros q m' Hl. apply returns_ret. split_and!; [done..| |].
      * unfold descriptors. rewrite length_fmap, length_seqZ. lia.
      * intros i Hi. pose proof (block_n_byte_rounds c Hs) as [_ Hr]. fold len in Hr. destruct Hm as (? & ? & Hd4).
        destruct Hs as [Hlen Ha Hc Ht].
        unfold descriptor_at, buffer_at, stride, sizeof_descriptor, __GCC_DESTRUCTIVE_SIZE in *.
        assert (64 | base) by (etrans; [|exact Hd4]; by exists 64).
        split_and!; [nia|lia| |lia|nia].
        apply Z.divide_add_r; [|done]. apply Z.divide_add_r; [done|]. apply Z.divide_mul_l, Z.divide_add_r; [done|by exists 1].
Qed.

(** ** A block of the 32 KB class *)
Module pool_example.

Lemma choose_blksc_floor_witness : is_word 32 6000 /\
  match __choose_blksc 6000 with
  | Done i => 0 < 6000 /\ (i < 10 <-> 4096 <= 6000 < 4194304) /\
      (i < 10 -> i = classes_below 6000 - 1 /\
        exists c, __k_block_sc_meta !! Z.to_nat i = Some c /\ __len_ c <= 6000 < 2 * __len_ c)
  | Fault f => 6000 = 0 /\ f = Undefined
  end.
Proof. split; [unfold is_word; lia|]. apply (choose_blksc_floor 6000). unfold is_word; lia. Defined.

Definition mmap (n flags : Z) : ptr := 65536.
Definition class3 : __block_sc_meta := meta 32768 16 8 4.

Lemma block_lays_out_witness :
  returns (block_construct mmap 16 3 class3 100) ∅ (fun b m' =>
    block_sc b = 3 /\ __mmr_ b = (65536, 528384) /\ laid_out ∅ 65536 class3 100 3 16 (__free_ b) m').
Proof.
  destruct (block_lays_out mmap 16 3 class3 100 ∅) as [_ H].
  - apply (list_elem_of_lookup_2 _ 3%nat). reflexivity.
  - vm_compute. discriminate.
  - eapply returns_mono; [apply H|].
    + vm_compute. discriminate.
    + split; [vm_compute; reflexivity|]. split; [vm_compute; discriminate|]. exists 16. reflexivity.
    + intros b m' (H1 & H2 & H3 & _). split; [exact H1|]. split; [exact H2|exact H3].
Defined.
End pool_example.

End pool.
