(* ===== verification/Task.v ===== *)
(** * [__task.hpp], [__spawn.hpp]: tasks that await tasks

    A [__task] is a lazily started coroutine with one awaiter.  Awaiting it makes
    the awaiting coroutine its continuation, links the stop sources of the two
    and transfers control; when it ends, its final awaiter transfers control
    back, the result or the exception is taken out of its promise and its frame
    is destroyed.  [__spawn_task] is the coroutine that owns a root task and
    destroys it, and itself, when it has ended.

    Module [task] has the bodies of coroutines as data, the promises and the
    frames in a store, and one definition per member function; a coroutine runs
    from one suspension point to the next and says which coroutine to resume.
    The specification is a direct reading of the bodies in which awaiting a task
    is running it in place. *)

From S2P Require Import Prelude.

Module task.

(** ** Bodies of coroutines

    What a coroutine does next: return or throw, await a task it creates, or
    wait for an operation of its own.  The continuation of a [co_await] gets the
    result of the task or the exception it rethrows; a body that does not catch
    continues with [throw_]. *)
Inductive body :=
  | co_return (v : Z)
  | throw_ (e : Z)
  | co_await (is_void : bool) (child : body) (k : Z + Z -> body)
  | co_wait (op : Z) (k : Z -> body).

(** ** [__promise_generic_storage] and its specialisation for [void] *)
Inductive _Sg := _S_none | _S_error (e : Z) | _S_result (v : Z).
Inductive storage := generic (__state_ : _Sg) | void_ (__except_ : option Z).

Definition storage_construct (is_void : bool) : storage := if is_void then void_ None else generic _S_none.

(** The specialisation for [void] keeps the exception only. *)
Definition void_return_void (__except_ : option Z) : option Z := __except_.
Definition void_set_exception (__eptr : Z) (__except_ : option Z) : option Z := Some __eptr.
Definition void_throw_uncaught (__except_ : option Z) : option Z := __except_.

Definition return_value (__r : Z) (s : storage) : storage :=
  match s with generic _ => generic (_S_result __r) | void_ e => void_ (void_return_void e) end.

Definition _M_set_exception (__eptr : Z) (s : storage) : storage :=
  match s with generic _ => generic (_S_error __eptr) | void_ e => void_ (void_set_exception __eptr e) end.

(** The exception rethrown, if any. *)
Definition _M_throw_uncaught (s : storage) : option Z :=
  match s with generic (_S_error e) => Some e | void_ e => void_throw_uncaught e | _ => None end.

(** ** Frames

    A handle is the null handle, the coroutine that does nothing, the
    coroutine of a task or the one that owns a root. *)
Inductive handle := noop_coroutine | task_handle (p : ptr) | spawn_handle (q : ptr).

(** Where a coroutine is suspended: at its start, at a [co_await] with the
    awaiter's [__child_], at an operation of its own, at its end. *)
Inductive point :=
  | Start (b : body)
  | Awaiting (__child_ : ptr) (k : Z + Z -> body)
  | Waiting (op : Z) (k : Z -> body)
  | End.

(** [__fwd_]: the stop source its callback is registered with; none before
    [_M_construct], after [_M_destroy] and when the callback ran instead. *)
Record frame := mkFrame {
  at_ : point;
  result : storage;
  __continuation_ : handle;
  stop_requested : bool;
  callbacks : list ptr;
  __fwd_ : option ptr
}.
Record spawn_frame := mkSpawn { param : ptr; __resume_ : ptr }.

Inductive event := New (p : ptr) | Delete (p : ptr).
#[export] Instance event_eq_dec : EqDecision event.
Proof. solve_decision. Defined.
Record world := mkWorld { frames : gmap ptr frame; spawns : gmap ptr spawn_frame; log : list event }.

(** What [operator new], the promises' own and the global one, promises: storage
    that is not in use. *)
Class FrameAllocation := {
  frame_new : gset ptr -> ptr;
  frame_new_fresh s : frame_new s ∉ s
}.

Definition with_at x f := mkFrame x (result f) (__continuation_ f) (stop_requested f) (callbacks f) (__fwd_ f).
Definition with_result x f := mkFrame (at_ f) x (__continuation_ f) (stop_requested f) (callbacks f) (__fwd_ f).
Definition with_continuation x f := mkFrame (at_ f) (result f) x (stop_requested f) (callbacks f) (__fwd_ f).
Definition with_requested x f := mkFrame (at_ f) (result f) (__continuation_ f) x (callbacks f) (__fwd_ f).
Definition with_callbacks x f := mkFrame (at_ f) (result f) (__continuation_ f) (stop_requested f) x (__fwd_ f).
Definition with_fwd x f := mkFrame (at_ f) (result f) (__continuation_ f) (stop_requested f) (callbacks f) x.

Section code.
Context `{FrameAllocation}.

Abbreviation run := (M world).

Definition load (p : ptr) : run frame := fun w =>
  match frames w !! p with Some f => Done (f, w) | None => Fault (Dangling p) end.
Definition update (p : ptr) (f : frame -> frame) : run unit :=
  x ← load p; modify (fun w => mkWorld (<[p := f x]> (frames w)) (spawns w) (log w)).

(** ** Stop sources, as [__stop_inplace.hpp] has them when nobody else interferes *)

Fixpoint run_callbacks (fuel : nat) (p : ptr) : run unit :=
  f ← load p;
  match callbacks f with
  | [] => mret tt
  | __tmp :: rest =>
      match fuel with
      | O => throw OutOfFuel
      | S fuel =>
          update p (with_callbacks rest);;
          c ← load __tmp;
          (if stop_requested c then mret tt
           else update __tmp (with_requested true);; run_callbacks fuel __tmp);;
          run_callbacks fuel p
      end
  end.

Definition _M_request_stop (fuel : nat) (p : ptr) : run bool :=
  f ← load p;
  if stop_requested f then mret true
  else update p (with_requested true);; run_callbacks fuel p;; mret false.

(** [__fwd_._M_construct(token, source)] and [__fwd_._M_destroy()].  The final
    awaiter destroys [__fwd_] of a root as well, where it was never constructed:
    the bytes of an [__aligned_storage] are zero from its initialiser on, and the
    destructor of a callback whose source is null does nothing. *)
Definition fwd_construct (fuel : nat) (p parent : ptr) : run unit :=
  f ← load parent;
  if stop_requested f then update p (with_fwd None);; b ← _M_request_stop fuel p; mret tt
  else update parent (with_callbacks (p :: callbacks f));; update p (with_fwd (Some parent)).

Definition fwd_destroy (p : ptr) : run unit :=
  f ← load p;
  match __fwd_ f with
  | None => mret tt
  | Some parent =>
      g ← load parent;
      update parent (with_callbacks (filter (fun c => c <> p) (callbacks g)))
  end;;
  update p (with_fwd None).

Definition source_destroy (f : frame) : run unit := assert (bool_decide (callbacks f = [])).

(** ** Promises *)

Definition operator_new (w : world) : ptr := frame_new (dom (frames w) ∪ dom (spawns w)).

Definition storage_destroy (s : storage) : run unit :=
  match s with generic _S_none => throw Undefined | _ => mret tt end.

Definition _M_result (s : storage) : run Z :=
  match s with generic (_S_result v) => mret v | generic _ => throw Undefined | void_ _ => mret 0 end.

(** Calling a coroutine: [operator new], the promise, [get_return_object] and
    [initial_suspend]. *)
Definition call (is_void : bool) (b : body) : run ptr :=
  w ← get;
  let p := operator_new w in
  put (mkWorld (<[p := mkFrame (Start b) (storage_construct is_void) noop_coroutine false [] None]> (frames w))
    (spawns w) (log w ++ [New p]));;
  mret p.

Definition _M_on_await_suspend (fuel : nat) (p __parent : ptr) : run unit :=
  update p (with_continuation (task_handle __parent));;
  fwd_construct fuel p __parent.

(** [__final_awaiter::await_suspend] *)
Definition final_await_suspend (__cur : ptr) : run handle :=
  fwd_destroy __cur;; f ← load __cur; mret (__continuation_ f).

(** ** Destroying a coroutine

    What is alive at its suspension point, an awaiter with its task, then the
    promise (the members of [__promise_base] before the storage), then the
    frame. *)
Fixpoint __coro_destroy (fuel : nat) (p : ptr) : run unit :=
  f ← load p;
  match at_ f with
  | Awaiting c _ => match fuel with O => throw OutOfFuel | S fuel => __coro_destroy fuel c end
  | _ => mret tt
  end;;
  f ← load p;
  source_destroy f;;
  storage_destroy (result f);;
  modify (fun w => mkWorld (delete p (frames w)) (spawns w) (log w ++ [Delete p])).

(** ** [__task::__awaiter] *)

Definition await_suspend (fuel : nat) (__child_ __parent : ptr) : run handle :=
  _M_on_await_suspend fuel __child_ __parent;; mret (task_handle __child_).

Definition await_resume (__child_ : ptr) : run (Z + Z) :=
  f ← load __child_;
  match _M_throw_uncaught (result f) with
  | Some e => mret (inr e)
  | None => r ← _M_result (result f); mret (inl r)
  end.

(** ** Running a coroutine to its next suspension point

    The result is the coroutine to resume next. *)
Definition finish (p : ptr) (set : storage -> storage) : run handle :=
  f ← load p;
  update p (with_result (set (result f)));;
  update p (with_at End);;
  final_await_suspend p.

Definition run_body (fuel : nat) (p : ptr) (b : body) : run handle :=
  match b with
  | co_return v => finish p (return_value v)
  | throw_ e => finish p (_M_set_exception e)
  | co_await is_void child k =>
      c ← call is_void child;
      update p (with_at (Awaiting c k));;
      await_suspend fuel c p
  | co_wait op k => update p (with_at (Waiting op k));; mret noop_coroutine
  end.

(** The coroutine that owns a root: its body is empty, its final awaiter
    destroys it, and with it its parameter. *)
Definition spawn_load (q : ptr) : run spawn_frame := fun w =>
  match spawns w !! q with Some f => Done (f, w) | None => Fault (Dangling q) end.

Definition spawn_destroy (fuel : nat) (q : ptr) : run unit :=
  s ← spawn_load q;
  __coro_destroy fuel (param s);;
  modify (fun w => mkWorld (frames w) (delete q (spawns w)) (log w)).

Definition spawn_final_suspend (fuel : nat) (__h : ptr) : run handle :=
  spawn_destroy fuel __h;; mret noop_coroutine.

Definition __coro_resume (fuel : nat) (h : handle) : run handle :=
  match h with
  | noop_coroutine => mret noop_coroutine
  | spawn_handle q => spawn_final_suspend fuel q
  | task_handle p =>
      f ← load p;
      match at_ f with
      | Start b => run_body fuel p b
      | Awaiting c k => r ← await_resume c; __coro_destroy fuel c;; run_body fuel p (k r)
      | Waiting _ _ | End => throw Undefined
      end
  end.

(** Control is transferred until nobody is to be resumed. *)
Fixpoint transfer (fuel : nat) (h : handle) : run unit :=
  match h with
  | noop_coroutine => mret tt
  | _ =>
      match fuel with
      | O => throw OutOfFuel
      | S fuel => h ← __coro_resume fuel h; transfer fuel h
      end
  end.

(** ** What the program does with tasks

    [__async_spawn(task)] moves the task into the frame of the new coroutine. *)
Definition __async_spawn (__r : ptr) : run ptr :=
  w ← get;
  let q := operator_new w in
  put (mkWorld (frames w) (<[q := mkSpawn __r __r]> (spawns w)) (log w));;
  update __r (with_continuation (spawn_handle q));;
  mret q.

(** The coroutine that waits for an operation is resumed by its completion. *)
Definition complete (fuel : nat) (p x : Z) : run unit :=
  f ← load p;
  match at_ f with
  | Waiting _ k => h ← run_body fuel p (k x); transfer fuel h
  | _ => throw Undefined
  end.

(** [_M_do_execute] of the facade in the frame of the owner [q] uses the facade
    before and after the resumption. *)
Definition touch_facade (q : ptr) : run unit := s ← spawn_load q; mret tt.
Definition execute_root (fuel : nat) (q : ptr) : run unit :=
  touch_facade q;;
  s ← spawn_load q;
  transfer fuel (task_handle (__resume_ s));;
  touch_facade q.

(** The facade of an operation is in the frame of the coroutine that waits; a
    frame that was destroyed meanwhile is gone, even if another one is in its
    place. *)
Definition gone (p : ptr) (w w2 : world) : Prop := Delete p ∈ drop (length (log w)) (log w2).
#[local] Instance gone_dec p w w2 : Decision (gone p w w2).
Proof. unfold gone; apply _. Defined.
Definition execute_operation (fuel : nat) (p x : Z) : run unit :=
  w ← get;
  complete fuel p x;;
  w2 ← get;
  if decide (gone p w w2) then throw (Dangling p) else mret tt.
End code.

(** ** What the bodies mean

    A process returns a value or an exception, or asks for an operation and
    continues with its completion. *)
Inductive proc := Ret (r : Z + Z) | Op (op : Z) (k : Z -> proc).

Fixpoint bind (P : proc) (f : Z + Z -> proc) : proc :=
  match P with Ret r => f r | Op op k => Op op (fun x => bind (k x) f) end.

(** A task of type [void] has no value to return. *)
Fixpoint denote (is_void : bool) (b : body) : proc :=
  match b with
  | co_return v => Ret (inl (if is_void then 0 else v))
  | throw_ e => Ret (inr e)
  | co_await child_void child k => bind (denote child_void child) (fun r => denote is_void (k r))
  | co_wait op k => Op op (fun x => denote is_void (k x))
  end.

(** [P] goes through the operations and completions of [l] to [Q]. *)
Inductive performs : proc -> list (Z * Z) -> proc -> Prop :=
  | performs_nil P : performs P [] P
  | performs_op op k x l Q : performs (k x) l Q -> performs (Op op k) ((op, x) :: l) Q.

Lemma performs_snoc P l op k x : performs P l (Op op k) -> performs P (l ++ [(op, x)]) (k x).
Proof.
  remember (Op op k) as Q eqn:E. induction 1; subst; simpl; repeat constructor. by apply IHperforms.
Qed.

(** The frames that exist, last created first, if every frame deleted was the
    last one created. *)
Fixpoint replay (l : list event) (st : list ptr) : option (list ptr) :=
  match l, st with
  | [], _ => Some st
  | New p :: l, _ => replay l (p :: st)
  | Delete p :: l, q :: st => if decide (p = q) then replay l st else None
  | Delete _ :: _, [] => None
  end.

Lemma replay_events_app l1 l2 st : replay (l1 ++ l2) st = replay l1 st ≫= replay l2.
Proof.
  revert st. induction l1 as [|[p|p] l1 IH]; intros st; simpl; [done|done|].
  destruct st as [|q st]; [done|]. case_decide; [done|done].
Qed.

Lemma replay_length l st st2 : replay l st = Some st2 -> (length st2 <= length l + length st)%nat.
Proof.
  revert st. induction l as [|[p|p] l IH]; intros st; simpl.
  - intros [= ->]. lia.
  - intros Hr%IH. simpl in Hr. lia.
  - destruct st as [|q st]; [done|]. case_decide; [|done]. intros Hr%IH. simpl. lia.
Qed.

Section proofs.
Context `{FrameAllocation}.
Implicit Types (F : gmap ptr frame) (w : world) (l : list ptr).

(** ** Suspended chains

    [susp F p v cont req fwd l P]: the coroutine [p], of type [void] or not, is
    suspended, itself or in a task it awaits; [l] are its frame and the frames
    of the tasks below, and together they stand for the process [P]. *)
Inductive susp F : ptr -> bool -> handle -> bool -> option ptr -> list ptr -> proc -> Prop :=
  | susp_wait p v cont req fwd op k :
      F !! p = Some (mkFrame (Waiting op k) (storage_construct v) cont req [] fwd) ->
      susp F p v cont req fwd [p] (Op op (fun x => denote v (k x)))
  | susp_await p v cont req fwd c cv creq cfwd k l P :
      F !! p = Some (mkFrame (Awaiting c k) (storage_construct v) cont req (if req then [] else [c]) fwd) ->
      susp F c cv (task_handle p) creq cfwd l P -> p ∉ l ->
      cfwd = Some p \/ cfwd = None /\ req = true ->
      (req = true -> creq = true) ->
      susp F p v cont req fwd (p :: l) (bind P (fun r => denote v (k r))).

Lemma susp_agree F F2 p v cont req fwd l P : susp F p v cont req fwd l P ->
  (forall x, x ∈ l -> F2 !! x = F !! x) -> susp F2 p v cont req fwd l P.
Proof.
  induction 1 as [|???????????? Hp _ IH]; intros Ha.
  - constructor. by rewrite Ha by by left.
  - econstructor; [by rewrite Ha by by left|apply IH; intros; apply Ha; by right|done..].
Qed.

Lemma susp_head F p v cont req fwd l P : susp F p v cont req fwd l P -> exists l', l = p :: l'.
Proof. destruct 1; eauto. Qed.

Lemma susp_live F p v cont req fwd l P x : susp F p v cont req fwd l P -> x ∈ l -> is_Some (F !! x).
Proof.
  induction 1 as [|???????????? Hp _ IH]; intros Hx.
  - apply list_elem_of_singleton in Hx as ->. eauto.
  - apply elem_of_cons in Hx as [->|Hx]; eauto.
Qed.

Lemma susp_op F p v cont req fwd l P : susp F p v cont req fwd l P -> exists op k, P = Op op k.
Proof. induction 1 as [|???????????? _ _ (op & k' & ->)]; simpl; eauto. Qed.

Lemma susp_NoDup F p v cont req fwd l P : susp F p v cont req fwd l P -> NoDup l.
Proof. induction 1; [apply NoDup_singleton|by constructor]. Qed.

(** ** What running a coroutine leads to *)

Definition final_storage (v : bool) (r : Z + Z) : storage :=
  match r with
  | inl x => if v then void_ None else generic (_S_result x)
  | inr e => if v then void_ (Some e) else generic (_S_error e)
  end.

Definition erase (v : bool) (r : Z + Z) : Z + Z := match r with inl x => inl (if v then 0 else x) | inr e => inr e end.

(** The registration of [p]'s callback is gone. *)
Definition unregister (p : ptr) (fwd : option ptr) (x : ptr) (f : frame) : frame :=
  if decide (fwd = Some x) then with_callbacks (filter (fun c => c <> p) (callbacks f)) f else f.

Definition fwd_ok F p (fwd : option ptr) l : Prop :=
  match fwd with Some q => q ∉ p :: l /\ is_Some (F !! q) | None => True end.

(** The frames [K] are not destroyed on the way. *)
Definition ran w w2 (K : ptr -> Prop) (st st2 : list ptr) : Prop :=
  spawns w2 = spawns w /\ exists ev, log w2 = log w ++ ev /\ (forall s, replay ev (st ++ s) = Some (st2 ++ s)) /\
    forall x, K x -> Delete x ∉ ev.

(** The frames that exist, except for those below [p]. *)
Definition others w l p (x : ptr) : Prop := is_Some (frames w !! x) /\ (x ∈ l -> x = p).

Inductive outcome w l p v cont req fwd : proc -> handle -> world -> Prop :=
  | suspended w2 l2 P :
      susp (frames w2) p v cont req fwd l2 P ->
      (forall x, x ∈ l2 -> x ∈ l \/ frames w !! x = None) ->
      (forall x, x ∉ l2 -> frames w2 !! x = if decide (x ∈ l) then None else frames w !! x) ->
      ran w w2 (others w l p) (reverse l) (reverse l2) ->
      outcome w l p v cont req fwd P noop_coroutine w2
  | finished w2 r :
      erase v r = r ->
      (forall x, frames w2 !! x =
        if decide (x = p) then Some (mkFrame End (final_storage v r) cont req [] None)
        else if decide (x ∈ l) then None else unregister p fwd x <$> frames w !! x) ->
      ran w w2 (others w l p) (reverse l) [p] ->
      outcome w l p v cont req fwd (Ret r) cont w2.

(** One transfer of control. *)
Definition seg (a b : handle * world) : Prop :=
  a.1 <> noop_coroutine /\ forall fuel, __coro_resume fuel a.1 a.2 = Done b.

Definition runs (b : body) : Prop := forall v p w pt cont req fwd,
  frames w !! p = Some (mkFrame pt (storage_construct v) cont req [] fwd) -> fwd_ok (frames w) p fwd [] ->
  exists h w1 h2 w2, (forall fuel, run_body fuel p b w = Done (h, w1)) /\ rtc seg (h, w1) (h2, w2) /\
    outcome w [p] p v cont req fwd (denote v b) h2 w2.

Lemma load_eq p f w : frames w !! p = Some f -> load p w = Done (f, w).
Proof. unfold load. by intros ->. Qed.

Lemma update_eq p g f w : frames w !! p = Some f ->
  update p g w = Done (tt, mkWorld (<[p := g f]> (frames w)) (spawns w) (log w)).
Proof. intros Hp. unfold update. by rewrite (run_bind _ _ _ _ _ (load_eq _ _ _ Hp)). Qed.
(** Reading and writing the store, one bind at a time. *)
Ltac tstep :=
  lazymatch goal with
  | |- context [mbind (M := M _) ?k (load ?p) ?w] =>
      erewrite (run_bind (load p) k w) by (apply load_eq; cbn [frames]; by simplify_map_eq)
  | |- context [mbind (M := M _) ?k (update ?p ?g) ?w] =>
      erewrite (run_bind (update p g) k w) by (apply update_eq; cbn [frames]; by simplify_map_eq)
  end; cbn [frames spawns log at_ result __continuation_ stop_requested callbacks __fwd_
    with_at with_result with_continuation with_requested with_callbacks with_fwd].

Lemma fwd_destroy_runs p w f : frames w !! p = Some f -> fwd_ok (frames w) p (__fwd_ f) [] ->
  exists F', fwd_destroy p w = Done (tt, mkWorld F' (spawns w) (log w)) /\
    forall x, F' !! x = if decide (x = p) then Some (with_fwd None f) else unregister p (__fwd_ f) x <$> frames w !! x.
Proof.
  intros Hp Hf. unfold fwd_destroy. tstep. unfold unregister. destruct (__fwd_ f) as [q|].
  - destruct Hf as [Hq [g Hg]]. assert (q <> p) as Hqp by set_solver.
    eexists. split.
    + unfold mbind at 1, M_bind at 1. tstep. rewrite (update_eq _ _ _ _ Hg).
      rewrite (update_eq p _ f); [done|]. cbn [frames]. rewrite lookup_insert_ne; done.
    + intros x. cbn [frames]. case_decide as Ex; [subst; by rewrite lookup_insert_eq|].
      rewrite lookup_insert_ne by done. case_decide as Eq.
      * injection Eq as <-. by rewrite lookup_insert_eq, Hg.
      * rewrite lookup_insert_ne by congruence. by destruct (frames w !! x).
  - eexists. split; [erewrite run_bind by done; by apply update_eq|].
    intros x. cbn [frames]. case_decide as Ex; [subst; by rewrite lookup_insert_eq|].
    rewrite lookup_insert_ne by done. by destruct (frames w !! x).
Qed.

Lemma ran_same w w2 K st : spawns w2 = spawns w -> log w2 = log w -> ran w w2 K st st.
Proof.
  intros. split; [done|]. exists []. split; [by rewrite app_nil_r|]. split; [done|]. by intros x _ ?%not_elem_of_nil.
Qed.

Lemma finish_runs set v p w pt cont req fwd r :
  frames w !! p = Some (mkFrame pt (storage_construct v) cont req [] fwd) -> fwd_ok (frames w) p fwd [] ->
  set (storage_construct v) = final_storage v r -> erase v r = r ->
  exists w1, finish p set w = Done (cont, w1) /\ outcome w [p] p v cont req fwd (Ret r) cont w1.
Proof.
  intros Hp Hf Hs Hr. unfold finish, final_await_suspend. tstep. tstep. tstep. rewrite Hs.
  set (w1 := mkWorld _ _ _).
  destruct (fwd_destroy_runs p w1 (mkFrame End (final_storage v r) cont req [] fwd)) as (F' & E & HF).
  - apply lookup_insert_eq.
  - simpl. destruct fwd as [q|]; [|done]. destruct Hf as [Hq Hg].
    split; [done|]. assert (q <> p) by set_solver. by rewrite !lookup_insert_ne by done.
  - rewrite (run_bind _ _ _ _ _ E). cbn [frames spawns log __fwd_ w1] in *. eexists. split.
    + erewrite (run_bind (load p)); [|apply load_eq; cbn [frames]; rewrite HF; by rewrite decide_True]. done.
    + apply finished; [done| |by apply ran_same]. intros x. cbn [frames]. rewrite HF.
      case_decide; [done|]. rewrite decide_False by set_solver. by rewrite !lookup_insert_ne by congruence.
Qed.

Lemma await_resume_runs c cv r w f : frames w !! c = Some f -> result f = final_storage cv r -> erase cv r = r ->
  await_resume c w = Done (r, w).
Proof.
  intros Hc Hf Hr. unfold await_resume. tstep. rewrite Hf. destruct r as [x|e], cv; simpl in *; try done.
  by injection Hr as <-.
Qed.

Lemma destroy_ended fuel c cv r w cont req : 
  frames w !! c = Some (mkFrame End (final_storage cv r) cont req [] None) ->
  __coro_destroy fuel c w = Done (tt, mkWorld (delete c (frames w)) (spawns w) (log w ++ [Delete c])).
Proof.
  intros Hc. destruct fuel; simpl; tstep; rewrite (run_bind (mret tt) _ w tt w) by done; tstep; by destruct r, cv.
Qed.

Lemma child_returns p c cv k st r w cont req fwd creq :
  frames w !! p = Some (mkFrame (Awaiting c k) st cont req [] fwd) -> erase cv r = r ->
  frames w !! c = Some (mkFrame End (final_storage cv r) (task_handle p) creq [] None) -> forall fuel,
  __coro_resume fuel (task_handle p) w =
    run_body fuel p (k r) (mkWorld (delete c (frames w)) (spawns w) (log w ++ [Delete c])).
Proof.
  intros Hp Hr Hc fuel. unfold __coro_resume. tstep.
  rewrite (run_bind _ _ _ _ _ (await_resume_runs _ _ _ _ _ Hc eq_refl Hr)).
  by rewrite (run_bind _ _ _ _ _ (destroy_ended fuel _ _ _ _ _ _ Hc)).
Qed.

Lemma ran_trans w w2 w3 K s1 s2 s3 : ran w w2 K s1 s2 -> ran w2 w3 K s2 s3 -> ran w w3 K s1 s3.
Proof.
  intros [E1 (ev1 & L1 & R1 & D1)] [E2 (ev2 & L2 & R2 & D2)]. split; [congruence|]. exists (ev1 ++ ev2).
  rewrite L2, L1, app_assoc. split; [done|]. split; [intros s; rewrite replay_events_app, R1; apply R2|].
  intros x Hx. apply not_elem_of_app. auto.
Qed.

Lemma ran_mono w w2 (K K' : ptr -> Prop) st st2 : ran w w2 K st st2 -> (forall x, K' x -> K x) -> ran w w2 K' st st2.
Proof. intros [E (ev & L & R & D)] HK. split; [done|]. exists ev. split_and!; [done..|]. intros x Hx. by apply D, HK. Qed.

Lemma ran_delete w c (K : ptr -> Prop) st F : ~ K c -> ran w (mkWorld F (spawns w) (log w ++ [Delete c])) K (c :: st) st.
Proof.
  intros Hc. split; [done|]. exists [Delete c]. split; [done|]. split; [intros s; simpl; by rewrite decide_True|].
  by intros x Hx [= ->]%list_elem_of_singleton.
Qed.

Lemma ran_below w w2 K s1 s2 s : ran w w2 K s1 s2 -> ran w w2 K (s1 ++ s) (s2 ++ s).
Proof.
  intros [E (ev & L & R & D)]. split; [done|]. exists ev. split; [done|]. split; [intros t; by rewrite <- !app_assoc|done].
Qed.

(** What is appended to the log, and that [x] is destroyed then, or that nothing is. *)
Definition logs w w2 (b : bool) (x : ptr) : Prop :=
  exists ev, log w2 = log w ++ ev /\ if b then Delete x ∈ ev else ev = [].
Definition returned (P : proc) : bool := match P with Ret _ => true | Op _ _ => false end.

Lemma outcome_logs w l p v cont req fwd P h w2 : outcome w l p v cont req fwd P h w2 ->
  exists ev, log w2 = log w ++ ev.
Proof. intros Ho. destruct Ho as [w2 l2 P _ _ _ [_ (ev & ? & _)]|w2 r _ _ [_ (ev & ? & _)]]; by exists ev. Qed.

(** What an outcome is, seen from an earlier world. *)
Lemma outcome_rebase w w3 p v cont req fwd l l3 P h w4 :
  p ∈ l3 -> (is_Some (frames w !! p) -> is_Some (frames w3 !! p)) ->
  (forall x, x ∈ l3 -> x ∈ l \/ frames w !! x = None) ->
  (forall x, x ∉ l3 -> frames w3 !! x = if decide (x ∈ l) then None else frames w !! x) ->
  ran w w3 (others w l p) (reverse l) (reverse l3) ->
  outcome w3 l3 p v cont req fwd P h w4 -> outcome w l p v cont req fwd P h w4.
Proof.
  intros Hp Hlive Hl Ha Hr Ho. assert (forall x, others w l p x -> others w3 l3 p x) as Hoth.
  { intros x [Hx Hxp]. destruct (decide (x = p)) as [->|Hne]; [split; [by apply Hlive|done]|].
    assert (x ∉ l) by tauto. assert (x ∉ l3) as Hx3.
    { intros Hin. destruct (Hl x Hin) as [?|E]; [done|]. rewrite E in Hx. by destruct Hx. }
    split; [by rewrite Ha, decide_False by done|done]. }
  destruct Ho as [w4 l2 P Hs Hl2 Hx Hr2|w4 r Hr0 Hx Hr2]; apply (ran_mono _ _ _ _ _ _ Hr2) in Hoth.
  - apply suspended with (l2 := l2); [done|..|by eapply ran_trans].
    + intros x Hin. destruct (Hl2 _ Hin) as [|E]; [by apply Hl|]. destruct (decide (x ∈ l3)); [by apply Hl|].
      rewrite Ha in E by done. case_decide; auto.
    + intros x Hin. rewrite Hx by done. case_decide as H3; [|by apply Ha].
      case_decide; [done|]. by destruct (Hl _ H3).
  - apply finished; [done| |by eapply ran_trans]. intros x. rewrite Hx. case_decide; [done|].
    case_decide as H3; [case_decide; [done|]; by destruct (Hl _ H3) as [?|E]; [|rewrite E]|].
    rewrite Ha by done. by case_decide.
Qed.

(** The awaiting coroutine goes on when its task has ended. *)
Lemma await_outcome w p v cont req fwd c cv k creq cfwd lc P h w2 :
  (forall r, runs (k r)) ->
  frames w !! p = Some (mkFrame (Awaiting c k) (storage_construct v) cont req (if req then [] else [c]) fwd) ->
  fwd_ok (frames w) p fwd lc -> p ∉ lc -> c ∈ lc -> cfwd = Some p \/ cfwd = None /\ req = true -> (req = true -> creq = true) ->
  outcome w lc c cv (task_handle p) creq cfwd P h w2 ->
  exists h3 w3, rtc seg (h, w2) (h3, w3) /\
    outcome w (p :: lc) p v cont req fwd (bind P (fun r => denote v (k r))) h3 w3 /\ logs w2 w3 (returned P) c.
Proof.
  intros Hk Hp Hf Hn Hc Hcf Hcr Ho. destruct Ho as [w2 l2 P Hs Hl2 Ha Hr|w2 r Hr Ha Hran].
  - assert (p ∉ l2) as Hp2.
    { intros Hin. destruct (Hl2 _ Hin) as [|E]; [done|]. by rewrite Hp in E. }
    exists noop_coroutine, w2. split; [apply rtc_refl|]. split.
    2: { destruct (susp_op _ _ _ _ _ _ _ _ Hs) as (? & ? & ->). exists []. by rewrite app_nil_r. }
    apply suspended with (l2 := p :: l2).
    + eapply susp_await; [|exact Hs|done..]. by rewrite Ha, decide_False by done.
    + intros x [->|Hx]%elem_of_cons; [left; by left|]. destruct (Hl2 _ Hx); [left; by right|by right].
    + intros x Hx. rewrite Ha by set_solver. assert (x <> p) by set_solver.
      destruct (decide (x ∈ lc)); [rewrite decide_True by set_solver|rewrite decide_False by set_solver]; done.
    + rewrite !reverse_cons. apply ran_below. eapply ran_mono; [exact Hr|]. intros x [Hx Hxp]. split; [done|].
      intros Hin. assert (x = p) as -> by (apply Hxp; by right). done.
  - assert (p <> c) as Hpc by (by intros ->).
    assert (frames w2 !! p = Some (mkFrame (Awaiting c k) (storage_construct v) cont req [] fwd)) as Hp2.
    { rewrite Ha, !decide_False, Hp by done. simpl. f_equal. unfold unregister. case_decide as E.
      - unfold with_callbacks. simpl. f_equal. destruct req; [done|]. rewrite filter_cons, decide_False by tauto. done.
      - destruct Hcf as [->|[-> ->]]; done. }
    assert (frames w2 !! c = Some (mkFrame End (final_storage cv r) (task_handle p) creq [] None)) as Hc2
      by (by rewrite Ha, decide_True).
    pose proof (child_returns _ _ _ _ _ _ _ _ _ _ _ Hp2 Hr Hc2) as Hseg. set (w3 := mkWorld _ _ _) in Hseg.
    assert (forall x, x <> p -> frames w3 !! x = if decide (x ∈ lc) then None else frames w !! x) as H3.
    { intros x Hx. simpl. destruct (decide (x = c)) as [->|]; [by rewrite lookup_delete_eq, decide_True|].
      rewrite lookup_delete_ne, Ha, decide_False by done. case_decide; [done|]. unfold unregister.
      destruct (frames w !! x); simpl; [|done]. rewrite decide_False; [done|].
      intros ->. by destruct Hcf as [[= ->]|[]]. }
    destruct (Hk r v p w3 (Awaiting c k) cont req fwd) as (h & w1 & h3 & w4 & Hb & Hs & Ho).
    { simpl. by rewrite lookup_delete_ne by done. }
    { destruct fwd as [q|]; [|done]. destruct Hf as [Hq Hg]. split; [set_solver|].
      rewrite H3, decide_False by set_solver. done. }
    exists h3, w4. split_and!.
    + eapply rtc_l; [|exact Hs]. split; [done|]. intros fuel. simpl fst; simpl snd. by rewrite Hseg, Hb.
    + eapply outcome_rebase; [| | | | |exact Ho];
        [by left|intros _; simpl; by rewrite lookup_delete_ne, Hp2 by done|intros x ->%list_elem_of_singleton; left; by left| |].
      { intros x Hx%not_elem_of_cons. destruct Hx as [Hx _]. rewrite H3 by done.
        destruct (decide (x ∈ lc)); [rewrite decide_True by set_solver|rewrite decide_False by set_solver]; done. }
      eapply ran_trans.
      * rewrite reverse_cons. apply ran_below. eapply ran_mono; [exact Hran|]. intros x [Hx Hxp]. split; [done|].
        intros Hin. assert (x = p) as -> by (apply Hxp; by right). done.
      * apply ran_delete. intros [_ Hcp]. assert (c = p) by (apply Hcp; by right). congruence.
    + destruct (outcome_logs _ _ _ _ _ _ _ _ _ _ Ho) as [ev Hev]. exists ([Delete c] ++ ev). rewrite Hev. simpl.
      rewrite <- app_assoc. split; [done|]. by left.
Qed.

Lemma run_callbacks_none fuel p f w : frames w !! p = Some f -> callbacks f = [] -> run_callbacks fuel p w = Done (tt, w).
Proof. intros Hp Hf. destruct fuel; cbn [run_callbacks]; tstep; by rewrite Hf. Qed.

Ltac insert_swap x y :=
  apply map_eq; intros z; destruct (decide (z = x)), (decide (z = y)); subst; by simplify_map_eq.

Lemma on_await_suspend_runs fuel c p b cv pt st cont req fwd w : c <> p ->
  frames w !! p = Some (mkFrame pt st cont req [] fwd) ->
  frames w !! c = Some (mkFrame (Start b) (storage_construct cv) noop_coroutine false [] None) ->
  _M_on_await_suspend fuel c p w = Done (tt, mkWorld
    (<[c := mkFrame (Start b) (storage_construct cv) (task_handle p) req [] (if req then None else Some p)]>
      (<[p := mkFrame pt st cont req (if req then [] else [c]) fwd]> (frames w))) (spawns w) (log w)).
Proof.
  intros Hcp Hp Hc. unfold _M_on_await_suspend, fwd_construct. tstep. tstep. destruct req.
  - tstep. erewrite run_bind; [|unfold _M_request_stop; tstep; tstep].
    2: { erewrite run_bind; [done|]. eapply run_callbacks_none; [apply lookup_insert_eq|done]. }
    unfold mret, M_ret. do 3 f_equal. insert_swap c p.
  - tstep. erewrite update_eq; [|cbn [frames]; by simplify_map_eq].
    cbn [frames spawns log]. do 3 f_equal. insert_swap c p.
Qed.

(** A coroutine awaits a new task: the task's frame and what the two promises
    know of each other. *)
Lemma await_runs p v w pt cont req fwd cv b k :
  frames w !! p = Some (mkFrame pt (storage_construct v) cont req [] fwd) ->
  exists c w1, c <> p /\ frames w !! c = None /\
    (forall fuel, run_body fuel p (co_await cv b k) w = Done (task_handle c, w1)) /\
    spawns w1 = spawns w /\ log w1 = log w ++ [New c] /\
    frames w1 = <[c := mkFrame (Start b) (storage_construct cv) (task_handle p) req [] (if req then None else Some p)]>
      (<[p := mkFrame (Awaiting c k) (storage_construct v) cont req (if req then [] else [c]) fwd]> (frames w)).
Proof.
  intros Hp. set (c := operator_new w).
  assert (frames w !! c = None) as Hc by (apply not_elem_of_dom; pose proof (frame_new_fresh (dom (frames w) ∪ dom (spawns w))); set_solver).
  assert (c <> p) as Hcp by congruence. exists c. eexists. split; [done|]. split; [done|]. split_and!.
  - intros fuel. unfold run_body, call. rewrite run_bind with (a := c) (s' := mkWorld
      (<[c := mkFrame (Start b) (storage_construct cv) noop_coroutine false [] None]> (frames w)) (spawns w) (log w ++ [New c]))
      by done.
    tstep. unfold await_suspend.
    erewrite (run_bind (_M_on_await_suspend fuel c p)); [done|].
    apply on_await_suspend_runs; [done|cbn [frames]; by simplify_map_eq..].
  - done.
  - done.
  - cbn [frames]. insert_swap c p.
Qed.

Lemma body_runs b : runs b.
Proof.
  induction b as [x|e|cv b IHb k IHk|op k IHk]; intros v p w pt cont req fwd Hp Hf.
  - destruct (finish_runs (return_value x) v p w pt cont req fwd (inl (if v then 0 else x)) Hp Hf) as (w1 & E & Ho);
      [by destruct v..|]. exists cont, w1, cont, w1. split; [done|]. split; [apply rtc_refl|done].
  - destruct (finish_runs (_M_set_exception e) v p w pt cont req fwd (inr e) Hp Hf) as (w1 & E & Ho);
      [by destruct v..|]. exists cont, w1, cont, w1. split; [done|]. split; [apply rtc_refl|done].
  - destruct (await_runs p v w pt cont req fwd cv b k Hp) as (c & w1 & Hcp & Hc & Hrun & Hsp & Hlog & Hfr).
    assert (frames w1 !! p = Some (mkFrame (Awaiting c k) (storage_construct v) cont req (if req then [] else [c]) fwd))
      as Hp1 by (rewrite Hfr; by simplify_map_eq).
    destruct (IHb cv c w1 (Start b) (task_handle p) req (if req then None else Some p)) as (h & w2 & h2 & w3 & Hb & Hs & Ho).
    { rewrite Hfr. by simplify_map_eq. }
    { destruct req; [done|]. split; [set_solver|by rewrite Hp1]. }
    destruct (await_outcome w1 p v cont req fwd c cv k req (if req then None else Some p) [c] (denote cv b) h2 w3)
      as (h3 & w4 & Hs3 & Ho3 & _); [done|done| | |by left| |done|done|].
    { destruct fwd as [q|]; [|done]. destruct Hf as [Hq [g Hg]]. assert (q <> p) by set_solver.
      assert (q <> c) by congruence. split; [set_solver|]. rewrite Hfr. by simplify_map_eq. }
    { by intros <-%list_elem_of_singleton. }
    { destruct req; auto. }
    exists (task_handle c), w1, h3, w4. split; [done|]. split.
    + eapply rtc_l; [|etrans; [exact Hs|exact Hs3]]. split; [done|]. intros fuel. simpl.
      erewrite (run_bind (load c)); [|apply load_eq; rewrite Hfr; apply lookup_insert_eq]. simpl. by rewrite Hb.
    + eapply outcome_rebase; [| | | | |exact Ho3]; [by left|by rewrite Hp1| | |].
      * intros x [->|Hx]%elem_of_cons; [left; by left|]. apply list_elem_of_singleton in Hx as ->. by right.
      * intros x Hx. rewrite Hfr, !lookup_insert_ne, decide_False by set_solver. done.
      * split; [done|]. exists [New c]. split; [done|]. split; [done|]. by intros x _ ?%list_elem_of_singleton.
  - exists noop_coroutine. eexists. exists noop_coroutine. eexists. split; [intros fuel; simpl; by tstep|].
    split; [apply rtc_refl|]. apply suspended with (l2 := [p]); cbn [frames].
    + constructor. cbn [frames]. by rewrite lookup_insert_eq.
    + by left.
    + intros x Hx. rewrite decide_False, lookup_insert_ne by set_solver. done.
    + by apply ran_same.
Qed.

(** ** Completions *)

Lemma fwd_ok_mono F p fwd l : fwd_ok F p fwd l -> forall l', l' ⊆ p :: l -> fwd_ok F p fwd l'.
Proof. destruct fwd; [|done]. intros [? ?] l' ?. split; [set_solver|done]. Qed.

Lemma returned_bind P f : returned (bind P f) = match P with Ret r => returned (f r) | Op _ _ => false end.
Proof. by destruct P. Qed.

(** Whether a body ends without another operation does not depend on its type. *)
Lemma denote_cases b : (exists r, forall v, denote v b = Ret (erase v r)) \/
  (forall v, returned (denote v b) = false).
Proof.
  induction b as [x|e|cv b IHb k IHk|op k IHk].
  - left. by exists (inl x).
  - left. by exists (inr e).
  - destruct IHb as [[r Hr]|Hr].
    + destruct (IHk (erase cv r)) as [[r2 Hr2]|Hr2]; [left; exists r2|right]; intros v; simpl; rewrite Hr; simpl; auto.
    + right. intros v. simpl. rewrite returned_bind. specialize (Hr cv). by destruct (denote cv b).
  - by right.
Qed.

Lemma returned_denote v v' b : returned (denote v' b) = returned (denote v b).
Proof. destruct (denote_cases b) as [[r Hr]|Hr]; [by rewrite !Hr|by rewrite !Hr]. Qed.

Lemma susp_resumes w p v cont req fwd l P : susp (frames w) p v cont req fwd l P -> fwd_ok (frames w) p fwd l ->
  exists t f op k kk, frames w !! t = Some f /\ at_ f = Waiting op k /\ P = Op op kk /\
    (forall u g op' k', u ∈ l -> frames w !! u = Some g -> at_ g = Waiting op' k' -> u = t) /\
    forall x, exists h w1 h2 w2, (forall fuel, run_body fuel t (k x) w = Done (h, w1)) /\
      rtc seg (h, w1) (h2, w2) /\ outcome w l p v cont req fwd (kk x) h2 w2 /\
      exists ev, log w2 = log w ++ ev /\ if returned (denote true (k x)) then t = p /\ returned (kk x) = true \/ Delete t ∈ ev
        else returned (kk x) = false /\ Delete t ∉ ev.
Proof.
  remember (frames w) as F eqn:EF. intros Hs. induction Hs as [p v cont req fwd op k Hp|
    p v cont req fwd c cv creq cfwd k l P Hp Hs IH Hn Hcf Hcr]; intros Hf; subst F.
  - eexists p, _, op, k, _. split_and!; [done..| |].
    + by intros u ???->%list_elem_of_singleton ??.
    + intros x. destruct (body_runs (k x) v p w (Waiting op k) cont req fwd) as (h & w1 & h2 & w2 & Hb & Hs & Ho);
        [done|by eapply fwd_ok_mono; [done|set_solver]|].
      exists h, w1, h2, w2. split_and!; [done..|]. rewrite (returned_denote v true). simpl.
      assert (exists l2, ran w w2 (others w [p] p) [p] l2) as (l2 & _ & ev & Hev & _ & HD)
        by (destruct Ho as [w2 l2 P _ _ _ Hr|w2 r _ _ Hr]; by eexists).
      exists ev. split; [done|]. destruct (returned (denote v (k x))) eqn:Er; [by left|].
      split; [done|]. apply HD. split; [by rewrite Hp|]. by intros ?%list_elem_of_singleton.
  - assert (c ∈ l) as Hc by (destruct (susp_head _ _ _ _ _ _ _ _ Hs) as [l' ->]; by left).
    assert (p <> c) as Hpc by (by intros ->).
    destruct IH as (t & f & op & kc & kk & Ht & Hat & -> & Hu & Hrun).
    { destruct Hcf as [->|[-> _]]; [|done]. split; [set_solver|by rewrite Hp]. }
    eexists t, f, op, kc, _. split_and!; [done|done|reflexivity| |].
    + intros u g op' k' [->|Hin]%elem_of_cons Hg Hw; [|by eapply Hu]. rewrite Hp in Hg. by injection Hg as <-.
    + intros x. destruct (Hrun x) as (h & w1 & h2 & w2 & Hb & Hs2 & Ho & ev & Hev & Hends).
      destruct (await_outcome w p v cont req fwd c cv k creq cfwd l (kk x) h2 w2) as (h3 & w3 & Hs3 & Ho3 & ev2 & Hev2 & Hc2);
        [intros; apply body_runs|done|by eapply fwd_ok_mono; [done|set_solver]|done..|].
      exists h, w1, h3, w3. split_and!; [done|by etrans|done|]. exists (ev ++ ev2). rewrite Hev2, Hev, app_assoc.
      split; [done|]. destruct (returned (denote true (kc x))).
      * right. apply elem_of_app. destruct Hends as [[-> Er]|?]; [|by left]. rewrite Er in Hc2. by right.
      * destruct Hends as [Er Hd]. rewrite Er in Hc2. subst ev2. rewrite app_nil_r. split; [|done]. by destruct (kk x).
Qed.

Lemma transfer_seg h w w2 : rtc seg (h, w) (noop_coroutine, w2) -> exists n, forall fuel, (n <= fuel)%nat ->
  transfer fuel h w = Done (tt, w2).
Proof.
  remember (h, w) as a eqn:Ea. remember (noop_coroutine, w2) as b eqn:Eb. intros Hr. revert h w Ea.
  induction Hr as [|a [h1 w1] b [Hne Hs] Hr IH]; intros h w ->.
  - injection Eb as -> ->. exists 0%nat. intros [|fuel] _; done.
  - destruct (IH Eb h1 w1 eq_refl) as [n Hn]. exists (S n). intros [|fuel] Hfuel; [lia|]. simpl in *.
    destruct h; [done|..]; (rewrite (run_bind _ _ _ _ _ (Hs fuel)); apply Hn; lia).
Qed.

Lemma transfer_det h w w2 fuel w' : rtc seg (h, w) (noop_coroutine, w2) -> transfer fuel h w = Done (tt, w') -> w' = w2.
Proof.
  remember (h, w) as a eqn:Ea. remember (noop_coroutine, w2) as b eqn:Eb. intros Hr. revert h w fuel Ea.
  induction Hr as [|a [h1 w1] b [Hne Hs] Hr IH]; intros h w fuel ->.
  - injection Eb as -> ->. destruct fuel; simpl; by intros [= <-].
  - simpl in Hne. destruct fuel as [|fuel]; [by destruct h|]. simpl in *. destruct h; [done|..];
      (rewrite (run_bind _ _ _ _ _ (Hs fuel)); by apply IH).
Qed.

(** ** Requests to stop *)

Lemma susp_requested F p v cont req fwd l P : susp F p v cont req fwd l P -> req = true ->
  forall x f, x ∈ l -> F !! x = Some f -> stop_requested f = true.
Proof.
  induction 1 as [p v cont req fwd op k Hp|p v cont req fwd c cv creq cfwd k l P Hp Hs IH Hn Hcf Hcr]; intros Hreq x f Hx Hf.
  - apply list_elem_of_singleton in Hx as ->. rewrite Hp in Hf. by injection Hf as <-.
  - apply elem_of_cons in Hx as [->|Hx]; [rewrite Hp in Hf; by injection Hf as <-|]. by eapply IH; auto.
Qed.

Lemma run_callbacks_one fuel p f c b w w1 g w2 : frames w !! p = Some f -> callbacks f = [c] -> c <> p ->
  w1 = mkWorld (<[p := with_callbacks [] f]> (frames w)) (spawns w) (log w) ->
  _M_request_stop fuel c w1 = Done (b, w2) -> frames w2 !! p = Some g -> callbacks g = [] ->
  run_callbacks (S fuel) p w = Done (tt, w2).
Proof.
  intros Hp Hcb Hc Ew1 Hr Hg Hcg. cbn [run_callbacks]. tstep. rewrite Hcb. tstep. rewrite <- Ew1.
  unfold _M_request_stop in Hr. unfold mbind at 1, M_bind at 1 in Hr. unfold mbind at 1, M_bind at 1.
  destruct (load c w1) as [[cf w1']|]; [|done]. unfold mbind at 1, M_bind at 1.
  destruct (stop_requested cf).
  - injection Hr as <- <-. by eapply run_callbacks_none.
  - unfold mbind, M_bind in Hr. unfold mbind at 1, M_bind at 1. destruct (update c _ w1') as [[[] w3]|]; [|done].
    destruct (run_callbacks fuel c w3) as [[[] w4]|]; [|done]. injection Hr as <- <-. by eapply run_callbacks_none.
Qed.

(** A request to stop goes down the chain from where it is made. *)
Lemma susp_request F p v cont req fwd l P : susp F p v cont req fwd l P -> forall x w fuel, x ∈ l ->
  (forall y, y ∈ l -> frames w !! y = F !! y) -> (length l <= fuel)%nat ->
  exists b F2 req2, _M_request_stop fuel x w = Done (b, mkWorld F2 (spawns w) (log w)) /\
    susp F2 p v cont req2 fwd l P /\ (x = p -> req2 = true) /\ (req = true -> req2 = true) /\
    forall y, y ∉ l -> F2 !! y = frames w !! y.
Proof.
  induction 1 as [p v cont req fwd op k Hp|p v cont req fwd c cv creq cfwd k l P Hp Hs IH Hn Hcf Hcr];
    intros x w fuel Hx Ha Hl; simpl in Hl; (rewrite <- Ha in Hp by by left).
  - apply list_elem_of_singleton in Hx as ->. unfold _M_request_stop. tstep. destruct req.
    + exists true, (frames w), true. split; [by destruct w|]. split_and!; [by constructor|done..].
    + tstep. erewrite (run_bind (run_callbacks fuel p)); [|eapply run_callbacks_none; [apply lookup_insert_eq|done]].
      eexists false, _, true. split; [done|]. split; [constructor; by rewrite lookup_insert_eq|]. split_and!; [done..|].
      intros y Hy. rewrite lookup_insert_ne; [done|set_solver].
  - assert (c ∈ l) as Hc by (destruct (susp_head _ _ _ _ _ _ _ _ Hs) as [l' ->]; by left).
    assert (c <> p) as Hcp by (by intros ->).
    assert (forall y, y ∈ l -> frames w !! y = F !! y) as Ha' by (intros; apply Ha; by right).
    destruct (decide (x = p)) as [->|Hxp]; [destruct req|].
    + exists true, (frames w), true. split; [unfold _M_request_stop; tstep; by destruct w|].
      split_and!; [|done..]. eapply susp_await; [done|by eapply susp_agree|done..].
    + destruct fuel as [|fuel]; [lia|]. unfold _M_request_stop. tstep. tstep.
      set (w0 := mkWorld _ _ _). set (f1 := mkFrame (Awaiting c k) (storage_construct v) cont true [] fwd).
      set (w1 := mkWorld (<[p := f1]> (frames w0)) (spawns w0) (log w0)).
      destruct (IH c w1 fuel Hc) as (b & F2 & creq2 & Hr & Hs2 & Hc2 & _ & Ho).
      { intros y Hy. simpl. rewrite !lookup_insert_ne by set_solver. by apply Ha'. }
      { lia. }
      assert (F2 !! p = Some f1) as Hp2 by (rewrite Ho by done; apply lookup_insert_eq).
      erewrite (run_bind (run_callbacks (S fuel) p)); [|eapply run_callbacks_one with (g := f1);
        [apply lookup_insert_eq|reflexivity|exact Hcp|reflexivity|exact Hr|exact Hp2|done]].
      exists false, F2, true. split; [done|]. split; [eapply susp_await; [exact Hp2|exact Hs2|done|by destruct Hcf as [|[]]; [left|]|by auto]|].
      split_and!; [done..|]. intros y Hy. rewrite Ho by set_solver. simpl. by rewrite !lookup_insert_ne by set_solver.
    + destruct (IH x w fuel) as (b & F2 & creq2 & Hr & Hs2 & Hc2 & Hm & Ho); [set_solver|done|lia|].
      exists b, F2, req. split; [done|]. split.
      { eapply susp_await; [by rewrite Ho|exact Hs2|done|done|auto]. }
      split_and!; [done..|]. intros y Hy. apply Ho. set_solver.
Qed.

(** More fuel does not change what a request does. *)
Lemma run_callbacks_fuel n m p w w2 : (n <= m)%nat -> run_callbacks n p w = Done (tt, w2) -> run_callbacks m p w = Done (tt, w2).
Proof.
  revert m p w w2. induction n as [|n IH]; intros [|m] p w w2 Hle; try lia; cbn [run_callbacks]; try done;
    unfold mbind, M_bind; (destruct (load p w) as [[f w1]|]; [|done]); destruct (callbacks f) as [|c cs]; try done.
  destruct (update p _ w1) as [[[] w3]|]; [|done]. destruct (load c w3) as [[g w4]|]; [|done].
  destruct (stop_requested g); [apply IH; lia|]. destruct (update c _ w4) as [[[] w5]|]; [|done].
  destruct (run_callbacks n c w5) as [[[] w6]|] eqn:E; [|done]. rewrite (IH m c w5 w6) by (done || lia). apply IH. lia.
Qed.

Lemma request_stop_fuel n m p w b w2 : (n <= m)%nat -> _M_request_stop n p w = Done (b, w2) -> _M_request_stop m p w = Done (b, w2).
Proof.
  intros Hle. unfold _M_request_stop, mbind, M_bind. destruct (load p w) as [[f w1]|]; [|done].
  destruct (stop_requested f); [done|]. destruct (update p _ w1) as [[[] w3]|]; [|done].
  destruct (run_callbacks n p w3) as [[[] w4]|] eqn:E; [|done]. by rewrite (run_callbacks_fuel n m p w3 w4).
Qed.

(** ** Executions *)

(** A root is created, handed to [__async_spawn] and started. *)
Definition spawn (fuel : nat) (is_void : bool) (b : body) : M world ptr :=
  p ← call is_void b;
  q ← __async_spawn p;
  s ← spawn_load q;
  transfer fuel (task_handle (__resume_ s));;
  mret q.

Definition start : world := mkWorld ∅ ∅ [].

Inductive execution (v : bool) (b : body) : world -> list (Z * Z) -> Prop :=
  | execution_spawn fuel q w : spawn fuel v b start = Done (q, w) -> execution v b w []
  | execution_complete fuel w io p f op k x w' : execution v b w io ->
      frames w !! p = Some f -> at_ f = Waiting op k -> complete fuel p x w = Done (tt, w') ->
      execution v b w' (io ++ [(op, x)])
  | execution_stop fuel w io p r w' : execution v b w io ->
      _M_request_stop fuel p w = Done (r, w') -> execution v b w' io.

(** What a world stands for. *)
Inductive stands (v : bool) (w : world) : proc -> Prop :=
  | stands_suspended p q req l P : susp (frames w) p v (spawn_handle q) req None l P ->
      (forall x, x ∉ l -> frames w !! x = None) -> spawns w = {[q := mkSpawn p p]} ->
      replay (log w) [] = Some (reverse l) -> stands v w P
  | stands_ended r : frames w = ∅ -> spawns w = ∅ -> replay (log w) [] = Some [] -> stands v w (Ret r).

Lemma replay_ran w w2 K st st2 : ran w w2 K st st2 -> replay (log w) [] = Some st -> replay (log w2) [] = Some st2.
Proof.
  intros [_ (ev & -> & R & _)] E. rewrite replay_events_app, E. specialize (R []). by rewrite !app_nil_r in R.
Qed.

Lemma outcome_stands v w l p q req P h w2 : outcome w l p v (spawn_handle q) req None P h w2 ->
  (forall x, x ∉ l -> frames w !! x = None) -> spawns w = {[q := mkSpawn p p]} ->
  replay (log w) [] = Some (reverse l) ->
  exists w3, rtc seg (h, w2) (noop_coroutine, w3) /\ stands v w3 P /\ logs w2 w3 (returned P) p /\
    (returned P = false -> spawns w3 = spawns w).
Proof.
  intros Ho Hout Hsp Hlog. destruct Ho as [w2 l2 P Hs Hl2 Ha Hr|w2 r Hr Ha Hran].
  - exists w2. split; [apply rtc_refl|]. split.
    2: { destruct (susp_op _ _ _ _ _ _ _ _ Hs) as (? & ? & ->). split; [exists []; by rewrite app_nil_r|].
      intros _. apply Hr. }
    eapply stands_suspended; [exact Hs| | |by eapply replay_ran].
    + intros x Hx. rewrite Ha by done. case_decide; [done|by apply Hout].
    + by destruct Hr as [-> _].
  - assert (frames w2 !! p = Some (mkFrame End (final_storage v r) (spawn_handle q) req [] None)) as Hp
      by by rewrite Ha, decide_True.
    assert (spawns w2 !! q = Some (mkSpawn p p)) as Hq by (destruct Hran as [-> _]; rewrite Hsp; apply lookup_insert_eq).
    eexists. split; [|split; [|split]].
    + apply rtc_once. split; [done|]. intros fuel. simpl. unfold spawn_final_suspend, spawn_destroy, mbind, M_bind.
      unfold spawn_load. rewrite Hq. cbn [param]. by rewrite (destroy_ended fuel _ _ _ _ _ _ Hp).
    + apply stands_ended; cbn [frames spawns log].
      * apply map_empty. intros x. destruct (decide (x = p)) as [->|]; [apply lookup_delete_eq|].
        rewrite lookup_delete_ne, Ha, decide_False by done. case_decide; [done|]. by rewrite Hout.
      * destruct Hran as [-> _]. rewrite Hsp. apply delete_singleton_eq.
      * apply (replay_ran _ _ _ _ _ Hran) in Hlog. rewrite replay_events_app, Hlog. simpl. by rewrite decide_True.
    + exists [Delete p]. split; [done|]. by left.
    + done.
Qed.

(** The root handed to its owner, and what its first resumption leads to. *)
Lemma spawned_root v b : exists p q w1 w2,
  (forall A (k : ptr -> M world A), (p ← call v b; q ← __async_spawn p; k q) start = k q w1) /\
  spawns w1 !! q = Some (mkSpawn p p) /\ rtc seg (task_handle p, w1) (noop_coroutine, w2) /\ stands v w2 (denote v b) /\
  spawns w2 !! q = if returned (denote v b) then None else Some (mkSpawn p p).
Proof.
  set (p := operator_new start).
  set (q := operator_new (mkWorld {[p := mkFrame (Start b) (storage_construct v) noop_coroutine false [] None]} ∅ [New p])).
  set (w1 := mkWorld {[p := mkFrame (Start b) (storage_construct v) (spawn_handle q) false [] None]} {[q := mkSpawn p p]} [New p]).
  assert (frames w1 !! p = Some (mkFrame (Start b) (storage_construct v) (spawn_handle q) false [] None)) as Hp
    by apply lookup_insert_eq.
  destruct (body_runs b v p w1 (Start b) (spawn_handle q) false None Hp I) as (h & w2 & h2 & w3 & Hb & Hs & Ho).
  destruct (outcome_stands _ _ _ _ _ _ _ _ _ Ho) as (w4 & Hs4 & Hst & _ & Hsp).
  - intros x Hx. simpl. apply lookup_singleton_ne; set_solver.
  - done.
  - done.
  - exists p, q, w1, w4. split_and!; [|apply lookup_insert_eq|eapply rtc_l; [|etrans; [exact Hs|exact Hs4]]|done|].
    + intros A k. unfold call, __async_spawn, update, load, mbind, M_bind, get, put, mret, M_ret, modify.
      simpl. fold p q. cbn. unfold w1. rewrite lookup_insert_eq. cbn. by rewrite insert_insert_eq.
    + split; [done|]. intros fuel. simpl. erewrite (run_bind (load p)) by by apply load_eq. apply Hb.
    + inversion Hst as [? ? ? ? ? Hsu|? _ E _ Er]; [|by rewrite E].
      destruct (susp_op _ _ _ _ _ _ _ _ Hsu) as (? & ? & Eop). rewrite Eop in *. rewrite Hsp by done. apply lookup_insert_eq.
Qed.

Lemma spawn_stands v b : exists q h w1 w2, (forall fuel, spawn fuel v b start =
    (transfer fuel h;; mret q) w1) /\ rtc seg (h, w1) (noop_coroutine, w2) /\ stands v w2 (denote v b).
Proof.
  destruct (spawned_root v b) as (p & q & w1 & w2 & Hrun & Hq & Hs & Hst & _).
  exists q, (task_handle p), w1, w2. split_and!; [|done|done]. intros fuel. unfold spawn. rewrite Hrun.
  unfold spawn_load, mbind, M_bind. by rewrite Hq.
Qed.

Lemma suspended_completes v w p q req l P : susp (frames w) p v (spawn_handle q) req None l P ->
  (forall x, x ∉ l -> frames w !! x = None) -> spawns w = {[q := mkSpawn p p]} -> replay (log w) [] = Some (reverse l) ->
  exists t f op k kk, frames w !! t = Some f /\ at_ f = Waiting op k /\ P = Op op kk /\
    (forall u g op' k', frames w !! u = Some g -> at_ g = Waiting op' k' -> u = t) /\
    forall x, exists h w1 w2, (forall fuel, complete fuel t x w = transfer fuel h w1) /\
      rtc seg (h, w1) (noop_coroutine, w2) /\ stands v w2 (kk x) /\
      (gone t w w2 <-> returned (denote true (k x)) = true).
Proof.
  intros Hs Hout Hsp Hlog. destruct (susp_resumes w p v _ req None l P Hs I) as (t & f & op & k & kk & Ht & Hat & -> & Hu & Hrun).
  exists t, f, op, k, kk. split_and!; [done..| |].
  - intros u g op' k' Hg. apply Hu; [|done]. destruct (decide (u ∈ l)); [done|]. by rewrite Hout in Hg.
  - intros x. destruct (Hrun x) as (h & w1 & h2 & w2 & Hb & Hs2 & Ho & ev & Hev & Hends).
    destruct (outcome_stands _ _ _ _ _ _ _ _ _ Ho Hout Hsp Hlog) as (w3 & Hs3 & Hst & (ev2 & Hev2 & Hp2) & _).
    exists h, w1, w3. split_and!; [|by etrans|done|].
    + intros fuel. unfold complete.
      erewrite (run_bind (load t)) by by apply load_eq. rewrite Hat. by rewrite (run_bind _ _ _ _ _ (Hb fuel)).
    + unfold gone. rewrite Hev2, Hev, <- app_assoc, drop_app_length, elem_of_app. destruct (returned (denote true (k x))).
      * split; [done|]. intros _. destruct Hends as [[-> Er]|?]; [|by left]. rewrite Er in Hp2. by right.
      * destruct Hends as [Er Hd]. rewrite Er in Hp2. subst ev2. split; [|done]. by intros [?|?%not_elem_of_nil].
Qed.

Lemma request_stands v w P p : stands v w P -> is_Some (frames w !! p) -> exists n r w2,
  (forall fuel, (n <= fuel)%nat -> _M_request_stop fuel p w = Done (r, w2)) /\ stands v w2 P.
Proof.
  intros Hst [f Hf]. destruct Hst as [p0 q req l P Hs Hout Hsp Hlog|r E _ _]; [|by rewrite E in Hf].
  assert (p ∈ l) as Hp by (destruct (decide (p ∈ l)); [done|by rewrite Hout in Hf]).
  destruct (susp_request _ _ _ _ _ _ _ _ Hs p w (length l) Hp) as (r & F2 & req2 & Hr & Hs2 & _ & _ & Ho); [done|done|].
  exists (length l), r. eexists. split; [intros fuel Hfuel; by eapply request_stop_fuel|].
  eapply stands_suspended; [exact Hs2| |done|done]. intros x Hx. cbn [frames]. rewrite Ho by done. by apply Hout.
Qed.

Lemma execution_stands v b w io : execution v b w io -> exists P, performs (denote v b) io P /\ stands v w P.
Proof.
  induction 1 as [fuel q w E|fuel w io p f op k x w' _ (P & HP & Hst) Hf Hat E|fuel w io p r w' _ (P & HP & Hst) E].
  - destruct (spawn_stands v b) as (q' & h & w1 & w2 & Hrun & Hs & Hst). rewrite Hrun in E.
    unfold mbind, M_bind in E. destruct (transfer fuel h w1) as [[[] w3]|] eqn:Et; [|done]. injection E as <- <-.
    apply (transfer_det _ _ _ _ _ Hs) in Et as ->. eexists. split; [constructor|done].
  - destruct Hst as [p0 q req l P Hs Hout Hsp Hlog|r E0 _ _]; [|by rewrite E0 in Hf].
    destruct (suspended_completes _ _ _ _ _ _ _ Hs Hout Hsp Hlog) as (t & f' & op' & k' & kk & Ht & Hat' & -> & Hu & Hrun).
    destruct (Hu _ _ _ _ Hf Hat). rewrite Hf in Ht. injection Ht as <-. rewrite Hat in Hat'. injection Hat' as <- <-.
    destruct (Hrun x) as (h & w1 & w2 & Hc & Hs2 & Hst2 & _). rewrite Hc in E. apply (transfer_det _ _ _ _ _ Hs2) in E as ->.
    exists (kk x). split; [by apply performs_snoc|done].
  - assert (is_Some (frames w !! p)) as Hp.
    { unfold _M_request_stop, load, mbind, M_bind in E. destruct (frames w !! p); [eauto|done]. }
    destruct (request_stands _ _ _ _ Hst Hp) as (n & r2 & w2 & Hr & Hst2). exists P. split; [done|].
    pose proof (request_stop_fuel fuel (n + fuel) _ _ _ _ ltac:(lia) E) as E2. rewrite Hr in E2 by lia. by injection E2 as _ <-.
Qed.

(** The first resumption of a root, and [_M_do_execute] of its facade. *)
Lemma root_resumes v b : exists n q w, forall fuel, (n <= fuel)%nat ->
  spawn fuel v b start = Done (q, w) /\
  (p ← call v b; q ← __async_spawn p; execute_root fuel q) start =
    if returned (denote v b) then Fault (Dangling q) else Done (tt, w).
Proof.
  destruct (spawned_root v b) as (p & q & w1 & w2 & Hrun & Hq & Hs & _ & Hq2).
  destruct (transfer_seg _ _ _ Hs) as [n Hn]. exists n, q, w2. intros fuel Hfuel. unfold spawn. rewrite !Hrun.
  unfold execute_root, touch_facade, spawn_load, mbind, M_bind, mret, M_ret. rewrite Hq. cbv beta iota. rewrite Hq. cbn [__resume_].
  rewrite Hn by done. split; [done|]. rewrite Hq2. by destruct (returned (denote v b)).
Qed.

(** The completion of an operation, and [_M_do_execute] of its facade. *)
Lemma operation_resumes v b w io p f op k x : execution v b w io ->
  frames w !! p = Some f -> at_ f = Waiting op k -> exists n w', forall fuel, (n <= fuel)%nat ->
  complete fuel p x w = Done (tt, w') /\
  execute_operation fuel p x w = if returned (denote true (k x)) then Fault (Dangling p) else Done (tt, w').
Proof.
  intros (P & _ & Hst)%execution_stands Hf Hat. destruct Hst as [p0 q req l P Hs Hout Hsp Hlog|r E0 _ _]; [|by rewrite E0 in Hf].
  destruct (suspended_completes _ _ _ _ _ _ _ Hs Hout Hsp Hlog) as (t & f' & op' & k' & kk & Ht & Hat' & _ & Hu & Hrun).
  pose proof (Hu _ _ _ _ Hf Hat) as <-. rewrite Hf in Ht. injection Ht as <-. rewrite Hat in Hat'. injection Hat' as <- <-.
  destruct (Hrun x) as (h & w1 & w2 & Hc & Hs2 & _ & Hgone).
  destruct (transfer_seg _ _ _ Hs2) as [n Hn]. exists n, w2. intros fuel Hfuel.
  assert (complete fuel p x w = Done (tt, w2)) as Ec by by rewrite Hc, Hn. split; [done|].
  unfold execute_operation, get. rewrite (run_bind _ _ w w w) by done. rewrite (run_bind _ _ w tt w2) by done.
  rewrite (run_bind _ _ w2 w2 w2) by done. destruct (returned (denote true (k x))).
  - by rewrite decide_True by by apply Hgone.
  - rewrite decide_False; [done|]. by intros ?%Hgone.
Qed.

(** C9: a tree of tasks behaves like its bodies run in place.  However operations
    complete and stops are requested, the operations awaited so far and their
    completions are those of the process the root's body denotes, in which a
    [co_await] of a task is the task itself followed by the rest.  While the
    process asks for an operation exactly one coroutine is suspended at it;
    when the process has returned, no frame is left and the owner of the root
    is gone; in between the frames that exist are those created and not yet
    destroyed, each destroyed before the one created before it. *)
Theorem tasks_run_in_place v b w io : execution v b w io -> exists P st,
  performs (denote v b) io P /\ replay (log w) [] = Some st /\ NoDup st /\ dom (frames w) = list_to_set st /\
  match P with
  | Ret _ => st = [] /\ spawns w = ∅
  | Op op _ => exists t f k, frames w !! t = Some f /\ at_ f = Waiting op k /\
      forall u g op' k', frames w !! u = Some g -> at_ g = Waiting op' k' -> u = t
  end.
Proof.
  intros (P & HP & Hst)%execution_stands. exists P. destruct Hst as [p q req l P Hs Hout Hsp Hlog|r E1 E2 Hlog].
  - exists (reverse l). split; [done|]. split; [done|]. split; [by rewrite reverse_Permutation; eapply susp_NoDup|]. split.
    + apply set_eq. intros x. rewrite elem_of_dom, elem_of_list_to_set, elem_of_reverse. split.
      * intros [f Hf]. destruct (decide (x ∈ l)); [done|]. by rewrite Hout in Hf.
      * by eapply susp_live.
    + destruct (suspended_completes _ _ _ _ _ _ _ Hs Hout Hsp Hlog) as (t & f & op & k & kk & Ht & Hat & -> & Hu & _).
      by exists t, f, k.
  - exists []. rewrite E1. split_and!; [done|done|constructor|done|done..].
Qed.

(** C14: every resumption ends, and the one access that may go wrong is the last.
    The root starts, the operation a coroutine waits for can complete with any value,
    and a stop can be requested of every task that exists; each call returns once
    it has as much fuel as it needs, without using a frame that is gone, a result
    that is not there, or a stop source with callbacks when it is destroyed.  What
    [_M_do_execute] does after the resumption, reading the facade again, is an access
    to a frame that is gone exactly when the coroutine the facade belongs to has
    ended during the resumption: a root that ends without an operation, or the
    waiting coroutine when it goes on to its end without another one. *)
Theorem resumptions_end v b :
  (exists n q w, forall fuel, (n <= fuel)%nat -> spawn fuel v b start = Done (q, w) /\
     (p ← call v b; q ← __async_spawn p; execute_root fuel q) start =
       match denote v b with Ret _ => Fault (Dangling q) | Op _ _ => Done (tt, w) end) /\
  forall w io, execution v b w io ->
    (forall p f op k x, frames w !! p = Some f -> at_ f = Waiting op k ->
       exists n w', forall fuel, (n <= fuel)%nat -> complete fuel p x w = Done (tt, w') /\
         execute_operation fuel p x w =
           match denote true (k x) with Ret _ => Fault (Dangling p) | Op _ _ => Done (tt, w') end) /\
    (forall p, is_Some (frames w !! p) ->
       exists n r w', forall fuel, (n <= fuel)%nat -> _M_request_stop fuel p w = Done (r, w')).
Proof.
  split.
  - destruct (root_resumes v b) as (n & q & w & Hn). exists n, q, w. intros fuel Hfuel. destruct (Hn fuel Hfuel) as [H1 H2].
    split; [exact H1|]. by destruct (denote v b).
  - intros w io Hex. split.
    + intros p f op k x Hf Hat. destruct (operation_resumes v b w io p f op k x Hex Hf Hat) as (n & w' & Hn).
      exists n, w'. intros fuel Hfuel. destruct (Hn fuel Hfuel) as [H1 H2]. split; [exact H1|]. by destruct (denote true (k x)).
    + intros p Hp. apply execution_stands in Hex as (P & _ & Hst).
      destruct (request_stands _ _ _ _ Hst Hp) as (n & r & w2 & Hr & _). eauto.
Qed.

(** C15: once a stop has been requested of a task, it has been requested of every
    task created after it that still exists: of the one it awaits and so on
    down to the one that is suspended at an operation, those awaited after the
    request included. *)
Theorem stop_reaches_leaf v b w io p f above below x g : execution v b w io ->
  replay (log w) [] = Some (above ++ p :: below) -> frames w !! p = Some f -> stop_requested f = true ->
  x ∈ above -> frames w !! x = Some g -> stop_requested g = true.
Proof.
  intros (P & _ & Hst)%execution_stands Hlog Hp Hreq Hx Hg.
  destruct Hst as [p0 q req l P Hs Hout Hsp Hlog'|r E0 _ _]; [|by rewrite E0 in Hg].
  rewrite Hlog in Hlog'. injection Hlog' as E. apply (f_equal reverse) in E. rewrite reverse_involutive in E.
  rewrite reverse_app, reverse_cons, <- app_assoc in E. simpl in E.
  assert (x ∈ reverse above) as Hx' by (by apply elem_of_reverse). clear Hx Hout Hsp Hlog.
  remember (reverse below) as b1 eqn:Eb. clear Eb. revert b1 E.
  induction Hs as [p1 v1 cont1 req1 fwd1 op k Hp1|p1 v1 cont1 req1 fwd1 c cv creq cfwd k l P Hp1 Hs IH Hn Hcf Hcr]; intros b1 E.
  - destruct b1 as [|y [|]]; [|done|done]. injection E as -> E. rewrite E in Hx'; by apply not_elem_of_nil in Hx'.
  - destruct b1 as [|y b1]; simpl in E.
    + injection E as -> E; rewrite E in Hx'. rewrite Hp1 in Hp. injection Hp as <-. simpl in Hreq. subst req1.
      by apply (susp_requested _ _ _ _ _ _ _ _ Hs (Hcr eq_refl) x).
    + injection E as -> E. by eapply IH.
Qed.

(** ** Tasks that do not run to their end *)

Lemma fresh_frame_destroy fuel p b v w : frames w !! p = Some (mkFrame (Start b) (storage_construct v) noop_coroutine false [] None) ->
  __coro_destroy fuel p w = if v then Done (tt, mkWorld (delete p (frames w)) (spawns w) (log w ++ [Delete p])) else Fault Undefined.
Proof.
  intros Hp. destruct fuel; simpl; tstep; rewrite (run_bind (mret tt) _ w tt w) by done; tstep; by destruct v.
Qed.

(** a task that is created and never awaited is destroyed with its storage in
    the state [_S_none], which the destructor takes to be impossible; only a
    task of type [void] can be dropped. *)
Theorem unawaited_task_is_undefined fuel v b w :
  (p ← call v b; __coro_destroy fuel p) w =
    if v then Done (tt, mkWorld (frames w) (spawns w) (log w ++ [New (operator_new w); Delete (operator_new w)]))
    else Fault Undefined.
Proof.
  unfold call. rewrite (run_bind _ _ w (operator_new w) (mkWorld
    (<[operator_new w := mkFrame (Start b) (storage_construct v) noop_coroutine false [] None]> (frames w)) (spawns w)
    (log w ++ [New (operator_new w)]))) by done.
  rewrite (fresh_frame_destroy fuel _ b v) by apply lookup_insert_eq. destruct v; [|done]. cbn [frames spawns log].
  assert (operator_new w ∉ dom (frames w)) as Hn.
  { unfold operator_new. pose proof (frame_new_fresh (dom (frames w) ∪ dom (spawns w))). set_solver. }
  rewrite delete_insert_id by by apply not_elem_of_dom. by rewrite <- app_assoc.
Qed.

Lemma susp_destroy F p v cont req fwd l P : susp F p v cont req fwd l P -> forall w fuel,
  (forall y, y ∈ l -> frames w !! y = F !! y) -> (length l <= fuel)%nat ->
  (exists f, __coro_destroy fuel p w = Fault f) \/
  v = true /\ (req = true \/ l = [p]) /\ exists w', __coro_destroy fuel p w = Done (tt, w') /\ forall y, y ∉ l -> frames w' !! y = frames w !! y.
Proof.
  induction 1 as [p v cont req fwd op k Hp|p v cont req fwd c cv creq cfwd k l P Hp Hs IH Hn Hcf Hcr];
    intros w fuel Ha Hl; simpl in Hl; (rewrite <- Ha in Hp by by left); (destruct fuel as [|fuel]; [lia|]); simpl; tstep.
  - rewrite (run_bind (mret tt) _ w tt w) by done. tstep. destruct v; [right|left; by eexists].
    split; [done|]. split; [by right|]. eexists. split; [done|]. intros y Hy. cbn [frames]. rewrite lookup_delete_ne; [done|set_solver].
  - destruct (IH w fuel) as [[f E]|(_ & _ & w' & E & Ho)]; [intros; apply Ha; by right|lia|left|].
    + exists f. unfold mbind, M_bind. by rewrite E.
    + rewrite (run_bind _ _ _ _ _ E). erewrite (run_bind (load p)) by (apply load_eq; by rewrite Ho). simpl.
      destruct req; [|left; by eexists]. destruct v; [right|left; by eexists].
      split; [done|]. split; [by left|]. eexists. split; [done|]. intros y Hy. cbn [frames].
      rewrite lookup_delete_ne by set_solver. apply Ho. set_solver.
Qed.

(** a root that is suspended cannot be destroyed: if it is not of type [void]
    its storage is in the state [_S_none], and if it awaits a task and no stop
    has been requested of it that task's callback is still registered with its
    stop source, which is destroyed first and asserts that there is none. *)
Theorem suspended_root_cannot_be_destroyed v b w io q s f fuel : execution v b w io ->
  spawns w !! q = Some s -> frames w !! param s = Some f -> (length (log w) <= fuel)%nat ->
  v = false \/ stop_requested f = false /\ (forall op k, at_ f <> Waiting op k) ->
  exists e, spawn_destroy fuel q w = Fault e.
Proof.
  intros (P & _ & Hst)%execution_stands Hq Hf Hfuel Hv.
  destruct Hst as [p0 q0 req l P Hs Hout Hsp Hlog|r E0 _ _]; [|by rewrite E0 in Hf].
  rewrite Hsp in Hq. apply lookup_singleton_Some in Hq as [-> <-]. simpl in Hf.
  assert (length l <= length (log w))%nat as Hlen.
  { rewrite <- (length_reverse l). apply replay_length in Hlog. simpl in Hlog. lia. }
  unfold spawn_destroy, spawn_load, mbind, M_bind. rewrite Hsp. rewrite lookup_singleton_eq. cbn [param].
  destruct (susp_destroy _ _ _ _ _ _ _ _ Hs w fuel) as [[e E]|(-> & Hr & _)]; [done|lia|rewrite E; eauto|].
  destruct Hv as [|[Hr1 Hat]]; [done|]. inversion Hs as [? ? ? ? ? op k Hp|? ? ? ? ? c cv creq cfwd k l' P' Hp Hs' Hn]; subst;
    rewrite Hp in Hf; injection Hf as <-; simpl in *.
  - by destruct (Hat op k).
  - destruct Hr as [Hr|[= Hr]]; [congruence|]. destruct (susp_head _ _ _ _ _ _ _ _ Hs') as [l2 ->]. done.
Qed.

End proofs.

(** ** A root of type [void] that awaits a task

    The task waits for operation 7 and returns one more than its completion;
    the root then waits for the operation of that number. *)
Module task_example.

Lemma foldr_max_ge (l : list Z) x : x ∈ l -> x <= foldr Z.max 0 l.
Proof. induction l as [|y l IH]; [by intros ?%not_elem_of_nil|]. intros [->|Hx%IH]%elem_of_cons; simpl; lia. Qed.

#[export] Instance bump : FrameAllocation.
Proof.
  refine {| frame_new s := 16 + foldr Z.max 0 (elements s) |}.
  intros s Hs. apply elem_of_elements, foldr_max_ge in Hs. lia.
Defined.

Definition child : body := co_wait 7 (fun x => co_return (x + 1)).
Definition root : body := co_await false child (fun r =>
  match r with inl v => co_wait v (fun _ => co_return 0) | inr e => throw_ e end).

Definition after_spawn : world := match spawn 10 true root start with Done (_, w) => w | Fault _ => start end.
Definition leaf : ptr := 48.
Definition after_child : world := match complete 10 leaf 41 after_spawn with Done (_, w) => w | Fault _ => start end.

Lemma run_spawn : execution true root after_spawn [].
Proof. apply (execution_spawn _ _ 10 32). vm_compute. reflexivity. Qed.

Lemma run_child : execution true root after_child [(7, 41)].
Proof.
  apply (execution_complete _ _ 10 after_spawn [] leaf (mkFrame (Waiting 7 (fun x => co_return (x + 1))) (generic _S_none)
    (task_handle 16) false [] (Some 16)) 7 (fun x => co_return (x + 1)) 41 after_child run_spawn);
    vm_compute; reflexivity.
Qed.

Lemma tasks_run_in_place_witness : exists P st,
  performs (denote true root) [(7, 41)] P /\ replay (log after_child) [] = Some st /\ NoDup st /\
  dom (frames after_child) = list_to_set st /\
  match P with
  | Ret _ => st = [] /\ spawns after_child = ∅
  | Op op _ => exists t f k, frames after_child !! t = Some f /\ at_ f = Waiting op k /\
      forall u g op' k', frames after_child !! u = Some g -> at_ g = Waiting op' k' -> u = t
  end.
Proof. apply (tasks_run_in_place true root after_child [(7, 41)] run_child). Defined.

(** The task ends when operation 7 has completed, and the root goes on to another one. *)
Lemma resumptions_end_witness :
  (exists n w', forall fuel, (n <= fuel)%nat -> complete fuel leaf 5 after_spawn = Done (tt, w') /\
     execute_operation fuel leaf 5 after_spawn = Fault (Dangling leaf)) /\
  exists n q, forall fuel, (n <= fuel)%nat ->
    (p ← call true (co_return 3); q ← __async_spawn p; execute_root fuel q) start = Fault (Dangling q).
Proof.
  split.
  - destruct (resumptions_end true root) as [_ H]. destruct (H after_spawn [] run_spawn) as [Hc _].
    apply (Hc leaf (mkFrame (Waiting 7 (fun x => co_return (x + 1))) (generic _S_none) (task_handle 16) false [] (Some 16))
      7 (fun x => co_return (x + 1)) 5); vm_compute; reflexivity.
  - destruct (resumptions_end true (co_return 3)) as [(n & q & w & Hn) _]. exists n, q.
    intros fuel Hfuel. exact (proj2 (Hn fuel Hfuel)).
Defined.

Definition after_stop : world := match _M_request_stop 10 16 after_spawn with Done (_, w) => w | Fault _ => start end.

Lemma run_stop : execution true root after_stop [].
Proof. apply (execution_stop _ _ 10 after_spawn [] 16 false after_stop run_spawn). vm_compute. reflexivity. Qed.

Lemma stop_reaches_leaf_witness : replay (log after_stop) [] = Some [leaf; 16] /\
  stop_requested (mkFrame (Waiting 7 (fun x => co_return (x + 1))) (generic _S_none) (task_handle 16) true [] (Some 16)) = true.
Proof.
  split; [vm_compute; reflexivity|].
  apply (stop_reaches_leaf true root after_stop [] 16 (mkFrame (Awaiting leaf (fun r =>
    match r with inl v => co_wait v (fun _ => co_return 0) | inr e => throw_ e end)) (void_ None) (spawn_handle 32) true [] None)
    [leaf] [] leaf _ run_stop); try (vm_compute; reflexivity). left.
Defined.

Lemma suspended_root_cannot_be_destroyed_witness : spawns after_spawn !! 32 = Some (mkSpawn 16 16) /\
  exists e, spawn_destroy 10 32 after_spawn = Fault e.
Proof.
  split; [vm_compute; reflexivity|].
  apply (suspended_root_cannot_be_destroyed true root after_spawn [] 32 (mkSpawn 16 16) (mkFrame (Awaiting leaf (fun r =>
    match r with inl v => co_wait v (fun _ => co_return 0) | inr e => throw_ e end)) (void_ None) (spawn_handle 32) false [leaf] None)
    10 run_spawn); try (vm_compute; reflexivity).
  - vm_compute. lia.
  - right. split; [reflexivity|]. intros op k. discriminate.
Defined.
End task_example.

End task.
