(* ===== verification/Main.v ===== *)
(** * [main.cxx]: from the start of the program to the loop

    The program has one scheduler, [__k_schd], constructed before [main] runs
    ([setup], with the members of [__scheduler] over it), and the descriptor
    [__k_accept].  Module [main] models the construction of these and [main] up
    to [_M_run_until_stop], which is the system of module [runtime].  The system
    calls are parameters; [calls] records those [main] makes. *)

From S2P Require Import Prelude Memory Cells IntrusiveQueue IntrusiveHeap Tasks Rings Scheduler Wakeup Setup Runtime.
Import intrusive_queue tasks rings scheduler.

Module main.

(** ** The socket interface *)

Definition AF_INET : Z := 2.
Definition SOCK_STREAM : Z := 1.
Definition SOL_SOCKET : Z := 1.
Definition SO_REUSEADDR : Z := 2.
Definition SOMAXCONN : Z := 4096.
Definition INADDR_ANY : Z := 0.

(** Network byte order on a little-endian processor. *)
Definition htons (z : Z) : Z := Z.lor (u16 (Z.shiftl z 8)) (Z.shiftr z 8).
Definition htonl (z : Z) : Z :=
  Z.lor (u32 (Z.shiftl (htons (u16 z)) 16)) (htons (Z.shiftr z 16)).

Record sockaddr_in := mkAddr { sin_family : Z; sin_port : Z; s_addr : Z }.
Definition zero_addr : sockaddr_in := mkAddr 0 0 0.

Inductive call :=
  | Socket (domain type protocol : Z)
  | Setsockopt (fd level optname value : Z)
  | Bind (fd : Z) (addr : sockaddr_in)
  | Listen (fd backlog : Z).

(** ** The program *)

Record program (C : Type) := mkProgram {
  __k_accept : Z;
  calls : list call;
  __k_schd : __scheduler C
}.
Arguments mkProgram {C}. Arguments __k_accept {C}. Arguments calls {C}. Arguments __k_schd {C}.

Section main.
Context {C : Type}.
Implicit Types (s : program C).

(** The system: the calls of module [setup], what the rings hold when the system
    has mapped them, and the answers to the calls of [main]. *)
Context (io_uring_setup : Z -> setup.io_uring_params -> Z * setup.io_uring_params) (eventfd : Z).
Context (mmap : Z -> Z -> Z -> ptr) (io_uring_register : Z -> Z -> Z) (errno : Z).
Context (rings : setup.io_uring_params -> __submission_queue * __completion_queue).
Context (ask : list call -> call -> Z).
Context (client0 : C).

Definition empty_heap : timers := intrusive_heap.mkHeap ∅ nullptr 0.

(** The members of [__scheduler] once its base is constructed. *)
Definition members (__params_ : setup.io_uring_params) : __scheduler C :=
  mkSched ∅ empty_heap (rings __params_).1 (rings __params_).2 empty_queue empty_queue 0 0
    (setup.cq_entries __params_) client0 [].

Definition __scheduler_construct (__n __flags : Z) : M setup.state (setup.may_throw (__scheduler C)) :=
  setup.then_ (setup.__scheduler_base_construct io_uring_setup eventfd mmap io_uring_register errno __n __flags)
    (fun __params_ => mret (inr (members __params_))).

Definition system_call (c : call) : M (program C) Z := fun s =>
  Done (ask (calls s) c, mkProgram (__k_accept s) (calls s ++ [c]) (__k_schd s)).
Definition set_accept (fd : Z) s : program C := mkProgram fd (calls s) (__k_schd s).
Definition on_schd {A} (m : M (__scheduler C) A) : M (program C) A := fun s =>
  match m (__k_schd s) with
  | Done (a, d) => Done (a, mkProgram (__k_accept s) (calls s) d)
  | Fault f => Fault f
  end.

(** [__async_accept __accept;] at [__op], on the stack of [main]. *)
Definition construct_accept (__op : ptr) : M (__scheduler C) unit :=
  modify (fun d => set_objs (<[__op := mkFacade nullptr nullptr (Ioring 0)]> (objs d)) d).

Definition main_addr : sockaddr_in :=
  let __addr := zero_addr in
  let __addr := mkAddr AF_INET (sin_port __addr) (s_addr __addr) in
  let __addr := mkAddr (sin_family __addr) (htons 8888) (s_addr __addr) in
  mkAddr (sin_family __addr) (sin_port __addr) (htonl INADDR_ANY).

(** [main] up to [__k_schd._M_run_until_stop()]. *)
Definition main (__op : ptr) : M (program C) unit :=
  fd ← system_call (Socket AF_INET SOCK_STREAM 0);
  modify (set_accept fd);;
  let __yes := 1 in
  s ← get; system_call (Setsockopt (__k_accept s) SOL_SOCKET SO_REUSEADDR __yes);;
  s ← get; system_call (Bind (__k_accept s) main_addr);;
  s ← get; system_call (Listen (__k_accept s) SOMAXCONN);;
  on_schd (construct_accept __op);;
  on_schd (submit_pending __op).

(** The whole program: an exception of the constructor of [__k_schd] has no
    handler. *)
Definition program_start (__op : ptr) : outcome (program C) :=
  match __scheduler_construct 1024 0 setup.start with
  | Done (inr schd, _) =>
      match main __op (mkProgram (- 1) [] schd) with Done (_, s) => Done s | Fault f => Fault f end
  | Done (inl _, _) => Fault Terminate
  | Fault f => Fault f
  end.

(** What is in the rings when the system has just mapped them. *)
Definition rings_fresh (ks kc : Z) : Prop := let p := (io_uring_setup 1024 (setup.__init_params 0)).2 in
  sq_rep ks (rings p).1 [] /\ cq_rep kc (rings p).2 [] /\ 0 <= setup.cq_entries p < 2 ^ 31.

(** The data with which the loop is entered: one operation was given to the
    scheduler, by its own thread. *)
Definition entering (__op : ptr) (schd : __scheduler C) : runtime.local C :=
  runtime.mkLocal schd [] [] [] [] (∅, ∅) (runtime.mkRequests [__op] [] (∅, ∅) []).
Definition loop_data (__op : ptr) s : runtime.local C := entering __op (__k_schd s).

Context (Hsys : setup.system_ok io_uring_setup eventfd mmap).
Context (ks kc : Z) (Hrings : rings_fresh ks kc).

Lemma empty_timers : timers_rep empty_heap ∅ ∅.
Proof.
  exists intrusive_heap.Leaf, []. split_and!; [|done|apply map_disjoint_empty_l|].
  - unfold intrusive_heap.heap_rep, intrusive_heap.hp, holds. split_and!; try done; constructor.
  - intros x k. simpl. by rewrite lookup_empty.
Qed.

(** A new scheduler that holds one operation. *)
Lemma first_operation (p := (io_uring_setup 1024 (setup.__init_params 0)).2) (__op : ptr) : __op <> nullptr ->
  exists d, (construct_accept __op;; submit_pending __op) (members p) = Done (tt, d) /\
    queued (objs d) (__io_pending_ d) [__op] /\
    runtime.wf ks kc (entering __op d).
Proof using Hrings.
  intros Hop. set (d0 := set_objs (<[__op := mkFacade nullptr nullptr (Ioring 0)]> ∅) (members p)).
  assert (is_ioring (objs d0) __op 0) as Hio by (split; [done|]; eexists; split; [apply lookup_insert_eq|done]).
  assert (queued (objs d0) (__io_pending_ d0) []) as Hq0
    by (split; [done|]; intros x Hx; by apply not_elem_of_nil in Hx).
  destruct (proj1 (returns_Done _ _ _) (submit_pending_spec d0 __op 0 [] Hq0 (not_elem_of_nil _) Hio (Z.le_refl 0)))
    as ([] & d & E & q & m & -> & Hq & _).
  exists (set_io q (set_objs m d0)). split; [|split; [exact Hq|]].
  - by rewrite (run_bind (construct_accept __op) _ (members p) tt d0 eq_refl).
  - destruct Hrings as (Hs & Hc & He). split; cbn [runtime.st runtime.entered runtime.held runtime.posted runtime.todo
      runtime.alarms runtime.reqs entering]; try done.
    + split; [| |done|by exists []].
      * exists [__op]. split; [exact Hq|done].
      * exists [], []. split; [done|]. split; [|constructor]. split_and!; [done|constructor|apply empty_timers].
    + split_and!; [done|done|apply NoDup_nil_2|apply He|apply He|]. intros x Hx. by apply not_elem_of_nil in Hx.
    + split; [done|]. intros x Hx. by apply not_elem_of_nil in Hx.
Qed.

(** C16: whatever the socket calls answer, the program either ends because the
    constructor of its scheduler throws, and only then, or enters the loop in a state from
    which every run is a run of module [runtime]: the accept is the one operation,
    it is queued, nothing is with the kernel, and the four calls were made in order on the
    descriptor that [socket] has returned, even when it has returned none. *)
Theorem main_enters_loop (__op : ptr) : __op <> nullptr ->
  match program_start __op with
  | Done s =>
      let fd := ask [] (Socket AF_INET SOCK_STREAM 0) in
      __k_accept s = fd /\
      calls s = [Socket AF_INET SOCK_STREAM 0; Setsockopt fd SOL_SOCKET SO_REUSEADDR 1;
        Bind fd (mkAddr AF_INET (8888 mod 256 * 256 + 8888 / 256) 0); Listen fd SOMAXCONN] /\
      queued (objs (__k_schd s)) (__io_pending_ (__k_schd s)) [__op] /\
      runtime.wf ks kc (loop_data __op s)
  | Fault f => f = Terminate /\ exists e,
      setup.__scheduler_base_construct io_uring_setup eventfd mmap io_uring_register errno 1024 0 setup.start =
        Done (inl e, setup.start)
  end.
Proof using Hsys Hrings.
  intros Hop. unfold program_start, __scheduler_construct.
  pose proof (setup.construct_runs io_uring_setup eventfd mmap io_uring_register errno Hsys 1024 0) as Hc.
  pose proof (first_operation __op Hop) as Hfirst.
  destruct (io_uring_setup 1024 (setup.__init_params 0)) as [rc p]. cbn [snd] in Hfirst.
  assert ((exists e, setup.__scheduler_base_construct io_uring_setup eventfd mmap io_uring_register errno 1024 0 setup.start =
      Done (inl e, setup.start)) \/
    exists h, setup.__scheduler_base_construct io_uring_setup eventfd mmap io_uring_register errno 1024 0 setup.start =
      Done (inr p, h)) as [[e E]|[h E]].
  { case_decide; [left; by eexists|]. destruct Hc as ([e|?] & h & _ & _ & _ & E & _); [left|right]; by eexists. }
  - rewrite (setup.then_done _ _ _ _ _ E). split; [done|by exists e].
  - rewrite (setup.then_done _ _ _ _ _ E). destruct Hfirst as (d & Ed & Hq & Hwf).
    unfold mret, M_ret, main, construct_accept, on_schd, system_call, modify, get, mbind, M_bind in *. cbn in Ed |- *.
    by rewrite Ed.
Qed.
End main.

(** ** An example *)
Module main_example.
Import ring_example setup.setup_example.

(** An empty submission ring of 1024 and completion ring of 2048 entries; the
    listening socket cannot be had. *)
Definition rings (p : setup.io_uring_params) : __submission_queue * __completion_queue :=
  (mkSq 0 0 (replicate 1024 0) (replicate 1024 zero_sqe) 1023 1024, mkCq 0 0 (replicate 2048 c1) 2047).
Definition no_socket (_ : list call) (_ : call) : Z := - 1.
Abbreviation start := (program_start (C := nat) io_uring_setup 6 mmap register 0 rings no_socket 0%nat).

Lemma fresh : rings_fresh io_uring_setup rings 10 11.
Proof.
  split; [|split; [|by vm_compute]].
  - split_and!; [split_and!; try done; by vm_compute| |by vm_compute|by vm_compute]. intros j e He. by rewrite lookup_nil in He.
  - split_and!; [split_and!; try done; by vm_compute| |by vm_compute|by vm_compute]. intros j e He. by rewrite lookup_nil in He.
Qed.

Lemma main_enters_loop_witness : exists s, start 64 = Done s /\ __k_accept s = - 1 /\
  calls s = [Socket 2 1 0; Setsockopt (- 1) 1 2 1; Bind (- 1) (mkAddr 2 47138 0); Listen (- 1) 4096] /\
  queued (objs (__k_schd s)) (__io_pending_ (__k_schd s)) [64] /\ runtime.wf 10 11 (loop_data 64 s).
Proof.
  pose proof (main_enters_loop io_uring_setup 6 mmap register 0 rings no_socket 0%nat system 10 11 fresh 64 ltac:(discriminate)) as H.
  destruct (start 64) as [s|f] eqn:E; [|exfalso].
  - exists s. destruct H as (H1 & H2 & H3 & H4). split; [reflexivity|]. split; [exact H1|]. split; [exact H2|].
    split; [exact H3|exact H4].
  - destruct H as (_ & e & He). vm_compute in He. discriminate He.
Defined.
End main_example.
End main.
